(* ===== verification/_CoqProject ===== *)
-Q . S2P
Prelude.v
Varint.v
GoMaps.v
GoStrings.v
Types.v
Config.v
Storage.v
RaftLog.v
RawNode.v
Membership.v
NodeSafety.v
Replication.v
Votes.v
Cluster.v
ElectionSafety.v
ClusterSafety.v
LogHistory.v
LogSteps.v
LogCalls.v
StateMachineSafety.v
KVStore.v
Codec.v
Bolt.v
Node.v
Jitter.v
Driver.v
EventQueue.v
Sim.v
SimSafety.v
SimRun.v
SimChecker.v
SimTrace.v
Simctl.v
Chaos.v
Clock.v
Transport.v
ExactlyOnce.v
ReadBarriers.v
NodeAPI.v
KVServer.v
KVClient.v
Workload.v
Kvctl.v
Chaosctl.v
Raftd.v
Metrics.v
