(* ===== verification/Prelude.v ===== *)
(** * raftkv: a replicated key/value store on Raft

    The repository is a key/value store replicated with Raft, written in Go.  Its core
    (package [raft]) is a deterministic state machine that does no input or output: it is
    given ticks, messages and proposals and leaves messages and committed entries behind.
    Around it are a driver with one run loop per node ([node]), durable storage on bbolt
    ([storage]), a gRPC transport ([transport], [codec]), the replicated map
    ([kvstore]), the client API ([kvserver]), a simulator that runs a whole cluster in one
    thread under faults and checks it ([sim]), a harness that records what clients
    of a real cluster saw and checks it for linearizability ([chaos]), and the commands
    over these: the server raftd, the client kvctl, simctl and chaosctl ([cmd]).

    ** Method

    Go code is translated into Rocq functions.  Code that changes state runs in the monad
    [M] below: a call returns, fails with an error, panics, or exhausts the fuel of a
    recursion, and the state survives all four.  A [uint64] is an [N] with wrap-around
    written out, an [int] a [Z], a slice a list, a map a [gmap]; ranging over a map takes
    an arbitrary order (GoMaps.v).  Goroutines that share state become step functions over
    arbitrary schedules.  What is not in the repository is a type class of operations with
    a class of laws, each with a concrete instance: bbolt, protobuf, SHA-256, porcupine,
    the random sources, [fmt]; a gRPC stream may lose what it carries, and is assumed not
    to reorder or repeat it ([net_act_ok] in Transport.v).  The repository's own interfaces are type classes too:
    [Storage], which the core is verified against and which MemoryStorage (Storage.v) and
    Bolt (Bolt.v) are shown to implement, [StateMachine] (Node.v), and [Rand].

    ** Files

    - Prelude, Varint, GoMaps, GoStrings: integers, errors, the monad and its weakest
      preconditions; [encoding/binary]; map order; [strings] and [strconv].
    - Types, Config, Storage, RaftLog, RawNode: package raft.  raft/types.go;
      raft/config.go and the encodings of raft/confchange.go; raft/storage.go and
      raft/memory_storage.go; raft/log.go; and in RawNode the node itself, raft/raft.go,
      election.go, replication.go, read.go, snapshot.go and confchange.go.
    - Membership, NodeSafety, Replication, Votes: one node.  Which configuration is in
      force; that no call panics and what every call keeps; the leader's rules; what
      becomes of term and vote.
    - Cluster, ElectionSafety, ClusterSafety: any number of nodes on a network that loses,
      repeats and reorders, with crashes and restarts between any two calls.
    - LogHistory, LogSteps, LogCalls, StateMachineSafety: the same clusters with a fixed
      membership.  A history of what leaders, candidates and voters had in their logs and
      what was promised; how a node and its disk stand to it; that every call keeps this;
      and the theorems on whole runs.  The history is a device of the proof and models no
      code.
    - KVStore, ExactlyOnce: package kvstore, and what its sessions achieve.
    - Codec: package codec and transport/convert.go.
    - Bolt: storage/bolt.go.
    - Node, Jitter, Driver, ReadBarriers, NodeAPI: package node, the run loop, the seeds of
      its generators (node/rand.go), what the loop guarantees, and the calls clients make
      on it.
    - EventQueue, Sim, SimSafety, SimRun, SimChecker: package sim.  SimTrace shows that a
      simulation does not depend on whether its trace is kept.
    - Simctl: cmd/simctl; fuzzing is a machine of the goroutine that hands out seeds and
      the workers ([fuzz_step]), and its simulations are those of Sim.
    - Chaos: chaos/history.go and chaos/check.go.  Workload: chaos/workload.go, the clients
      as goroutines that share the history ([wl_step]), their calls those of KVClient.
    - Clock: clock/fake.go.  Transport: transport/grpc.go.
    - KVServer, KVClient: package kvserver.  Kvctl: cmd/kvctl, over KVClient.
    - Chaosctl: cmd/chaosctl, over Chaos and Workload.
    - Raftd: cmd/raftd, its flags and the order in which it starts and stops the other
      packages.  Metrics: package metrics.

    ** What is shown

    - The cluster: at most one leader per term for every schedule, every message loss,
      duplication and reordering, and every crash ([election_safety]); nodes stay
      well-formed and neither a call nor a restart panics, but for the two calls the code
      refuses that way ([cluster_never_panics]); a leader only appends
      ([leader_append_only]).
    - The replicated log, for every run with a fixed membership, snapshots and compaction
      included: committed entries never change and never differ between nodes
      ([state_machine_safety]), later leaders have them ([leader_completeness]), and logs
      that share an entry share what precedes it ([log_matching]).
    - The protocol's parts: quorums overlap, also across a joint transition; the commit
      rule; AppendEntries on the receiving side; the configuration in force; votes are
      durable before they are sent.
    - Storage: the bbolt store and the in-memory store are interchangeable for the writes
      and reads of the core ([bolt_conforms]; the term of index 0 is the exception,
      [term_zero_differs]), and reopening recovers the state ([reopen_recovers]).
    - The driver: every caller is answered once ([run_answers_every_caller]), committed
      commands reach the state machine once and in order ([applyCommitted_in_order]), a
      linearizable read sees what was committed before it, and a quorum confirmed the
      leader after it was asked for ([linearizable_read_sees_commits]).
    - The store: retries take effect once, as long as the session is remembered, and what
      eviction forgets is stated ([exactly_once]); replicas agree whatever order Go ranges
      over maps in ([replicas_agree]).
    - The edges: transport, client, server, clock, metrics and flags do what their callers
      rely on; encodings round-trip.  The inbox of the transport is linearizable
      ([inbox_is_atomic]); a client repeats one request per operation
      ([numbers_identify_writes]) and finds the leader in one sweep
      ([call_reaches_leader]).
    - The tools, with positive delays and without disk loss: the simulator ends
      ([simulation_ends]); with a fixed membership it never reports a violation, whatever
      its seed and its other faults ([simulation_clean]), since its nodes are such a
      cluster.  Its one panic is that of a state machine which outgrows the address space
      ([growslice]).  What its checker ([Observe_clean]) and the linearizability checker
      ([verdict_right]) accept is correct.
    - The commands.  Fuzzing ends on every schedule ([fuzz_finishes]), its report does not
      depend on the schedule ([fuzz_exact]), a seed it reports fails alike when run alone
      ([reported_reproduces]), and with a fixed membership it reports no violation
      ([fuzz_clean], which composes the simulator with Raft's safety).  The history a
      workload leaves can be judged ([workload_history]) and is what happened
      ([workload_faithful]); a run ends after its deadline ([workload_ends]); so if chaosctl
      succeeds in a run, one machine could have given every answer that a client heard
      ([chaosctl_explained]), and a history kept can be decided later
      ([recheck_decides]).  A command of kvctl sends one request and no other,
      a write under the session it registered ([kvctl_sends]); raftd reports the first
      service that does not start, and stops what it started in an order that leaves no
      service without what it uses, unless the node stopped on its own
      ([raftd_orderly]).
    - Where the code falls short of its comments, a theorem states what it does:
      [restored_replica_diverges], [compaction_strands_empty_follower],
      [overtaken_write_is_lost], [unanswered_read_rejected], [fired_timer_never_fires_again],
      [snapshot_carries_uncommitted_conf], [snapshot_install_regresses],
      [fuzz_overflow_silent], [no_reads_not_expressible], [empty_history_passes],
      [malformed_write_registers], [failed_start_pulls_disk], [dead_node_exits_clean] and
      others.

    ** Bounds and fuel

    Recursions that are not structural take fuel and are proved never to exhaust it: the
    mutual calls of RawNode ([callDepth], in NodeSafety.v), the heap of the event queue
    (its length), the simulator's loop (by the time left, [simulation_ends]), the fake
    clock ([Advance_fires_in_order]).  Machines of goroutines run under a schedule, a list
    of who moves next; the theorems hold for every schedule, and those on termination
    bound its length and show that somebody can move.  The theorems on the node hold up to the index and
    term 2^64 - 1: [node_ok] and the guards of NodeSafety.v state where a wrap-around
    would begin.  State Machine Safety, Leader Completeness and Log Matching are for
    clusters whose membership is not changed; Election Safety and the absence of panics
    hold across membership changes too.

    ** Not modelled

    Generated protobuf and gRPC code, TLS, dialling, keep-alive and HTTP serving (library
    behaviour); log lines and the text of errors beyond their fixed part; wall-clock time
    and the timers of the driver (a tick is an input); the random generators (any stream);
    JSON, gzip and HTML as formats (operations with laws where a theorem needs them); the
    syntax of flags and the layout of what commands print, such as simctl's progress line
    and raftd's status lines; methods that only make text for people ([String]); the
    interface of package clock and its forwarding to [time]; deployment descriptions. *)

From Stdlib Require Export NArith ZArith Lia.
From stdpp Require Export base gmap sets list strings sorting.

(** ** Scopes and conventions

    [go_scope] holds the notations of the Go fragment: fixed-width arithmetic
    and the state/error monad. *)
Declare Scope go_scope.
Delimit Scope go_scope with go.
Open Scope go_scope.

Create HintDb go discriminated.

(** ** Machine integers

    [uint64] values are [N] kept below [W64]; every addition and subtraction of
    the source goes through [u64_add]/[u64_sub], which wrap around as Go does.
    [int] values are [Z]; [int_add] wraps at 64 bits in two's complement. *)
Definition W64 : N := 18446744073709551616.

Definition u64_add (a b : N) : N := ((a + b) mod W64)%N.
Definition u64_sub (a b : N) : N := ((a + W64 - b mod W64) mod W64)%N.

Definition int_wrap (z : Z) : Z :=
  ((z + 9223372036854775808) mod 18446744073709551616 - 9223372036854775808)%Z.
Definition int_add (a b : Z) : Z := int_wrap (a + b).

Notation "a +u b" := (u64_add a b) (at level 50, left associativity) : go_scope.
Notation "a -u b" := (u64_sub a b) (at level 50, left associativity) : go_scope.

Lemma W64_pos : (0 < W64)%N.
Proof. done. Qed.

Lemma W64_nz : W64 ≠ 0%N.
Proof. done. Qed.

Lemma u64_add_lt a b : (a +u b < W64)%N.
Proof. apply N.mod_lt, W64_nz. Qed.

Lemma u64_sub_lt a b : (a -u b < W64)%N.
Proof. apply N.mod_lt, W64_nz. Qed.

Lemma u64_add_small a b : (a + b < W64)%N → a +u b = (a + b)%N.
Proof. apply N.mod_small. Qed.

Lemma u64_sub_small a b : (a < W64)%N → (b ≤ a)%N → a -u b = (a - b)%N.
Proof.
  intros Ha Hb. unfold u64_sub. rewrite (N.mod_small b) by lia.
  replace (a + W64 - b)%N with (a - b + 1 * W64)%N by lia.
  rewrite N.Div0.mod_add. apply N.mod_small. lia.
Qed.

Lemma u64_succ_ne a : a +u 1 ≠ a.
Proof.
  pose proof (u64_add_lt a 1). destruct (decide (a + 1 < W64)%N).
  - rewrite u64_add_small by done. lia.
  - destruct (decide (a < W64)%N); [|lia]. replace a with (W64 - 1)%N by lia. by vm_compute.
Qed.

Lemma int_wrap_small z :
  (-9223372036854775808 ≤ z < 9223372036854775808)%Z → int_wrap z = z.
Proof. intros ?. unfold int_wrap. rewrite Z.mod_small; lia. Qed.

#[export] Hint Resolve u64_add_lt u64_sub_lt W64_pos W64_nz : go.

(** [u64] discharges the wrap-around of sums and differences that stay in
    range, then leaves linear arithmetic. *)
Ltac u64 :=
  repeat (rewrite u64_add_small in * by lia);
  repeat (rewrite u64_sub_small in * by lia); try lia.

(** ** Errors

    The sentinels the packages export, and [fmt.Errorf]: a message with the
    errors it wraps through [%w].  Format arguments are not kept, only the
    message's fixed text.  [errorsIs] is [errors.Is]. *)
#[warnings="-register-all"] Inductive error :=
  | ErrCompacted | ErrUnavailable | ErrSnapshotOutOfDate
  | ErrSafetyViolation | ErrIgnoredMessage | ErrNotLeader
  | ErrReadIndexUnavailable | ErrConfChangeInProgress | ErrConfChangeInvalid
  | ErrNothingToSnapshot | ErrEmptyConfiguration
  | ErrStopped | ErrProposalDropped | ErrBucketNotFound
  | Canceled | DeadlineExceeded
  | Errorf (msg : string) (wrapped : list error).

Definition sentinel_eqb (a b : error) : bool :=
  match a, b with
  | ErrCompacted, ErrCompacted | ErrUnavailable, ErrUnavailable
  | ErrSnapshotOutOfDate, ErrSnapshotOutOfDate
  | ErrSafetyViolation, ErrSafetyViolation
  | ErrIgnoredMessage, ErrIgnoredMessage | ErrNotLeader, ErrNotLeader
  | ErrReadIndexUnavailable, ErrReadIndexUnavailable
  | ErrConfChangeInProgress, ErrConfChangeInProgress
  | ErrConfChangeInvalid, ErrConfChangeInvalid
  | ErrNothingToSnapshot, ErrNothingToSnapshot
  | ErrEmptyConfiguration, ErrEmptyConfiguration
  | ErrStopped, ErrStopped | ErrProposalDropped, ErrProposalDropped
  | ErrBucketNotFound, ErrBucketNotFound
  | Canceled, Canceled | DeadlineExceeded, DeadlineExceeded => true
  | _, _ => false
  end.

Fixpoint errorsIs (e target : error) : bool :=
  match e with
  | Errorf _ ws =>
      (fix any (l : list error) : bool :=
         match l with [] => false | w :: l' => errorsIs w target || any l' end) ws
  | _ => sentinel_eqb e target
  end.

(** ** Outcomes and the state monad of the Go code

    A call returns a value, returns an error, panics, or (in the model only)
    runs out of the fuel given to a recursion.  The state survives an error, as
    Go's mutations do, and it survives a panic too: what was already written to
    durable storage stays written. *)
Inductive outcome (A : Type) :=
  | Ret (a : A)
  | Fail (e : error)
  | Panic (msg : string)
  | OutOfFuel.
Arguments Ret {A} a.
Arguments Fail {A} e.
Arguments Panic {A} msg.
Arguments OutOfFuel {A}.

(** Sequencing of stateless calls that may fail: an error, a panic or an
    exhausted recursion ends the caller. *)
Definition obind {A B} (o : outcome A) (f : A → outcome B) : outcome B :=
  match o with
  | Ret a => f a
  | Fail e => Fail e
  | Panic p => Panic p
  | OutOfFuel => OutOfFuel
  end.

Notation "'let?' p := m 'in' k" := (obind m (λ x, match x with p => k end))
  (at level 10, p pattern, m at level 200, k at level 200) : go_scope.

Definition M (S A : Type) : Type := S → outcome A * S.

Section monad.
Context {S : Type}.

Definition ret {A} (a : A) : M S A := λ s, (Ret a, s).

Definition bind {A B} (m : M S A) (f : A → M S B) : M S B := λ s,
  match m s with
  | (Ret a, s') => f a s'
  | (Fail e, s') => (Fail e, s')
  | (Panic p, s') => (Panic p, s')
  | (OutOfFuel, s') => (OutOfFuel, s')
  end.

Definition get : M S S := λ s, (Ret s, s).
Definition gets {A} (f : S → A) : M S A := λ s, (Ret (f s), s).
Definition modify (f : S → S) : M S unit := λ s, (Ret tt, f s).
Definition fail {A} (e : error) : M S A := λ s, (Fail e, s).
Definition panic {A} (msg : string) : M S A := λ s, (Panic msg, s).
Definition outOfFuel {A} : M S A := λ s, (OutOfFuel, s).

(** A read that may fail but changes nothing. *)
Definition reads {A} (f : S → outcome A) : M S A := λ s, (f s, s).

(** [v, err := m]: the error becomes a value the caller inspects. *)
Definition try {A} (m : M S A) : M S (A + error) := λ s,
  match m s with
  | (Ret a, s') => (Ret (inl a), s')
  | (Fail e, s') => (Ret (inr e), s')
  | (Panic p, s') => (Panic p, s')
  | (OutOfFuel, s') => (OutOfFuel, s')
  end.

(** [if err != nil { return fmt.Errorf("msg: %w", err) }]. *)
Definition wrapErr {A} (msg : string) (m : M S A) : M S A := λ s,
  match m s with
  | (Fail e, s') => (Fail (Errorf msg [e]), s')
  | r => r
  end.

Lemma bind_assoc {A B C} (m : M S A) (f : A → M S B) (g : B → M S C) s :
  bind m (λ a, bind (f a) g) s = bind (bind m f) g s.
Proof. unfold bind. by destruct (m s) as [[]]. Qed.

(** [for _, x := range l { body }]. *)
Fixpoint forEach {A} (l : list A) (body : A → M S unit) : M S unit :=
  match l with
  | [] => ret tt
  | x :: l' => bind (body x) (λ _, forEach l' body)
  end.
End monad.

(** Running an operation of a component on the part of the state that holds it. *)
Definition zoom {S T A} (view : T → S) (update : S → T → T) (m : M S A) : M T A :=
  λ t, let '(o, s') := m (view t) in (o, update s' t).

Notation "x <- m ;; k" := (bind m (λ x, k))
  (at level 100, m at next level, right associativity) : go_scope.
Notation "m ;;; k" := (bind m (λ _, k))
  (at level 100, right associativity) : go_scope.

(** ** Weakest preconditions

    [wp m Q E D s]: from [s], [m] returns a value and a state in [Q], or an error
    and a state in [E], or panics or exhausts its fuel in a state of [D].  With
    [D := λ _, False] it states that neither happens. *)
Definition wp {S A} (m : M S A) (Q : A → S → Prop) (E : error → S → Prop)
    (D : S → Prop) (s : S) : Prop :=
  match m s with
  | (Ret a, s') => Q a s'
  | (Fail e, s') => E e s'
  | (Panic _, s') | (OutOfFuel, s') => D s'
  end.

Arguments wp : simpl never.

Section wp.
Context {S : Type}.
Implicit Types (E : error → S → Prop) (D : S → Prop) (s : S).

Lemma wp_ret {A} (a : A) Q E D s : Q a s → wp (ret a) Q E D s.
Proof. done. Qed.

Lemma wp_fail {A} e (Q : A → S → Prop) E D s : E e s → wp (fail e) Q E D s.
Proof. done. Qed.

Lemma wp_panic {A} p (Q : A → S → Prop) E D s : D s → wp (panic p) Q E D s.
Proof. done. Qed.

Lemma wp_get Q E D s : Q s s → wp get Q E D s.
Proof. done. Qed.

Lemma wp_gets {A} (f : S → A) Q E D s : Q (f s) s → wp (gets f) Q E D s.
Proof. done. Qed.

Lemma wp_modify f Q E D s : Q tt (f s) → wp (modify f) Q E D s.
Proof. done. Qed.

Lemma wp_reads {A} (f : S → outcome A) Q E D s :
  match f s with
  | Ret a => Q a s | Fail e => E e s | Panic _ | OutOfFuel => D s
  end → wp (reads f) Q E D s.
Proof. unfold wp, reads. by destruct (f s). Qed.

Lemma wp_bind {A B} (m : M S A) (f : A → M S B) Q E D s :
  wp m (λ a s', wp (f a) Q E D s') E D s → wp (bind m f) Q E D s.
Proof. unfold wp, bind. by destruct (m s) as [[]]. Qed.

(** Folds a continuation back into a bind. *)
Lemma wp_unbind {A B} (m : M S A) (f : A → M S B) Q E D s :
  wp (bind m f) Q E D s → wp m (λ a s', wp (f a) Q E D s') E D s.
Proof. unfold wp, bind. by destruct (m s) as [[]]. Qed.

Lemma wp_assoc {A B C} (m : M S A) (f : A → M S B) (g : B → M S C) Q E D s :
  wp (bind (bind m f) g) Q E D s → wp (bind m (λ a, bind (f a) g)) Q E D s.
Proof. unfold wp. by rewrite bind_assoc. Qed.

(** A call that can neither fail nor panic returns. *)
Lemma wp_returns {A} (m : M S A) Q s :
  wp m Q (λ _ _, False) (λ _, False) s → ∃ a s', m s = (Ret a, s') ∧ Q a s'.
Proof. unfold wp. destruct (m s) as [[]]; try done. eauto. Qed.

Lemma wp_try {A} (m : M S A) Q E D s :
  wp m (λ a s', Q (inl a) s') (λ e s', Q (inr e) s') D s →
  wp (try m) Q E D s.
Proof. unfold wp, try. by destruct (m s) as [[]]. Qed.

Lemma wp_wrapErr {A} msg (m : M S A) Q E D s :
  wp m Q (λ e, E (Errorf msg [e])) D s → wp (wrapErr msg m) Q E D s.
Proof. unfold wp, wrapErr. by destruct (m s) as [[]]. Qed.

Lemma wp_mono {A} (m : M S A) (Q Q' : A → S → Prop) E E' D D' s :
  wp m Q E D s →
  (∀ a s', Q a s' → Q' a s') → (∀ e s', E e s' → E' e s') →
  (∀ s', D s' → D' s') → wp m Q' E' D' s.
Proof. unfold wp. destruct (m s) as [[]]; eauto. Qed.

Lemma wp_and {A} (m : M S A) (Q Q' : A → S → Prop) E E' D D' s :
  wp m Q E D s → wp m Q' E' D' s →
  wp m (λ a s', Q a s' ∧ Q' a s') (λ e s', E e s' ∧ E' e s')
       (λ s', D s' ∧ D' s') s.
Proof. unfold wp. destruct (m s) as [[]]; eauto. Qed.

(** Loop rule: [I] is indexed by the elements still to visit. *)
Lemma wp_forEach {A} (l : list A) body (I : list A → S → Prop) Q E D s :
  I l s →
  (∀ x l' s', x ∈ l → I (x :: l') s' → wp (body x) (λ _ t, I l' t) E D s') →
  (∀ s', I [] s' → Q tt s') →
  wp (forEach l body) Q E D s.
Proof.
  revert s. induction l as [|x l IH]; intros s HI Hb HQ; cbn.
  - by apply wp_ret, HQ.
  - apply wp_bind. eapply wp_mono; [apply (Hb _ l); [set_solver|done]|..]; auto.
    intros [] s' HI'. apply IH; auto. intros. eapply Hb; [set_solver|done].
Qed.
End wp.

Lemma wp_zoom {S T A} (v : T → S) u (m : M S A) Q E D (t : T) :
  wp m (λ a s', Q a (u s' t)) (λ e s', E e (u s' t)) (λ s', D (u s' t)) (v t) →
  wp (zoom v u m) Q E D t.
Proof. unfold wp, zoom. by destruct (m (v t)) as [[]]. Qed.

(** [keeps I m]: whatever [m] does (return, fail or panic), [I] survives. *)
Definition keeps {S A} (I : S → Prop) (m : M S A) : Prop :=
  ∀ s, I s → wp m (λ _, I) (λ _, I) I s.

(** [wp_go] walks a straight-line prefix: it strips binds, reads and returns,
    and splits on the tests the code makes. *)
Ltac wp_one :=
  lazymatch goal with
  | |- wp (bind _ _) _ _ _ _ => apply wp_bind
  | |- wp (ret _) _ _ _ _ => apply wp_ret
  | |- wp (fail _) _ _ _ _ => apply wp_fail
  | |- wp (panic _) _ _ _ _ => apply wp_panic
  | |- wp get _ _ _ _ => apply wp_get
  | |- wp (gets _) _ _ _ _ => apply wp_gets
  | |- wp (modify _) _ _ _ _ => apply wp_modify
  | |- wp (reads _) _ _ _ _ => apply wp_reads
  | |- wp (try _) _ _ _ _ => apply wp_try
  | |- wp (wrapErr _ _) _ _ _ _ => apply wp_wrapErr
  | |- wp (zoom _ _ _) _ _ _ _ => apply wp_zoom
  end.
Ltac wp_go := repeat (wp_one; cbn beta iota).

(** [wp_pure] only walks reads and writes of the state itself, and stops at the
    first call. *)
Ltac wp_pure :=
  repeat (lazymatch goal with
  | |- wp (bind _ _) _ _ _ _ => apply wp_bind
  | |- wp (ret _) _ _ _ _ => apply wp_ret
  | |- wp get _ _ _ _ => apply wp_get
  | |- wp (modify _) _ _ _ _ => apply wp_modify
  end; cbn beta iota).

(** ** Lists *)

Lemma list_filter_all {A} (P : A → Prop) `{∀ x, Decision (P x)} (l : list A) :
  Forall P l → filter P l = l.
Proof.
  induction 1 as [|x l Hx _ IH]; [done|].
  rewrite filter_cons, decide_True by done. by f_equal.
Qed.

Lemma list_filter_fmap {A B} (f : A → B) (P : B → Prop) `{∀ x, Decision (P x)} (l : list A) :
  filter P (f <$> l) = f <$> filter (λ x, P (f x)) l.
Proof.
  induction l as [|x l IH]; [done|]. rewrite fmap_cons, !filter_cons.
  case_decide; rewrite ?fmap_cons; by rewrite IH.
Qed.

Lemma list_lookup_cons_S {A} (x : A) (l : list A) k : (x :: l) !! S k = l !! k.
Proof. done. Qed.

(** A sum over a list of which one element is replaced. *)
Lemma sum_insert {A} (f : A → nat) (l : list A) i x y :
  l !! i = Some x → (sum_list_with f (<[i := y]> l) + f x = sum_list_with f l + f y)%nat.
Proof. revert i. induction l as [|z l IH]; intros [|i] Hi; simplify_eq/=; [lia|]. specialize (IH i Hi). lia. Qed.
