(* ===== verification/Varint.v ===== *)
(** * Bytes and unsigned varints

    Bytes are [Byte.byte].  [AppendUvarint] and [Uvarint] are the two functions
    of Go's standard package [encoding/binary] that every hand-written encoding
    of the repository is built from (raft/confchange.go, kvstore/encoding.go,
    codec/varint.go, storage/bolt.go, sim/node.go).  The file ends with the
    round trip those encodings rely on. *)

From Stdlib Require Export Strings.Byte.
From S2P Require Import Prelude.

Abbreviation byte := Byte.byte (only parsing).

#[export] Instance byte_eq_dec : EqDecision byte := Byte.byte_eq_dec.

Definition byte_of (n : N) : byte :=
  match Byte.of_N (n mod 256) with Some b => b | None => Byte.x00 end.

#[export] Program Instance byte_countable : Countable byte :=
  inj_countable Byte.to_N (λ n, Some (byte_of n)) _.
Next Obligation.
  intros b. unfold byte_of. pose proof (Byte.to_N_bounded b).
  by rewrite N.mod_small, Byte.of_to_N by lia.
Qed.

Lemma byte_of_to_N b : byte_of (Byte.to_N b) = b.
Proof.
  unfold byte_of. pose proof (Byte.to_N_bounded b).
  by rewrite N.mod_small, Byte.of_to_N by lia.
Qed.

Lemma to_N_byte_of n : Byte.to_N (byte_of n) = (n mod 256)%N.
Proof.
  unfold byte_of. destruct (Byte.of_N (n mod 256)) as [b|] eqn:E.
  - by apply Byte.to_of_N in E.
  - apply Byte.of_N_None_iff in E. pose proof (N.mod_lt n 256). lia.
Qed.

(** ** encoding/binary *)

Definition MaxVarintLen64 : nat := 10.

(** [for x >= 0x80 { buf = append(buf, byte(x)|0x80); x >>= 7 }], then the last
    byte.  Ten iterations cover every [uint64]. *)
Fixpoint uvarint_bytes (fuel : nat) (x : N) : list byte :=
  match fuel with
  | O => []
  | S k =>
      if (x <? 128)%N then [byte_of x]
      else byte_of (N.lor (x mod 256) 128) :: uvarint_bytes k (N.shiftr x 7)
  end.

Definition AppendUvarint (buf : list byte) (x : N) : list byte :=
  buf ++ uvarint_bytes MaxVarintLen64 x.

(** The decoding loop; [i] is the byte position, [x] the value so far, [s] the
    shift.  The second component is Go's [n]: the bytes read, [0] when the buffer
    is too small, negative on overflow. *)
Fixpoint uvarint_loop (buf : list byte) (i : nat) (x s : N) : N * Z :=
  match buf with
  | [] => (0%N, 0%Z)
  | b :: rest =>
      if (i =? MaxVarintLen64)%nat then (0%N, (- Z.of_nat (i + 1))%Z)
      else
        let v := Byte.to_N b in
        if (v <? 128)%N then
          if ((i =? MaxVarintLen64 - 1)%nat && (1 <? v)%N)
          then (0%N, (- Z.of_nat (i + 1))%Z)
          else (N.lor x (N.shiftl v s mod W64), Z.of_nat (i + 1))
        else uvarint_loop rest (i + 1)
               (N.lor x (N.shiftl (N.land v 127) s mod W64)) (s + 7)
  end.

Definition Uvarint (buf : list byte) : N * Z := uvarint_loop buf 0 0 0.

(** ** Round trip *)

Lemma lor_shiftl_add x b s :
  (x < 2 ^ s)%N → N.lor x (N.shiftl b s) = (x + b * 2 ^ s)%N.
Proof.
  intros Hx. rewrite <- N.shiftl_mul_pow2. symmetry.
  cut (N.land x (N.shiftl b s) = 0%N).
  { intros H0. by rewrite <- N.lxor_lor, N.add_nocarry_lxor. }
  apply N.bits_inj. intros n.
  rewrite N.land_spec, N.bits_0.
  destruct (N.lt_ge_cases n s) as [?|Hn].
  - rewrite N.shiftl_spec_low by done. apply andb_false_r.
  - by rewrite <- (N.mod_small x (2 ^ s)), N.mod_pow2_bits_high by done.
Qed.

Lemma uvarint_bytes_nonempty k x : uvarint_bytes (S k) x ≠ [].
Proof. cbn. by destruct (x <? 128)%N. Qed.

(** The continuation byte carries the seven low bits. *)
Lemma land_lor_128 y : N.land (N.lor (y mod 256) 128 mod 256) 127 = (y mod 128)%N.
Proof.
  change 256%N with (2 ^ 8)%N. change 127%N with (N.ones 7).
  change 128%N with (2 ^ 7)%N at 2.
  rewrite N.land_ones. apply N.bits_inj. intros n.
  destruct (N.lt_ge_cases n 7) as [Hn|Hn].
  - rewrite !N.mod_pow2_bits_low, N.lor_spec, N.mod_pow2_bits_low by lia.
    change 128%N with (2 ^ 7)%N.
    by rewrite (N.pow2_bits_false 7 n), orb_false_r by lia.
  - by rewrite !N.mod_pow2_bits_high by lia.
Qed.

Lemma lor_128_ge y : (128 ≤ N.lor (y mod 256) 128 mod 256)%N.
Proof.
  apply N.le_ngt. intros Hlt.
  assert (N.testbit (N.lor (y mod 256) 128 mod 256) 7 = true) as Hbit.
  { change 256%N with (2 ^ 8)%N. rewrite N.mod_pow2_bits_low, N.lor_spec by lia.
    by rewrite orb_true_r. }
  rewrite <- (N.mod_small _ (2 ^ 7) Hlt), N.mod_pow2_bits_high in Hbit; lia || done.
Qed.

Lemma uvarint_loop_bytes k i acc y rest :
  (i + k = MaxVarintLen64)%nat → (1 ≤ k)%nat →
  (acc < 2 ^ (7 * N.of_nat i))%N →
  (acc + y * 2 ^ (7 * N.of_nat i) < W64)%N →
  uvarint_loop (uvarint_bytes k y ++ rest) i acc (7 * N.of_nat i)
  = ((acc + y * 2 ^ (7 * N.of_nat i))%N,
     Z.of_nat (i + length (uvarint_bytes k y))).
Proof.
  revert i acc y. induction k as [|k IH]; intros i acc y Hk H1 Hacc Hy; [lia|].
  set (P := (2 ^ (7 * N.of_nat i))%N) in *.
  assert (i ≠ MaxVarintLen64) as Hi by lia.
  cbn [uvarint_bytes]. destruct (N.ltb_spec y 128) as [Hlt|Hge].
  - cbn [app uvarint_loop]. rewrite (proj2 (Nat.eqb_neq _ _) Hi).
    rewrite to_N_byte_of, N.mod_small by lia.
    rewrite (proj2 (N.ltb_lt _ _) Hlt).
    replace ((i =? MaxVarintLen64 - 1)%nat && (1 <? y)%N) with false.
    2:{ symmetry. destruct (Nat.eqb_spec i (MaxVarintLen64 - 1)) as [->|]; [|done].
        apply N.ltb_ge. subst P. unfold W64 in Hy. cbn in Hy. lia. }
    rewrite N.shiftl_mul_pow2, N.mod_small by (fold P; lia).
    rewrite <- N.shiftl_mul_pow2, lor_shiftl_add by done. cbn. do 2 f_equal.
  - cbn [app uvarint_loop length]. rewrite (proj2 (Nat.eqb_neq _ _) Hi).
    rewrite to_N_byte_of.
    rewrite (proj2 (N.ltb_ge _ _) (lor_128_ge y)), land_lor_128.
    assert (k ≠ 0)%nat as Hk0.
    { intros ->. assert (i = 9)%nat as -> by (unfold MaxVarintLen64 in Hk; lia).
      subst P. unfold W64 in Hy. cbn in Hy. lia. }
    pose proof (N.div_mod y 128 ltac:(lia)) as Hdm.
    pose proof (N.mod_lt y 128 ltac:(lia)) as Hml.
    assert (2 ^ (7 * N.of_nat (i + 1)) = 128 * P)%N as HP.
    { subst P. replace (7 * N.of_nat (i + 1))%N with (7 + 7 * N.of_nat i)%N by lia.
      by rewrite N.pow_add_r. }
    rewrite N.shiftl_mul_pow2, N.mod_small by (fold P; nia).
    rewrite <- N.shiftl_mul_pow2, lor_shiftl_add by done. fold P.
    replace (7 * N.of_nat i + 7)%N with (7 * N.of_nat (i + 1))%N by lia.
    rewrite N.shiftr_div_pow2. change (2 ^ 7)%N with 128%N.
    rewrite IH; rewrite ?HP; [|unfold MaxVarintLen64 in *; lia|lia|nia|nia].
    f_equal; [nia|lia].
Qed.

(** Decoding a varint that was appended in front of [rest] gives the value back
    and the number of bytes to skip. *)
Lemma Uvarint_bytes x rest :
  (x < W64)%N →
  Uvarint (uvarint_bytes MaxVarintLen64 x ++ rest)
  = (x, Z.of_nat (length (uvarint_bytes MaxVarintLen64 x))).
Proof.
  intros Hx. unfold Uvarint.
  pose proof (uvarint_loop_bytes MaxVarintLen64 0 0 x rest) as H.
  change (7 * N.of_nat 0)%N with 0%N in H. change (2 ^ 0)%N with 1%N in H.
  rewrite H by (unfold MaxVarintLen64; lia). f_equal. lia.
Qed.

Lemma length_uvarint_pos x : (0 < Z.of_nat (length (uvarint_bytes MaxVarintLen64 x)))%Z.
Proof.
  pose proof (uvarint_bytes_nonempty 9 x).
  unfold MaxVarintLen64. destruct (uvarint_bytes 10 x); cbn in *; [done|lia].
Qed.

(** [v, n := binary.Uvarint(b); if n <= 0 { error }; b = b[n:]], the reading step
    every decoder of the repository repeats. *)
Definition readUvarint (what : string) (b : list byte) : outcome (N * list byte) :=
  let '(v, n) := Uvarint b in
  if (n <=? 0)%Z then Fail (Errorf what []) else Ret (v, drop (Z.to_nat n) b).

Lemma readUvarint_bytes what x rest :
  (x < W64)%N →
  readUvarint what (uvarint_bytes MaxVarintLen64 x ++ rest) = Ret (x, rest).
Proof.
  intros Hx. unfold readUvarint. rewrite Uvarint_bytes by done.
  pose proof (length_uvarint_pos x).
  rewrite (proj2 (Z.leb_gt _ _)) by done.
  by rewrite Nat2Z.id, drop_app_length.
Qed.

(** Every read consumes something, and ends in a value or an error. *)
Lemma readUvarint_consumes what b v rest :
  readUvarint what b = Ret (v, rest) → (length rest < length b)%nat.
Proof.
  unfold readUvarint. destruct (Uvarint b) as [x n] eqn:E. destruct (Z.leb_spec n 0); [done|].
  intros [= _ <-]. rewrite length_drop. destruct b; [by vm_compute in E; simplify_eq|]. cbn. lia.
Qed.

Lemma readUvarint_total what b :
  (∃ v rest, readUvarint what b = Ret (v, rest)) ∨ ∃ e, readUvarint what b = Fail e.
Proof. unfold readUvarint. destruct (Uvarint b). case_match; eauto. Qed.
