(* ===== verification/GoMaps.v ===== *)
(** * Go maps and their iteration order

    Go ranges over a map in an order of its own choosing, different from run to
    run and from node to node.  [MapRange] makes that choice an argument of every
    definition that ranges over a map, so that "two replicas agree" is a theorem
    about two different choices.  The file also has the order of Go strings and
    the fact the sources rely on to be deterministic: a sorted slice does not
    depend on the order it was collected in. *)

From S2P Require Import Prelude Varint.

Class MapRange := {
  range_map {K V : Type} `{Countable K} : gmap K V → list (K * V);
  range_map_perm {K V : Type} `{Countable K} (m : gmap K V) : range_map m ≡ₚ map_to_list m
}.

(** Two orders, for examples. *)
#[program] Definition forward_range : MapRange :=
  {| range_map := λ _ _ _ _ m, map_to_list m |}.
Next Obligation. done. Qed.
#[program] Definition backward_range : MapRange :=
  {| range_map := λ _ _ _ _ m, reverse (map_to_list m) |}.
Next Obligation. intros. by rewrite reverse_Permutation. Qed.

(** ** Sorting *)

(** A total order leaves one way to sort. *)
Lemma merge_sort_canonical {A} (R : relation A) `{!RelDecision R, !Transitive R, !Total R,
    !AntiSymm (=) R} (l1 l2 : list A) :
  l1 ≡ₚ l2 → merge_sort R l1 = merge_sort R l2.
Proof.
  intros HP. apply (StronglySorted_unique R); [by apply StronglySorted_merge_sort..|].
  by rewrite !merge_sort_Permutation.
Qed.

Lemma StronglySorted_filter {A} (R : relation A) (P : A → Prop) `{!∀ x, Decision (P x)} (l : list A) :
  StronglySorted R l → StronglySorted R (filter P l).
Proof.
  induction 1 as [|x l Hl IH Hx]; [constructor|]. rewrite filter_cons. case_decide; [|done].
  constructor; [done|]. apply Forall_forall. intros y [_ Hy]%list_elem_of_filter.
  by eapply Forall_forall in Hx.
Qed.

(** ** Strings *)

(** [<=] on strings compares bytes, and a prefix comes first. *)
Fixpoint bytes_leb (a b : list byte) : bool :=
  match a, b with
  | [], _ => true
  | _ :: _, [] => false
  | x :: a', y :: b' =>
      (Byte.to_N x <? Byte.to_N y)%N || ((Byte.to_N x =? Byte.to_N y)%N && bytes_leb a' b')
  end.

Definition bytes_le (a b : list byte) : Prop := bytes_leb a b = true.

#[export] Instance bytes_le_dec : RelDecision bytes_le.
Proof. intros a b. unfold bytes_le. apply _. Defined.

Lemma to_N_inj x y : Byte.to_N x = Byte.to_N y → x = y.
Proof. intros H. by rewrite <- (byte_of_to_N x), H, byte_of_to_N. Qed.

Lemma bytes_le_cons x y a b :
  bytes_le (x :: a) (y :: b) ↔ (Byte.to_N x < Byte.to_N y)%N ∨ (x = y ∧ bytes_le a b).
Proof.
  unfold bytes_le. cbn. rewrite orb_true_iff, andb_true_iff, N.ltb_lt, N.eqb_eq.
  split; (intros [|[E ?]]; [by left|right; split; [|done]]); [by apply to_N_inj|by subst].
Qed.

#[export] Instance bytes_le_total : Total bytes_le.
Proof.
  intros a. induction a as [|x a IH]; intros [|y b]; [by left|by left|by right|].
  rewrite !bytes_le_cons. destruct (N.lt_trichotomy (Byte.to_N x) (Byte.to_N y)) as [|[E|]];
    [by left; left| |by right; left].
  apply to_N_inj in E as ->. destruct (IH b); [left|right]; by right.
Qed.

#[export] Instance bytes_le_refl : Reflexive bytes_le.
Proof. intros a. by destruct (total bytes_le a a). Qed.

#[export] Instance bytes_le_trans : Transitive bytes_le.
Proof.
  intros a b c. revert b c. induction a as [|x a IH]; intros [|y b] [|z c]; try done.
  rewrite !bytes_le_cons. intros [Hxy|[-> Hab]] [Hyz|[-> Hbc]];
    [left; lia|by left|by left|right; split; [done|by eapply IH]].
Qed.

#[export] Instance bytes_le_antisymm : AntiSymm (=) bytes_le.
Proof.
  intros a. induction a as [|x a IH]; intros [|y b]; try done.
  rewrite !bytes_le_cons. intros [Hxy|[-> Hab]] [Hyx|[E Hba]]; try lia; subst; try lia.
  f_equal. by apply IH.
Qed.

Section sorted.
Context `{R : MapRange}.

(** [slices.Sorted(maps.Keys(m))] *)
Definition sorted_keys {V} (m : gmap (list byte) V) : list (list byte) :=
  merge_sort bytes_le (range_map m).*1.

Lemma sorted_keys_perm {V} (m : gmap (list byte) V) : sorted_keys m ≡ₚ (map_to_list m).*1.
Proof. unfold sorted_keys. by rewrite merge_sort_Permutation, range_map_perm. Qed.

Lemma sorted_keys_NoDup {V} (m : gmap (list byte) V) : NoDup (sorted_keys m).
Proof. rewrite sorted_keys_perm. apply NoDup_fst_map_to_list. Qed.

Lemma elem_of_sorted_keys {V} (m : gmap (list byte) V) k :
  k ∈ sorted_keys m ↔ is_Some (m !! k).
Proof.
  rewrite sorted_keys_perm, list_elem_of_fmap. split.
  - intros ([k' v] & -> & Hin%elem_of_map_to_list). eauto.
  - intros [v Hv]. exists (k, v). by rewrite elem_of_map_to_list.
Qed.
End sorted.

(** Sorting undoes the choice of an order. *)
Lemma sorted_keys_canonical (R1 R2 : MapRange) {V} (m : gmap (list byte) V) :
  @sorted_keys R1 V m = @sorted_keys R2 V m.
Proof. apply merge_sort_canonical; [apply _..|]. by rewrite !range_map_perm. Qed.
