(* ===== verification/GoStrings.v ===== *)
(** * The text functions of Go's standard library

    [strings.TrimSpace], [strings.Split] on one separator byte, [strings.Cut] on one
    byte, [strconv.FormatUint] and [strconv.ParseUint] in base ten: what
    cmd/raftd/main.go and metrics/metrics.go use of packages [strings] and [strconv].
    Strings are their bytes.  [TrimSpace] removes runes, so it knows the UTF-8
    encodings of the white space of package [unicode]. *)

From Stdlib Require Import Decimal DecimalFacts DecimalN DecimalPos.
From S2P Require Import Prelude Varint.

Local Abbreviation bytes := (list byte) (only parsing).

(** ** Decimal numbers *)

Fixpoint digits (u : Decimal.uint) : bytes :=
  match u with
  | Decimal.Nil => []
  | Decimal.D0 u => Byte.x30 :: digits u
  | Decimal.D1 u => Byte.x31 :: digits u
  | Decimal.D2 u => Byte.x32 :: digits u
  | Decimal.D3 u => Byte.x33 :: digits u
  | Decimal.D4 u => Byte.x34 :: digits u
  | Decimal.D5 u => Byte.x35 :: digits u
  | Decimal.D6 u => Byte.x36 :: digits u
  | Decimal.D7 u => Byte.x37 :: digits u
  | Decimal.D8 u => Byte.x38 :: digits u
  | Decimal.D9 u => Byte.x39 :: digits u
  end.

Definition FormatUint (n : N) : bytes := digits (N.to_uint n).

Definition digit_of (c : byte) : option N :=
  let n := Byte.to_N c in
  if ((48 <=? n) && (n <=? 57))%N then Some (n - 48)%N else None.

(** [math.MaxUint64/10 + 1] *)
Definition cutoff : N := 1844674407370955162.

Fixpoint parse_digits (n : N) (s : bytes) : outcome N :=
  match s with
  | [] => Ret n
  | c :: s' =>
      match digit_of c with
      | None => Fail (Errorf "invalid syntax" [])
      | Some d =>
          if (cutoff <=? n)%N then Fail (Errorf "value out of range" [])
          else
            let n1 := (n * 10)%N +u d in
            if (n1 <? n * 10)%N then Fail (Errorf "value out of range" [])
            else parse_digits n1 s'
      end
  end.

Definition ParseUint (s : bytes) : outcome N :=
  match s with [] => Fail (Errorf "invalid syntax" []) | _ => parse_digits 0 s end.

Lemma parse_digits_total s n : (∃ m, parse_digits n s = Ret m) ∨ ∃ e, parse_digits n s = Fail e.
Proof.
  revert n. induction s as [|c s IH]; intros n; cbn; [by left; eexists|].
  repeat case_match; eauto.
Qed.

Lemma ParseUint_total s : (∃ m, ParseUint s = Ret m) ∨ ∃ e, ParseUint s = Fail e.
Proof. unfold ParseUint. destruct s; [by right; eexists|apply parse_digits_total]. Qed.

Definition is_digit (c : byte) : Prop := is_Some (digit_of c).

Lemma digits_are_digits u : Forall is_digit (digits u).
Proof. induction u; cbn; constructor; eauto; by eexists. Qed.

(** The value of more digits after [n]. *)
Fixpoint value_from (n : N) (u : Decimal.uint) : N :=
  match u with
  | Decimal.Nil => n
  | Decimal.D0 u => value_from (n * 10) u
  | Decimal.D1 u => value_from (n * 10 + 1) u
  | Decimal.D2 u => value_from (n * 10 + 2) u
  | Decimal.D3 u => value_from (n * 10 + 3) u
  | Decimal.D4 u => value_from (n * 10 + 4) u
  | Decimal.D5 u => value_from (n * 10 + 5) u
  | Decimal.D6 u => value_from (n * 10 + 6) u
  | Decimal.D7 u => value_from (n * 10 + 7) u
  | Decimal.D8 u => value_from (n * 10 + 8) u
  | Decimal.D9 u => value_from (n * 10 + 9) u
  end.

Lemma value_from_ge u n : (n ≤ value_from n u)%N.
Proof.
  revert n. induction u as [|u IH|u IH|u IH|u IH|u IH|u IH|u IH|u IH|u IH|u IH]; intros n; cbn;
    [lia|..]; (etrans; [|apply IH]); lia.
Qed.

Lemma value_from_pos u p : value_from (N.pos p) u = N.pos (Pos.of_uint_acc u p).
Proof.
  revert p. induction u as [|u IH|u IH|u IH|u IH|u IH|u IH|u IH|u IH|u IH|u IH]; intros p; cbn [value_from Pos.of_uint_acc];
    [done|..]; rewrite <- IH; f_equal; lia.
Qed.

Lemma value_from_zero u : value_from 0 u = N.of_uint u.
Proof.
  unfold N.of_uint. induction u as [|u IH|u IH|u IH|u IH|u IH|u IH|u IH|u IH|u IH|u IH];
    cbn [value_from Pos.of_uint]; [done|exact IH|..]; by rewrite <- value_from_pos.
Qed.

Lemma parse_digit n d c s :
  digit_of c = Some d → (n * 10 + d < W64)%N →
  parse_digits n (c :: s) = parse_digits (n * 10 + d) s.
Proof.
  intros Hd Hn. cbn [parse_digits]. rewrite Hd.
  assert (W64 = 18446744073709551616)%N as HW by done.
  destruct (N.leb_spec cutoff n) as [Hc|_]; [unfold cutoff in Hc; lia|].
  cbn zeta. rewrite u64_add_small by done. by rewrite (proj2 (N.ltb_ge _ _)) by lia.
Qed.

Lemma parse_digits_value u n :
  (value_from n u < W64)%N → parse_digits n (digits u) = Ret (value_from n u).
Proof.
  revert n. induction u as [|u IH|u IH|u IH|u IH|u IH|u IH|u IH|u IH|u IH|u IH]; intros n Hn;
    cbn [digits value_from] in *; [done|..];
    pose proof (N.le_lt_trans _ _ _ (value_from_ge u _) Hn);
    (erewrite parse_digit; [|by vm_compute|]); rewrite ?N.add_0_r; auto.
Qed.

Lemma FormatUint_nonempty n : FormatUint n ≠ [].
Proof.
  intros E. pose proof (DecimalN.Unsigned.of_to n) as Hn. unfold FormatUint in E.
  destruct (N.to_uint n) eqn:Eu; try done. cbn in Hn. subst n. by vm_compute in Eu.
Qed.

Lemma ParseUint_FormatUint n : (n < W64)%N → ParseUint (FormatUint n) = Ret n.
Proof.
  intros Hn. unfold ParseUint. destruct (FormatUint n) as [|c s] eqn:E; [by apply FormatUint_nonempty in E|].
  rewrite <- E. unfold FormatUint.
  assert (value_from 0 (N.to_uint n) = n) as Hv by by rewrite value_from_zero, DecimalN.Unsigned.of_to.
  rewrite parse_digits_value; by rewrite Hv.
Qed.

Lemma parse_digits_bound s n m :
  (n < W64)%N → parse_digits n s = Ret m → (m < W64)%N.
Proof.
  revert n. induction s as [|c s IH]; intros n Hn; cbn; [by intros [= <-]|].
  destruct (digit_of c); [|done]. destruct (cutoff <=? n)%N; [done|].
  destruct (_ <? _)%N; [done|]. apply IH, u64_add_lt.
Qed.

Lemma ParseUint_bound s m : ParseUint s = Ret m → (m < W64)%N.
Proof. destruct s; [done|]. by apply parse_digits_bound. Qed.

#[export] Instance digits_inj : Inj (=) (=) digits.
Proof.
  intros u. induction u as [|u IH|u IH|u IH|u IH|u IH|u IH|u IH|u IH|u IH|u IH]; intros [] E; try done;
    injection E as E; by rewrite (IH _ E).
Qed.

#[export] Instance FormatUint_inj : Inj (=) (=) FormatUint.
Proof. intros n m E%digits_inj. by apply DecimalN.Unsigned.to_uint_inj. Qed.

(** ** White space *)

(** The encodings of the runes for which [unicode.IsSpace] holds. *)
Definition space_runes : list bytes :=
  [[Byte.x09]; [Byte.x0a]; [Byte.x0b]; [Byte.x0c]; [Byte.x0d]; [Byte.x20];
   [Byte.xc2; Byte.x85]; [Byte.xc2; Byte.xa0]; [Byte.xe1; Byte.x9a; Byte.x80];
   [Byte.xe2; Byte.x80; Byte.x80]; [Byte.xe2; Byte.x80; Byte.x81]; [Byte.xe2; Byte.x80; Byte.x82];
   [Byte.xe2; Byte.x80; Byte.x83]; [Byte.xe2; Byte.x80; Byte.x84]; [Byte.xe2; Byte.x80; Byte.x85];
   [Byte.xe2; Byte.x80; Byte.x86]; [Byte.xe2; Byte.x80; Byte.x87]; [Byte.xe2; Byte.x80; Byte.x88];
   [Byte.xe2; Byte.x80; Byte.x89]; [Byte.xe2; Byte.x80; Byte.x8a]; [Byte.xe2; Byte.x80; Byte.xa8];
   [Byte.xe2; Byte.x80; Byte.xa9]; [Byte.xe2; Byte.x80; Byte.xaf]; [Byte.xe2; Byte.x81; Byte.x9f];
   [Byte.xe3; Byte.x80; Byte.x80]].

Fixpoint strip (p s : bytes) : option bytes :=
  match p, s with
  | [], _ => Some s
  | x :: p', y :: s' => if bool_decide (x = y) then strip p' s' else None
  | _ :: _, [] => None
  end.

(** What is left of [s] without the first of [runes] it starts with. *)
Fixpoint cut_rune (runes : list bytes) (s : bytes) : option bytes :=
  match runes with
  | [] => None
  | p :: runes' => match strip p s with Some s' => Some s' | None => cut_rune runes' s end
  end.

(** A rune has at least one byte, so the length of the string is enough fuel. *)
Fixpoint trim_loop (runes : list bytes) (fuel : nat) (s : bytes) : bytes :=
  match fuel with
  | O => s
  | Datatypes.S fuel' =>
      match cut_rune runes s with Some s' => trim_loop runes fuel' s' | None => s end
  end.

Definition trim_left (runes : list bytes) (s : bytes) : bytes := trim_loop runes (length s) s.

Definition TrimSpace (s : bytes) : bytes :=
  reverse (trim_left (reverse <$> space_runes) (reverse (trim_left space_runes s))).

Lemma strip_Some p s s' : strip p s = Some s' ↔ s = p ++ s'.
Proof.
  revert s. induction p as [|x p IH]; intros [|y s]; cbn; try naive_solver.
  case_bool_decide as E; subst; rewrite ?IH; naive_solver.
Qed.

Lemma cut_rune_Some R s s' : cut_rune R s = Some s' → ∃ p, p ∈ R ∧ s = p ++ s'.
Proof.
  induction R as [|p R IH]; cbn; [done|]. destruct (strip p s) as [s1|] eqn:E.
  - intros [= ->]. exists p. split; [apply elem_of_cons; by left|by apply strip_Some].
  - intros (q & ? & ?)%IH. exists q. split; [apply elem_of_cons; by right|done].
Qed.

Lemma cut_rune_None R s : cut_rune R s = None ↔ ∀ p s', p ∈ R → s ≠ p ++ s'.
Proof.
  induction R as [|p R IH]; cbn; [split; [intros _ ?? []%elem_of_nil|done]|].
  destruct (strip p s) as [s1|] eqn:E.
  - split; [done|]. intros HR. apply strip_Some in E. by destruct (HR p s1); [apply elem_of_cons; left|].
  - rewrite IH. split; intros HR q s' Hq; [|by apply HR, elem_of_cons; right].
    apply elem_of_cons in Hq as [->|]; [|by apply HR]. intros Es. apply strip_Some in Es. congruence.
Qed.

Section trim.
Context (R : list bytes) (HR : Forall (λ p, p ≠ []) R).

Lemma trim_loop_spec fuel s :
  (length s ≤ fuel)%nat →
  cut_rune R (trim_loop R fuel s) = None ∧ ∃ pre, s = pre ++ trim_loop R fuel s.
Proof.
  revert s. induction fuel as [|fuel IH]; intros s Hs; cbn.
  - destruct s; [|cbn in Hs; lia]. split; [|by exists []].
    apply cut_rune_None. intros p s' Hp E. symmetry in E. apply app_nil in E as [-> _].
    by eapply Forall_forall in HR.
  - destruct (cut_rune R s) as [s1|] eqn:E; [|split; [done|by exists []]].
    apply cut_rune_Some in E as (p & Hp & ->).
    assert (p ≠ []) as Hne by by eapply Forall_forall in HR.
    destruct (IH s1) as [Hn [pre Hpre]]; [destruct p; [done|]; cbn in Hs; rewrite length_app in Hs; lia|].
    split; [done|]. exists (p ++ pre). rewrite <- app_assoc. by f_equal.
Qed.

Lemma trim_left_stops s : cut_rune R (trim_left R s) = None.
Proof. by apply trim_loop_spec. Qed.

Lemma trim_left_suffix s : ∃ pre, s = pre ++ trim_left R s.
Proof. by apply trim_loop_spec. Qed.

Lemma trim_left_id s : cut_rune R s = None → trim_left R s = s.
Proof. unfold trim_left. intros E. destruct (length s); cbn; [done|]. by rewrite E. Qed.

(** A prefix starts with no rune the whole does not start with. *)
Lemma cut_rune_prefix s t : cut_rune R (s ++ t) = None → cut_rune R s = None.
Proof.
  rewrite !cut_rune_None. intros Hst p s' Hp ->. apply (Hst p (s' ++ t) Hp). by rewrite <- app_assoc.
Qed.

(** A byte of no rune ends what can be cut. *)
Lemma cut_rune_guard s c t :
  Forall (λ p, c ∉ p) R → cut_rune R s = None → cut_rune R (s ++ c :: t) = None.
Proof.
  rewrite !cut_rune_None. intros Hc Hs p s' Hp E. rewrite Forall_forall in Hc. specialize (Hc p Hp). cbn in Hc.
  apply app_eq_app in E as (m & [[-> E]|[-> E]]).
  - by apply (Hs p m).
  - destruct m as [|d m].
    + apply (Hs s [] ); rewrite ?app_nil_r in *; done.
    + cbn in E. simplify_eq. apply Hc. rewrite elem_of_app. right. by left.
Qed.
End trim.

Definition trimmed (s : bytes) : Prop :=
  cut_rune space_runes s = None ∧ cut_rune (reverse <$> space_runes) (reverse s) = None.

Lemma runes_nonempty : Forall (λ p, p ≠ []) space_runes.
Proof. by apply (bool_decide_unpack _); vm_compute. Qed.

Lemma reversed_runes_nonempty : Forall (λ p, p ≠ []) (reverse <$> space_runes).
Proof. by apply (bool_decide_unpack _); vm_compute. Qed.

Lemma TrimSpace_trimmed s : trimmed (TrimSpace s).
Proof.
  unfold trimmed, TrimSpace. rewrite reverse_involutive.
  split; [|apply trim_left_stops, reversed_runes_nonempty].
  set (l := trim_left space_runes s).
  destruct (trim_left_suffix _ reversed_runes_nonempty (reverse l)) as [pre Hpre].
  apply (cut_rune_prefix _ _ (reverse pre)). rewrite <- reverse_app, <- Hpre, reverse_involutive.
  apply trim_left_stops, runes_nonempty.
Qed.

Lemma TrimSpace_id s : trimmed s → TrimSpace s = s.
Proof.
  intros [Hl Hr]. unfold TrimSpace. rewrite (trim_left_id _ _ Hl), (trim_left_id _ _ Hr).
  apply reverse_involutive.
Qed.

Lemma digit_not_space c : is_digit c → Forall (λ p, c ∉ p) space_runes.
Proof.
  unfold is_digit, digit_of. intros [d Hd]. destruct ((_ <=? _) && _)%N eqn:E; [|done].
  assert (bool_decide (Forall (λ p, c ∉ p) space_runes) = true) as Hb; [|by apply bool_decide_eq_true in Hb].
  clear Hd d. destruct c; try (exfalso; by vm_compute in E); by vm_compute.
Qed.

Lemma digits_trimmed s : Forall is_digit s → trimmed s.
Proof.
  intros HF. split; apply cut_rune_None; intros p s' Hp E.
  - assert (p ≠ []) as Hne by exact (proj1 (Forall_forall _ _) runes_nonempty _ Hp).
    destruct p as [|c p]; [done|]. subst s. apply Forall_cons_1 in HF as [Hc%digit_not_space _].
    apply (proj1 (Forall_forall _ _) Hc _ Hp). by left.
  - apply list_elem_of_fmap in Hp as (q & -> & Hq).
    assert (q ≠ []) as Hne by exact (proj1 (Forall_forall _ _) runes_nonempty _ Hq).
    destruct q as [|c q]; [done|].
    assert (c ∈ s) as Hin by (rewrite <- (reverse_involutive s), E, reverse_app, elem_of_app, reverse_involutive; right; by left).
    pose proof (digit_not_space c ltac:(by eapply Forall_forall in HF)) as Hc.
    apply (proj1 (Forall_forall _ _) Hc _ Hq). by left.
Qed.

Lemma FormatUint_trimmed n : trimmed (FormatUint n).
Proof. apply digits_trimmed, digits_are_digits. Qed.

Lemma TrimSpace_infix s : ∃ a b, s = a ++ TrimSpace s ++ b.
Proof.
  destruct (trim_left_suffix _ runes_nonempty s) as [a Ha].
  destruct (trim_left_suffix _ reversed_runes_nonempty (reverse (trim_left space_runes s))) as [b Hb].
  exists a, (reverse b). unfold TrimSpace. rewrite <- reverse_app, <- Hb, reverse_involutive. done.
Qed.

Lemma TrimSpace_elem c s : c ∈ TrimSpace s → c ∈ s.
Proof.
  intros Hc. destruct (TrimSpace_infix s) as (a & b & ->). rewrite !elem_of_app. auto.
Qed.

(** ** Cutting and splitting at a byte *)

(** [strings.Cut(s, sep)], for a separator of one byte. *)
Fixpoint Cut (sep : byte) (s : bytes) : option (bytes * bytes) :=
  match s with
  | [] => None
  | c :: s' =>
      if bool_decide (c = sep) then Some ([], s')
      else match Cut sep s' with Some (a, b) => Some (c :: a, b) | None => None end
  end.

(** [strings.Split(s, sep)], for a separator of one byte. *)
Fixpoint Split (sep : byte) (s : bytes) : list bytes :=
  match s with
  | [] => [[]]
  | c :: s' =>
      if bool_decide (c = sep) then [] :: Split sep s'
      else match Split sep s' with p :: ps => (c :: p) :: ps | [] => [[c]] end
  end.

Fixpoint Join (sep : byte) (parts : list bytes) : bytes :=
  match parts with
  | [] => []
  | [p] => p
  | p :: ps => p ++ sep :: Join sep ps
  end.

Lemma Cut_app sep a b : sep ∉ a → Cut sep (a ++ sep :: b) = Some (a, b).
Proof.
  induction a as [|c a IH]; cbn; [by rewrite bool_decide_true|].
  intros [? ?]%not_elem_of_cons. by rewrite bool_decide_false, IH.
Qed.

Lemma Cut_Some sep s a b : Cut sep s = Some (a, b) → s = a ++ sep :: b.
Proof.
  revert a b. induction s as [|c s IH]; intros a b; cbn; [done|].
  case_bool_decide; [naive_solver|]. destruct (Cut sep s) as [[a' b']|]; [|done].
  intros [= <- <-]. by rewrite (IH a' b').
Qed.

Lemma Split_nonempty sep s : Split sep s ≠ [].
Proof. destruct s; cbn; [done|]. case_bool_decide; [done|]. by destruct (Split sep s). Qed.

Lemma Split_no_sep sep s p : p ∈ Split sep s → sep ∉ p.
Proof.
  revert p. induction s as [|c s IH]; intros p; cbn; [by intros ->%list_elem_of_singleton; apply not_elem_of_nil|].
  case_bool_decide as E; [intros [->|?]%elem_of_cons; [apply not_elem_of_nil|by apply IH]|].
  destruct (Split sep s) as [|q qs]; [intros ->%list_elem_of_singleton; set_solver|].
  intros [->|Hp]%elem_of_cons; [|apply IH, elem_of_cons; by right].
  apply not_elem_of_cons. split; [congruence|]. apply IH, elem_of_cons. by left.
Qed.

Lemma Split_piece sep p s : sep ∉ p → Split sep (p ++ sep :: s) = p :: Split sep s.
Proof.
  induction p as [|c p IH]; cbn; [by rewrite bool_decide_true|].
  intros [? ?]%not_elem_of_cons. by rewrite bool_decide_false, IH.
Qed.

Lemma Split_single sep p : sep ∉ p → Split sep p = [p].
Proof.
  induction p as [|c p IH]; cbn; [done|].
  intros [? ?]%not_elem_of_cons. by rewrite bool_decide_false, IH.
Qed.

Lemma Split_Join sep ps : ps ≠ [] → Forall (λ p, sep ∉ p) ps → Split sep (Join sep ps) = ps.
Proof.
  intros Hne HF. induction HF as [|p ps Hp HF IH]; [done|].
  destruct ps as [|q ps]; [by apply Split_single|]. cbn [Join]. rewrite Split_piece by done.
  f_equal. by apply IH.
Qed.
