(* ===== verification/Types.v ===== *)
(** * The data of package raft

    raft/types.go, with the configuration record of raft/config.go that a
    snapshot carries.  Identifiers, terms and log indexes are [uint64] in the
    source and [N] here; slices are lists (a nil slice is the empty list) and
    [*Snapshot] is an [option]. *)

From S2P Require Import Prelude Varint.

Abbreviation NodeID := N (only parsing).
Abbreviation Term := N (only parsing).
Abbreviation Index := N (only parsing).
Abbreviation bytes := (list byte) (only parsing).

(** "No node": no vote cast, no leader known. *)
Definition None_ : NodeID := 0%N.

Inductive State := Follower | PreCandidate | Candidate | Leader.

Inductive EntryType := EntryNormal | EntryNoOp | EntryConfChange.

Record LogEntry := mkEntry {
  e_Term : Term;
  e_Index : Index;
  e_Type : EntryType;
  e_Command : bytes
}.

Record HardState := mkHardState {
  hs_Term : Term;
  hs_Vote : NodeID;
  hs_Commit : Index
}.

(** [Voters] is C_new, [OldVoters] is C_old while a membership change is in
    flight, [Learners] are never counted. *)
Record Configuration := mkConfiguration {
  Voters : list NodeID;
  OldVoters : list NodeID;
  Learners : list NodeID
}.

Record Snapshot := mkSnapshot {
  snap_LastIncludedIndex : Index;
  snap_LastIncludedTerm : Term;
  snap_Config : Configuration;
  snap_Data : bytes
}.

(** Any byte can name a message type; the last constructor stands for the values
    that [dispatch] does not know. *)
Inductive MessageType :=
  | MsgVoteReq | MsgVoteResp | MsgAppendReq | MsgAppendResp
  | MsgSnapshotReq | MsgSnapshotResp
  | MsgUnknown (t : N).

Record Message := mkMessage {
  m_Type : MessageType;
  m_From : NodeID;
  m_To : NodeID;
  m_Term : Term;
  m_PreVote : bool;
  m_LastLogIndex : Index;
  m_LastLogTerm : Term;
  m_Granted : bool;
  m_PrevLogIndex : Index;
  m_PrevLogTerm : Term;
  m_Entries : list LogEntry;
  m_LeaderCommit : Index;
  m_Success : bool;
  m_MatchIndex : Index;
  m_ConflictIndex : Index;
  m_ConflictTerm : Term;
  m_ReadID : N;
  m_Snapshot : option Snapshot
}.

#[export] Instance State_eq_dec : EqDecision State.
Proof. solve_decision. Defined.
#[export] Instance EntryType_eq_dec : EqDecision EntryType.
Proof. solve_decision. Defined.
#[export] Instance LogEntry_eq_dec : EqDecision LogEntry.
Proof. solve_decision. Defined.
#[export] Instance HardState_eq_dec : EqDecision HardState.
Proof. solve_decision. Defined.
#[export] Instance Configuration_eq_dec : EqDecision Configuration.
Proof. solve_decision. Defined.
#[export] Instance Snapshot_eq_dec : EqDecision Snapshot.
Proof. solve_decision. Defined.
#[export] Instance MessageType_eq_dec : EqDecision MessageType.
Proof. solve_decision. Defined.
#[export] Instance Message_eq_dec : EqDecision Message.
Proof. solve_decision. Defined.

(** Go's zero values. *)
Definition zeroHardState : HardState := mkHardState 0 None_ 0.
Definition zeroConfiguration : Configuration := mkConfiguration [] [] [].
Definition zeroSnapshot : Snapshot := mkSnapshot 0 0 zeroConfiguration [].
Definition zeroEntry : LogEntry := mkEntry 0 0 EntryNormal [].
Definition zeroMessage (t : MessageType) (to : NodeID) : Message :=
  mkMessage t None_ to 0 false 0 0 false 0 0 [] 0 false 0 0 0 0 None.

(** [HardState.IsEmpty] *)
Definition HardState_IsEmpty (hs : HardState) : bool :=
  (hs_Term hs =? 0)%N && (hs_Vote hs =? None_)%N && (hs_Commit hs =? 0)%N.

(** [Snapshot.IsEmpty] *)
Definition Snapshot_IsEmpty (s : Snapshot) : bool := (snap_LastIncludedIndex s =? 0)%N.
