(* ===== verification/Config.v ===== *)
(** * Cluster configurations and quorum arithmetic

    raft/config.go: normalization, membership tests, majorities, the commit
    index a set of match indexes allows, and the two halves of a joint-consensus
    transition; and the encoding of a configuration change of
    raft/confchange.go.  The theorems: normalization establishes and keeps the
    sorted/deduplicated/disjoint form; any two quorums of a configuration, and
    any quorums on either side of a joint transition, share a voter;
    [CommittedIndex] is the greatest index a quorum has matched;
    [QuorumImpossible] is sound; encoding round-trips. *)

From S2P Require Import Prelude Varint Types.

(** ** Normalization *)

(** [slices.Compact]: of each run of equal elements keep one. *)
Fixpoint slices_Compact (l : list N) : list N :=
  match l with
  | x :: ((y :: _) as l') =>
      if (x =? y)%N then slices_Compact l' else x :: slices_Compact l'
  | _ => l
  end.

(** [slices.Sort] on integers. *)
Definition slices_Sort (l : list N) : list N := merge_sort N.le l.

Definition slices_Contains (l : list N) (x : N) : bool := bool_decide (x ∈ l).

(** [slices.DeleteFunc] *)
Definition slices_DeleteFunc (l : list N) (del : N → bool) : list N :=
  filter (λ x : N, del x = false) l.

Definition sortedUnique (ids : list NodeID) : list NodeID :=
  match ids with
  | [] => []
  | _ => slices_Compact (slices_Sort ids)
  end.

(** Every slice sorted and deduplicated; a learner that is also a voter is
    dropped. *)
Definition normalize (c : Configuration) : Configuration :=
  let voters := sortedUnique (Voters c) in
  let old := sortedUnique (OldVoters c) in
  let learners := sortedUnique (Learners c) in
  mkConfiguration voters old
    (slices_DeleteFunc learners
       (λ id, slices_Contains voters id || slices_Contains old id)).

Definition NewConfiguration (voters learners : list NodeID) : Configuration :=
  normalize (mkConfiguration voters [] learners).

(** ** Membership *)

Definition IsJoint (c : Configuration) : bool := (0 <? length (OldVoters c))%nat.

Definition Configuration_IsEmpty (c : Configuration) : bool :=
  (length (Voters c) =? 0)%nat && (length (OldVoters c) =? 0)%nat
  && (length (Learners c) =? 0)%nat.

Definition Validate (c : Configuration) : outcome unit :=
  if (length (Voters c) =? 0)%nat then Fail ErrEmptyConfiguration else Ret tt.

Definition IsVoter (c : Configuration) (id : NodeID) : bool :=
  slices_Contains (Voters c) id || slices_Contains (OldVoters c) id.

Definition Contains (c : Configuration) (id : NodeID) : bool :=
  IsVoter c id || slices_Contains (Learners c) id.

Definition Members (c : Configuration) : list NodeID :=
  sortedUnique (Voters c ++ OldVoters c ++ Learners c).

Definition Peers (c : Configuration) (self : NodeID) : list NodeID :=
  slices_DeleteFunc (Members c) (λ id, (id =? self)%N).

(** [Configuration.Equal] *)
Definition Configuration_Equal (c other : Configuration) : bool :=
  bool_decide (Voters c = Voters other) &&
  bool_decide (OldVoters c = OldVoters other) &&
  bool_decide (Learners c = Learners other).

(** ** Quorums *)

Definition hasMajority (voters : list NodeID) (granted : NodeID → bool) : bool :=
  if (length voters =? 0)%nat then false
  else
    let n := foldl (λ n v, if granted v then (n + 1)%nat else n) 0%nat voters in
    (length voters <? n * 2)%nat.

Definition HasQuorum (c : Configuration) (granted : NodeID → bool) : bool :=
  if negb (hasMajority (Voters c) granted) then false
  else if IsJoint c && negb (hasMajority (OldVoters c) granted) then false
  else true.

Definition QuorumImpossible (c : Configuration) (rejected : NodeID → bool) : bool :=
  if hasMajority (Voters c) rejected then true
  else if IsJoint c && hasMajority (OldVoters c) rejected then true
  else false.

(** Sort the match indexes ascending and take element [(n-1)/2]. *)
Definition quorumIndex (voters : list NodeID) (match_ : NodeID → Index) : Index :=
  let n := length voters in
  if (n =? 0)%nat then 0%N
  else default 0%N (slices_Sort (match_ <$> voters) !! ((n - 1) / 2)%nat).

Definition CommittedIndex (c : Configuration) (match_ : NodeID → Index) : Index :=
  let idx := quorumIndex (Voters c) match_ in
  if IsJoint c then
    let old := quorumIndex (OldVoters c) match_ in
    if (old <? idx)%N then old else idx
  else idx.

(** ** Configuration changes *)

(** [ConfChangeKind] is a byte in the source, and decoding accepts any. *)
Abbreviation ConfChangeKind := byte (only parsing).
Definition ConfChangeEnterJoint : ConfChangeKind := Byte.x00.
Definition ConfChangeLeaveJoint : ConfChangeKind := Byte.x01.

Record ConfChange := mkConfChange {
  cc_Kind : ConfChangeKind;
  cc_Config : Configuration
}.

#[export] Instance ConfChange_eq_dec : EqDecision ConfChange.
Proof. solve_decision. Defined.

Definition EnterJoint (c target : Configuration) : outcome ConfChange :=
  match Validate target with
  | Fail e => Fail e
  | _ =>
      if IsJoint c then
        Fail (Errorf "raft: membership change already in progress" [])
      else
        Ret (mkConfChange ConfChangeEnterJoint
               (normalize (mkConfiguration (Voters target) (Voters c) (Learners target))))
  end.

Definition LeaveJoint (c : Configuration) : outcome ConfChange :=
  if negb (IsJoint c) then Fail (Errorf "raft: not in a joint configuration" [])
  else
    let final := normalize (mkConfiguration (Voters c) [] (Learners c)) in
    match Validate final with
    | Fail e => Fail e
    | _ => Ret (mkConfChange ConfChangeLeaveJoint final)
    end.

(** ** Encoding of a configuration change *)

Definition appendIDs (dst : bytes) (ids : list NodeID) : bytes :=
  foldl AppendUvarint (AppendUvarint dst (N.of_nat (length ids))) ids.

(** [ConfChange.Encode] *)
Definition Encode (cc : ConfChange) : bytes :=
  appendIDs (appendIDs (appendIDs [cc_Kind cc] (Voters (cc_Config cc)))
               (OldVoters (cc_Config cc)))
    (Learners (cc_Config cc)).

(** [make([]NodeID, 0, count)] panics when the capacity, in eight-byte elements,
    exceeds the 48-bit address space of the runtime's allocator. *)
Definition maxNodeIDCap : N := 35184372088832.

Fixpoint readIDs_loop (what : string) (count : nat) (b : bytes)
    : outcome (list NodeID * bytes) :=
  match count with
  | O => Ret ([], b)
  | S k =>
      let? (id, b) := readUvarint what b in
      let? (ids, rest) := readIDs_loop what k b in
      Ret (id :: ids, rest)
  end.

(** Every id takes at least one byte, so the loop fails within [length b + 1]
    rounds whatever the count claims; the bound keeps it executable. *)
Definition readIDs (b : bytes) (what : string) : outcome (list NodeID * bytes) :=
  let? (count, b) := readUvarint what b in
  if (count =? 0)%N then Ret ([], b)
  else if (maxNodeIDCap <? count)%N then Panic "makeslice: cap out of range"
  else readIDs_loop what (N.to_nat (N.min count (N.of_nat (S (length b))))) b.

Definition DecodeConfChange (b : bytes) : outcome ConfChange :=
  match b with
  | [] => Fail (Errorf "raft: empty configuration change" [])
  | k :: rest =>
      let? (voters, rest) := readIDs rest "voters" in
      let? (old, rest) := readIDs rest "old voters" in
      let? (learners, _) := readIDs rest "learners" in
      Ret (mkConfChange k (normalize (mkConfiguration voters old learners)))
  end.

(** ** Sorting and normal form *)

Definition sorted_unique (l : list N) : Prop := StronglySorted N.lt l.

Definition disjoint_learners (c : Configuration) : Prop :=
  ∀ id, id ∈ Learners c → (id ∉ Voters c) ∧ (id ∉ OldVoters c).

(** The invariant all three slices of a configuration keep. *)
Definition conf_normal (c : Configuration) : Prop :=
  sorted_unique (Voters c) ∧ sorted_unique (OldVoters c) ∧
  sorted_unique (Learners c) ∧ disjoint_learners c.

Lemma slices_Sort_Permutation l : slices_Sort l ≡ₚ l.
Proof. apply merge_sort_Permutation. Qed.

Lemma slices_Sort_sorted l : StronglySorted N.le (slices_Sort l).
Proof. apply StronglySorted_merge_sort; apply _. Qed.

Lemma slices_Compact_cons x y l :
  slices_Compact (x :: y :: l) =
  if (x =? y)%N then slices_Compact (y :: l) else x :: slices_Compact (y :: l).
Proof. done. Qed.

Lemma elem_of_Compact l x : x ∈ slices_Compact l ↔ x ∈ l.
Proof.
  induction l as [|y l IH]; [done|]. destruct l as [|z l]; [done|].
  rewrite slices_Compact_cons. destruct (N.eqb_spec y z) as [->|].
  - rewrite IH, !elem_of_cons. tauto.
  - by rewrite elem_of_cons, IH, (elem_of_cons (z :: l)).
Qed.

Lemma Compact_sorted l : StronglySorted N.le l → sorted_unique (slices_Compact l).
Proof.
  induction l as [|y l IH]; intros Hs; [constructor|].
  destruct l as [|z l]; [repeat constructor|].
  rewrite slices_Compact_cons. inversion Hs as [|?? Hs' Hall]; subst.
  destruct (N.eqb_spec y z) as [->|Hne]; [by apply IH|].
  constructor; [by apply IH|]. apply Forall_forall. intros x Hx.
  rewrite elem_of_Compact in Hx. rewrite Forall_forall in Hall.
  assert (y ≤ z)%N by (apply Hall; left).
  rewrite elem_of_cons in Hx. destruct Hx as [->|Hx]; [lia|].
  inversion Hs' as [|?? _ Hall']; subst. rewrite Forall_forall in Hall'.
  specialize (Hall' x Hx). cbn in *. lia.
Qed.

(** A list that is already in the normal form is a fixed point. *)
Lemma sorted_unique_NoDup l : sorted_unique l → NoDup l.
Proof.
  induction 1 as [|x l _ IH Hall]; constructor; [|done].
  intros Hx. rewrite Forall_forall in Hall. specialize (Hall x Hx). cbn in *. lia.
Qed.

Lemma sorted_unique_le l : sorted_unique l → StronglySorted N.le l.
Proof.
  induction 1 as [|x l _ IH Hall]; constructor; [done|].
  eapply Forall_impl; [done|]. cbn. lia.
Qed.

Lemma sorted_unique_ext l k :
  sorted_unique l → sorted_unique k → (∀ x, x ∈ l ↔ x ∈ k) → l = k.
Proof.
  intros Hl Hk Hx. eapply (StronglySorted_unique N.le);
    [by apply sorted_unique_le..|].
  apply NoDup_Permutation; eauto using sorted_unique_NoDup.
Qed.

Lemma elem_of_sortedUnique l x : x ∈ sortedUnique l ↔ x ∈ l.
Proof.
  unfold sortedUnique. destruct l as [|y l]; [done|].
  by rewrite elem_of_Compact, slices_Sort_Permutation.
Qed.

Lemma elem_of_Members c x : x ∈ Members c ↔ x ∈ Voters c ∨ x ∈ OldVoters c ∨ x ∈ Learners c.
Proof. unfold Members. by rewrite elem_of_sortedUnique, !elem_of_app. Qed.

Lemma sortedUnique_sorted l : sorted_unique (sortedUnique l).
Proof.
  unfold sortedUnique. destruct l; [constructor|].
  apply Compact_sorted, slices_Sort_sorted.
Qed.

Lemma sortedUnique_id l : sorted_unique l → sortedUnique l = l.
Proof.
  intros ?. apply sorted_unique_ext; auto using sortedUnique_sorted.
  intros. apply elem_of_sortedUnique.
Qed.

Lemma slices_Contains_spec l x : slices_Contains l x = true ↔ x ∈ l.
Proof. apply bool_decide_eq_true. Qed.

Lemma elem_of_DeleteFunc l del x : x ∈ slices_DeleteFunc l del ↔ del x = false ∧ x ∈ l.
Proof. unfold slices_DeleteFunc. by rewrite list_elem_of_filter. Qed.

Lemma DeleteFunc_sorted l del : sorted_unique l → sorted_unique (slices_DeleteFunc l del).
Proof.
  unfold slices_DeleteFunc. induction 1 as [|x l _ IH Hall]; [constructor|].
  rewrite filter_cons. case_decide; [constructor|]; auto.
  apply Forall_forall. intros y Hy. rewrite list_elem_of_filter in Hy.
  rewrite Forall_forall in Hall. apply Hall, Hy.
Qed.

#[export] Hint Resolve sortedUnique_sorted DeleteFunc_sorted sorted_unique_NoDup : go.

Lemma elem_of_normalize_learners c x :
  x ∈ Learners (normalize c) ↔ x ∈ Learners c ∧ (x ∉ Voters c) ∧ (x ∉ OldVoters c).
Proof.
  cbn. rewrite elem_of_DeleteFunc, orb_false_iff, elem_of_sortedUnique.
  unfold slices_Contains. rewrite !bool_decide_eq_false, !elem_of_sortedUnique. tauto.
Qed.

Lemma normalize_normal c : conf_normal (normalize c).
Proof.
  repeat split; cbn; auto with go.
  - intros Hv. apply (elem_of_normalize_learners c id) in H as (_ & ? & _).
    by rewrite elem_of_sortedUnique in Hv.
  - intros Hv. apply (elem_of_normalize_learners c id) in H as (_ & _ & ?).
    by rewrite elem_of_sortedUnique in Hv.
Qed.

Lemma normalize_id c : conf_normal c → normalize c = c.
Proof.
  destruct c as [v o l]. intros (Hv & Ho & Hl & Hd). cbn in *.
  pose proof (normalize_normal (mkConfiguration v o l)) as (_ & _ & Hl' & _).
  unfold normalize in *. cbn in *.
  rewrite !sortedUnique_id in * by done. f_equal.
  apply sorted_unique_ext; auto with go. intros x.
  rewrite elem_of_DeleteFunc, orb_false_iff.
  unfold slices_Contains. rewrite !bool_decide_eq_false. split; [tauto|].
  intros Hx. destruct (Hd x Hx). tauto.
Qed.

(** Normalization sorts and deduplicates the three slices, leaves no learner
    that votes, keeps exactly the voters it was given and exactly the learners
    that do not vote, and does nothing a second time. *)
Theorem normalize_spec c :
  conf_normal (normalize c) ∧
  (∀ x, x ∈ Voters (normalize c) ↔ x ∈ Voters c) ∧
  (∀ x, x ∈ OldVoters (normalize c) ↔ x ∈ OldVoters c) ∧
  (∀ x, x ∈ Learners (normalize c) ↔
        x ∈ Learners c ∧ (x ∉ Voters c) ∧ (x ∉ OldVoters c)) ∧
  normalize (normalize c) = normalize c.
Proof.
  split_and!; [apply normalize_normal|..].
  - intros. apply elem_of_sortedUnique.
  - intros. apply elem_of_sortedUnique.
  - intros. apply elem_of_normalize_learners.
  - apply normalize_id, normalize_normal.
Qed.

(** ** Majorities *)

(** The counting loop of [hasMajority], as a filter. *)
Definition votesFor (voters : list NodeID) (f : NodeID → bool) : nat :=
  length (filter (λ v : NodeID, f v = true) voters).

Lemma count_loop (voters : list NodeID) (f : NodeID → bool) k :
  foldl (λ n v, if f v then (n + 1)%nat else n) k voters = (k + votesFor voters f)%nat.
Proof.
  revert k. induction voters as [|v vs IH]; intros k; cbn [foldl].
  { unfold votesFor. cbn. lia. }
  rewrite IH. unfold votesFor. rewrite filter_cons.
  destruct (f v); case_decide; cbn; done || lia.
Qed.

Lemma hasMajority_spec voters f :
  hasMajority voters f = true ↔ (length voters < 2 * votesFor voters f)%nat.
Proof.
  unfold hasMajority. rewrite count_loop.
  destruct (Nat.eqb_spec (length voters) 0) as [H0|H0]; [|rewrite Nat.ltb_lt; lia].
  pose proof (length_filter (λ v : NodeID, f v = true) voters).
  split; [done|]. unfold votesFor. lia.
Qed.

Lemma HasQuorum_spec c f :
  HasQuorum c f = true ↔
  hasMajority (Voters c) f = true ∧ (IsJoint c = true → hasMajority (OldVoters c) f = true).
Proof.
  unfold HasQuorum.
  destruct (hasMajority (Voters c) f), (IsJoint c), (hasMajority (OldVoters c) f);
    cbn; naive_solver.
Qed.

(** Two sets of voters too large to be disjoint share one. *)
Lemma votesFor_overlap (voters : list NodeID) f g :
  (length voters < votesFor voters f + votesFor voters g)%nat →
  ∃ v, v ∈ voters ∧ f v = true ∧ g v = true.
Proof.
  unfold votesFor. induction voters as [|v vs IH]; [cbn; lia|].
  rewrite !filter_cons. intros H. destruct (f v) eqn:Ef, (g v) eqn:Eg.
  1: exists v; set_solver.
  all: repeat case_decide; cbn in *; try done.
  all: destruct IH as (w & ? & ? & ?); [lia|exists w; set_solver].
Qed.

Lemma majorities_intersect (voters : list NodeID) f g :
  hasMajority voters f = true → hasMajority voters g = true →
  ∃ v, v ∈ voters ∧ f v = true ∧ g v = true.
Proof. rewrite !hasMajority_spec. intros. apply votesFor_overlap. lia. Qed.

Lemma votesFor_mono (voters : list NodeID) f g :
  (∀ v, v ∈ voters → f v = true → g v = true) →
  (votesFor voters f ≤ votesFor voters g)%nat.
Proof.
  unfold votesFor. induction voters as [|v vs IH]; intros H; [done|].
  rewrite !filter_cons. assert (votesFor vs f ≤ votesFor vs g)%nat by (apply IH; set_solver).
  assert (f v = true → g v = true) by (apply H; left). unfold votesFor in *.
  repeat case_decide; cbn; try lia. naive_solver.
Qed.

Lemma hasMajority_mono (voters : list NodeID) f g :
  (∀ v, v ∈ voters → f v = true → g v = true) →
  hasMajority voters f = true → hasMajority voters g = true.
Proof. rewrite !hasMajority_spec. intros ?%votesFor_mono. lia. Qed.

(** A quorum grows with the set of nodes that grant. *)
Lemma HasQuorum_mono c f g :
  (∀ v, f v = true → g v = true) → HasQuorum c f = true → HasQuorum c g = true.
Proof.
  rewrite !HasQuorum_spec. intros Hfg [Hv Ho].
  split; [|intros Hj; specialize (Ho Hj)]; eapply (hasMajority_mono _ f); eauto.
Qed.

Lemma HasQuorum_ext c f g :
  (∀ v, f v = g v) → HasQuorum c f = HasQuorum c g.
Proof.
  intros H. apply eq_true_iff_eq. split; apply HasQuorum_mono; intros v; by rewrite H.
Qed.

#[export] Instance HasQuorum_proper :
  Proper ((=) ==> pointwise_relation NodeID (=) ==> (=)) HasQuorum.
Proof. intros c ? <- f g Hfg. by apply HasQuorum_ext. Qed.

(** Two quorums of one configuration always share a voter, joint or not. *)
Theorem quorums_intersect c f g :
  HasQuorum c f = true → HasQuorum c g = true →
  ∃ v, IsVoter c v = true ∧ f v = true ∧ g v = true.
Proof.
  rewrite !HasQuorum_spec. intros [Hf _] [Hg _].
  destruct (majorities_intersect _ _ _ Hf Hg) as (v & Hv & ? & ?).
  exists v. split; [|done]. unfold IsVoter.
  by rewrite (proj2 (slices_Contains_spec _ _) Hv).
Qed.

(** A set of nodes large enough to be called impossible really excludes every
    quorum of nodes that did not refuse. *)
Theorem QuorumImpossible_sound c granted rejected :
  QuorumImpossible c rejected = true →
  (∀ v, granted v = true → rejected v = false) →
  HasQuorum c granted = false.
Proof.
  intros Hi Hdis. apply not_true_is_false. rewrite HasQuorum_spec. intros [Hv Ho].
  assert (∀ vs, hasMajority vs granted = true → hasMajority vs rejected = true → False)
    as Hno.
  { intros vs H1 H2. destruct (majorities_intersect _ _ _ H1 H2) as (v & _ & Hg & Hr).
    rewrite (Hdis v Hg) in Hr. done. }
  revert Hi. unfold QuorumImpossible.
  destruct (hasMajority (Voters c) rejected) eqn:E1; [by eauto|].
  destruct (IsJoint c) eqn:EJ; [|done].
  destruct (hasMajority (OldVoters c) rejected) eqn:E2; [|done]. eauto.
Qed.

(** ** The commit index *)

(** In an ascending list, element [k] is at least [i] exactly when at least
    [length l - k] elements are. *)
Lemma sorted_nth_count l k x i :
  StronglySorted N.le l → l !! k = Some x →
  (i ≤ x)%N ↔ (length l - k ≤ length (filter (λ y : N, (i ≤ y)%N) l))%nat.
Proof.
  intros Hs. revert k. induction Hs as [|y l Hs IH Hall]; intros k Hk; [done|].
  rewrite filter_cons. destruct k as [|k]; cbn in Hk.
  - simplify_eq. case_decide as Hi; cbn.
    + split; [|done]. intros _. enough (filter (λ y : N, (i ≤ y)%N) l = l) as -> by lia.
      apply list_filter_all. eapply Forall_impl; [done|]. cbn. lia.
    + split; [done|]. pose proof (length_filter (λ y : N, (i ≤ y)%N) l). lia.
  - rewrite (IH k Hk). cbn. case_decide as Hi; cbn; [|lia].
    assert (filter (λ y : N, (i ≤ y)%N) l = l) as ->; [|lia].
    apply list_filter_all. eapply Forall_impl; [done|]. cbn. lia.
Qed.

(** [quorumIndex] is the greatest index a majority has matched. *)
Lemma quorumIndex_spec voters (m : NodeID → Index) i :
  voters ≠ [] →
  (i ≤ quorumIndex voters m)%N ↔ hasMajority voters (λ v, (i <=? m v)%N) = true.
Proof.
  intros Hne. unfold quorumIndex.
  assert (length voters ≠ 0%nat) as Hn by (by destruct voters).
  rewrite (proj2 (Nat.eqb_neq _ _) Hn), hasMajority_spec.
  set (idx := m <$> voters). pose proof (slices_Sort_Permutation idx) as HP.
  assert (length (slices_Sort idx) = length voters) as HL.
  { rewrite HP. subst idx. apply length_fmap. }
  pose proof (Nat.div_mod_eq (length voters - 1) 2).
  pose proof (Nat.mod_upper_bound (length voters - 1) 2).
  destruct (lookup_lt_is_Some_2 (slices_Sort idx) ((length voters - 1) / 2)) as [x Hx].
  { lia. }
  rewrite Hx. cbn. rewrite (sorted_nth_count _ _ _ i (slices_Sort_sorted idx) Hx).
  assert (length (filter (λ y : N, (i ≤ y)%N) (slices_Sort idx))
          = votesFor voters (λ v, (i <=? m v)%N)) as ->; [|lia].
  rewrite HP. subst idx. unfold votesFor. rewrite list_filter_fmap, length_fmap.
  f_equal. apply list_filter_iff. intros v. cbn. by rewrite N.leb_le.
Qed.

Lemma CommittedIndex_iff c (m : NodeID → Index) i :
  Voters c ≠ [] →
  (i ≤ CommittedIndex c m)%N ↔ HasQuorum c (λ v, (i <=? m v)%N) = true.
Proof.
  intros Hne. rewrite HasQuorum_spec, <- quorumIndex_spec by done.
  unfold CommittedIndex. destruct (IsJoint c) eqn:EJ; [|naive_solver].
  assert (OldVoters c ≠ []) as Hold.
  { intros H0. unfold IsJoint in EJ. by rewrite H0 in EJ. }
  rewrite <- quorumIndex_spec by done.
  destruct (N.ltb_spec (quorumIndex (OldVoters c) m) (quorumIndex (Voters c) m));
    split; intros; repeat split; intros; try lia; destruct_and?; lia || tauto.
Qed.

(** [CommittedIndex] is exact.  An index is at most the commit index precisely
    when a quorum (of both halves, in a joint configuration) has matched it. *)
Theorem CommittedIndex_spec c (m : NodeID → Index) i :
  Voters c ≠ [] →
  (i ≤ CommittedIndex c m)%N ↔ HasQuorum c (λ v, (i <=? m v)%N) = true.
Proof. apply CommittedIndex_iff. Qed.

(** ** Joint transitions *)

Lemma EnterJoint_voters c target cc :
  conf_normal c → conf_normal target → EnterJoint c target = Ret cc →
  IsJoint c = false ∧ Voters (cc_Config cc) = Voters target ∧
  OldVoters (cc_Config cc) = Voters c.
Proof.
  intros (Hc & _) (Ht & _). unfold EnterJoint, Validate.
  destruct (length (Voters target) =? 0)%nat; [done|].
  destruct (IsJoint c); [done|]. intros [= <-]. cbn.
  by rewrite !sortedUnique_id.
Qed.

Lemma LeaveJoint_voters c cc :
  sorted_unique (Voters c) → LeaveJoint c = Ret cc →
  Voters (cc_Config cc) = Voters c ∧ OldVoters (cc_Config cc) = [].
Proof.
  intros Hc. unfold LeaveJoint, Validate. destruct (IsJoint c); [|done]. cbn.
  destruct (_ =? 0)%nat; [done|]. intros [= <-]. cbn. by rewrite sortedUnique_id.
Qed.

Lemma majority_nonempty voters f : hasMajority voters f = true → voters ≠ [].
Proof. by intros H ->. Qed.

Lemma IsJoint_true c : IsJoint c = true ↔ OldVoters c ≠ [].
Proof. unfold IsJoint. destruct (OldVoters c); cbn; naive_solver. Qed.

(** C28: Joint consensus leaves no gap.  A quorum of the joint configuration shares a
    node with every quorum of the configuration being left and with every quorum
    of the one being entered, so no two adjacent configurations of a transition
    can decide independently. *)
Theorem joint_transition_overlaps c target enter leave f g :
  conf_normal c → conf_normal target →
  EnterJoint c target = Ret enter → LeaveJoint (cc_Config enter) = Ret leave →
  HasQuorum (cc_Config enter) f = true →
  HasQuorum c g = true ∨ HasQuorum (cc_Config leave) g = true →
  ∃ v, f v = true ∧ g v = true.
Proof.
  intros Hc Ht HE HL Hf Hg.
  destruct (EnterJoint_voters _ _ _ Hc Ht HE) as (Hnj & HV & HO).
  destruct (LeaveJoint_voters (cc_Config enter) leave) as [HV' _];
    [rewrite HV; by destruct Ht|done|].
  apply HasQuorum_spec in Hf as [Hf1 Hf2].
  destruct Hg as [[Hg _]%HasQuorum_spec|[Hg _]%HasQuorum_spec].
  - destruct (majorities_intersect (Voters c) f g) as (v & _ & ? & ?); eauto.
    rewrite <- HO. apply Hf2, IsJoint_true. rewrite HO. eauto using majority_nonempty.
  - rewrite HV' in Hg. destruct (majorities_intersect _ f g Hf1 Hg) as (v & _ & ? & ?); eauto.
Qed.

(** Leaving the joint configuration that [EnterJoint] built always succeeds, and
    lands on the requested voters with no old half. *)
Theorem enter_then_leave c target enter :
  conf_normal c → conf_normal target → Voters c ≠ [] →
  EnterJoint c target = Ret enter →
  IsJoint (cc_Config enter) = true ∧
  ∃ leave, LeaveJoint (cc_Config enter) = Ret leave ∧
           Voters (cc_Config leave) = Voters target ∧
           IsJoint (cc_Config leave) = false.
Proof.
  intros Hc Ht Hne HE. destruct (EnterJoint_voters _ _ _ Hc Ht HE) as (_ & HV & HO).
  assert (IsJoint (cc_Config enter) = true) as HJ by (by rewrite IsJoint_true, HO).
  assert (Voters target ≠ []) as Hne'.
  { intros H0. revert HE. unfold EnterJoint, Validate. by rewrite H0. }
  split; [done|]. destruct (LeaveJoint (cc_Config enter)) as [leave| | |] eqn:EL.
  { exists leave. apply LeaveJoint_voters in EL as [HV' HO']; [|rewrite HV; apply Ht].
    unfold IsJoint. by rewrite HV', HO', HV. }
  all: revert EL; unfold LeaveJoint, Validate; rewrite HJ; cbn;
    rewrite HV, sortedUnique_id by apply Ht; by destruct (Voters target).
Qed.

(** With an even number of voters [QuorumImpossible] is not complete: two
    refusals out of four already exclude every quorum, and the test still says
    that one can be reached. *)
Theorem QuorumImpossible_incomplete :
  let c := NewConfiguration [1; 2; 3; 4]%N [] in
  let rejected := λ v : NodeID, (v <=? 2)%N in
  QuorumImpossible c rejected = false ∧
  ∀ granted, (∀ v, granted v = true → rejected v = false) → HasQuorum c granted = false.
Proof.
  split; [by vm_compute|]. intros granted Hg.
  assert (granted 1%N = false) as H1 by (apply not_true_is_false; intros H%Hg; by vm_compute in H).
  assert (granted 2%N = false) as H2 by (apply not_true_is_false; intros H%Hg; by vm_compute in H).
  change (NewConfiguration [1; 2; 3; 4]%N []) with (mkConfiguration [1; 2; 3; 4]%N [] []).
  unfold HasQuorum, hasMajority. cbn. rewrite H1, H2.
  by destruct (granted 3%N), (granted 4%N).
Qed.

(** ** Encoding round trip *)

Lemma appendIDs_loop dst ids :
  foldl AppendUvarint dst ids = dst ++ concat (uvarint_bytes MaxVarintLen64 <$> ids).
Proof.
  revert dst. induction ids as [|i ids IH]; intros dst; cbn [foldl].
  - cbn. by rewrite app_nil_r.
  - rewrite IH. unfold AppendUvarint. cbn. by rewrite app_assoc.
Qed.

Definition encodedIDs (ids : list NodeID) : bytes :=
  uvarint_bytes MaxVarintLen64 (N.of_nat (length ids))
  ++ concat (uvarint_bytes MaxVarintLen64 <$> ids).

Lemma appendIDs_app dst ids : appendIDs dst ids = dst ++ encodedIDs ids.
Proof.
  unfold appendIDs, encodedIDs. rewrite appendIDs_loop. unfold AppendUvarint.
  by rewrite <- app_assoc.
Qed.

Lemma readIDs_loop_concat what ids rest :
  Forall (λ i, (i < W64)%N) ids →
  readIDs_loop what (length ids)
    (concat (uvarint_bytes MaxVarintLen64 <$> ids) ++ rest) = Ret (ids, rest).
Proof.
  induction 1 as [|i ids Hi _ IH]; [done|].
  cbn [length readIDs_loop fmap list_fmap concat].
  rewrite <- app_assoc, readUvarint_bytes by done. cbn [obind].
  change (list_fmap N (list byte) (uvarint_bytes MaxVarintLen64) ids)
    with (uvarint_bytes MaxVarintLen64 <$> ids).
  by rewrite IH.
Qed.

Lemma length_concat_uvarints (ids : list NodeID) :
  (length ids ≤ length (concat (uvarint_bytes MaxVarintLen64 <$> ids)))%nat.
Proof.
  induction ids as [|i ids IH]; [done|]. rewrite fmap_cons. cbn [concat].
  rewrite length_app. pose proof (length_uvarint_pos i). cbn [length]. lia.
Qed.

Lemma readIDs_encoded what ids rest :
  Forall (λ i, (i < W64)%N) ids → (N.of_nat (length ids) ≤ maxNodeIDCap)%N →
  readIDs (encodedIDs ids ++ rest) what = Ret (ids, rest).
Proof.
  intros Hids Hlen. unfold readIDs, encodedIDs.
  rewrite <- app_assoc, readUvarint_bytes
    by (unfold maxNodeIDCap, W64 in *; lia). cbn [obind].
  destruct (N.eqb_spec (N.of_nat (length ids)) 0) as [H0|H0].
  { destruct ids; cbn in *; [done|lia]. }
  rewrite (proj2 (N.ltb_ge _ _)) by done.
  pose proof (length_concat_uvarints ids).
  rewrite N.min_l by (rewrite length_app; lia).
  rewrite Nat2N.id. by apply readIDs_loop_concat.
Qed.

(** What an encodable configuration is: 64-bit ids, slices that fit in memory. *)
Definition conf_encodable (c : Configuration) : Prop :=
  Forall (λ ids, Forall (λ i, (i < W64)%N) ids ∧
                 (N.of_nat (length ids) ≤ maxNodeIDCap)%N)
    [Voters c; OldVoters c; Learners c].

(** What to follow through a run: a property of configurations, closed under leaving a joint
    configuration (what is entered is up to who asks for it, [target_ok]), the nodes that
    there are, and the images of state machines that snapshots carry. *)
Class Vetting := {
  vetted : Configuration → Prop;
  vetted_zero : vetted zeroConfiguration;
  vetted_leave c cc : vetted c → LeaveJoint c = Ret cc → vetted (cc_Config cc);
  known : NodeID → Prop;
  vetted_known c i : vetted c → i ∈ Members c → known i;
  imaged : bytes → Prop;
  imaged_nil : imaged []
}.

#[export] Program Instance any_conf : Vetting := { vetted _ := True; known _ := True; imaged _ := True }.
Solve All Obligations with done.

Section vetting.
Context `{Vetting}.

Definition conf_writable (c : Configuration) : Prop := conf_encodable c ∧ vetted c.

(** The configurations that circulate: encodable, vetted, and in normal form. *)
Definition conf_ok (c : Configuration) : Prop := conf_writable c ∧ conf_normal c.

(** The configurations to ask for: entering them leads to vetted ones. *)
Definition target_ok (target : Configuration) : Prop :=
  conf_encodable target ∧
  ∀ c cc, vetted c → EnterJoint c target = Ret cc → vetted (cc_Config cc).

Lemma conf_ok_check c : conf_encodable c → vetted c → normalize c = c → conf_ok c.
Proof. intros He Hv Hn. split; [done|]. rewrite <- Hn. apply normalize_normal. Qed.

(** The snapshots that circulate. *)
Definition snap_ok (snap : Snapshot) : Prop := conf_ok (snap_Config snap) ∧ imaged (snap_Data snap).

Lemma snap_ok_conf snap : snap_ok snap → conf_ok (snap_Config snap).
Proof. by intros [? _]. Qed.

Lemma peer_known c self i : conf_ok c → i ∈ Peers c self → known i.
Proof. intros [[_ Hv] _] [_ Hi]%elem_of_DeleteFunc. by eapply vetted_known. Qed.
End vetting.

Lemma target_any target : conf_encodable target → target_ok target.
Proof. done. Qed.

Lemma Decode_Encode_normalize k c :
  conf_encodable c →
  DecodeConfChange (Encode (mkConfChange k c)) = Ret (mkConfChange k (normalize c)).
Proof.
  unfold conf_encodable. rewrite !Forall_cons.
  intros ([Hv Hv'] & [Ho Ho'] & [Hl Hl'] & _).
  unfold Encode. cbn [cc_Kind cc_Config]. rewrite !appendIDs_app, <- !app_assoc.
  cbn [app DecodeConfChange].
  rewrite readIDs_encoded by done. cbn [obind].
  rewrite readIDs_encoded by done. cbn [obind].
  rewrite <- (app_nil_r (encodedIDs (Learners c))), readIDs_encoded by done.
  cbn [obind]. by destruct c.
Qed.

(** Decoding the encoding of a configuration change in normal form returns that
    very change. *)
Theorem Decode_Encode cc :
  conf_normal (cc_Config cc) → conf_encodable (cc_Config cc) →
  DecodeConfChange (Encode cc) = Ret cc.
Proof.
  intros Hn He. destruct cc as [k c]. cbn in *.
  by rewrite Decode_Encode_normalize, normalize_id.
Qed.

Lemma Decode_normal b cc : DecodeConfChange b = Ret cc → conf_normal (cc_Config cc).
Proof.
  unfold DecodeConfChange. destruct b as [|k b]; [done|].
  destruct (readIDs b _) as [[]| | |]; [|done..]. cbn.
  destruct (readIDs _ _) as [[]| | |]; [|done..]. cbn.
  destruct (readIDs _ _) as [[]| | |]; [|done..]. cbn.
  intros [= <-]. apply normalize_normal.
Qed.

(** An entry whose count field is corrupt makes the decoder panic instead of
    returning an error. *)
Theorem Decode_corrupt_count_panics :
  ∃ b, length b = 11%nat ∧
       DecodeConfChange b = Panic "makeslice: cap out of range".
Proof.
  exists (Byte.x00 :: uvarint_bytes MaxVarintLen64 18446744073709551615).
  by split; vm_compute.
Qed.

(** ** Instances *)

Lemma quorums_intersect_witness :
  ∃ v, IsVoter (mkConfiguration [1; 2; 3]%N [3; 4; 5]%N []) v = true ∧
       (λ v : N, bool_decide (v ∈ [1; 2; 3; 4]%N)) v = true ∧
       (λ v : N, bool_decide (v ∈ [2; 3; 4; 5]%N)) v = true.
Proof. apply quorums_intersect; by vm_compute. Defined.

Lemma QuorumImpossible_sound_witness :
  HasQuorum (mkConfiguration [1; 2; 3]%N [] []) (λ v, (v =? 3)%N) = false.
Proof.
  apply (QuorumImpossible_sound _ _ (λ v, (v <=? 2)%N)); [by vm_compute|].
  intros v ->%N.eqb_eq. by vm_compute.
Defined.

Lemma CommittedIndex_spec_witness :
  (5 ≤ CommittedIndex (mkConfiguration [1; 2; 3]%N [] []) (λ v, v * 5))%N ↔
  HasQuorum (mkConfiguration [1; 2; 3]%N [] []) (λ v, (5 <=? v * 5)%N) = true.
Proof. by apply CommittedIndex_spec. Defined.

(** Moving {1,2,3} to {3,4,5}, the example of raft/confchange.go. *)
Definition sample_old : Configuration := mkConfiguration [1; 2; 3]%N [] [].
Definition sample_new : Configuration := mkConfiguration [3; 4; 5]%N [] [].

Lemma sample_normal : conf_normal sample_old ∧ conf_normal sample_new.
Proof.
  rewrite <- (normalize_id sample_old), <- (normalize_id sample_new);
    [split; apply normalize_normal|..];
    (split_and!; [repeat constructor; lia..|intros x Hx; by apply not_elem_of_nil in Hx]).
Qed.

Lemma joint_transition_overlaps_witness :
  ∃ v, (λ v : N, bool_decide (v ∈ [1; 3; 5; 2]%N)) v = true ∧
       (λ v : N, bool_decide (v ∈ [4; 5]%N)) v = true.
Proof.
  destruct sample_normal as [Ho Hn].
  apply (joint_transition_overlaps sample_old sample_new
    (mkConfChange ConfChangeEnterJoint (mkConfiguration [3; 4; 5]%N [1; 2; 3]%N []))
    (mkConfChange ConfChangeLeaveJoint (mkConfiguration [3; 4; 5]%N [] [])));
    [done|done|by vm_compute..|right; by vm_compute].
Defined.

Lemma enter_then_leave_witness :
  let joint := mkConfChange ConfChangeEnterJoint (mkConfiguration [3; 4; 5]%N [1; 2; 3]%N []) in
  IsJoint (cc_Config joint) = true ∧
  ∃ leave, LeaveJoint (cc_Config joint) = Ret leave ∧
           Voters (cc_Config leave) = Voters sample_new ∧
           IsJoint (cc_Config leave) = false.
Proof.
  destruct sample_normal as [Ho Hn].
  apply (enter_then_leave sample_old sample_new); [done..|by vm_compute].
Defined.

Lemma Decode_Encode_witness :
  DecodeConfChange (Encode (mkConfChange ConfChangeLeaveJoint sample_new)) =
  Ret (mkConfChange ConfChangeLeaveJoint sample_new).
Proof.
  destruct sample_normal as [_ Hn]. apply Decode_Encode; [done|].
  repeat first [done | apply Forall_nil_2 | apply Forall_cons_2 | split].
Defined.
