(* ===== verification/Storage.v ===== *)
(** * Durable storage: the interface and the in-memory implementation

    raft/storage.go declares the interface [Storage]; it is the class [Storage]
    here, with two classes of laws the core relies on.  [HardStateLaws] says what
    becomes of term, vote and commit index; [LogLaws] relates an implementation to
    the abstract log [Disk] (a base index, its term, the entries above it and the
    last snapshot).  raft/memory_storage.go is [MemoryStorage], the implementation
    the simulator runs on, and the file ends with the proofs that it satisfies
    both classes. *)

From S2P Require Import Prelude Varint Types Config.

(** ** The interface *)

(** [FirstIndex] and [LastIndex] are infallible; the other reads may fail without
    changing anything; the writes return once the change is durable. *)
Class Storage (S : Type) := {
  InitialState : S → outcome (HardState * Snapshot);
  SetHardState : HardState → M S unit;
  AppendEntries : list LogEntry → M S unit;
  GetEntry : Index → S → outcome LogEntry;
  Entries : Index → Index → S → outcome (list LogEntry);
  FirstIndex : S → Index;
  LastIndex : S → Index;
  StorageTerm : Index → S → outcome Term;
  SaveSnapshot : Snapshot → M S unit;
  LoadSnapshot : S → outcome Snapshot;
  Compact : Index → M S unit
}.

(** ** MemoryStorage *)

Record MemoryStorage := mkMemoryStorage {
  ms_hardState : HardState;
  ms_snapshot : Snapshot;
  (** element zero is the sentinel: index and term of the last compacted entry *)
  ms_ents : list LogEntry
}.

Definition NewMemoryStorage : MemoryStorage :=
  mkMemoryStorage zeroHardState zeroSnapshot [zeroEntry].

Definition set_ms_hardState hs (m : MemoryStorage) : MemoryStorage :=
  mkMemoryStorage hs (ms_snapshot m) (ms_ents m).
Definition set_ms_snapshot s (m : MemoryStorage) : MemoryStorage :=
  mkMemoryStorage (ms_hardState m) s (ms_ents m).
Definition set_ms_ents es (m : MemoryStorage) : MemoryStorage :=
  mkMemoryStorage (ms_hardState m) (ms_snapshot m) es.

Definition MemoryStorage_InitialState (m : MemoryStorage)
    : outcome (HardState * Snapshot) :=
  Ret (ms_hardState m, ms_snapshot m).

Definition MemoryStorage_SetHardState (hs : HardState) : M MemoryStorage unit :=
  m <- get ;;
  if (hs_Term hs <? hs_Term (ms_hardState m))%N
  then fail (Errorf "storage: hard state term is below persisted term" [])
  else modify (set_ms_hardState hs).

(** The sentinel's index.  [ents] is never empty ([MemoryStorage_nonempty]). *)
Definition MemoryStorage_offset (m : MemoryStorage) : Index :=
  match ms_ents m with e :: _ => e_Index e | [] => 0%N end.

Definition MemoryStorage_FirstIndex (m : MemoryStorage) : Index :=
  MemoryStorage_offset m +u 1.

Definition MemoryStorage_LastIndex (m : MemoryStorage) : Index :=
  MemoryStorage_offset m +u N.of_nat (length (ms_ents m)) -u 1.

(** [m.ents[i-m.offset()]], which panics out of range. *)
Definition MemoryStorage_at (i : Index) (m : MemoryStorage) : outcome LogEntry :=
  match ms_ents m !! N.to_nat (i -u MemoryStorage_offset m) with
  | Some e => Ret e
  | None => Panic "index out of range"
  end.

Definition MemoryStorage_Term (i : Index) (m : MemoryStorage) : outcome Term :=
  if (i <? MemoryStorage_offset m)%N
  then Fail (Errorf "storage: term, first available" [ErrCompacted])
  else if (MemoryStorage_LastIndex m <? i)%N
  then Fail (Errorf "storage: term, last index" [ErrUnavailable])
  else let? e := MemoryStorage_at i m in Ret (e_Term e).

Definition MemoryStorage_GetEntry (i : Index) (m : MemoryStorage) : outcome LogEntry :=
  if (i <? MemoryStorage_FirstIndex m)%N
  then Fail (Errorf "storage: entry, first available" [ErrCompacted])
  else if (MemoryStorage_LastIndex m <? i)%N
  then Fail (Errorf "storage: entry, last index" [ErrUnavailable])
  else MemoryStorage_at i m.

Definition MemoryStorage_Entries (lo hi : Index) (m : MemoryStorage)
    : outcome (list LogEntry) :=
  if (hi <=? lo)%N then Ret []
  else if (lo <? MemoryStorage_FirstIndex m)%N
  then Fail (Errorf "storage: entries, first available" [ErrCompacted])
  else if (MemoryStorage_LastIndex m +u 1 <? hi)%N
  then Fail (Errorf "storage: entries, last index" [ErrUnavailable])
  else
    let off := MemoryStorage_offset m in
    Ret (drop (N.to_nat (lo -u off)) (take (N.to_nat (hi -u off)) (ms_ents m))).

(** Consecutive entries have consecutive indexes and terms that never decrease. *)
Fixpoint checkContiguous (entries : list LogEntry) : outcome unit :=
  match entries with
  | a :: ((b :: _) as rest) =>
      if negb (e_Index b =? e_Index a +u 1)%N
      then Fail (Errorf "storage: entries are not contiguous" [])
      else if (e_Term b <? e_Term a)%N
      then Fail (Errorf "storage: entry terms decrease" [])
      else checkContiguous rest
  | _ => Ret tt
  end.

Definition MemoryStorage_AppendEntries (entries : list LogEntry) : M MemoryStorage unit :=
  match entries with
  | [] => ret tt
  | e0 :: _ =>
      reads (λ _, checkContiguous entries) ;;;
      m <- get ;;
      let off := MemoryStorage_offset m in
      let first := e_Index e0 in
      let last_ := e_Index (List.last entries e0) in
      (* entirely covered by the snapshot: nothing left to store *)
      if (last_ <=? off)%N then ret tt
      else
        (* trim any prefix the snapshot already covers *)
        let entries' :=
          if (first <=? off)%N then drop (N.to_nat (off +u 1 -u first)) entries
          else entries in
        match entries' with
        | [] => panic "index out of range"
        | e :: _ =>
            let first' := e_Index e in
            if (MemoryStorage_LastIndex m +u 1 <? first')%N
            then fail (Errorf "storage: append leaves a gap after last index" [])
            else
              (* truncate the conflicting suffix, then append *)
              modify (set_ms_ents (take (N.to_nat (first' -u off)) (ms_ents m) ++ entries'))
        end
  end.

Definition MemoryStorage_SaveSnapshot (snap : Snapshot) : M MemoryStorage unit :=
  m <- get ;;
  if (snap_LastIncludedIndex snap <=? snap_LastIncludedIndex (ms_snapshot m))%N
  then fail (Errorf "storage: snapshot, already have" [ErrSnapshotOutOfDate])
  else
    modify (set_ms_snapshot snap) ;;;
    keep <- (if (snap_LastIncludedIndex snap <=? MemoryStorage_LastIndex m)%N
             then e <- reads (MemoryStorage_at (snap_LastIncludedIndex snap)) ;;
                  ret (e_Term e =? snap_LastIncludedTerm snap)%N
             else ret false) ;;
    if keep : bool then ret tt
    else modify (set_ms_ents
           [mkEntry (snap_LastIncludedTerm snap) (snap_LastIncludedIndex snap)
              EntryNormal []]).

Definition MemoryStorage_LoadSnapshot (m : MemoryStorage) : outcome Snapshot :=
  Ret (ms_snapshot m).

(** The new sentinel carries only index and term. *)
Definition MemoryStorage_Compact (upto : Index) : M MemoryStorage unit :=
  m <- get ;;
  let off := MemoryStorage_offset m in
  if (upto <=? off)%N then ret tt
  else if (MemoryStorage_LastIndex m <? upto)%N
  then fail (Errorf "storage: compact past last index" [])
  else
    match drop (N.to_nat (upto -u off)) (ms_ents m) with
    | e :: rest =>
        modify (set_ms_ents (mkEntry (e_Term e) (e_Index e) EntryNormal [] :: rest))
    | [] => panic "index out of range"
    end.

#[export] Instance MemoryStorage_Storage : Storage MemoryStorage := {
  InitialState := MemoryStorage_InitialState;
  SetHardState := MemoryStorage_SetHardState;
  AppendEntries := MemoryStorage_AppendEntries;
  GetEntry := MemoryStorage_GetEntry;
  Entries := MemoryStorage_Entries;
  FirstIndex := MemoryStorage_FirstIndex;
  LastIndex := MemoryStorage_LastIndex;
  StorageTerm := MemoryStorage_Term;
  SaveSnapshot := MemoryStorage_SaveSnapshot;
  LoadSnapshot := MemoryStorage_LoadSnapshot;
  Compact := MemoryStorage_Compact
}.

(** ** The abstract log *)

(** What the core may assume of any implementation: entries [base+1 .. last], the
    term of the entry at [base], and the last snapshot saved. *)
Record Disk := mkDisk {
  d_snapshot : Snapshot;
  d_base : Index;
  d_baseTerm : Term;
  d_entries : list LogEntry
}.

Definition d_last (d : Disk) : Index := (d_base d + N.of_nat (length (d_entries d)))%N.

Definition disk_entry (d : Disk) (i : Index) : option LogEntry :=
  if (i <=? d_base d)%N then None
  else d_entries d !! N.to_nat (i - d_base d - 1).

Definition disk_term (d : Disk) (i : Index) : option Term :=
  if (i =? d_base d)%N then Some (d_baseTerm d) else e_Term <$> disk_entry d i.

(** Entries carry consecutive indexes from [f] on. *)
Definition contiguous_from (f : Index) (ents : list LogEntry) : Prop :=
  ∀ k e, ents !! k = Some e → e_Index e = (f + N.of_nat k)%N.

Definition terms_ascend (ents : list LogEntry) : Prop :=
  StronglySorted (λ a b, (e_Term a ≤ e_Term b)%N) ents.

(** Well-formed logs: positions and indexes agree, indexes stay clear of the end
    of [uint64], and compaction never outran the snapshot. *)
Definition disk_ok (d : Disk) : Prop :=
  contiguous_from (d_base d + 1) (d_entries d) ∧
  (d_last d + 1 < W64)%N ∧
  (d_base d ≤ snap_LastIncludedIndex (d_snapshot d))%N.

(** Overwrite from index [f] on. *)
Definition disk_write (f : Index) (ents : list LogEntry) (d : Disk) : Disk :=
  mkDisk (d_snapshot d) (d_base d) (d_baseTerm d)
    (take (N.to_nat (f - d_base d - 1)) (d_entries d) ++ ents).

(** Record a snapshot; the log survives only if it agrees at the boundary. *)
Definition disk_snapshot (snap : Snapshot) (d : Disk) : Disk :=
  let i := snap_LastIncludedIndex snap in
  if (i <=? d_last d)%N && bool_decide (disk_term d i = Some (snap_LastIncludedTerm snap))
  then mkDisk snap (d_base d) (d_baseTerm d) (d_entries d)
  else mkDisk snap i (snap_LastIncludedTerm snap) [].

(** Discard entries through [upto]. *)
Definition disk_compact (upto : Index) (d : Disk) : Disk :=
  if (upto <=? d_base d)%N then d
  else mkDisk (d_snapshot d) upto (default 0%N (disk_term d upto))
         (drop (N.to_nat (upto - d_base d)) (d_entries d)).

(** ** What the core relies on *)

(** The hard state: a successful write replaces it and never lowers the term, a
    failed one leaves it alone, and no other operation touches it.  A storage
    error is never the sentinel with which the core marks a message it chose to
    ignore. *)
Class HardStateLaws (S : Type) `{Storage S} := {
  hard : S → HardState;
  hard_consistent : S → Prop;
  hard_initial s hs snap :
    hard_consistent s → InitialState s = Ret (hs, snap) → hs = hard s;
  hard_set hs s :
    hard_consistent s →
    wp (SetHardState hs)
       (λ _ s', hard_consistent s' ∧ hard s' = hs ∧ (hs_Term (hard s) ≤ hs_Term hs)%N)
       (λ e s', hard_consistent s' ∧ hard s' = hard s ∧ errorsIs e ErrIgnoredMessage = false)
       (λ s', hard_consistent s' ∧ hard s' = hard s) s;
  hard_append ents s :
    hard_consistent s →
    wp (AppendEntries ents) (λ _ s', hard_consistent s' ∧ hard s' = hard s)
       (λ e s', hard_consistent s' ∧ hard s' = hard s ∧ errorsIs e ErrIgnoredMessage = false)
       (λ s', hard_consistent s' ∧ hard s' = hard s) s;
  hard_snapshot snap s :
    hard_consistent s →
    wp (SaveSnapshot snap) (λ _ s', hard_consistent s' ∧ hard s' = hard s)
       (λ e s', hard_consistent s' ∧ hard s' = hard s ∧ errorsIs e ErrIgnoredMessage = false)
       (λ s', hard_consistent s' ∧ hard s' = hard s) s;
  hard_compact upto s :
    hard_consistent s →
    wp (Compact upto) (λ _ s', hard_consistent s' ∧ hard s' = hard s)
       (λ e s', hard_consistent s' ∧ hard s' = hard s ∧ errorsIs e ErrIgnoredMessage = false)
       (λ s', hard_consistent s' ∧ hard s' = hard s) s
}.

(** The log.  Reads agree with the abstract log; a write that succeeds has exactly
    the abstract effect, one that fails has none, and none panics under its
    documented precondition. *)
Class LogLaws (S : Type) `{Storage S} := {
  disk : S → Disk;
  storage_ok : S → Prop;
  storage_disk_ok s : storage_ok s → disk_ok (disk s);
  log_first s : storage_ok s → FirstIndex s = (d_base (disk s) + 1)%N;
  log_last s : storage_ok s → LastIndex s = d_last (disk s);
  log_term s i :
    storage_ok s → i ≠ 0%N →
    match StorageTerm i s with
    | Ret t => disk_term (disk s) i = Some t
    | Fail e =>
        disk_term (disk s) i = None ∧
        (if (i <? d_base (disk s))%N then errorsIs e ErrCompacted
         else errorsIs e ErrUnavailable) = true
    | _ => False
    end;
  log_entry s i :
    storage_ok s →
    match GetEntry i s with
    | Ret e => disk_entry (disk s) i = Some e
    | Fail e =>
        disk_entry (disk s) i = None ∧
        (if (i <=? d_base (disk s))%N then errorsIs e ErrCompacted
         else errorsIs e ErrUnavailable) = true
    | _ => False
    end;
  log_entries s lo hi :
    storage_ok s → (d_base (disk s) < lo)%N → (lo ≤ hi)%N → (hi ≤ d_last (disk s) + 1)%N →
    Entries lo hi s =
    Ret (take (N.to_nat (hi - lo)) (drop (N.to_nat (lo - d_base (disk s) - 1))
                                      (d_entries (disk s))));
  log_entries_out s lo hi :
    storage_ok s → (lo < hi)%N → (lo ≤ d_base (disk s) ∨ d_last (disk s) + 1 < hi)%N →
    ∃ e, Entries lo hi s = Fail e ∧
         errorsIs e (if (lo <=? d_base (disk s))%N then ErrCompacted else ErrUnavailable) = true;
  log_entries_empty s lo hi : storage_ok s → (hi ≤ lo)%N → Entries lo hi s = Ret [];
  log_load s : storage_ok s → LoadSnapshot s = Ret (d_snapshot (disk s));
  log_initial s : storage_ok s → ∃ hs, InitialState s = Ret (hs, d_snapshot (disk s));
  log_hard s hs :
    storage_ok s →
    wp (SetHardState hs) (λ _ s', storage_ok s' ∧ disk s' = disk s)
       (λ _ s', storage_ok s' ∧ disk s' = disk s) (λ _, False) s;
  log_append s e ents :
    storage_ok s → (d_base (disk s) < e_Index e)%N →
    (e_Index e + N.of_nat (length (e :: ents)) < W64)%N →
    wp (AppendEntries (e :: ents))
       (λ _ s', storage_ok s' ∧ disk s' = disk_write (e_Index e) (e :: ents) (disk s) ∧
                (e_Index e ≤ d_last (disk s) + 1)%N ∧
                contiguous_from (e_Index e) (e :: ents) ∧ terms_ascend (e :: ents))
       (λ _ s', storage_ok s' ∧ disk s' = disk s) (λ _, False) s;
  log_snapshot s snap :
    storage_ok s → (snap_LastIncludedIndex snap + 1 < W64)%N → conf_normal (snap_Config snap) →
    wp (SaveSnapshot snap)
       (λ _ s', storage_ok s' ∧ disk s' = disk_snapshot snap (disk s) ∧
                (snap_LastIncludedIndex (d_snapshot (disk s)) < snap_LastIncludedIndex snap)%N)
       (λ _ s', storage_ok s' ∧ disk s' = disk s) (λ _, False) s;
  log_compact s upto :
    storage_ok s → (upto ≤ snap_LastIncludedIndex (d_snapshot (disk s)))%N →
    wp (Compact upto)
       (λ _ s', storage_ok s' ∧ disk s' = disk_compact upto (disk s) ∧
                (upto ≤ d_base (disk s) ∨ upto ≤ d_last (disk s))%N)
       (λ _ s', storage_ok s' ∧ disk s' = disk s) (λ _, False) s
}.

(** ** MemoryStorage satisfies the laws *)

Definition mem_disk (m : MemoryStorage) : Disk :=
  mkDisk (ms_snapshot m) (MemoryStorage_offset m)
    (match ms_ents m with e :: _ => e_Term e | [] => 0%N end) (tail (ms_ents m)).

Definition mem_ok (m : MemoryStorage) : Prop := ms_ents m ≠ [] ∧ disk_ok (mem_disk m).

Lemma mem_ok_new : mem_ok NewMemoryStorage.
Proof. split; [done|]. repeat split; [|done..]. by intros []. Qed.

(** Destructs a well-formed store into its sentinel and its entries. *)
Ltac mem_split H :=
  let Hc := fresh "Hcont" in let Hl := fresh "Hlast" in let Hb := fresh "Hbase" in
  match type of H with
  | mem_ok ?m =>
      destruct m as [hard_st snap_st [|sent es]]; destruct H as [? (Hc & Hl & Hb)];
      [done|]; cbn in Hc, Hl, Hb; unfold d_last in Hl; cbn in Hl
  end.

Lemma mem_last m :
  mem_ok m → MemoryStorage_LastIndex m = d_last (mem_disk m).
Proof.
  intros H. mem_split H. unfold MemoryStorage_LastIndex, d_last. cbn in *.
  rewrite u64_add_small by lia. rewrite u64_sub_small by lia. lia.
Qed.

Lemma mem_first m :
  mem_ok m → MemoryStorage_FirstIndex m = (d_base (mem_disk m) + 1)%N.
Proof.
  intros H. mem_split H. unfold MemoryStorage_FirstIndex. cbn in *.
  by rewrite u64_add_small by lia.
Qed.

Lemma mem_at m i :
  mem_ok m → (d_base (mem_disk m) ≤ i)%N → (i ≤ d_last (mem_disk m))%N →
  ∃ e, MemoryStorage_at i m = Ret e ∧ disk_term (mem_disk m) i = Some (e_Term e) ∧
       ((d_base (mem_disk m) < i)%N → disk_entry (mem_disk m) i = Some e).
Proof.
  intros H Hlo Hhi. mem_split H. unfold MemoryStorage_at, disk_term, disk_entry, d_last in *.
  cbn in *. rewrite u64_sub_small by lia.
  destruct (N.eqb_spec i (e_Index sent)) as [->|Hne].
  - rewrite N.sub_diag. exists sent. cbn. split_and!; [done..|lia].
  - rewrite (proj2 (N.leb_gt i (e_Index sent))) by lia.
    destruct (lookup_lt_is_Some_2 es (N.to_nat (i - e_Index sent - 1))) as [e He]; [lia|].
    exists e. replace (N.to_nat (i - e_Index sent))
      with (S (N.to_nat (i - e_Index sent - 1))) by lia.
    by rewrite list_lookup_cons_S, He.
Qed.

Lemma disk_term_last d i : (d_last d < i)%N → disk_term d i = None.
Proof.
  unfold d_last, disk_term, disk_entry. intros Hi.
  destruct (N.eqb_spec i (d_base d)); [lia|]. case_match; [done|].
  rewrite lookup_ge_None_2; [done|]. lia.
Qed.

Lemma disk_entry_last d i : (d_last d < i)%N → disk_entry d i = None.
Proof.
  unfold d_last, disk_entry. intros Hi. case_match; [done|].
  apply lookup_ge_None_2. lia.
Qed.

Lemma mem_term m i :
  mem_ok m →
  match MemoryStorage_Term i m with
  | Ret t => disk_term (mem_disk m) i = Some t
  | Fail e => disk_term (mem_disk m) i = None ∧
      (if (i <? d_base (mem_disk m))%N then errorsIs e ErrCompacted
       else errorsIs e ErrUnavailable) = true
  | _ => False
  end.
Proof.
  intros H. unfold MemoryStorage_Term. rewrite (mem_last m H).
  destruct (N.ltb_spec i (MemoryStorage_offset m)) as [Hlt|Hge].
  { split.
    - unfold disk_term, disk_entry. cbn.
      destruct (N.eqb_spec i (MemoryStorage_offset m)); [lia|].
      by rewrite (proj2 (N.leb_le i (MemoryStorage_offset m))) by lia.
    - cbn. by rewrite (proj2 (N.ltb_lt _ _) Hlt). }
  destruct (N.ltb_spec (d_last (mem_disk m)) i) as [Hlt|Hle].
  { split; [by apply disk_term_last|]. cbn. by rewrite (proj2 (N.ltb_ge _ _) Hge). }
  destruct (mem_at m i H Hge Hle) as (e & -> & Ht & _). done.
Qed.

Lemma mem_entry m i :
  mem_ok m →
  match MemoryStorage_GetEntry i m with
  | Ret e => disk_entry (mem_disk m) i = Some e
  | Fail e => disk_entry (mem_disk m) i = None ∧
      (if (i <=? d_base (mem_disk m))%N then errorsIs e ErrCompacted
       else errorsIs e ErrUnavailable) = true
  | _ => False
  end.
Proof.
  intros H. unfold MemoryStorage_GetEntry. rewrite (mem_last m H), (mem_first m H).
  destruct (N.ltb_spec i (d_base (mem_disk m) + 1)) as [Hlt|Hge].
  { unfold disk_entry. by rewrite (proj2 (N.leb_le i _)) by lia. }
  rewrite (proj2 (N.leb_gt i _)) by lia.
  destruct (N.ltb_spec (d_last (mem_disk m)) i) as [Hlt|Hle].
  { split; [by apply disk_entry_last|done]. }
  destruct (mem_at m i H) as (e & -> & _ & He); [lia..|]. apply He. lia.
Qed.

Lemma mem_entries m lo hi :
  mem_ok m → (d_base (mem_disk m) < lo)%N → (lo ≤ hi)%N →
  (hi ≤ d_last (mem_disk m) + 1)%N →
  MemoryStorage_Entries lo hi m =
  Ret (take (N.to_nat (hi - lo))
         (drop (N.to_nat (lo - d_base (mem_disk m) - 1)) (d_entries (mem_disk m)))).
Proof.
  intros H Hlo Hlh Hhi. unfold MemoryStorage_Entries.
  destruct (N.leb_spec hi lo).
  { by replace (N.to_nat (hi - lo)) with 0%nat by lia. }
  rewrite (mem_last m H), (mem_first m H), (proj2 (N.ltb_ge lo _)) by lia.
  rewrite u64_add_small by apply H. rewrite (proj2 (N.ltb_ge _ hi)) by lia.
  f_equal. mem_split H. unfold d_last in *. cbn in *.
  rewrite !u64_sub_small by lia.
  replace (N.to_nat (lo - e_Index sent)) with (S (N.to_nat (lo - e_Index sent - 1))) by lia.
  replace (N.to_nat (hi - e_Index sent)) with (S (N.to_nat (hi - e_Index sent - 1))) by lia.
  cbn [take drop]. rewrite skipn_firstn_comm. f_equal. lia.
Qed.

Lemma mem_entries_out m lo hi :
  mem_ok m → (lo < hi)%N → (lo ≤ d_base (mem_disk m) ∨ d_last (mem_disk m) + 1 < hi)%N →
  ∃ e, MemoryStorage_Entries lo hi m = Fail e ∧
       errorsIs e (if (lo <=? d_base (mem_disk m))%N then ErrCompacted else ErrUnavailable) = true.
Proof.
  intros H Hlt Hout. unfold MemoryStorage_Entries. rewrite (proj2 (N.leb_gt _ _)) by done.
  rewrite (mem_last m H), (mem_first m H), u64_add_small by apply H.
  destruct (N.ltb_spec lo (d_base (mem_disk m) + 1)).
  { eexists. split; [done|]. by rewrite (proj2 (N.leb_le _ _)) by lia. }
  rewrite (proj2 (N.ltb_lt _ hi)) by lia. eexists. split; [done|]. by rewrite (proj2 (N.leb_gt _ _)) by lia.
Qed.

Lemma checkContiguous_total ents :
  checkContiguous ents = Ret tt ∨ ∃ msg, checkContiguous ents = Fail (Errorf msg []).
Proof.
  induction ents as [|a ents IH]; [by left|].
  destruct ents as [|b ents]; [by left|].
  change (checkContiguous (a :: b :: ents)) with
    (if negb (e_Index b =? e_Index a +u 1)%N
     then Fail (A:=unit) (Errorf "storage: entries are not contiguous" [])
     else if (e_Term b <? e_Term a)%N
     then Fail (Errorf "storage: entry terms decrease" [])
     else checkContiguous (b :: ents)).
  destruct (negb _); [by eauto|]. destruct (_ <? _)%N; [by eauto|done].
Qed.

(** Contiguity as [checkContiguous] tests it, away from the end of [uint64]. *)
Lemma checkContiguous_spec e ents :
  (e_Index e + N.of_nat (length (e :: ents)) < W64)%N →
  checkContiguous (e :: ents) = Ret tt →
  contiguous_from (e_Index e) (e :: ents) ∧ terms_ascend (e :: ents).
Proof.
  revert e. induction ents as [|b ents IH]; intros e Hb Hc.
  { split; [|repeat constructor]. intros [|k] x Hx; [|done]. cbn in *. simplify_eq. lia. }
  cbn [checkContiguous] in Hc. cbn [length] in Hb.
  destruct (N.eqb_spec (e_Index b) (e_Index e +u 1)) as [Hi|]; [|done].
  destruct (N.ltb_spec (e_Term b) (e_Term e)) as [|Ht]; [done|]. cbn [negb] in Hc.
  rewrite u64_add_small in Hi by lia.
  destruct (IH b) as [Hcb Hsb]; [cbn [length]; lia|done|]. split.
  - intros [|k] x Hx; cbn in Hx; [simplify_eq; lia|].
    apply Hcb in Hx. lia.
  - constructor; [done|]. inversion Hsb as [|?? _ Hall]; subst.
    constructor; [done|]. eapply Forall_impl; [done|]. cbn. lia.
Qed.

Lemma last_cons_default {A} (x : A) l d1 d2 : List.last (x :: l) d1 = List.last (x :: l) d2.
Proof. revert x. induction l as [|y l IH]; intros x; [done|]. apply (IH y). Qed.

Lemma contiguous_last f e ents :
  contiguous_from f (e :: ents) →
  e_Index (List.last (e :: ents) e) = (f + N.of_nat (length ents))%N.
Proof.
  revert f e. induction ents as [|b ents IH]; intros f e H.
  { exact (H 0%nat e eq_refl). }
  assert (contiguous_from (f + 1) (b :: ents)) as H'.
  { intros k x Hx. rewrite (H (S k) x Hx). lia. }
  change (List.last (e :: b :: ents) e) with (List.last (b :: ents) e).
  rewrite (last_cons_default b ents e b).
  rewrite (IH _ _ H'). cbn [length]. lia.
Qed.

Lemma contiguous_app f l k :
  contiguous_from f l → contiguous_from (f + N.of_nat (length l)) k →
  contiguous_from f (l ++ k).
Proof.
  intros Hl Hk j x Hx. destruct (decide (j < length l)%nat).
  - rewrite lookup_app_l in Hx by done. by apply Hl.
  - rewrite lookup_app_r in Hx by lia. rewrite (Hk _ _ Hx). lia.
Qed.

Lemma contiguous_take f l n : contiguous_from f l → contiguous_from f (take n l).
Proof.
  intros Hl j x Hx. apply Hl. rewrite lookup_take in Hx. by case_decide.
Qed.

Lemma contiguous_drop f l n :
  contiguous_from f l → contiguous_from (f + N.of_nat n) (drop n l).
Proof. intros Hl j x Hx. rewrite lookup_drop in Hx. rewrite (Hl _ _ Hx). lia. Qed.

(** Overwriting a suffix keeps a log well-formed. *)
Lemma disk_write_ok d e ents :
  disk_ok d → (d_base d < e_Index e)%N → (e_Index e ≤ d_last d + 1)%N →
  contiguous_from (e_Index e) (e :: ents) →
  (e_Index e + N.of_nat (length (e :: ents)) < W64)%N →
  disk_ok (disk_write (e_Index e) (e :: ents) d) ∧
  d_last (disk_write (e_Index e) (e :: ents) d) = (e_Index e + N.of_nat (length ents))%N.
Proof.
  intros (Hc & Hl & Hb) Hlo Hhi He Hbound. unfold d_last in *.
  assert (length (take (N.to_nat (e_Index e - d_base d - 1)) (d_entries d))
          = N.to_nat (e_Index e - d_base d - 1)) as HL by (rewrite length_take; lia).
  assert (d_last (disk_write (e_Index e) (e :: ents) d)
          = (e_Index e + N.of_nat (length ents))%N) as HD.
  { unfold d_last, disk_write. cbn. rewrite length_app, HL. cbn. lia. }
  split; [|done]. split_and!; [|cbn [length] in *; lia|done].
  unfold disk_write. cbn. apply contiguous_app; [by apply contiguous_take|].
  rewrite HL. by replace (d_base d + 1 + N.of_nat (N.to_nat (e_Index e - d_base d - 1)))%N
    with (e_Index e) by lia.
Qed.

Lemma mem_append m e ents :
  mem_ok m → (d_base (mem_disk m) < e_Index e)%N →
  (e_Index e + N.of_nat (length (e :: ents)) < W64)%N →
  wp (MemoryStorage_AppendEntries (e :: ents))
     (λ _ m', mem_ok m' ∧ mem_disk m' = disk_write (e_Index e) (e :: ents) (mem_disk m) ∧
              (e_Index e ≤ d_last (mem_disk m) + 1)%N ∧
              contiguous_from (e_Index e) (e :: ents) ∧ terms_ascend (e :: ents))
     (λ _ m', mem_ok m' ∧ mem_disk m' = mem_disk m) (λ _, False) m.
Proof.
  intros H Hlo Hb. unfold MemoryStorage_AppendEntries. wp_go.
  destruct (checkContiguous_total (e :: ents)) as [EC|[msg EC]]; rewrite EC; [|done].
  wp_go. destruct (checkContiguous_spec e ents Hb EC) as [Hc Ht].
  pose proof (mem_last m H) as HL. rewrite (contiguous_last _ _ _ Hc).
  change (d_base (mem_disk m)) with (MemoryStorage_offset m) in Hlo.
  rewrite (proj2 (N.leb_gt _ _)), (proj2 (N.leb_gt (e_Index e) _)) by lia.
  rewrite HL, u64_add_small by apply H.
  destruct (N.ltb_spec (d_last (mem_disk m) + 1) (e_Index e)) as [|Hle]; [done|].
  wp_go. destruct (disk_write_ok (mem_disk m) e ents) as [Hok _]; try done; [apply H|].
  mem_split H. cbn in *. rewrite u64_sub_small by (cbn in *; lia).
  assert (mem_disk (set_ms_ents (take (N.to_nat (e_Index e - e_Index sent)) (sent :: es)
                                   ++ e :: ents)
            (mkMemoryStorage hard_st snap_st (sent :: es)))
          = disk_write (e_Index e) (e :: ents)
              (mem_disk (mkMemoryStorage hard_st snap_st (sent :: es)))) as HD.
  { unfold mem_disk, disk_write, MemoryStorage_offset. cbn.
    replace (N.to_nat (e_Index e - e_Index sent))
      with (S (N.to_nat (e_Index e - e_Index sent - 1))) by lia. done. }
  split_and!; [|done..]. split; [|by rewrite HD].
  cbn. by destruct (N.to_nat _).
Qed.

Lemma mem_save m snap :
  mem_ok m → (snap_LastIncludedIndex snap + 1 < W64)%N →
  wp (MemoryStorage_SaveSnapshot snap)
     (λ _ m', mem_ok m' ∧ mem_disk m' = disk_snapshot snap (mem_disk m) ∧
        (snap_LastIncludedIndex (d_snapshot (mem_disk m)) < snap_LastIncludedIndex snap)%N)
     (λ _ m', mem_ok m' ∧ mem_disk m' = mem_disk m) (λ _, False) m.
Proof.
  intros H Hb. unfold MemoryStorage_SaveSnapshot. wp_go.
  destruct (N.leb_spec (snap_LastIncludedIndex snap)
              (snap_LastIncludedIndex (ms_snapshot m))) as [|Hlt]; [done|].
  wp_go. rewrite (mem_last m H). unfold disk_snapshot.
  pose proof H as (Hne & Hc & Hl & Hbs).
  change (MemoryStorage_offset m ≤ snap_LastIncludedIndex (ms_snapshot m))%N in Hbs.
  destruct (N.leb_spec (snap_LastIncludedIndex snap) (d_last (mem_disk m))) as [Hle|Hgt].
  - destruct (mem_at m (snap_LastIncludedIndex snap) H) as (e & He & Ht & _);
      [change (MemoryStorage_offset m ≤ snap_LastIncludedIndex snap)%N; lia|done|].
    wp_go. change (MemoryStorage_at (snap_LastIncludedIndex snap) (set_ms_snapshot snap m))
      with (MemoryStorage_at (snap_LastIncludedIndex snap) m). rewrite He. wp_go.
    rewrite Ht. cbn [andb].
    destruct (N.eqb_spec (e_Term e) (snap_LastIncludedTerm snap)) as [->|Hne'].
    + rewrite bool_decide_true by done. wp_go. split_and!; [|done..].
      split; [done|]. split_and!; [done..|].
      change (MemoryStorage_offset m ≤ snap_LastIncludedIndex snap)%N. lia.
    + rewrite bool_decide_false by congruence. wp_go. split_and!; [|done..].
      split; [done|]. split_and!; cbn; [by intros []|unfold d_last; cbn; lia|done].
  - wp_go. split_and!; [|done..].
    split; [done|]. split_and!; cbn; [by intros []|unfold d_last; cbn; lia|done].
Qed.

Lemma mem_compact m upto :
  mem_ok m → (upto ≤ snap_LastIncludedIndex (d_snapshot (mem_disk m)))%N →
  wp (MemoryStorage_Compact upto)
     (λ _ m', mem_ok m' ∧ mem_disk m' = disk_compact upto (mem_disk m) ∧
              (upto ≤ d_base (mem_disk m) ∨ upto ≤ d_last (mem_disk m))%N)
     (λ _ m', mem_ok m' ∧ mem_disk m' = mem_disk m) (λ _, False) m.
Proof.
  intros H Hup. unfold MemoryStorage_Compact, disk_compact. wp_go.
  rewrite (mem_last m H). change (d_base (mem_disk m)) with (MemoryStorage_offset m).
  destruct (N.leb_spec upto (MemoryStorage_offset m)) as [|Hgt].
  { wp_go. split_and!; auto. }
  destruct (N.ltb_spec (d_last (mem_disk m)) upto) as [|Hle]; [done|].
  destruct (mem_at m upto H) as (e & He & Ht & Hent); [cbn; lia|done|].
  rewrite Ht. specialize (Hent Hgt). mem_split H. unfold disk_entry, d_last in *. cbn in *.
  rewrite (proj2 (N.leb_gt upto (e_Index sent)) Hgt) in Hent.
  rewrite u64_sub_small by lia.
  replace (N.to_nat (upto - e_Index sent)) with (S (N.to_nat (upto - e_Index sent - 1))) by lia.
  cbn [drop]. rewrite (drop_S _ _ _ Hent). wp_go.
  apply Hcont in Hent as Hidx.
  assert (e_Index e = upto) as HI by lia.
  assert (mem_disk (set_ms_ents (mkEntry (e_Term e) (e_Index e) EntryNormal []
                     :: drop (S (N.to_nat (upto - e_Index sent - 1))) es)
                     (mkMemoryStorage hard_st snap_st (sent :: es)))
          = mkDisk snap_st upto (e_Term e)
              (drop (N.to_nat (upto - e_Index sent)) es)) as HD.
  { unfold mem_disk, MemoryStorage_offset. cbn. rewrite HI. do 2 f_equal. lia. }
  split_and!; [|by rewrite HD; do 2 f_equal; lia|by right].
  split; [done|]. rewrite HD. split_and!; cbn; [|unfold d_last; cbn|done].
  - replace (upto + 1)%N
      with (e_Index sent + 1 + N.of_nat (N.to_nat (upto - e_Index sent)))%N by lia.
    by apply contiguous_drop.
  - rewrite length_drop. lia.
Qed.

(** When the in-memory store accepts a write. *)
Lemma mem_append_accepts m e ents :
  mem_ok m → (d_base (mem_disk m) < e_Index e)%N →
  (e_Index e + N.of_nat (length (e :: ents)) < W64)%N → checkContiguous (e :: ents) = Ret tt →
  (e_Index e ≤ d_last (mem_disk m) + 1)%N →
  ∃ m', MemoryStorage_AppendEntries (e :: ents) m = (Ret tt, m').
Proof.
  intros H Hlo Hb EC Hle. destruct (checkContiguous_spec e ents Hb EC) as [Hc _].
  unfold MemoryStorage_AppendEntries, bind, reads, get. rewrite EC, (contiguous_last _ _ _ Hc).
  change (d_base (mem_disk m)) with (MemoryStorage_offset m) in Hlo.
  rewrite (proj2 (N.leb_gt _ _)), (proj2 (N.leb_gt (e_Index e) _)) by lia.
  rewrite (mem_last m H), u64_add_small, (proj2 (N.ltb_ge _ _)) by (apply H || lia). by eexists.
Qed.

Lemma mem_save_accepts m snap :
  mem_ok m → (snap_LastIncludedIndex (d_snapshot (mem_disk m)) < snap_LastIncludedIndex snap)%N →
  ∃ m', MemoryStorage_SaveSnapshot snap m = (Ret tt, m').
Proof.
  intros H Hlt. unfold MemoryStorage_SaveSnapshot, bind, get, modify, reads.
  change (d_snapshot (mem_disk m)) with (ms_snapshot m) in Hlt.
  rewrite (proj2 (N.leb_gt _ _)) by lia. rewrite (mem_last m H).
  destruct (N.leb_spec (snap_LastIncludedIndex snap) (d_last (mem_disk m))); [|by eexists].
  destruct (mem_at m (snap_LastIncludedIndex snap) H) as (e & He & _);
    [destruct H as (_ & _ & _ & Hbs); cbn in *; lia|done|].
  change (MemoryStorage_at (snap_LastIncludedIndex snap) (set_ms_snapshot snap m))
    with (MemoryStorage_at (snap_LastIncludedIndex snap) m). rewrite He. cbn.
  by destruct (_ =? _)%N; eexists.
Qed.

Lemma mem_compact_accepts m upto :
  mem_ok m → (upto ≤ d_base (mem_disk m) ∨ upto ≤ d_last (mem_disk m))%N →
  ∃ m', MemoryStorage_Compact upto m = (Ret tt, m').
Proof.
  intros H Hle. unfold MemoryStorage_Compact, bind, get. rewrite (mem_last m H).
  change (d_base (mem_disk m)) with (MemoryStorage_offset m) in Hle.
  destruct (N.leb_spec upto (MemoryStorage_offset m)); [by eexists|].
  rewrite (proj2 (N.ltb_ge _ _)) by lia.
  destruct (mem_at m upto H) as (e & He & _); [cbn; lia|lia|].
  unfold MemoryStorage_at in He.
  destruct (ms_ents m !! N.to_nat (upto -u MemoryStorage_offset m)) as [x|] eqn:E; [|done].
  rewrite (drop_S _ _ _ E). by eexists.
Qed.

#[export] Program Instance MemoryStorage_LogLaws : LogLaws MemoryStorage := {
  disk := mem_disk;
  storage_ok := mem_ok
}.
Next Obligation. by intros s [_ H]. Qed.
Next Obligation. apply mem_first. Qed.
Next Obligation. apply mem_last. Qed.
Next Obligation. intros s i H _. by apply mem_term. Qed.
Next Obligation. apply mem_entry. Qed.
Next Obligation. apply mem_entries. Qed.
Next Obligation. apply mem_entries_out. Qed.
Next Obligation. intros s lo hi _ Hle. cbn. unfold MemoryStorage_Entries. by rewrite (proj2 (N.leb_le _ _)). Qed.
Next Obligation. done. Qed.
Next Obligation. intros s _. by eexists. Qed.
Next Obligation.
  intros s hs H. cbn. unfold MemoryStorage_SetHardState. wp_go.
  case_match; by wp_go.
Qed.
Next Obligation. apply mem_append. Qed.
Next Obligation. intros s snap Hs Hb _. by apply mem_save. Qed.
Next Obligation. apply mem_compact. Qed.

#[export] Program Instance MemoryStorage_HardStateLaws : HardStateLaws MemoryStorage := {
  hard := ms_hardState;
  hard_consistent := λ _, True
}.
Next Obligation. by intros s hs snap _ [= <- _]. Qed.
Next Obligation.
  intros hs s _. cbn. unfold MemoryStorage_SetHardState. wp_go.
  destruct (N.ltb_spec (hs_Term hs) (hs_Term (ms_hardState s))); wp_go; auto.
Qed.
Next Obligation.
  intros ents s _. cbn. unfold MemoryStorage_AppendEntries.
  destruct ents as [|e ents]; [done|]. wp_go.
  destruct (checkContiguous_total (e :: ents)) as [->|[msg ->]]; [|done].
  wp_go. repeat (case_match; wp_go; try done).
Qed.
Next Obligation.
  intros snap s _. cbn. unfold MemoryStorage_SaveSnapshot. wp_go.
  case_match; wp_go; [done|]. case_match; wp_go; [|done].
  unfold MemoryStorage_at. destruct (_ !! _); wp_go; [|done]. case_match; by wp_go.
Qed.
Next Obligation.
  intros upto s _. cbn. unfold MemoryStorage_Compact. wp_go.
  repeat (case_match; wp_go; try done).
Qed.
