(* ===== verification/RaftLog.v ===== *)
(** * The replicated log

    raft/log.go: [raftLog] layers the volatile commit and apply indexes over a
    [Storage].  Every method is here, over an arbitrary implementation of the
    interface; the proofs use [LogLaws] only.  The theorems: the invariant
    [log_ok] (snapshot boundary <= applied <= committed <= last) is kept by every
    method and none of them panics; [maybeAppend] makes the log agree with the
    leader's entries without touching the committed prefix and without losing
    entries it already had; commit and apply indexes never move back;
    [isUpToDate] is the lexicographic order on (term, index); the conflict hint is
    the start of the conflicting term. *)

From S2P Require Import Prelude Varint Types Config Storage.

Record raftLog (S : Type) := mkRaftLog {
  l_storage : S;
  l_committed : Index;
  l_applied : Index
}.
Arguments mkRaftLog {S} _ _ _.
Arguments l_storage {S} _.
Arguments l_committed {S} _.
Arguments l_applied {S} _.

Section raftlog.
Context {S : Type} `{Storage S}.
Implicit Types (l : raftLog S).

Definition set_l_storage (s : S) l : raftLog S := mkRaftLog s (l_committed l) (l_applied l).
Definition set_l_committed i l : raftLog S := mkRaftLog (l_storage l) i (l_applied l).
Definition set_l_applied i l : raftLog S := mkRaftLog (l_storage l) (l_committed l) i.

(** A call on the storage handle. *)
Definition on_storage {A} (m : M S A) : M (raftLog S) A :=
  zoom l_storage set_l_storage m.

Definition newRaftLog (storage : S) : outcome (raftLog S) :=
  match InitialState storage with
  | Fail e => Fail (Errorf "raft: reading initial state" [e])
  | Panic p => Panic p
  | OutOfFuel => OutOfFuel
  | Ret (hs, snap) =>
      let c := snap_LastIncludedIndex snap in
      let committed :=
        if (c <? hs_Commit hs)%N then N.min (hs_Commit hs) (LastIndex storage) else c in
      Ret (mkRaftLog storage committed c)
  end.

(** ** Bounds *)

Definition firstIndex l : Index := FirstIndex (l_storage l).
Definition lastIndex l : Index := LastIndex (l_storage l).

(** [raftLog.term]: index 0 is the position before the first entry. *)
Definition term_at (i : Index) l : outcome Term :=
  if (i =? 0)%N then Ret 0%N else StorageTerm i (l_storage l).

Definition lastTerm l : outcome Term :=
  match term_at (lastIndex l) l with
  | Fail _ => Panic "raft: term of last index unavailable"
  | r => r
  end.

(** A missing or compacted entry is "no match", not an error. *)
Definition matchTerm (i : Index) (t : Term) l : outcome bool :=
  match term_at i l with
  | Fail _ => Ret false
  | Ret lt => Ret (lt =? t)%N
  | Panic p => Panic p
  | OutOfFuel => OutOfFuel
  end.

(** [raftLog.entries]: the entries in [lo, hi). *)
Definition log_entries_range (lo hi : Index) l : outcome (list LogEntry) :=
  if (hi <=? lo)%N then Ret []
  else if (lastIndex l +u 1 <? hi)%N
  then Fail (Errorf "raft: entries past last index" [ErrUnavailable])
  else Entries lo hi (l_storage l).

(** ** The election restriction *)

Definition isUpToDate (lastIdx : Index) (lastTrm : Term) l : outcome bool :=
  let? myTerm := lastTerm l in
  if negb (lastTrm =? myTerm)%N then Ret (myTerm <? lastTrm)%N
  else Ret (lastIndex l <=? lastIdx)%N.

(** ** Appending *)

(** [raftLog.append] *)
Definition log_append_entries (ents : list LogEntry) : M (raftLog S) unit :=
  match ents with
  | [] => ret tt
  | e :: _ =>
      l <- get ;;
      if (e_Index e <=? l_committed l)%N
      then fail (Errorf "raft: append would overwrite committed index" [])
      else on_storage (AppendEntries ents)
  end.

(** The first entry this log does not hold with the same term, or 0. *)
Fixpoint findConflict (ents : list LogEntry) l : outcome Index :=
  match ents with
  | [] => Ret 0%N
  | e :: ents' =>
      let? ok := matchTerm (e_Index e) (e_Term e) l in
      if (ok : bool) then findConflict ents' l else Ret (e_Index e)
  end.

(** ** Commit and apply *)

Definition commitTo (i : Index) : M (raftLog S) unit :=
  l <- get ;;
  if (i <=? l_committed l)%N then ret tt
  else if (lastIndex l <? i)%N then panic "raft: commit beyond last index"
  else modify (set_l_committed i).

Definition appliedTo (i : Index) : M (raftLog S) unit :=
  l <- get ;;
  if (i =? 0)%N || (i <=? l_applied l)%N then ret tt
  else if (l_committed l <? i)%N then panic "raft: applied beyond committed"
  else modify (set_l_applied i).

(** The receiving half of AppendEntries. *)
Definition maybeAppend (prevIdx : Index) (prevTerm : Term) (leaderCommit : Index)
    (ents : list LogEntry) : M (raftLog S) (Index * bool) :=
  ok <- reads (matchTerm prevIdx prevTerm) ;;
  if negb ok then ret (0%N, false)
  else
    let lastNewIndex := prevIdx +u N.of_nat (length ents) in
    l <- get ;;
    conflict <- reads (findConflict ents) ;;
    (if (conflict =? 0)%N then ret tt
     else if (conflict <=? l_committed l)%N
     then fail (Errorf "raft: leader entry conflicts with committed index"
                  [ErrSafetyViolation])
     else
       let offset := conflict -u prevIdx -u 1 in
       if (N.of_nat (length ents) <? offset)%N then panic "slice bounds out of range"
       else log_append_entries (drop (N.to_nat offset) ents)) ;;;
    commitTo (N.min leaderCommit lastNewIndex) ;;;
    ret (lastNewIndex, true).

(** [for idx > l.firstIndex() { ... idx-- }], at most [idx] rounds. *)
Fixpoint conflictHint_loop (fuel : nat) (idx : Index) (t : Term) l : outcome Index :=
  match fuel with
  | O => Ret idx
  | Datatypes.S k =>
      if (idx <=? firstIndex l)%N then Ret idx
      else
        match term_at (idx -u 1) l with
        | Fail _ => Ret idx
        | Ret t' => if negb (t' =? t)%N then Ret idx
                    else conflictHint_loop k (idx -u 1) t l
        | Panic p => Panic p
        | OutOfFuel => OutOfFuel
        end
  end.

Definition conflictHint (prevIdx : Index) l : outcome (Index * Term) :=
  let last_ := lastIndex l in
  if (last_ <? prevIdx)%N then Ret (last_ +u 1, 0%N)
  else
    match term_at prevIdx l with
    | Fail _ => Ret (firstIndex l, 0%N)
    | Ret t =>
        let? idx := conflictHint_loop (N.to_nat (prevIdx - firstIndex l)) prevIdx t l in
        Ret (idx, t)
    | Panic p => Panic p
    | OutOfFuel => OutOfFuel
    end.

Definition hasEntriesToApply l : bool := (l_applied l <? l_committed l)%N.

(** Go's conversion of an [int] to [uint64]. *)
Definition index_of_int (z : Z) : Index := Z.to_N (z mod 18446744073709551616).

Definition entriesToApply (maxEntries : Z) l : outcome (list LogEntry) :=
  if negb (hasEntriesToApply l) then Ret []
  else
    let lo := N.max (l_applied l +u 1) (firstIndex l) in
    let hi := l_committed l +u 1 in
    let hi :=
      if (0 <? maxEntries)%Z && (index_of_int maxEntries <? hi -u lo)%N
      then lo +u index_of_int maxEntries else hi in
    log_entries_range lo hi l.

(** ** Snapshots *)

Definition log_restore (snap : Snapshot) : M (raftLog S) unit :=
  l <- get ;;
  if (snap_LastIncludedIndex snap <=? l_committed l)%N then fail ErrSnapshotOutOfDate
  else
    on_storage (SaveSnapshot snap) ;;;
    modify (set_l_committed (snap_LastIncludedIndex snap)) ;;;
    modify (set_l_applied (snap_LastIncludedIndex snap)).

Definition log_compact_to (upto : Index) : M (raftLog S) unit :=
  l <- get ;;
  if (l_applied l <? upto)%N
  then fail (Errorf "raft: cannot compact past applied index" [])
  else on_storage (Compact upto).
End raftlog.

(** ** The invariant *)

Section raftlog_facts.
Context {S : Type} `{Hst : Storage S} `{HL : !LogLaws S}.
Implicit Types (l : raftLog S) (d : Disk).

Definition log_disk l : Disk := disk (l_storage l).

(** The snapshot boundary, the applied index, the commit index and the end of the
    log, in this order. *)
Definition log_ok l : Prop :=
  storage_ok (l_storage l) ∧
  (snap_LastIncludedIndex (d_snapshot (log_disk l)) ≤ l_applied l)%N ∧
  (l_applied l ≤ l_committed l)%N ∧
  (l_committed l ≤ d_last (log_disk l))%N.

(** The term the log answers for at an index, if it can. *)
Definition log_term_of l (i : Index) : option Term :=
  if (i =? 0)%N then Some 0%N else disk_term (log_disk l) i.

(** Nothing a later operation may take back: the commit and apply indexes only
    grow, and entries at committed positions stay (or are compacted away). *)
Definition log_extends l l' : Prop :=
  (l_committed l ≤ l_committed l')%N ∧ (l_applied l ≤ l_applied l')%N ∧
  (d_base (log_disk l) ≤ d_base (log_disk l'))%N ∧
  (∀ i, (d_base (log_disk l') < i)%N → (i ≤ l_committed l)%N →
     disk_entry (log_disk l') i = disk_entry (log_disk l) i).

Lemma log_ok_disk l : log_ok l → disk_ok (log_disk l).
Proof. intros [H _]. by apply storage_disk_ok. Qed.

Lemma log_ok_base l : log_ok l → (d_base (log_disk l) ≤ l_applied l)%N.
Proof. intros Hok. pose proof (log_ok_disk l Hok) as (_ & _ & ?). destruct Hok. lia. Qed.

Lemma lastIndex_spec l : log_ok l → lastIndex l = d_last (log_disk l).
Proof. intros [H _]. by apply log_last. Qed.

Lemma firstIndex_spec l : log_ok l → firstIndex l = (d_base (log_disk l) + 1)%N.
Proof. intros [H _]. by apply log_first. Qed.

Lemma log_extends_refl l : log_extends l l.
Proof. by repeat split. Qed.

Lemma log_extends_trans l1 l2 l3 : log_extends l1 l2 → log_extends l2 l3 → log_extends l1 l3.
Proof.
  intros (?&?&?&E1) (?&?&?&E2). repeat split; [lia..|].
  intros i Hb Hi. rewrite E2, E1 by lia. done.
Qed.

Lemma term_at_spec l i :
  log_ok l →
  match term_at i l with
  | Ret t => log_term_of l i = Some t
  | Fail _ => log_term_of l i = None
  | _ => False
  end.
Proof.
  intros [H _]. unfold term_at, log_term_of. destruct (N.eqb_spec i 0); [done|].
  pose proof (log_term (l_storage l) i H) as HT.
  destruct (StorageTerm i (l_storage l)); try (by apply HT); by destruct HT.
Qed.

Lemma matchTerm_spec l i t :
  log_ok l → matchTerm i t l = Ret (bool_decide (log_term_of l i = Some t)).
Proof.
  intros H. unfold matchTerm. pose proof (term_at_spec l i H) as HT.
  destruct (term_at i l) as [t'| | |]; [|by rewrite HT|done..].
  rewrite HT. f_equal. destruct (N.eqb_spec t' t) as [->|]; [by rewrite bool_decide_true|].
  rewrite bool_decide_false by congruence. done.
Qed.

Lemma disk_term_is_Some d i :
  is_Some (disk_term d i) ↔ (d_base d ≤ i)%N ∧ (i ≤ d_last d)%N.
Proof.
  unfold disk_term, disk_entry, d_last. destruct (N.eqb_spec i (d_base d)) as [->|].
  { split; [intros; lia|]. eauto. }
  rewrite fmap_is_Some. destruct (N.leb_spec i (d_base d)).
  { split; [by intros []|lia]. }
  rewrite lookup_lt_is_Some. lia.
Qed.

Lemma log_term_of_is_Some l i :
  is_Some (log_term_of l i) ↔ i = 0%N ∨ (d_base (log_disk l) ≤ i ≤ d_last (log_disk l))%N.
Proof.
  unfold log_term_of. destruct (N.eqb_spec i 0); [split; [by left|by eexists]|].
  rewrite disk_term_is_Some. intuition.
Qed.

Lemma log_term_of_entry l i e :
  log_ok l → disk_entry (log_disk l) i = Some e → log_term_of l i = Some (e_Term e).
Proof.
  intros Hok He. unfold log_term_of, disk_term. unfold disk_entry in *.
  destruct (N.leb_spec i (d_base (log_disk l))); [done|].
  destruct (N.eqb_spec i 0); [lia|]. destruct (N.eqb_spec i (d_base (log_disk l))); [lia|].
  by rewrite He.
Qed.

Lemma lastTerm_spec l :
  log_ok l → ∃ t, lastTerm l = Ret t ∧ log_term_of l (d_last (log_disk l)) = Some t.
Proof.
  intros H. unfold lastTerm. rewrite (lastIndex_spec l H).
  pose proof (term_at_spec l (d_last (log_disk l)) H) as HT.
  destruct (term_at _ l) as [t| | |]; [by eauto| |done..].
  assert (is_Some (log_term_of l (d_last (log_disk l)))) as [? ?]; [|congruence].
  apply log_term_of_is_Some. right. unfold d_last. lia.
Qed.

(** ** Writing *)

Lemma disk_write_entry d f ents i :
  (d_base d < f)%N → (f ≤ d_last d + 1)%N →
  disk_entry (disk_write f ents d) i =
    if (i <? f)%N then disk_entry d i else ents !! N.to_nat (i - f).
Proof.
  intros Hlo Hhi. unfold disk_entry, disk_write, d_last in *. cbn.
  assert (length (take (N.to_nat (f - d_base d - 1)) (d_entries d))
          = N.to_nat (f - d_base d - 1)) as HLen by (rewrite length_take; lia).
  destruct (N.leb_spec i (d_base d)); destruct (N.ltb_spec i f); [done|lia|..].
  - rewrite lookup_app_l by lia. rewrite lookup_take. by rewrite decide_True by lia.
  - rewrite lookup_app_r by lia. f_equal. lia.
Qed.

Lemma log_append_spec l e ents :
  log_ok l → (e_Index e + N.of_nat (length (e :: ents)) < W64)%N →
  wp (log_append_entries (e :: ents))
     (λ _ l', log_ok l' ∧ log_extends l l' ∧
        log_disk l' = disk_write (e_Index e) (e :: ents) (log_disk l) ∧
        (l_committed l < e_Index e)%N ∧ (e_Index e ≤ d_last (log_disk l) + 1)%N ∧
        contiguous_from (e_Index e) (e :: ents) ∧
        l_committed l' = l_committed l ∧ l_applied l' = l_applied l)
     (λ _ l', log_ok l' ∧ log_disk l' = log_disk l ∧
        l_committed l' = l_committed l ∧ l_applied l' = l_applied l) (λ _, False) l.
Proof.
  intros Hok Hb. unfold log_append_entries. wp_go.
  pose proof (log_ok_base l Hok) as HB. pose proof Hok as (Hs & Ha & Hc & Hl).
  destruct (N.leb_spec (e_Index e) (l_committed l)); [by wp_go|].
  unfold on_storage. wp_go.
  eapply wp_mono; [apply (log_append (l_storage l) e ents Hs); fold (log_disk l); lia|..]; cbn.
  - fold (log_disk l). intros _ s' (Hs' & Hd & Hhi & Hcont & _).
    destruct (disk_write_ok (log_disk l) e ents) as [_ HD];
      [by apply log_ok_disk|lia|done|done|done|].
    unfold log_ok, log_extends, log_disk in *. cbn. rewrite Hd. cbn [d_base d_snapshot disk_write].
    split_and!; try done; [cbn; lia|].
    intros i Hi Hi'. rewrite disk_write_entry by lia. by rewrite (proj2 (N.ltb_lt _ _)) by lia.
  - intros _ s' [Hs' Hd]. unfold log_ok, log_disk in *. cbn. by rewrite Hd.
  - done.
Qed.

Lemma commitTo_spec l i :
  log_ok l → (i ≤ d_last (log_disk l))%N →
  wp (commitTo i)
     (λ _ l', l' = set_l_committed (N.max (l_committed l) i) l ∧ log_ok l' ∧ log_extends l l')
     (λ _ _, False) (λ _, False) l.
Proof.
  intros Hok Hi. pose proof Hok as (Hs & Ha & Hc & Hl). unfold commitTo. wp_go.
  destruct (N.leb_spec i (l_committed l)); [wp_go|].
  - rewrite N.max_l by done. destruct l; cbn in *. by split_and!.
  - rewrite (lastIndex_spec l Hok), (proj2 (N.ltb_ge _ _)) by lia. wp_go.
    rewrite N.max_r by lia. split; [done|].
    unfold log_ok, log_extends, log_disk in *. cbn. split_and!; try done; lia.
Qed.

Lemma appliedTo_spec l i :
  log_ok l → (i ≤ l_committed l)%N →
  wp (appliedTo i)
     (λ _ l', l' = set_l_applied (N.max (l_applied l) i) l ∧ log_ok l' ∧ log_extends l l')
     (λ _ _, False) (λ _, False) l.
Proof.
  intros Hok Hi. pose proof Hok as (Hs & Ha & Hc & Hl). unfold appliedTo. wp_go.
  destruct ((i =? 0) || (i <=? l_applied l))%N eqn:E; [wp_go|].
  - assert (i ≤ l_applied l)%N.
    { apply orb_true_iff in E as [E%N.eqb_eq|E%N.leb_le]; lia. }
    rewrite N.max_l by done. destruct l; cbn in *. by split_and!.
  - apply orb_false_iff in E as [_ E%N.leb_gt].
    rewrite (proj2 (N.ltb_ge _ _)) by lia. wp_go.
    rewrite N.max_r by lia. split; [done|].
    unfold log_ok, log_extends, log_disk in *. cbn. split_and!; try done; lia.
Qed.

(** ** The receiving half of AppendEntries *)

(** Every entry of [ents] is in the log, with its term. *)
Definition holds_all l (ents : list LogEntry) : Prop :=
  Forall (λ e, log_term_of l (e_Index e) = Some (e_Term e)) ents.

(** The first [k] of [ents] are in the log, the next one is not. *)
Definition conflict_at l (k : nat) (ents : list LogEntry) : Prop :=
  holds_all l (take k ents) ∧
  ∀ e, ents !! k = Some e → log_term_of l (e_Index e) ≠ Some (e_Term e).

Lemma findConflict_spec l f ents :
  log_ok l → (0 < f)%N → contiguous_from f ents →
  (findConflict ents l = Ret 0%N ∧ holds_all l ents) ∨
  (∃ k, (k < length ents)%nat ∧ findConflict ents l = Ret (f + N.of_nat k)%N ∧
        conflict_at l k ents).
Proof.
  intros Hok. revert f. induction ents as [|e ents IH]; intros f Hf Hc.
  { left. split; [done|constructor]. }
  cbn. rewrite (matchTerm_spec l _ _ Hok). cbn.
  pose proof (Hc 0%nat e eq_refl) as Hi. rewrite N.add_0_r in Hi.
  case_bool_decide as HT.
  - destruct (IH (f + 1)%N) as [[E Hall]|(k & Hk & E & Hall & Hno)]; [lia| |left|right].
    + intros k x Hx. rewrite (Hc (Datatypes.S k) x Hx). lia.
    + split; [done|]. by constructor.
    + exists (Datatypes.S k). split_and!; [lia|rewrite E; f_equal; lia|split; [by constructor|done]].
  - right. exists 0%nat. split_and!; [lia|by rewrite Hi; f_equal; lia|split; [constructor|by intros ? [= <-]]].
Qed.

(** What an accepted append leaves behind: the entries sent are all in the log,
    the commit index took the leader's as far as they reach, and the log either
    was not written at all or was overwritten with the tail of the entries, from the
    first one it did not hold, which was not committed. *)
Definition appended l prevIdx leaderCommit ents l' : Prop :=
  holds_all l' ents ∧
  l_committed l' = N.max (l_committed l)
                     (N.min leaderCommit (prevIdx + N.of_nat (length ents))) ∧
  l_applied l' = l_applied l ∧
  (log_disk l' = log_disk l ∨
   ∃ k, (k < length ents)%nat ∧ (l_committed l < prevIdx + 1 + N.of_nat k)%N ∧
        conflict_at l k ents ∧
        log_disk l' = disk_write (prevIdx + 1 + N.of_nat k) (drop k ents) (log_disk l)).

Lemma log_disk_committed i l : log_disk (set_l_committed i l) = log_disk l.
Proof. done. Qed.

Lemma log_term_of_disk l l' i : log_disk l' = log_disk l → log_term_of l' i = log_term_of l i.
Proof. intros E. unfold log_term_of. by rewrite E. Qed.

Lemma holds_all_disk l l' ents :
  log_disk l' = log_disk l → holds_all l ents → holds_all l' ents.
Proof.
  intros E H. eapply Forall_impl; [exact H|]. cbn. intros e He. by rewrite (log_term_of_disk l l' _ E).
Qed.

Lemma holds_all_last l prevIdx ents :
  log_ok l → is_Some (log_term_of l prevIdx) ∨ ents ≠ [] →
  contiguous_from (prevIdx + 1) ents → holds_all l ents →
  (prevIdx + N.of_nat (length ents) ≤ d_last (log_disk l))%N.
Proof.
  intros Hok Hp Hc Hall. destruct (decide (ents = [])) as [->|Hne].
  - destruct Hp as [Hp%log_term_of_is_Some|]; [|done]. cbn. unfold d_last in *. lia.
  - destruct (last_is_Some ents) as [_ HS]. destruct (HS Hne) as [e He].
    rewrite last_lookup in He.
    assert (is_Some (log_term_of l (e_Index e))) as HT%log_term_of_is_Some.
    { eexists. eapply (Forall_lookup_1 _ _ _ _ Hall He). }
    rewrite (Hc _ _ He) in HT. destruct ents; [done|]. cbn in *. lia.
Qed.

(** Writing the tail of [ents] from its first unknown entry leaves all of them in
    the log. *)
Lemma holds_all_write l l' prevIdx k ents :
  log_ok l' → contiguous_from (prevIdx + 1) ents → (k < length ents)%nat →
  (d_base (log_disk l) < prevIdx + 1 + N.of_nat k)%N →
  (prevIdx + 1 + N.of_nat k ≤ d_last (log_disk l) + 1)%N →
  holds_all l (take k ents) →
  log_disk l' = disk_write (prevIdx + 1 + N.of_nat k) (drop k ents) (log_disk l) →
  holds_all l' ents.
Proof.
  intros Hok' Hc Hk Hlo Hhi Hall Hd. apply Forall_lookup_2. intros j e He.
  pose proof (Hc _ _ He) as Hi. destruct (decide (j < k)%nat) as [Hj|Hj].
  - assert (log_term_of l (e_Index e) = Some (e_Term e)) as HT.
    { eapply (Forall_lookup_1 _ _ _ _ Hall). rewrite lookup_take_lt by done. exact He. }
    rewrite <- HT. unfold log_term_of, disk_term. rewrite Hd.
    rewrite (disk_write_entry _ _ _ _ Hlo Hhi). by rewrite (proj2 (N.ltb_lt _ _)) by lia.
  - apply log_term_of_entry; [done|]. rewrite Hd, (disk_write_entry _ _ _ _ Hlo Hhi).
    rewrite (proj2 (N.ltb_ge _ _)) by lia. rewrite lookup_drop, <- He. f_equal. lia.
Qed.

(** The unchanged log, as a failed call leaves it. *)
Definition log_same l l' : Prop :=
  log_disk l' = log_disk l ∧ l_committed l' = l_committed l ∧ l_applied l' = l_applied l.

Lemma log_same_extends l l' : log_same l l' → log_extends l l'.
Proof.
  intros (Ed & Ec & Ea). unfold log_extends. rewrite Ed, Ec, Ea. by repeat split.
Qed.

Lemma u64_offset p k :
  (p + 1 + k < W64)%N → (p + 1 + k) -u p -u 1 = k.
Proof. intros ?. rewrite !u64_sub_small by (rewrite ?u64_sub_small; lia). lia. Qed.

(** The write of the unmatched tail, as [maybeAppend] performs it. *)
Lemma append_tail_wp l prevIdx k ents :
  log_ok l → contiguous_from (prevIdx + 1) ents → (k < length ents)%nat →
  (prevIdx + N.of_nat (length ents) + 1 < W64)%N →
  (l_committed l < prevIdx + 1 + N.of_nat k)%N → holds_all l (take k ents) →
  wp (log_append_entries (drop k ents))
     (λ _ l', log_ok l' ∧ log_extends l l' ∧ holds_all l' ents ∧
        l_committed l' = l_committed l ∧ l_applied l' = l_applied l ∧
        log_disk l' = disk_write (prevIdx + 1 + N.of_nat k) (drop k ents) (log_disk l))
     (λ _ l', log_ok l' ∧ log_same l l') (λ _, False) l.
Proof.
  intros Hok Hc Hk Hb Hcom Hall. pose proof (log_ok_base l Hok) as HB.
  destruct (lookup_lt_is_Some_2 ents k Hk) as [e He]. pose proof (Hc _ _ He) as Hi.
  assert (length (drop k ents) = length ents - k)%nat as HLen by apply length_drop.
  rewrite (drop_S _ _ _ He) in HLen |- *. pose proof Hok as (_ & _ & HC & _).
  eapply wp_mono; [apply (log_append_spec l e); [done|rewrite HLen; lia]|..]; cbn beta.
  - intros _ l' (Hok' & Hext & Hd & _ & Hhi & _ & Ec & Ea). rewrite Hi in Hd, Hhi.
    split_and!; try done. eapply (holds_all_write l l' prevIdx k); try done; [lia|].
    by rewrite Hd, (drop_S _ _ _ He).
  - intros _ l' (Hok' & Hsame). done.
  - done.
Qed.

Lemma maybeAppend_wp l prevIdx prevTerm leaderCommit ents :
  log_ok l → contiguous_from (prevIdx + 1) ents →
  (prevIdx + N.of_nat (length ents) + 1 < W64)%N →
  wp (maybeAppend prevIdx prevTerm leaderCommit ents)
     (λ res l', log_ok l' ∧ log_extends l l' ∧
        if snd res
        then fst res = (prevIdx + N.of_nat (length ents))%N ∧
             log_term_of l prevIdx = Some prevTerm ∧ appended l prevIdx leaderCommit ents l'
        else l' = l ∧ log_term_of l prevIdx ≠ Some prevTerm)
     (λ _ l', log_ok l' ∧ log_same l l') (λ _, False) l.
Proof.
  intros Hok Hc Hb. unfold maybeAppend. wp_go. rewrite (matchTerm_spec l _ _ Hok).
  case_bool_decide as HP; cbn; [|by wp_go]. wp_go. rewrite u64_add_small by lia.
  assert (∀ l', log_ok l' → is_Some (log_term_of l' prevIdx) ∨ ents ≠ [] → holds_all l' ents →
    wp (commitTo (N.min leaderCommit (prevIdx + N.of_nat (length ents))))
       (λ _ l'', l'' = set_l_committed (N.max (l_committed l')
                    (N.min leaderCommit (prevIdx + N.of_nat (length ents)))) l' ∧
                 log_ok l'' ∧ log_extends l' l'')
       (λ _ l'', log_ok l'' ∧ log_same l l'') (λ _, False) l') as Hcommit.
  { intros l' Hok' Hp' Hall'. pose proof (holds_all_last l' prevIdx ents Hok' Hp' Hc Hall').
    eapply wp_mono; [apply (commitTo_spec l'); [done|lia]|..]; naive_solver. }
  destruct (findConflict_spec l (prevIdx + 1) ents) as [[E Hall]|(k & Hk & E & Hall)];
    [done|lia|done|..]; rewrite E; cbn.
  - wp_go. eapply wp_mono; [by apply Hcommit; eauto|..]; [|done..]. cbn.
    intros _ l' (-> & Hok' & Hext). wp_go. cbn [fst snd].
    split_and!; try done. by split_and!; [eapply holds_all_disk|..|left].
  - rewrite (proj2 (N.eqb_neq _ _)) by lia.
    destruct (N.leb_spec (prevIdx + 1 + N.of_nat k) (l_committed l)); [by wp_go|].
    rewrite u64_offset, (proj2 (N.ltb_ge _ _)), Nat2N.id by lia. wp_go.
    eapply wp_mono; [by apply (append_tail_wp l prevIdx k); try apply Hall|..]; [|done..]. cbn.
    intros _ l' (Hok' & Hext & Hall' & Ec & Ea & Hd). wp_go.
    assert (ents ≠ []) by (by intros ->; cbn in Hk; lia).
    eapply wp_mono; [by apply Hcommit; eauto|..]; [|done..]. cbn.
    intros _ l'' (-> & Hok'' & Hext''). wp_go. cbn [fst snd].
    split_and!; try done; [by eapply log_extends_trans|].
    split_and!; [by eapply holds_all_disk|by cbn; rewrite Ec|done|right; exists k; by split_and!].
Qed.

(** ** Snapshots and recovery *)

Lemma log_restore_wp l snap :
  log_ok l → (snap_LastIncludedIndex snap + 1 < W64)%N → conf_normal (snap_Config snap) →
  wp (log_restore snap)
     (λ _ l', log_ok l' ∧ log_extends l l' ∧
        (l_committed l < snap_LastIncludedIndex snap)%N ∧
        log_disk l' = disk_snapshot snap (log_disk l) ∧
        l_committed l' = snap_LastIncludedIndex snap ∧
        l_applied l' = snap_LastIncludedIndex snap)
     (λ _ l', log_ok l' ∧ log_same l l') (λ _, False) l.
Proof.
  intros Hok Hb Hn. pose proof Hok as (Hs & Ha & Hc & Hl). pose proof (log_ok_base l Hok) as HB.
  unfold log_restore. wp_go.
  destruct (N.leb_spec (snap_LastIncludedIndex snap) (l_committed l)); [by wp_go|].
  wp_go. unfold on_storage. wp_go.
  eapply wp_mono; [by apply log_snapshot|..]; cbn; [| |done].
  - intros _ s' (Hs' & Hd & _). wp_go. unfold log_ok, log_extends, log_disk in *. cbn.
    rewrite Hd. unfold disk_snapshot. case_match eqn:E; cbn.
    + apply andb_true_iff in E as [E%N.leb_le _]. unfold d_last in *.
      split_and!; try done; cbn; lia.
    + unfold d_last. split_and!; try done; cbn; lia.
  - intros _ s' [Hs' Hd]. unfold log_ok, log_same, log_disk in *. cbn. by rewrite Hd.
Qed.

Lemma disk_compact_entry d upto i :
  (upto < i)%N → disk_entry (disk_compact upto d) i = disk_entry d i.
Proof.
  intros Hi. unfold disk_compact. destruct (N.leb_spec upto (d_base d)); [done|].
  unfold disk_entry. cbn. rewrite !(proj2 (N.leb_gt _ _)) by lia.
  rewrite lookup_drop. f_equal. lia.
Qed.

Lemma disk_compact_last d upto :
  (upto ≤ d_base d ∨ upto ≤ d_last d)%N → d_last (disk_compact upto d) = d_last d.
Proof.
  unfold disk_compact, d_last. intros Hu. destruct (N.leb_spec upto (d_base d)); [done|].
  cbn. rewrite length_drop. lia.
Qed.

Lemma log_compact_wp l upto :
  log_ok l → (upto ≤ snap_LastIncludedIndex (d_snapshot (log_disk l)))%N →
  wp (log_compact_to upto)
     (λ _ l', log_ok l' ∧ log_extends l l' ∧ l_committed l' = l_committed l ∧
        log_disk l' = disk_compact upto (log_disk l))
     (λ _ l', log_ok l' ∧ log_same l l') (λ _, False) l.
Proof.
  intros Hok Hu. pose proof Hok as (Hs & Ha & Hc & Hl). unfold log_compact_to. wp_go.
  destruct (N.ltb_spec (l_applied l) upto); [by wp_go|]. unfold on_storage. wp_go.
  eapply wp_mono; [by apply log_compact|..]; cbn; [| |done].
  - intros _ s' (Hs' & Hd & Hle). unfold log_ok, log_extends, log_disk in *. cbn. rewrite Hd.
    rewrite (disk_compact_last _ _ Hle). fold (log_disk l) in *.
    assert (d_snapshot (disk_compact upto (log_disk l)) = d_snapshot (log_disk l) ∧
            d_base (disk_compact upto (log_disk l)) = N.max upto (d_base (log_disk l))) as [-> ->].
    { unfold disk_compact. destruct (N.leb_spec upto (d_base (log_disk l))); cbn; split; lia || done. }
    unfold log_disk in *.
    split_and!; try done; [lia|]. intros i Hi _. apply disk_compact_entry. lia.
  - intros _ s' [Hs' Hd]. unfold log_ok, log_same, log_disk in *. cbn. by rewrite Hd.
Qed.

(** A snapshot of the applied prefix, taken locally, leaves the log as it is. *)
Lemma log_save_wp l snap :
  log_ok l → snap_LastIncludedIndex snap = l_applied l →
  disk_term (log_disk l) (l_applied l) = Some (snap_LastIncludedTerm snap) →
  conf_normal (snap_Config snap) →
  wp (on_storage (SaveSnapshot snap))
     (λ _ l', log_ok l' ∧ log_extends l l' ∧ l_committed l' = l_committed l ∧
        l_applied l' = l_applied l ∧
        log_disk l' = mkDisk snap (d_base (log_disk l)) (d_baseTerm (log_disk l))
                        (d_entries (log_disk l)))
     (λ _ l', log_ok l' ∧ log_same l l') (λ _, False) l.
Proof.
  intros Hok Hi Ht Hn. pose proof Hok as (Hs & Ha & Hc & Hl).
  pose proof (log_ok_disk l Hok) as (_ & HW & _). unfold on_storage. wp_go.
  eapply wp_mono; [apply log_snapshot; [done|lia|done]|..]; cbn; [| |done].
  - intros _ s' (Hs' & Hd & _). unfold log_ok, log_extends, log_disk in *. cbn.
    assert (disk s' = mkDisk snap (d_base (disk (l_storage l))) (d_baseTerm (disk (l_storage l)))
                        (d_entries (disk (l_storage l)))) as Hd'.
    { rewrite Hd. unfold disk_snapshot. rewrite Hi, Ht, (proj2 (N.leb_le _ _)) by lia.
      by rewrite bool_decide_true. }
    rewrite Hd'. unfold d_last in *. cbn. split_and!; try done; lia.
  - intros _ s' [Hs' Hd]. unfold log_ok, log_same, log_disk in *. cbn. by rewrite Hd.
Qed.

Lemma newRaftLog_wp s :
  storage_ok s → (snap_LastIncludedIndex (d_snapshot (disk s)) ≤ d_last (disk s))%N →
  ∃ l, newRaftLog s = Ret l ∧ log_ok l ∧ l_storage l = s ∧
       l_applied l = snap_LastIncludedIndex (d_snapshot (disk s)).
Proof.
  intros Hs Hle. unfold newRaftLog. destruct (log_initial s Hs) as [hs ->].
  rewrite (log_last s Hs). eexists. split; [done|].
  split_and!; [|done..]. unfold log_ok, log_disk. cbn. split_and!; try done; [|];
    destruct (N.ltb_spec (snap_LastIncludedIndex (d_snapshot (disk s))) (hs_Commit hs)); lia.
Qed.

(** ** Conflict hints *)

Lemma conflictHint_loop_spec l fuel idx t :
  log_ok l → (idx ≤ d_last (log_disk l))%N →
  (N.to_nat (idx - firstIndex l) ≤ fuel)%nat →
  ∃ ci, conflictHint_loop fuel idx t l = Ret ci ∧ (ci ≤ idx)%N ∧
    (∀ i, (ci ≤ i < idx)%N → log_term_of l i = Some t) ∧
    ((ci ≤ d_base (log_disk l) + 1)%N ∨ log_term_of l (ci - 1) ≠ Some t).
Proof.
  intros Hok. pose proof (log_ok_disk l Hok) as (_ & HW & _).
  revert idx. induction fuel as [|k IH]; intros idx Hi Hf; rewrite (firstIndex_spec l Hok) in Hf;
    cbn [conflictHint_loop].
  { exists idx. split_and!; [done..|lia|left; lia]. }
  rewrite (firstIndex_spec l Hok).
  destruct (N.leb_spec idx (d_base (log_disk l) + 1)).
  { exists idx. split_and!; [done..|lia|by left]. }
  rewrite u64_sub_small by lia. pose proof (term_at_spec l (idx - 1) Hok) as HT.
  destruct (term_at (idx - 1) l) as [t'| | |]; [|exists idx|done..].
  2: { split_and!; [done..|lia|right; congruence]. }
  destruct (N.eqb_spec t' t) as [->|Hne]; cbn [negb].
  - destruct (IH (idx - 1)%N) as (ci & E & Hle & Hall & Hend);
      [lia|rewrite (firstIndex_spec l Hok); lia|].
    exists ci. split_and!; [done|lia| |done]. intros i Hi'.
    destruct (decide (i = idx - 1)%N) as [->|]; [done|]. apply Hall. lia.
  - exists idx. split_and!; [done..|lia|right; congruence].
Qed.

(** The three answers of [conflictHint]: our log is too short, the entry was
    compacted, or the whole run of the conflicting term that ends at [prevIdx]. *)
Definition hint_of l (prevIdx ci : Index) (ct : Term) : Prop :=
  ((d_last (log_disk l) < prevIdx)%N ∧ ci = (d_last (log_disk l) + 1)%N ∧ ct = 0%N) ∨
  ((prevIdx < d_base (log_disk l))%N ∧ ci = (d_base (log_disk l) + 1)%N ∧ ct = 0%N) ∨
  ((ci ≤ prevIdx)%N ∧
   (∀ i, (ci ≤ i ≤ prevIdx)%N → log_term_of l i = Some ct) ∧
   ((ci ≤ d_base (log_disk l) + 1)%N ∨ log_term_of l (ci - 1) ≠ Some ct)).

Lemma conflictHint_ok l prevIdx :
  log_ok l → ∃ ci ct, conflictHint prevIdx l = Ret (ci, ct) ∧ hint_of l prevIdx ci ct.
Proof.
  intros Hok. pose proof (log_ok_disk l Hok) as (_ & HW & _).
  unfold conflictHint. rewrite (lastIndex_spec l Hok).
  destruct (N.ltb_spec (d_last (log_disk l)) prevIdx) as [Hlt|Hle].
  { rewrite u64_add_small by lia. eexists _, _. split; [done|]. by left. }
  pose proof (term_at_spec l prevIdx Hok) as HT.
  destruct (term_at prevIdx l) as [t|e| |]; [| |done..].
  - destruct (conflictHint_loop_spec l (N.to_nat (prevIdx - firstIndex l)) prevIdx t)
      as (ci & -> & Hci & Hall & Hend); [done..|].
    exists ci, t. split; [done|]. do 2 right. split_and!; [done| |done].
    intros i Hi. destruct (decide (i = prevIdx)) as [->|]; [done|]. apply Hall. lia.
  - rewrite (firstIndex_spec l Hok). eexists _, _. split; [done|]. right. left.
    assert (¬ is_Some (log_term_of l prevIdx)) as Hn by (rewrite HT; by intros []).
    rewrite log_term_of_is_Some in Hn. split_and!; [lia|done..].
Qed.

(** ** The election restriction and the entries to apply *)

Lemma isUpToDate_ok l i t :
  log_ok l →
  ∃ mine, log_term_of l (d_last (log_disk l)) = Some mine ∧
    isUpToDate i t l =
    Ret (bool_decide ((mine < t)%N ∨ (mine = t ∧ (d_last (log_disk l) ≤ i)%N))).
Proof.
  intros Hok. destruct (lastTerm_spec l Hok) as (mine & E & HT). exists mine. split; [done|].
  unfold isUpToDate. rewrite E. cbn [obind]. rewrite (lastIndex_spec l Hok).
  destruct (N.eqb_spec t mine) as [->|Hne]; cbn [negb].
  - f_equal. apply eq_bool_prop_intro. rewrite bool_decide_spec, Is_true_true, N.leb_le. lia.
  - f_equal. apply eq_bool_prop_intro. rewrite bool_decide_spec, Is_true_true, N.ltb_lt. lia.
Qed.

Lemma index_of_int_small z : (0 < z < 9223372036854775808)%Z → index_of_int z = Z.to_N z.
Proof. intros ?. unfold index_of_int. by rewrite Z.mod_small by lia. Qed.

(** The committed entries above index [i]. *)
Definition committed_above l (i : Index) : list LogEntry :=
  take (N.to_nat (l_committed l - i))
    (drop (N.to_nat (i - d_base (log_disk l))) (d_entries (log_disk l))).

Lemma contiguous_last_Some f es e :
  contiguous_from f es → last es = Some e → (e_Index e + 1 = f + N.of_nat (length es))%N.
Proof.
  intros Hc. destruct es as [|e' es'] using rev_ind; [done|]. rewrite last_snoc. intros [= <-].
  rewrite (Hc (length es') e') by (rewrite lookup_app_r, Nat.sub_diag by lia; done).
  rewrite length_app. cbn. lia.
Qed.

(** Whatever the limit, what is returned is the start of what waits. *)
Lemma entriesToApply_prefix l maxEntries :
  log_ok l →
  let pending := committed_above l (l_applied l) in
  let limit := N.to_nat (index_of_int maxEntries) in
  entriesToApply maxEntries l =
  Ret (if (0 <? maxEntries)%Z then take limit pending else pending).
Proof.
  intros Hok. cbv zeta. pose proof (log_ok_disk l Hok) as (_ & HW & _).
  pose proof (log_ok_base l Hok) as HB. pose proof Hok as (Hs & Ha & Hc & Hl).
  unfold entriesToApply, hasEntriesToApply, committed_above.
  destruct (N.ltb_spec (l_applied l) (l_committed l)); cbn [negb].
  2: { replace (N.to_nat (l_committed l - l_applied l)) with 0%nat by lia. cbn.
       by destruct (0 <? maxEntries)%Z, (N.to_nat (index_of_int maxEntries)). }
  rewrite (firstIndex_spec l Hok), !u64_add_small by lia. rewrite N.max_l by lia.
  rewrite u64_sub_small by lia.
  assert (∀ hi, (l_applied l + 1 ≤ hi)%N → (hi ≤ l_committed l + 1)%N →
    log_entries_range (l_applied l + 1) hi l =
    Ret (take (N.to_nat (hi - (l_applied l + 1)))
           (drop (N.to_nat (l_applied l - d_base (log_disk l))) (d_entries (log_disk l))))) as HR.
  { intros hi H1 H2. unfold log_entries_range. destruct (N.leb_spec hi (l_applied l + 1)).
    { by replace (N.to_nat (hi - (l_applied l + 1))) with 0%nat by lia. }
    rewrite (lastIndex_spec l Hok), u64_add_small, (proj2 (N.ltb_ge _ _)) by lia.
    rewrite log_entries; fold (log_disk l); [|done|lia..].
    do 3 f_equal. lia. }
  destruct (Z.ltb_spec 0 maxEntries) as [Hpos|]; cbn [andb].
  - destruct (N.ltb_spec (index_of_int maxEntries) (l_committed l + 1 - (l_applied l + 1))).
    + rewrite u64_add_small by lia. rewrite HR by lia. rewrite take_take. do 2 f_equal. lia.
    + rewrite HR by lia. rewrite take_take. do 2 f_equal. lia.
  - rewrite HR by lia. do 2 f_equal. lia.
Qed.

Lemma entriesToApply_ok l maxEntries :
  log_ok l → (maxEntries < 9223372036854775808)%Z →
  entriesToApply maxEntries l =
  Ret (let pending := committed_above l (l_applied l) in
       if (0 <? maxEntries)%Z then take (Z.to_nat maxEntries) pending else pending).
Proof.
  intros Hok Hmax. rewrite (entriesToApply_prefix l maxEntries Hok). cbv zeta.
  destruct (Z.ltb_spec 0 maxEntries); [|done].
  rewrite index_of_int_small by lia. do 2 f_equal. lia.
Qed.

(** The committed entries above the applied index, position by position. *)
Lemma committed_above_spec l :
  log_ok l →
  length (committed_above l (l_applied l)) = N.to_nat (l_committed l - l_applied l) ∧
  contiguous_from (l_applied l + 1) (committed_above l (l_applied l)).
Proof.
  intros Hok. pose proof (log_ok_disk l Hok) as (Hcont & _).
  pose proof (log_ok_base l Hok) as HB. pose proof Hok as (_ & Ha & Hc & Hl).
  unfold committed_above, d_last in *. rewrite length_take, length_drop. split; [lia|].
  apply contiguous_take.
  replace (l_applied l + 1)%N with
    (d_base (log_disk l) + 1 + N.of_nat (N.to_nat (l_applied l - d_base (log_disk l))))%N by lia.
  by apply contiguous_drop.
Qed.

(** ** What the log guarantees *)

(** [maybeAppend], on a well-formed log and a message whose entries follow
    [prevIdx], never panics.  It accepts exactly when the log holds
    [prevIdx]@[prevTerm]; then every entry sent is in the log, what was written
    starts above the commit index, and the commit index becomes the leader's as far
    as the entries reach.  A refusal or an error leaves the log as it was, and in
    every case the invariant holds and no committed entry changes. *)
Theorem maybeAppend_correct l prevIdx prevTerm leaderCommit ents :
  log_ok l → contiguous_from (prevIdx + 1) ents →
  (prevIdx + N.of_nat (length ents) + 1 < W64)%N →
  wp (maybeAppend prevIdx prevTerm leaderCommit ents)
     (λ res l', log_ok l' ∧ log_extends l l' ∧
        if snd res
        then fst res = (prevIdx + N.of_nat (length ents))%N ∧
             log_term_of l prevIdx = Some prevTerm ∧ appended l prevIdx leaderCommit ents l'
        else l' = l ∧ log_term_of l prevIdx ≠ Some prevTerm)
     (λ _ l', log_ok l' ∧ log_same l l') (λ _, False) l.
Proof. apply maybeAppend_wp. Qed.

Lemma findConflict_none l ents : log_ok l → holds_all l ents → findConflict ents l = Ret 0%N.
Proof.
  intros Hok Hall. induction Hall as [|e ents He Hall IH]; [done|].
  cbn. rewrite (matchTerm_spec l _ _ Hok), bool_decide_true by done. exact IH.
Qed.

Lemma log_term_of_write l l' f ents i :
  (d_base (log_disk l) < f)%N → (f ≤ d_last (log_disk l) + 1)%N → (i < f)%N →
  log_disk l' = disk_write f ents (log_disk l) → log_term_of l' i = log_term_of l i.
Proof.
  intros Hlo Hhi Hi Hd. unfold log_term_of, disk_term. rewrite Hd, disk_write_entry by done.
  by rewrite (proj2 (N.ltb_lt _ _)) by done.
Qed.

(** An accepted append still finds [prevIdx] where it was. *)
Lemma appended_prev l prevIdx leaderCommit ents l' :
  log_ok l → contiguous_from (prevIdx + 1) ents → is_Some (log_term_of l prevIdx) →
  appended l prevIdx leaderCommit ents l' → log_term_of l' prevIdx = log_term_of l prevIdx.
Proof.
  intros Hok Hc Hp (_ & _ & _ & [Hd|(k & Hk & Hcom & [Hall _] & Hd)]).
  { by apply log_term_of_disk. }
  pose proof (log_ok_base l Hok) as HB. pose proof Hok as (_ & _ & HC & _).
  eapply log_term_of_write; [..|exact Hd]; [lia| |lia].
  destruct (decide (k = 0%nat)) as [->|].
  - apply log_term_of_is_Some in Hp. unfold d_last in *. lia.
  - assert (prevIdx + N.of_nat (length (take k ents)) ≤ d_last (log_disk l))%N as HT.
    { apply holds_all_last; [done|by left|by apply contiguous_take|done]. }
    rewrite length_take in HT. lia.
Qed.

(** A duplicated append is harmless: delivering the same message again gives
    the same answer and changes nothing, whatever the log had gained beyond it. *)
Theorem maybeAppend_idempotent l prevIdx prevTerm leaderCommit ents n l' :
  log_ok l → contiguous_from (prevIdx + 1) ents →
  (prevIdx + N.of_nat (length ents) + 1 < W64)%N →
  maybeAppend prevIdx prevTerm leaderCommit ents l = (Ret (n, true), l') →
  maybeAppend prevIdx prevTerm leaderCommit ents l' = (Ret (n, true), l').
Proof.
  intros Hok Hc Hb E.
  pose proof (maybeAppend_wp l prevIdx prevTerm leaderCommit ents Hok Hc Hb) as HW.
  unfold wp in HW. rewrite E in HW. destruct HW as (Hok' & _ & Hn & Hp & Happ). cbn in Hn.
  pose proof (appended_prev _ _ _ _ _ Hok Hc (mk_is_Some _ _ Hp) Happ) as Hp'.
  destruct Happ as (Hall & Hcom & _).
  unfold maybeAppend, bind, reads, get, ret. rewrite (matchTerm_spec l' _ _ Hok').
  rewrite bool_decide_true by congruence. cbn [negb].
  rewrite (findConflict_none l' ents Hok' Hall). cbn [N.eqb].
  unfold commitTo, bind, get, ret. rewrite u64_add_small by lia.
  rewrite (proj2 (N.leb_le _ _)) by lia. by rewrite Hn.
Qed.

(** The election restriction is the lexicographic comparison on (term, index)
    and can always be answered: a candidate's log is accepted exactly when its last
    term is later than ours, or equal with an index no smaller.  Of any two
    well-formed logs, at least one is acceptable to the other. *)
Theorem isUpToDate_spec l l2 :
  log_ok l → log_ok l2 →
  (∀ i t, ∃ mine, log_term_of l (d_last (log_disk l)) = Some mine ∧
     isUpToDate i t l =
     Ret (bool_decide ((mine < t)%N ∨ (mine = t ∧ (d_last (log_disk l) ≤ i)%N)))) ∧
  ∃ t t2, lastTerm l = Ret t ∧ lastTerm l2 = Ret t2 ∧
    (isUpToDate (lastIndex l) t l2 = Ret true ∨ isUpToDate (lastIndex l2) t2 l = Ret true).
Proof.
  intros Hok Hok2. split; [by intros; apply isUpToDate_ok|].
  destruct (lastTerm_spec l Hok) as (t & E & HT), (lastTerm_spec l2 Hok2) as (t2 & E2 & HT2).
  exists t, t2. split_and!; [done..|].
  destruct (isUpToDate_ok l (lastIndex l2) t2 Hok) as (m & Hm & ->).
  destruct (isUpToDate_ok l2 (lastIndex l) t Hok2) as (m2 & Hm2 & ->).
  rewrite (lastIndex_spec l Hok), (lastIndex_spec l2 Hok2).
  replace m with t by congruence. replace m2 with t2 by congruence.
  destruct (decide (t2 < t ∨ (t2 = t ∧ d_last (log_disk l2) ≤ d_last (log_disk l)))%N) as [Hc|Hc].
  - left. by rewrite bool_decide_true.
  - right. rewrite bool_decide_true; [done|]. lia.
Qed.

(** [conflictHint] always answers, and its answer is the one the leader's
    backoff assumes: the end of a log that is too short, or the first index of the
    whole run of entries of the conflicting term. *)
Theorem conflictHint_spec l prevIdx :
  log_ok l → ∃ ci ct, conflictHint prevIdx l = Ret (ci, ct) ∧ hint_of l prevIdx ci ct.
Proof. apply conflictHint_ok. Qed.

(** [entriesToApply] returns exactly the committed entries not yet applied, in
    order, cut to [maxEntries] when that is positive; it never fails. *)
Theorem entriesToApply_spec l maxEntries :
  log_ok l → (maxEntries < 9223372036854775808)%Z →
  entriesToApply maxEntries l =
  Ret (let pending := committed_above l (l_applied l) in
       if (0 <? maxEntries)%Z then take (Z.to_nat maxEntries) pending else pending).
Proof. apply entriesToApply_ok. Qed.
End raftlog_facts.

(** ** Instances *)

Definition sample_entry (t : Term) (i : Index) : LogEntry := mkEntry t i EntryNormal [].

(** Three entries, two of them committed and one applied. *)
Definition sample_store : MemoryStorage :=
  mkMemoryStorage (mkHardState 2 1 2) zeroSnapshot
    [zeroEntry; sample_entry 1 1; sample_entry 1 2; sample_entry 2 3].
Definition sample_log : raftLog MemoryStorage := mkRaftLog sample_store 2 1.

(** Contiguity of a literal list. *)
Ltac contiguous :=
  let k := fresh "k" in let e := fresh "e" in let Hk := fresh "Hk" in
  intros k e Hk;
  repeat first [solve [cbn in Hk; discriminate Hk] | destruct k as [|k]; [by simplify_eq/=|]].

Lemma sample_log_ok : log_ok sample_log.
Proof.
  split; [|by vm_compute]. split; [done|]. split; [contiguous|by vm_compute].
Qed.

Lemma maybeAppend_correct_witness :
  ∃ l', maybeAppend 2 1 4 [sample_entry 3 3; sample_entry 3 4] sample_log = (Ret (4%N, true), l')
        ∧ log_ok l' ∧ log_extends sample_log l' ∧ l_committed l' = 4%N.
Proof.
  pose proof (maybeAppend_correct sample_log 2 1 4 [sample_entry 3 3; sample_entry 3 4]
                sample_log_ok) as H.
  eexists. split; [by vm_compute|].
  destruct H as (Hok & Hext & _); [contiguous|done|]. by split_and!.
Defined.

Lemma maybeAppend_idempotent_witness :
  let l' := snd (maybeAppend 2 1 4 [sample_entry 3 3; sample_entry 3 4] sample_log) in
  maybeAppend 2 1 4 [sample_entry 3 3; sample_entry 3 4] l' = (Ret (4%N, true), l').
Proof.
  cbv zeta. apply (maybeAppend_idempotent sample_log);
    [apply sample_log_ok|contiguous|done|by vm_compute].
Defined.

Lemma isUpToDate_spec_witness :
  ∃ t, lastTerm sample_log = Ret t ∧ isUpToDate (lastIndex sample_log) t sample_log = Ret true.
Proof.
  destruct (isUpToDate_spec sample_log sample_log sample_log_ok sample_log_ok)
    as (_ & t & t2 & E & E2 & [H|H]); [by exists t|by exists t2].
Defined.

Lemma conflictHint_spec_witness :
  ∃ ci ct, conflictHint 2 sample_log = Ret (ci, ct) ∧ hint_of sample_log 2 ci ct ∧ ci = 1%N.
Proof.
  destruct (conflictHint_spec sample_log 2 sample_log_ok) as (ci & ct & E & H).
  exists ci, ct. split_and!; [done..|]. vm_compute in E. by simplify_eq.
Defined.

Lemma entriesToApply_spec_witness :
  entriesToApply 0 sample_log = Ret [sample_entry 1 2].
Proof. by rewrite (entriesToApply_spec sample_log 0 sample_log_ok). Defined.
