(* ===== verification/RawNode.v ===== *)
(** * One node: the Raft state machine

    [RawNode] and its transitions: raft/raft.go (configuration, state changes, Tick
    and Step), raft/election.go (campaigns and votes), raft/replication.go
    (proposing, sending, receiving, the commit rule), raft/snapshot.go (taking,
    sending and installing snapshots), raft/read.go (read barriers) and
    raft/confchange.go (membership changes).  This file holds the definitions; the
    theorems are in the files that require it.

    Every method runs in the monad [M (RawNode S G)].  [S] is any implementation of
    the interface [Storage], held once, inside [rn_log] (the source's [cfg.Storage]
    and [log.storage] are the same handle); [G] is the state of any implementation
    of the interface [Rand].  Methods that call one another recursively take fuel;
    [callDepth] is proved sufficient in NodeSafety.v. *)

From S2P Require Import Prelude Varint Types Config Storage RaftLog.

(** ** Interfaces and configuration *)

(** The interface [Rand]: [Intn n] is a value in [0, n). *)
Class Rand (G : Type) := { Intn : Z → G → Z * G }.

(** [Config] without the two interface handles, which [NewRawNode] takes
    separately. *)
Record Config := mkConfig {
  c_ID : NodeID;
  c_ElectionTick : Z;
  c_HeartbeatTick : Z;
  c_PreVote : bool;
  c_Bootstrap : Configuration;
  c_MaxApplyEntries : Z;
  c_MaxEntriesPerMessage : Z;
  c_SnapshotThreshold : N;
  c_SnapshotCatchUpEntries : N;
  c_SnapshotRetryHeartbeats : Z
}.

Definition validate {S G} (c : Config) (storage : option S) (rand : option G) : outcome unit :=
  if (c_ID c =? None_)%N then Fail (Errorf "raft: node ID must not be zero" [])
  else match storage with
  | None => Fail (Errorf "raft: Storage is required" [])
  | Some _ =>
  match rand with
  | None => Fail (Errorf "raft: Rand is required for election timeout jitter" [])
  | Some _ =>
      if (c_ElectionTick c <=? 0)%Z
      then Fail (Errorf "raft: ElectionTick must be positive" [])
      else if (c_HeartbeatTick c <=? 0)%Z
      then Fail (Errorf "raft: HeartbeatTick must be positive" [])
      else if (c_ElectionTick c <=? c_HeartbeatTick c)%Z
      then Fail (Errorf "raft: HeartbeatTick must be less than ElectionTick" [])
      else Ret tt
  end end.

(** The leader's view of one peer. *)
Record Progress := mkProgress {
  p_Match : Index;
  p_Next : Index;
  p_PendingSnapshot : Index;
  p_SnapshotTicks : Z
}.

Record ReadState := mkReadState { rs_ID : N; rs_Index : Index }.

Record readRequest := mkReadRequest {
  rr_id : N;
  rr_index : Index;
  rr_acks : gmap NodeID bool
}.

(** [progress] is [None] while the Go map is nil. *)
Record RawNode (S G : Type) := mkRawNode {
  rn_id : NodeID;
  rn_cfg : Config;
  rn_rand : G;
  rn_term : Term;
  rn_vote : NodeID;
  rn_persisted : HardState;
  rn_log : raftLog S;
  rn_state : State;
  rn_lead : NodeID;
  rn_conf : Configuration;
  rn_confIndex : Index;
  rn_bootstrap : Configuration;
  rn_votes : gmap NodeID bool;
  rn_progress : option (gmap NodeID Progress);
  rn_electionElapsed : Z;
  rn_heartbeatElapsed : Z;
  rn_randomizedElectionTimeout : Z;
  rn_pendingReads : list readRequest;
  rn_readStates : list ReadState;
  rn_appliedSnapshot : option Snapshot;
  rn_msgs : list Message
}.
Arguments mkRawNode {S G}.
Arguments rn_id {S G} _.
Arguments rn_cfg {S G} _.
Arguments rn_rand {S G} _.
Arguments rn_term {S G} _.
Arguments rn_vote {S G} _.
Arguments rn_persisted {S G} _.
Arguments rn_log {S G} _.
Arguments rn_state {S G} _.
Arguments rn_lead {S G} _.
Arguments rn_conf {S G} _.
Arguments rn_confIndex {S G} _.
Arguments rn_bootstrap {S G} _.
Arguments rn_votes {S G} _.
Arguments rn_progress {S G} _.
Arguments rn_electionElapsed {S G} _.
Arguments rn_heartbeatElapsed {S G} _.
Arguments rn_randomizedElectionTimeout {S G} _.
Arguments rn_pendingReads {S G} _.
Arguments rn_readStates {S G} _.
Arguments rn_appliedSnapshot {S G} _.
Arguments rn_msgs {S G} _.

(** How deep the recursive calls of a campaign and of a proposal can go. *)
Definition callDepth : nat := 8.

Definition defaultMaxEntriesPerMessage : Z := 64.
Definition defaultSnapshotRetryHeartbeats : Z := 10.

(** ** Message literals *)

Definition voteReqMsg to term pre lastIndex lastTerm : Message :=
  mkMessage MsgVoteReq None_ to term pre lastIndex lastTerm false 0 0 [] 0 false 0 0 0 0 None.
Definition voteRespMsg to term pre granted : Message :=
  mkMessage MsgVoteResp None_ to term pre 0 0 granted 0 0 [] 0 false 0 0 0 0 None.
Definition appendReqMsg to prevIndex prevTerm entries commit readID : Message :=
  mkMessage MsgAppendReq None_ to 0 false 0 0 false prevIndex prevTerm entries commit
    false 0 0 0 readID None.
Definition appendRespMsg to success matchIndex conflictIndex conflictTerm readID : Message :=
  mkMessage MsgAppendResp None_ to 0 false 0 0 false 0 0 [] 0
    success matchIndex conflictIndex conflictTerm readID None.
Definition snapshotReqMsg to snap : Message :=
  mkMessage MsgSnapshotReq None_ to 0 false 0 0 false 0 0 [] 0 false 0 0 0 0 (Some snap).
Definition snapshotRespMsg to success matchIndex : Message :=
  mkMessage MsgSnapshotResp None_ to 0 false 0 0 false 0 0 [] 0 success matchIndex 0 0 0 None.

(** The envelope [send] fills in. *)
Definition addressed (from : NodeID) (term : Term) (m : Message) : Message :=
  mkMessage (m_Type m) from (m_To m) (if (m_Term m =? 0)%N then term else m_Term m)
    (m_PreVote m) (m_LastLogIndex m) (m_LastLogTerm m) (m_Granted m) (m_PrevLogIndex m)
    (m_PrevLogTerm m) (m_Entries m) (m_LeaderCommit m) (m_Success m) (m_MatchIndex m)
    (m_ConflictIndex m) (m_ConflictTerm m) (m_ReadID m) (m_Snapshot m).

Section rawnode.
Context {S G : Type} `{Storage S} `{Rand G}.

(** Field updates. *)
Definition set_rand (v : G) (r : RawNode S G) : RawNode S G :=
  mkRawNode (rn_id r) (rn_cfg r) v (rn_term r) (rn_vote r) (rn_persisted r) (rn_log r)
    (rn_state r) (rn_lead r) (rn_conf r) (rn_confIndex r) (rn_bootstrap r) (rn_votes
    r) (rn_progress r) (rn_electionElapsed r) (rn_heartbeatElapsed r)
    (rn_randomizedElectionTimeout r) (rn_pendingReads r) (rn_readStates r)
    (rn_appliedSnapshot r) (rn_msgs r).
Definition set_term (v : Term) (r : RawNode S G) : RawNode S G :=
  mkRawNode (rn_id r) (rn_cfg r) (rn_rand r) v (rn_vote r) (rn_persisted r) (rn_log r)
    (rn_state r) (rn_lead r) (rn_conf r) (rn_confIndex r) (rn_bootstrap r) (rn_votes
    r) (rn_progress r) (rn_electionElapsed r) (rn_heartbeatElapsed r)
    (rn_randomizedElectionTimeout r) (rn_pendingReads r) (rn_readStates r)
    (rn_appliedSnapshot r) (rn_msgs r).
Definition set_vote (v : NodeID) (r : RawNode S G) : RawNode S G :=
  mkRawNode (rn_id r) (rn_cfg r) (rn_rand r) (rn_term r) v (rn_persisted r) (rn_log r)
    (rn_state r) (rn_lead r) (rn_conf r) (rn_confIndex r) (rn_bootstrap r) (rn_votes
    r) (rn_progress r) (rn_electionElapsed r) (rn_heartbeatElapsed r)
    (rn_randomizedElectionTimeout r) (rn_pendingReads r) (rn_readStates r)
    (rn_appliedSnapshot r) (rn_msgs r).
Definition set_persisted (v : HardState) (r : RawNode S G) : RawNode S G :=
  mkRawNode (rn_id r) (rn_cfg r) (rn_rand r) (rn_term r) (rn_vote r) v (rn_log r)
    (rn_state r) (rn_lead r) (rn_conf r) (rn_confIndex r) (rn_bootstrap r) (rn_votes
    r) (rn_progress r) (rn_electionElapsed r) (rn_heartbeatElapsed r)
    (rn_randomizedElectionTimeout r) (rn_pendingReads r) (rn_readStates r)
    (rn_appliedSnapshot r) (rn_msgs r).
Definition set_log (v : raftLog S) (r : RawNode S G) : RawNode S G :=
  mkRawNode (rn_id r) (rn_cfg r) (rn_rand r) (rn_term r) (rn_vote r) (rn_persisted r)
    v (rn_state r) (rn_lead r) (rn_conf r) (rn_confIndex r) (rn_bootstrap r) (rn_votes
    r) (rn_progress r) (rn_electionElapsed r) (rn_heartbeatElapsed r)
    (rn_randomizedElectionTimeout r) (rn_pendingReads r) (rn_readStates r)
    (rn_appliedSnapshot r) (rn_msgs r).
Definition set_state (v : State) (r : RawNode S G) : RawNode S G :=
  mkRawNode (rn_id r) (rn_cfg r) (rn_rand r) (rn_term r) (rn_vote r) (rn_persisted r)
    (rn_log r) v (rn_lead r) (rn_conf r) (rn_confIndex r) (rn_bootstrap r) (rn_votes
    r) (rn_progress r) (rn_electionElapsed r) (rn_heartbeatElapsed r)
    (rn_randomizedElectionTimeout r) (rn_pendingReads r) (rn_readStates r)
    (rn_appliedSnapshot r) (rn_msgs r).
Definition set_lead (v : NodeID) (r : RawNode S G) : RawNode S G :=
  mkRawNode (rn_id r) (rn_cfg r) (rn_rand r) (rn_term r) (rn_vote r) (rn_persisted r)
    (rn_log r) (rn_state r) v (rn_conf r) (rn_confIndex r) (rn_bootstrap r) (rn_votes
    r) (rn_progress r) (rn_electionElapsed r) (rn_heartbeatElapsed r)
    (rn_randomizedElectionTimeout r) (rn_pendingReads r) (rn_readStates r)
    (rn_appliedSnapshot r) (rn_msgs r).
Definition set_conf (v : Configuration) (r : RawNode S G) : RawNode S G :=
  mkRawNode (rn_id r) (rn_cfg r) (rn_rand r) (rn_term r) (rn_vote r) (rn_persisted r)
    (rn_log r) (rn_state r) (rn_lead r) v (rn_confIndex r) (rn_bootstrap r) (rn_votes
    r) (rn_progress r) (rn_electionElapsed r) (rn_heartbeatElapsed r)
    (rn_randomizedElectionTimeout r) (rn_pendingReads r) (rn_readStates r)
    (rn_appliedSnapshot r) (rn_msgs r).
Definition set_confIndex (v : Index) (r : RawNode S G) : RawNode S G :=
  mkRawNode (rn_id r) (rn_cfg r) (rn_rand r) (rn_term r) (rn_vote r) (rn_persisted r)
    (rn_log r) (rn_state r) (rn_lead r) (rn_conf r) v (rn_bootstrap r) (rn_votes r)
    (rn_progress r) (rn_electionElapsed r) (rn_heartbeatElapsed r)
    (rn_randomizedElectionTimeout r) (rn_pendingReads r) (rn_readStates r)
    (rn_appliedSnapshot r) (rn_msgs r).
Definition set_votes (v : gmap NodeID bool) (r : RawNode S G) : RawNode S G :=
  mkRawNode (rn_id r) (rn_cfg r) (rn_rand r) (rn_term r) (rn_vote r) (rn_persisted r)
    (rn_log r) (rn_state r) (rn_lead r) (rn_conf r) (rn_confIndex r) (rn_bootstrap r)
    v (rn_progress r) (rn_electionElapsed r) (rn_heartbeatElapsed r)
    (rn_randomizedElectionTimeout r) (rn_pendingReads r) (rn_readStates r)
    (rn_appliedSnapshot r) (rn_msgs r).
Definition set_progress (v : option (gmap NodeID Progress)) (r : RawNode S G) : RawNode S G :=
  mkRawNode (rn_id r) (rn_cfg r) (rn_rand r) (rn_term r) (rn_vote r) (rn_persisted r)
    (rn_log r) (rn_state r) (rn_lead r) (rn_conf r) (rn_confIndex r) (rn_bootstrap r)
    (rn_votes r) v (rn_electionElapsed r) (rn_heartbeatElapsed r)
    (rn_randomizedElectionTimeout r) (rn_pendingReads r) (rn_readStates r)
    (rn_appliedSnapshot r) (rn_msgs r).
Definition set_electionElapsed (v : Z) (r : RawNode S G) : RawNode S G :=
  mkRawNode (rn_id r) (rn_cfg r) (rn_rand r) (rn_term r) (rn_vote r) (rn_persisted r)
    (rn_log r) (rn_state r) (rn_lead r) (rn_conf r) (rn_confIndex r) (rn_bootstrap r)
    (rn_votes r) (rn_progress r) v (rn_heartbeatElapsed r)
    (rn_randomizedElectionTimeout r) (rn_pendingReads r) (rn_readStates r)
    (rn_appliedSnapshot r) (rn_msgs r).
Definition set_heartbeatElapsed (v : Z) (r : RawNode S G) : RawNode S G :=
  mkRawNode (rn_id r) (rn_cfg r) (rn_rand r) (rn_term r) (rn_vote r) (rn_persisted r)
    (rn_log r) (rn_state r) (rn_lead r) (rn_conf r) (rn_confIndex r) (rn_bootstrap r)
    (rn_votes r) (rn_progress r) (rn_electionElapsed r) v
    (rn_randomizedElectionTimeout r) (rn_pendingReads r) (rn_readStates r)
    (rn_appliedSnapshot r) (rn_msgs r).
Definition set_randomizedElectionTimeout (v : Z) (r : RawNode S G) : RawNode S G :=
  mkRawNode (rn_id r) (rn_cfg r) (rn_rand r) (rn_term r) (rn_vote r) (rn_persisted r)
    (rn_log r) (rn_state r) (rn_lead r) (rn_conf r) (rn_confIndex r) (rn_bootstrap r)
    (rn_votes r) (rn_progress r) (rn_electionElapsed r) (rn_heartbeatElapsed r) v
    (rn_pendingReads r) (rn_readStates r) (rn_appliedSnapshot r) (rn_msgs r).
Definition set_pendingReads (v : list readRequest) (r : RawNode S G) : RawNode S G :=
  mkRawNode (rn_id r) (rn_cfg r) (rn_rand r) (rn_term r) (rn_vote r) (rn_persisted r)
    (rn_log r) (rn_state r) (rn_lead r) (rn_conf r) (rn_confIndex r) (rn_bootstrap r)
    (rn_votes r) (rn_progress r) (rn_electionElapsed r) (rn_heartbeatElapsed r)
    (rn_randomizedElectionTimeout r) v (rn_readStates r) (rn_appliedSnapshot r)
    (rn_msgs r).
Definition set_readStates (v : list ReadState) (r : RawNode S G) : RawNode S G :=
  mkRawNode (rn_id r) (rn_cfg r) (rn_rand r) (rn_term r) (rn_vote r) (rn_persisted r)
    (rn_log r) (rn_state r) (rn_lead r) (rn_conf r) (rn_confIndex r) (rn_bootstrap r)
    (rn_votes r) (rn_progress r) (rn_electionElapsed r) (rn_heartbeatElapsed r)
    (rn_randomizedElectionTimeout r) (rn_pendingReads r) v (rn_appliedSnapshot r)
    (rn_msgs r).
Definition set_appliedSnapshot (v : option Snapshot) (r : RawNode S G) : RawNode S G :=
  mkRawNode (rn_id r) (rn_cfg r) (rn_rand r) (rn_term r) (rn_vote r) (rn_persisted r)
    (rn_log r) (rn_state r) (rn_lead r) (rn_conf r) (rn_confIndex r) (rn_bootstrap r)
    (rn_votes r) (rn_progress r) (rn_electionElapsed r) (rn_heartbeatElapsed r)
    (rn_randomizedElectionTimeout r) (rn_pendingReads r) (rn_readStates r) v (rn_msgs
    r).
Definition set_msgs (v : list Message) (r : RawNode S G) : RawNode S G :=
  mkRawNode (rn_id r) (rn_cfg r) (rn_rand r) (rn_term r) (rn_vote r) (rn_persisted r)
    (rn_log r) (rn_state r) (rn_lead r) (rn_conf r) (rn_confIndex r) (rn_bootstrap r)
    (rn_votes r) (rn_progress r) (rn_electionElapsed r) (rn_heartbeatElapsed r)
    (rn_randomizedElectionTimeout r) (rn_pendingReads r) (rn_readStates r)
    (rn_appliedSnapshot r) v.

Local Abbreviation RN := (RawNode S G).

(** A call on the log, and through it on the storage. *)
Definition on_log {A} (m : M (raftLog S) A) : M RN A := zoom rn_log set_log m.
Definition on_disk {A} (m : M S A) : M RN A := on_log (on_storage m).
Definition disk_of (r : RN) : S := l_storage (rn_log r).

(** [p, ok := r.progress[id]]; reading a nil map finds nothing. *)
Definition progressOf (r : RN) (id : NodeID) : option Progress :=
  match rn_progress r with Some m => m !! id | None => None end.

(** Writing through the pointer held at [id]. *)
Definition setProgress (id : NodeID) (p : Progress) : M RN unit :=
  modify (λ r, set_progress (insert id p <$> rn_progress r) r).

(** ** Accessors *)

Definition CommitIndex (r : RN) : Index := l_committed (rn_log r).
Definition RawNode_LastIndex (r : RN) : Index := lastIndex (rn_log r).
Definition AppliedIndex (r : RN) : Index := l_applied (rn_log r).

(** Drains the outbound messages. *)
Definition Messages : M RN (list Message) :=
  r <- get ;;
  modify (set_msgs []) ;;;
  ret (rn_msgs r).

Definition send (m : Message) : M RN unit :=
  modify (λ r, set_msgs (rn_msgs r ++ [addressed (rn_id r) (rn_term r) m]) r).

(** ** Durability *)

Definition persistHardState : M RN unit :=
  r <- get ;;
  let hs := mkHardState (rn_term r) (rn_vote r) (l_committed (rn_log r)) in
  if bool_decide (hs = rn_persisted r) then ret tt
  else
    wrapErr "raft: persisting hard state" (on_disk (SetHardState hs)) ;;;
    modify (set_persisted hs).

(** ** State transitions *)

Definition resetRandomizedElectionTimeout : M RN unit :=
  modify (λ r,
    let '(j, g) := Intn (c_ElectionTick (rn_cfg r)) (rn_rand r) in
    set_rand g (set_randomizedElectionTimeout (int_add (c_ElectionTick (rn_cfg r)) j) r)).

Definition dropPendingReads : M RN unit :=
  modify (set_pendingReads []) ;;;
  modify (set_readStates []).

Definition reset (term : Term) : M RN unit :=
  r <- get ;;
  (if negb (rn_term r =? term)%N
   then modify (set_term term) ;;; modify (set_vote None_)
   else ret tt) ;;;
  modify (set_lead None_) ;;;
  modify (set_electionElapsed 0) ;;;
  modify (set_heartbeatElapsed 0) ;;;
  resetRandomizedElectionTimeout ;;;
  modify (set_votes ∅) ;;;
  modify (set_progress None) ;;;
  dropPendingReads.

Definition becomeFollower (term : Term) (lead : NodeID) : M RN unit :=
  reset term ;;;
  modify (set_state Follower) ;;;
  modify (set_lead lead).

Definition becomePreCandidate : M RN unit :=
  r <- get ;;
  if bool_decide (rn_state r = Leader) then panic "raft: leader cannot become pre-candidate"
  else
    modify (set_state PreCandidate) ;;;
    modify (set_votes ∅) ;;;
    modify (set_lead None_) ;;;
    resetRandomizedElectionTimeout.

Definition becomeCandidate : M RN unit :=
  r <- get ;;
  if bool_decide (rn_state r = Leader) then panic "raft: leader cannot become candidate"
  else
    reset (rn_term r +u 1) ;;;
    modify (set_state Candidate) ;;;
    modify (set_vote (rn_id r)).

Definition promotable (r : RN) : bool := IsVoter (rn_conf r) (rn_id r).

(** ** The configuration in force *)

(** Adds tracking for new members and drops it for departed ones; a leader never
    drops itself. *)
Definition refreshProgress : M RN unit :=
  r <- get ;;
  match rn_progress r with
  | None => ret tt
  | Some old =>
      let members := Members (rn_conf r) in
      let last_ := lastIndex (rn_log r) in
      let added :=
        foldl (λ pm id,
          match pm !! id with
          | Some _ => pm
          | None => <[id := mkProgress (if (id =? rn_id r)%N then last_ else 0%N)
                              (last_ +u 1) 0 0]> pm
          end) old members in
      let kept :=
        filter (λ '(id, _),
          id ∈ members ∨ (id = rn_id r ∧ rn_state r = Leader)) added in
      modify (set_progress (Some kept))
  end.

Definition setConfiguration (conf : Configuration) (at_ : Index) : M RN unit :=
  r <- get ;;
  if Configuration_Equal (rn_conf r) conf && (rn_confIndex r =? at_)%N then ret tt
  else
    modify (set_conf conf) ;;;
    modify (set_confIndex at_) ;;;
    if bool_decide (rn_state r = Leader) then refreshProgress else ret tt.

(** [for i := last; i >= first && i > 0; i--]: the newest configuration entry of
    the log, with its index. *)
Fixpoint latestConf (fuel : nat) (i : Index) (l : raftLog S)
    : outcome (option (Configuration * Index)) :=
  match fuel with
  | O => Ret None
  | Datatypes.S k =>
      if (i <? firstIndex l)%N || (i =? 0)%N then Ret None
      else
        match GetEntry i (l_storage l) with
        | Fail _ => Ret None
        | Ret entry =>
            match e_Type entry with
            | EntryConfChange =>
                match DecodeConfChange (e_Command entry) with
                | Ret cc => Ret (Some (cc_Config cc, i))
                | Fail e => Fail (Errorf "raft: decoding configuration" [e])
                | Panic p => Panic p
                | OutOfFuel => OutOfFuel
                end
            | _ => latestConf k (i -u 1) l
            end
        | Panic p => Panic p
        | OutOfFuel => OutOfFuel
        end
  end.

Definition refreshConfiguration : M RN unit :=
  r <- get ;;
  let l := rn_log r in
  let rounds := N.to_nat (lastIndex l + 1 - firstIndex l) in
  found <- reads (λ _, latestConf rounds (lastIndex l) l) ;;
  match found with
  | Some (conf, i) => setConfiguration conf i
  | None =>
      match LoadSnapshot (disk_of r) with
      | Ret snap =>
          if negb (Configuration_IsEmpty (snap_Config snap))
          then setConfiguration (snap_Config snap) (snap_LastIncludedIndex snap)
          else setConfiguration (rn_bootstrap r) 0
      | Fail _ => setConfiguration (rn_bootstrap r) 0
      | Panic p => panic p
      | OutOfFuel => outOfFuel
      end
  end.

Definition refreshConfigurationIfNeeded (entries : list LogEntry) : M RN unit :=
  r <- get ;;
  let changed :=
    (lastIndex (rn_log r) <? rn_confIndex r)%N ||
    existsb (λ e, bool_decide (e_Type e = EntryConfChange) ||
                  ((0 <? rn_confIndex r)%N && (e_Index e <=? rn_confIndex r)%N)) entries in
  if negb changed then ret tt else refreshConfiguration.

(** A leader that is no longer a voter stops leading, once the change that removed
    it has committed and left the joint configuration. *)
Definition stepDownIfRemoved : M RN unit :=
  r <- get ;;
  if negb (bool_decide (rn_state r = Leader)) || IsJoint (rn_conf r)
     || IsVoter (rn_conf r) (rn_id r) then ret tt
  else if (l_committed (rn_log r) <? rn_confIndex r)%N then ret tt
  else becomeFollower (rn_term r) None_.

(** ** Sending *)

Definition maxEntriesPerMessage (r : RN) : Z :=
  if (0 <? c_MaxEntriesPerMessage (rn_cfg r))%Z then c_MaxEntriesPerMessage (rn_cfg r)
  else defaultMaxEntriesPerMessage.

Definition sendSnapshot (to : NodeID) : M RN unit :=
  r <- get ;;
  match progressOf r to with
  | None => ret tt
  | Some pr =>
      if negb (p_PendingSnapshot pr =? 0)%N then ret tt
      else
        match LoadSnapshot (disk_of r) with
        | Fail _ => ret tt
        | Ret snap =>
            if Snapshot_IsEmpty snap then ret tt
            else
              setProgress to
                (mkProgress (p_Match pr) (p_Next pr) (snap_LastIncludedIndex snap) 0) ;;;
              send (snapshotReqMsg to snap)
        | Panic p => panic p
        | OutOfFuel => outOfFuel
        end
  end.

Definition sendAppendWithRead (to : NodeID) (readID : N) : M RN unit :=
  r <- get ;;
  match progressOf r to with
  | None => ret tt
  | Some pr =>
      if negb (p_PendingSnapshot pr =? 0)%N then ret tt
      else
        let prevIndex := p_Next pr -u 1 in
        match term_at prevIndex (rn_log r) with
        | Fail _ => sendSnapshot to
        | Panic p => panic p
        | OutOfFuel => outOfFuel
        | Ret prevTerm =>
            let last_ := lastIndex (rn_log r) in
            let fetched :=
              if (p_Next pr <=? last_)%N then
                let hi := N.min (last_ +u 1)
                            (p_Next pr +u index_of_int (maxEntriesPerMessage r)) in
                log_entries_range (p_Next pr) hi (rn_log r)
              else Ret [] in
            match fetched with
            | Fail _ => ret tt
            | Panic p => panic p
            | OutOfFuel => outOfFuel
            | Ret entries =>
                send (appendReqMsg to prevIndex prevTerm entries
                        (l_committed (rn_log r)) readID)
            end
        end
  end.

Definition sendAppend (to : NodeID) : M RN unit := sendAppendWithRead to 0.

Definition broadcastAppend : M RN unit :=
  r <- get ;;
  forEach (Peers (rn_conf r) (rn_id r)) sendAppend.

(** ** Proposing and the commit rule *)

(** The match index [maybeAdvanceCommit] counts for a voter. *)
Definition matchOf (r : RN) (id : NodeID) : Index :=
  match progressOf r id with Some p => p_Match p | None => 0%N end.

(** [propose], [maybeAdvanceCommit] and [maybeLeaveJoint] call one another. *)
Fixpoint propose (fuel : nat) (ty : EntryType) (cmd : bytes) : M RN Index :=
  match fuel with
  | O => outOfFuel
  | Datatypes.S k =>
      r <- get ;;
      if negb (bool_decide (rn_state r = Leader)) then fail ErrNotLeader
      else
        let e := mkEntry (rn_term r) (lastIndex (rn_log r) +u 1) ty cmd in
        on_log (log_append_entries [e]) ;;;
        (match ty with EntryConfChange => refreshConfiguration | _ => ret tt end) ;;;
        r' <- get ;;
        (match progressOf r' (rn_id r') with
         | Some self =>
             setProgress (rn_id r')
               (mkProgress (e_Index e) (e_Index e +u 1)
                  (p_PendingSnapshot self) (p_SnapshotTicks self))
         | None => ret tt
         end) ;;;
        maybeAdvanceCommit k ;;;
        broadcastAppend ;;;
        ret (e_Index e)
  end
with maybeAdvanceCommit (fuel : nat) : M RN bool :=
  match fuel with
  | O => outOfFuel
  | Datatypes.S k =>
      r <- get ;;
      if negb (bool_decide (rn_state r = Leader)) then ret false
      else
        let candidate := CommittedIndex (rn_conf r) (matchOf r) in
        if (candidate <=? l_committed (rn_log r))%N then ret false
        else
          term <- wrapErr "raft: term of commit candidate"
                    (on_log (reads (term_at candidate))) ;;
          if negb (term =? rn_term r)%N then ret false
          else
            on_log (commitTo candidate) ;;;
            persistHardState ;;;
            maybeLeaveJoint k ;;;
            stepDownIfRemoved ;;;
            ret true
  end
with maybeLeaveJoint (fuel : nat) : M RN unit :=
  match fuel with
  | O => outOfFuel
  | Datatypes.S k =>
      r <- get ;;
      if negb (bool_decide (rn_state r = Leader)) || negb (IsJoint (rn_conf r)) then ret tt
      else if (l_committed (rn_log r) <? rn_confIndex r)%N then ret tt
      else
        cc <- wrapErr "raft: leaving joint configuration"
                (reads (λ _, LeaveJoint (rn_conf r))) ;;
        res <- try (propose k EntryConfChange (Encode cc)) ;;
        match res with
        | inl _ => ret tt
        | inr e => if errorsIs e ErrNotLeader then ret tt else fail e
        end
  end.

Definition Propose (cmd : bytes) : M RN Index := propose callDepth EntryNormal cmd.

(** ** Becoming leader *)

(** The progress map of a new leader whose log ends at [last_]. *)
Definition initialProgress (r : RN) (last_ : Index) : gmap NodeID Progress :=
  foldl (λ pm id,
    <[id := mkProgress (if (id =? rn_id r)%N then last_ else 0%N) (last_ +u 1) 0 0]> pm)
    ∅ (Members (rn_conf r)).

Definition becomeLeader : M RN unit :=
  r <- get ;;
  if bool_decide (rn_state r = Follower)
  then panic "raft: follower cannot become leader without campaigning"
  else
    let term := rn_term r in
    reset term ;;;
    modify (set_state Leader) ;;;
    modify (set_lead (rn_id r)) ;;;
    let last_ := lastIndex (rn_log r) in
    modify (set_progress (Some (initialProgress r last_))) ;;;
    let noop := mkEntry term (last_ +u 1) EntryNoOp [] in
    wrapErr "raft: appending no-op on election" (on_log (log_append_entries [noop])) ;;;
    r' <- get ;;
    match progressOf r' (rn_id r') with
    | None => panic "nil pointer dereference"
    | Some self =>
        setProgress (rn_id r')
          (mkProgress (e_Index noop) (e_Index noop +u 1)
             (p_PendingSnapshot self) (p_SnapshotTicks self)) ;;;
        maybeAdvanceCommit callDepth ;;;
        persistHardState ;;;
        broadcastAppend
    end.

(** ** Elections *)

(** The first answer of a voter wins. *)
Definition recordVote (from : NodeID) (granted : bool) : M RN unit :=
  modify (λ r,
    match rn_votes r !! from with
    | Some _ => r
    | None => set_votes (<[from := granted]> (rn_votes r)) r
    end).

Definition votedYes (r : RN) (id : NodeID) : bool :=
  match rn_votes r !! id with Some g => g | None => false end.
Definition votedNo (r : RN) (id : NodeID) : bool :=
  match rn_votes r !! id with Some g => negb g | None => false end.

(** The role change that opens a campaign, with the term it concerns. *)
Definition enterCampaign (preVote : bool) : M RN Term :=
  if preVote then
    becomePreCandidate ;;;
    r <- get ;;
    ret (rn_term r +u 1)
  else
    becomeCandidate ;;;
    r <- get ;;
    let campaignTerm := rn_term r in
    persistHardState ;;;
    ret campaignTerm.

Fixpoint campaign (fuel : nat) (preVote : bool) : M RN unit :=
  match fuel with
  | O => outOfFuel
  | Datatypes.S k =>
      r <- get ;;
      if negb (promotable r) then ret tt
      else
        campaignTerm <- enterCampaign preVote ;;
        recordVote (rn_id r) true ;;;
        done_ <- tallyVotes k ;;
        if (done_ : bool) then ret tt
        else
          r' <- get ;;
          let lastIdx := lastIndex (rn_log r') in
          lastTrm <- on_log (reads lastTerm) ;;
          forEach (Peers (rn_conf r') (rn_id r')) (λ peer,
            if negb (IsVoter (rn_conf r') peer) then ret tt
            else send (voteReqMsg peer campaignTerm preVote lastIdx lastTrm))
  end
with tallyVotes (fuel : nat) : M RN bool :=
  match fuel with
  | O => outOfFuel
  | Datatypes.S k =>
      r <- get ;;
      if HasQuorum (rn_conf r) (votedYes r) then
        if bool_decide (rn_state r = PreCandidate)
        then campaign k false ;;; ret true
        else becomeLeader ;;; ret true
      else if QuorumImpossible (rn_conf r) (votedNo r) then
        becomeFollower (rn_term r) None_ ;;; ret true
      else ret false
  end.

Definition canVote (m : Message) (r : RN) : bool :=
  if m_PreVote m then
    if (m_Term m <=? rn_term r)%N then false
    else (rn_lead r =? None_)%N
         || (rn_randomizedElectionTimeout r <=? rn_electionElapsed r)%Z
  else if (rn_vote r =? m_From m)%N then true
  else if (rn_vote r =? None_)%N && (rn_lead r =? None_)%N then true
  else false.

Definition handleVoteRequest (m : Message) : M RN unit :=
  r <- get ;;
  granted <- (if canVote m r
              then on_log (reads (isUpToDate (m_LastLogIndex m) (m_LastLogTerm m)))
              else ret false) ;;
  (if granted && negb (m_PreVote m) then
     modify (set_vote (m_From m)) ;;;
     modify (set_electionElapsed 0) ;;;
     persistHardState
   else ret tt) ;;;
  let replyTerm := if m_PreVote m && granted then m_Term m else rn_term r in
  send (voteRespMsg (m_From m) replyTerm (m_PreVote m) granted).

Definition handleVoteResponse (m : Message) : M RN unit :=
  r <- get ;;
  if m_PreVote m && negb (bool_decide (rn_state r = PreCandidate))
  then fail (Errorf "raft: pre-vote response in state" [ErrIgnoredMessage])
  else if negb (m_PreVote m) && negb (bool_decide (rn_state r = Candidate))
  then fail (Errorf "raft: vote response in state" [ErrIgnoredMessage])
  else
    recordVote (m_From m) (m_Granted m) ;;;
    tallyVotes callDepth ;;;
    ret tt.

Definition Campaign : M RN unit :=
  r <- get ;;
  campaign callDepth (c_PreVote (rn_cfg r)).

(** ** Read barriers *)

Definition committedInCurrentTerm (r : RN) : outcome bool :=
  if (l_committed (rn_log r) =? 0)%N then Ret false
  else
    match term_at (l_committed (rn_log r)) (rn_log r) with
    | Ret t => Ret (t =? rn_term r)%N
    | Fail _ => Ret false
    | Panic p => Panic p
    | OutOfFuel => OutOfFuel
    end.

Definition acked (acks : gmap NodeID bool) (n : NodeID) : bool := default false (acks !! n).

Definition ReadIndex (id : N) : M RN unit :=
  r <- get ;;
  if negb (bool_decide (rn_state r = Leader)) then fail ErrNotLeader
  else
    ok <- reads committedInCurrentTerm ;;
    if negb ok then fail ErrReadIndexUnavailable
    else
      let req := mkReadRequest id (l_committed (rn_log r)) {[rn_id r := true]} in
      if HasQuorum (rn_conf r) (acked (rr_acks req)) then
        modify (λ r, set_readStates (rn_readStates r ++ [mkReadState (rr_id req) (rr_index req)]) r)
      else
        modify (λ r, set_pendingReads (rn_pendingReads r ++ [req]) r) ;;;
        forEach (Peers (rn_conf r) (rn_id r)) (λ peer, sendAppendWithRead peer id).

(** The loop over [pendingReads]: the barriers before the one acknowledged, the
    confirmed barrier if the acknowledgement completed its quorum, and the
    barriers that still wait. *)
Fixpoint ackLoop (conf : Configuration) (from : NodeID) (readID : N)
    (reqs : list readRequest) : list ReadState * list readRequest :=
  match reqs with
  | [] => ([], [])
  | req :: rest =>
      if negb (rr_id req =? readID)%N then
        let '(confirmed, waiting) := ackLoop conf from readID rest in
        (confirmed, req :: waiting)
      else
        let req' := mkReadRequest (rr_id req) (rr_index req) (<[from := true]> (rr_acks req)) in
        if HasQuorum conf (acked (rr_acks req'))
        then ([mkReadState (rr_id req') (rr_index req')], rest)
        else ([], req' :: rest)
  end.

Definition ackRead (from : NodeID) (readID : N) : M RN unit :=
  modify (λ r,
    let '(confirmed, waiting) := ackLoop (rn_conf r) from readID (rn_pendingReads r) in
    set_pendingReads waiting (set_readStates (rn_readStates r ++ confirmed) r)).

(** Drains the confirmed barriers. *)
Definition ReadStates : M RN (list ReadState) :=
  r <- get ;;
  modify (set_readStates []) ;;;
  ret (rn_readStates r).

Definition PendingReads (r : RN) : Z := Z.of_nat (length (rn_pendingReads r)).

(** ** Receiving appends *)

Definition handleAppendRequest (m : Message) : M RN unit :=
  modify (set_electionElapsed 0) ;;;
  r <- get ;;
  (if negb (bool_decide (rn_state r = Follower))
   then becomeFollower (m_Term m) (m_From m) else ret tt) ;;;
  modify (set_lead (m_From m)) ;;;
  if (m_PrevLogIndex m <? l_committed (rn_log r))%N then
    send (appendRespMsg (m_From m) true (l_committed (rn_log r)) 0 0 (m_ReadID m))
  else
    res <- on_log (maybeAppend (m_PrevLogIndex m) (m_PrevLogTerm m)
                     (m_LeaderCommit m) (m_Entries m)) ;;
    let '(lastNew, ok) := res in
    if negb ok then
      hint <- on_log (reads (conflictHint (m_PrevLogIndex m))) ;;
      send (appendRespMsg (m_From m) false 0 (fst hint) (snd hint) (m_ReadID m))
    else
      refreshConfigurationIfNeeded (m_Entries m) ;;;
      persistHardState ;;;
      send (appendRespMsg (m_From m) true lastNew 0 0 (m_ReadID m)).

(** [for i := last; i >= first && i > 0; i--] over our own terms. *)
Fixpoint lastIndexOfTerm_loop (fuel : nat) (i : Index) (term : Term) (l : raftLog S)
    : outcome (option Index) :=
  match fuel with
  | O => Ret None
  | Datatypes.S k =>
      if (i <? firstIndex l)%N || (i =? 0)%N then Ret None
      else
        match term_at i l with
        | Fail _ => Ret None
        | Ret t =>
            if (t =? term)%N then Ret (Some i)
            else if (t <? term)%N then Ret None
            else lastIndexOfTerm_loop k (i -u 1) term l
        | Panic p => Panic p
        | OutOfFuel => OutOfFuel
        end
  end.

Definition lastIndexOfTerm (term : Term) (r : RN) : outcome (option Index) :=
  let l := rn_log r in
  lastIndexOfTerm_loop (N.to_nat (lastIndex l + 1 - firstIndex l)) (lastIndex l) term l.

Definition nextAfterRejection (pr : Progress) (m : Message) (r : RN) : outcome Index :=
  if (0 <? m_ConflictTerm m)%N then
    let? found := lastIndexOfTerm (m_ConflictTerm m) r in
    match found with
    | Some idx => Ret (idx +u 1)
    | None => Ret (m_ConflictIndex m)
    end
  else if (0 <? m_ConflictIndex m)%N then Ret (m_ConflictIndex m)
  else Ret (p_Next pr -u 1).

(** The acknowledged half of a response, shared with snapshots: [Match] only moves
    forward, and an advance of the commit index is announced at once. *)
Definition acknowledge (from : NodeID) (pr : Progress) (matchIndex : Index) : M RN unit :=
  let pr' :=
    if (p_Match pr <? matchIndex)%N
    then mkProgress matchIndex (matchIndex +u 1) (p_PendingSnapshot pr) (p_SnapshotTicks pr)
    else pr in
  advanced <- (if (p_Match pr <? matchIndex)%N
               then setProgress from pr' ;;; maybeAdvanceCommit callDepth
               else ret false) ;;
  if (advanced : bool) then broadcastAppend
  else
    r <- get ;;
    if (p_Next pr' <=? lastIndex (rn_log r))%N then sendAppend from else ret tt.

Definition handleAppendResponse (m : Message) : M RN unit :=
  r <- get ;;
  if negb (bool_decide (rn_state r = Leader))
  then fail (Errorf "raft: append response to non-leader" [ErrIgnoredMessage])
  else
    match progressOf r (m_From m) with
    | None => fail (Errorf "raft: append response from untracked peer" [ErrIgnoredMessage])
    | Some pr =>
        (if negb (m_ReadID m =? 0)%N then ackRead (m_From m) (m_ReadID m) else ret tt) ;;;
        if m_Success m then acknowledge (m_From m) pr (m_MatchIndex m)
        else
          next <- reads (nextAfterRejection pr m) ;;
          let next := if (next <? 1)%N then 1%N else next in
          let next := if (next <=? p_Match pr)%N then p_Match pr +u 1 else next in
          if (next <? p_Next pr)%N then
            setProgress (m_From m)
              (mkProgress (p_Match pr) next (p_PendingSnapshot pr) (p_SnapshotTicks pr)) ;;;
            sendAppend (m_From m)
          else ret tt
    end.

(** ** Snapshots *)

Definition ShouldSnapshot (r : RN) : bool :=
  if (c_SnapshotThreshold (rn_cfg r) =? 0)%N || (l_applied (rn_log r) =? 0)%N then false
  else
    let first := firstIndex (rn_log r) in
    if (l_applied (rn_log r) <? first)%N then false
    else (c_SnapshotThreshold (rn_cfg r) <=? l_applied (rn_log r) -u first +u 1)%N.

Definition CreateSnapshot (data : bytes) : M RN Snapshot :=
  r <- get ;;
  let applied := l_applied (rn_log r) in
  if (applied =? 0)%N then fail ErrNothingToSnapshot
  else
    term <- wrapErr "raft: term at applied index" (on_log (reads (term_at applied))) ;;
    let snap := mkSnapshot applied term (rn_conf r) data in
    res <- try (on_disk (SaveSnapshot snap)) ;;
    match res with
    | inr e =>
        if errorsIs e ErrSnapshotOutOfDate then fail e
        else fail (Errorf "raft: saving snapshot" [e])
    | inl _ =>
        let keep := c_SnapshotCatchUpEntries (rn_cfg r) in
        if (0 <? keep)%N && (applied <=? keep)%N then ret snap
        else
          let compactTo := if (0 <? keep)%N then applied -u keep else applied in
          r' <- get ;;
          if (compactTo <=? firstIndex (rn_log r') -u 1)%N then ret snap
          else
            wrapErr "raft: compacting" (on_log (log_compact_to compactTo)) ;;;
            ret snap
    end.

(** Hands the driver a snapshot to restore the state machine from, once. *)
Definition SnapshotToApply : M RN (option Snapshot) :=
  r <- get ;;
  modify (set_appliedSnapshot None) ;;;
  ret (rn_appliedSnapshot r).

Definition expirePendingSnapshots : M RN unit :=
  r <- get ;;
  let retryAfter :=
    if (c_SnapshotRetryHeartbeats (rn_cfg r) <=? 0)%Z then defaultSnapshotRetryHeartbeats
    else c_SnapshotRetryHeartbeats (rn_cfg r) in
  forEach (Members (rn_conf r)) (λ id,
    r <- get ;;
    match progressOf r id with
    | None => ret tt
    | Some pr =>
        if (p_PendingSnapshot pr =? 0)%N then ret tt
        else
          let ticks := int_add (p_SnapshotTicks pr) 1 in
          if (retryAfter <=? ticks)%Z
          then setProgress id (mkProgress (p_Match pr) (p_Next pr) 0 0)
          else setProgress id
                 (mkProgress (p_Match pr) (p_Next pr) (p_PendingSnapshot pr) ticks)
    end).

Definition handleSnapshotRequest (m : Message) : M RN unit :=
  modify (set_electionElapsed 0) ;;;
  r <- get ;;
  (if negb (bool_decide (rn_state r = Follower))
   then becomeFollower (m_Term m) (m_From m) else ret tt) ;;;
  modify (set_lead (m_From m)) ;;;
  match m_Snapshot m with
  | None => fail (Errorf "raft: snapshot message carries none" [ErrIgnoredMessage])
  | Some snap =>
      if (snap_LastIncludedIndex snap <=? l_committed (rn_log r))%N then
        send (snapshotRespMsg (m_From m) true (l_committed (rn_log r)))
      else
        res <- try (on_log (log_restore snap)) ;;
        match res with
        | inr e =>
            if errorsIs e ErrSnapshotOutOfDate then
              r' <- get ;;
              send (snapshotRespMsg (m_From m) true (l_committed (rn_log r')))
            else fail (Errorf "raft: restoring snapshot" [e])
        | inl _ =>
            (if negb (Configuration_IsEmpty (snap_Config snap))
             then setConfiguration (snap_Config snap) (snap_LastIncludedIndex snap)
             else ret tt) ;;;
            modify (set_appliedSnapshot (Some snap)) ;;;
            persistHardState ;;;
            send (snapshotRespMsg (m_From m) true (snap_LastIncludedIndex snap))
        end
  end.

Definition handleSnapshotResponse (m : Message) : M RN unit :=
  r <- get ;;
  if negb (bool_decide (rn_state r = Leader))
  then fail (Errorf "raft: snapshot response to non-leader" [ErrIgnoredMessage])
  else
    match progressOf r (m_From m) with
    | None => fail (Errorf "raft: snapshot response from untracked peer" [ErrIgnoredMessage])
    | Some pr =>
        let pr := mkProgress (p_Match pr) (p_Next pr) 0 0 in
        setProgress (m_From m) pr ;;;
        if negb (m_Success m) then ret tt
        else acknowledge (m_From m) pr (m_MatchIndex m)
    end.

(** ** Membership changes *)

Definition ProposeConfChange (target : Configuration) : M RN Index :=
  r <- get ;;
  if negb (bool_decide (rn_state r = Leader)) then fail ErrNotLeader
  else if IsJoint (rn_conf r) then fail ErrConfChangeInProgress
  else if (l_committed (rn_log r) <? rn_confIndex r)%N then fail ErrConfChangeInProgress
  else
    ok <- reads committedInCurrentTerm ;;
    if negb ok then fail ErrReadIndexUnavailable
    else
      match EnterJoint (rn_conf r) target with
      | Ret cc => propose callDepth EntryConfChange (Encode cc)
      | Fail e => fail (Errorf ": " [ErrConfChangeInvalid; e])
      | Panic p => panic p
      | OutOfFuel => outOfFuel
      end.

(** ** Tick *)

Definition tickElection : M RN unit :=
  modify (λ r, set_electionElapsed (int_add (rn_electionElapsed r) 1) r) ;;;
  r <- get ;;
  if negb (promotable r) || (rn_electionElapsed r <? rn_randomizedElectionTimeout r)%Z
  then ret tt
  else
    modify (set_electionElapsed 0) ;;;
    campaign callDepth (c_PreVote (rn_cfg r)).

Definition tickHeartbeat : M RN unit :=
  modify (λ r, set_heartbeatElapsed (int_add (rn_heartbeatElapsed r) 1) r) ;;;
  modify (λ r, set_electionElapsed (int_add (rn_electionElapsed r) 1) r) ;;;
  r <- get ;;
  if (rn_heartbeatElapsed r <? c_HeartbeatTick (rn_cfg r))%Z then ret tt
  else
    modify (set_heartbeatElapsed 0) ;;;
    expirePendingSnapshots ;;;
    broadcastAppend ;;;
    r' <- get ;;
    forEach (rn_pendingReads r') (λ req,
      forEach (Peers (rn_conf r') (rn_id r')) (λ peer, sendAppendWithRead peer (rr_id req))).

Definition Tick : M RN unit :=
  r <- get ;;
  if bool_decide (rn_state r = Leader) then tickHeartbeat else tickElection.

(** ** Step *)

Definition stepHigherTerm (m : Message) : M RN unit :=
  match m_Type m, m_PreVote m, m_Granted m with
  | MsgVoteReq, true, _ => ret tt
  | MsgVoteResp, true, true => ret tt
  | (MsgAppendReq | MsgSnapshotReq), _, _ =>
      becomeFollower (m_Term m) (m_From m) ;;; persistHardState
  | _, _, _ => becomeFollower (m_Term m) None_ ;;; persistHardState
  end.

Definition stepLowerTerm (m : Message) : M RN unit :=
  (match m_Type m with
   | MsgAppendReq | MsgSnapshotReq => send (appendRespMsg (m_From m) false 0 0 0 0)
   | MsgVoteReq => send (voteRespMsg (m_From m) 0 (m_PreVote m) false)
   | _ => ret tt
   end) ;;;
  fail (Errorf "raft: term below current" [ErrIgnoredMessage]).

Definition dispatch (m : Message) : M RN unit :=
  match m_Type m with
  | MsgVoteReq => handleVoteRequest m
  | MsgVoteResp => handleVoteResponse m
  | MsgAppendReq => handleAppendRequest m
  | MsgAppendResp => handleAppendResponse m
  | MsgSnapshotReq => handleSnapshotRequest m
  | MsgSnapshotResp => handleSnapshotResponse m
  | MsgUnknown _ => fail (Errorf "raft: unhandled message type" [ErrIgnoredMessage])
  end.

Definition Step (m : Message) : M RN unit :=
  r <- get ;;
  if negb (m_To m =? rn_id r)%N && negb (m_To m =? None_)%N
  then fail (Errorf "raft: message addressed to another node" [ErrIgnoredMessage])
  else if (rn_term r <? m_Term m)%N then stepHigherTerm m ;;; dispatch m
  else if (m_Term m <? rn_term r)%N then stepLowerTerm m
  else dispatch m.

(** ** Applying *)

Definition CommittedEntries (r : RN) : outcome (list LogEntry) :=
  entriesToApply (c_MaxApplyEntries (rn_cfg r)) (rn_log r).
Definition HasCommittedEntries (r : RN) : bool := hasEntriesToApply (rn_log r).
Definition ApplyTo (i : Index) : M RN unit := on_log (appliedTo i).

(** ** Starting a node *)

Definition NewRawNode (cfg : Config) (storage : option S) (rand : option G) : outcome RN :=
  let? _ := validate cfg storage rand in
  match storage, rand with
  | Some st, Some g =>
      match InitialState st with
      | Fail e => Fail (Errorf "raft: reading initial state" [e])
      | Panic p => Panic p
      | OutOfFuel => OutOfFuel
      | Ret (hs, snap) =>
          let? rlog := newRaftLog st in
          let fromSnap := negb (Configuration_IsEmpty (snap_Config snap)) in
          let r0 := mkRawNode (c_ID cfg) cfg g (hs_Term hs) (hs_Vote hs) hs rlog Follower None_
                      (if fromSnap then snap_Config snap else c_Bootstrap cfg)
                      (if fromSnap then snap_LastIncludedIndex snap else 0%N)
                      (c_Bootstrap cfg) ∅ None 0 0 0 [] [] None [] in
          match (refreshConfiguration ;;; becomeFollower (hs_Term hs) None_) r0 with
          | (Ret _, r) => Ret r
          | (Fail e, _) => Fail e
          | (Panic p, _) => Panic p
          | (OutOfFuel, _) => OutOfFuel
          end
      end
  | _, _ => Panic "nil pointer dereference"
  end.

Lemma set_log_id (r : RN) : set_log (rn_log r) r = r.
Proof. by destruct r. Qed.
End rawnode.

(** An implementation of [Rand] without jitter, for examples. *)
#[export] Instance no_jitter : Rand unit := { Intn := λ _ g, (0%Z, g) }.
