(* ===== verification/Membership.v ===== *)
(** * The configuration in force

    raft/confchange.go derives a node's configuration from its log: the newest
    configuration entry, else the snapshot's, else the bootstrap one.  [in_force]
    is that rule on the abstract log.  The theorems: [refreshConfiguration]
    computes it; [refreshConfigurationIfNeeded], which looks only at the entries of
    one message, always leaves the node with the same configuration a full
    recomputation would give; installing a snapshot does not. *)

From S2P Require Import Prelude Varint Types Config Storage RaftLog RawNode.

(** ** The rule *)

Definition conf_of (e : LogEntry) : option Configuration :=
  match e_Type e with
  | EntryConfChange =>
      match DecodeConfChange (e_Command e) with Ret cc => Some (cc_Config cc) | _ => None end
  | _ => None
  end.

(** The newest configuration entry, with its index. *)
Definition newest_conf (ents : list LogEntry) : option (Configuration * Index) :=
  foldl (λ acc e, match conf_of e with Some c => Some (c, e_Index e) | None => acc end)
    None ents.

Definition in_force (d : Disk) (bootstrap : Configuration) : Configuration * Index :=
  match newest_conf (d_entries d) with
  | Some found => found
  | None =>
      let snap := d_snapshot d in
      if negb (Configuration_IsEmpty (snap_Config snap))
      then (snap_Config snap, snap_LastIncludedIndex snap)
      else (bootstrap, 0%N)
  end.

(** Configuration entries can be read, and what they say can be written again. *)
Definition conf_entry_ok `{Vetting} (e : LogEntry) : Prop :=
  e_Type e = EntryConfChange →
  ∃ cc, DecodeConfChange (e_Command e) = Ret cc ∧ conf_writable (cc_Config cc).

Lemma newest_conf_snoc l e :
  newest_conf (l ++ [e]) =
  match conf_of e with Some c => Some (c, e_Index e) | None => newest_conf l end.
Proof. unfold newest_conf. by rewrite foldl_app. Qed.

Lemma newest_conf_app l k :
  newest_conf (l ++ k) =
  match newest_conf k with Some x => Some x | None => newest_conf l end.
Proof.
  induction k as [|e k IH] using rev_ind; [by rewrite app_nil_r|].
  rewrite app_assoc, !newest_conf_snoc, IH. by destruct (conf_of e).
Qed.

Lemma newest_conf_Some l c i :
  newest_conf l = Some (c, i) → ∃ e, e ∈ l ∧ conf_of e = Some c ∧ e_Index e = i.
Proof.
  induction l as [|e l IH] using rev_ind; [done|]. rewrite newest_conf_snoc.
  destruct (conf_of e) as [c'|] eqn:E.
  - intros [= <- <-]. exists e. rewrite elem_of_app, list_elem_of_singleton. auto.
  - intros (e' & ? & ?)%IH. exists e'. rewrite elem_of_app. auto.
Qed.

Lemma newest_conf_None l :
  (∀ e, e ∈ l → e_Type e ≠ EntryConfChange) → newest_conf l = None.
Proof.
  intros Hl. destruct (newest_conf l) as [[c i]|] eqn:E; [|done].
  apply newest_conf_Some in E as (e & He & Hc & _). apply Hl in He.
  unfold conf_of in Hc. by destruct (e_Type e).
Qed.

Section membership.
Context {S G : Type} `{Hst : Storage S} `{HL : !LogLaws S} `{Hrand : Rand G} `{HV : Vetting}.
Local Abbreviation RN := (RawNode S G).
Implicit Types (r : RN) (l : raftLog S).

Definition entries_ok l : Prop := Forall conf_entry_ok (d_entries (log_disk l)).

(** The scan of the log from its end. *)
Lemma latestConf_prefix l n :
  log_ok l → entries_ok l → (n ≤ length (d_entries (log_disk l)))%nat →
  latestConf n (d_base (log_disk l) + N.of_nat n) l =
  Ret (newest_conf (take n (d_entries (log_disk l)))).
Proof.
  intros Hok He. pose proof (log_ok_disk l Hok) as (Hc & HW & _). unfold d_last in HW.
  induction n as [|n IH]; intros Hn; [done|]. cbn [latestConf].
  rewrite (firstIndex_spec l Hok), (proj2 (N.ltb_ge _ _)), (proj2 (N.eqb_neq _ _)) by lia.
  cbn [orb]. destruct (lookup_lt_is_Some_2 (d_entries (log_disk l)) n) as [e Hlk]; [lia|].
  pose proof (log_entry (l_storage l) (d_base (log_disk l) + N.of_nat (Datatypes.S n))
    (proj1 Hok)) as HG. fold (log_disk l) in HG.
  assert (disk_entry (log_disk l) (d_base (log_disk l) + N.of_nat (Datatypes.S n)) = Some e) as HD.
  { unfold disk_entry. rewrite (proj2 (N.leb_gt _ _)) by lia. rewrite <- Hlk. f_equal. lia. }
  destruct (GetEntry _ _) as [e'| | |]; [|by destruct HG; congruence|done..].
  rewrite HD in HG. injection HG as <-.
  rewrite (take_S_r _ _ _ Hlk), newest_conf_snoc. unfold conf_of.
  pose proof (Forall_lookup_1 _ _ _ _ He Hlk) as Hce. unfold conf_entry_ok in Hce.
  destruct (e_Type e) eqn:ET.
  3: { destruct Hce as (cc & -> & _); [done|]. rewrite (Hc _ _ Hlk). do 3 f_equal. lia. }
  all: rewrite u64_sub_small by lia; rewrite <- IH by lia; f_equal; lia.
Qed.

Lemma latestConf_spec l :
  log_ok l → entries_ok l →
  latestConf (N.to_nat (lastIndex l + 1 - firstIndex l)) (lastIndex l) l =
  Ret (newest_conf (d_entries (log_disk l))).
Proof.
  intros Hok He. rewrite (firstIndex_spec l Hok), (lastIndex_spec l Hok).
  pose proof (latestConf_prefix l (length (d_entries (log_disk l))) Hok He) as HP.
  rewrite firstn_all in HP. unfold d_last. rewrite <- HP by lia. f_equal. lia.
Qed.

(** A call that changed only the configuration, its index and the tracking of
    peers. *)
Definition reconfigured r r' : Prop :=
  ∃ c i p, r' = set_conf c (set_confIndex i (set_progress p r)).

Lemma reconfigured_refl r : reconfigured r r.
Proof. exists (rn_conf r), (rn_confIndex r), (rn_progress r). by destruct r. Qed.

Lemma Configuration_Equal_true c c' : Configuration_Equal c c' = true → c = c'.
Proof.
  unfold Configuration_Equal. destruct c, c'. cbn.
  rewrite !andb_true_iff, !bool_decide_eq_true. by intros [[-> ->] ->].
Qed.

Lemma setConfiguration_wp r c i :
  wp (setConfiguration c i)
     (λ _ r', reconfigured r r' ∧ (rn_conf r', rn_confIndex r') = (c, i))
     (λ _ _, False) (λ _, False) r.
Proof.
  unfold setConfiguration. wp_pure.
  destruct (Configuration_Equal (rn_conf r) c && (rn_confIndex r =? i)%N) eqn:E.
  - apply andb_true_iff in E as [<-%Configuration_Equal_true <-%N.eqb_eq].
    wp_pure. split; [apply reconfigured_refl|done].
  - wp_pure. case_match.
    + unfold refreshProgress. wp_pure. case_match; wp_pure; (split; [|done]).
      * eexists c, i, _. reflexivity.
      * exists c, i, (rn_progress r). by destruct r.
    + wp_pure. split; [|done]. exists c, i, (rn_progress r). by destruct r.
Qed.

Lemma refreshConfiguration_wp r :
  log_ok (rn_log r) → entries_ok (rn_log r) →
  wp refreshConfiguration
     (λ _ r', reconfigured r r' ∧
        (rn_conf r', rn_confIndex r') = in_force (log_disk (rn_log r)) (rn_bootstrap r))
     (λ _ _, False) (λ _, False) r.
Proof.
  intros Hok He. unfold refreshConfiguration. wp_pure. apply wp_reads.
  rewrite (latestConf_spec _ Hok He). unfold in_force.
  destruct (newest_conf _) as [[c i]|]; [apply setConfiguration_wp|].
  unfold disk_of. rewrite (log_load _ (proj1 Hok)). fold (log_disk (rn_log r)).
  case_match; apply setConfiguration_wp.
Qed.

(** ** The shortcut *)

(** The node's configuration is the one its log prescribes. *)
Definition conf_current r : Prop :=
  (rn_conf r, rn_confIndex r) = in_force (log_disk (rn_log r)) (rn_bootstrap r).

(** Overwriting a tail that holds no configuration entry, with entries that hold
    none either, leaves the newest one where it was. *)
Lemma newest_conf_write d f ents :
  contiguous_from (d_base d + 1) (d_entries d) → (d_base d < f)%N →
  (∀ e, e ∈ ents → e_Type e ≠ EntryConfChange) →
  (∀ c i, newest_conf (d_entries d) = Some (c, i) → (i < f)%N) →
  newest_conf (d_entries (disk_write f ents d)) = newest_conf (d_entries d).
Proof.
  intros Hc Hf Hents Hold. cbn. rewrite newest_conf_app, (newest_conf_None ents) by done.
  set (n := N.to_nat (f - d_base d - 1)) in *.
  rewrite <- (firstn_skipn n (d_entries d)) at 2. rewrite newest_conf_app.
  destruct (newest_conf (drop n (d_entries d))) as [[c i]|] eqn:E; [|done].
  exfalso. assert (newest_conf (d_entries d) = Some (c, i)) as Hfull.
  { rewrite <- (firstn_skipn n (d_entries d)), newest_conf_app. by rewrite E. }
  apply Hold in Hfull. apply newest_conf_Some in E as (e & He & _ & <-).
  apply list_elem_of_lookup_1 in He as [j Hj].
  rewrite lookup_drop in Hj. apply Hc in Hj. lia.
Qed.

Lemma in_force_write d f ents boot :
  newest_conf (d_entries (disk_write f ents d)) = newest_conf (d_entries d) →
  in_force (disk_write f ents d) boot = in_force d boot.
Proof. unfold in_force. by intros ->. Qed.

(** The test [refreshConfigurationIfNeeded] makes. *)
Definition conf_changed r (ents : list LogEntry) : bool :=
  (lastIndex (rn_log r) <? rn_confIndex r)%N ||
  existsb (λ e, bool_decide (e_Type e = EntryConfChange) ||
                ((0 <? rn_confIndex r)%N && (e_Index e <=? rn_confIndex r)%N)) ents.

Lemma conf_changed_false r ents e :
  conf_changed r ents = false → e ∈ ents →
  e_Type e ≠ EntryConfChange ∧ (rn_confIndex r = 0%N ∨ (rn_confIndex r < e_Index e)%N).
Proof.
  unfold conf_changed. rewrite orb_false_iff. intros [_ Hex] He.
  apply not_true_iff_false in Hex. rewrite existsb_exists in Hex.
  destruct (decide (e_Type e = EntryConfChange)) as [|Hne].
  { exfalso. apply Hex. exists e. split; [by apply list_elem_of_In|]. by rewrite bool_decide_true. }
  split; [done|]. destruct (N.ltb_spec 0 (rn_confIndex r)); [|left; lia].
  destruct (N.leb_spec (e_Index e) (rn_confIndex r)) as [Hle|]; [|by right].
  exfalso. apply Hex. exists e. split; [by apply list_elem_of_In|].
  rewrite (proj2 (N.leb_le _ _) Hle). by rewrite orb_true_r.
Qed.

(** If the test says no, the configuration prescribed by the log did not move. *)
Lemma unchanged_in_force r l prevIdx leaderCommit ents boot :
  log_ok l → contiguous_from (prevIdx + 1) ents →
  appended l prevIdx leaderCommit ents (rn_log r) →
  (rn_conf r, rn_confIndex r) = in_force (log_disk l) boot →
  conf_changed r ents = false →
  in_force (log_disk (rn_log r)) boot = in_force (log_disk l) boot.
Proof.
  intros Hok Hc (_ & _ & _ & [->|(k & Hk & Hcom & [Hall _] & ->)]) Hcur Hun; [done|].
  pose proof (log_ok_base l Hok) as HB. pose proof Hok as (_ & _ & HC & _).
  pose proof (log_ok_disk l Hok) as (Hcd & _).
  destruct (lookup_lt_is_Some_2 ents k Hk) as [e He]. pose proof (Hc _ _ He) as Hi.
  apply in_force_write, newest_conf_write; [done|lia|..].
  - intros x Hx. apply (conf_changed_false r ents x Hun).
    rewrite <- (take_drop k ents). apply elem_of_app. by right.
  - intros c i Hnew. unfold in_force in Hcur. rewrite Hnew in Hcur. injection Hcur as _ Ei.
    destruct (conf_changed_false r ents e Hun) as [_ [E0|Hlt]];
      [by eapply list_elem_of_lookup_2|..]; [|lia].
    apply newest_conf_Some in Hnew as (x & Hx & _ & Hxi).
    apply list_elem_of_lookup_1 in Hx as [j Hj]. apply Hcd in Hj. lia.
Qed.

Lemma refreshIfNeeded_wp r l prevIdx leaderCommit ents :
  log_ok l → log_ok (rn_log r) → entries_ok (rn_log r) → contiguous_from (prevIdx + 1) ents →
  appended l prevIdx leaderCommit ents (rn_log r) →
  (rn_conf r, rn_confIndex r) = in_force (log_disk l) (rn_bootstrap r) →
  wp (refreshConfigurationIfNeeded ents) (λ _ r', reconfigured r r' ∧ conf_current r')
     (λ _ _, False) (λ _, False) r.
Proof.
  intros Hok Hok' He Hc Happ Hcur. unfold refreshConfigurationIfNeeded. wp_pure.
  change (wp (if negb (conf_changed r ents) then ret tt else refreshConfiguration)
    (λ _ r', reconfigured r r' ∧ conf_current r') (λ _ _, False) (λ _, False) r).
  destruct (conf_changed r ents) eqn:EC; cbn [negb].
  - eapply wp_mono; [by apply refreshConfiguration_wp|..]; [|done..]. cbn beta.
    intros _ r' [Hre Hf]. split; [done|]. destruct Hre as (c & i & p & ->). exact Hf.
  - wp_pure. split; [apply reconfigured_refl|]. unfold conf_current.
    by rewrite (unchanged_in_force r l prevIdx leaderCommit ents).
Qed.

(** [refreshConfiguration] adopts the configuration the log prescribes: the
    newest configuration entry, or the snapshot's configuration, or the bootstrap
    one; it never fails on a log whose configuration entries decode, and changes
    nothing but the configuration, its index and the tracking of peers. *)
Theorem refreshConfiguration_spec r :
  log_ok (rn_log r) → entries_ok (rn_log r) →
  wp refreshConfiguration (λ _ r', reconfigured r r' ∧ conf_current r')
     (λ _ _, False) (λ _, False) r.
Proof.
  intros Hok He. eapply wp_mono; [by apply refreshConfiguration_wp|..]; [|done..]. cbn beta.
  intros _ r' [Hre Hf]. split; [done|]. destruct Hre as (c & i & p & ->). exact Hf.
Qed.

(** The shortcut taken after an append is exact.  A node whose configuration was
    the one its log prescribed still has the prescribed one after
    [refreshConfigurationIfNeeded], although that only looks at the entries of the
    message: entries that carried, truncated or overwrote a configuration are all
    noticed. *)
Theorem refreshConfigurationIfNeeded_exact r l prevIdx leaderCommit ents :
  log_ok l → log_ok (rn_log r) → entries_ok (rn_log r) → contiguous_from (prevIdx + 1) ents →
  appended l prevIdx leaderCommit ents (rn_log r) →
  (rn_conf r, rn_confIndex r) = in_force (log_disk l) (rn_bootstrap r) →
  wp (refreshConfigurationIfNeeded ents) (λ _ r', reconfigured r r' ∧ conf_current r')
     (λ _ _, False) (λ _, False) r.
Proof. apply refreshIfNeeded_wp. Qed.
End membership.

(** ** Where the configuration and the log part ways *)

(** Voters {1,2,3}; the entry at index 3 moves to {1,2,3,4}. *)
Definition three : Configuration := mkConfiguration [1; 2; 3]%N [] [].
Definition four : Configuration := mkConfiguration [1; 2; 3; 4]%N [] [].
Definition change_entry : LogEntry :=
  mkEntry 1 3 EntryConfChange (Encode (mkConfChange ConfChangeLeaveJoint four)).

(** A follower that has committed and applied up to [applied] and holds the
    uncommitted change. *)
Definition follower_with_change (committed applied : Index) : RawNode MemoryStorage unit :=
  mkRawNode 2 (mkConfig 2 10 1 false three 0 0 0 0 0) tt 1 0 (mkHardState 1 0 committed)
    (mkRaftLog (mkMemoryStorage (mkHardState 1 0 committed) zeroSnapshot
                  [zeroEntry; mkEntry 1 1 EntryNormal []; mkEntry 1 2 EntryNormal [];
                   change_entry]) committed applied)
    Follower 1 four 3 three ∅ None 0 0 10 [] [] None [].

Definition snapshot_at_2 : Snapshot := mkSnapshot 2 1 three [].

Lemma follower_with_change_ok c a :
  (a ≤ c)%N → (c ≤ 3)%N →
  log_ok (rn_log (follower_with_change c a)) ∧ entries_ok (rn_log (follower_with_change c a)) ∧
  conf_current (follower_with_change c a).
Proof.
  intros Ha Hc. split; [|split].
  - split; [|by cbn; split_and!; [lia| |unfold d_last; cbn; lia]].
    split; [done|]. split; [contiguous|by vm_compute].
  - repeat apply Forall_cons_2; try apply Forall_nil_2; try done.
    intros _. exists (mkConfChange ConfChangeLeaveJoint four). split; [by vm_compute|].
    repeat first [done | apply Forall_nil_2 | apply Forall_cons_2 | split].
  - by vm_compute.
Qed.

(** Installing a snapshot can take the configuration back.  A follower whose log
    agrees with the snapshot at its boundary keeps the entries above it, among them
    a configuration change, and yet adopts the snapshot's older configuration: its
    configuration is no longer the one its log prescribes. *)
Theorem snapshot_install_regresses :
  let r := follower_with_change 1 1 in
  let m := addressed 1 1 (snapshotReqMsg 2 snapshot_at_2) in
  conf_current r ∧
  ∃ r', Step m r = (Ret tt, r') ∧ rn_conf r' = three ∧
        fst (in_force (log_disk (rn_log r')) (rn_bootstrap r')) = four ∧ ¬ conf_current r'.
Proof.
  split; [by apply follower_with_change_ok; lia|].
  eexists. split; [by vm_compute|]. split; [done|]. split; [by vm_compute|].
  intros H. by vm_compute in H.
Qed.

(** A snapshot taken locally records the configuration of the whole log, not the
    one in force at its boundary: with index 2 applied and an uncommitted change at
    index 3, the snapshot at index 2 carries the configuration of index 3. *)
Theorem snapshot_carries_uncommitted_conf :
  let r := follower_with_change 2 2 in
  conf_current r ∧
  ∃ r', CreateSnapshot [] r = (Ret (mkSnapshot 2 1 four []), r') ∧
        fst (in_force (mkDisk zeroSnapshot 0 0
               (take 2 (d_entries (log_disk (rn_log r))))) (rn_bootstrap r)) = three.
Proof.
  split; [by apply follower_with_change_ok; lia|].
  eexists. split; by vm_compute.
Qed.

Lemma refreshConfiguration_spec_witness :
  ∃ r', refreshConfiguration (follower_with_change 1 1) = (Ret tt, r') ∧ conf_current r'.
Proof.
  destruct (follower_with_change_ok 1 1) as (Hok & He & _); [lia..|].
  destruct (wp_returns _ _ _ (refreshConfiguration_spec (follower_with_change 1 1) Hok He))
    as ([] & r' & E & _ & Hcur). by exists r'.
Defined.

(** The leader overwrites the change at index 3 with an ordinary entry of term 2. *)
Definition overwriting : list LogEntry := [mkEntry 2 3 EntryNormal []].
Definition overwritten : RawNode MemoryStorage unit :=
  set_log (snd (maybeAppend 2 1 0 overwriting (rn_log (follower_with_change 1 1))))
    (follower_with_change 1 1).

Lemma refreshConfigurationIfNeeded_exact_witness :
  ∃ r', refreshConfigurationIfNeeded overwriting overwritten = (Ret tt, r') ∧
        conf_current r' ∧ rn_conf r' = three.
Proof.
  destruct (follower_with_change_ok 1 1) as (Hok & He & Hcur); [lia..|].
  assert (contiguous_from (2 + 1) overwriting) as Hc by contiguous.
  pose proof (maybeAppend_wp (rn_log (follower_with_change 1 1)) 2 1 0 overwriting Hok Hc) as HW.
  destruct (maybeAppend 2 1 0 overwriting (rn_log (follower_with_change 1 1)))
    as [o l'] eqn:E.
  assert (o = Ret (3%N, true)) as -> by (vm_compute in E; by simplify_eq).
  unfold wp in HW. rewrite E in HW. destruct HW as (Hok' & _ & _ & _ & Happ); [by vm_compute|].
  assert (overwritten = set_log l' (follower_with_change 1 1)) as Ho
    by (unfold overwritten; by rewrite E).
  destruct (wp_returns _ _ _ (refreshConfigurationIfNeeded_exact overwritten
    (rn_log (follower_with_change 1 1)) 2 0 overwriting Hok
    ltac:(by rewrite Ho) ltac:(repeat apply Forall_cons_2; by try apply Forall_nil_2) Hc
    ltac:(by rewrite Ho) Hcur)) as ([] & r' & E' & _ & Hcur').
  exists r'. split_and!; [done..|]. vm_compute in E'. by simplify_eq.
Defined.
