(* ===== verification/NodeSafety.v ===== *)
(** * No call panics

    Every method of RawNode.v, on a well-formed node and a well-formed message,
    returns or reports an error: none of the explicit panics of the source, no nil
    dereference and no out-of-range slice is reachable, and the recursive calls end
    within [callDepth].  The invariant [node_ok] (the log's invariant, readable
    configurations, only voters campaign) is kept, committed entries never change
    and the commit and apply indexes never move back.  The messages a node sends
    satisfy [msg_ok], what the receiver relies on. *)

From S2P Require Import Prelude Varint Types Config Storage RaftLog RawNode Membership.

Create HintDb safe discriminated.

(** ** Well-formed messages *)

Definition msg_ok `{Vetting} (m : Message) : Prop :=
  contiguous_from (m_PrevLogIndex m + 1) (m_Entries m) ∧
  (m_PrevLogIndex m + N.of_nat (length (m_Entries m)) + 1 < W64)%N ∧
  Forall conf_entry_ok (m_Entries m) ∧
  (∀ snap, m_Snapshot m = Some snap →
     (snap_LastIncludedIndex snap + 1 < W64)%N ∧ snap_ok snap) ∧
  known (m_From m) ∧ known (m_To m).

(** Messages that carry neither entries nor a snapshot. *)
Lemma msg_ok_plain `{Vetting} m :
  m_Entries m = [] → m_Snapshot m = None → (m_PrevLogIndex m + 1 < W64)%N →
  known (m_From m) → known (m_To m) → msg_ok m.
Proof.
  intros HE HS Hp Hf Ht. unfold msg_ok. rewrite HE, HS. cbn. split_and!; [by intros []|lia|done..].
Qed.

Lemma conf_encodable_normalize c : conf_encodable c → conf_encodable (normalize c).
Proof.
  assert (∀ l : list N, (length (slices_Compact l) ≤ length l)%nat) as Hcompact.
  { intros l. induction l as [|x [|y l] IH]; [done..|]. rewrite slices_Compact_cons.
    case_match; cbn in *; lia. }
  assert (∀ l : list N, (length (sortedUnique l) ≤ length l)%nat) as Hlen.
  { intros l. unfold sortedUnique. destruct l as [|x l]; [done|].
    etrans; [apply Hcompact|]. apply Nat.eq_le_incl, Permutation_length, slices_Sort_Permutation. }
  assert (∀ l : list N, Forall (λ i, (i < W64)%N) l ∧ (N.of_nat (length l) ≤ maxNodeIDCap)%N →
            Forall (λ i, (i < W64)%N) (sortedUnique l) ∧
            (N.of_nat (length (sortedUnique l)) ≤ maxNodeIDCap)%N) as Hsu.
  { intros l [Hl Hn]. pose proof (Hlen l). split; [|lia].
    apply Forall_forall. intros x Hx. rewrite elem_of_sortedUnique in Hx.
    rewrite Forall_forall in Hl. by apply Hl. }
  unfold conf_encodable. rewrite !Forall_cons. intros (Hv & Ho & Hl & _).
  cbn [normalize Voters OldVoters Learners].
  split; [by apply Hsu|]. split; [by apply Hsu|]. split; [|constructor].
  apply Hsu in Hl as [Hl Hn]. split.
  - apply Forall_forall. intros x Hx. rewrite elem_of_DeleteFunc in Hx.
    rewrite Forall_forall in Hl. by apply Hl, Hx.
  - etrans; [|exact Hn]. unfold slices_DeleteFunc.
    pose proof (length_filter (λ x : N, slices_Contains (sortedUnique (Voters c)) x
      || slices_Contains (sortedUnique (OldVoters c)) x = false) (sortedUnique (Learners c))).
    lia.
Qed.

Section node_safety.
Context {S G : Type} `{Hst : Storage S} `{HL : !LogLaws S} `{Hrand : Rand G} `{HVet : Vetting}.
Local Abbreviation RN := (RawNode S G).
Implicit Types (r : RN) (l : raftLog S).

Definition last_of r : Index := d_last (log_disk (rn_log r)).

Definition node_ok r : Prop :=
  log_ok (rn_log r) ∧ entries_ok (rn_log r) ∧
  snap_ok (d_snapshot (log_disk (rn_log r))) ∧
  conf_ok (rn_bootstrap r) ∧ conf_ok (rn_conf r) ∧
  (rn_state r = PreCandidate ∨ rn_state r = Candidate →
     IsVoter (rn_conf r) (rn_id r) = true) ∧
  known (rn_id r) ∧
  (∀ snap, rn_appliedSnapshot r = Some snap → imaged (snap_Data snap)).

(** Only well-formed messages join the outbox. *)
Definition outbox_ok r r' : Prop := ∀ m, m ∈ rn_msgs r' → m ∈ rn_msgs r ∨ msg_ok m.

(** A call that leaves log, indexes and configuration alone. *)
Definition still r r' : Prop :=
  node_ok r' ∧ log_same (rn_log r) (rn_log r') ∧
  rn_id r' = rn_id r ∧ rn_bootstrap r' = rn_bootstrap r ∧ rn_conf r' = rn_conf r ∧
  (rn_state r' = rn_state r ∨ rn_state r' = Follower) ∧ outbox_ok r r'.

(** A log that only gained entries at its end: what was there, committed or not, is
    unchanged. *)
Definition log_appends l l' : Prop :=
  log_extends l l' ∧ (d_last (log_disk l) ≤ d_last (log_disk l'))%N ∧
  (∀ i, (d_base (log_disk l') < i)%N → (i ≤ d_last (log_disk l))%N →
     disk_entry (log_disk l') i = disk_entry (log_disk l) i).

(** A call that adds at most [n] entries of its own. *)
Definition grows (n : N) r r' : Prop :=
  node_ok r' ∧ log_appends (rn_log r) (rn_log r') ∧
  rn_id r' = rn_id r ∧ rn_bootstrap r' = rn_bootstrap r ∧
  (last_of r' ≤ last_of r + n)%N ∧ outbox_ok r r'.

Definition safe {A} (m : M RN A) : Prop :=
  ∀ r, node_ok r → wp m (λ _, still r) (λ _, still r) (λ _, False) r.

Lemma outbox_ok_trans r1 r2 r3 : outbox_ok r1 r2 → outbox_ok r2 r3 → outbox_ok r1 r3.
Proof. intros H1 H2 m Hm. destruct (H2 m Hm); auto. Qed.

Lemma log_appends_disk l l' :
  log_extends l l' → log_disk l' = log_disk l → log_appends l l'.
Proof. intros He Hd. split; [done|]. rewrite Hd. by split. Qed.

Lemma log_appends_trans l1 l2 l3 : log_appends l1 l2 → log_appends l2 l3 → log_appends l1 l3.
Proof.
  intros (E1 & L1 & H1) (E2 & L2 & H2). split; [by eapply log_extends_trans|].
  split; [lia|]. intros i Hi Hl. rewrite H2 by lia. apply H1; [|done].
  destruct E2 as (_ & _ & Hb & _). lia.
Qed.

Lemma still_refl r : node_ok r → still r r.
Proof. intros Hr. split; [done|]. split_and!; try done; by left. Qed.

Lemma still_trans r1 r2 r3 : still r1 r2 → still r2 r3 → still r1 r3.
Proof.
  intros (_ & (D1 & C1 & A1) & I1 & B1 & F1 & S1 & O1) (N2 & (D2 & C2 & A2) & I2 & B2 & F2 & S2 & O2).
  split; [done|]. split; [by split_and!; congruence|].
  split_and!; try congruence; [destruct S2 as [->|]; auto|by eapply outbox_ok_trans].
Qed.

Lemma still_last r r' : still r r' → last_of r' = last_of r.
Proof. unfold last_of. by intros (_ & (-> & _) & _). Qed.

Lemma still_grows r r' : still r r' → grows 0 r r'.
Proof.
  intros Hs. pose proof (still_last r r' Hs) as HE.
  destruct Hs as (N1 & L1 & I1 & B1 & _ & _ & O1).
  split; [done|]. split_and!; [|done..|lia|done].
  apply log_appends_disk; [by apply log_same_extends|apply L1].
Qed.

Lemma grows_trans n1 n2 n r1 r2 r3 :
  grows n1 r1 r2 → grows n2 r2 r3 → (n1 + n2 ≤ n)%N → grows n r1 r3.
Proof.
  intros (_ & L1 & I1 & B1 & E1 & O1) (N2 & L2 & I2 & B2 & E2 & O2) Hn.
  split; [done|]. split; [by eapply log_appends_trans|].
  split_and!; [congruence..|lia|by eapply outbox_ok_trans].
Qed.

Lemma grows_weaken n n' r r' : grows n r r' → (n ≤ n')%N → grows n' r r'.
Proof.
  intros (N1 & L1 & I1 & B1 & E1 & O1) Hn. split; [done|]. split_and!; try done. lia.
Qed.

Lemma still_then_grows n r1 r2 r3 : still r1 r2 → grows n r2 r3 → grows n r1 r3.
Proof. intros H1%still_grows H2. eapply grows_trans; [done..|lia]. Qed.

Lemma grows_then_still n r1 r2 r3 : grows n r1 r2 → still r2 r3 → grows n r1 r3.
Proof. intros H1 H2%still_grows. eapply grows_trans; [done..|lia]. Qed.

(** ** Safe code *)

Lemma safe_ret {A} (a : A) : safe (ret a).
Proof. intros r Hr. by apply still_refl. Qed.

Lemma safe_fail {A} e : safe (A:=A) (fail e).
Proof. intros r Hr. by apply still_refl. Qed.

Lemma safe_get : safe get.
Proof. intros r Hr. by apply still_refl. Qed.

Lemma safe_bind {A B} (m : M RN A) (f : A → M RN B) :
  safe m → (∀ a, safe (f a)) → safe (bind m f).
Proof.
  intros Hm Hf r Hr. apply wp_bind. eapply wp_mono; [by apply Hm|..]; [|done..].
  cbn. intros a r' H'. eapply wp_mono; [apply Hf, H'|..]; try done; intros; by eapply still_trans.
Qed.

(** The state is known to be the one just read. *)
Lemma safe_bind_get {B} (f : RN → M RN B) :
  (∀ r, node_ok r → wp (f r) (λ _, still r) (λ _, still r) (λ _, False) r) →
  safe (bind get f).
Proof. intros Hf r Hr. apply wp_bind, wp_get. by apply Hf. Qed.

Lemma safe_get_bind {B} (f : RN → M RN B) : (∀ r, node_ok r → safe (f r)) → safe (bind get f).
Proof. intros Hf. apply safe_bind_get. intros r Hr. by apply Hf. Qed.

Lemma safe_forEach {A} (l : list A) body : (∀ x, x ∈ l → safe (body x)) → safe (forEach l body).
Proof.
  induction l as [|x l IH]; intros Hb; cbn; [apply safe_ret|]. apply safe_bind; [apply Hb; by left|].
  intros _. apply IH. intros y Hy. apply Hb. by right.
Qed.

Lemma safe_modify (f : RN → RN) :
  (∀ r, node_ok r → still r (f r)) → safe (modify f).
Proof. intros Hf r Hr. apply wp_modify. by apply Hf. Qed.

(** Updates of fields the invariant does not mention. *)
Ltac safe_field :=
  let r := fresh "r" in let Hr := fresh "Hr" in
  intros r Hr; split; [exact Hr|]; cbn;
  split_and!; try done; first [by left | by right | idtac];
  first [by left | by intros ? ?%not_elem_of_nil].

Lemma safe_send m : (∀ from t, known from → msg_ok (addressed from t m)) → safe (send m).
Proof.
  intros Hm. apply safe_modify. intros r Hr. split; [exact Hr|].
  cbn. split_and!; try done; [by left|].
  intros x [Hx|Hx%list_elem_of_singleton]%elem_of_app; [by left|right; subst x; apply Hm, Hr].
Qed.

Lemma persist_ok r :
  node_ok r →
  wp persistHardState (λ _ r', still r r' ∧ rn_state r' = rn_state r) (λ _, still r)
     (λ _, False) r.
Proof.
  intros Hr. unfold persistHardState. wp_pure.
  case_match; [wp_pure; by split; [apply still_refl|]|].
  unfold on_disk, on_log, on_storage. wp_go. pose proof Hr as (Hok & Hrest).
  assert (∀ s', storage_ok s' ∧ disk s' = disk (l_storage (rn_log r)) →
    ∀ h, still r (set_persisted h (set_log (set_l_storage s' (rn_log r)) r))) as Hst'.
  { intros s' [Hs' Hd] h. split; [|unfold log_same, log_disk; cbn; by split_and!; try left].
    unfold node_ok, log_ok, entries_ok, log_disk in *. cbn. rewrite Hd. tauto. }
  eapply wp_mono; [apply (log_hard (l_storage (rn_log r))); apply Hok|..]; cbn.
  - intros _ s' Hs'. wp_pure. by split; [apply Hst'|].
  - intros e s' Hs'. specialize (Hst' s' Hs' (rn_persisted r)).
    by replace (set_log (set_l_storage s' (rn_log r)) r) with
      (set_persisted (rn_persisted r) (set_log (set_l_storage s' (rn_log r)) r))
      by (by destruct r).
  - done.
Qed.

Lemma safe_persist : safe persistHardState.
Proof.
  intros r Hr. eapply wp_mono; [by apply persist_ok|..]; [|done..]. by intros _ r' [? _].
Qed.

#[local] Hint Resolve safe_persist safe_get @safe_ret @safe_fail : safe.

(** Who is written to because the configuration in force names them is known. *)
Ltac addressee :=
  match goal with
  | Hr : node_ok ?r, Hi : ?i ∈ Peers (rn_conf ?r) _ |- _ =>
      assert (known i) by (eapply peer_known; [apply Hr|exact Hi])
  end.

Ltac safe :=
  repeat (cbv beta zeta; lazymatch goal with
  | |- safe (bind get _) => apply safe_get_bind; intros
  | |- safe (bind _ _) => apply safe_bind; [|intros]
  | |- safe (forEach _ _) => apply safe_forEach; intros; try (addressee; [])
  | |- safe (modify _) => apply safe_modify; solve [safe_field]
  | |- safe (send _) => apply safe_send; intros; by apply msg_ok_plain
  | |- safe (match ?x with _ => _ end) => destruct x
  | |- _ => solve [auto with safe]
  end).

Lemma safe_setProgress id p : safe (setProgress id p).
Proof. unfold setProgress. safe. Qed.

Lemma becomeFollower_ok t lead r :
  node_ok r →
  wp (becomeFollower t lead) (λ _ r1, still r r1 ∧ rn_state r1 = Follower) (λ _ _, False)
     (λ _, False) r.
Proof.
  intros Hr.
  unfold becomeFollower, reset, resetRandomizedElectionTimeout, dropPendingReads. wp_pure.
  pose proof Hr as (? & ? & ? & ? & ? & _ & ? & ?).
  case_match; wp_pure; destruct (Intn _ _); wp_pure; (split; [|done]);
    (split; [split_and!; [done..|by intros []|done|done]|]; cbn; split_and!; try done; [by right|by left]).
Qed.

Lemma safe_becomeFollower t lead : safe (becomeFollower t lead).
Proof.
  intros r Hr. eapply wp_mono; [by apply becomeFollower_ok|..]; [|done..]. by intros _ r' [? _].
Qed.
#[local] Hint Resolve safe_setProgress safe_becomeFollower : safe.

Lemma safe_stepDownIfRemoved : safe stepDownIfRemoved.
Proof. unfold stepDownIfRemoved. safe. Qed.

Lemma safe_sendSnapshot to : known to → safe (sendSnapshot to).
Proof.
  intros Hto. apply safe_bind_get. intros r Hr. case_match; [|by apply safe_ret].
  case_match; [by apply safe_ret|].
  pose proof Hr as (Hok & _ & Henc & _). unfold disk_of.
  rewrite (log_load _ (proj1 Hok)). fold (log_disk (rn_log r)).
  case_match; [by apply safe_ret|].
  revert r Hr Hok Henc H H0 H1. intros r Hr Hok Henc _ _ _.
  pose proof (log_ok_disk _ Hok) as (_ & HW & _).
  apply safe_bind; [auto with safe|intros _| done]. apply safe_send. intros from t Hfrom.
  split_and!; cbn; [by intros []|lia|constructor| |done..]. intros snap [= <-]. split; [|done].
  destruct Hok as (_ & Ha & Hb & Hc). unfold log_disk, d_last in *. lia.
Qed.
#[local] Hint Resolve safe_stepDownIfRemoved safe_sendSnapshot : safe.

Lemma contiguous_slice d lo n :
  contiguous_from (d_base d + 1) (d_entries d) → (d_base d < lo)%N →
  contiguous_from lo (take n (drop (N.to_nat (lo - d_base d - 1)) (d_entries d))).
Proof.
  intros Hc Hlo. apply contiguous_take.
  replace lo with (d_base d + 1 + N.of_nat (N.to_nat (lo - d_base d - 1)))%N at 1 by lia.
  by apply contiguous_drop.
Qed.

Lemma Forall_slice {A} (P : A → Prop) (l : list A) n m : Forall P l → Forall P (take n (drop m l)).
Proof. intros H. by apply Forall_take, Forall_drop. Qed.

(** The entries [sendAppendWithRead] reads: a failure, or a slice of the log. *)
Lemma log_entries_range_ok l lo hi :
  log_ok l → entries_ok l → (lo ≤ d_last (log_disk l))%N →
  match log_entries_range lo hi l with
  | Ret es => contiguous_from lo es ∧ Forall conf_entry_ok es ∧
              (lo + N.of_nat (length es) ≤ d_last (log_disk l) + 1)%N
  | Fail _ => True
  | _ => False
  end.
Proof.
  intros Hok He Hlo. pose proof (log_ok_disk l Hok) as (Hc & HW & _).
  unfold log_entries_range. destruct (N.leb_spec hi lo).
  { split_and!; [by intros []|constructor|cbn; lia]. }
  rewrite (lastIndex_spec l Hok), u64_add_small by done.
  destruct (N.ltb_spec (d_last (log_disk l) + 1) hi); [done|].
  destruct (decide (lo ≤ d_base (log_disk l))%N).
  { destruct (log_entries_out (l_storage l) lo hi) as (e & -> & _); [apply Hok|done|by left|done]. }
  rewrite log_entries; fold (log_disk l); [|apply Hok|lia..].
  split_and!; [apply contiguous_slice; [done|lia]|by apply Forall_slice|].
  rewrite length_take, length_drop. unfold d_last in *. lia.
Qed.

Lemma safe_sendAppendWithRead to id : known to → safe (sendAppendWithRead to id).
Proof.
  intros Hto. apply safe_bind_get. intros r Hr. destruct (progressOf r to) as [pr|]; [|by apply safe_ret].
  case_match; [by apply safe_ret|]. clear H. cbv zeta. pose proof Hr as (Hok & He & _).
  pose proof (log_ok_disk _ Hok) as (_ & HW & _).
  pose proof (term_at_spec (rn_log r) (p_Next pr -u 1) Hok) as HT.
  destruct (term_at (p_Next pr -u 1) (rn_log r)) as [prevTerm|e| |]; [|by apply safe_sendSnapshot|done..].
  assert (is_Some (log_term_of (rn_log r) (p_Next pr -u 1))) as HT'%log_term_of_is_Some by eauto.
  rewrite (lastIndex_spec _ Hok).
  assert (∀ es, contiguous_from (p_Next pr -u 1 + 1) es → Forall conf_entry_ok es →
    (p_Next pr -u 1 + N.of_nat (length es) ≤ d_last (log_disk (rn_log r)))%N →
    safe (send (appendReqMsg to (p_Next pr -u 1) prevTerm es (l_committed (rn_log r)) id))) as Hsend.
  { intros es Hc Hce Hlen. apply safe_send. intros from t Hfrom. split_and!; cbn; [done|lia|done..]. }
  destruct (N.leb_spec (p_Next pr) (d_last (log_disk (rn_log r)))) as [Hle|].
  - match goal with |- context [log_entries_range ?a ?b ?l] =>
      pose proof (log_entries_range_ok l a b Hok He Hle) as HR;
      destruct (log_entries_range a b l) as [es|e| |] end; [|by apply safe_ret|done..].
    destruct HR as (Hc & Hce & Hlen).
    destruct (decide (p_Next pr = 0%N)) as [E0|].
    { exfalso. rewrite E0 in HT'. assert (0 -u 1 = W64 - 1)%N as E1 by (by vm_compute).
      rewrite E1 in HT'. lia. }
    rewrite u64_sub_small in Hsend |- * by lia.
    apply Hsend; [by replace (p_Next pr - 1 + 1)%N with (p_Next pr) by lia|done|lia|done].
  - apply Hsend; [by intros []|constructor| |done]. cbn. unfold d_last in *. lia.
Qed.
#[local] Hint Resolve safe_sendAppendWithRead : safe.

Lemma safe_sendAppend to : known to → safe (sendAppend to).
Proof. apply safe_sendAppendWithRead. Qed.
#[local] Hint Resolve safe_sendAppend : safe.

Lemma safe_broadcastAppend : safe broadcastAppend.
Proof. unfold broadcastAppend. safe. Qed.
#[local] Hint Resolve safe_broadcastAppend : safe.

(** ** Adopting a configuration *)

Lemma in_force_conf_ok r :
  node_ok r →
  conf_ok (fst (in_force (log_disk (rn_log r)) (rn_bootstrap r))).
Proof.
  intros (_ & He & Hs & Hb & _). unfold in_force.
  apply snap_ok_conf in Hs. destruct (newest_conf _) as [[c i]|] eqn:E; [|by case_match].
  apply newest_conf_Some in E as (e & Hin & Hc & _). cbn.
  unfold entries_ok in He. rewrite Forall_forall in He. specialize (He e Hin).
  unfold conf_of in Hc. destruct (e_Type e) eqn:ET; try done.
  destruct (He ET) as (cc & HD & Henc). rewrite HD in Hc. simplify_eq.
  split; [done|by eapply Decode_normal].
Qed.

(** Only followers and leaders change their configuration. *)
Lemma reconfigured_ok r r' :
  node_ok r → reconfigured r r' → conf_ok (rn_conf r') →
  rn_state r = Follower ∨ rn_state r = Leader → grows 0 r r'.
Proof.
  intros (H1 & H2 & H3 & H4 & _ & _ & H5 & H6) (c & i & p & ->) Hc Hs.
  split; [|split; [by apply log_appends_disk; [apply log_extends_refl|]|split_and!; [done..
    |change (last_of r ≤ last_of r + 0)%N; lia|by left]]].
  split_and!; try done. cbn. destruct Hs as [-> | ->]; by intros [].
Qed.

Lemma refreshConfiguration_ok r :
  node_ok r → rn_state r = Follower ∨ rn_state r = Leader →
  wp refreshConfiguration
     (λ _ r', grows 0 r r' ∧ reconfigured r r' ∧
        (rn_conf r', rn_confIndex r') = in_force (log_disk (rn_log r)) (rn_bootstrap r))
     (λ _ _, False) (λ _, False) r.
Proof.
  intros Hr Hs. pose proof Hr as (Hok & He & _).
  eapply wp_mono; [by apply refreshConfiguration_wp|..]; [|done..]. cbn beta.
  intros _ r' [Hre Hf]. split; [|done]. apply reconfigured_ok; try done.
  pose proof (in_force_conf_ok r Hr) as Hen. by rewrite <- Hf in Hen.
Qed.

(** ** Proposing and committing *)

(** [m] returns or fails, adding at most [n] entries. *)
Definition gwp {A} (n : N) (m : M RN A) r : Prop :=
  wp m (λ _, grows n r) (λ _, grows n r) (λ _, False) r.

Lemma gwp_safe {A} n (m : M RN A) r : node_ok r → safe m → gwp n m r.
Proof.
  intros Hr Hm. eapply wp_mono; [by apply Hm|..]; [..|done];
    intros; (eapply grows_weaken; [by apply still_grows|lia]).
Qed.

Lemma gwp_weaken {A} n n' (m : M RN A) r : gwp n m r → (n ≤ n')%N → gwp n' m r.
Proof.
  intros Hm Hn. eapply wp_mono; [exact Hm|..]; [..|done]; cbn beta; intros;
    (eapply grows_weaken; [eassumption|done]).
Qed.

(** Running [m] after [r] has grown into [r1]. *)
Lemma gwp_after {A} n1 n2 n (m : M RN A) r r1 :
  grows n1 r r1 → gwp n2 m r1 → (n1 + n2 ≤ n)%N →
  wp m (λ _, grows n r) (λ _, grows n r) (λ _, False) r1.
Proof.
  intros H1 Hm Hn. eapply wp_mono; [exact Hm|..]; [..|done]; cbn beta; intros;
    (eapply grows_trans; [exact H1|eassumption|done]).
Qed.

Lemma gwp_bind {A B} n1 n2 n (m : M RN A) (f : A → M RN B) r :
  wp m (λ a r1, grows n1 r r1 ∧ gwp n2 (f a) r1) (λ _, grows n r) (λ _, False) r →
  (n1 + n2 ≤ n)%N → gwp n (bind m f) r.
Proof.
  intros Hm Hn. apply wp_bind. eapply wp_mono; [exact Hm|..]; [|done..]. cbn beta.
  intros a r1 [H1 H2]. by eapply gwp_after.
Qed.

Lemma gwp_bind_safe {A B} n (m : M RN A) (f : A → M RN B) r :
  gwp n m r → (∀ a, safe (f a)) → gwp n (bind m f) r.
Proof.
  intros Hm Hf. apply (gwp_bind n 0); [|lia]. eapply wp_mono; [exact Hm|..]; [|done..].
  cbn beta. intros a r1 H1. split; [done|]. apply gwp_safe; [apply H1|apply Hf].
Qed.

Lemma gwp_safe_bind {A B} n (m : M RN A) (f : A → M RN B) r :
  node_ok r → safe m → (∀ a r1, still r r1 → gwp n (f a) r1) → gwp n (bind m f) r.
Proof.
  intros Hr Hm Hf. apply (gwp_bind 0 n); [|lia].
  eapply wp_mono; [by apply Hm|..]; cbn beta; [..|done].
  - intros a r1 H1. split; [by apply still_grows|by apply Hf].
  - intros e r1 H1. eapply grows_weaken; [by apply still_grows|lia].
Qed.

(** A new log under the same configuration. *)
Lemma set_log_ok r l' :
  node_ok r → log_ok l' → entries_ok l' →
  snap_ok (d_snapshot (log_disk l')) → node_ok (set_log l' r).
Proof. intros (_ & _ & _ & ? & ? & ? & ? & ?) ? ? ?. by split_and!. Qed.

Lemma set_log_grows n r l' :
  node_ok (set_log l' r) → log_appends (rn_log r) l' →
  (d_last (log_disk l') ≤ last_of r + n)%N → grows n r (set_log l' r).
Proof. intros Hr He Hl. split; [done|]. split; [done|]. split_and!; try done. by left. Qed.

Lemma set_log_same r l' : node_ok r → log_ok l' → log_same (rn_log r) l' → grows 0 r (set_log l' r).
Proof.
  intros Hr Hok Hs. pose proof Hs as (Hd & _). pose proof Hr as (_ & He & Hsn & _).
  apply set_log_grows; [|by apply log_appends_disk; [apply log_same_extends|]
    |rewrite Hd; unfold last_of; lia].
  apply set_log_ok; [done|done|..]; unfold entries_ok; by rewrite Hd.
Qed.

Lemma append_one_ok r e :
  node_ok r → e_Index e = (last_of r + 1)%N → (last_of r + 2 < W64)%N → conf_entry_ok e →
  wp (on_log (log_append_entries [e]))
     (λ _ r1, grows 1 r r1 ∧ ∃ l1, r1 = set_log l1 r ∧ last_of r1 = (last_of r + 1)%N ∧
        log_disk l1 = disk_write (last_of r + 1) [e] (log_disk (rn_log r)))
     (λ _ r1, grows 0 r r1) (λ _, False) r.
Proof.
  intros Hr Hi Hroom Hce. pose proof Hr as (Hok & He & Hs & _). unfold on_log. apply wp_zoom.
  eapply wp_mono; [apply (log_append_spec (rn_log r) e []); [done|cbn; lia]|..]; cbn beta; [..|done].
  - intros _ l1 (Hok1 & Hext & Hd & _ & Hhi & Hcont & _ & _). rewrite Hi in Hd.
    assert (d_last (log_disk l1) = last_of r + 1)%N as HLast.
    { rewrite Hd. unfold last_of, d_last, disk_write in *. cbn. rewrite length_app, length_take.
      cbn. lia. }
    assert (log_appends (rn_log r) l1) as Happ.
    { split; [done|]. split; [unfold last_of in HLast; lia|]. intros i Hlo Hle. rewrite Hd in Hlo |- *.
      cbn in Hlo. unfold last_of in *. rewrite disk_write_entry by lia.
      by rewrite (proj2 (N.ltb_lt _ _)) by lia. }
    split; [|by exists l1]. apply set_log_grows; [|done|lia].
    apply set_log_ok; [done|done| |by rewrite Hd].
    unfold entries_ok. rewrite Hd. cbn. apply Forall_app. split; [by apply Forall_take|].
    by constructor.
  - intros _ l1 (Hok1 & Hd & Hc & Ha). by apply set_log_same.
Qed.

(** The commit rule, whatever follows the commit. *)
Lemma maybeAdvanceCommit_step k n r :
  node_ok r →
  (∀ r1, node_ok r1 → rn_conf r1 = rn_conf r → last_of r1 = last_of r →
     gwp n (maybeLeaveJoint k) r1) →
  gwp n (maybeAdvanceCommit (Datatypes.S k)) r.
Proof.
  intros Hr Hk. pose proof Hr as (Hok & He & Hs & _). unfold gwp.
  cbn [maybeAdvanceCommit]. wp_pure. case_match; [by apply gwp_safe; [|safe]|]. cbv zeta.
  set (cand := CommittedIndex (rn_conf r) (matchOf r)).
  destruct (N.leb_spec cand (l_committed (rn_log r))) as [|Hgt]; [by apply gwp_safe; [|safe]|].
  apply wp_bind, wp_wrapErr. unfold on_log at 1. apply wp_zoom, wp_reads.
  pose proof (term_at_spec (rn_log r) cand Hok) as HT.
  assert (grows n r (set_log (rn_log r) r)) as Hsame.
  { eapply grows_weaken; [by apply set_log_same; [| |by split_and!]|lia]. }
  destruct (term_at cand (rn_log r)) as [t|e| |]; [|done..].
  rewrite set_log_id. case_match; [by apply gwp_safe; [|safe]|]. clear Hsame.
  assert (cand ≤ d_last (log_disk (rn_log r)))%N as Hcl.
  { assert (is_Some (log_term_of (rn_log r) cand)) as HT'%log_term_of_is_Some by eauto. lia. }
  apply (gwp_bind 0 n); [|lia]. unfold on_log. apply wp_zoom.
  eapply wp_mono; [by apply (commitTo_spec (rn_log r) cand)|..]; [|done..]. cbn beta.
  intros _ l1 (El & Hok1 & Hext).
  assert (grows 0 r (set_log l1 r)) as H1.
  { apply set_log_grows; [|by apply log_appends_disk; [|rewrite El]
      |rewrite El, log_disk_committed; unfold last_of; lia].
    apply set_log_ok; [done|done|..]; rewrite El; done. }
  split; [done|]. apply gwp_safe_bind; [apply H1|auto with safe|]. intros _ r2 H2.
  pose proof (still_last _ _ H2) as EL2. pose proof H2 as (Hr2 & _ & _ & _ & EC2 & _).
  apply gwp_bind_safe; [|intros; safe]. apply Hk; [done|by rewrite EC2|].
  rewrite EL2. unfold last_of. rewrite El. done.
Qed.

(** The second half of [propose], after the entry is in the log. *)
Lemma propose_tail k n (i : Index) r :
  node_ok r →
  (∀ r1, node_ok r1 → rn_conf r1 = rn_conf r → last_of r1 = last_of r →
     gwp n (maybeAdvanceCommit k) r1) →
  gwp n (r' <- get ;;
         (match progressOf r' (rn_id r') with
          | Some self =>
              setProgress (rn_id r')
                (mkProgress i (i +u 1) (p_PendingSnapshot self) (p_SnapshotTicks self))
          | None => ret tt
          end) ;;;
         maybeAdvanceCommit k ;;;
         broadcastAppend ;;;
         ret i) r.
Proof.
  intros Hr Hk. unfold gwp. apply wp_bind, wp_get.
  apply gwp_safe_bind; [done|safe|]. intros _ r1 H1.
  apply gwp_bind_safe; [|intros; safe].
  pose proof (still_last _ _ H1). destruct H1 as (Hr1 & _ & _ & _ & EC & _). by apply Hk.
Qed.

(** What a proposed entry must satisfy, and what it does to the configuration. *)
Definition proposable (ty : EntryType) (cmd : bytes) : Prop :=
  ty = EntryConfChange →
  ∃ cc, DecodeConfChange cmd = Ret cc ∧ conf_writable (cc_Config cc).

Definition conf_after (ty : EntryType) (cmd : bytes) (c c' : Configuration) : Prop :=
  match ty with
  | EntryConfChange => ∃ cc, DecodeConfChange cmd = Ret cc ∧ c' = cc_Config cc
  | _ => c' = c
  end.

Lemma newest_conf_appended d f e cc :
  e_Type e = EntryConfChange → DecodeConfChange (e_Command e) = Ret cc →
  newest_conf (d_entries (disk_write f [e] d)) = Some (cc_Config cc, e_Index e).
Proof.
  intros ET ED. cbn. rewrite newest_conf_snoc. unfold conf_of. by rewrite ET, ED.
Qed.

Lemma propose_step k n r ty cmd :
  node_ok r → (last_of r + 2 < W64)%N → proposable ty cmd →
  (∀ r1, node_ok r1 → last_of r1 = (last_of r + 1)%N →
     conf_after ty cmd (rn_conf r) (rn_conf r1) → gwp n (maybeAdvanceCommit k) r1) →
  gwp (1 + n) (propose (Datatypes.S k) ty cmd) r.
Proof.
  intros Hr Hroom Hp Hk. pose proof Hr as (Hok & _). unfold gwp.
  cbn [propose]. wp_pure. destruct (negb _) eqn:EL; [by apply gwp_safe; [|safe]|].
  apply negb_false_iff, bool_decide_eq_true in EL. cbv zeta. cbn [e_Index].
  rewrite (lastIndex_spec _ Hok). fold (last_of r). rewrite u64_add_small by lia.
  set (e := mkEntry (rn_term r) (last_of r + 1) ty cmd).
  apply (gwp_bind 1 n); [|lia].
  eapply wp_mono; [apply (append_one_ok r e); [done|done|done|exact Hp]|..]; cbn beta; [..|done].
  2: { intros _ r1 H1. eapply grows_weaken; [exact H1|lia]. }
  intros _ r1 (H1 & l1 & E1 & EL1 & ED1). split; [done|]. subst r1.
  assert (∀ r2, node_ok r2 → last_of r2 = (last_of r + 1)%N →
    conf_after ty cmd (rn_conf r) (rn_conf r2) → ∀ r3, node_ok r3 → rn_conf r3 = rn_conf r2 →
    last_of r3 = last_of r2 → gwp n (maybeAdvanceCommit k) r3) as Hk'.
  { intros r2 _ EL2 HC r3 Hr3 EC3 EL3. apply Hk; [done|congruence|by rewrite EC3]. }
  destruct ty.
  1-2: unfold gwp; apply wp_bind, wp_ret, propose_tail; [apply H1|];
    apply Hk'; [apply H1|done|done].
  apply (gwp_bind 0 n); [|lia].
  eapply wp_mono; [apply refreshConfiguration_ok; [apply H1|by right]|..]; [|done..]. cbn beta.
  intros _ r2 (H2 & (c & i & p & ->) & Hf). split; [done|].
  apply propose_tail; [apply H2|]. apply Hk'; [apply H2|exact EL1|].
  destruct (Hp eq_refl) as (cc & HD & _). exists cc. split; [done|].
  change (rn_log (set_log l1 r)) with l1 in Hf. unfold in_force in Hf.
  rewrite ED1, (newest_conf_appended _ _ e cc) in Hf by done. by injection Hf.
Qed.

(** ** How deep the calls go *)

Lemma maybeLeaveJoint_idle k r :
  node_ok r → IsJoint (rn_conf r) = false → gwp 0 (maybeLeaveJoint (Datatypes.S k)) r.
Proof.
  intros Hr HJ. unfold gwp. cbn [maybeLeaveJoint]. wp_pure. rewrite HJ, orb_true_r.
  by apply gwp_safe; [|safe].
Qed.

Lemma maybeAdvanceCommit_simple k r :
  node_ok r → IsJoint (rn_conf r) = false →
  gwp 0 (maybeAdvanceCommit (Datatypes.S (Datatypes.S k))) r.
Proof.
  intros Hr HJ. apply maybeAdvanceCommit_step; [done|]. intros r1 Hr1 EC _.
  apply maybeLeaveJoint_idle; [done|congruence].
Qed.

(** Leaving a joint configuration encodes a change that is no longer joint. *)
Lemma LeaveJoint_change c cc :
  conf_writable c → LeaveJoint c = Ret cc →
  ∃ cc', DecodeConfChange (Encode cc) = Ret cc' ∧ conf_writable (cc_Config cc') ∧
         IsJoint (cc_Config cc') = false.
Proof.
  intros [Hc Hvet] HL'. pose proof (vetted_leave _ _ Hvet HL') as Hvet'. unfold LeaveJoint in HL'. destruct (negb (IsJoint c)); [done|].
  set (c0 := mkConfiguration (Voters c) [] (Learners c)) in HL'.
  assert (cc = mkConfChange ConfChangeLeaveJoint (normalize c0)) as ->.
  { destruct (Validate (normalize c0)); by simplify_eq. }
  assert (conf_encodable c0) as H0.
  { unfold conf_encodable in *. rewrite !Forall_cons in *. destruct Hc as (Hv & _ & Hl & _).
    split; [done|]. split; [by split; [constructor|]|]. split; [done|constructor]. }
  apply conf_encodable_normalize in H0. eexists. rewrite Decode_Encode_normalize by done.
  rewrite (normalize_id (normalize c0)) by apply normalize_normal.
  split; [done|]. split; [by split|]. by vm_compute.
Qed.

Lemma maybeLeaveJoint_ok k r :
  node_ok r → (last_of r + 2 < W64)%N →
  gwp 1 (maybeLeaveJoint (Datatypes.S (Datatypes.S (Datatypes.S (Datatypes.S k))))) r.
Proof.
  intros Hr Hroom. pose proof Hr as (_ & _ & _ & _ & [Henc _] & _). unfold gwp.
  cbn [maybeLeaveJoint]. wp_pure. case_match; [by apply gwp_safe; [|safe]|].
  case_match; [by apply gwp_safe; [|safe]|].
  apply wp_bind, wp_wrapErr, wp_reads.
  destruct (LeaveJoint (rn_conf r)) as [cc|e| |] eqn:ELJ.
  2: { eapply grows_weaken; [by apply still_grows, still_refl|lia]. }
  2-3: revert ELJ; unfold LeaveJoint, Validate; repeat case_match; done.
  destruct (LeaveJoint_change _ _ Henc ELJ) as (cc' & HD & Henc' & HJ).
  apply wp_bind, wp_try.
  assert (gwp 1 (propose (Datatypes.S (Datatypes.S (Datatypes.S k))) EntryConfChange (Encode cc)) r)
    as HP.
  { apply (propose_step _ 0); [done|done|by eexists|].
    intros r1 Hr1 _ (cc2 & HD2 & EC). apply maybeAdvanceCommit_simple; [done|].
    rewrite EC. congruence. }
  eapply wp_mono; [exact HP|..]; [..|done]; cbn beta.
  - intros a r1 H1. by apply wp_ret.
  - intros e r1 H1. case_match; by wp_pure.
Qed.

Lemma maybeAdvanceCommit_ok r :
  node_ok r → (last_of r + 2 < W64)%N → gwp 1 (maybeAdvanceCommit callDepth) r.
Proof.
  intros Hr Hroom. apply maybeAdvanceCommit_step; [done|]. intros r1 Hr1 _ EL.
  apply maybeLeaveJoint_ok; [done|lia].
Qed.

Lemma propose_ok r ty cmd :
  node_ok r → (last_of r + 3 < W64)%N → proposable ty cmd → gwp 2 (propose callDepth ty cmd) r.
Proof.
  intros Hr Hroom Hp. apply (propose_step _ 1); [done|lia|done|].
  intros r1 Hr1 EL _. apply maybeAdvanceCommit_step; [done|]. intros r2 Hr2 _ EL2.
  apply maybeLeaveJoint_ok; [done|lia].
Qed.

(** ** Elections *)

Lemma foldl_insert_is_Some {B} (f : NodeID → B) (ids : list NodeID) (pm : gmap NodeID B) id :
  id ∈ ids ∨ is_Some (pm !! id) →
  is_Some (foldl (λ pm i, <[i := f i]> pm) pm ids !! id).
Proof.
  revert pm. induction ids as [|i ids IH]; intros pm Hin; cbn.
  { destruct Hin as [H%not_elem_of_nil|]; done. }
  apply IH. rewrite elem_of_cons in Hin. destruct (decide (id = i)) as [->|Hne].
  - right. rewrite lookup_insert_eq. eauto.
  - rewrite lookup_insert_ne by done. tauto.
Qed.

Lemma initialProgress_self r last_ :
  IsVoter (rn_conf r) (rn_id r) = true → is_Some (initialProgress r last_ !! rn_id r).
Proof.
  intros Hv. apply foldl_insert_is_Some. left. unfold Members.
  rewrite elem_of_sortedUnique, !elem_of_app. unfold IsVoter in Hv.
  apply orb_true_iff in Hv as [H|H]; rewrite slices_Contains_spec in H; auto.
Qed.

(** A change of role: nothing but the role and its bookkeeping moves. *)
Definition rerole r r1 : Prop :=
  rn_log r1 = rn_log r ∧ rn_id r1 = rn_id r ∧ rn_bootstrap r1 = rn_bootstrap r ∧
  rn_conf r1 = rn_conf r ∧ rn_appliedSnapshot r1 = rn_appliedSnapshot r ∧ rn_msgs r1 = rn_msgs r.

Lemma rerole_trans r1 r2 r3 : rerole r1 r2 → rerole r2 r3 → rerole r1 r3.
Proof. unfold rerole. intuition congruence. Qed.

Lemma rerole_grows r r1 :
  node_ok r → rerole r r1 →
  (rn_state r1 = PreCandidate ∨ rn_state r1 = Candidate → IsVoter (rn_conf r) (rn_id r) = true) →
  grows 0 r r1.
Proof.
  intros (H1 & H2 & H3 & H4 & H5 & _ & H6 & H7) (El & Ei & Eb & Ec & Ea & Em) HV. unfold grows, node_ok, last_of.
  rewrite El, Ei, Eb, Ec, Ea. split; [by split_and!|].
  split; [by apply log_appends_disk; [apply log_extends_refl|]|]. split_and!; try done; [lia|].
  intros m. rewrite Em. by left.
Qed.

Lemma reset_rerole t r :
  wp (reset t) (λ _ r1, rerole r r1 ∧ rn_term r1 = t) (λ _ _, False) (λ _, False) r.
Proof.
  unfold reset, resetRandomizedElectionTimeout, dropPendingReads. wp_pure.
  destruct (N.eqb_spec (rn_term r) t) as [<-|]; cbn [negb]; wp_pure; by destruct (Intn _ _).
Qed.

Lemma becomeLeader_ok r :
  node_ok r → (last_of r + 3 < W64)%N → rn_state r ≠ Follower →
  IsVoter (rn_conf r) (rn_id r) = true → gwp 2 becomeLeader r.
Proof.
  intros Hr Hroom HS HV. pose proof Hr as (Hok & _).
  unfold gwp, becomeLeader. wp_pure. rewrite bool_decide_false by done. cbv zeta. apply wp_bind.
  eapply wp_mono; [apply reset_rerole|..]; [|done..]. cbn beta. intros _ r0 [H0 _]. wp_pure.
  match goal with |- wp _ _ _ _ ?x => set (r1 := x) end. cbn [e_Index].
  assert (rerole r0 r1) as H01 by done. pose proof (rerole_trans _ _ _ H0 H01) as HR.
  assert (rn_state r1 = Leader) as ES1 by done.
  assert (progressOf r1 (rn_id r) = initialProgress r (lastIndex (rn_log r)) !! rn_id r) as EP by done.
  clearbody r1. assert (grows 0 r r1) as H1
    by (apply rerole_grows; [done|done|rewrite ES1; by intros []]).
  assert (last_of r1 = last_of r) as EL1 by (unfold last_of; by rewrite (proj1 HR)).
  assert (is_Some (progressOf r1 (rn_id r1))) as HP1
    by (rewrite (proj1 (proj2 HR)), EP; by apply initialProgress_self).
  rewrite (lastIndex_spec _ Hok). fold (last_of r). rewrite u64_add_small by lia.
  set (e := mkEntry (rn_term r) (last_of r + 1) EntryNoOp []).
  apply wp_unbind. apply (gwp_after 0 2 2); [done| |lia].
  apply (gwp_bind 1 1); [|lia]. apply wp_wrapErr.
  eapply wp_mono; [apply (append_one_ok r1 e); [apply H1|by rewrite EL1|by rewrite EL1; lia|done]|..];
    cbn beta; [..|done].
  2: { intros _ r2 H2. eapply grows_weaken; [exact H2|lia]. }
  intros _ r2 (H2 & l2 & -> & EL2 & _). split; [done|]. unfold gwp. apply wp_bind, wp_get.
  destruct HP1 as [self HP1]. change (progressOf r1 (rn_id r1)) with
    (progressOf (set_log l2 r1) (rn_id (set_log l2 r1))) in HP1. rewrite HP1.
  apply gwp_safe_bind; [apply H2|auto with safe|]. intros _ r3 H3.
  apply gwp_bind_safe; [|intros; safe].
  apply maybeAdvanceCommit_ok; [apply H3|]. rewrite (still_last _ _ H3), EL2, EL1. lia.
Qed.

Lemma recordVote_ok from g r :
  node_ok r →
  wp (recordVote from g) (λ _ r1, still r r1 ∧ rn_state r1 = rn_state r) (λ _ _, False)
     (λ _, False) r.
Proof.
  intros Hr. unfold recordVote. wp_pure. destruct (rn_votes r !! from).
  { by split; [apply still_refl|]. }
  split; [|done]. split; [exact Hr|]. cbn. split_and!; try done; by left.
Qed.

Definition campaign_role (pre : bool) : State := if pre then PreCandidate else Candidate.

Lemma enterCampaign_ok r pre :
  node_ok r → rn_state r ≠ Leader → IsVoter (rn_conf r) (rn_id r) = true →
  wp (enterCampaign pre)
     (λ _ r1, grows 0 r r1 ∧ rn_conf r1 = rn_conf r ∧ rn_state r1 = campaign_role pre)
     (λ _ r1, grows 0 r r1) (λ _, False) r.
Proof.
  intros Hr HS HV. unfold enterCampaign, becomePreCandidate, becomeCandidate,
    resetRandomizedElectionTimeout.
  destruct pre; wp_pure; rewrite bool_decide_false by done; wp_pure.
  - destruct (Intn _ _) as [j g]. split; [|done]. by apply rerole_grows.
  - eapply wp_mono; [apply reset_rerole|..]; [|done..]. cbn beta. intros _ r0 [H0 _]. wp_pure.
    match goal with |- wp _ _ _ _ ?x => set (r1 := x) end.
    assert (rerole r0 r1) as H01 by done. pose proof (rerole_trans _ _ _ H0 H01) as HR.
    assert (rn_state r1 = Candidate) as ES1 by done. clearbody r1.
    assert (grows 0 r r1) as H1 by (by apply rerole_grows).
    eapply wp_mono; [apply persist_ok, H1|..]; cbn beta; [..|done].
    + intros _ r2 [H2 ES2]. wp_pure. split; [by eapply grows_then_still|].
      destruct H2 as (_ & _ & _ & _ & EC2 & _), HR as (_ & _ & _ & EC1 & _). cbn.
      split; congruence.
    + intros _ r2 H2. by eapply grows_then_still.
Qed.

Lemma tallyVotes_candidate k r :
  node_ok r → (last_of r + 3 < W64)%N → rn_state r = Candidate →
  gwp 2 (tallyVotes (Datatypes.S k)) r.
Proof.
  intros Hr Hroom HS. pose proof Hr as (_ & _ & _ & _ & _ & HV & _).
  unfold gwp. cbn [tallyVotes]. wp_pure. case_match; [|by apply gwp_safe; [|safe]].
  rewrite bool_decide_false by congruence. apply gwp_bind_safe; [|intros; safe].
  apply becomeLeader_ok; [done|done|congruence|]. apply HV. by right.
Qed.

Lemma safe_lastTerm : safe (on_log (reads lastTerm)).
Proof.
  intros r Hr. pose proof Hr as (Hok & _). unfold on_log. apply wp_zoom, wp_reads.
  destruct (lastTerm_spec (rn_log r) Hok) as (t & -> & _). rewrite set_log_id. by apply still_refl.
Qed.
#[local] Hint Resolve safe_lastTerm : safe.

(** A campaign, given how the tally it ends in behaves. *)
Lemma campaign_step k pre r :
  node_ok r → (last_of r + 3 < W64)%N → rn_state r ≠ Leader →
  (∀ r1, node_ok r1 → (last_of r1 ≤ last_of r)%N → rn_state r1 = campaign_role pre →
     gwp 2 (tallyVotes k) r1) →
  gwp 2 (campaign (Datatypes.S k) pre) r.
Proof.
  intros Hr Hroom HS Hk. unfold gwp. cbn [campaign]. wp_pure.
  destruct (promotable r) eqn:EP; cbn [negb]; [|by apply gwp_safe; [|safe]].
  apply (gwp_bind 0 2); [|lia].
  eapply wp_mono; [by apply (enterCampaign_ok r pre)|..]; cbn beta; [..|done].
  2: { intros _ r1 H1. eapply grows_weaken; [exact H1|lia]. }
  intros t r1 (H1 & EC & ES). split; [done|]. pose proof H1 as (Hr1 & _ & _ & _ & EL1 & _).
  apply (gwp_bind 0 2); [|lia].
  eapply wp_mono; [by apply recordVote_ok|..]; [|done..]. cbn beta.
  intros _ r2 [H2 ES2]. split; [by apply still_grows|]. pose proof (still_last _ _ H2).
  apply gwp_bind_safe; [apply Hk; [apply H2|lia|congruence]|].
  intros []; safe.
Qed.

Lemma campaign_candidate k r :
  node_ok r → (last_of r + 3 < W64)%N → rn_state r ≠ Leader →
  gwp 2 (campaign (Datatypes.S (Datatypes.S k)) false) r.
Proof.
  intros Hr Hroom HS. apply campaign_step; [done..|]. intros r1 Hr1 HL1 ES1.
  apply tallyVotes_candidate; [done|lia|done].
Qed.

Lemma tallyVotes_ok k r :
  node_ok r → (last_of r + 3 < W64)%N → rn_state r = PreCandidate ∨ rn_state r = Candidate →
  gwp 2 (tallyVotes (Datatypes.S (Datatypes.S (Datatypes.S k)))) r.
Proof.
  intros Hr Hroom [HS|HS]; [|by apply tallyVotes_candidate].
  unfold gwp. cbn [tallyVotes]. wp_pure. case_match; [|by apply gwp_safe; [|safe]].
  rewrite bool_decide_true by congruence. apply gwp_bind_safe; [|intros; safe].
  apply campaign_candidate; [done..|congruence].
Qed.

Lemma campaign_ok pre r :
  node_ok r → (last_of r + 3 < W64)%N → rn_state r ≠ Leader →
  gwp 2 (campaign callDepth pre) r.
Proof.
  intros Hr Hroom HS. apply campaign_step; [done..|]. intros r1 Hr1 HL1 ES1.
  apply tallyVotes_ok; [done|lia|]. rewrite ES1. destruct pre; auto.
Qed.

(** ** Handlers *)

(** The invariant is kept, committed entries and indexes are kept, and only
    well-formed messages are sent. *)
Definition kept r r' : Prop :=
  node_ok r' ∧ log_extends (rn_log r) (rn_log r') ∧
  rn_id r' = rn_id r ∧ rn_bootstrap r' = rn_bootstrap r ∧ outbox_ok r r'.

(** [m] returns or fails, from a state reached from [r] by calls that kept it. *)
Definition kwp {A} (m : M RN A) r : Prop := wp m (λ _, kept r) (λ _, kept r) (λ _, False) r.

Lemma grows_kept n r r' : grows n r r' → kept r r'.
Proof. intros (? & [? _] & ? & ? & _ & ?). by split_and!. Qed.

Lemma still_kept r r' : still r r' → kept r r'.
Proof. intros H. by eapply grows_kept, still_grows. Qed.

Lemma kept_trans r1 r2 r3 : kept r1 r2 → kept r2 r3 → kept r1 r3.
Proof.
  intros (_ & L1 & I1 & B1 & O1) (N2 & L2 & I2 & B2 & O2).
  split; [done|]. split_and!; [by eapply log_extends_trans|congruence..|by eapply outbox_ok_trans].
Qed.

Lemma gwp_kwp {A} n (m : M RN A) r : gwp n m r → kwp m r.
Proof. intros H. eapply wp_mono; [exact H|..]; [..|done]; cbn beta; intros; by eapply grows_kept. Qed.

Lemma safe_kwp {A} (m : M RN A) r : node_ok r → safe m → kwp m r.
Proof. intros Hr Hm. by eapply gwp_kwp, (gwp_safe 0). Qed.

Lemma kwp_after {A} (m : M RN A) r r1 :
  kept r r1 → kwp m r1 → wp m (λ _, kept r) (λ _, kept r) (λ _, False) r1.
Proof.
  intros H1 Hm. eapply wp_mono; [exact Hm|..]; [..|done]; cbn beta; intros; by eapply kept_trans.
Qed.

Lemma kwp_bind {A B} (m : M RN A) (f : A → M RN B) r :
  wp m (λ a r1, kept r r1 ∧ kwp (f a) r1) (λ _, kept r) (λ _, False) r → kwp (bind m f) r.
Proof.
  intros Hm. apply wp_bind. eapply wp_mono; [exact Hm|..]; [|done..]. cbn beta.
  intros a r1 [H1 H2]. by apply kwp_after.
Qed.

Lemma kwp_safe_bind {A B} (m : M RN A) (f : A → M RN B) r :
  node_ok r → safe m → (∀ a r1, still r r1 → kwp (f a) r1) → kwp (bind m f) r.
Proof.
  intros Hr Hm Hf. apply kwp_bind. eapply wp_mono; [by apply Hm|..]; cbn beta; [..|done].
  - intros a r1 H1. split; [by apply still_kept|by apply Hf].
  - intros e r1 H1. by apply still_kept.
Qed.

Lemma kwp_bind_safe {A B} (m : M RN A) (f : A → M RN B) r :
  kwp m r → (∀ a, safe (f a)) → kwp (bind m f) r.
Proof.
  intros Hm Hf. apply kwp_bind. eapply wp_mono; [exact Hm|..]; [|done..]. cbn beta.
  intros a r1 H1. split; [done|]. apply safe_kwp; [apply H1|apply Hf].
Qed.

Lemma safe_isUpToDate i t : safe (on_log (reads (isUpToDate i t))).
Proof.
  intros r Hr. pose proof Hr as (Hok & _). unfold on_log. apply wp_zoom, wp_reads.
  destruct (isUpToDate_ok (rn_log r) i t Hok) as (mine & _ & ->). rewrite set_log_id.
  by apply still_refl.
Qed.

Lemma safe_conflictHint i : safe (on_log (reads (conflictHint i))).
Proof.
  intros r Hr. pose proof Hr as (Hok & _). unfold on_log. apply wp_zoom, wp_reads.
  destruct (conflictHint_ok (rn_log r) i Hok) as (ci & ct & -> & _). rewrite set_log_id.
  by apply still_refl.
Qed.
#[local] Hint Resolve safe_isUpToDate safe_conflictHint : safe.

Lemma safe_handleVoteRequest m : known (m_From m) → safe (handleVoteRequest m).
Proof. intros Hfrom. unfold handleVoteRequest. safe. Qed.

Lemma handleVoteResponse_ok m r :
  node_ok r → (last_of r + 3 < W64)%N → gwp 2 (handleVoteResponse m) r.
Proof.
  intros Hr Hroom. unfold gwp, handleVoteResponse. wp_pure.
  destruct (m_PreVote m && _) eqn:E1; [by apply gwp_safe; [|safe]|].
  destruct (negb (m_PreVote m) && _) eqn:E2; [by apply gwp_safe; [|safe]|].
  assert (rn_state r = PreCandidate ∨ rn_state r = Candidate) as HS.
  { destruct (m_PreVote m); cbn in E1, E2; [left; apply negb_false_iff in E1|
      right; apply negb_false_iff in E2]; by eapply bool_decide_eq_true. }
  apply (gwp_bind 0 2); [|lia].
  eapply wp_mono; [by apply recordVote_ok|..]; [|done..]. cbn beta.
  intros _ r2 [H2 ES2]. split; [by apply still_grows|].
  apply gwp_bind_safe; [|intros; safe]. apply tallyVotes_ok; [apply H2| |by rewrite ES2].
  by rewrite (still_last _ _ H2).
Qed.

(** Both requests of a leader start by following it. *)
Lemma follow_ok {A} t from (k : M RN A) r :
  node_ok r → (∀ r1, still r r1 → rn_state r1 = Follower → kwp k r1) →
  kwp ((if negb (bool_decide (rn_state r = Follower)) then becomeFollower t from else ret tt) ;;;
       modify (set_lead from) ;;; k) r.
Proof.
  intros Hr Hk. apply kwp_bind.
  assert (wp (if negb (bool_decide (rn_state r = Follower)) then becomeFollower t from else ret tt)
    (λ _ r1, still r r1 ∧ rn_state r1 = Follower) (λ _ _, False) (λ _, False) r) as H1.
  { case_bool_decide; cbn [negb]; [by wp_pure; split; [apply still_refl|]|].
    by apply becomeFollower_ok. }
  eapply wp_mono; [exact H1|..]; [|done..]. cbn beta.
  intros _ r1 [Hs1 ES1]. split; [by apply still_kept|]. unfold kwp. wp_pure.
  assert (still r1 (set_lead from r1)) as Hs2.
  { split; [apply Hs1|]. cbn. split_and!; try done; by left. }
  apply kwp_after; [by apply still_kept|]. apply Hk; [by eapply still_trans|done].
Qed.

Lemma entries_ok_write l f ents d :
  entries_ok l → Forall conf_entry_ok ents → d = disk_write f ents (log_disk l) →
  Forall conf_entry_ok (d_entries d).
Proof. intros He Hm ->. cbn. apply Forall_app. split; [by apply Forall_take|done]. Qed.

Lemma set_log_kept r l' :
  node_ok (set_log l' r) → log_extends (rn_log r) l' → kept r (set_log l' r).
Proof. intros Hr He. split; [done|]. split_and!; try done. by left. Qed.

Lemma maybeAppend_kept r m :
  node_ok r → msg_ok m →
  wp (on_log (maybeAppend (m_PrevLogIndex m) (m_PrevLogTerm m) (m_LeaderCommit m) (m_Entries m)))
     (λ _ r1, kept r r1 ∧ rn_state r1 = rn_state r) (λ _, kept r) (λ _, False) r.
Proof.
  intros Hr (Hc & Hb & Hce & _). pose proof Hr as (Hok & He & Hsn & _).
  unfold on_log. apply wp_zoom.
  eapply wp_mono; [by apply maybeAppend_wp|..]; cbn beta; [..|done].
  - intros [last ok] l' (Hok' & Hext & Hres). split; [|done]. apply set_log_kept; [|done].
    destruct ok; cbn [fst snd] in Hres.
    2: { destruct Hres as [-> _]. by rewrite set_log_id. }
    destruct Hres as (_ & _ & _ & _ & _ & [Hd|(k & _ & _ & _ & Hd)]);
      (apply set_log_ok; [done|done|..]); unfold entries_ok; rewrite Hd; try done.
    by eapply entries_ok_write; [|apply Forall_drop, Hce|].
  - intros e l' [Hok' Hs]. by eapply grows_kept, set_log_same.
Qed.

Lemma refreshIfNeeded_ok ents r :
  node_ok r → rn_state r = Follower → kwp (refreshConfigurationIfNeeded ents) r.
Proof.
  intros Hr HS. unfold kwp, refreshConfigurationIfNeeded. wp_pure.
  match goal with |- context [if negb ?b then _ else _] => destruct b end; cbn [negb].
  - eapply wp_mono; [apply refreshConfiguration_ok; [done|by left]|..]; [|done..]. cbn beta.
    intros _ r1 [H1 _]. by eapply grows_kept.
  - wp_pure. by apply still_kept, still_refl.
Qed.

Lemma handleAppendRequest_ok m r : node_ok r → msg_ok m → kwp (handleAppendRequest m) r.
Proof.
  intros Hr Hm. pose proof Hm as (_ & _ & _ & _ & Hfrom & _). unfold handleAppendRequest. apply kwp_safe_bind; [done|safe|]. intros _ r1 H1.
  unfold kwp. apply wp_bind, wp_get. apply follow_ok; [apply H1|]. intros r2 H2 ES2.
  case_match; [by apply safe_kwp; [apply H2|safe]|].
  apply kwp_bind.
  eapply wp_mono; [apply maybeAppend_kept; [apply H2|done]|..]; [|done..]. cbn beta.
  intros [lastNew ok] r3 [H3 ES3]. split; [done|].
  destruct ok; cbn [negb]; [|by apply safe_kwp; [apply H3|safe]].
  apply kwp_bind_safe; [apply refreshIfNeeded_ok; [apply H3|congruence]|intros; safe].
Qed.

Lemma lastIndexOfTerm_loop_ok fuel i t l :
  log_ok l → ∃ found, lastIndexOfTerm_loop fuel i t l = Ret found.
Proof.
  intros Hok. revert i. induction fuel as [|k IH]; intros i; cbn; [by eexists|].
  case_match; [by eexists|]. pose proof (term_at_spec l i Hok) as HT.
  destruct (term_at i l) as [t'|e| |]; [|by eexists|done..].
  case_match; [by eexists|]. case_match; [by eexists|]. apply IH.
Qed.

Lemma nextAfterRejection_ok pr m r :
  log_ok (rn_log r) → ∃ next, nextAfterRejection pr m r = Ret next.
Proof.
  intros Hok. unfold nextAfterRejection, lastIndexOfTerm.
  destruct (0 <? m_ConflictTerm m)%N; [|by destruct (0 <? m_ConflictIndex m)%N; eexists].
  destruct (lastIndexOfTerm_loop_ok (N.to_nat (lastIndex (rn_log r) + 1 - firstIndex (rn_log r)))
    (lastIndex (rn_log r)) (m_ConflictTerm m) (rn_log r) Hok) as [[] ->]; by eexists.
Qed.

Lemma safe_nextAfterRejection pr m : safe (reads (nextAfterRejection pr m)).
Proof.
  intros r Hr. apply wp_reads. destruct (nextAfterRejection_ok pr m r) as [next ->]; [apply Hr|].
  by apply still_refl.
Qed.

Lemma safe_ackRead from id : safe (ackRead from id).
Proof.
  apply safe_modify. intros r Hr. destruct (ackLoop _ _ _ _).
  split; [exact Hr|]. cbn. split_and!; try done; by left.
Qed.
#[local] Hint Resolve safe_nextAfterRejection safe_ackRead : safe.

Lemma acknowledge_ok from pr i r :
  node_ok r → known from → (last_of r + 2 < W64)%N → gwp 1 (acknowledge from pr i) r.
Proof.
  intros Hr Hfrom Hroom. unfold acknowledge. cbv zeta.
  apply gwp_bind_safe; [|intros []; safe].
  destruct (p_Match pr <? i)%N; [|by apply gwp_safe; [|safe]].
  apply gwp_safe_bind; [done|safe|]. intros _ r1 H1.
  apply maybeAdvanceCommit_ok; [apply H1|by rewrite (still_last _ _ H1)].
Qed.

Lemma handleAppendResponse_ok m r :
  node_ok r → known (m_From m) → (last_of r + 2 < W64)%N → gwp 1 (handleAppendResponse m) r.
Proof.
  intros Hr Hfrom Hroom. unfold gwp, handleAppendResponse. wp_pure.
  case_match; [by apply gwp_safe; [|safe]|].
  destruct (progressOf r (m_From m)) as [pr|]; [|by apply gwp_safe; [|safe]].
  apply gwp_safe_bind; [done|safe|]. intros _ r1 H1.
  destruct (m_Success m); [|by apply gwp_safe; [apply H1|safe]].
  apply acknowledge_ok; [apply H1|done|by rewrite (still_last _ _ H1)].
Qed.

Lemma handleSnapshotResponse_ok m r :
  node_ok r → known (m_From m) → (last_of r + 2 < W64)%N → gwp 1 (handleSnapshotResponse m) r.
Proof.
  intros Hr Hfrom Hroom. unfold gwp, handleSnapshotResponse. wp_pure.
  case_match; [by apply gwp_safe; [|safe]|].
  destruct (progressOf r (m_From m)) as [pr|]; [|by apply gwp_safe; [|safe]].
  apply gwp_safe_bind; [done|safe|]. intros _ r1 H1.
  destruct (m_Success m); cbn [negb]; [|by apply gwp_safe; [apply H1|safe]].
  apply acknowledge_ok; [apply H1|done|by rewrite (still_last _ _ H1)].
Qed.

(** ** Snapshots *)

Lemma restored_ok r snap l' :
  node_ok r → snap_ok snap → log_ok l' →
  log_disk l' = disk_snapshot snap (log_disk (rn_log r)) → node_ok (set_log l' r).
Proof.
  intros Hr Hs Hok' Hd. pose proof Hr as (_ & He & _). apply set_log_ok; [done|done|..];
    unfold entries_ok; rewrite Hd; unfold disk_snapshot; by case_match.
Qed.

Lemma install_ok snap r :
  node_ok r → rn_state r = Follower → conf_ok (snap_Config snap) →
  kwp (if negb (Configuration_IsEmpty (snap_Config snap))
       then setConfiguration (snap_Config snap) (snap_LastIncludedIndex snap)
       else ret tt) r.
Proof.
  intros Hr HS Hs. destruct (negb _); [|by apply safe_kwp; [|safe]].
  eapply wp_mono; [apply setConfiguration_wp|..]; [|done..]. cbn beta.
  intros _ r1 [Hre [= EC _]]. eapply grows_kept, reconfigured_ok; [done|done|by rewrite EC|by left].
Qed.

Lemma safe_arrived snap : imaged (snap_Data snap) → safe (modify (set_appliedSnapshot (Some snap))).
Proof.
  intros Hs. apply safe_modify. intros r (? & ? & ? & ? & ? & ? & ? & _).
  split; [|split_and!; try done; by left]. split_and!; try done. by intros ? [= <-].
Qed.

Lemma handleSnapshotRequest_ok m r : node_ok r → msg_ok m → kwp (handleSnapshotRequest m) r.
Proof.
  intros Hr (_ & _ & _ & Hm & Hfrom & _). unfold handleSnapshotRequest.
  apply kwp_safe_bind; [done|safe|]. intros _ r1 H1.
  unfold kwp. apply wp_bind, wp_get. apply follow_ok; [apply H1|]. intros r2 H2 ES2.
  destruct (m_Snapshot m) as [snap|]; [|by apply safe_kwp; [apply H2|safe]].
  destruct (Hm snap eq_refl) as [Hb Hs]. pose proof (snap_ok_conf _ Hs) as Hcs. pose proof (proj2 Hcs) as Hnorm.
  case_match; [by apply safe_kwp; [apply H2|safe]|].
  pose proof H2 as (Hr2 & _). pose proof Hr2 as (Hok2 & _).
  apply kwp_bind, wp_try. unfold on_log. apply wp_zoom.
  eapply wp_mono; [by apply log_restore_wp|..]; cbn beta; [..|done].
  - intros _ l' (Hok' & Hext & _ & Hd & _). set (r3 := set_log l' r2).
    assert (kept r2 r3) as H3 by (apply set_log_kept; [by eapply restored_ok|done]).
    split; [done|]. assert (rn_state r3 = Follower) as ES3 by done. clearbody r3.
    apply kwp_bind_safe; [by apply install_ok; [apply H3| |]|intros]. apply safe_bind; [apply safe_arrived, Hs|intros; safe].
  - intros e l' [Hok' Hs']. pose proof (set_log_same r2 l' Hr2 Hok' Hs') as H3.
    split; [by eapply grows_kept|]. apply safe_kwp; [apply H3|safe].
Qed.

Lemma compact_ok upto what r :
  node_ok r → (upto ≤ snap_LastIncludedIndex (d_snapshot (log_disk (rn_log r))))%N →
  gwp 0 (wrapErr what (on_log (log_compact_to upto))) r.
Proof.
  intros Hr Hu. pose proof Hr as (Hok & He & Hs & _). apply wp_wrapErr. unfold on_log. apply wp_zoom.
  assert (upto ≤ d_last (log_disk (rn_log r)))%N as Hul by (destruct Hok as (_ & ? & ? & ?); lia).
  pose proof (disk_compact_last (log_disk (rn_log r)) upto (or_intror Hul)) as HLast.
  eapply wp_mono; [by apply log_compact_wp|..]; cbn beta; [..|done].
  - intros _ l2 (Hok2 & Hext2 & _ & Hd2).
    apply set_log_grows; [|split; [done|]|rewrite Hd2, HLast; unfold last_of; lia].
    + unfold disk_compact in Hd2.
      destruct (upto <=? d_base (log_disk (rn_log r)))%N;
        (apply set_log_ok; [done|done|..]); unfold entries_ok; rewrite Hd2; try done.
      by apply Forall_drop.
    + rewrite Hd2, HLast. split; [done|]. intros i Hi _. apply disk_compact_entry.
      unfold disk_compact in Hi. destruct (N.leb_spec upto (d_base (log_disk (rn_log r)))); cbn in Hi; lia.
  - intros _ l2 [Hok2 Hs2]. by apply set_log_same.
Qed.

Lemma CreateSnapshot_ok data r : node_ok r → imaged data → gwp 0 (CreateSnapshot data) r.
Proof.
  intros Hr Hdata. pose proof Hr as (Hok & He & _ & _ & Hc & _). unfold gwp, CreateSnapshot. wp_pure.
  destruct (N.eqb_spec (l_applied (rn_log r)) 0); [by apply gwp_safe; [|safe]|].
  apply wp_bind, wp_wrapErr. unfold on_log at 1. apply wp_zoom, wp_reads.
  pose proof (term_at_spec (rn_log r) (l_applied (rn_log r)) Hok) as HT.
  destruct (term_at (l_applied (rn_log r)) (rn_log r)) as [t|e| |]; [| |done..]; rewrite set_log_id.
  2: by apply still_grows, still_refl.
  unfold log_term_of in HT. rewrite (proj2 (N.eqb_neq _ _)) in HT by done.
  set (snap := mkSnapshot (l_applied (rn_log r)) t (rn_conf r) data). cbv zeta.
  apply (gwp_bind 0 0); [|lia]. apply wp_try. unfold on_disk, on_log at 1. apply wp_zoom.
  eapply wp_mono; [by apply (log_save_wp (rn_log r) snap); [..|apply Hc]|..]; cbn beta; [..|done].
  2: { intros e l' [Hok' Hs']. pose proof (set_log_same r l' Hr Hok' Hs') as H3.
       split; [done|]. apply gwp_safe; [apply H3|safe]. }
  intros _ l' (Hok' & Hext & _ & Ea & Hd). set (r1 := set_log l' r).
  assert (grows 0 r r1) as H1.
  { apply set_log_grows; [|split; [done|by rewrite Hd]|rewrite Hd; unfold last_of, d_last; cbn; lia].
    apply set_log_ok; [done|done|..]; unfold entries_ok; by rewrite Hd. }
  split; [done|]. case_match; [by apply gwp_safe; [apply H1|safe]|].
  unfold gwp. apply wp_bind, wp_get. case_match; [by apply gwp_safe; [apply H1|safe]|].
  apply gwp_bind_safe; [|intros; safe]. apply compact_ok; [apply H1|].
  change (log_disk (rn_log r1)) with (log_disk l'). rewrite Hd. cbn.
  destruct (N.ltb_spec 0 (c_SnapshotCatchUpEntries (rn_cfg r))); [|lia].
  destruct (N.leb_spec (l_applied (rn_log r)) (c_SnapshotCatchUpEntries (rn_cfg r))); [done|].
  pose proof (log_ok_disk _ Hok) as (_ & HW & _). destruct Hok as (_ & _ & ? & ?).
  rewrite u64_sub_small by lia. lia.
Qed.

(** ** Reads and membership changes *)

Lemma safe_committedInCurrentTerm : safe (reads committedInCurrentTerm).
Proof.
  intros r Hr. apply wp_reads. unfold committedInCurrentTerm. pose proof Hr as (Hok & _).
  destruct (l_committed (rn_log r) =? 0)%N; [by apply still_refl|].
  pose proof (term_at_spec (rn_log r) (l_committed (rn_log r)) Hok) as HT.
  destruct (term_at _ _); [by apply still_refl..|done|done].
Qed.
#[local] Hint Resolve safe_committedInCurrentTerm : safe.

Lemma safe_ReadIndex id : safe (ReadIndex id).
Proof. unfold ReadIndex. safe. Qed.

Lemma EnterJoint_proposable c target cc :
  conf_writable c → target_ok target → EnterJoint c target = Ret cc →
  proposable EntryConfChange (Encode cc).
Proof.
  intros [Hc Hvet] [Ht Henter] HE _. pose proof (Henter _ _ Hvet HE) as Hvet'. unfold EnterJoint in HE.
  set (c0 := mkConfiguration (Voters target) (Voters c) (Learners target)) in HE.
  assert (cc = mkConfChange ConfChangeEnterJoint (normalize c0)) as ->
    by (repeat case_match; by simplify_eq).
  assert (conf_encodable c0) as H0%conf_encodable_normalize.
  { unfold conf_encodable in *. rewrite !Forall_cons in *. destruct Hc as (? & _), Ht as (? & _ & ? & _).
    split; [done|]. split; [done|]. by split; [|constructor]. }
  eexists. rewrite Decode_Encode_normalize by done.
  by rewrite (normalize_id (normalize c0)) by apply normalize_normal.
Qed.

Lemma ProposeConfChange_ok target r :
  node_ok r → (last_of r + 3 < W64)%N → target_ok target → gwp 2 (ProposeConfChange target) r.
Proof.
  intros Hr Hroom Ht. unfold gwp, ProposeConfChange. wp_pure.
  do 3 (case_match; [by apply gwp_safe; [|safe]|]).
  apply gwp_safe_bind; [done|safe|]. intros ok r1 Hs.
  destruct ok; cbn [negb]; [|by apply gwp_safe; [apply Hs|safe]].
  pose proof Hr as (_ & _ & _ & _ & [Hc _] & _).
  destruct (EnterJoint (rn_conf r) target) as [cc|e| |] eqn:EJ; [|by apply gwp_safe; [apply Hs|safe]|..].
  - apply propose_ok; [apply Hs|by rewrite (still_last _ _ Hs)|by apply (EnterJoint_proposable (rn_conf r) target)].
  - revert EJ. unfold EnterJoint, Validate. repeat case_match; done.
  - revert EJ. unfold EnterJoint, Validate. repeat case_match; done.
Qed.

(** ** Tick and Step *)

Lemma safe_expirePendingSnapshots : safe expirePendingSnapshots.
Proof. unfold expirePendingSnapshots. safe. Qed.
#[local] Hint Resolve safe_expirePendingSnapshots : safe.

Lemma safe_tickHeartbeat : safe tickHeartbeat.
Proof. unfold tickHeartbeat. safe. Qed.

Lemma Tick_ok r : node_ok r → (last_of r + 3 < W64)%N → gwp 2 Tick r.
Proof.
  intros Hr Hroom. unfold gwp, Tick. apply wp_bind, wp_get. case_bool_decide as HS.
  { by apply gwp_safe; [|apply safe_tickHeartbeat]. }
  assert (∀ r1, still r r1 → (last_of r1 + 3 < W64)%N ∧ rn_state r1 ≠ Leader) as Hkeep.
  { intros r1 H1. rewrite (still_last _ _ H1).
    destruct H1 as (_ & _ & _ & _ & _ & [-> | ->] & _); by split. }
  apply gwp_safe_bind; [done|safe|]. intros _ r1 H1. unfold gwp. apply wp_bind, wp_get.
  case_match; [by apply gwp_safe; [apply H1|safe]|].
  apply gwp_safe_bind; [apply H1|safe|]. intros _ r2 H2.
  destruct (Hkeep r2) as [? ?]; [by eapply still_trans|]. by apply campaign_ok; [apply H2| |].
Qed.

Lemma safe_stepHigherTerm m : safe (stepHigherTerm m).
Proof. unfold stepHigherTerm. safe. Qed.

Lemma safe_stepLowerTerm m : known (m_From m) → safe (stepLowerTerm m).
Proof. intros Hfrom. unfold stepLowerTerm. safe. Qed.

(** ** Who may truncate *)

(** A whole call: it keeps what [kept] keeps, and a node that leads afterwards has
    only appended. *)
Definition steps r r' : Prop :=
  kept r r' ∧ (rn_state r' = Leader → log_appends (rn_log r) (rn_log r')).

Definition swp {A} (m : M RN A) r : Prop := wp m (λ _, steps r) (λ _, steps r) (λ _, False) r.

Lemma gwp_swp {A} n (m : M RN A) r : gwp n m r → swp m r.
Proof.
  intros H. eapply wp_mono; [exact H|..]; [..|done]; cbn beta; intros;
    (split; [by eapply grows_kept|]; intros _; by destruct H0 as (_ & ? & _)).
Qed.

Lemma safe_swp {A} (m : M RN A) r : node_ok r → safe m → swp m r.
Proof. intros Hr Hm. by eapply gwp_swp, (gwp_safe 0). Qed.

Lemma swp_safe_bind {A B} (m : M RN A) (f : A → M RN B) r :
  node_ok r → safe m → (∀ a r1, still r r1 → swp (f a) r1) → swp (bind m f) r.
Proof.
  intros Hr Hm Hf. apply wp_bind. eapply wp_mono; [by apply Hm|..]; cbn beta; [..|done].
  - intros a r1 H1. pose proof (still_grows _ _ H1) as (_ & HA & _).
    eapply wp_mono; [by apply Hf|..]; [..|done]; cbn beta;
      (intros x r2 [H2 HL2]; split; [eapply kept_trans; [by apply still_kept|done]|];
       intros HS; eapply log_appends_trans; [exact HA|by apply HL2]).
  - intros e r1 H1. split; [by apply still_kept|]. intros _. by apply still_grows in H1 as (_ & ? & _).
Qed.

(** Code that makes no leader. *)
Definition unled {A} (m : M RN A) : Prop :=
  ∀ r, rn_state r ≠ Leader →
    wp m (λ _ r', rn_state r' ≠ Leader) (λ _ r', rn_state r' ≠ Leader) (λ _, True) r.

Lemma unled_bind {A B} (m : M RN A) (f : A → M RN B) :
  unled m → (∀ a, unled (f a)) → unled (bind m f).
Proof.
  intros Hm Hf r Hr. apply wp_bind. eapply wp_mono; [by apply Hm|..]; [|done..].
  cbn beta. intros a r1 H1. by apply Hf.
Qed.

Lemma unled_modify (f : RN → RN) :
  (∀ r, rn_state r ≠ Leader → rn_state (f r) ≠ Leader) → unled (modify f).
Proof. intros Hf r Hr. apply wp_modify. by apply Hf. Qed.

Lemma unled_on_log {A} (m : M (raftLog S) A) : unled (on_log m).
Proof. intros r Hr. unfold on_log. apply wp_zoom. unfold wp. by destruct (m _) as [[]]. Qed.

Lemma unled_try {A} (m : M RN A) : unled m → unled (try m).
Proof. intros Hm r Hr. apply wp_try. by apply Hm. Qed.

Lemma unled_wrapErr {A} msg (m : M RN A) : unled m → unled (wrapErr msg m).
Proof. intros Hm r Hr. apply wp_wrapErr. by apply Hm. Qed.

Ltac unled :=
  repeat (cbv beta zeta; lazymatch goal with
  | |- unled (bind _ _) => apply unled_bind; [|intros]
  | |- unled (modify _) => apply unled_modify; by intros
  | |- unled (send _) => unfold send
  | |- unled (on_log _) => apply unled_on_log
  | |- unled (on_disk _) => unfold on_disk
  | |- unled (try _) => apply unled_try
  | |- unled (wrapErr _ _) => apply unled_wrapErr
  | |- unled (ret _) => by intros ? ?; apply wp_ret
  | |- unled (fail _) => by intros ? ?; apply wp_fail
  | |- unled (panic _) => by intros ? ?; apply wp_panic
  | |- unled outOfFuel => by intros ? ?
  | |- unled (reads ?f) =>
      let r := fresh in intros r ?; apply wp_reads; by destruct (f r)
  | |- unled get => by intros ? ?; apply wp_get
  | |- unled (match ?x with _ => _ end) => destruct x
  | |- _ => progress unfold persistHardState, refreshConfigurationIfNeeded, refreshConfiguration,
              setConfiguration, refreshProgress
  end).

(** What follows a leader ends as a follower. *)
Lemma ends_following {A} t from (k : RN → M RN A) r :
  (∀ r0, unled (k r0)) →
  wp (modify (set_electionElapsed 0) ;;; r0 <- get ;;
      (if negb (bool_decide (rn_state r0 = Follower)) then becomeFollower t from else ret tt) ;;;
      modify (set_lead from) ;;; k r0)
     (λ _ r', rn_state r' ≠ Leader) (λ _ r', rn_state r' ≠ Leader) (λ _, True) r.
Proof.
  intros Hk. wp_pure. case_bool_decide as HS; cbn [negb].
  - wp_pure. apply Hk. cbn in *. by rewrite HS.
  - unfold becomeFollower. apply wp_bind.
    eapply wp_mono; [apply reset_rerole|..]; [|done..]. cbn beta. intros _ r1 _. wp_pure. by apply Hk.
Qed.

Lemma handleAppendRequest_follows m r :
  wp (handleAppendRequest m) (λ _ r', rn_state r' ≠ Leader) (λ _ r', rn_state r' ≠ Leader)
     (λ _, True) r.
Proof. unfold handleAppendRequest. apply ends_following. intros r0. unled. Qed.

Lemma handleSnapshotRequest_follows m r :
  wp (handleSnapshotRequest m) (λ _ r', rn_state r' ≠ Leader) (λ _ r', rn_state r' ≠ Leader)
     (λ _, True) r.
Proof. unfold handleSnapshotRequest. apply ends_following. intros r0. unled. Qed.

Lemma kwp_follows_swp {A} (m : M RN A) r :
  kwp m r →
  wp m (λ _ r', rn_state r' ≠ Leader) (λ _ r', rn_state r' ≠ Leader) (λ _, True) r →
  swp m r.
Proof.
  intros Hk Hf. eapply wp_mono; [apply wp_and; [exact Hk|exact Hf]|..]; cbn beta.
  - intros a r' [? ?]. by split.
  - intros e r' [? ?]. by split.
  - by intros r' [[] _].
Qed.

Lemma dispatch_ok m r :
  node_ok r → msg_ok m → (last_of r + 3 < W64)%N → swp (dispatch m) r.
Proof.
  intros Hr Hm Hroom. pose proof Hm as (_ & _ & _ & _ & Hfrom & _). unfold dispatch. destruct (m_Type m).
  - by apply safe_swp, safe_handleVoteRequest.
  - by eapply gwp_swp, handleVoteResponse_ok.
  - apply kwp_follows_swp; [by apply handleAppendRequest_ok|apply handleAppendRequest_follows].
  - eapply gwp_swp, handleAppendResponse_ok; [done|done|lia].
  - apply kwp_follows_swp; [by apply handleSnapshotRequest_ok|apply handleSnapshotRequest_follows].
  - eapply gwp_swp, handleSnapshotResponse_ok; [done|done|lia].
  - by apply safe_swp; [|safe].
Qed.

Lemma Step_ok m r :
  node_ok r → msg_ok m → (last_of r + 3 < W64)%N → swp (Step m) r.
Proof.
  intros Hr Hm Hroom. pose proof Hm as (_ & _ & _ & _ & Hfrom & _). unfold swp, Step. wp_pure. case_match; [by apply safe_swp; [|safe]|].
  case_match.
  - apply swp_safe_bind; [done|apply safe_stepHigherTerm|]. intros _ r1 Hs.
    apply dispatch_ok; [apply Hs|done|by rewrite (still_last _ _ Hs)].
  - case_match; [by apply safe_swp; [|apply safe_stepLowerTerm]|by apply dispatch_ok].
Qed.

(** ** What waits to be applied *)

(** A batch is the start of what waits, and not empty when something does. *)
Lemma CommittedEntries_batch r :
  node_ok r → ∃ b, let pending := committed_above (rn_log r) (l_applied (rn_log r)) in
  CommittedEntries r = Ret (take b pending) ∧ (b ≤ length pending)%nat ∧
  ((c_MaxApplyEntries (rn_cfg r) < 9223372036854775808)%Z → pending ≠ [] → b ≠ 0%nat).
Proof.
  intros (Hok & _). cbv zeta. unfold CommittedEntries. rewrite (entriesToApply_prefix _ _ Hok).
  set (pending := committed_above _ _). set (max := c_MaxApplyEntries _).
  destruct (Z.ltb_spec 0 max).
  - exists (Nat.min (N.to_nat (index_of_int max)) (length pending)).
    rewrite <- take_take, (firstn_all pending). split_and!; [done|lia|].
    intros Hm Hp. rewrite index_of_int_small by lia. destruct pending; cbn; [done|lia].
  - exists (length pending). rewrite firstn_all. split_and!; [done|lia|].
    intros _ Hp. by destruct pending.
Qed.

End node_safety.
