(* ===== verification/Replication.v ===== *)
(** * What a leader promises

    The behaviour of the leader's half of the protocol on every branch: when the
    commit index advances and to what, how far a rejection moves a follower's
    [Next], when a read barrier is confirmed, that a pre-vote disturbs nobody, and
    which follower is sent nothing at all. *)

From S2P Require Import Prelude Varint Types Config Storage RaftLog RawNode Membership.
From S2P Require Import NodeSafety.

Section replication.
Context {S G : Type} `{Hst : Storage S} `{HL : !LogLaws S} `{Hrand : Rand G} `{HVet : Vetting}.
Local Abbreviation RN := (RawNode S G).
Implicit Types (r : RN) (l : raftLog S).

(** ** Pre-votes *)

(** A pre-vote request disturbs nobody.  Whatever its term, and whatever the
    state of the node it reaches, stepping it changes nothing but the outbox: term,
    vote, role, timers, log and durable state stay, and it never panics. *)
Theorem prevote_request_is_harmless r m :
  node_ok r → m_Type m = MsgVoteReq → m_PreVote m = true →
  ∃ o ms, Step m r = (o, set_msgs ms r) ∧ (o = Ret tt ∨ ∃ e, o = Fail e).
Proof.
  intros (Hok & _) HT HP.
  assert (wp (Step m) (λ u r', u = tt ∧ ∃ ms, r' = set_msgs ms r)
    (λ _ r', ∃ ms, r' = set_msgs ms r) (λ _, False) r) as Hw.
  { assert (∀ m', ∃ ms, set_msgs (rn_msgs r ++ m') r = set_msgs ms r) as Hsend by eauto.
    assert (∃ ms, r = set_msgs ms r) as Hid by (exists (rn_msgs r); by destruct r).
    assert (wp (dispatch m) (λ u r', u = tt ∧ ∃ ms, r' = set_msgs ms r)
      (λ _ r', ∃ ms, r' = set_msgs ms r) (λ _, False) r) as Hd.
    { unfold dispatch. rewrite HT. unfold handleVoteRequest, send, on_log. wp_pure.
      destruct (canVote m r).
      - apply wp_zoom, wp_reads.
        destruct (isUpToDate_ok (rn_log r) (m_LastLogIndex m) (m_LastLogTerm m) Hok) as (t & _ & ->).
        rewrite set_log_id, HP, andb_false_r. wp_pure. by split; [|eauto].
      - wp_pure. by split; [|eauto]. }
    unfold Step. wp_pure. case_match; [by apply wp_fail|].
    case_match; [unfold stepHigherTerm; rewrite HT, HP; by wp_pure|].
    case_match; [unfold stepLowerTerm, send; rewrite HT; wp_pure; apply wp_fail; by eauto|done]. }
  unfold wp in Hw. destruct (Step m r) as [[[]|e| |] r']; [..|done|done].
  - destruct Hw as [_ [ms ->]]. eexists _, _. split; [done|by left].
  - destruct Hw as [ms ->]. eexists _, _. split; [done|right; by eexists].
Qed.

(** ** The commit rule *)

(** The index [maybeAdvanceCommit] may commit, if any: matched by a quorum, beyond
    what is committed, and of the current term. *)
Definition commit_candidate r : option Index :=
  let cand := CommittedIndex (rn_conf r) (matchOf r) in
  if bool_decide (rn_state r = Leader ∧ (l_committed (rn_log r) < cand)%N ∧
                  log_term_of (rn_log r) cand = Some (rn_term r))
  then Some cand else None.

Lemma advance_rest_ok k r :
  node_ok r → IsJoint (rn_conf r) = false →
  wp (persistHardState ;;; maybeLeaveJoint (Datatypes.S k) ;;; stepDownIfRemoved ;;; ret true)
     (λ b r', b = true ∧ still r r') (λ _, still r) (λ _, False) r.
Proof.
  intros Hr HJ. apply wp_bind. eapply wp_mono; [by apply persist_ok|..]; [|done..]. cbn beta.
  intros _ r1 [H1 _]. apply wp_bind. cbn [maybeLeaveJoint]. wp_pure.
  pose proof H1 as (_ & _ & _ & _ & EC & _). rewrite EC, HJ, orb_true_r. wp_pure.
  eapply wp_mono; [apply safe_stepDownIfRemoved, H1|..]; [..|done]; cbn beta.
  - intros _ r2 H2. wp_pure. split; [done|by eapply still_trans].
  - intros _ r2 H2. by eapply still_trans.
Qed.

(** The commit rule, outside a joint configuration.  The commit index moves
    exactly when this node leads, a quorum matches a later index, and the entry there
    is of the current term, and it moves to that index; entries of earlier terms are
    never committed by counting.  Otherwise nothing changes.  It never panics and
    only a failing write or an acknowledgement beyond the log makes it fail. *)
Theorem maybeAdvanceCommit_rule r :
  node_ok r → IsJoint (rn_conf r) = false →
  wp (maybeAdvanceCommit callDepth)
     (λ b r', match commit_candidate r with
              | Some i => b = true ∧ l_committed (rn_log r') = i
              | None => b = false ∧ r' = r
              end)
     (λ _ r', (l_committed (rn_log r') = l_committed (rn_log r) ∧
               log_term_of (rn_log r) (CommittedIndex (rn_conf r) (matchOf r)) = None) ∨
              commit_candidate r = Some (l_committed (rn_log r')))
     (λ _, False) r.
Proof.
  intros Hr HJ. pose proof Hr as (Hok & _). unfold commit_candidate.
  set (cand := CommittedIndex (rn_conf r) (matchOf r)).
  change callDepth with (Datatypes.S (Datatypes.S 6)). cbn [maybeAdvanceCommit]. wp_pure.
  case_bool_decide as HS; cbn [negb].
  2: { rewrite bool_decide_false by tauto. by wp_pure. }
  cbv zeta. fold cand. destruct (N.leb_spec cand (l_committed (rn_log r))) as [|Hgt].
  { rewrite bool_decide_false by lia. by wp_pure. }
  apply wp_bind, wp_wrapErr. unfold on_log at 1. apply wp_zoom, wp_reads. rewrite set_log_id.
  pose proof (term_at_spec (rn_log r) cand Hok) as HT.
  destruct (term_at cand (rn_log r)) as [t|e| |]; [|by left|done..].
  rewrite HT. destruct (N.eqb_spec t (rn_term r)) as [->|Hne]; cbn [negb].
  2: { rewrite bool_decide_false by (intros (_ & _ & [= ->]); done). by wp_pure. }
  rewrite bool_decide_true by done. apply wp_bind. unfold on_log. apply wp_zoom.
  assert (cand ≤ d_last (log_disk (rn_log r)))%N as Hcl.
  { assert (is_Some (log_term_of (rn_log r) cand)) as HT'%log_term_of_is_Some by eauto. lia. }
  eapply wp_mono; [by apply commitTo_spec|..]; [|done..]. cbn beta. intros _ l1 (El & Hok1 & _).
  set (r1 := set_log l1 r).
  assert (node_ok r1) as Hr1.
  { pose proof Hr as (_ & He & Hsn & _). apply set_log_ok; [done|done|..]; by rewrite El. }
  assert (l_committed (rn_log r1) = cand ∧ IsJoint (rn_conf r1) = false) as [EC1 EJ1].
  { split; [|done]. subst r1. cbn. rewrite El. cbn. lia. }
  clearbody r1. eapply wp_mono; [by apply (advance_rest_ok 6)|..]; cbn beta; [..|done].
  - intros b r2 [-> (_ & (_ & -> & _) & _)]. by split.
  - intros e r2 (_ & (_ & -> & _) & _). right. by rewrite EC1.
Qed.

(** ** Sending to one follower *)

Definition replication_of r (id : NodeID) : option (Index * Index) :=
  (λ p, (p_Match p, p_Next p)) <$> progressOf r id.

(** Sending moves no follower's [Match] or [Next], and leaves the reads alone. *)
Definition only_sends r r' : Prop :=
  (∀ id, replication_of r' id = replication_of r id) ∧
  rn_pendingReads r' = rn_pendingReads r ∧ rn_readStates r' = rn_readStates r.

Lemma replication_of_set r id p pr :
  progressOf r id = Some pr → p_Match p = p_Match pr → p_Next p = p_Next pr →
  ∀ i, replication_of (set_progress (insert id p <$> rn_progress r) r) i = replication_of r i.
Proof.
  unfold replication_of, progressOf. cbn. destruct (rn_progress r) as [pm|]; [|done].
  cbn. intros Hp E1 E2 i. destruct (decide (i = id)) as [->|Hne].
  - rewrite lookup_insert_eq, Hp. cbn. congruence.
  - by rewrite lookup_insert_ne.
Qed.

Lemma sendAppendWithRead_only to id r :
  node_ok r →
  wp (sendAppendWithRead to id) (λ _, only_sends r) (λ _ _, False) (λ _, False) r.
Proof.
  intros Hr. pose proof Hr as (Hok & He & _). unfold sendAppendWithRead. wp_pure.
  destruct (progressOf r to) as [pr|] eqn:EP; [|by wp_pure]. case_match; [by wp_pure|].
  pose proof (term_at_spec (rn_log r) (p_Next pr -u 1) Hok) as HT.
  destruct (term_at (p_Next pr -u 1) (rn_log r)) as [t|e| |]; [| |done..].
  - cbv zeta. rewrite (lastIndex_spec _ Hok).
    destruct (N.leb_spec (p_Next pr) (d_last (log_disk (rn_log r)))).
    + match goal with |- context [log_entries_range ?a ?b ?l] =>
        pose proof (log_entries_range_ok l a b Hok He) as HR;
        destruct (log_entries_range a b l) as [es|e| |] end;
        [|by wp_pure|by apply HR..]. unfold send. by wp_pure.
    + unfold send. by wp_pure.
  - unfold sendSnapshot. wp_pure. rewrite EP. case_match; [by wp_pure|]. unfold disk_of.
    rewrite (log_load _ (proj1 Hok)). case_match; [by wp_pure|].
    unfold setProgress, send. wp_pure. split; [|done]. by eapply replication_of_set.
Qed.

(** A rejection backs off and never overshoots.  The follower's [Match] stays, and
    its [Next] stays or moves strictly down while staying above [Match]; so probing a
    follower takes at most [Next - Match - 1] rejections, and a stale or duplicated
    rejection cannot undo what was acknowledged. *)
Theorem rejection_backs_off r m pr :
  node_ok r → rn_state r = Leader → progressOf r (m_From m) = Some pr →
  m_Success m = false → (p_Match pr + 1 < W64)%N →
  wp (handleAppendResponse m)
     (λ _ r', ∃ next, replication_of r' (m_From m) = Some (p_Match pr, next) ∧
        (next = p_Next pr ∨ (p_Match pr < next ∧ next < p_Next pr)%N))
     (λ _ _, False) (λ _, False) r.
Proof.
  intros Hr HS HP HF HW. unfold handleAppendResponse. wp_pure.
  rewrite bool_decide_true, HP, HF by done. cbn [negb].
  set (id := m_From m) in *.
  assert (∃ r1, progressOf r1 id = Some pr ∧ node_ok r1 ∧
    (if negb (m_ReadID m =? 0)%N then ackRead id (m_ReadID m) else ret tt) r = (Ret tt, r1))
    as (r1 & HP1 & Hr1 & E1).
  { destruct (m_ReadID m =? 0)%N; cbn [negb]; [by exists r|]. unfold ackRead, modify.
    destruct (ackLoop _ _ _ _) as [cf wt]. eexists. by split_and!; [| |done]. }
  apply wp_bind. unfold wp at 1. rewrite E1. clear E1.
  apply wp_bind, wp_reads. destruct (nextAfterRejection_ok pr m r1) as [n ->]; [apply Hr1|].
  cbv zeta. set (n1 := if (n <? 1)%N then 1%N else n). rewrite u64_add_small by done.
  set (n2 := if (n1 <=? p_Match pr)%N then _ else n1).
  assert (p_Match pr < n2)%N as Hn2.
  { subst n2. destruct (N.leb_spec n1 (p_Match pr)); lia. }
  clearbody n2. destruct (N.ltb_spec n2 (p_Next pr)) as [Hlt|Hge].
  2: { wp_pure. exists (p_Next pr). unfold replication_of. rewrite HP1. split; [done|by left]. }
  apply wp_bind. unfold setProgress. wp_pure.
  match goal with |- wp _ _ _ _ ?x => set (r2 := x) end.
  assert (node_ok r2) as Hr2 by exact Hr1.
  assert (replication_of r2 id = Some (p_Match pr, n2)) as HP2.
  { unfold replication_of, progressOf in *. subst r2. cbn. destruct (rn_progress r1); [|done].
    cbn. by rewrite lookup_insert_eq. }
  clearbody r2. eapply wp_mono; [by apply sendAppendWithRead_only|..]; [|done..]. cbn beta.
  intros _ r3 (Hrep & _). exists n2. rewrite Hrep. split; [done|by right].
Qed.

(** ** The follower that is sent nothing *)

(** C38: A follower that needs the log from its start is stranded by compaction.  When
    [Next] is 1 and the log no longer reaches back to index 1, the term before it (0,
    at index 0) is known, so no snapshot is sent; the entries are not, so no append
    is sent either, nor any heartbeat: the call does nothing at all. *)
Theorem compaction_strands_empty_follower r to id pr :
  log_ok (rn_log r) → progressOf r to = Some pr → p_Next pr = 1%N → p_PendingSnapshot pr = 0%N →
  (0 < d_base (log_disk (rn_log r)))%N →
  (c_MaxEntriesPerMessage (rn_cfg r) < 9223372036854775808)%Z →
  sendAppendWithRead to id r = (Ret tt, r).
Proof.
  intros Hok HP HN HS HB HM. pose proof (log_ok_disk _ Hok) as (_ & HW & _).
  unfold sendAppendWithRead, bind, get. rewrite HP, HS, HN. cbn [negb N.eqb].
  assert (term_at (1 -u 1) (rn_log r) = Ret 0%N) as -> by done.
  cbv zeta. rewrite (lastIndex_spec _ Hok), (proj2 (N.leb_le _ _)) by (unfold d_last; lia).
  set (hi := N.min _ _).
  assert (1 < hi ∧ hi ≤ d_last (log_disk (rn_log r)) + 1)%N as [Hlo Hhi].
  { subst hi. rewrite u64_add_small by done.
    assert (0 < maxEntriesPerMessage r < 9223372036854775808)%Z as Hm
      by (unfold maxEntriesPerMessage; destruct (Z.ltb_spec 0 (c_MaxEntriesPerMessage (rn_cfg r))); done).
    rewrite (index_of_int_small _ Hm), u64_add_small by (unfold W64; lia).
    unfold d_last in *. lia. }
  clearbody hi. unfold log_entries_range.
  rewrite (lastIndex_spec _ Hok), u64_add_small, (proj2 (N.leb_gt _ _)), (proj2 (N.ltb_ge _ _)) by done.
  destruct (log_entries_out (l_storage (rn_log r)) 1 hi) as (e & -> & _);
    [apply Hok|done|left; fold (log_disk (rn_log r)); lia|done].
Qed.

(** ** Read barriers *)

(** A read barrier is confirmed by a quorum and by nothing less.  An
    acknowledgement concerns the first pending barrier with its id: if the nodes that
    acknowledged it now form a quorum it is confirmed, with the index recorded when it
    was asked, and removed; otherwise it waits with the acknowledgement noted.  Every
    other barrier stays as it was, in order. *)
Theorem ackLoop_spec conf from id (reqs : list readRequest) :
  (Forall (λ q, rr_id q ≠ id) reqs ∧ ackLoop conf from id reqs = ([], reqs)) ∨
  ∃ pre req post,
    reqs = pre ++ req :: post ∧ rr_id req = id ∧ Forall (λ q, rr_id q ≠ id) pre ∧
    let acks := <[from := true]> (rr_acks req) in
    ackLoop conf from id reqs =
      if HasQuorum conf (acked acks)
      then ([mkReadState id (rr_index req)], pre ++ post)
      else ([], pre ++ mkReadRequest id (rr_index req) acks :: post).
Proof.
  induction reqs as [|q reqs IH]; [by left|]. cbn [ackLoop].
  destruct (N.eqb_spec (rr_id q) id) as [<-|Hne]; cbn [negb].
  - right. exists [], q, reqs. split_and!; [done..|constructor|].
    cbv zeta. cbn [rr_id rr_index rr_acks]. by destruct (HasQuorum conf _).
  - destruct IH as [[Hall ->]|(pre & req & post & -> & Hid & Hpre & ->)].
    + left. by split; [constructor|].
    + right. exists (q :: pre), req, post. split_and!; [done..|by constructor|].
      cbv zeta. by destruct (HasQuorum conf _).
Qed.

Lemma forEach_only (l : list NodeID) (body : NodeID → M RN unit) r :
  node_ok r → (∀ x, x ∈ l → safe (body x)) →
  (∀ x r1, node_ok r1 → wp (body x) (λ _, only_sends r1) (λ _ _, False) (λ _, False) r1) →
  wp (forEach l body) (λ _, only_sends r) (λ _ _, False) (λ _, False) r.
Proof.
  intros Hr Hs Hb. revert r Hr. induction l as [|x l IH]; intros r Hr; cbn; [by wp_pure|].
  apply wp_bind. eapply wp_mono; [apply wp_and; [by apply Hb|apply Hs; [by left|done]]|..]; cbn beta;
    [|by intros ? ? []|by intros ? []]. intros _ r1 [(A1 & B1 & C1) H1].
  eapply wp_mono; [apply IH, H1; intros y Hy; apply Hs; by right|..]; [|done..]. cbn beta. intros _ r2 (A2 & B2 & C2).
  split_and!; [|congruence..]. intros id. by rewrite A2.
Qed.

(** Whether the commit index is known to be current. *)
Definition commit_is_current r : Prop :=
  l_committed (rn_log r) ≠ 0%N ∧ log_term_of (rn_log r) (l_committed (rn_log r)) = Some (rn_term r).

Lemma committedInCurrentTerm_spec r :
  log_ok (rn_log r) →
  ∃ b, committedInCurrentTerm r = Ret b ∧ (b = true ↔ commit_is_current r).
Proof.
  intros Hok. unfold committedInCurrentTerm, commit_is_current.
  destruct (N.eqb_spec (l_committed (rn_log r)) 0) as [E|Hne]; [exists false; naive_solver|].
  pose proof (term_at_spec (rn_log r) (l_committed (rn_log r)) Hok) as HT.
  destruct (term_at _ _) as [t|e| |]; [| |done..]; eexists; (split; [done|]); rewrite HT.
  - rewrite N.eqb_eq. naive_solver.
  - naive_solver.
Qed.

(** What asking for a read barrier does, on every branch.  A node that does not
    lead refuses; a leader that has committed nothing in its own term refuses, since
    it cannot know its commit index is current; a leader that is a quorum by itself
    confirms at once; any other records the barrier at its commit index, acknowledged
    by itself alone.  No read is confirmed or dropped in passing. *)
Theorem ReadIndex_spec r id :
  node_ok r →
  wp (ReadIndex id)
     (λ _ r', rn_state r = Leader ∧ commit_is_current r ∧
        let req := mkReadRequest id (l_committed (rn_log r)) {[rn_id r := true]} in
        if HasQuorum (rn_conf r) (acked {[rn_id r := true]})
        then rn_readStates r' = rn_readStates r ++ [mkReadState id (l_committed (rn_log r))] ∧
             rn_pendingReads r' = rn_pendingReads r
        else rn_readStates r' = rn_readStates r ∧
             rn_pendingReads r' = rn_pendingReads r ++ [req])
     (λ e r', r' = r ∧ ((e = ErrNotLeader ∧ rn_state r ≠ Leader) ∨
                        (e = ErrReadIndexUnavailable ∧ rn_state r = Leader ∧ ¬ commit_is_current r)))
     (λ _, False) r.
Proof.
  intros Hr. pose proof Hr as (Hok & _). unfold ReadIndex. wp_pure.
  case_bool_decide as HS; cbn [negb]; [|apply wp_fail; naive_solver].
  apply wp_bind, wp_reads. destruct (committedInCurrentTerm_spec r Hok) as ([] & -> & Hb); cbn [negb].
  2: { apply wp_fail. split; [done|]. right. split_and!; [done..|]. by rewrite <- Hb. }
  cbv zeta. cbn [rr_id rr_index rr_acks]. destruct (HasQuorum _ _) eqn:EQ.
  { wp_pure. split_and!; [done|by apply Hb|done|done]. }
  wp_pure. match goal with |- wp _ _ _ _ ?x => set (r1 := x) end.
  assert (node_ok r1 ∧ rn_readStates r1 = rn_readStates r ∧ rn_pendingReads r1 =
    rn_pendingReads r ++ [mkReadRequest id (l_committed (rn_log r)) {[rn_id r := true]}])
    as (Hr1 & E1 & E2) by done. clearbody r1.
  eapply wp_mono; [apply forEach_only; [done|intros x Hx; eapply safe_sendAppendWithRead, peer_known; [apply Hr|exact Hx]|]|..]; [|..|done|done].
  { intros x r2 Hr2. by apply sendAppendWithRead_only. }
  cbn beta. intros _ r2 (_ & B & C). split_and!; [done|by apply Hb|congruence..].
Qed.
End replication.

(** ** A leader of three whose log starts after a snapshot at 2 *)

Definition lead_conf : Configuration := mkConfiguration [1; 2; 3]%N [] [].

(** Entry 3 is the leader's own; follower 3 matches it, follower 2 is at [next2]. *)
Definition lead_at (committed next2 : Index) : RawNode MemoryStorage unit :=
  mkRawNode 1 (mkConfig 1 10 1 false lead_conf 0 0 0 0 0) tt 1 1 (mkHardState 1 1 2)
    (mkRaftLog (mkMemoryStorage (mkHardState 1 1 2) (mkSnapshot 2 1 lead_conf [])
                  [mkEntry 1 2 EntryNormal []; mkEntry 1 3 EntryNoOp []]) committed 2)
    Leader 1 lead_conf 2 lead_conf ∅
    (Some {[ 1%N := mkProgress 3 4 0 0; 2%N := mkProgress 0 next2 0 0;
             3%N := mkProgress 3 4 0 0 ]}) 0 0 10 [] [] None [].

Lemma lead_at_ok c n : (2 ≤ c ≤ 3)%N → node_ok (lead_at c n).
Proof.
  intros Hc. assert (conf_ok lead_conf) as Henc.
  { apply conf_ok_check; [repeat constructor; by vm_compute|done|by vm_compute]. }
  split; [|unfold snap_ok; split_and!; [by repeat constructor|exact Henc|done|exact Henc|exact Henc|by intros []|done|done]].
  split; [|unfold d_last; cbn; lia]. split; [done|]. split; [contiguous|by vm_compute].
Qed.

(** An empty follower answers an append it cannot place: its log ends at 0. *)
Definition empty_rejection : Message := addressed 2 1 (appendRespMsg 1 false 0 1 0 0).

Definition prevote_at (t : Term) : Message := addressed 2 t (voteReqMsg 1 t true 3 1).

Lemma prevote_request_is_harmless_witness :
  ∃ o ms, Step (prevote_at 9) (lead_at 2 4) = (o, set_msgs ms (lead_at 2 4)) ∧
          (o = Ret tt ∨ ∃ e, o = Fail e).
Proof.
  apply (prevote_request_is_harmless (lead_at 2 4) (prevote_at 9));
    [by apply lead_at_ok|done|done].
Defined.

Lemma maybeAdvanceCommit_rule_witness :
  commit_candidate (lead_at 2 4) = Some 3%N ∧
  ∃ r', maybeAdvanceCommit callDepth (lead_at 2 4) = (Ret true, r') ∧
        l_committed (rn_log r') = 3%N.
Proof.
  split; [by vm_compute|]. eexists. split; [by vm_compute|].
  pose proof (maybeAdvanceCommit_rule (lead_at 2 4)) as Hw.
  assert (commit_candidate (lead_at 2 4) = Some 3%N) as EC by (by vm_compute).
  rewrite EC in Hw. unfold wp in Hw.
  destruct (maybeAdvanceCommit callDepth (lead_at 2 4)) as [o r'] eqn:E. vm_compute in E.
  injection E as <- <-. by destruct Hw as [_ Hw]; [by apply lead_at_ok|by vm_compute|].
Defined.

Lemma rejection_backs_off_witness :
  wp (handleAppendResponse empty_rejection)
     (λ _ r', ∃ next, replication_of r' 2 = Some (0%N, next) ∧
        (next = 4 ∨ (0 < next ∧ next < 4))%N)
     (λ _ _, False) (λ _, False) (lead_at 2 4) ∧
  (snd (handleAppendResponse empty_rejection (lead_at 2 4))) = lead_at 2 1.
Proof.
  split; [|by vm_compute].
  apply (rejection_backs_off (lead_at 2 4) empty_rejection (mkProgress 0 4 0 0));
    [by apply lead_at_ok|by vm_compute..].
Defined.

(** The follower was rejected back to [Next] = 1; from then on neither an append nor a
    heartbeat is addressed to it. *)
Lemma compaction_strands_empty_follower_witness :
  sendAppendWithRead 2 0 (lead_at 2 1) = (Ret tt, lead_at 2 1) ∧
  m_To <$> rn_msgs (snd ((Step empty_rejection ;;; Tick ;;; Tick) (lead_at 2 4))) = [3; 3]%N.
Proof.
  split; [|by vm_compute].
  apply (compaction_strands_empty_follower (lead_at 2 1) 2 0 (mkProgress 0 1 0 0));
    [by apply lead_at_ok|by vm_compute..].
Defined.

Lemma ReadIndex_spec_witness :
  wp (ReadIndex 7)
     (λ _ r', rn_state (lead_at 3 4) = Leader ∧ commit_is_current (lead_at 3 4) ∧
        rn_readStates r' = [] ∧ rn_pendingReads r' = [mkReadRequest 7 3 {[1%N := true]}])
     (λ _ _, False) (λ _, False) (lead_at 3 4).
Proof.
  pose proof (ReadIndex_spec (lead_at 3 4) 7) as Hw. unfold wp in *.
  assert (∃ r', ReadIndex 7 (lead_at 3 4) = (Ret tt, r')) as [r' E] by (eexists; by vm_compute).
  rewrite E in *. apply Hw. by apply lead_at_ok.
Defined.
