(* ===== verification/Votes.v ===== *)
(** * One node's votes

    What a single node does to its term, its vote and its durable hard state,
    whatever it is asked: the local half of Election Safety.  The section proves,
    for every method of RawNode.v and any storage that satisfies [HardStateLaws],
    that the hard state on disk only moves forward ([hard_le]), that a granted
    vote leaves the node only once it is durable, that a candidate counts only
    votes it received, and that a node that becomes leader has a quorum of them.
    Most methods touch neither term nor vote; they are [quiet], and the tactic
    [quiet] proves it by walking their code. *)

From S2P Require Import Prelude Varint Types Config Storage RaftLog RawNode.

Create HintDb quiet discriminated.

(** ** Hard states only move forward *)

(** A later term, or the same term with the same vote or a first one. *)
Definition hard_le (h h' : HardState) : Prop :=
  (hs_Term h < hs_Term h')%N ∨
  (hs_Term h = hs_Term h' ∧ (hs_Vote h = hs_Vote h' ∨ hs_Vote h = None_)).

#[export] Instance hard_le_refl : Reflexive hard_le.
Proof. intros h. right. auto. Qed.

#[export] Instance hard_le_trans : Transitive hard_le.
Proof.
  unfold hard_le. intros [t1 v1 c1] [t2 v2 c2] [t3 v3 c3]. cbn.
  intros [?|[-> [->| ->]]] [?|[-> [->| ->]]]; auto; left; lia.
Qed.

(** [visits h B h']: writing the hard states [B] one after the other leads from
    [h] to [h'], always forward. *)
Inductive visits : HardState → list HardState → HardState → Prop :=
  | visits_nil h : visits h [] h
  | visits_cons h h1 B h' : hard_le h h1 → visits h1 B h' → visits h (h1 :: B) h'.

Lemma visits_app h B h1 B1 h' : visits h B h1 → visits h1 B1 h' → visits h (B ++ B1) h'.
Proof. induction 1; [done|]. intros. cbn. econstructor; eauto. Qed.

Lemma visits_le h B h' : visits h B h' → hard_le h h'.
Proof. induction 1; [done|]. by etrans. Qed.

Lemma visits_between h B h' x : visits h B h' → x ∈ B → hard_le h x ∧ hard_le x h'.
Proof.
  induction 1 as [|h h1 B h' Hle HB IH]; [set_solver|].
  intros [->|Hx]%elem_of_cons; [split; [done|by eapply visits_le]|].
  destruct (IH Hx). split; [by etrans|done].
Qed.

Lemma visits_end h B h' : visits h B h' → h' = h ∨ h' ∈ B.
Proof.
  induction 1 as [|h h1 B h' _ _ [->|?]]; [by left|right..]; apply elem_of_cons; auto.
Qed.

(** Two visited states of one term cannot hold two different votes. *)
Lemma visits_agree h B h' x y :
  visits h B h' → x ∈ h :: B → y ∈ h :: B → hs_Term x = hs_Term y →
  hs_Vote x ≠ None_ → hs_Vote y ≠ None_ → hs_Vote x = hs_Vote y.
Proof.
  induction 1 as [h|h h1 B h' Hle HB IH].
  { rewrite !list_elem_of_singleton. by intros -> ->. }
  assert (∀ z, z ∈ h1 :: B → hard_le h z) as Hh.
  { intros z [->|Hz]%elem_of_cons; [done|].
    etrans; [exact Hle|]. apply (visits_between _ _ _ z HB Hz). }
  intros [->|Hx]%elem_of_cons [->|Hy]%elem_of_cons Ht Hnx Hny; [done|..].
  - destruct (Hh y Hy) as [|[_ [|]]]; [lia|done|done].
  - destruct (Hh x Hx) as [|[_ [|]]]; [lia|done|done].
  - by apply IH.
Qed.

(** A message that grants a real vote. *)
Definition grant (m : Message) : Prop :=
  m_Type m = MsgVoteResp ∧ m_PreVote m = false ∧ m_Granted m = true.

#[export] Instance grant_dec m : Decision (grant m).
Proof. unfold grant. apply _. Defined.

Section votes.
Context {S G : Type} `{Hst : Storage S} `{HH : !HardStateLaws S} `{Hrand : Rand G}.
Local Abbreviation RN := (RawNode S G).
Implicit Types (r : RN).

Definition hard_of r : HardState := hard (disk_of r).

(** [persisted] mirrors the disk. *)
Definition mirror r : Prop :=
  hard_consistent (disk_of r) ∧ rn_persisted r = hard_of r.

(** Between two calls the disk also agrees with the term and the vote in memory. *)
Definition synced r : Prop :=
  mirror r ∧ rn_term r = hs_Term (hard_of r) ∧ rn_vote r = hs_Vote (hard_of r).

(** Every message of [r'] was already in [r] or was sent by this node; grants among
    the new ones are backed by one of the hard states [B]. *)
Definition backed (B : list HardState) r r' : Prop :=
  ∀ m, m ∈ rn_msgs r' → m ∈ rn_msgs r ∨
    (m_From m = rn_id r ∧
     (grant m → ∃ h, h ∈ B ∧ hs_Term h = m_Term m ∧ hs_Vote h = m_To m ∧ m_To m ≠ None_)).

(** What any call does to the disk and to the outbox. *)
Definition advances r r' : Prop :=
  rn_id r' = rn_id r ∧
  (hard_consistent (disk_of r) → hard_consistent (disk_of r')) ∧
  ∃ B, visits (hard_of r) B (hard_of r') ∧ backed B r r'.

(** What a call does that touches neither the term nor the vote. *)
Definition quiet_rel r r' : Prop :=
  synced r' ∧ rn_id r' = rn_id r ∧ rn_term r' = rn_term r ∧ rn_vote r' = rn_vote r ∧
  ((rn_state r' = rn_state r ∧ rn_votes r' = rn_votes r) ∨ rn_state r' = Follower) ∧
  (∀ m, m ∈ rn_msgs r' → m ∈ rn_msgs r ∨ (m_From m = rn_id r ∧ ¬ grant m)).

Definition quiet {A} (m : M RN A) : Prop :=
  ∀ r, synced r → wp m (λ _, quiet_rel r) (λ _, quiet_rel r) (quiet_rel r) r.

Lemma quiet_rel_refl r : synced r → quiet_rel r r.
Proof. intros ?. split_and!; auto. Qed.

Lemma quiet_rel_trans r1 r2 r3 : quiet_rel r1 r2 → quiet_rel r2 r3 → quiet_rel r1 r3.
Proof.
  intros (H1 & I1 & T1 & V1 & S1 & M1) (H2 & I2 & T2 & V2 & S2 & M2).
  split; [done|]. split_and!; try congruence.
  - destruct S2 as [[-> ->]|]; auto.
  - intros m Hm. destruct (M2 m Hm) as [|[? ?]]; [by apply M1|]. right. split; congruence.
Qed.

Lemma advances_refl r : advances r r.
Proof. split_and!; [done..|]. exists []. split; [constructor|]. by left. Qed.

Lemma advances_trans r1 r2 r3 : advances r1 r2 → advances r2 r3 → advances r1 r3.
Proof.
  intros (I1 & C1 & B1 & V1 & M1) (I2 & C2 & B2 & V2 & M2). split; [congruence|]. split; [auto|].
  exists (B1 ++ B2). split; [by eapply visits_app|].
  intros m Hm. destruct (M2 m Hm) as [Hm'|[HF HG]].
  - destruct (M1 m Hm') as [|[? HG]]; [by left|]. right. split; [done|].
    intros (h & ? & ?)%HG. exists h. rewrite elem_of_app. auto.
  - right. split; [congruence|]. intros (h & ? & ?)%HG. exists h. rewrite elem_of_app. auto.
Qed.

Lemma quiet_advances r r' : synced r → quiet_rel r r' → advances r r'.
Proof.
  intros (_ & Ht & Hv) (((Hc & _) & Ht' & Hv') & Hid & ET & EV & _ & HM). split_and!; [done..|].
  exists [hard_of r']. split.
  - econstructor; [|constructor]. right. split; [congruence|]. left. congruence.
  - intros m Hm. destruct (HM m Hm) as [|[? Hn]]; [by left|]. right. by split.
Qed.

(** ** Quiet code *)

Lemma quiet_ret {A} (a : A) : quiet (ret a).
Proof. intros r Hr. by apply quiet_rel_refl. Qed.

Lemma quiet_fail {A} e : quiet (A:=A) (fail e).
Proof. intros r Hr. by apply quiet_rel_refl. Qed.

Lemma quiet_panic {A} p : quiet (A:=A) (panic p).
Proof. intros r Hr. by apply quiet_rel_refl. Qed.

Lemma quiet_outOfFuel {A} : quiet (A:=A) outOfFuel.
Proof. intros r Hr. by apply quiet_rel_refl. Qed.

Lemma quiet_get : quiet get.
Proof. intros r Hr. by apply quiet_rel_refl. Qed.

Lemma quiet_reads {A} (f : RN → outcome A) : quiet (reads f).
Proof. intros r Hr. apply wp_reads. destruct (f r); by apply quiet_rel_refl. Qed.

Lemma quiet_bind {A B} (m : M RN A) (f : A → M RN B) :
  quiet m → (∀ a, quiet (f a)) → quiet (bind m f).
Proof.
  intros Hm Hf r Hr. apply wp_bind. eapply wp_mono; [by apply Hm|..]; [|done..].
  cbn. intros a r' H'. eapply wp_mono; [apply Hf, H'|..]; intros;
    by eapply quiet_rel_trans.
Qed.

(** The state is known to be the one just read. *)
Lemma quiet_bind_get {B} (f : RN → M RN B) :
  (∀ r, synced r → wp (f r) (λ _, quiet_rel r) (λ _, quiet_rel r) (quiet_rel r) r) →
  quiet (bind get f).
Proof. intros Hf r Hr. apply wp_bind, wp_get. by apply Hf. Qed.

Lemma quiet_try {A} (m : M RN A) : quiet m → quiet (try m).
Proof. intros Hm r Hr. apply wp_try. by apply Hm. Qed.

Lemma quiet_wrapErr {A} msg (m : M RN A) : quiet m → quiet (wrapErr msg m).
Proof. intros Hm r Hr. apply wp_wrapErr. by apply Hm. Qed.

Lemma quiet_forEach {A} (l : list A) body : (∀ x, quiet (body x)) → quiet (forEach l body).
Proof.
  intros Hb. induction l as [|x l IH]; cbn; [apply quiet_ret|]. by apply quiet_bind.
Qed.

Lemma quiet_modify (f : RN → RN) :
  (∀ r, synced r → quiet_rel r (f r)) → quiet (modify f).
Proof. intros Hf r Hr. apply wp_modify. by apply Hf. Qed.

(** Methods of the log that leave the hard state alone. *)
Definition log_quiet {A} (m : M (raftLog S) A) : Prop :=
  ∀ l, hard_consistent (l_storage l) →
  let kept l' := hard_consistent (l_storage l') ∧ hard (l_storage l') = hard (l_storage l) in
  wp m (λ _, kept) (λ _, kept) kept l.

Lemma quiet_on_log {A} (m : M (raftLog S) A) : log_quiet m → quiet (on_log m).
Proof.
  intros Hm r Hr. apply wp_zoom. destruct Hr as ((Hc & Hp) & Ht & Hv).
  eapply wp_mono; [by apply Hm|..]; cbn; intros; destruct_and?;
    (split_and!; [|done..|by left|by left]);
    unfold synced, mirror, hard_of, disk_of in *; cbn; split_and!; congruence || done.
Qed.

Lemma log_quiet_reads {A} (f : raftLog S → outcome A) : log_quiet (reads f).
Proof. intros l Hl. cbn. apply wp_reads. by destruct (f l). Qed.

Lemma log_quiet_bind {A B} (m : M (raftLog S) A) (f : A → M (raftLog S) B) :
  log_quiet m → (∀ a, log_quiet (f a)) → log_quiet (bind m f).
Proof.
  intros Hm Hf l Hl. cbn. apply wp_bind. eapply wp_mono; [by apply Hm|..]; [|done..].
  cbn. intros a l' [Hc' He']. eapply wp_mono; [by apply Hf|..]; cbn; intros;
    destruct_and?; split; congruence || done.
Qed.

Lemma log_quiet_get : log_quiet get.
Proof. by intros l Hl. Qed.

Lemma log_quiet_ret {A} (a : A) : log_quiet (ret a).
Proof. by intros l Hl. Qed.

Lemma log_quiet_fail {A} e : log_quiet (A:=A) (fail e).
Proof. by intros l Hl. Qed.

Lemma log_quiet_panic {A} p : log_quiet (A:=A) (panic p).
Proof. by intros l Hl. Qed.

Lemma log_quiet_modify (f : raftLog S → raftLog S) :
  (∀ l, l_storage (f l) = l_storage l) → log_quiet (modify f).
Proof. intros Hf l Hl. cbn. apply wp_modify. by rewrite Hf. Qed.

Lemma log_quiet_append ents : log_quiet (on_storage (AppendEntries ents)).
Proof.
  intros l Hl. apply wp_zoom.
  eapply wp_mono; [by apply (hard_append ents)|..]; cbn; intros; by destruct_and?.
Qed.

Lemma log_quiet_snapshot snap : log_quiet (on_storage (SaveSnapshot snap)).
Proof.
  intros l Hl. apply wp_zoom.
  eapply wp_mono; [by apply (hard_snapshot snap)|..]; cbn; intros; by destruct_and?.
Qed.

Lemma log_quiet_compact upto : log_quiet (on_storage (Compact upto)).
Proof.
  intros l Hl. apply wp_zoom.
  eapply wp_mono; [by apply (hard_compact upto)|..]; cbn; intros; by destruct_and?.
Qed.

(** Updates of fields that are neither term, vote, tally, log nor outbox. *)
Ltac quiet_field :=
  let r := fresh "r" in let Hr := fresh "Hr" in
  intros r Hr; split; [exact Hr|]; cbn;
  split_and!; [done..|first [by left | by right]|first [by left | by intros ? ?%not_elem_of_nil]].

Lemma log_quiet_append_entries ents : log_quiet (log_append_entries ents).
Proof.
  destruct ents as [|e ents]; [apply log_quiet_ret|]. cbn [log_append_entries].
  apply log_quiet_bind; [apply log_quiet_get|intros l].
  case_match; [apply log_quiet_fail|apply log_quiet_append].
Qed.

Lemma log_quiet_commitTo i : log_quiet (commitTo i).
Proof.
  apply log_quiet_bind; [apply log_quiet_get|intros l].
  repeat case_match; auto using log_quiet_ret, log_quiet_panic, log_quiet_modify.
Qed.

Lemma log_quiet_appliedTo i : log_quiet (appliedTo i).
Proof.
  apply log_quiet_bind; [apply log_quiet_get|intros l].
  repeat case_match; auto using log_quiet_ret, log_quiet_panic, log_quiet_modify.
Qed.

Lemma log_quiet_maybeAppend p t c ents : log_quiet (maybeAppend p t c ents).
Proof.
  apply log_quiet_bind; [apply log_quiet_reads|intros ok].
  case_match; [apply log_quiet_ret|].
  apply log_quiet_bind; [apply log_quiet_get|intros l].
  apply log_quiet_bind; [apply log_quiet_reads|intros conflict].
  apply log_quiet_bind; [|intros _].
  - cbv zeta. repeat case_match;
      auto using log_quiet_ret, log_quiet_fail, log_quiet_panic, log_quiet_append_entries.
  - apply log_quiet_bind; [apply log_quiet_commitTo|intros _]. apply log_quiet_ret.
Qed.

Lemma log_quiet_restore snap : log_quiet (log_restore snap).
Proof.
  apply log_quiet_bind; [apply log_quiet_get|intros l].
  case_match; [apply log_quiet_fail|].
  apply log_quiet_bind; [apply log_quiet_snapshot|intros _].
  apply log_quiet_bind; [|intros _]; by apply log_quiet_modify.
Qed.

Lemma log_quiet_compact_to upto : log_quiet (log_compact_to upto).
Proof.
  apply log_quiet_bind; [apply log_quiet_get|intros l].
  case_match; [apply log_quiet_fail|apply log_quiet_compact].
Qed.

Lemma quiet_send m : ¬ grant m → quiet (send m).
Proof.
  intros Hm. apply quiet_modify. intros r Hr. split; [exact Hr|].
  cbn. split_and!; [done..|by left|].
  intros x [Hx|Hx%list_elem_of_singleton]%elem_of_app; [by left|subst x; right; by split].
Qed.

(** ** Persisting *)

(** A call that rewrote the disk and the mirror, and nothing else. *)
Definition rewrote r r' : Prop := ∃ h l, r' = set_persisted h (set_log l r).

Lemma rewrote_refl r : rewrote r r.
Proof. exists (rn_persisted r), (rn_log r). by destruct r. Qed.

Lemma rewrote_fields r r' :
  rewrote r r' →
  rn_id r' = rn_id r ∧ rn_term r' = rn_term r ∧ rn_vote r' = rn_vote r ∧
  rn_state r' = rn_state r ∧ rn_votes r' = rn_votes r ∧ rn_conf r' = rn_conf r ∧
  rn_msgs r' = rn_msgs r.
Proof. by intros (h & l & ->). Qed.

Lemma persist_wp r :
  mirror r →
  wp persistHardState
     (λ _ r', rewrote r r' ∧ mirror r' ∧ (hs_Term (hard_of r) ≤ rn_term r)%N ∧
        hs_Term (hard_of r') = rn_term r ∧ hs_Vote (hard_of r') = rn_vote r)
     (λ e r', rewrote r r' ∧ mirror r' ∧ hard_of r' = hard_of r ∧
        errorsIs e ErrIgnoredMessage = false)
     (λ r', rewrote r r' ∧ mirror r' ∧ hard_of r' = hard_of r) r.
Proof.
  intros [Hc Hp]. unfold persistHardState. wp_go. case_bool_decide as E.
  { wp_go. rewrite Hp in E. split; [apply rewrote_refl|]. split; [by split|].
    rewrite <- E. cbn. split_and!; [lia|done..]. }
  wp_go. unfold on_disk, on_log, on_storage. wp_go.
  eapply wp_mono; [by apply (hard_set _ (disk_of r))|..]; cbn.
  - intros _ s' (Hc' & Hs' & Hle). wp_go. unfold mirror, hard_of, disk_of in *. cbn.
    rewrite Hs'. split_and!; try done. by eexists _, _.
  - intros e s' (Hc' & Hs' & He). unfold mirror, hard_of, disk_of in *. cbn.
    rewrite Hs', He. split_and!; try done. exists (rn_persisted r), (set_l_storage s' (rn_log r)). by destruct r.
  - intros s' (Hc' & Hs'). unfold mirror, hard_of, disk_of in *. cbn.
    rewrite Hs'. split_and!; try done. exists (rn_persisted r), (set_l_storage s' (rn_log r)). by destruct r.
Qed.

Lemma quiet_rel_rewrote r r' :
  synced r → rewrote r r' → mirror r' → hs_Term (hard_of r') = rn_term r →
  hs_Vote (hard_of r') = rn_vote r → quiet_rel r r'.
Proof.
  intros Hr (Ei & Et & Ev & Es & Evs & _ & Em)%rewrote_fields Hm Ht Hv.
  split; [by split_and!; congruence|]. rewrite Ei, Et, Ev, Es, Evs, Em.
  split_and!; [done..|by left|by left].
Qed.

Lemma quiet_persist : quiet persistHardState.
Proof.
  intros r Hr. pose proof Hr as (Hm & Ht & Hv).
  eapply wp_mono; [by apply persist_wp|..]; cbn; intros; destruct_and?;
    apply quiet_rel_rewrote; congruence || done.
Qed.

Lemma becomeFollower_same r lead :
  synced r →
  wp (becomeFollower (rn_term r) lead)
     (λ _, quiet_rel r) (λ _, quiet_rel r) (quiet_rel r) r.
Proof.
  intros Hr. unfold becomeFollower, reset, resetRandomizedElectionTimeout, dropPendingReads.
  wp_go. rewrite N.eqb_refl. cbn [negb]. wp_go. destruct (Intn _ _). wp_go.
  split; [exact Hr|]. cbn. split_and!; [done..|by right|by left].
Qed.

(** ** The methods that touch neither term nor vote *)

#[local] Hint Resolve quiet_persist quiet_get @quiet_reads @quiet_ret @quiet_fail @quiet_panic
  @quiet_outOfFuel @log_quiet_reads log_quiet_append_entries log_quiet_commitTo
  log_quiet_appliedTo log_quiet_maybeAppend log_quiet_restore log_quiet_compact_to
  log_quiet_snapshot : quiet.

Ltac quiet :=
  repeat (cbv beta zeta; lazymatch goal with
  | |- quiet (bind _ _) => apply quiet_bind; [|intros]
  | |- quiet (try _) => apply quiet_try
  | |- quiet (wrapErr _ _) => apply quiet_wrapErr
  | |- quiet (forEach _ _) => apply quiet_forEach; intros
  | |- quiet (modify _) => apply quiet_modify; solve [quiet_field]
  | |- quiet (send _) => apply quiet_send; by intros (? & ? & ?)
  | |- quiet (on_disk _) => unfold on_disk
  | |- quiet (on_log _) => apply quiet_on_log
  | |- quiet (match ?x with _ => _ end) => destruct x
  | |- quiet (let '_ := ?x in _) => destruct x
  | |- _ => solve [auto with quiet]
  end).

Lemma quiet_setProgress id p : quiet (setProgress id p).
Proof. unfold setProgress. quiet. Qed.
#[local] Hint Resolve quiet_setProgress : quiet.

Lemma quiet_refreshProgress : quiet refreshProgress.
Proof. unfold refreshProgress. quiet. Qed.
#[local] Hint Resolve quiet_refreshProgress : quiet.

Lemma quiet_setConfiguration c i : quiet (setConfiguration c i).
Proof. unfold setConfiguration. quiet. Qed.
#[local] Hint Resolve quiet_setConfiguration : quiet.

Lemma quiet_refreshConfiguration : quiet refreshConfiguration.
Proof. unfold refreshConfiguration. quiet. Qed.
#[local] Hint Resolve quiet_refreshConfiguration : quiet.

Lemma quiet_refreshConfigurationIfNeeded ents : quiet (refreshConfigurationIfNeeded ents).
Proof. unfold refreshConfigurationIfNeeded. quiet. Qed.

Lemma quiet_stepDownIfRemoved : quiet stepDownIfRemoved.
Proof.
  apply quiet_bind_get. intros r Hr.
  repeat case_match; [by apply quiet_ret..|by apply becomeFollower_same].
Qed.

Lemma quiet_sendSnapshot to : quiet (sendSnapshot to).
Proof. unfold sendSnapshot. quiet. Qed.
#[local] Hint Resolve quiet_refreshConfigurationIfNeeded quiet_stepDownIfRemoved
  quiet_sendSnapshot : quiet.

Lemma quiet_sendAppendWithRead to id : quiet (sendAppendWithRead to id).
Proof. unfold sendAppendWithRead. quiet. Qed.
#[local] Hint Resolve quiet_sendAppendWithRead : quiet.

Lemma quiet_sendAppend to : quiet (sendAppend to).
Proof. apply quiet_sendAppendWithRead. Qed.
#[local] Hint Resolve quiet_sendAppend : quiet.

Lemma quiet_broadcastAppend : quiet broadcastAppend.
Proof. unfold broadcastAppend. quiet. Qed.
#[local] Hint Resolve quiet_broadcastAppend : quiet.

Lemma quiet_propose_group fuel :
  (∀ ty cmd, quiet (propose fuel ty cmd)) ∧ quiet (maybeAdvanceCommit fuel) ∧
  quiet (maybeLeaveJoint fuel).
Proof.
  induction fuel as [|k (IHp & IHa & IHl)]; [split_and!; intros; apply quiet_outOfFuel|].
  split_and!; intros; cbn [propose maybeAdvanceCommit maybeLeaveJoint]; quiet.
Qed.

Lemma quiet_propose fuel ty cmd : quiet (propose fuel ty cmd).
Proof. apply quiet_propose_group. Qed.

Lemma quiet_maybeAdvanceCommit fuel : quiet (maybeAdvanceCommit fuel).
Proof. apply quiet_propose_group. Qed.
#[local] Hint Resolve quiet_propose quiet_maybeAdvanceCommit : quiet.

Lemma quiet_Propose cmd : quiet (Propose cmd).
Proof. apply quiet_propose. Qed.

Lemma quiet_ProposeConfChange c : quiet (ProposeConfChange c).
Proof. unfold ProposeConfChange. quiet. Qed.

Lemma quiet_ReadIndex id : quiet (ReadIndex id).
Proof. unfold ReadIndex. quiet. Qed.

Lemma quiet_ackRead from id : quiet (ackRead from id).
Proof.
  apply quiet_modify. intros r. destruct (ackLoop _ _ _ _). revert r. quiet_field.
Qed.
#[local] Hint Resolve quiet_ackRead : quiet.

Lemma quiet_acknowledge from pr i : quiet (acknowledge from pr i).
Proof. unfold acknowledge. quiet. Qed.
#[local] Hint Resolve quiet_acknowledge : quiet.

Lemma quiet_handleAppendResponse m : quiet (handleAppendResponse m).
Proof. unfold handleAppendResponse. quiet. Qed.

Lemma quiet_handleSnapshotResponse m : quiet (handleSnapshotResponse m).
Proof. unfold handleSnapshotResponse. quiet. Qed.

Lemma quiet_CreateSnapshot data : quiet (CreateSnapshot data).
Proof. unfold CreateSnapshot. quiet. Qed.

Lemma quiet_SnapshotToApply : quiet SnapshotToApply.
Proof. unfold SnapshotToApply. quiet. Qed.

Lemma quiet_ReadStates : quiet ReadStates.
Proof. unfold ReadStates. quiet. Qed.

Lemma quiet_Messages : quiet Messages.
Proof. unfold Messages. quiet. Qed.

Lemma quiet_ApplyTo i : quiet (ApplyTo i).
Proof. unfold ApplyTo. quiet. Qed.

Lemma quiet_expirePendingSnapshots : quiet expirePendingSnapshots.
Proof. unfold expirePendingSnapshots. quiet. Qed.
#[local] Hint Resolve quiet_expirePendingSnapshots : quiet.

Lemma quiet_tickHeartbeat : quiet tickHeartbeat.
Proof. unfold tickHeartbeat. quiet. Qed.

Lemma quiet_stepLowerTerm m : quiet (stepLowerTerm m).
Proof. unfold stepLowerTerm. quiet. Qed.

(** ** Campaigns *)

(** [P v t c] stands for: [v] has granted [c] its vote for term [t]. *)
Context (P : NodeID → Term → NodeID → Prop).

(** A candidate voted for itself and counts only votes it was granted; a leader
    still holds the vote it gave itself. *)
Definition cand_ok r : Prop :=
  rn_id r ≠ None_ ∧
  (rn_state r = Candidate → rn_vote r = rn_id r ∧
     ∀ v, rn_votes r !! v = Some true → v = rn_id r ∨ P v (rn_term r) (rn_id r)) ∧
  (rn_state r = Leader → rn_vote r = rn_id r).

Definition vote_ok r : Prop := synced r ∧ cand_ok r.

(** Whoever leads after a call led the same term before it, or was elected during
    it by a quorum of the configuration in force when it began. *)
Definition elected r r' : Prop :=
  rn_state r' = Leader →
  (rn_state r = Leader ∧ rn_term r' = rn_term r) ∨
  ∃ f, HasQuorum (rn_conf r) f = true ∧
       ∀ v, f v = true → v = rn_id r ∨ P v (rn_term r') (rn_id r).

Definition step_ok r r' : Prop := vote_ok r' ∧ advances r r' ∧ elected r r'.

(** The outcome of a call: a return keeps all of the above; an error either does
    too or is one the driver stops on; after a panic the disk is still sound. *)
Definition votes_wp {A} (m : M RN A) r : Prop :=
  wp m (λ _, step_ok r)
     (λ e r', step_ok r r' ∨ (errorsIs e ErrIgnoredMessage = false ∧ advances r r'))
     (advances r) r.

Lemma cand_ok_quiet r r' : cand_ok r → quiet_rel r r' → cand_ok r'.
Proof.
  intros (Hid & HC & HL) (_ & EI & ET & EV & ES & _). unfold cand_ok. rewrite EI, ET, EV.
  destruct ES as [[-> ->]| ->]; by split_and!.
Qed.

Lemma step_ok_refl r : vote_ok r → step_ok r r.
Proof. intros Hr. split; [done|]. split; [apply advances_refl|]. intros ->. by left. Qed.

Lemma step_ok_trans r1 r2 r3 :
  step_ok r1 r2 → rn_conf r2 = rn_conf r1 → step_ok r2 r3 → step_ok r1 r3.
Proof.
  intros (V1 & A1 & E1) EC (V2 & A2 & E2). split; [done|].
  split; [by eapply advances_trans|]. intros HL.
  destruct A1 as [EI _]. destruct (E2 HL) as [[HL2 ET]|(f & Hf & Hv)].
  - rewrite ET. by apply E1.
  - right. exists f. rewrite EC in Hf. rewrite EI in Hv. by split.
Qed.

Lemma step_ok_quiet r1 r2 r3 : step_ok r1 r2 → quiet_rel r2 r3 → step_ok r1 r3.
Proof.
  intros ((S1 & C1) & A1 & E1) Q. split; [split; [apply Q|by eapply cand_ok_quiet]|].
  split; [eapply advances_trans; [done|by apply quiet_advances]|].
  destruct Q as (_ & _ & ET & _ & ES & _). intros HL. rewrite ET.
  apply E1. destruct ES as [[<- _]|]; congruence.
Qed.

Lemma quiet_step_ok r r' : vote_ok r → quiet_rel r r' → step_ok r r'.
Proof. intros Hr Q. eapply step_ok_quiet; [by apply step_ok_refl|done]. Qed.

Lemma votes_quiet {A} (m : M RN A) r : vote_ok r → quiet m → votes_wp m r.
Proof.
  intros Hr Hm. eapply wp_mono; [by apply Hm, Hr|..]; cbn; intros.
  - by apply quiet_step_ok.
  - left. by apply quiet_step_ok.
  - apply quiet_advances; [apply Hr|done].
Qed.

(** Sequencing: [m] leaves the configuration alone, then [f] runs. *)
Lemma votes_bind {A B} (m : M RN A) (f : A → M RN B) r :
  wp m (λ a r', step_ok r r' ∧ rn_conf r' = rn_conf r ∧ votes_wp (f a) r')
     (λ e r', step_ok r r' ∨ (errorsIs e ErrIgnoredMessage = false ∧ advances r r'))
     (advances r) r →
  votes_wp (bind m f) r.
Proof.
  intros Hm. apply wp_bind. eapply wp_mono; [exact Hm|..]; [|done..]. cbn.
  intros a r' (Hs & EC & Hf). eapply wp_mono; [exact Hf|..]; cbn.
  - intros. by eapply step_ok_trans.
  - intros e r'' [H2|[He H2]]; [left; by eapply step_ok_trans|right].
    split; [done|]. eapply advances_trans; [apply Hs|done].
  - intros. eapply advances_trans; [apply Hs|done].
Qed.

(** A quiet tail. *)
Lemma votes_bind_quiet {A B} (m : M RN A) (f : A → M RN B) r :
  votes_wp m r → (∀ a, quiet (f a)) → votes_wp (bind m f) r.
Proof.
  intros Hm Hf. apply wp_bind. eapply wp_mono; [exact Hm|..]; [|done..]. cbn.
  intros a r' Hs. eapply wp_mono; [apply Hf, Hs|..]; cbn; intros.
  - by eapply step_ok_quiet.
  - left. by eapply step_ok_quiet.
  - eapply advances_trans; [apply Hs|]. apply quiet_advances; [apply Hs|done].
Qed.

(** Quiet code after a step. *)
Lemma votes_then {A} (m : M RN A) r r1 :
  step_ok r r1 → quiet m →
  wp m (λ _, step_ok r)
     (λ e r', step_ok r r' ∨ (errorsIs e ErrIgnoredMessage = false ∧ advances r r'))
     (advances r) r1.
Proof.
  intros Hs Hm. eapply wp_mono; [apply Hm, Hs|..]; cbn; intros.
  - by eapply step_ok_quiet.
  - left. by eapply step_ok_quiet.
  - eapply advances_trans; [apply Hs|]. apply quiet_advances; [apply Hs|done].
Qed.

(** Advancing without writing to disk or sending. *)
Lemma advances_same r r' :
  rn_id r' = rn_id r → hard_of r' = hard_of r → rn_msgs r' = rn_msgs r →
  (hard_consistent (disk_of r) → hard_consistent (disk_of r')) → advances r r'.
Proof.
  intros EI EH EM HC. split_and!; [done..|]. exists []. rewrite EH. split; [constructor|].
  intros m. rewrite EM. by left.
Qed.

Lemma becomeLeader_votes r f :
  vote_ok r → rn_state r = Candidate → HasQuorum (rn_conf r) f = true →
  (∀ v, f v = true → v = rn_id r ∨ P v (rn_term r) (rn_id r)) →
  votes_wp becomeLeader r.
Proof.
  intros [Hs (Hid & HC & HL)] Est Hq Hf.
  unfold votes_wp, becomeLeader, reset, resetRandomizedElectionTimeout, dropPendingReads. wp_pure.
  rewrite Est, bool_decide_false by done. wp_pure. rewrite N.eqb_refl. cbn [negb]. wp_pure.
  destruct (Intn _ _) as [j g]. apply wp_unbind.
  match goal with |- wp _ _ _ _ ?x => set (r1 := x) end.
  apply votes_then; [|quiet].
  split; [|split; [by apply advances_same|]].
  - split; [exact Hs|]. split; [done|]. split; [done|]. intros _. by apply HC.
  - intros _. right. by exists f.
Qed.

Lemma recordVote_votes r from g :
  vote_ok r →
  (rn_state r = Candidate → g = true → from = rn_id r ∨ P from (rn_term r) (rn_id r)) →
  wp (recordVote from g)
     (λ _ r', step_ok r r' ∧ rn_conf r' = rn_conf r ∧ rn_state r' = rn_state r)
     (λ _ _, False) (λ _, False) r.
Proof.
  intros Hr Hg. pose proof Hr as [Hs (Hid & HC & HL)]. apply wp_modify.
  destruct (rn_votes r !! from) eqn:E; [by split; [apply step_ok_refl|]|].
  split; [|done]. split; [|split; [by apply advances_same|by left]].
  split; [exact Hs|]. split; [done|]. split; [|done].
  intros HS. destruct (HC HS) as [Hv Hvotes]. split; [done|]. cbn. intros v.
  rewrite lookup_insert_Some. intros [[<- ->]|[_ ?]]; auto.
Qed.

(** Making a candidacy durable. *)
Lemma campaign_persist r r1 (t : Term) :
  synced r → rn_id r ≠ None_ → mirror r1 → hard_of r1 = hard_of r →
  rn_id r1 = rn_id r → rn_term r1 = rn_term r +u 1 → rn_vote r1 = rn_id r →
  rn_state r1 = Candidate → (∀ v, rn_votes r1 !! v ≠ Some true) → rn_conf r1 = rn_conf r →
  rn_msgs r1 = rn_msgs r →
  wp (persistHardState ;;; ret t)
     (λ _ r', step_ok r r' ∧ rn_conf r' = rn_conf r ∧ rn_id r' = rn_id r ∧
        (rn_state r' = PreCandidate ∨ rn_state r' = Candidate))
     (λ e r', step_ok r r' ∨ (errorsIs e ErrIgnoredMessage = false ∧ advances r r'))
     (advances r) r1.
Proof.
  intros (_ & Ht & _) Hid Hm EH EI ET EV ES EVs EC EM.
  apply wp_bind. eapply wp_mono; [by apply persist_wp|..]; cbn beta.
  - intros _ r' (Hw & Hm' & Hle & Ht' & Hv'). apply wp_ret.
    destruct (rewrote_fields _ _ Hw) as (Fi & Ft & Fv & Fs & Fvs & Fc & Fm).
    split; [|split_and!; [congruence..|right; congruence]]. split; [|split; [|congruence]].
    + split; [by split_and!; congruence|]. split; [congruence|]. split; [|congruence].
      intros _. split; [congruence|]. intros v. rewrite Fvs. by intros ?%EVs.
    + split; [congruence|]. split; [by intros; apply Hm'|]. exists [hard_of r']. split.
      * econstructor; [|constructor]. left. rewrite Ht', ET, <- Ht.
        rewrite EH, ET, <- Ht in Hle. pose proof (u64_succ_ne (rn_term r)). lia.
      * intros m. rewrite Fm, EM. by left.
  - intros e r' (Hw & [Hc' _] & Hh & He). right. split; [done|].
    destruct (rewrote_fields _ _ Hw) as (Fi & _ & _ & _ & _ & _ & Fm).
    apply advances_same; congruence || done.
  - intros r' (Hw & [Hc' _] & Hh).
    destruct (rewrote_fields _ _ Hw) as (Fi & _ & _ & _ & _ & _ & Fm).
    apply advances_same; congruence || done.
Qed.

(** Entering a campaign: a straw poll commits to nothing, a real one is on disk
    before anything else happens. *)
Lemma enterCampaign_votes r pre :
  vote_ok r →
  wp (enterCampaign pre)
     (λ _ r', step_ok r r' ∧ rn_conf r' = rn_conf r ∧ rn_id r' = rn_id r ∧
        (rn_state r' = PreCandidate ∨ rn_state r' = Candidate))
     (λ e r', step_ok r r' ∨ (errorsIs e ErrIgnoredMessage = false ∧ advances r r'))
     (advances r) r.
Proof.
  intros Hr. pose proof Hr as [Hs (Hid & HC & HL)].
  unfold enterCampaign, becomePreCandidate, becomeCandidate, reset,
    resetRandomizedElectionTimeout, dropPendingReads.
  destruct pre; wp_pure; (case_bool_decide; [apply wp_panic, advances_refl|]); wp_pure.
  - destruct (Intn _ _) as [j g]. split; [|by auto].
    split; [|split; [by apply advances_same|done]]. split; [exact Hs|]. by split_and!.
  - pose proof (u64_succ_ne (rn_term r)) as Hne.
    rewrite (proj2 (N.eqb_neq _ _)) by done. cbn [negb]. wp_pure.
    destruct (Intn _ _) as [j g].
    match goal with |- wp _ _ _ _ ?x => set (r1 := x) end.
    apply wp_unbind, campaign_persist; try done. exact (proj1 Hs).
Qed.

Lemma campaign_group_votes fuel :
  (∀ pre r, vote_ok r → votes_wp (campaign fuel pre) r) ∧
  (∀ r, vote_ok r → rn_state r = PreCandidate ∨ rn_state r = Candidate →
        votes_wp (tallyVotes fuel) r).
Proof.
  induction fuel as [|k [IHc IHt]]; [by split; intros; apply votes_quiet; quiet|].
  split; intros; cbn [campaign tallyVotes].
  - unfold votes_wp. wp_pure. case_match; [by apply votes_quiet; quiet|].
    apply votes_bind. eapply wp_mono; [by apply enterCampaign_votes|..]; [|done..]; cbn beta.
    intros t r1 (H1 & EC1 & EI1 & ES1). split_and!; [done..|].
    apply votes_bind. eapply wp_mono.
    { apply recordVote_votes; [apply H1|]. intros _ _. by left. }
    2-3: done. cbn beta. intros _ r2 (H2 & EC2 & ES2). split_and!; [done..|].
    apply votes_bind_quiet; [apply IHt; [apply H2|by rewrite ES2]|].
    intros; quiet.
  - unfold votes_wp. wp_pure. destruct (HasQuorum (rn_conf r) (votedYes r)) eqn:EQ.
    + case_bool_decide as ES.
      * apply votes_bind_quiet; [by apply IHc|intros; quiet].
      * apply votes_bind_quiet; [|intros; quiet].
        assert (rn_state r = Candidate) as ES' by tauto.
        apply (becomeLeader_votes r (votedYes r)); try done.
        intros v Hv. destruct H as (_ & _ & HC & _). apply (HC ES').
        unfold votedYes in Hv. by destruct (rn_votes r !! v) as [[]|].
    + case_match; [|by apply votes_quiet; quiet].
      apply votes_bind_quiet; [|intros; quiet].
      eapply wp_mono; [apply becomeFollower_same, H|..]; cbn; intros.
      * by apply quiet_step_ok.
      * left. by apply quiet_step_ok.
      * apply quiet_advances; [apply H|done].
Qed.

Lemma campaign_votes fuel pre r : vote_ok r → votes_wp (campaign fuel pre) r.
Proof. apply campaign_group_votes. Qed.

Lemma tallyVotes_votes fuel r :
  vote_ok r → rn_state r = PreCandidate ∨ rn_state r = Candidate →
  votes_wp (tallyVotes fuel) r.
Proof. apply campaign_group_votes. Qed.

(** ** Answering *)

Lemma wp_votes_quiet {A} (m : M RN A) r :
  vote_ok r → wp m (λ _, quiet_rel r) (λ _, quiet_rel r) (quiet_rel r) r → votes_wp m r.
Proof.
  intros Hr Hm. eapply wp_mono; [exact Hm|..]; cbn; intros.
  - by apply quiet_step_ok.
  - left. by apply quiet_step_ok.
  - apply quiet_advances; [apply Hr|done].
Qed.

(** What a granted vote needs of the voter: it has not voted, or for the same
    candidate. *)
Lemma canVote_grant r m :
  canVote m r = true → m_PreVote m = false →
  rn_vote r = m_From m ∨ rn_vote r = None_.
Proof.
  unfold canVote. intros Hc Hp. revert Hc. rewrite Hp.
  destruct (N.eqb_spec (rn_vote r) (m_From m)); [by left|].
  destruct (N.eqb_spec (rn_vote r) None_); [by right|]. done.
Qed.

(** The grant itself: recorded, durable, then sent. *)
Lemma grant_votes r m :
  vote_ok r → m_From m ≠ None_ → rn_vote r = m_From m ∨ rn_vote r = None_ →
  votes_wp ((modify (set_vote (m_From m)) ;;;
             modify (set_electionElapsed 0) ;;;
             persistHardState) ;;;
            send (voteRespMsg (m_From m) (rn_term r) false true)) r.
Proof.
  intros [(Hm & Ht & Hv) (Hid & HC & HL)] Hfrom Hcan. unfold votes_wp. wp_pure.
  match goal with |- wp _ _ _ _ ?x => set (r1 := x) end.
  assert (mirror r1) as Hm1 by exact Hm.
  assert (rn_state r = Candidate ∨ rn_state r = Leader → m_From m = rn_id r) as Hself.
  { intros [Hs|Hs]; [destruct (HC Hs) as [E _]|pose proof (HL Hs) as E];
      destruct Hcan; congruence. }
  eapply wp_mono; [by apply persist_wp|..]; cbn beta.
  - intros _ r2 (Hw & Hm2 & Hle & Ht2 & Hv2).
    destruct (rewrote_fields _ _ Hw) as (Fi & Ft & Fv & Fs & Fvs & Fc & Fm). clear Hw.
    change (rn_id r1) with (rn_id r) in Fi. change (rn_term r1) with (rn_term r) in Ft, Ht2.
    change (rn_vote r1) with (m_From m) in Fv, Hv2. change (rn_state r1) with (rn_state r) in Fs.
    change (rn_votes r1) with (rn_votes r) in Fvs. change (rn_msgs r1) with (rn_msgs r) in Fm.
    clear Fc Hm1 Hle. clear r1. apply wp_modify.
    assert (synced r2) as Hs2 by (split; [done|split; congruence]).
    split; [split; [exact Hs2|]|split].
    + split; [cbn; congruence|]. cbn. rewrite Fs, Fv, Fi, Fvs, Ft. split.
      * intros Hs. destruct (HC Hs). auto.
      * auto.
    + split; [done|]. split; [by intros; apply Hm2|]. exists [hard_of r2]. split.
      * econstructor; [|constructor]. right. split; [congruence|].
        destruct Hcan; [left|right]; congruence.
      * intros x. cbn. rewrite Fm. intros [Hx|Hx%list_elem_of_singleton]%elem_of_app; [by left|].
        right. subst x. cbn. split; [done|]. intros _. exists (hard_of r2).
        split_and!; [apply list_elem_of_singleton; done|rewrite Ht2|done..].
        destruct (N.eqb_spec (rn_term r) 0); congruence.
    + intros HLead. left. cbn in HLead |- *. split; congruence.
  - intros e r2 (Hw & [Hc' _] & Hh & He). right. split; [done|].
    destruct (rewrote_fields _ _ Hw) as (Fi & _ & _ & _ & _ & _ & Fm).
    apply advances_same; [by rewrite Fi|by rewrite Hh|by rewrite Fm|done].
  - intros r2 (Hw & [Hc' _] & Hh).
    destruct (rewrote_fields _ _ Hw) as (Fi & _ & _ & _ & _ & _ & Fm).
    apply advances_same; [by rewrite Fi|by rewrite Hh|by rewrite Fm|done].
Qed.

Lemma handleVoteRequest_votes r m :
  vote_ok r → m_From m ≠ None_ → votes_wp (handleVoteRequest m) r.
Proof.
  intros Hr Hfrom. unfold votes_wp, handleVoteRequest. wp_pure.
  assert (∀ g, (g = true → canVote m r = true) →
    votes_wp ((if g && negb (m_PreVote m) then
                 modify (set_vote (m_From m)) ;;;
                 modify (set_electionElapsed 0) ;;;
                 persistHardState
               else ret tt) ;;;
              send (voteRespMsg (m_From m)
                      (if m_PreVote m && g then m_Term m else rn_term r) (m_PreVote m) g)) r)
    as Hreply.
  { intros g Hg. destruct g; [|by cbn [andb]; apply votes_quiet; quiet].
    destruct (m_PreVote m) eqn:EP; cbn [andb negb].
    - apply votes_quiet; [done|]. quiet.
    - apply grant_votes; auto using canVote_grant. }
  destruct (canVote m r) eqn:EC.
  - unfold on_log. apply wp_zoom, wp_reads.
    destruct (isUpToDate _ _ _) as [g| | |]; rewrite ?set_log_id.
    + apply Hreply. auto.
    + left. by apply step_ok_refl.
    + apply advances_refl.
    + apply advances_refl.
  - apply wp_ret. apply Hreply. done.
Qed.

Lemma handleVoteResponse_votes r m :
  vote_ok r →
  (m_PreVote m = false → m_Granted m = true → P (m_From m) (rn_term r) (rn_id r)) →
  votes_wp (handleVoteResponse m) r.
Proof.
  intros Hr HP. unfold votes_wp, handleVoteResponse. wp_pure.
  destruct (m_PreVote m && negb (bool_decide (rn_state r = PreCandidate))) eqn:E1;
    [by apply votes_quiet; quiet|].
  destruct (negb (m_PreVote m) && negb (bool_decide (rn_state r = Candidate))) eqn:E2;
    [by apply votes_quiet; quiet|].
  assert (rn_state r = PreCandidate ∨ (rn_state r = Candidate ∧ m_PreVote m = false)) as Hrole.
  { destruct (m_PreVote m); cbn in E1, E2; [left|right]; revert E1 E2;
      repeat case_bool_decide; done. }
  apply votes_bind. eapply wp_mono; [apply (recordVote_votes r); [done|]|..]; [|..|done|done].
  { intros Hs Hg. right. apply HP; [|done]. destruct Hrole as [|[_ ?]]; congruence. }
  cbn beta. intros _ r1 (H1 & EC & ES). split_and!; [done..|].
  apply votes_bind_quiet; [|intros; quiet].
  apply tallyVotes_votes; [apply H1|]. rewrite ES. tauto.
Qed.

(** A request from the leader of our own term ends a campaign without changing term
    or vote. *)
Lemma follow_quiet r (t : Term) from {A} (k : M RN A) :
  synced r → t = rn_term r → quiet k →
  wp (bind (if negb (bool_decide (rn_state r = Follower)) then becomeFollower t from else ret tt)
           (λ _, k)) (λ _, quiet_rel r) (λ _, quiet_rel r) (quiet_rel r) r.
Proof.
  intros Hr -> Hk. apply wp_bind.
  assert (∀ r1, quiet_rel r r1 →
            wp k (λ _, quiet_rel r) (λ _, quiet_rel r) (quiet_rel r) r1) as Hk'.
  { intros r1 H1. eapply wp_mono; [apply Hk, H1|..]; intros; by eapply quiet_rel_trans. }
  case_match; [|by apply Hk', quiet_rel_refl].
  eapply wp_mono; [by apply becomeFollower_same|..]; [|done..]. cbn. auto.
Qed.

Lemma quiet_elapsed {A} (k : RN → M RN A) r :
  (∀ r1, synced r1 → rn_term r1 = rn_term r → wp (k r1) (λ _, quiet_rel r1)
     (λ _, quiet_rel r1) (quiet_rel r1) r1) →
  synced r →
  wp (bind (modify (set_electionElapsed 0)) (λ _, bind get k)) (λ _, quiet_rel r)
     (λ _, quiet_rel r) (quiet_rel r) r.
Proof.
  intros Hk Hr. wp_pure.
  assert (∀ x, synced x → quiet_rel x (set_electionElapsed 0 x)) as HE by quiet_field.
  pose proof (HE r Hr) as H1.
  eapply wp_mono; [apply Hk; [apply H1|done]|..]; intros;
    (eapply quiet_rel_trans; [exact H1|done]).
Qed.

Lemma handleAppendRequest_quiet r m :
  synced r → m_Term m = rn_term r →
  wp (handleAppendRequest m) (λ _, quiet_rel r) (λ _, quiet_rel r) (quiet_rel r) r.
Proof.
  intros Hr Ht. apply quiet_elapsed; [|done].
  intros r1 H1 E1. apply follow_quiet; [done|congruence|]. quiet.
Qed.

Lemma handleSnapshotRequest_quiet r m :
  synced r → m_Term m = rn_term r →
  wp (handleSnapshotRequest m) (λ _, quiet_rel r) (λ _, quiet_rel r) (quiet_rel r) r.
Proof.
  intros Hr Ht. apply quiet_elapsed; [|done].
  intros r1 H1 E1. apply follow_quiet; [done|congruence|]. quiet.
Qed.

(** ** Step, Tick and start *)

(** The two pre-vote messages whose later term is not adopted. *)
Definition pre_exempt (m : Message) : Prop :=
  (m_Type m = MsgVoteReq ∨ m_Type m = MsgVoteResp) ∧ m_PreVote m = true.

(** Adopting a later term: durable before anything is answered. *)
Lemma adopt_votes r (t : Term) lead :
  vote_ok r → (rn_term r < t)%N →
  wp (becomeFollower t lead ;;; persistHardState)
     (λ _ r', step_ok r r' ∧ rn_conf r' = rn_conf r ∧ rn_term r' = t)
     (λ e r', step_ok r r' ∨ (errorsIs e ErrIgnoredMessage = false ∧ advances r r'))
     (advances r) r.
Proof.
  intros [(Hm & Ht & Hv) (Hid & _)] Hlt.
  unfold becomeFollower, reset, resetRandomizedElectionTimeout, dropPendingReads. wp_pure.
  rewrite (proj2 (N.eqb_neq _ _)) by lia. cbn [negb]. wp_pure. destruct (Intn _ _) as [j g].
  match goal with |- wp _ _ _ _ ?x => set (r1 := x) end.
  assert (mirror r1) as Hm1 by exact Hm.
  assert (hard_of r1 = hard_of r ∧ rn_id r1 = rn_id r ∧ rn_term r1 = t ∧ rn_vote r1 = None_ ∧
          rn_state r1 = Follower ∧ rn_conf r1 = rn_conf r ∧ rn_msgs r1 = rn_msgs r)
    as (EH & EI & ET & EV & ES & EC & EM) by done.
  clearbody r1. eapply wp_mono; [by apply persist_wp|..]; cbn beta.
  - intros _ r' (Hw & Hm' & Hle & Ht' & Hv').
    destruct (rewrote_fields _ _ Hw) as (Fi & Ft & Fv & Fs & Fvs & Fc & Fm).
    split; [|split; congruence]. split; [|split; [|congruence]].
    + split; [by split; [|split; congruence]|]. split; [congruence|]. split; congruence.
    + split; [congruence|]. split; [by intros; apply Hm'|]. exists [hard_of r']. split.
      * econstructor; [|constructor]. left. rewrite Ht', ET. lia.
      * intros x. rewrite Fm, EM. by left.
  - intros e r' (Hw & [Hc' _] & Hh & He). right. split; [done|].
    destruct (rewrote_fields _ _ Hw) as (Fi & _ & _ & _ & _ & _ & Fm).
    apply advances_same; congruence || done.
  - intros r' (Hw & [Hc' _] & Hh).
    destruct (rewrote_fields _ _ Hw) as (Fi & _ & _ & _ & _ & _ & Fm).
    apply advances_same; congruence || done.
Qed.

Lemma stepHigherTerm_votes r m :
  vote_ok r → (rn_term r < m_Term m)%N →
  wp (stepHigherTerm m)
     (λ _ r', step_ok r r' ∧ rn_conf r' = rn_conf r ∧
              (rn_term r' = m_Term m ∨ pre_exempt m))
     (λ e r', step_ok r r' ∨ (errorsIs e ErrIgnoredMessage = false ∧ advances r r'))
     (advances r) r.
Proof.
  intros Hr Hlt. unfold stepHigherTerm.
  assert (∀ lead, wp (becomeFollower (m_Term m) lead ;;; persistHardState)
     (λ _ r', step_ok r r' ∧ rn_conf r' = rn_conf r ∧ (rn_term r' = m_Term m ∨ pre_exempt m))
     (λ e r', step_ok r r' ∨ (errorsIs e ErrIgnoredMessage = false ∧ advances r r'))
     (advances r) r) as HA.
  { intros lead. eapply wp_mono; [by apply adopt_votes|..]; [|done..]. cbn.
    intros _ r' (? & ? & ?). auto. }
  assert (pre_exempt m → wp (ret tt)
     (λ _ r', step_ok r r' ∧ rn_conf r' = rn_conf r ∧ (rn_term r' = m_Term m ∨ pre_exempt m))
     (λ e r', step_ok r r' ∨ (errorsIs e ErrIgnoredMessage = false ∧ advances r r'))
     (advances r) r) as HE.
  { intros Hp. apply wp_ret. split; [by apply step_ok_refl|auto]. }
  destruct (m_Type m) eqn:ET; try apply HA;
    destruct (m_PreVote m) eqn:EP; try apply HA;
    first [by apply HE; split; auto | destruct (m_Granted m); [by apply HE; split; auto|apply HA]].
Qed.

(** What delivery guarantees about a message. *)
Definition msg_backed (m : Message) : Prop :=
  m_From m ≠ None_ ∧
  (grant m → m_To m ≠ None_ ∧ P (m_From m) (m_Term m) (m_To m)).

Lemma dispatch_votes r m :
  vote_ok r → msg_backed m → m_To m = rn_id r ∨ m_To m = None_ →
  m_Term m = rn_term r ∨ pre_exempt m → votes_wp (dispatch m) r.
Proof.
  intros Hr [Hfrom HG] Hto Ht. unfold dispatch, pre_exempt in *. destruct (m_Type m) eqn:ET.
  - by apply handleVoteRequest_votes.
  - apply handleVoteResponse_votes; [done|]. intros EP Eg.
    destruct HG as [Hn HP]; [done|]. destruct Hto; [|congruence].
    destruct Ht as [<-|[_ ?]]; congruence.
  - apply wp_votes_quiet; [done|]. apply handleAppendRequest_quiet; [apply Hr|].
    destruct Ht as [|[[] _]]; done.
  - apply votes_quiet; [done|apply quiet_handleAppendResponse].
  - apply wp_votes_quiet; [done|]. apply handleSnapshotRequest_quiet; [apply Hr|].
    destruct Ht as [|[[] _]]; done.
  - apply votes_quiet; [done|apply quiet_handleSnapshotResponse].
  - apply votes_quiet; [done|quiet].
Qed.

Lemma Step_votes r m : vote_ok r → msg_backed m → votes_wp (Step m) r.
Proof.
  intros Hr Hm. unfold votes_wp, Step. wp_pure.
  destruct (negb (m_To m =? rn_id r)%N && negb (m_To m =? None_)%N) eqn:ETo;
    [by apply votes_quiet; quiet|].
  assert (m_To m = rn_id r ∨ m_To m = None_) as Hto.
  { destruct (N.eqb_spec (m_To m) (rn_id r)); [by left|].
    destruct (N.eqb_spec (m_To m) None_); [by right|]. done. }
  destruct (N.ltb_spec (rn_term r) (m_Term m)) as [Hlt|Hge].
  - apply votes_bind. eapply wp_mono; [by apply stepHigherTerm_votes|..]; [|done..]. cbn beta.
    intros _ r1 (H1 & EC & Ht). split_and!; [done..|].
    pose proof H1 as (_ & [EI _] & _). rewrite <- EI in Hto.
    apply dispatch_votes; [apply H1|done|done|]. destruct Ht; auto.
  - destruct (N.ltb_spec (m_Term m) (rn_term r)).
    + apply votes_quiet; [done|apply quiet_stepLowerTerm].
    + apply dispatch_votes; [done..|left; lia].
Qed.

Lemma Tick_votes r : vote_ok r → votes_wp Tick r.
Proof.
  intros Hr. unfold votes_wp, Tick. wp_pure.
  case_match; [by apply votes_quiet, quiet_tickHeartbeat|]. unfold tickElection.
  assert (∀ r1, quiet_rel r r1 → rn_conf r1 = rn_conf r → ∀ A (k : M RN A),
    (vote_ok r1 → votes_wp k r1) → wp k (λ _, step_ok r)
     (λ e r', step_ok r r' ∨ (errorsIs e ErrIgnoredMessage = false ∧ advances r r'))
     (advances r) r1) as Hthen.
  { intros r1 H1 EC A k Hk. pose proof (quiet_step_ok _ _ Hr H1) as Hs.
    assert (votes_wp (bind (λ _, (Ret tt, r1)) (λ _, k)) r) as HB; [|exact HB].
    apply votes_bind. split_and!; [done..|]. apply Hk, Hs. }
  assert (∀ x i, synced x → quiet_rel x (set_electionElapsed i x)) as HE.
  { intros x i. revert x. quiet_field. }
  wp_pure. apply Hthen; [apply HE, Hr|done|]. intros Hr1. case_match.
  - apply votes_quiet; [done|quiet].
  - apply votes_bind, wp_modify. pose proof (HE _ 0%Z (proj1 Hr1)) as H2.
    pose proof (quiet_step_ok _ _ Hr1 H2) as Hs2.
    split_and!; [done..|]. apply campaign_votes, Hs2.
Qed.

(** A node that starts from a disk remembers the vote on it. *)
Lemma NewRawNode_votes cfg s g r :
  hard_consistent s → NewRawNode cfg (Some s) (Some g) = Ret r →
  vote_ok r ∧ rn_id r = c_ID cfg ∧ rn_state r = Follower ∧
  hs_Term (hard_of r) = hs_Term (hard s) ∧ hs_Vote (hard_of r) = hs_Vote (hard s) ∧
  (∀ m, m ∈ rn_msgs r → m_From m = rn_id r ∧ ¬ grant m).
Proof.
  intros Hc. unfold NewRawNode.
  destruct (validate cfg (Some s) (Some g)) eqn:EV; [|done..]. cbn [obind].
  destruct (InitialState s) as [[hs snap]| | |] eqn:EI; [|done..].
  pose proof (hard_initial s hs snap Hc EI) as ->.
  destruct (newRaftLog s) as [l| | |] eqn:EL; [|done..]. cbn [obind].
  assert (l_storage l = s) as ELs.
  { unfold newRaftLog in EL. rewrite EI in EL. by simplify_eq. }
  match goal with |- context [(_ ;;; _) ?x] => set (r0 := x) end.
  assert (c_ID cfg ≠ None_) as Hid.
  { unfold validate in EV. by destruct (N.eqb_spec (c_ID cfg) None_). }
  assert (synced r0) as Hs0.
  { unfold synced, mirror, hard_of, disk_of, r0. cbn. rewrite ELs. by split_and!. }
  assert (wp (refreshConfiguration ;;; becomeFollower (hs_Term (hard s)) None_)
            (λ _ x, quiet_rel r0 x) (λ _ _, True) (λ _, True) r0) as HW.
  { apply wp_bind. eapply wp_mono; [by apply quiet_refreshConfiguration|..]; [|done..].
    cbn. intros _ r1 H1. pose proof H1 as (Hs1 & _ & ET & _).
    change (hs_Term (hard s)) with (rn_term r0). rewrite <- ET.
    eapply wp_mono; [by apply becomeFollower_same|..]; [|done..].
    cbn. intros. by eapply quiet_rel_trans. }
  unfold wp in HW. destruct ((_ ;;; _) r0) as [[]r']; [|done..]. intros [= ->].
  destruct HW as (Hs & EId & ET & EVt & ES & EM).
  assert (rn_state r = Follower) as HF by (destruct ES as [[-> _]|]; done).
  split; [split; [done|]|].
  { split; [by rewrite EId|]. rewrite HF. done. }
  split_and!; [done|done|..].
  - destruct Hs as (_ & <- & _). exact ET.
  - destruct Hs as (_ & _ & <-). exact EVt.
  - intros m Hm. destruct (EM m Hm) as [Hn|[? ?]]; [by apply not_elem_of_nil in Hn|].
    by rewrite EId.
Qed.

End votes.

(** Evidence may grow. *)
Lemma vote_ok_mono {S G} `{Storage S} `{!HardStateLaws S}
    (P P' : NodeID → Term → NodeID → Prop) (r : RawNode S G) :
  (∀ v t c, P v t c → P' v t c) → vote_ok P r → vote_ok P' r.
Proof.
  intros HP [Hs (Hid & HC & HL)]. split; [done|]. split; [done|]. split; [|done].
  intros HS. destruct (HC HS) as [Hv Hvs]. split; [done|]. intros v Hv'.
  destruct (Hvs v Hv'); auto.
Qed.
