(* ===== verification/Cluster.v ===== *)
(** * A cluster of nodes on an unreliable network

    Nodes run the state machine of RawNode.v, each on its own durable storage.
    The network is a set of messages that only grows: any message ever released may
    be delivered to any node, any number of times, in any order, or never.  A node
    may stop at any moment; it then keeps its storage and nothing else, and may be
    started again from it.  The source a node draws its timeouts from need not be its
    own: between two calls it may have moved anywhere ([ActReseed]).  [act] lists what can happen and [perform] is the
    transition function, so that a schedule can be executed.

    What a node's driver does with an error follows node/node.go ([run],
    [handlePropose], [maybeSnapshot], and [handleRead] and [handleConfChange] of
    node/read.go and node/membership.go): a failed Tick, or a failed Step whose
    error is not [ErrIgnoredMessage], stops the node; proposals, reads and
    membership changes report their error to the client and go on.  A call that panics
    takes the node down, and a node that does not start stays down. *)

From S2P Require Import Prelude Varint Types Config Storage RaftLog RawNode.

(** The calls a driver makes on a node. *)
Inductive op :=
  | OpTick
  | OpStep (m : Message)
  | OpPropose (cmd : bytes)
  | OpProposeConfChange (target : Configuration)
  | OpReadIndex (id : N)
  | OpCampaign
  | OpApplyTo (i : Index)
  | OpCreateSnapshot (data : bytes)
  | OpSnapshotToApply
  | OpReadStates.

(** Whether the driver keeps the node running after this error. *)
Definition tolerates (o : op) (e : error) : bool :=
  match o with
  | OpStep _ => errorsIs e ErrIgnoredMessage
  | OpPropose _ | OpProposeConfChange _ | OpReadIndex _ => true
  | OpCreateSnapshot _ => errorsIs e ErrNothingToSnapshot || errorsIs e ErrSnapshotOutOfDate
  | OpTick | OpCampaign | OpApplyTo _ | OpSnapshotToApply | OpReadStates => false
  end.

Section cluster.
Context {S G : Type} `{Storage S} `{Rand G}.

Definition discard {A} (m : M (RawNode S G) A) : M (RawNode S G) unit := m ;;; ret tt.

Definition exec (o : op) : M (RawNode S G) unit :=
  match o with
  | OpTick => Tick
  | OpStep m => Step m
  | OpPropose cmd => discard (Propose cmd)
  | OpProposeConfChange target => discard (ProposeConfChange target)
  | OpReadIndex id => ReadIndex id
  | OpCampaign => Campaign
  | OpApplyTo i => ApplyTo i
  | OpCreateSnapshot data => discard (CreateSnapshot data)
  | OpSnapshotToApply => discard SnapshotToApply
  | OpReadStates => discard ReadStates
  end.

(** A node is running, or only its storage is left. *)
Inductive status := Up (r : RawNode S G) | Down (s : S).

(** [wins] is a history variable: who was elected in which term, and under which
    configuration. *)
Record cluster := mkCluster {
  cl_nodes : gmap NodeID status;
  cl_soup : list Message;
  cl_wins : list (NodeID * Term * Configuration)
}.

Definition set_node (i : NodeID) (st : status) (c : cluster) : cluster :=
  mkCluster (<[i := st]> (cl_nodes c)) (cl_soup c) (cl_wins c).

(** The election, if any, that happened between [r] and [r']. *)
Definition new_win (r r' : RawNode S G) : list (NodeID * Term * Configuration) :=
  if bool_decide (rn_state r' = Leader) &&
     negb (bool_decide (rn_state r = Leader) && (rn_term r' =? rn_term r)%N)
  then [(rn_id r', rn_term r', rn_conf r)] else [].

Inductive act :=
  | ActOp (i : NodeID) (o : op)
  | ActDrain (i : NodeID)
  | ActReseed (i : NodeID) (g : G)
  | ActCrash (i : NodeID)
  | ActRestart (i : NodeID) (cfg : Config) (g : G).

(** Only messages of the network are delivered. *)
Definition deliverable (o : op) (soup : list Message) : bool :=
  match o with OpStep m => bool_decide (m ∈ soup) | _ => true end.

Definition perform (a : act) (c : cluster) : option cluster :=
  match a with
  | ActOp i o =>
      match cl_nodes c !! i with
      | Some (Up r) =>
          if deliverable o (cl_soup c) then
            match exec o r with
            | (Ret _, r') =>
                Some (mkCluster (<[i := Up r']> (cl_nodes c)) (cl_soup c)
                        (new_win r r' ++ cl_wins c))
            | (Fail e, r') =>
                if tolerates o e
                then Some (mkCluster (<[i := Up r']> (cl_nodes c)) (cl_soup c)
                             (new_win r r' ++ cl_wins c))
                else Some (set_node i (Down (disk_of r')) c)
            | (Panic _, r') | (OutOfFuel, r') => Some (set_node i (Down (disk_of r')) c)
            end
          else None
      | _ => None
      end
  | ActDrain i =>
      match cl_nodes c !! i with
      | Some (Up r) =>
          match Messages r with
          | (Ret ms, r') =>
              Some (mkCluster (<[i := Up r']> (cl_nodes c)) (ms ++ cl_soup c) (cl_wins c))
          | _ => None
          end
      | _ => None
      end
  | ActReseed i g =>
      match cl_nodes c !! i with
      | Some (Up r) => Some (set_node i (Up (set_rand g r)) c)
      | _ => None
      end
  | ActCrash i =>
      match cl_nodes c !! i with
      | Some (Up r) => Some (set_node i (Down (disk_of r)) c)
      | _ => None
      end
  | ActRestart i cfg g =>
      match cl_nodes c !! i with
      | Some (Down s) =>
          if (c_ID cfg =? i)%N then
            match NewRawNode cfg (Some s) (Some g) with
            | Ret r => Some (set_node i (Up r) c)
            | _ => Some c
            end
          else None
      | _ => None
      end
  end.

Definition cstep (c c' : cluster) : Prop := ∃ a, perform a c = Some c'.

(** Executing a schedule. *)
Fixpoint perform_all (sched : list act) (c : cluster) : option cluster :=
  match sched with
  | [] => Some c
  | a :: sched' => match perform a c with Some c' => perform_all sched' c' | None => None end
  end.

(** Every node is down, on its own storage; nothing has been sent. *)
Definition start_cluster (disks : gmap NodeID S) : cluster :=
  mkCluster (Down <$> disks) [] [].

Definition reachable (disks : gmap NodeID S) (c : cluster) : Prop :=
  rtc cstep (start_cluster disks) c.

Lemma perform_all_rtc sched c c' : perform_all sched c = Some c' → rtc cstep c c'.
Proof.
  revert c. induction sched as [|a sched IH]; cbn; intros c Hc; [by simplify_eq|].
  destruct (perform a c) as [c1|] eqn:E; [|done].
  eapply rtc_l; [by exists a|by apply IH].
Qed.
End cluster.
Arguments status : clear implicits.
Arguments cluster : clear implicits.
Arguments act : clear implicits.
