(* ===== verification/ElectionSafety.v ===== *)
(** * Election Safety

    At most one leader per term: for any reachable cluster, two nodes elected in
    one term under configurations whose quorums overlap are the same node.  The
    invariant [Inv] keeps the set [K] of all ballots ever written to a disk; the
    steps of the nodes are those of Votes.v. *)

From S2P Require Import Prelude Varint Types Config Storage RaftLog RawNode Votes Cluster.

Section safety.
Context {S G : Type} `{Hst : Storage S} `{HH : !HardStateLaws S} `{Hrand : Rand G}.
Local Abbreviation RN := (RawNode S G).
Implicit Types (r : RN) (c : cluster S G) (K : NodeID → Term → NodeID → Prop).

(** Every call, with the driver's view of its errors. *)
Lemma exec_votes K o r :
  vote_ok K r → (∀ m, o = OpStep m → msg_backed K m) →
  wp (exec o) (λ _, step_ok K r)
     (λ e r', if tolerates o e then step_ok K r r' else advances r r') (advances r) r.
Proof.
  intros Hr Hm.
  assert (∀ A (m : M RN A) (t : error → bool), quiet m →
    wp m (λ _, step_ok K r) (λ e r', if t e then step_ok K r r' else advances r r')
      (advances r) r) as Hquiet.
  { intros A m t Hq. eapply wp_mono; [by apply Hq, Hr|..]; cbn; intros.
    - by apply quiet_step_ok.
    - assert (step_ok K r s') as Hs by (by apply quiet_step_ok).
      destruct (t e); [done|apply Hs].
    - apply quiet_advances; [apply Hr|done]. }
  assert (∀ A (m : M RN A), votes_wp K m r → wp m (λ _, step_ok K r)
      (λ e r', if errorsIs e ErrIgnoredMessage then step_ok K r r' else advances r r')
      (advances r) r) as Hvotes.
  { intros A m Hw. eapply wp_mono; [exact Hw|..]; cbn; [done| |done].
    intros e r' [Hs|[-> Ha]]; [|done]. destruct (errorsIs _ _); [done|apply Hs]. }
  assert (∀ A (m : M RN A), votes_wp K m r → wp m (λ _, step_ok K r)
      (λ e r', advances r r') (advances r) r) as Hdies.
  { intros A m Hw. eapply wp_mono; [exact Hw|..]; cbn; [done| |done].
    intros e r' [Hs|[_ Ha]]; [apply Hs|done]. }
  assert (∀ A (m : M RN A), quiet m → quiet (discard m)) as Hd.
  { intros A m Hq. apply quiet_bind; [done|intros; apply quiet_ret]. }
  destruct o; cbn [exec tolerates].
  - by apply Hdies, Tick_votes.
  - apply Hvotes, Step_votes; auto.
  - apply (Hquiet _ _ (λ _, true)), Hd, quiet_Propose.
  - apply (Hquiet _ _ (λ _, true)), Hd, quiet_ProposeConfChange.
  - apply (Hquiet _ _ (λ _, true)), quiet_ReadIndex.
  - apply Hdies. unfold votes_wp, Campaign. wp_pure. by apply campaign_votes.
  - apply (Hquiet _ _ (λ _, false)), quiet_ApplyTo.
  - by apply Hquiet, Hd, quiet_CreateSnapshot.
  - apply (Hquiet _ _ (λ _, false)), Hd, quiet_SnapshotToApply.
  - apply (Hquiet _ _ (λ _, false)), Hd, quiet_ReadStates.
Qed.

(** ** The invariant *)

Definition node_disk (st : status S G) : S :=
  match st with Up r => disk_of r | Down s => s end.

(** The ballots of a node agree with its disk: none is later, and the vote on the
    disk is one of them. *)
Definition disk_inv K (i : NodeID) (h : HardState) : Prop :=
  (∀ t v, K i t v → hard_le (mkHardState t v 0) h) ∧
  (hs_Vote h ≠ None_ → K i (hs_Term h) (hs_Vote h)).

Definition sent_ok K (i : NodeID) (m : Message) : Prop :=
  m_From m = i ∧ (grant m → m_To m ≠ None_ ∧ K i (m_Term m) (m_To m)).

Definition node_inv K (i : NodeID) (st : status S G) : Prop :=
  i ≠ None_ ∧ hard_consistent (node_disk st) ∧ disk_inv K i (hard (node_disk st)) ∧
  match st with
  | Up r => rn_id r = i ∧ vote_ok K r ∧ Forall (sent_ok K i) (rn_msgs r)
  | Down _ => True
  end.

(** [K] holds one ballot per voter and term, never an empty one. *)
Definition ballots_ok K : Prop :=
  (∀ v t a b, K v t a → K v t b → a = b) ∧ (∀ v t a, K v t a → a ≠ None_).

Definition win_ok K (w : NodeID * Term * Configuration) : Prop :=
  let '(i, t, conf) := w in
  ∃ f, HasQuorum conf f = true ∧ ∀ v, f v = true → K v t i.

Definition Inv K c : Prop :=
  ballots_ok K ∧
  (∀ i st, cl_nodes c !! i = Some st → node_inv K i st) ∧
  Forall (msg_backed K) (cl_soup c) ∧
  Forall (win_ok K) (cl_wins c) ∧
  (∀ i r, cl_nodes c !! i = Some (Up r) → rn_state r = Leader →
     ∃ conf, (i, rn_term r, conf) ∈ cl_wins c).

(** [K'] extends [K] by ballots of [i] only. *)
Definition extends_at K K' (i : NodeID) : Prop :=
  (∀ v t a, K v t a → K' v t a) ∧ (∀ v t a, v ≠ i → K' v t a → K v t a).

Lemma msg_backed_mono K K' i m : extends_at K K' i → msg_backed K m → msg_backed K' m.
Proof. intros [HK _] [Hf HG]. split; [done|]. intros Hg. destruct (HG Hg). auto. Qed.

Lemma win_ok_mono K K' i w : extends_at K K' i → win_ok K w → win_ok K' w.
Proof. intros [HK _]. destruct w as [[j t] conf]. intros (f & Hq & Hf). exists f. auto. Qed.

Lemma node_inv_mono K K' i j st : extends_at K K' i → j ≠ i → node_inv K j st → node_inv K' j st.
Proof.
  intros [HK HK'] Hj (Hn & Hc & (Hle & Hin) & Hst'). split_and!; [done..| |].
  { split; [|by auto]. intros t v Hv. by apply Hle, HK'. }
  destruct st as [r|s]; [|done]. destruct Hst' as (EI & Hv & Hs). split_and!; [done|..].
  - by eapply vote_ok_mono.
  - eapply Forall_impl; [exact Hs|]. intros m [EF HG]. split; [done|].
    intros Hg. destruct (HG Hg). auto.
Qed.

(** The ballots a call adds. *)
Lemma extend_ballots K i r r' :
  ballots_ok K → disk_inv K i (hard_of r) → rn_id r = i → Forall (sent_ok K i) (rn_msgs r) →
  advances r r' →
  ∃ K', extends_at K K' i ∧ ballots_ok K' ∧ disk_inv K' i (hard_of r') ∧
        Forall (sent_ok K' i) (rn_msgs r').
Proof.
  intros [Hfun Hnn] [Hle Hin] EI Hsent (EI' & _ & B & HB & Hback).
  set (K' := λ v t a, K v t a ∨
               (v = i ∧ ∃ h, h ∈ B ∧ hs_Term h = t ∧ hs_Vote h = a ∧ a ≠ None_)).
  assert (∀ v t a, K v t a → K' v t a) as HKK' by (by left).
  assert (∀ h t a, K i t a → h ∈ B → hs_Term h = t → hs_Vote h ≠ None_ → hs_Vote h = a) as Hold.
  { intros h t a Ha Hh Ht Hv. destruct (visits_between _ _ _ h HB Hh) as [Hl _].
    pose proof (Hnn _ _ _ Ha). apply Hle in Ha. unfold hard_le in *. cbn in *.
    destruct Ha as [?|[? [?|?]]], Hl as [?|[? [?|?]]]; try lia; congruence. }
  exists K'. split_and!; [by split; [|intros v t a Hv [|[-> _]]]|..].
  - split.
    + intros v t a b [Ha|(-> & h & Hh & Ht & Hv & Hn)] [Hb|(E & h' & Hh' & Ht' & Hv' & Hn')].
      * by eapply Hfun.
      * subst v. rewrite <- Hv'. symmetry. apply (Hold h' t); congruence.
      * rewrite <- Hv. apply (Hold h t); congruence.
      * rewrite <- Hv, <- Hv'. eapply visits_agree; [exact HB|..]; try congruence;
          apply elem_of_cons; auto.
    + intros v t a [Ha|(_ & h & _ & _ & _ & Hn)]; [by eapply Hnn|done].
  - split.
    + intros t v [Hv|(_ & h & Hh & <- & <- & Hn)].
      * etrans; [by apply Hle|by eapply visits_le].
      * destruct (visits_between _ _ _ h HB Hh) as [_ Hl]. unfold hard_le in *. done.
    + intros Hn. destruct (visits_end _ _ _ HB) as [E|Hend].
      * left. rewrite E in *. by apply Hin.
      * right. split; [done|]. by exists (hard_of r').
  - apply Forall_forall. intros m Hm. destruct (Hback m Hm) as [Hm'|[EF HG]].
    + rewrite Forall_forall in Hsent. destruct (Hsent m Hm') as [EF HG]. split; [done|].
      intros Hg. destruct (HG Hg). auto.
    + split; [congruence|]. intros (h & Hh & Ht & Hv & Hn)%HG. split; [done|].
      right. split; [done|]. by exists h.
Qed.

(** ** Preservation *)

(** Replacing one node: the rest of the cluster keeps its invariant. *)
Lemma Inv_replace K K' c i st wins :
  Inv K c → extends_at K K' i → ballots_ok K' → node_inv K' i st → Forall (win_ok K') wins →
  (∀ r, st = Up r → rn_state r = Leader →
     ∃ conf, (i, rn_term r, conf) ∈ wins ++ cl_wins c) →
  Inv K' (mkCluster (<[i := st]> (cl_nodes c)) (cl_soup c) (wins ++ cl_wins c)).
Proof.
  intros (_ & HN & HS & HW & HL) HK HB Hi Hwins Hlead. split; [done|]. split_and!; cbn.
  - intros j st'. rewrite lookup_insert_Some. intros [[<- <-]|[Hne Hj]]; [done|].
    apply (node_inv_mono K K' i); auto.
  - eapply Forall_impl; [exact HS|]. intros m. by eapply msg_backed_mono.
  - apply Forall_app. split; [done|]. eapply Forall_impl; [exact HW|].
    intros w. by eapply win_ok_mono.
  - intros j r. rewrite lookup_insert_Some. intros [[<- ->]|[Hne Hj]] Hl; [by apply Hlead|].
    destruct (HL j r Hj Hl) as [conf Hc]. exists conf. apply elem_of_app. by right.
Qed.

Lemma Inv_same_wins K c : Inv K c → Inv K (mkCluster (cl_nodes c) (cl_soup c) ([] ++ cl_wins c)).
Proof. by destruct c. Qed.

Lemma new_win_ok K K' r r' :
  (∀ v t a, K v t a → K' v t a) → disk_inv K' (rn_id r') (hard_of r') → step_ok K r r' →
  Forall (win_ok K') (new_win r r').
Proof.
  intros HK [_ Hin] ((Hsync & Hid & _ & HLv) & [EI _] & HE). unfold new_win.
  case_bool_decide as HL; [|constructor]. cbn [andb].
  destruct (bool_decide (rn_state r = Leader) && (rn_term r' =? rn_term r)%N) eqn:E;
    [constructor|]. cbn [negb]. constructor; [|constructor].
  destruct (HE HL) as [[HL0 ET]|(f & Hq & Hf)].
  { rewrite bool_decide_true, ET, N.eqb_refl in E by done. done. }
  exists f. split; [done|]. intros v Hv.
  destruct (Hf v Hv) as [->|HP]; [|rewrite EI; by apply HK].
  destruct Hsync as (_ & Ht & Hvt). pose proof (HLv HL) as Hself.
  assert (K' (rn_id r') (hs_Term (hard_of r')) (hs_Vote (hard_of r'))) as Hmine
    by (apply Hin; congruence).
  rewrite <- Ht, <- Hvt, Hself, EI in Hmine. by rewrite EI.
Qed.

Lemma Inv_op K c i r r' :
  Inv K c → cl_nodes c !! i = Some (Up r) → step_ok K r r' →
  ∃ K', Inv K' (mkCluster (<[i := Up r']> (cl_nodes c)) (cl_soup c)
                  (new_win r r' ++ cl_wins c)).
Proof.
  intros HI Hi Hs. pose proof HI as (HB & HN & _ & _ & HL).
  destruct (HN i _ Hi) as (Hn & Hc & Hd & EI & Hv & Hsent). pose proof Hs as (Hv' & HA & HE).
  destruct (extend_ballots K i r r' HB Hd EI Hsent HA) as (K' & HK & HB' & Hd' & Hsent').
  exists K'. pose proof HA as (EI' & HC' & _). eapply Inv_replace; try done.
  - split_and!; [done|by apply HC'|exact Hd'|congruence| |done].
    by eapply vote_ok_mono; [apply HK|].
  - eapply new_win_ok; [apply HK| |done]. by rewrite EI', EI.
  - intros r0 [= <-] HL'. destruct (HE HL') as [[HL0 ET]|Hq].
    + destruct (HL i r Hi HL0) as [conf Hconf]. exists conf. rewrite ET.
      apply elem_of_app. by right.
    + unfold new_win. rewrite bool_decide_true by done. cbn [andb].
      destruct (bool_decide (rn_state r = Leader) && (rn_term r' =? rn_term r)%N) eqn:E; cbn [negb].
      * apply andb_true_iff in E as [E1%bool_decide_eq_true E2%N.eqb_eq].
        destruct (HL i r Hi E1) as [conf Hconf]. exists conf. by rewrite E2.
      * exists (rn_conf r). rewrite EI', EI. apply elem_of_app. left. by apply list_elem_of_singleton.
Qed.

Lemma Inv_die K c i r r' :
  Inv K c → cl_nodes c !! i = Some (Up r) → advances r r' →
  ∃ K', Inv K' (set_node i (Down (disk_of r')) c).
Proof.
  intros HI Hi HA. pose proof HI as (HB & HN & _).
  destruct (HN i _ Hi) as (Hn & Hc & Hd & EI & Hv & Hsent).
  destruct (extend_ballots K i r r' HB Hd EI Hsent HA) as (K' & HK & HB' & Hd' & Hsent').
  exists K'. apply (Inv_replace K K' c i _ []); try done.
  split_and!; [done|by apply HA|exact Hd'|done].
Qed.

Lemma Inv_drain K c i r :
  Inv K c → cl_nodes c !! i = Some (Up r) →
  Inv K (mkCluster (<[i := Up (set_msgs [] r)]> (cl_nodes c)) (rn_msgs r ++ cl_soup c)
           (cl_wins c)).
Proof.
  intros (HB & HN & HS & HW & HL) Hi.
  destruct (HN i _ Hi) as (Hn & Hc & Hd & EI & Hv & Hsent). split; [done|]. split_and!; cbn.
  - intros j st'. rewrite lookup_insert_Some. intros [[<- <-]|[Hne Hj]]; [|by apply HN].
    split_and!; [done..|exact Hd|done|exact Hv|constructor].
  - apply Forall_app. split; [|done]. eapply Forall_impl; [exact Hsent|].
    intros m [EF HG]. split; [congruence|]. by rewrite EF.
  - done.
  - intros j r'. rewrite lookup_insert_Some. intros [[<- [= <-]]|[Hne Hj]] Hl; [|by eapply HL].
    by apply (HL i r).
Qed.

Lemma Inv_reseed K c i r g :
  Inv K c → cl_nodes c !! i = Some (Up r) → Inv K (set_node i (Up (set_rand g r)) c).
Proof.
  intros HI Hi. pose proof HI as (HB & HN & _ & _ & HL).
  apply (Inv_replace K K c i _ []); try done; [exact (HN i _ Hi)|].
  intros r0 [= <-] HS. exact (HL i r Hi HS).
Qed.

Lemma Inv_restart K c i s cfg g r :
  Inv K c → cl_nodes c !! i = Some (Down s) → c_ID cfg = i →
  NewRawNode cfg (Some s) (Some g) = Ret r → Inv K (set_node i (Up r) c).
Proof.
  intros HI Hi Eid Hnew. pose proof HI as (HB & HN & _).
  destruct (HN i _ Hi) as (Hn & Hc & [Hle Hin] & _). cbn [node_disk] in *.
  destruct (NewRawNode_votes K cfg s g r Hc Hnew) as (Hv & EI & HF & Et & Ev & Hm).
  assert (disk_inv K i (hard_of r)) as Hd.
  { split; [|by rewrite Et, Ev]. intros t v Hkv. pose proof (Hle t v Hkv) as Hl.
    unfold hard_le in *. cbn in *. by rewrite Et, Ev. }
  apply (Inv_replace K K c i _ []); try done.
  - split_and!; [done|apply Hv|exact Hd|congruence|done|].
    apply Forall_forall. intros m Hm'. destruct (Hm m Hm') as [EF Hng]. split; [congruence|done].
  - intros r0 [= <-]. congruence.
Qed.

Lemma Inv_step K c c' : Inv K c → cstep c c' → ∃ K', Inv K' c'.
Proof.
  intros HI [a Ha]. pose proof HI as (_ & HN & HS & _).
  destruct a as [i o|i|i g|i|i cfg g]; cbn in Ha;
    destruct (cl_nodes c !! i) as [[r|s]|] eqn:Hi; try done.
  - destruct (deliverable o (cl_soup c)) eqn:Hdel; [|done].
    destruct (HN i _ Hi) as (_ & _ & _ & _ & Hv & _).
    assert (∀ m, o = OpStep m → msg_backed K m) as Hm.
    { intros m ->. cbn in Hdel. apply bool_decide_eq_true in Hdel.
      by eapply Forall_forall in HS. }
    pose proof (exec_votes K o r Hv Hm) as HW. unfold wp in HW.
    destruct (exec o r) as [[[]|e|p|] r']; simplify_eq.
    + by eapply Inv_op.
    + destruct (tolerates o e); simplify_eq; [by eapply Inv_op|by eapply Inv_die].
    + by eapply Inv_die.
    + by eapply Inv_die.
  - cbn in Ha. simplify_eq. exists K. by apply Inv_drain.
  - simplify_eq. exists K. by apply Inv_reseed.
  - simplify_eq. eapply Inv_die; [done..|apply advances_refl].
  - destruct (N.eqb_spec (c_ID cfg) i) as [E|]; [|done].
    destruct (NewRawNode cfg (Some s) (Some g)) as [r| | |] eqn:Hnew; simplify_eq; [|by exists K..].
    exists K. by eapply Inv_restart.
Qed.

(** Storages nothing has voted on yet. *)
Definition fresh_disks (disks : gmap NodeID S) : Prop :=
  ∀ i s, disks !! i = Some s →
    i ≠ None_ ∧ hard_consistent s ∧ hs_Vote (hard s) = None_.

Lemma Inv_start disks : fresh_disks disks → Inv (λ _ _ _, False) (start_cluster (G:=G) disks).
Proof.
  intros Hf. split; [by split|]. split_and!; cbn; [|constructor|constructor|].
  - intros i st. rewrite lookup_fmap, fmap_Some. intros (s & Hs & ->).
    destruct (Hf i s Hs) as (Hn & Hc & Hv). split_and!; [done..| |done].
    split; [done|]. cbn [node_disk]. by rewrite Hv.
  - intros i r. rewrite lookup_fmap, fmap_Some. by intros (s & _ & ?).
Qed.

Lemma reachable_Inv disks c : fresh_disks disks → reachable disks c → ∃ K, Inv K c.
Proof.
  intros Hf. unfold reachable. remember (start_cluster disks) as c0 eqn:E0. intros Hr.
  assert (∃ K, Inv K c0) as HI by (subst; eexists; by apply Inv_start). clear E0 Hf.
  induction Hr as [|c1 c2 c3 H12 _ IH]; [done|].
  destruct HI as [K HI]. apply IH. by eapply Inv_step.
Qed.

(** ** The theorems *)

(** C2: Election Safety.  In every reachable cluster, whatever messages were lost,
    duplicated, reordered or delayed and whichever nodes crashed and restarted, two
    nodes elected in the same term under configurations whose quorums overlap (the
    same configuration, or adjacent ones of a membership change) are the same
    node. *)
Theorem election_safety disks c i j t conf conf' :
  fresh_disks disks → reachable disks c →
  (i, t, conf) ∈ cl_wins c → (j, t, conf') ∈ cl_wins c →
  (∀ f g, HasQuorum conf f = true → HasQuorum conf' g = true →
     ∃ v, f v = true ∧ g v = true) →
  i = j.
Proof.
  intros Hf Hr Hi Hj Hover.
  destruct (reachable_Inv _ _ Hf Hr) as (K & (Hfun & _) & _ & _ & HW & _).
  rewrite Forall_forall in HW.
  destruct (HW _ Hi) as (f & Hq & Hfv), (HW _ Hj) as (g & Hq' & Hgv).
  destruct (Hover f g Hq Hq') as (v & Hv & Hv'). eauto.
Qed.

(** At most one leader at a time per term.  If every election so far was held
    under one configuration, two nodes that lead the same term at the same moment
    are the same node. *)
Theorem one_leader_per_term disks c conf i j r r' :
  fresh_disks disks → reachable disks c → (∀ w, w ∈ cl_wins c → snd w = conf) →
  cl_nodes c !! i = Some (Up r) → cl_nodes c !! j = Some (Up r') →
  rn_state r = Leader → rn_state r' = Leader → rn_term r = rn_term r' →
  i = j.
Proof.
  intros Hf Hr Hconf Hi Hj HL HL' ET.
  destruct (reachable_Inv _ _ Hf Hr) as (K & (Hfun & _) & _ & _ & HW & HLd).
  rewrite Forall_forall in HW.
  destruct (HLd i r Hi HL) as [c1 H1], (HLd j r' Hj HL') as [c2 H2].
  pose proof (Hconf _ H1) as E1. pose proof (Hconf _ H2) as E2. cbn in E1, E2. subst c1 c2.
  destruct (HW _ H1) as (f & Hq & Hfv), (HW _ H2) as (g & Hq' & Hgv).
  apply HasQuorum_spec in Hq as [Hq _], Hq' as [Hq' _].
  destruct (majorities_intersect _ _ _ Hq Hq') as (v & _ & Hv & Hv').
  apply (Hfun v (rn_term r)); [auto|]. rewrite ET. auto.
Qed.

(** One vote per term, across crashes.  Two vote grants of one node for one term
    always name the same candidate, however often the node restarted in between. *)
Theorem one_vote_per_term disks c m m' :
  fresh_disks disks → reachable disks c →
  m ∈ cl_soup c → m' ∈ cl_soup c → grant m → grant m' →
  m_From m = m_From m' → m_Term m = m_Term m' → m_To m = m_To m'.
Proof.
  intros Hf Hr Hm Hm' Hg Hg' EF ET.
  destruct (reachable_Inv _ _ Hf Hr) as (K & (Hfun & _) & _ & HS & _).
  rewrite Forall_forall in HS.
  destruct (HS m Hm) as [_ HG], (HS m' Hm') as [_ HG'].
  destruct (HG Hg) as [_ H1], (HG' Hg') as [_ H2]. rewrite EF, ET in H1. eauto.
Qed.
End safety.

(** ** A concrete election

    Three nodes on fresh storage; node 1 campaigns, node 2 grants its vote, node 1
    wins term 1. *)
Definition trio_conf : Configuration := mkConfiguration [1; 2; 3]%N [] [].
Definition trio_cfg (id : NodeID) : Config := mkConfig id 10 1 false trio_conf 0 0 0 0 0.
Definition trio_disks : gmap NodeID MemoryStorage :=
  {[ 1%N := NewMemoryStorage; 2%N := NewMemoryStorage; 3%N := NewMemoryStorage ]}.

Definition trio_request : Message :=
  addressed 1 1 (voteReqMsg 2 1 false 0 0).
Definition trio_grant : Message :=
  addressed 2 1 (voteRespMsg 1 1 false true).

Definition trio_schedule : list (act unit) :=
  [ActRestart 1 (trio_cfg 1) tt; ActRestart 2 (trio_cfg 2) tt;
   ActOp 1 OpCampaign; ActDrain 1; ActOp 2 (OpStep trio_request); ActDrain 2;
   ActOp 1 (OpStep trio_grant)].

Definition trio_cluster : cluster MemoryStorage unit :=
  default (start_cluster trio_disks)
    (perform_all trio_schedule (start_cluster trio_disks)).

Lemma trio_fresh : fresh_disks trio_disks.
Proof.
  intros i s Hs. unfold trio_disks in Hs.
  rewrite !lookup_insert_Some, lookup_singleton_Some in Hs.
  destruct Hs as [[<- <-]|[_ [[<- <-]|[_ [<- <-]]]]]; done.
Qed.

Lemma trio_reachable : reachable trio_disks trio_cluster.
Proof.
  apply (perform_all_rtc trio_schedule). by vm_compute.
Qed.

Lemma trio_wins : cl_wins trio_cluster = [(1%N, 1%N, trio_conf)].
Proof. by vm_compute. Qed.

Lemma election_safety_witness :
  ∃ i, (i, 1%N, trio_conf) ∈ cl_wins trio_cluster ∧ i = 1%N.
Proof.
  exists 1%N. split; [rewrite trio_wins; by apply list_elem_of_singleton|].
  apply (election_safety trio_disks trio_cluster 1 1 1 trio_conf trio_conf);
    [apply trio_fresh|apply trio_reachable
    |rewrite trio_wins; by apply list_elem_of_singleton..|].
  intros f g [Hf _]%HasQuorum_spec [Hg _]%HasQuorum_spec.
  destruct (majorities_intersect _ _ _ Hf Hg) as (v & _ & ?). by exists v.
Defined.

Definition trio_leader : RawNode MemoryStorage unit :=
  match cl_nodes trio_cluster !! 1%N with
  | Some (Up r) => r
  | _ => mkRawNode 0 (trio_cfg 0) tt 0 0 zeroHardState (mkRaftLog NewMemoryStorage 0 0)
           Follower 0 trio_conf 0 trio_conf ∅ None 0 0 0 [] [] None []
  end.

Lemma one_leader_per_term_witness :
  rn_state trio_leader = Leader ∧ 1%N = 1%N.
Proof.
  split; [by vm_compute|].
  apply (one_leader_per_term trio_disks trio_cluster trio_conf 1 1
           trio_leader trio_leader);
    [apply trio_fresh|apply trio_reachable| |by vm_compute..].
  rewrite trio_wins. by intros w ->%list_elem_of_singleton.
Defined.

Lemma one_vote_per_term_witness :
  trio_grant ∈ cl_soup trio_cluster ∧ m_To trio_grant = 1%N.
Proof.
  assert (trio_grant ∈ cl_soup trio_cluster) as Hin
    by (apply (bool_decide_unpack _); by vm_compute).
  split; [done|].
  apply (one_vote_per_term trio_disks trio_cluster trio_grant trio_grant);
    [apply trio_fresh|apply trio_reachable|done..].
Defined.
