(* ===== verification/ClusterSafety.v ===== *)
(** * No call of any cluster panics

    The calls of a driver (Cluster.v) on a well-formed node never panic, and the
    nodes of a cluster stay well-formed: what one node sends is what the others
    rely on, and what a node leaves on disk is what it can be restarted from. *)

From S2P Require Import Prelude Varint Types Config Storage RaftLog RawNode Membership.
From S2P Require Import NodeSafety Replication Cluster ElectionSafety.

Section cluster_safety.
Context {S G : Type} `{Hst : Storage S} `{HL : !LogLaws S} `{Hrand : Rand G} `{HVet : Vetting}.
Local Abbreviation RN := (RawNode S G).
Implicit Types (r : RN) (c : cluster S G).

(** The calls that may append entries of their own need room for them. *)
Definition room_for (o : op) r : Prop :=
  match o with
  | OpTick | OpStep _ | OpPropose _ | OpProposeConfChange _ | OpCampaign => (last_of r + 3 < W64)%N
  | _ => True
  end.

(** What the arguments of a call are: the log is not about to run out of indexes, and
    configurations fit their encoding. *)
Definition given (o : op) r : Prop :=
  room_for o r ∧
  match o with
  | OpStep m => msg_ok m
  | OpProposeConfChange target => target_ok target
  | OpCreateSnapshot data => imaged data
  | _ => True
  end.

(** What the methods panic at on purpose: a leader has no reason to campaign, and what is
    not committed must not be applied.  node/node.go does neither. *)
Definition permitted (o : op) r : Prop :=
  match o with
  | OpCampaign => rn_state r ≠ Leader
  | OpApplyTo i => (i ≤ l_committed (rn_log r))%N
  | _ => True
  end.

#[export] Instance permitted_dec o r : Decision (permitted o r).
Proof. destruct o; cbn; apply _. Defined.

(** What the driver owes a call. *)
Definition op_ok (o : op) r : Prop :=
  room_for o r ∧
  match o with
  | OpStep m => msg_ok m
  | OpProposeConfChange target => target_ok target
  | OpCreateSnapshot data => imaged data
  | OpCampaign => rn_state r ≠ Leader
  | OpApplyTo i => (i ≤ l_committed (rn_log r))%N
  | _ => True
  end.

Lemma op_ok_given o r : op_ok o r ↔ given o r ∧ permitted o r.
Proof. unfold op_ok, given. destruct o; cbn; tauto. Qed.

Lemma discard_gwp {A} n (m : M RN A) r : gwp n m r → gwp n (discard m) r.
Proof. intros Hm. apply gwp_bind_safe; [done|]. intros _. apply safe_ret. Qed.

Lemma ApplyTo_wp i r :
  node_ok r → (i ≤ l_committed (rn_log r))%N →
  wp (ApplyTo i)
     (λ _ r', grows 0 r r' ∧ r' = set_log (set_l_applied (N.max (l_applied (rn_log r)) i) (rn_log r)) r)
     (λ _ _, False) (λ _, False) r.
Proof.
  intros Hr Hi. pose proof Hr as (Hok & He & Hs & _). unfold ApplyTo, on_log. apply wp_zoom.
  eapply wp_mono; [by apply appliedTo_spec|..]; [|done..]. cbn beta.
  intros _ l' (-> & Hok' & Hext). split; [|done].
  apply set_log_grows; [by apply set_log_ok|by apply log_appends_disk|].
  change (last_of r ≤ last_of r + 0)%N. lia.
Qed.

Lemma ApplyTo_ok i r : node_ok r → (i ≤ l_committed (rn_log r))%N → gwp 0 (ApplyTo i) r.
Proof.
  intros Hr Hi. eapply wp_mono; [by apply ApplyTo_wp|..]; [|done..]. by intros _ r' [? _].
Qed.

Lemma SnapshotToApply_safe : safe (SnapshotToApply : M RN _).
Proof.
  intros r Hr. unfold SnapshotToApply. wp_pure. pose proof Hr as (? & ? & ? & ? & ? & ? & ? & _).
  split; [by split_and!|]. cbn. split_and!; try done; by left.
Qed.

Lemma ReadStates_safe : safe (ReadStates : M RN _).
Proof.
  intros r Hr. unfold ReadStates. wp_pure. split; [exact Hr|]. cbn. split_and!; try done; by left.
Qed.

Lemma exec_swp o r : node_ok r → op_ok o r → swp (exec o) r.
Proof.
  intros Hr [Hroom Ho]. destruct o; cbn [exec].
  - by eapply gwp_swp, Tick_ok.
  - by apply Step_ok.
  - eapply gwp_swp, discard_gwp, propose_ok; [done..|]. by intros.
  - by eapply gwp_swp, discard_gwp, ProposeConfChange_ok.
  - by apply safe_swp, safe_ReadIndex.
  - unfold swp, Campaign. apply wp_bind, wp_get. by eapply gwp_swp, campaign_ok.
  - by eapply gwp_swp, ApplyTo_ok.
  - by eapply gwp_swp, discard_gwp, CreateSnapshot_ok.
  - by eapply gwp_swp, discard_gwp, (gwp_safe 0), SnapshotToApply_safe.
  - by eapply gwp_swp, discard_gwp, (gwp_safe 0), ReadStates_safe.
Qed.

Lemma exec_steps o r :
  node_ok r → op_ok o r →
  match exec o r with
  | (Ret _, r') | (Fail _, r') => steps r r'
  | _ => False
  end.
Proof.
  intros Hr Ho. pose proof (exec_swp o r Hr Ho) as Hw. unfold swp, wp in Hw.
  by destruct (exec o r) as [[]].
Qed.

(** A leader that is told to campaign panics, or does nothing at all when it may not
    be elected; either way it is left as it was. *)
Lemma campaign_leader k pre r :
  rn_state r = Leader → ∃ out, campaign (Datatypes.S k) pre r = (out, r) ∧ out ≠ OutOfFuel.
Proof.
  intros Hr. cbn [campaign]. unfold bind at 1. cbn [get]. destruct (negb (promotable r)); [by eexists|].
  assert (∃ p, enterCampaign pre r = (Panic p, r)) as [p HE].
  { unfold enterCampaign, becomePreCandidate, becomeCandidate, bind.
    destruct pre; cbn [get]; rewrite bool_decide_true by done; by eexists. }
  unfold bind at 1. rewrite HE. by eexists.
Qed.

(** A call that is not permitted changes nothing. *)
Lemma exec_refuses o r : ¬ permitted o r → snd (exec o r) = r ∧ fst (exec o r) ≠ OutOfFuel.
Proof.
  intros Hp. destruct o; cbn [permitted] in Hp; try tauto; cbn [exec].
  - apply dec_stable in Hp. unfold Campaign, callDepth, bind. cbn [get].
    by destruct (campaign_leader 7 (c_PreVote (rn_cfg r)) r Hp) as (out & -> & ?).
  - unfold ApplyTo, on_log, zoom, appliedTo, bind. cbn [get]. apply N.nle_gt in Hp.
    destruct (_ || _); [split; cbn; [by rewrite set_log_id|done]|]. rewrite (proj2 (N.ltb_lt _ _)) by done.
    split; cbn; [by rewrite set_log_id|done].
Qed.

(** No call of the driver panics.  On a well-formed node every call returns or
    reports an error, the node stays well-formed, what was committed stays committed
    and unchanged, the commit and apply indexes do not move back, and every message
    put in the outbox is well-formed. *)
Theorem exec_never_panics o r :
  node_ok r → op_ok o r →
  match exec o r with
  | (Ret _, r') | (Fail _, r') => kept r r'
  | _ => False
  end.
Proof.
  intros Hr Ho. pose proof (exec_steps o r Hr Ho) as Hs.
  destruct (exec o r) as [[] r']; try done; apply Hs.
Qed.

(** A call that may not be permitted. *)
Lemma exec_given o r :
  node_ok r → given o r →
  match exec o r with
  | (Ret _, r') | (Fail _, r') => kept r r'
  | (Panic _, r') => r' = r ∧ ¬ permitted o r
  | (OutOfFuel, _) => False
  end.
Proof.
  intros Hr Hg. destruct (decide (permitted o r)) as [Hp|Hp].
  - pose proof (exec_steps o r Hr (proj2 (op_ok_given o r) (conj Hg Hp))) as Hs.
    destruct (exec o r) as [[] r']; try done; apply Hs.
  - destruct (exec_refuses o r Hp) as [Er Ef]. destruct (exec o r) as [[] r']; cbn in *; subst; try done;
      by apply still_kept, still_refl.
Qed.

(** Leader Append-Only.  Whatever call a node is given, if it leads afterwards then
    its log was only extended: no entry it held, committed or not, was changed or
    dropped other than by compaction.  Truncation is left to followers. *)
Theorem leader_append_only o r r' res :
  node_ok r → op_ok o r → exec o r = (res, r') → rn_state r' = Leader →
  log_appends (rn_log r) (rn_log r').
Proof.
  intros Hr Ho He HS. pose proof (exec_steps o r Hr Ho) as Hs. rewrite He in Hs.
  destruct res; try done; by apply Hs.
Qed.

(** ** Starting from a disk *)

(** What a node leaves behind when it stops. *)
Definition disk_ready (s : S) : Prop :=
  storage_ok s ∧ (snap_LastIncludedIndex (d_snapshot (disk s)) ≤ d_last (disk s))%N ∧
  Forall conf_entry_ok (d_entries (disk s)) ∧ snap_ok (d_snapshot (disk s)).

Lemma node_ok_disk r : node_ok r → disk_ready (disk_of r).
Proof.
  intros ((Hs & Ha & Hb & Hc) & He & Hsn & _). unfold log_disk in *.
  split_and!; [done|unfold disk_of; lia|done|done].
Qed.

(** What a node is about to send is well-formed. *)
Definition outgoing_ok r : Prop := ∀ m, m ∈ rn_msgs r → msg_ok m.

Lemma kept_outgoing r r' : kept r r' → outgoing_ok r → outgoing_ok r'.
Proof. intros (_ & _ & _ & _ & Ho) H m Hm. destruct (Ho m Hm); auto. Qed.

Lemma NewRawNode_ok cfg s g :
  disk_ready s → conf_ok (c_Bootstrap cfg) → known (c_ID cfg) →
  match NewRawNode cfg (Some s) (Some g) with
  | Ret r => node_ok r ∧ outgoing_ok r
  | Fail _ => True
  | _ => False
  end.
Proof.
  intros (Hs & Hle & He & Henc) Hb Hid. unfold NewRawNode.
  destruct (validate cfg (Some s) (Some g)) eqn:EV; cbn; [|done|..].
  2-3: unfold validate in EV; by repeat case_match.
  destruct (log_initial s Hs) as [hs ->].
  destruct (newRaftLog_wp s Hs Hle) as (l & -> & Hok & <- & Ha). cbn.
  match goal with |- context [mkRawNode ?a ?b ?c ?d ?e ?f ?g ?h ?i ?j ?k ?l ?m ?n ?o ?p ?q ?s ?t ?u ?v] =>
    set (r0 := mkRawNode a b c d e f g h i j k l m n o p q s t u v) end.
  assert (node_ok r0 ∧ rn_msgs r0 = [] ∧ rn_state r0 = Follower) as (Hr0 & Em & ES).
  { split; [|done]. split; [done|]. split; [done|]. split; [exact Henc|]. split_and!; try done; [|by intros []].
    subst r0. cbn. destruct (Configuration_IsEmpty _); [done|]. by apply snap_ok_conf in Henc. }
  clearbody r0.
  assert (wp (refreshConfiguration ;;; becomeFollower (hs_Term hs) None_)
    (λ _ r', node_ok r' ∧ outgoing_ok r') (λ _ _, True) (λ _, False) r0) as Hw.
  { apply wp_bind. eapply wp_mono; [apply refreshConfiguration_ok; [done|by left]|..]; [|done..].
    cbn beta. intros _ r1 (H1 & (c & i & p & ->) & _).
    eapply wp_mono; [apply safe_becomeFollower, H1|..]; [|done..]. cbn beta.
    intros _ r2 H2. split; [apply H2|]. eapply kept_outgoing; [by apply still_kept|].
    intros m. cbn. rewrite Em. by intros ?%not_elem_of_nil. }
  unfold wp in Hw. by destruct ((refreshConfiguration ;;; _) r0) as [[]].
Qed.

(** ** Clusters *)

Definition status_ok (st : status S G) : Prop :=
  match st with
  | Up r => node_ok r ∧ outgoing_ok r
  | Down s => disk_ready s
  end.

Definition cluster_ok c : Prop :=
  map_Forall (λ _, status_ok) (cl_nodes c) ∧ (∀ m, m ∈ cl_soup c → msg_ok m) ∧
  (∀ w, w ∈ cl_wins c → vetted (snd w)).

(** The acts of a driver that keeps its side: a message needs no care, since only
    what a node sent is delivered. *)
Definition act_ok (a : act G) c : Prop :=
  match a with
  | ActOp i o =>
      ∀ r, cl_nodes c !! i = Some (Up r) →
        match o with OpStep _ => room_for o r | _ => given o r end
  | ActRestart _ cfg _ => conf_ok (c_Bootstrap cfg) ∧ known (c_ID cfg)
  | _ => True
  end.

Lemma act_ok_op i o r c :
  cluster_ok c → act_ok (ActOp i o) c → cl_nodes c !! i = Some (Up r) →
  deliverable o (cl_soup c) = true → node_ok r ∧ outgoing_ok r ∧ given o r.
Proof.
  intros (Hn & Hs & _) Ha Hr Hd. destruct (Hn i _ Hr) as [Hok Hout]. split_and!; [done..|].
  specialize (Ha r Hr). destruct o; try done. split; [done|].
  apply Hs. by apply bool_decide_eq_true in Hd.
Qed.

Lemma cluster_ok_set i st soup wins c :
  cluster_ok c → status_ok st → (∀ m, m ∈ soup → m ∈ cl_soup c ∨ msg_ok m) →
  (∀ w, w ∈ wins → w ∈ cl_wins c ∨ vetted (snd w)) →
  cluster_ok (mkCluster (<[i := st]> (cl_nodes c)) soup wins).
Proof.
  intros (Hn & Hs & Hw) Hst' Hm Hws. split_and!; cbn; [by apply map_Forall_insert_2| |].
  - intros m [|]%Hm; auto.
  - intros w [|]%Hws; auto.
Qed.

(** A node is elected under the configuration it holds. *)
Lemma new_win_vetted r r' wins w :
  node_ok r → w ∈ new_win r r' ++ wins → w ∈ wins ∨ vetted (snd w).
Proof.
  intros (_ & _ & _ & _ & [[_ Hc] _] & _) [Hw|]%elem_of_app; [right|by left]. revert Hw.
  unfold new_win. case_match; [|by intros ?%not_elem_of_nil]. by intros ->%list_elem_of_singleton.
Qed.

Lemma perform_ok a c c' :
  cluster_ok c → act_ok a c → perform a c = Some c' → cluster_ok c'.
Proof.
  intros Hc Ha Hp. destruct a as [i o|i|i g|i|i cfg g]; cbn [perform] in Hp;
    destruct (cl_nodes c !! i) as [[r|s]|] eqn:EN; try done.
  - destruct (deliverable o (cl_soup c)) eqn:ED; [|done].
    destruct (act_ok_op i o r c Hc Ha EN ED) as (Hr & Hout & Ho).
    pose proof (exec_given o r Hr Ho) as Hw.
    assert (∀ r', kept r r' → status_ok (Up r') ∧ status_ok (Down (disk_of r'))) as Hk.
    { intros r' Hk. split; [split; [apply Hk|by eapply kept_outgoing]|apply node_ok_disk, Hk]. }
    destruct (exec o r) as [[] r']; try done; [|destruct (tolerates o e)|]; simplify_eq;
      apply cluster_ok_set; try done;
      first [apply Hk, Hw|by intros ?; apply new_win_vetted|by left|idtac].
    destruct Hw as [-> _]. by apply node_ok_disk.
  - unfold Messages in Hp. cbn in Hp. simplify_eq.
    destruct (proj1 Hc i _ EN) as [Hr Hout]. apply cluster_ok_set; [done| | |].
    + split; [apply Hr|]. by intros m ?%not_elem_of_nil.
    + intros m [Hm|Hm]%elem_of_app; [right; by apply Hout|by left].
    + by left.
  - simplify_eq. apply cluster_ok_set; [done|exact (proj1 Hc i _ EN)|by left..].
  - simplify_eq. apply cluster_ok_set; [done| |by left..].
    by apply node_ok_disk, (proj1 Hc i _ EN).
  - destruct (c_ID cfg =? i)%N; [|done].
    pose proof (NewRawNode_ok cfg s g (proj1 Hc i _ EN) (proj1 Ha) (proj2 Ha)) as Hn.
    destruct (NewRawNode cfg (Some s) (Some g)); simplify_eq; try done.
    by apply cluster_ok_set; [| |left|left].
Qed.

(** A schedule whose acts keep to [act_ok]. *)
Fixpoint sched_ok (sched : list (act G)) c : Prop :=
  match sched with
  | [] => True
  | a :: sched' => act_ok a c ∧ (∀ c', perform a c = Some c' → sched_ok sched' c')
  end.

Lemma perform_all_ok sched c c' :
  cluster_ok c → sched_ok sched c → perform_all sched c = Some c' → cluster_ok c'.
Proof.
  revert c. induction sched as [|a sched IH]; cbn; intros c Hc Hs Hp; [by simplify_eq|].
  destruct (perform a c) as [c1|] eqn:E; [|done]. destruct Hs as [Ha Hs].
  eapply IH; [by eapply perform_ok|by apply Hs|done].
Qed.

Lemma start_cluster_ok (disks : gmap NodeID S) :
  map_Forall (λ _, disk_ready) disks → cluster_ok (start_cluster disks).
Proof.
  intros Hd. split_and!; cbn; [|by intros ? ?%not_elem_of_nil..].
  intros i st Hi. rewrite lookup_fmap in Hi. destruct (disks !! i) eqn:E; simplify_eq/=.
  by eapply Hd.
Qed.

(** What an act comes to: a call on a running node returns or reports an error and keeps what
    is committed, or is one of the two that are not permitted and changes nothing; and a
    node that is started starts, or reports an error. *)
Definition act_safe (a : act G) c : Prop :=
  match a with
  | ActOp i o =>
      ∀ r, cl_nodes c !! i = Some (Up r) → deliverable o (cl_soup c) = true →
        match exec o r with
        | (Ret _, r') | (Fail _, r') => kept r r'
        | (Panic _, r') => r' = r ∧ ¬ permitted o r
        | (OutOfFuel, _) => False
        end
  | ActRestart i cfg g =>
      ∀ s, cl_nodes c !! i = Some (Down s) →
        match NewRawNode cfg (Some s) (Some g) with
        | Ret r => node_ok r ∧ outgoing_ok r
        | Fail _ => True
        | Panic _ | OutOfFuel => False
        end
  | ActDrain _ | ActReseed _ _ | ActCrash _ => True
  end.

Lemma act_ok_safe a c : cluster_ok c → act_ok a c → act_safe a c.
Proof.
  intros Hc Ha. destruct a as [i o|i|i g|i|i cfg g]; try done; cbn [act_safe].
  - intros r Hr Ho. destruct (act_ok_op i o r c Hc Ha Hr Ho) as (Hok & _ & Hg). by apply exec_given.
  - intros s Hs. apply NewRawNode_ok; [apply (proj1 Hc i _ Hs)|apply Ha..].
Qed.
End cluster_safety.

(** C5: No call panics in any run of a cluster.  Start every node from a consistent disk, and
    run any schedule of ticks, deliveries (of anything that was ever sent, in any order
    and any number of times), client calls, crashes and restarts, in which no log runs out
    of 64-bit indexes and the configurations asked for fit their encoding: every node is
    well-formed, and whatever comes next returns or reports an error and keeps what is
    committed, restarts included.  The exceptions are the two calls that the methods refuse
    on purpose, campaigning while leading and applying beyond the commit index, which
    leave the node as it was.  No assumption is made on the messages: that they are
    well-formed is a consequence. *)
Theorem cluster_never_panics {S G : Type} `{Hst : Storage S} `{HL : !LogLaws S} `{Hrand : Rand G}
    (disks : gmap NodeID S) (sched : list (act G)) (c : cluster S G) (a : act G) :
  map_Forall (λ _, disk_ready) disks →
  sched_ok sched (start_cluster disks) → perform_all sched (start_cluster disks) = Some c →
  act_ok a c → cluster_ok c ∧ act_safe a c.
Proof.
  intros Hd Hs Hp Ha. pose proof (perform_all_ok sched _ c (start_cluster_ok disks Hd) Hs Hp) as Hc.
  split; [done|by apply act_ok_safe].
Qed.

(** ** The calls of a concrete election *)

Lemma trio_conf_ok : conf_ok trio_conf.
Proof. apply conf_ok_check; [repeat constructor; by vm_compute|done|by vm_compute]. Qed.

Lemma trio_disks_ready : map_Forall (λ _, disk_ready) trio_disks.
Proof.
  intros i s Hs. unfold trio_disks in Hs.
  rewrite !lookup_insert_Some, lookup_singleton_Some in Hs.
  assert (disk_ready NewMemoryStorage).
  { split_and!; [apply mem_ok_new|by vm_compute|constructor|].
    split; [apply conf_ok_check; [repeat constructor; by vm_compute|done|by vm_compute]|done]. }
  by destruct Hs as [[_ <-]|[_ [[_ <-]|[_ [_ <-]]]]].
Qed.

(** Nodes 1 and 2 start and node 1 asks for votes. *)
Definition trio_opening : list (act unit) := take 4 trio_schedule.

Definition trio_opened : cluster MemoryStorage unit :=
  default (start_cluster trio_disks) (perform_all trio_opening (start_cluster trio_disks)).

Definition trio_voter : RawNode MemoryStorage unit :=
  match cl_nodes trio_opened !! 2%N with Some (Up r) => r | _ => trio_leader end.

Lemma trio_opening_ok : sched_ok trio_opening (start_cluster trio_disks).
Proof.
  cbn [trio_opening trio_schedule take sched_ok act_ok].
  do 2 (split; [by split; [apply trio_conf_ok|]|intros ? E; vm_compute in E; injection E as <-]).
  split; [|intros ? E; vm_compute in E; injection E as <-; by repeat split].
  intros r E. vm_compute in E. injection E as <-. by vm_compute.
Qed.

Lemma cluster_never_panics_witness :
  ∃ u r', exec (OpStep trio_request) trio_voter = (Ret u, r') ∧ kept trio_voter r'.
Proof.
  assert (cl_nodes trio_opened !! 2%N = Some (Up trio_voter)) as HN by (by vm_compute).
  destruct (cluster_never_panics trio_disks trio_opening trio_opened (ActOp 2%N (OpStep trio_request))
    trio_disks_ready trio_opening_ok) as [_ Hsafe]; [by vm_compute|intros r; rewrite HN; intros [= <-]; by vm_compute|].
  specialize (Hsafe trio_voter HN ltac:(by vm_compute)).
  destruct (exec (OpStep trio_request) trio_voter) as [o r'] eqn:E.
  assert (o = Ret tt) as -> by (apply (f_equal fst) in E; vm_compute in E; by symmetry).
  exists tt, r'. split; [done|exact Hsafe].
Defined.

Lemma exec_never_panics_witness :
  ∃ r', exec OpTick (lead_at 2 4) = (Ret tt, r') ∧ kept (lead_at 2 4) r'.
Proof.
  pose proof (exec_never_panics OpTick (lead_at 2 4)) as Hsafe.
  destruct (exec OpTick (lead_at 2 4)) as [o r'] eqn:E.
  assert (o = Ret tt) as -> by (apply (f_equal fst) in E; vm_compute in E; by symmetry).
  exists r'. split; [done|]. apply Hsafe; [by apply lead_at_ok|by vm_compute].
Defined.

Lemma leader_append_only_witness :
  ∃ res r', exec (OpPropose [Byte.x41]) (lead_at 2 4) = (res, r') ∧
            log_appends (rn_log (lead_at 2 4)) (rn_log r').
Proof.
  exists (fst (exec (OpPropose [Byte.x41]) (lead_at 2 4))),
    (snd (exec (OpPropose [Byte.x41]) (lead_at 2 4))).
  split; [apply surjective_pairing|].
  apply (leader_append_only (OpPropose [Byte.x41]) (lead_at 2 4) _
    (fst (exec (OpPropose [Byte.x41]) (lead_at 2 4)))).
  - by apply lead_at_ok.
  - by vm_compute.
  - apply surjective_pairing.
  - by vm_compute.
Defined.
