(* ===== verification/LogHistory.v ===== *)
(** * The history of a replicated log

    What has happened in a cluster that matters to its logs, kept as one record: which
    log each term's leader has built, which log every candidate stood with and every
    voter voted with, who acknowledged how much to which leader, and what was sent.  No
    node knows this record; it is a history variable of the proofs.

    [good] says what is true of it in a cluster with a fixed configuration, and the file
    derives from it alone that logs match and that a leader's log holds what was
    committed before its term ([leaders_hold]).  LogSteps.v shows that every call of a node
    extends a good record to a good one. *)

From S2P Require Import Prelude Varint Types Config Storage RaftLog RawNode.

Record chronicle := mkChronicle {
  ch_leads : gmap Term (NodeID * list LogEntry);
  ch_cands : gmap (NodeID * Term) (list LogEntry);
  ch_votes : gmap (NodeID * Term) (NodeID * list LogEntry * bool);
  ch_acks : list (NodeID * Term * nat);
  ch_sent : list Message;
  ch_snaps : list Snapshot
}.

(** ** Lists *)

Lemma take_prefix {A} n (l : list A) : take n l `prefix_of` l.
Proof. exists (drop n l). by rewrite take_drop. Qed.

Lemma prefix_take {A} (k l : list A) : k `prefix_of` l → take (length k) l = k.
Proof. intros [m ->]. by rewrite take_app_length. Qed.

Lemma prefix_take_iff {A} n (k l : list A) :
  n ≤ length k → k `prefix_of` l → take n l = take n k.
Proof. intros Hn [m ->]. rewrite take_app_le by done. done. Qed.

Lemma take_eq_le {A} n m (l1 l2 : list A) : n ≤ m → take m l1 = take m l2 → take n l1 = take n l2.
Proof. intros Hn E%(f_equal (take n)). by rewrite !take_take, Nat.min_l in E by lia. Qed.

Lemma take_eq_lookup {A} n k (l1 l2 : list A) :
  take n l1 = take n l2 → k < n → l1 !! k = l2 !! k.
Proof. intros E Hk. rewrite <- (lookup_take_lt l1 n k), <- (lookup_take_lt l2 n k), E; done. Qed.

Lemma take_prefix_of {A} n (l1 l2 : list A) :
  n ≤ length l1 → take n l1 `prefix_of` l2 ↔ take n l1 = take n l2 ∧ n ≤ length l2.
Proof.
  intros Hn. split.
  - intros Hp. pose proof (prefix_length _ _ Hp) as Hl. rewrite length_take in Hl.
    split; [|lia]. symmetry. rewrite (prefix_take_iff n (take n l1) l2); [|rewrite length_take; lia|done].
    rewrite take_take. f_equal. lia.
  - intros [-> _]. apply take_prefix.
Qed.

(** ** Terms of a log *)

Definition lastTermOf (l : list LogEntry) : Term := from_option e_Term 0%N (last l).

(** The log [k] may win the vote of a node with log [l]. *)
Definition up_to_date (k l : list LogEntry) : Prop :=
  (lastTermOf l < lastTermOf k)%N ∨ (lastTermOf l = lastTermOf k ∧ length l ≤ length k).

Lemma up_to_date_refl l : up_to_date l l.
Proof. right. lia. Qed.

Lemma lastTermOf_lookup l e : l !! (length l - 1) = Some e → lastTermOf l = e_Term e.
Proof.
  intros He. unfold lastTermOf. rewrite last_lookup.
  replace (pred (length l)) with (length l - 1) by lia. by rewrite He.
Qed.

(** Entries a fixed membership leaves in a log. *)
Definition plain (e : LogEntry) : Prop :=
  e_Type e ≠ EntryConfChange ∧ (0 < e_Term e < W64)%N ∧ (N.of_nat (length (e_Command e)) < W64)%N.

Section chronicle.
Context (C : Configuration).
Implicit Types (H : chronicle) (l k : list LogEntry).

(** Every entry stands where the leader of its term put it, after the same entries. *)
Definition matches H l : Prop :=
  ∀ p e, l !! p = Some e → ∃ j lt, ch_leads H !! e_Term e = Some (j, lt) ∧ take (S p) l = take (S p) lt.

(** [l] has the first [n] entries of the leader of [t]. *)
Definition has H (t : Term) (n : nat) l : Prop :=
  ∃ j lt, ch_leads H !! t = Some (j, lt) ∧ n ≤ length lt ∧ take n lt = take n l ∧ n ≤ length l.

(** The leader of [t'] was elected without the first [n] entries of the leader of [t]. *)
Definition lost H (t : Term) (n : nat) (t' : Term) : Prop :=
  (∃ i lt, ch_leads H !! t = Some (i, lt) ∧ n ≤ length lt) ∧
  ∃ j l k, ch_leads H !! t' = Some (j, l) ∧ ch_cands H !! (j, t') = Some k ∧ ¬ has H t n k.

(** A vote for [i] that was given before [i] was elected. *)
Definition elected_by H (i : NodeID) (t : Term) (v : NodeID) : bool :=
  match ch_votes H !! (v, t) with Some (c, _, early) => (c =? i)%N && early | None => false end.

Definition acknowledged H (t : Term) (n : nat) (v : NodeID) : bool :=
  existsb (λ '(v', t', n'), (v' =? v)%N && (t' =? t)%N && (n <=? n')) (ch_acks H).

(** A quorum has acknowledged the first [n] entries of [t], the last of them its own. *)
Definition committed H (t : Term) (n : nat) : Prop :=
  ∃ j l e, ch_leads H !! t = Some (j, l) ∧ 0 < n ∧ l !! (n - 1) = Some e ∧ e_Term e = t ∧
    HasQuorum C (acknowledged H t n) = true.

(** The first [n] entries of [l] are committed, as known up to term [t]. *)
Definition sealed H (t : Term) (n : nat) l : Prop :=
  n = 0 ∨ ∃ t0 n0, committed H t0 n0 ∧ (t0 ≤ t)%N ∧ n ≤ n0 ∧ has H t0 n l.

(** The configuration is the fixed one, or missing. *)
Definition conf_fixed (c : Configuration) : Prop := c = C ∨ Configuration_IsEmpty c = true.

(** A snapshot of an empty log, or one that was taken. *)
Definition vouched H (snap : Snapshot) : Prop :=
  conf_fixed (snap_Config snap) ∧ (snap_LastIncludedIndex snap = 0%N ∨ snap ∈ ch_snaps H).

(** The entry before position [p + 1] of [l] has term [t]. *)
Definition term_before l (p : Index) (t : Term) : Prop :=
  (p = 0%N ∧ t = 0%N) ∨ (p ≠ 0%N ∧ e_Term <$> l !! N.to_nat (p - 1) = Some t).

Definition sent_ok H (m : Message) : Prop :=
  match m_Type m with
  | MsgVoteReq =>
      m_PreVote m = false →
      ∃ k, ch_cands H !! (m_From m, m_Term m) = Some k ∧
        m_LastLogIndex m = N.of_nat (length k) ∧ m_LastLogTerm m = lastTermOf k
  | MsgVoteResp =>
      m_PreVote m = false → m_Granted m = true →
      ∃ l b, ch_votes H !! (m_From m, m_Term m) = Some (m_To m, l, b)
  | MsgAppendReq =>
      ∃ l, ch_leads H !! m_Term m = Some (m_From m, l) ∧
        term_before l (m_PrevLogIndex m) (m_PrevLogTerm m) ∧
        m_Entries m `prefix_of` drop (N.to_nat (m_PrevLogIndex m)) l ∧
        sealed H (m_Term m) (N.to_nat (m_LeaderCommit m)) l
  | MsgAppendResp | MsgSnapshotResp =>
      m_Success m = true → (m_From m, m_Term m, N.to_nat (m_MatchIndex m)) ∈ ch_acks H
  | MsgSnapshotReq =>
      ∃ l snap, ch_leads H !! m_Term m = Some (m_From m, l) ∧ m_Snapshot m = Some snap ∧
        term_before l (snap_LastIncludedIndex snap) (snap_LastIncludedTerm snap) ∧
        sealed H (m_Term m) (N.to_nat (snap_LastIncludedIndex snap)) l ∧
        vouched H snap
  | MsgUnknown _ => True
  end.

Record good H : Prop := mkGood {
  gd_lead t i l :
    ch_leads H !! t = Some (i, l) →
    ∃ k, ch_cands H !! (i, t) = Some k ∧ k `prefix_of` l ∧
      Forall (λ e, e_Term e = t) (drop (length k) l) ∧ HasQuorum C (elected_by H i t) = true;
  gd_log t i l :
    ch_leads H !! t = Some (i, l) → matches H l ∧ contiguous_from 1 l ∧ Forall plain l;
  gd_cand i t k :
    ch_cands H !! (i, t) = Some k →
    i ≠ None_ ∧ (0 < t < W64)%N ∧ Forall (λ e, (e_Term e < t)%N) k ∧ matches H k;
  gd_vote v t c l b :
    ch_votes H !! (v, t) = Some (c, l, b) →
    matches H l ∧ ∃ k, ch_cands H !! (c, t) = Some k ∧ up_to_date k l;
  gd_early v t c l b :
    ch_leads H !! t = None → ch_votes H !! (v, t) = Some (c, l, b) → b = true;
  gd_ack v t n :
    (v, t, n) ∈ ch_acks H → ∃ j l, ch_leads H !! t = Some (j, l) ∧ n ≤ length l;
  gd_kept v t n n' t' c l :
    (v, t, n') ∈ ch_acks H → n ≤ n' → (t < t')%N → ch_votes H !! (v, t') = Some (c, l, true) →
    has H t n l ∨ ∃ t'', (t < t'' < t')%N ∧ lost H t n t'';
  gd_sent m : m ∈ ch_sent H → sent_ok H m
}.

(** ** What matching logs share *)

Lemma matches_prefix H k l : matches H l → k `prefix_of` l → matches H k.
Proof.
  intros Hl Hk p e He. pose proof (lookup_lt_Some _ _ _ He) as Hp.
  destruct (Hl p e) as (j & lt & Hj & E); [by eapply prefix_lookup_Some|].
  exists j, lt. split; [done|]. rewrite <- E. symmetry. by apply prefix_take_iff.
Qed.

Lemma matches_agree H l1 l2 p e1 e2 :
  matches H l1 → matches H l2 → l1 !! p = Some e1 → l2 !! p = Some e2 → e_Term e1 = e_Term e2 →
  take (S p) l1 = take (S p) l2.
Proof.
  intros H1 H2 E1 E2 Et. destruct (H1 p e1 E1) as (j1 & lt1 & Hj1 & ->).
  destruct (H2 p e2 E2) as (j2 & lt2 & Hj2 & ->). rewrite Et in Hj1. congruence.
Qed.

Section good.
Context H (Hg : good H).

(** No entry of a leader's log is of a later term. *)
Lemma lead_terms t i l e : ch_leads H !! t = Some (i, l) → e ∈ l → (e_Term e ≤ t)%N.
Proof.
  intros Hl He. destruct (gd_lead H Hg t i l Hl) as (k & Hk & [m ->] & Hd & _).
  rewrite drop_app_length in Hd. destruct (gd_cand H Hg i t k Hk) as (_ & _ & Hlt & _).
  rewrite Forall_forall in Hlt, Hd. apply elem_of_app in He as [He|He].
  - specialize (Hlt e He). cbn in Hlt. lia.
  - specialize (Hd e He). cbn in Hd. lia.
Qed.

(** The log of a matching position is the leader's, so it is in order. *)
Lemma matches_sorted l p q e1 e2 :
  matches H l → l !! p = Some e1 → l !! q = Some e2 → p ≤ q → (e_Term e1 ≤ e_Term e2)%N.
Proof.
  intros Hm E1 E2 Hpq. destruct (Hm q e2 E2) as (j & lt & Hj & E).
  apply (lead_terms _ _ _ _ Hj). apply list_elem_of_lookup. exists p.
  rewrite <- (take_eq_lookup (S q) p l lt); [done|done|lia].
Qed.

Lemma matches_plain l : matches H l → Forall plain l ∧ contiguous_from 1 l.
Proof.
  intros Hm.
  assert (∀ p e, l !! p = Some e → plain e ∧ e_Index e = (1 + N.of_nat p)%N) as HA.
  { intros p e He. destruct (Hm p e He) as (j & lt & Hj & E).
    destruct (gd_log H Hg _ _ _ Hj) as (_ & Hc & Hp).
    assert (lt !! p = Some e) as He' by (rewrite <- (take_eq_lookup (S p) p l lt); [done..|lia]).
    split; [by eapply Forall_lookup_1 in Hp|by apply Hc]. }
  split; [apply Forall_lookup; intros p e He; by apply (HA p e)|]. intros p e He. by apply HA.
Qed.

Lemma lastTermOf_le l p e : matches H l → l !! p = Some e → (e_Term e ≤ lastTermOf l)%N.
Proof.
  intros Hm He. pose proof (lookup_lt_Some _ _ _ He).
  destruct (lookup_lt_is_Some_2 l (length l - 1)) as [e' He']; [lia|].
  rewrite (lastTermOf_lookup l e' He'). eapply matches_sorted; [done..|lia].
Qed.

Lemma acknowledged_spec t n v : acknowledged H t n v = true ↔ ∃ n', (v, t, n') ∈ ch_acks H ∧ n ≤ n'.
Proof.
  unfold acknowledged. rewrite existsb_exists. split.
  - intros ([[v' t'] n'] & Hin & Hb). rewrite !andb_true_iff, !N.eqb_eq, Nat.leb_le in Hb.
    destruct Hb as [[-> ->] ?]. exists n'. split; [by apply list_elem_of_In|done].
  - intros (n' & Hin & Hn). exists (v, t, n'). split; [by apply list_elem_of_In|].
    by rewrite !N.eqb_refl, (proj2 (Nat.leb_le _ _) Hn).
Qed.

Lemma elected_by_spec i t v : elected_by H i t v = true ↔ ∃ l, ch_votes H !! (v, t) = Some (i, l, true).
Proof.
  unfold elected_by. destruct (ch_votes H !! (v, t)) as [[[c l] b]|]; [|naive_solver].
  rewrite andb_true_iff, N.eqb_eq. naive_solver.
Qed.

Lemma quorums_meet f g : HasQuorum C f = true → HasQuorum C g = true → ∃ v, f v = true ∧ g v = true.
Proof.
  intros [Hf _]%HasQuorum_spec [Hq _]%HasQuorum_spec.
  destruct (majorities_intersect _ _ _ Hf Hq) as (v & _ & ?). by exists v.
Qed.

Lemma has_prefix t n k l : has H t n k → k `prefix_of` l → has H t n l.
Proof.
  intros (j & lt & Hj & Hn & E & Hk) Hp. exists j, lt. split_and!; [done..| |].
  - rewrite E. symmetry. by apply prefix_take_iff.
  - apply prefix_length in Hp. lia.
Qed.

(** A matching log is the beginning of the log of the leader of its last term. *)
Lemma matches_whole l :
  matches H l → l ≠ [] → ∃ j lt, ch_leads H !! lastTermOf l = Some (j, lt) ∧ l `prefix_of` lt.
Proof.
  intros Hm Hne. destruct (lookup_lt_is_Some_2 l (length l - 1)) as [e He]; [destruct l; [done|cbn; lia]|].
  destruct (Hm _ _ He) as (j & lt & Hj & E). rewrite (lastTermOf_lookup l e He). exists j, lt.
  split; [done|]. assert (length l ≠ 0) by (by destruct l).
  replace (S (length l - 1)) with (length l) in E by lia. rewrite firstn_all in E. rewrite E. apply take_prefix.
Qed.

(** The log a voter had when it voted for a leader holds what the leader's log holds. *)
Lemma vote_carries t n s k lv :
  (∀ t' j l k', ch_leads H !! t' = Some (j, l) → ch_cands H !! (j, t') = Some k' → (t < t' < s)%N → has H t n k') →
  0 < n → (∃ e, lv !! (n - 1) = Some e ∧ e_Term e = t) → matches H lv → has H t n lv →
  matches H k → Forall (λ e, (e_Term e < s)%N) k → up_to_date k lv → has H t n k.
Proof.
  intros IH Hn (e & He & Het) Hlv Hhas Hk Hks Hup.
  assert (t ≤ lastTermOf lv)%N as Hle by (rewrite <- Het; by eapply lastTermOf_le).
  assert (0 < t)%N as Htpos.
  { destruct (matches_plain lv Hlv) as [Hp _]. eapply Forall_lookup_1 in Hp as (_ & Hp & _); [|exact He]. lia. }
  assert (k ≠ []) as Hkne.
  { intros ->. destruct Hup as [Hup|[Hup _]]; unfold lastTermOf at 2 in Hup; cbn in Hup; lia. }
  destruct (matches_whole k Hk Hkne) as (j & l & Hj & Hkl).
  assert (lv ≠ []) as Hlvne by (by intros ->).
  destruct Hup as [Hlt|[Heq Hlen]].
  - assert (lastTermOf k < s)%N as Hs.
    { destruct (lookup_lt_is_Some_2 k (length k - 1)) as [ek Hek]; [destruct k; [done|cbn; lia]|].
      rewrite (lastTermOf_lookup k ek Hek). by eapply Forall_lookup_1 in Hks. }
    destruct (gd_lead H Hg _ _ _ Hj) as (k2 & Hk2 & Hp2 & _).
    pose proof (has_prefix _ _ _ _ (IH _ _ _ _ Hj Hk2 ltac:(lia)) Hp2) as (i & lt & Hi & Hnl & E & Hll).
    assert (n ≤ length k) as Hnk.
    { destruct (decide (n ≤ length k)) as [|Hn']; [done|exfalso].
      destruct (lookup_lt_is_Some_2 k (length k - 1)) as [ek Hek]; [destruct k; [done|cbn; lia]|].
      pose proof (prefix_lookup_Some _ _ _ _ Hek Hkl) as Hel.
      rewrite <- (take_eq_lookup n _ lt l E) in Hel by (destruct k; [done|cbn in *; lia]).
      pose proof (lead_terms t i lt ek Hi ltac:(by eapply list_elem_of_lookup_2)).
      rewrite <- (lastTermOf_lookup k ek Hek) in *. lia. }
    exists i, lt. split_and!; [done..| |done]. rewrite E. by apply prefix_take_iff.
  - destruct (matches_whole lv Hlv Hlvne) as (j2 & l2 & Hj2 & Hl2). rewrite Heq, Hj in Hj2. simplify_eq.
    destruct Hhas as (i & lt & Hi & Hnl & E & Hnv). exists i, lt. split_and!; [done..| |lia].
    rewrite E, <- (prefix_take_iff n lv l2), <- (prefix_take_iff n k l2); done || lia.
Qed.

(** Leader Completeness: who is elected after [n] entries of term [t] are committed stands
    with all of them. *)
Lemma leaders_hold t n t' j l k :
  committed H t n → ch_leads H !! t' = Some (j, l) → ch_cands H !! (j, t') = Some k → (t < t')%N →
  has H t n k.
Proof.
  intros Hc. revert j l k. induction (N.lt_wf_0 t') as [t' _ IH]. intros j l k Hl Hk Hlt.
  pose proof Hc as (i & lt & e & Hi & Hn & He & Het & Hq).
  destruct (gd_lead H Hg _ _ _ Hl) as (k' & Hk' & _ & _ & Hq'). simplify_eq.
  destruct (quorums_meet _ _ Hq Hq') as (v & (n' & Hack & Hn')%acknowledged_spec & (lv & Hv)%elected_by_spec).
  destruct (gd_vote H Hg _ _ _ _ _ Hv) as (Hmv & k'' & Hk'' & Hup). simplify_eq.
  destruct (gd_cand H Hg _ _ _ Hk) as (_ & _ & Hks & Hmk).
  destruct (gd_kept H Hg v (e_Term e) n n' t' _ _ Hack Hn' Hlt Hv) as [Hhas|(t'' & Ht'' & _ & j2 & l2 & k2 & Hl2 & Hk2 & Hno)].
  - eapply (vote_carries (e_Term e) n t' _ lv); try done.
    + intros s j2 l2 k2 Hl2 Hk2 Hs. eapply IH; [|done..|]; lia.
    + exists e. split; [|done]. destruct Hhas as (i' & lt' & Hi' & _ & E & _).
      assert (lt' = lt) as -> by congruence. rewrite <- (take_eq_lookup n (n - 1) lt lv E) by lia. done.
  - exfalso. apply Hno. eapply IH; [|done..|]; lia.
Qed.

(** What is committed up to a term is in the log of that term's leader. *)
Lemma sealed_in_lead t n l j lt :
  sealed H t n l → ch_leads H !! t = Some (j, lt) → take n lt = take n l ∧ n ≤ length lt ∧ n ≤ length l.
Proof.
  intros [->|(t0 & n0 & Hc & Ht & Hn & i & l0 & Hi & Hn0 & E & Hnl)] Hj; [split; [done|lia]|].
  destruct (decide (t0 = t)) as [->|Hne]; [simplify_eq; auto|].
  destruct (gd_lead H Hg _ _ _ Hj) as (k & Hk & Hkl & _).
  pose proof (leaders_hold t0 n0 t j lt k Hc Hj Hk ltac:(lia)) as Hhas.
  apply (has_prefix _ _ _ _) with (1 := Hhas) in Hkl as (i' & l0' & Hi' & Hn0' & E' & Hlt). simplify_eq.
  apply (take_eq_le n n0) in E'; [|done]. split_and!; [congruence|lia|done].
Qed.

(** Two logs hold the same at a position both know to be committed. *)
Lemma sealed_agree t1 n1 l1 t2 n2 l2 n :
  sealed H t1 n1 l1 → sealed H t2 n2 l2 → n ≤ n1 → n ≤ n2 → take n l1 = take n l2.
Proof.
  assert (∀ t1 m1 (l1 : list LogEntry) t2 m2 l2, committed H t1 m1 → committed H t2 m2 → (t1 ≤ t2)%N →
    n ≤ m1 → n ≤ m2 → has H t1 n l1 → has H t2 n l2 → take n l1 = take n l2) as Hwlog.
  { clear t1 n1 l1 t2 n2 l2. intros t1 m1 l1 t2 m2 l2 H1 H2 Ht Hn1 Hn2 (i & k1 & Hi & ? & E1 & ?) (j & k2 & Hj & ? & E2 & ?).
    destruct (sealed_in_lead t2 n k1 j k2) as (E & _); [|done|congruence].
    right. exists t1, m1. split_and!; [done..|]. by exists i, k1. }
  intros [->|(s1 & m1 & Hc1 & _ & Hm1 & Hh1)] [->|(s2 & m2 & Hc2 & _ & Hm2 & Hh2)] Hn1 Hn2;
    try (replace n with 0 by lia; done).
  assert (∀ t (q : nat) (l : list LogEntry), has H t q l → n ≤ q → has H t n l) as Hle.
  { intros t q l (i & lt & Hi & ? & E & ?) ?. exists i, lt. split_and!; [done|lia|by eapply take_eq_le|lia]. }
  destruct (N.le_ge_cases s1 s2); [eapply (Hwlog s1 m1 l1 s2 m2 l2)|symmetry; eapply (Hwlog s2 m2 l2 s1 m1 l1)];
    try done; try lia; by eapply Hle.
Qed.
End good.

(** ** Extending a history

    [extends i H H']: node [i] has acted, and nothing is forgotten. *)
Record extends (i : NodeID) H H' : Prop := mkExtends {
  ex_leads t j l : ch_leads H !! t = Some (j, l) →
    ∃ l', ch_leads H' !! t = Some (j, l') ∧ l `prefix_of` l' ∧ (j ≠ i → l' = l);
  ex_lead t j l : ch_leads H' !! t = Some (j, l) → j ≠ i → ch_leads H !! t = Some (j, l);
  ex_cands : ch_cands H ⊆ ch_cands H';
  ex_cand t j k : ch_cands H' !! (j, t) = Some k → j ≠ i → ch_cands H !! (j, t) = Some k;
  ex_votes : ch_votes H ⊆ ch_votes H';
  ex_vote t j x : ch_votes H' !! (j, t) = Some x → j ≠ i → ch_votes H !! (j, t) = Some x;
  ex_acks x : x ∈ ch_acks H → x ∈ ch_acks H';
  ex_ack j t n : (j, t, n) ∈ ch_acks H' → j ≠ i → (j, t, n) ∈ ch_acks H;
  ex_sent m : m ∈ ch_sent H → m ∈ ch_sent H';
  ex_snaps : ch_snaps H' = ch_snaps H
}.

Lemma extends_refl i H : extends i H H.
Proof. split; eauto. Qed.

Lemma extends_trans i H1 H2 H3 : extends i H1 H2 → extends i H2 H3 → extends i H1 H3.
Proof.
  intros A B. split.
  - intros t j l Hl. destruct (ex_leads _ _ _ A t j l Hl) as (l1 & Hl1 & ? & E1).
    destruct (ex_leads _ _ _ B t j l1 Hl1) as (l2 & ? & ? & E2). exists l2.
    split_and!; [done|by etrans|]. intros Hj. by rewrite E2, E1.
  - intros t j l Hl Hj. apply (ex_lead _ _ _ A); [|done]. by apply (ex_lead _ _ _ B).
  - etrans; [apply A|apply B].
  - intros t j k Hk Hj. apply (ex_cand _ _ _ A); [|done]. by apply (ex_cand _ _ _ B).
  - etrans; [apply A|apply B].
  - intros t j k Hk Hj. apply (ex_vote _ _ _ A); [|done]. by apply (ex_vote _ _ _ B).
  - intros x Hx. by apply B, A.
  - intros j t n Hx Hj. apply (ex_ack _ _ _ A); [|done]. by apply (ex_ack _ _ _ B).
  - intros m Hm. by apply B, A.
  - by rewrite (ex_snaps _ _ _ B), (ex_snaps _ _ _ A).
Qed.

Section mono.
Context i H H' (He : extends i H H').

Lemma lead_mono t j l : ch_leads H !! t = Some (j, l) → ∃ l', ch_leads H' !! t = Some (j, l') ∧ l `prefix_of` l'.
Proof. intros (l' & ? & ? & _)%(ex_leads _ _ _ He). by exists l'. Qed.

Lemma cand_mono jt k : ch_cands H !! jt = Some k → ch_cands H' !! jt = Some k.
Proof. intros Hk. by eapply lookup_weaken; [|apply He]. Qed.

Lemma vote_mono jt x : ch_votes H !! jt = Some x → ch_votes H' !! jt = Some x.
Proof. intros Hk. by eapply lookup_weaken; [|apply He]. Qed.

Lemma matches_mono l : matches H l → matches H' l.
Proof.
  intros Hm p e Hp. destruct (Hm p e Hp) as (j & lt & Hj & E).
  destruct (lead_mono _ _ _ Hj) as (lt' & Hj' & Hpre). exists j, lt'. split; [done|].
  rewrite E. symmetry. apply prefix_take_iff; [|done].
  apply (f_equal length) in E. rewrite !length_take in E. pose proof (lookup_lt_Some _ _ _ Hp). lia.
Qed.

Lemma has_mono t n l : has H t n l → has H' t n l.
Proof.
  intros (j & lt & Hj & Hn & E & Hl). destruct (lead_mono _ _ _ Hj) as (lt' & Hj' & Hpre).
  exists j, lt'. split_and!; [done|apply prefix_length in Hpre; lia| |done].
  rewrite <- E. by apply prefix_take_iff.
Qed.

Lemma has_anti t n l :
  (∃ j lt, ch_leads H !! t = Some (j, lt) ∧ n ≤ length lt) → has H' t n l → has H t n l.
Proof.
  intros (j & lt & Hj & Hn) (j' & lt' & Hj' & Hn' & E & Hl).
  destruct (lead_mono _ _ _ Hj) as (lt'' & Hj'' & Hpre).
  assert (lt'' = lt') as -> by congruence. exists j, lt.
  split_and!; [done..| |done]. rewrite <- E. symmetry. by apply prefix_take_iff.
Qed.

Lemma lost_mono t n t' : lost H t n t' → lost H' t n t'.
Proof.
  intros [Ht (j & l & k & Hj & Hk & Hno)]. split.
  - destruct Ht as (i0 & lt & Hi & Hn). destruct (lead_mono _ _ _ Hi) as (lt' & Hi' & Hp%prefix_length).
    exists i0, lt'. split; [done|lia].
  - destruct (lead_mono _ _ _ Hj) as (l' & Hj' & _). exists j, l', k. split_and!; [done|by apply cand_mono|].
    intros Hh. apply Hno. by apply has_anti.
Qed.

Lemma acknowledged_mono t n v : acknowledged H t n v = true → acknowledged H' t n v = true.
Proof.
  rewrite !acknowledged_spec. intros (n' & Hin & Hn). exists n'. split; [by apply He|done].
Qed.

Lemma elected_by_mono j t v : elected_by H j t v = true → elected_by H' j t v = true.
Proof. rewrite !elected_by_spec. intros (l & Hl). exists l. by apply vote_mono. Qed.

Lemma committed_mono t n : committed H t n → committed H' t n.
Proof.
  intros (j & l & e & Hj & Hn & Hl & Ht & Hq). destruct (lead_mono _ _ _ Hj) as (l' & Hj' & Hp).
  exists j, l', e. split_and!; [done..|by eapply prefix_lookup_Some|done|].
  eapply HasQuorum_mono; [|exact Hq]. apply acknowledged_mono.
Qed.

Lemma sealed_mono t n l : sealed H t n l → sealed H' t n l.
Proof.
  intros [->|(t0 & n0 & Hc & Ht & Hn & Hh)]; [by left|right]. exists t0, n0.
  split_and!; [by apply committed_mono|done|done|by apply has_mono].
Qed.

Lemma sealed_prefix t n l l' : sealed H t n l → l `prefix_of` l' → sealed H t n l'.
Proof.
  intros [->|(t0 & n0 & Hc & Ht & Hn & Hh)] Hp; [by left|right]. exists t0, n0.
  split_and!; [done..|]. by eapply has_prefix.
Qed.

Lemma term_before_prefix l l' p t : term_before l p t → l `prefix_of` l' → term_before l' p t.
Proof.
  intros [?|[? Hp]] Hl; [by left|right]. split; [done|].
  apply fmap_Some in Hp as (e & He' & ->). by rewrite (prefix_lookup_Some _ _ _ _ He' Hl).
Qed.

Lemma vouched_mono snap : vouched H snap → vouched H' snap.
Proof. unfold vouched. by rewrite (ex_snaps _ _ _ He). Qed.

Lemma sent_ok_mono m : sent_ok H m → sent_ok H' m.
Proof.
  unfold sent_ok. destruct (m_Type m); try done.
  - intros Hs Hp. destruct (Hs Hp) as (k & Hk & ?). exists k. split; [by apply cand_mono|done].
  - intros Hs Hp Hgr. destruct (Hs Hp Hgr) as (l & b & Hv). exists l, b. by apply vote_mono.
  - intros (l & Hl & Ht & Hpre & Hsl). destruct (lead_mono _ _ _ Hl) as (l' & Hl' & Hp). exists l'.
    split_and!; [done|by eapply term_before_prefix| |].
    + destruct Hp as [m' ->]. etrans; [exact Hpre|]. rewrite drop_app. by apply prefix_app_r.
    + eapply sealed_mono, sealed_prefix; [exact Hsl|done].
  - intros Hs Hok. by apply He, Hs.
  - intros (l & snap & Hl & Hm & Ht & Hsl & Hc). destruct (lead_mono _ _ _ Hl) as (l' & Hl' & Hp).
    exists l', snap. split_and!; [done..|by eapply term_before_prefix| |by apply vouched_mono].
    eapply sealed_mono, sealed_prefix; [exact Hsl|done].
  - intros Hs Hok. by apply He, Hs.
Qed.
End mono.

(** The parts of [good] that survive any extension, when what is new is accounted for. *)
Lemma good_extend i H H' :
  good H → extends i H H' →
  (∀ t j l, ch_leads H' !! t = Some (j, l) → j = i →
     ∃ k, ch_cands H' !! (j, t) = Some k ∧ k `prefix_of` l ∧
       Forall (λ e, e_Term e = t) (drop (length k) l) ∧ HasQuorum C (elected_by H' j t) = true ∧
       matches H' l ∧ contiguous_from 1 l ∧ Forall plain l) →
  (∀ j t k, ch_cands H' !! (j, t) = Some k → ch_cands H !! (j, t) = None →
     j ≠ None_ ∧ (0 < t < W64)%N ∧ Forall (λ e, (e_Term e < t)%N) k ∧ matches H' k) →
  (∀ v t c l b, ch_votes H' !! (v, t) = Some (c, l, b) → ch_votes H !! (v, t) = None →
     matches H' l ∧ (∃ k, ch_cands H' !! (c, t) = Some k ∧ up_to_date k l) ∧
     (ch_leads H' !! t = None → b = true) ∧
     (b = true → ∀ t0 n n', (v, t0, n') ∈ ch_acks H' → n ≤ n' → (t0 < t)%N →
        has H' t0 n l ∨ ∃ t'', (t0 < t'' < t)%N ∧ lost H' t0 n t'')) →
  (∀ v t n, (v, t, n) ∈ ch_acks H' → (v, t, n) ∉ ch_acks H →
     (∃ j l, ch_leads H' !! t = Some (j, l) ∧ n ≤ length l) ∧
     ∀ t' x, ch_votes H' !! (v, t') = Some x → (t' ≤ t)%N) →
  (∀ m, m ∈ ch_sent H' → m ∈ ch_sent H ∨ sent_ok H' m) →
  good H'.
Proof.
  intros Hg He Hlead Hcand Hvote Hack Hsent.
  assert (∀ t j l, ch_leads H' !! t = Some (j, l) → j ≠ i → ch_leads H !! t = Some (j, l)) as Hold
    by apply (ex_lead _ _ _ He).
  assert (∀ t j l, ch_leads H' !! t = Some (j, l) →
     ∃ k, ch_cands H' !! (j, t) = Some k ∧ k `prefix_of` l ∧
       Forall (λ e, e_Term e = t) (drop (length k) l) ∧ HasQuorum C (elected_by H' j t) = true ∧
       matches H' l ∧ contiguous_from 1 l ∧ Forall plain l) as HL.
  { intros t j l Hl. destruct (decide (j = i)) as [->|Hj]; [by apply Hlead|].
    specialize (Hold t j l Hl Hj). destruct (gd_lead H Hg _ _ _ Hold) as (k & Hk & ? & ? & Hq).
    destruct (gd_log H Hg _ _ _ Hold) as (? & ? & ?).
    exists k. split_and!; try done; [by eapply cand_mono| |by eapply matches_mono].
    eapply HasQuorum_mono; [|exact Hq]. intros v. by eapply elected_by_mono. }
  split.
  - intros t j l Hl. destruct (HL t j l Hl) as (k & ? & ? & ? & ? & _). by exists k.
  - intros t j l Hl. destruct (HL t j l Hl) as (k & _ & _ & _ & _ & ?). done.
  - intros j t k Hk. destruct (ch_cands H !! (j, t)) as [k'|] eqn:E; [|by apply Hcand].
    pose proof (cand_mono _ _ _ He _ _ E). simplify_eq.
    destruct (gd_cand H Hg _ _ _ E) as (? & ? & ? & ?). do 3 (split; [done|]). by eapply matches_mono.
  - intros v t c l b Hv. destruct (ch_votes H !! (v, t)) as [x|] eqn:E.
    + pose proof (vote_mono _ _ _ He _ _ E). simplify_eq.
      destruct (gd_vote H Hg _ _ _ _ _ E) as (? & k & ? & ?). split; [by eapply matches_mono|].
      exists k. split; [by eapply cand_mono|done].
    + destruct (Hvote _ _ _ _ _ Hv E) as (? & ? & _). done.
  - intros v t c l b Hn Hv. destruct (ch_votes H !! (v, t)) as [x|] eqn:E.
    + pose proof (vote_mono _ _ _ He _ _ E). simplify_eq. eapply (gd_early H Hg); [|exact E].
      destruct (ch_leads H !! t) as [[j lt]|] eqn:El; [|done].
      destruct (lead_mono _ _ _ He _ _ _ El) as (l' & ? & _). congruence.
    + by apply (Hvote _ _ _ _ _ Hv E).
  - intros v t n Hx. destruct (decide ((v, t, n) ∈ ch_acks H)) as [Ho|Ho].
    + destruct (gd_ack H Hg _ _ _ Ho) as (j & l & Hj & Hn).
      destruct (lead_mono _ _ _ He _ _ _ Hj) as (l' & Hj' & Hp%prefix_length).
      exists j, l'. split; [done|lia].
    + by apply (Hack _ _ _ Hx Ho).
  - intros v t n n' t' c l Hx Hn Ht Hv. destruct (ch_votes H !! (v, t')) as [y|] eqn:E.
    + pose proof (vote_mono _ _ _ He _ _ E). simplify_eq.
      destruct (decide ((v, t, n') ∈ ch_acks H)) as [Ho|Ho].
      * destruct (gd_kept H Hg _ _ _ _ _ _ _ Ho Hn Ht E) as [?|(t'' & ? & ?)];
          [left; by eapply has_mono|right]. exists t''. split; [done|by eapply lost_mono].
      * destruct (Hack _ _ _ Hx Ho) as [_ Hb]. specialize (Hb t' _ Hv). lia.
    + destruct (Hvote _ _ _ _ _ Hv E) as (_ & _ & _ & Hk). by eapply Hk.
  - intros m Hm. destruct (Hsent m Hm) as [Ho|]; [|done].
    eapply sent_ok_mono; [done|by apply (gd_sent H Hg)].
Qed.

(** ** What a node can add *)

Definition add_sent (m : Message) H : chronicle :=
  mkChronicle (ch_leads H) (ch_cands H) (ch_votes H) (ch_acks H) (m :: ch_sent H) (ch_snaps H).
Definition add_cand (i : NodeID) (t : Term) k H : chronicle :=
  mkChronicle (ch_leads H) (<[(i, t) := k]> (ch_cands H)) (ch_votes H) (ch_acks H) (ch_sent H) (ch_snaps H).
Definition add_vote (i : NodeID) (t : Term) (c : NodeID) l H : chronicle :=
  mkChronicle (ch_leads H) (ch_cands H)
    (<[(i, t) := (c, l, bool_decide (ch_leads H !! t = None))]> (ch_votes H)) (ch_acks H) (ch_sent H) (ch_snaps H).
Definition set_lead_log (i : NodeID) (t : Term) l H : chronicle :=
  mkChronicle (<[t := (i, l)]> (ch_leads H)) (ch_cands H) (ch_votes H) (ch_acks H) (ch_sent H) (ch_snaps H).
Definition add_ack (i : NodeID) (t : Term) (n : nat) H : chronicle :=
  mkChronicle (ch_leads H) (ch_cands H) (ch_votes H) ((i, t, n) :: ch_acks H) (ch_sent H) (ch_snaps H).

Lemma add_sent_good i m H : good H → sent_ok H m → good (add_sent m H) ∧ extends i H (add_sent m H).
Proof.
  intros Hg Hm. assert (extends i H (add_sent m H)) as He.
  { split; cbn; eauto. intros m' Hm'. by apply elem_of_cons; right. }
  split; [|done]. apply (good_extend i H _ Hg He); cbn.
  - intros t j l Hl _. destruct (gd_lead H Hg _ _ _ Hl) as (k & ? & ? & ? & ?).
    destruct (gd_log H Hg _ _ _ Hl) as (? & ? & ?). by exists k.
  - congruence.
  - congruence.
  - by intros.
  - intros m' [->|?]%elem_of_cons; [right; by eapply sent_ok_mono|by left].
Qed.

Lemma add_cand_good i t k H :
  good H → ch_cands H !! (i, t) = None → i ≠ None_ → (0 < t < W64)%N →
  Forall (λ e, (e_Term e < t)%N) k → matches H k →
  good (add_cand i t k H) ∧ extends i H (add_cand i t k H).
Proof.
  intros Hg Hn Hi Ht Hk Hm. assert (extends i H (add_cand i t k H)) as He.
  { split; cbn; eauto; [by apply insert_subseteq|].
    intros t' j k' Hk' Hj. rewrite lookup_insert_ne in Hk' by congruence. done. }
  split; [|done]. apply (good_extend i H _ Hg He); cbn.
  - intros t' j l Hl _. destruct (gd_lead H Hg _ _ _ Hl) as (k' & ? & ? & ? & ?).
    destruct (gd_log H Hg _ _ _ Hl) as (? & ? & ?). exists k'. split_and!; try done.
    by apply (cand_mono _ _ _ He).
  - intros j t' k' Hk' Hn'. destruct (decide ((j, t') = (i, t))) as [[= -> ->]|Hne].
    + rewrite lookup_insert_eq in Hk'. simplify_eq. done.
    + rewrite lookup_insert_ne in Hk' by congruence. congruence.
  - congruence.
  - by intros.
  - by left.
Qed.

Lemma add_vote_good i t c l H :
  good H → ch_votes H !! (i, t) = None → matches H l →
  (∃ k, ch_cands H !! (c, t) = Some k ∧ up_to_date k l) →
  (∀ t0 n n', (i, t0, n') ∈ ch_acks H → n ≤ n' → (t0 < t)%N →
     has H t0 n l ∨ ∃ t'', (t0 < t'' ≤ t)%N ∧ lost H t0 n t'') →
  good (add_vote i t c l H) ∧ extends i H (add_vote i t c l H).
Proof.
  intros Hg Hn Hm Hk Hack. assert (extends i H (add_vote i t c l H)) as He.
  { split; cbn; eauto; [by apply insert_subseteq|].
    intros t' j k' Hk' Hj. rewrite lookup_insert_ne in Hk' by congruence. done. }
  split; [|done]. apply (good_extend i H _ Hg He); cbn.
  - intros t' j l' Hl _. destruct (gd_lead H Hg _ _ _ Hl) as (k' & ? & ? & ? & Hq).
    destruct (gd_log H Hg _ _ _ Hl) as (? & ? & ?). exists k'. split_and!; try done.
    eapply HasQuorum_mono; [|exact Hq]. intros v. by eapply elected_by_mono.
  - congruence.
  - intros v t' c' l' b Hv Hn'. destruct (decide ((v, t') = (i, t))) as [[= -> ->]|Hne];
      [|rewrite lookup_insert_ne in Hv by congruence; congruence].
    rewrite lookup_insert_eq in Hv. simplify_eq. split_and!; [done..|by intros ->; rewrite bool_decide_true|].
    intros Hb%bool_decide_eq_true t0 n n' Hx Hnn Ht.
    destruct (Hack t0 n n' Hx Hnn Ht) as [?|(t'' & Ht'' & Hlost)]; [by left|right].
    exists t''. split; [|by apply (lost_mono _ _ _ He)].
    destruct (decide (t'' = t)) as [->|]; [|lia]. destruct Hlost as [_ (j & lj & _ & Hj & _)]. congruence.
  - by intros.
  - by left.
Qed.

(** A candidate with the votes of a quorum leads its term, and nobody led it before. *)
Lemma win_fresh i t H :
  good H → (∀ l, ch_leads H !! t ≠ Some (i, l)) →
  HasQuorum C (λ v, match ch_votes H !! (v, t) with Some (c, _, _) => (c =? i)%N | None => false end) = true →
  ch_leads H !! t = None.
Proof.
  intros Hg Hi Hq. destruct (ch_leads H !! t) as [[j l]|] eqn:E; [|done]. exfalso.
  destruct (gd_lead H Hg _ _ _ E) as (k & _ & _ & _ & Hq').
  destruct (quorums_meet _ _ Hq Hq') as (v & Hv & (lv & Hlv)%elected_by_spec).
  rewrite Hlv in Hv. apply N.eqb_eq in Hv as ->. by eapply Hi.
Qed.

Lemma win_good i t k H :
  good H → ch_leads H !! t = None → ch_cands H !! (i, t) = Some k →
  HasQuorum C (λ v, match ch_votes H !! (v, t) with Some (c, _, _) => (c =? i)%N | None => false end) = true →
  good (set_lead_log i t k H) ∧ extends i H (set_lead_log i t k H).
Proof.
  intros Hg Hn Hk Hq. assert (extends i H (set_lead_log i t k H)) as He.
  { split; cbn; eauto.
    - intros t' j l Hl. exists l. rewrite lookup_insert_ne by congruence. done.
    - intros t' j l Hl Hj. destruct (decide (t = t')) as [->|].
      + rewrite lookup_insert_eq in Hl. congruence.
      + by rewrite lookup_insert_ne in Hl. }
  split; [|done]. apply (good_extend i H _ Hg He); cbn.
  - intros t' j l Hl ->. destruct (decide (t = t')) as [->|].
    + rewrite lookup_insert_eq in Hl. simplify_eq.
      destruct (gd_cand H Hg _ _ _ Hk) as (_ & _ & _ & Hm). destruct (matches_plain H Hg _ Hm).
      exists l. split_and!; try done; [by rewrite drop_all| |by eapply matches_mono].
      * eapply HasQuorum_mono; [|exact Hq]. intros v. cbn beta. unfold elected_by. cbn [ch_votes set_lead_log].
        destruct (ch_votes H !! (v, t')) as [[[c lv] b]|] eqn:Ev; [|done]. intros ->.
        by rewrite (gd_early H Hg _ _ _ _ _ Hn Ev).
    + rewrite lookup_insert_ne in Hl by done. destruct (gd_lead H Hg _ _ _ Hl) as (k' & ? & ? & ? & ?).
      destruct (gd_log H Hg _ _ _ Hl) as (? & ? & ?). exists k'. split_and!; try done.
      by eapply matches_mono.
  - congruence.
  - congruence.
  - by intros.
  - by left.
Qed.

Lemma lead_append_good i t l e H :
  good H → ch_leads H !! t = Some (i, l) → e_Term e = t → e_Index e = (1 + N.of_nat (length l))%N →
  e_Type e ≠ EntryConfChange → (N.of_nat (length (e_Command e)) < W64)%N →
  good (set_lead_log i t (l ++ [e]) H) ∧ extends i H (set_lead_log i t (l ++ [e]) H).
Proof.
  intros Hg Hl Het Hei Hty Hlen. assert (extends i H (set_lead_log i t (l ++ [e]) H)) as He.
  { split; cbn; eauto.
    - intros t' j l' Hl'. destruct (decide (t = t')) as [->|].
      + simplify_eq. rewrite lookup_insert_eq. eexists. split_and!; [done|by eexists|done].
      + rewrite lookup_insert_ne by done. eauto.
    - intros t' j l' Hl' Hj. destruct (decide (t = t')) as [->|].
      + rewrite lookup_insert_eq in Hl'. congruence.
      + by rewrite lookup_insert_ne in Hl'. }
  split; [|done]. apply (good_extend i H _ Hg He); cbn.
  - intros t' j l' Hl' ->. destruct (decide (t = t')) as [->|].
    + rewrite lookup_insert_eq in Hl'. simplify_eq.
      destruct (gd_lead H Hg _ _ _ Hl) as (k & Hk & Hkl & Hd & Hq).
      destruct (gd_log H Hg _ _ _ Hl) as (Hm & Hc & Hp). exists k. split_and!; try done.
      * etrans; [exact Hkl|by eexists].
      * rewrite drop_app_le by by apply prefix_length. apply Forall_app. split; [done|by apply Forall_singleton].
      * intros p e' Hp'. apply lookup_app_Some in Hp' as [Hp'|[Hge Hp']].
        -- destruct (matches_mono _ _ _ He l Hm p e' Hp') as (j & lt & Hj & E). exists j, lt. split; [done|].
           rewrite <- E. apply take_app_le. pose proof (lookup_lt_Some _ _ _ Hp'). lia.
        -- apply list_lookup_singleton_Some in Hp' as [Hp' <-]. exists i, (l ++ [e]).
           unfold set_lead_log. cbn [ch_leads]. by rewrite lookup_insert_eq.
      * intros p e' Hp'. apply lookup_app_Some in Hp' as [Hp'|[Hge Hp']]; [by apply Hc|].
        apply list_lookup_singleton_Some in Hp' as [Hp' <-]. rewrite Hei. lia.
      * apply Forall_app. split; [done|]. apply Forall_singleton. split; [done|]. split; [|done].
        destruct (gd_cand H Hg _ _ _ Hk) as (_ & ? & _). done.
    + rewrite lookup_insert_ne in Hl' by done. destruct (gd_lead H Hg _ _ _ Hl') as (k' & ? & ? & ? & ?).
      destruct (gd_log H Hg _ _ _ Hl') as (? & ? & ?). exists k'. split_and!; try done.
      by eapply matches_mono.
  - congruence.
  - congruence.
  - by intros.
  - by left.
Qed.

Lemma add_ack_good i t n H :
  good H → (∃ j l, ch_leads H !! t = Some (j, l) ∧ n ≤ length l) →
  (∀ t' x, ch_votes H !! (i, t') = Some x → (t' ≤ t)%N) →
  good (add_ack i t n H) ∧ extends i H (add_ack i t n H).
Proof.
  intros Hg Hl Hv. assert (extends i H (add_ack i t n H)) as He.
  { split; cbn; eauto.
    - intros x Hx. by apply elem_of_cons; right.
    - intros j t' n' [[= -> -> ->]|?]%elem_of_cons ?; done. }
  split; [|done]. apply (good_extend i H _ Hg He); cbn.
  - intros t' j l Hl' _. destruct (gd_lead H Hg _ _ _ Hl') as (k & ? & ? & ? & ?).
    destruct (gd_log H Hg _ _ _ Hl') as (? & ? & ?). by exists k.
  - congruence.
  - congruence.
  - intros v t' n' [[= -> -> ->]|?]%elem_of_cons ?; [done|done].
  - by left.
Qed.

(** A snapshot is taken. *)
Definition add_snap (snap : Snapshot) H : chronicle :=
  mkChronicle (ch_leads H) (ch_cands H) (ch_votes H) (ch_acks H) (ch_sent H) (snap :: ch_snaps H).

Lemma add_snap_vouched x snap H : vouched H x → vouched (add_snap snap H) x.
Proof. intros [? [?|?]]; (split; [done|]); [by left|right]. by apply elem_of_cons; right. Qed.

Lemma add_snap_good snap H : good H → good (add_snap snap H).
Proof.
  intros [H1 H2 H3 H4 H5 H6 H7 H8]. split; try assumption. intros m Hm. specialize (H8 m Hm).
  unfold sent_ok in *. destruct (m_Type m); try exact H8. destruct H8 as (l & x & ? & ? & ? & ? & ?).
  exists l, x. split_and!; try assumption. by apply add_snap_vouched.
Qed.
End chronicle.
