(* ===== verification/LogSteps.v ===== *)
(** * One node and the history

    How a node's state stands to the history of LogHistory.v ([fits]), and that every
    call of RawNode.v keeps it, when the configuration is fixed: each call extends a good
    history to a good one, by what the node itself did.  A compacted log is seen as the
    whole log it is the end of.

    [durable] is what holds of the disk alone, and so after a crash; [fits] adds what
    holds of a running node between two calls. *)

From S2P Require Import Prelude Varint Types Config Storage RaftLog RawNode Membership NodeSafety Votes LogHistory.

(** ** A log and the disk that holds its end *)

Definition represents (L : list LogEntry) (d : Disk) : Prop :=
  N.to_nat (d_base d) ≤ length L ∧ d_entries d = drop (N.to_nat (d_base d)) L ∧
  (d_base d ≠ 0%N → e_Term <$> L !! N.to_nat (d_base d - 1) = Some (d_baseTerm d)).

Section represents.
Context (L : list LogEntry) (d : Disk) (Hrep : represents L d).

Lemma represents_last : d_last d = N.of_nat (length L).
Proof.
  destruct Hrep as (Hb & He & _). unfold d_last. rewrite He, length_drop. lia.
Qed.

Lemma represents_entry i : (d_base d < i)%N → disk_entry d i = L !! N.to_nat (i - 1).
Proof.
  destruct Hrep as (Hb & He & _). intros Hi. unfold disk_entry.
  rewrite (proj2 (N.leb_gt _ _)) by done. rewrite He, lookup_drop. f_equal. lia.
Qed.

Lemma represents_term i :
  (d_base d ≤ i)%N → i ≠ 0%N → disk_term d i = e_Term <$> L !! N.to_nat (i - 1).
Proof.
  intros Hi Hn. unfold disk_term. destruct (N.eqb_spec i (d_base d)) as [->|Hne].
  - symmetry. by apply Hrep.
  - by rewrite represents_entry by lia.
Qed.

Lemma represents_compact upto :
  (upto ≤ d_last d)%N → represents L (disk_compact upto d).
Proof.
  intros Hu. rewrite represents_last in Hu. unfold disk_compact.
  destruct (N.leb_spec upto (d_base d)) as [|Hlt]; [exact Hrep|]. destruct Hrep as (Hb & He & Ht).
  split_and!; cbn; [lia|rewrite He, drop_drop; f_equal; lia|]. intros _.
  rewrite represents_term by lia.
  destruct (lookup_lt_is_Some_2 L (N.to_nat (upto - 1))) as [e ->]; [lia|done].
Qed.

(** Overwriting from position [f] on. *)
Lemma represents_write f ents :
  (d_base d < f)%N → (f ≤ d_last d + 1)%N →
  represents (take (N.to_nat (f - 1)) L ++ ents) (disk_write f ents d).
Proof.
  intros Hlo Hhi. rewrite represents_last in Hhi. destruct Hrep as (Hb & He & Ht).
  split_and!; cbn.
  - rewrite length_app, length_take. lia.
  - rewrite drop_app_le by (rewrite length_take; lia). f_equal. rewrite He.
    rewrite take_drop_commute. do 2 f_equal. lia.
  - intros Hn. rewrite <- (Ht Hn). rewrite lookup_app_l by (rewrite length_take; lia).
    by rewrite lookup_take_lt by lia.
Qed.
End represents.

Lemma represents_snapshot L snap d :
  represents L d → represents L (mkDisk snap (d_base d) (d_baseTerm d) (d_entries d)).
Proof. done. Qed.

Section log_view.
Context {S : Type} `{Hst : Storage S} `{HL : !LogLaws S}.

Lemma log_term_before (l : raftLog S) L i t :
  log_ok l → represents L (log_disk l) → log_term_of l i = Some t → term_before L i t.
Proof.
  intros Hok Hrep. unfold log_term_of. destruct (N.eqb_spec i 0) as [->|Hi]; [intros ?; left; split; congruence|].
  intros Ht. right. split; [done|]. rewrite <- Ht. symmetry. apply represents_term; [done| |done].
  assert (is_Some (disk_term (log_disk l) i)) as Hs by by eexists. by apply disk_term_is_Some in Hs as [? _].
Qed.

Lemma term_before_log (l : raftLog S) L i t :
  represents L (log_disk l) → (d_base (log_disk l) ≤ i)%N → term_before L i t → log_term_of l i = Some t.
Proof.
  intros Hrep Hb [[-> ->]|[Hi Ht]]; unfold log_term_of; [done|].
  destruct (N.eqb_spec i 0); [done|]. by rewrite (represents_term L).
Qed.
End log_view.

Lemma term_before_lastTerm L : term_before L (N.of_nat (length L)) (lastTermOf L).
Proof.
  destruct L as [|e L] using rev_ind; [by left|]. right. rewrite length_app. cbn.
  split; [lia|]. replace (N.to_nat _) with (length L) by lia.
  rewrite lookup_app_r, Nat.sub_diag by lia. unfold lastTermOf. by rewrite last_snoc.
Qed.

Lemma term_before_inj L p t t' : term_before L p t → term_before L p t' → t = t'.
Proof. intros [[? ?]|[? ?]] [[? ?]|[? ?]]; congruence. Qed.

(** Two matching logs with the same term before a position agree up to it. *)
Lemma term_before_agree H L1 L2 p t :
  matches H L1 → matches H L2 → term_before L1 p t → term_before L2 p t →
  take (N.to_nat p) L1 = take (N.to_nat p) L2.
Proof.
  intros H1 H2 [[-> _]|[Hp E1]] [[Hp' _]|[_ E2]]; try done.
  apply fmap_Some in E1 as (e1 & E1 & Et1). apply fmap_Some in E2 as (e2 & E2 & Et2).
  replace (N.to_nat p) with (Datatypes.S (N.to_nat (p - 1))) by lia.
  eapply matches_agree; [exact H1|exact H2|done..|congruence].
Qed.

(** ** The disk of a node *)

Section durable.
Context (C : Configuration) {S : Type} `{Hst : Storage S} `{HH : !HardStateLaws S} `{HL : !LogLaws S}.
Implicit Types (H : chronicle) (L : list LogEntry) (s : S).

Record durable H (i : NodeID) L s : Prop := mkDurable {
  du_hard : hard_consistent s;
  du_rep : represents L (disk s);
  du_match : matches H L;
  du_terms : Forall (λ e, (e_Term e ≤ hs_Term (hard s))%N) L;
  du_vote t c l b :
    ch_votes H !! (i, t) = Some (c, l, b) →
    (t ≤ hs_Term (hard s))%N ∧ (t = hs_Term (hard s) → hs_Vote (hard s) = c);
  du_cand t k : ch_cands H !! (i, t) = Some k → (t ≤ hs_Term (hard s))%N;
  du_ack t n n' :
    (i, t, n') ∈ ch_acks H → n ≤ n' →
    (t ≤ hs_Term (hard s))%N ∧
    (has H t n L ∨ ∃ t'', (t < t'' ≤ hs_Term (hard s))%N ∧ lost H t n t'');
  du_commit : sealed C H (hs_Term (hard s)) (N.to_nat (hs_Commit (hard s))) L;
  du_snap :
    sealed C H (hs_Term (hard s)) (N.to_nat (snap_LastIncludedIndex (d_snapshot (disk s)))) L;
  du_snap_term :
    term_before L (snap_LastIncludedIndex (d_snapshot (disk s)))
      (snap_LastIncludedTerm (d_snapshot (disk s)));
  du_snap_from : vouched C H (d_snapshot (disk s))
}.

(** A node's disk answers for what the node itself adds to the history; what others add
    does not concern it. *)
Lemma durable_extend j H H' i L s :
  durable H i L s → extends j H H' →
  (∀ t c l b, ch_votes H' !! (i, t) = Some (c, l, b) → ch_votes H !! (i, t) = None →
     (t ≤ hs_Term (hard s))%N ∧ (t = hs_Term (hard s) → hs_Vote (hard s) = c)) →
  (∀ t k, ch_cands H' !! (i, t) = Some k → ch_cands H !! (i, t) = None → (t ≤ hs_Term (hard s))%N) →
  (∀ t n n', (i, t, n') ∈ ch_acks H' → (i, t, n') ∉ ch_acks H → n ≤ n' →
     (t ≤ hs_Term (hard s))%N ∧ has H' t n L) →
  durable H' i L s.
Proof.
  intros Hd He Hv Hc Ha. split; try apply Hd.
  - eapply matches_mono; [done|apply Hd].
  - intros t c l b Hx. destruct (ch_votes H !! (i, t)) as [x|] eqn:E; [|by eapply Hv].
    pose proof (vote_mono _ _ _ He _ _ E). simplify_eq. by eapply (du_vote _ _ _ _ Hd).
  - intros t k Hx. destruct (ch_cands H !! (i, t)) as [x|] eqn:E; [|by eapply Hc].
    by eapply (du_cand _ _ _ _ Hd).
  - intros t n n' Hx Hn. destruct (decide ((i, t, n') ∈ ch_acks H)) as [Ho|Ho].
    + destruct (du_ack _ _ _ _ Hd t n n' Ho Hn) as [? [?|(t'' & ? & ?)]]; (split; [done|]).
      * left. by eapply has_mono.
      * right. exists t''. split; [done|by eapply lost_mono].
    + destruct (Ha t n n' Hx Ho Hn). split; [done|by left].
  - eapply sealed_mono; [done|apply Hd].
  - eapply sealed_mono; [done|apply Hd].
  - eapply vouched_mono; [done|apply Hd].
Qed.

Lemma durable_mono j H H' i L s : durable H i L s → extends j H H' → j ≠ i → durable H' i L s.
Proof.
  intros Hd He Hj. eapply durable_extend; [exact Hd|exact He|..].
  - intros t c l b Hx Hn. apply (ex_vote _ _ _ He) in Hx; [congruence|done].
  - intros t k Hx Hn. apply (ex_cand _ _ _ He) in Hx; [congruence|done].
  - intros t n n' Hx Hn. by apply (ex_ack _ _ _ He) in Hx.
Qed.

Lemma sealed_term H t t' n L : sealed C H t n L → (t ≤ t')%N → sealed C H t' n L.
Proof.
  intros [->|(t0 & n0 & ? & ? & ? & ?)] ?; [by left|right]. exists t0, n0. split_and!; try done. lia.
Qed.

Lemma sealed_le H t n n' L : sealed C H t n L → n' ≤ n → sealed C H t n' L.
Proof.
  intros [->|(t0 & n0 & ? & ? & ? & (j & lt & ? & ? & ? & ?))] ?; [left; lia|].
  right. exists t0, n0. split_and!; [done..|lia|]. exists j, lt.
  split_and!; [done|lia|by eapply take_eq_le|lia].
Qed.

Lemma sealed_length H t n L : sealed C H t n L → n ≤ length L.
Proof. intros [->|(t0 & n0 & ? & ? & ? & (j & lt & ? & ? & ? & ?))]; lia. Qed.

(** Logs that agree on what is sealed. *)
Lemma sealed_take H t n L L' :
  sealed C H t n L → take n L = take n L' → n ≤ length L' → sealed C H t n L'.
Proof.
  intros [->|(t0 & n0 & ? & ? & ? & (j & lt & ? & ? & E & ?))] E' Hl; [by left|right].
  exists t0, n0. split_and!; [done..|]. exists j, lt. split_and!; [done..|congruence|done].
Qed.
End durable.

(** ** Taking over a leader's log *)

#[export] Instance has_dec H t n l : Decision (has H t n l).
Proof.
  destruct (ch_leads H !! t) as [[j lt]|] eqn:E.
  - destruct (decide (n ≤ length lt ∧ take n lt = take n l ∧ n ≤ length l)) as [Hd|Hd].
    + left. by exists j, lt.
    + right. intros (j' & lt' & E' & ?). apply Hd. naive_solver.
  - right. intros (j' & lt' & E' & ?). congruence.
Defined.

Section takeover.
Context (C : Configuration).
Implicit Types (H : chronicle) (L : list LogEntry).

(** A log that gives way to part of the leader's loses nothing it shared with it. *)
Lemma overwrite_keeps H t j lt L L' s n :
  good C H → ch_leads H !! t = Some (j, lt) → L' `prefix_of` lt →
  (∀ m, take m L = take m lt → m ≤ length L → m ≤ length lt → m ≤ length L') →
  has H s n L → (s ≤ t)%N → has H s n L' ∨ ((s < t)%N ∧ lost H s n t).
Proof.
  intros Hg Hl Hp Hcut Hh Hs.
  assert (has H s n lt → has H s n L') as Hyes.
  { destruct Hh as (i & ls & Hi & Hn & E & HnL). intros (i' & ls' & Hi' & _ & E' & Hnl).
    assert (ls' = ls) as -> by congruence. assert (n ≤ length L') as HnL' by (apply Hcut; congruence || done).
    exists i, ls. split_and!; [done..| |done]. rewrite E'. by apply prefix_take_iff. }
  destruct (decide (s = t)) as [->|Hne].
  { left. apply Hyes. destruct Hh as (i & ls & Hi & Hn & E & HnL). exists i, ls.
    assert (ls = lt) as -> by congruence. done. }
  destruct (gd_lead _ _ Hg _ _ _ Hl) as (k & Hk & Hkl & _).
  destruct (decide (has H s n k)) as [Hhk|Hno]; [left; by eapply Hyes, has_prefix|right].
  split; [lia|]. split; [|by exists j, lt, k].
  destruct Hh as (i & ls & Hi & Hn & _). by exists i, ls.
Qed.

(** What AppendEntries leaves behind, seen as whole logs. *)
Lemma append_log L lt ents p k :
  take (p + k) L = take (p + k) lt → p + k ≤ length L → k ≤ length ents → ents `prefix_of` drop p lt →
  take (p + k) L ++ drop k ents = take (p + length ents) lt.
Proof.
  intros E HL Hk [m Hm].
  assert (p + length ents ≤ length lt ∨ ents = []) as Hlen.
  { apply (f_equal length) in Hm. rewrite length_drop, length_app in Hm.
    destruct ents; [by right|left; cbn in *; lia]. }
  rewrite E. destruct Hlen as [Hlen| ->]; [|rewrite drop_nil, app_nil_r; f_equal; cbn in *; lia].
  rewrite <- (take_drop (p + k) (take (p + length ents) lt)), take_take, Nat.min_l by lia. f_equal.
  rewrite <- drop_drop, skipn_firstn_comm, Hm.
  replace (p + length ents - p) with (length ents) by lia. by rewrite take_app_length.
Qed.
End takeover.

(** ** A running node *)

Section node.
Context (C : Configuration) (Hfixed : IsJoint C = false) {S G : Type}.
Context `{Hst : Storage S} `{HH : !HardStateLaws S} `{HL : !LogLaws S} `{Hrand : Rand G}.
Local Abbreviation RN := (RawNode S G).
Implicit Types (H : chronicle) (L : list LogEntry) (r : RN).

(** What holds at every moment of a call. *)
Record core H (i : NodeID) L r : Prop := mkCore {
  co_id : rn_id r = i;
  co_nz : i ≠ None_;
  co_log : log_ok (rn_log r);
  co_dur : durable C H i L (disk_of r);
  co_mirror : rn_persisted r = hard_of r;
  co_commit : sealed C H (hs_Term (hard_of r)) (N.to_nat (l_committed (rn_log r))) L;
  co_hs : (hs_Commit (hard_of r) ≤ l_committed (rn_log r))%N;
  co_conf : rn_conf r = C;
  co_boot : rn_bootstrap r = C;
  co_msgs m : m ∈ rn_msgs r → m ∈ ch_sent H;
  co_pending snap : rn_appliedSnapshot r = Some snap →
    snap ∈ ch_snaps H ∧ (snap_LastIncludedIndex snap ≤ l_applied (rn_log r))%N
}.

(** The disk is up to date with the term and the vote in memory. *)
Definition in_sync r : Prop := rn_term r = hs_Term (hard_of r) ∧ rn_vote r = hs_Vote (hard_of r).

(** What a candidate and a leader know. *)
Record role H (i : NodeID) L r : Prop := mkRole {
  ro_cand : rn_state r = Candidate →
    ch_cands H !! (i, rn_term r) = Some L ∧ (∀ l, ch_leads H !! rn_term r ≠ Some (i, l)) ∧
    ∀ v, rn_votes r !! v = Some true → ∃ l b, ch_votes H !! (v, rn_term r) = Some (i, l, b);
  ro_lead : rn_state r = Leader →
    ch_leads H !! rn_term r = Some (i, L) ∧
    ∀ v, (0 < matchOf r v)%N → acknowledged H (rn_term r) (N.to_nat (matchOf r v)) v = true;
  ro_progress : rn_state r ≠ Leader → rn_progress r = None
}.

Record fits H (i : NodeID) L r : Prop := mkFits {
  fi_core : core H i L r;
  fi_sync : in_sync r;
  fi_role : role H i L r
}.

(** ** Histories only grow *)

Lemma core_extend j H H' i L r :
  core H i L r → extends j H H' → durable C H' i L (disk_of r) → core H' i L r.
Proof.
  intros Hc He Hd. split; try apply Hc; [done| | |].
  - eapply sealed_mono; [done|apply Hc].
  - intros m Hm. by apply (ex_sent _ _ _ He), Hc.
  - intros snap Hsn. rewrite (ex_snaps _ _ _ He). by apply Hc.
Qed.

(** Another node's step. *)
Lemma fits_mono j H H' i L r : fits H i L r → extends j H H' → j ≠ i → fits H' i L r.
Proof.
  intros [Hc Hs Hr] He Hj. split; [|done|].
  - eapply core_extend; [done..|]. eapply durable_mono; [apply Hc|done..].
  - split.
    + intros Hst'. destruct (ro_cand _ _ _ _ Hr Hst') as (Hk & Hnl & Hv). split_and!.
      * by eapply cand_mono.
      * intros l Hl. apply (ex_lead _ _ _ He) in Hl; [by eapply Hnl|done].
      * intros v Hy. destruct (Hv v Hy) as (l & b & Hl). exists l, b. by eapply vote_mono.
    + intros Hst'. destruct (ro_lead _ _ _ _ Hr Hst') as (Hl & Ha). split.
      * destruct (ex_leads _ _ _ He _ _ _ Hl) as (l' & Hl' & _ & E). assert (l' = L) as -> by (apply E; congruence). done.
      * intros v Hv. by eapply acknowledged_mono, Ha.
    + apply Hr.
Qed.

(** The node's own step, when it adds no vote, candidacy, election or acknowledgement. *)
Lemma fits_sent H i L r m :
  good C H → sent_ok C H m → fits H i L r →
  good C (add_sent m H) ∧ extends i H (add_sent m H) ∧ fits (add_sent m H) i L r.
Proof.
  intros Hg Hm [Hc Hs Hr]. destruct (add_sent_good C i m H Hg Hm) as [Hg' He].
  split_and!; [done..|]. split; [|done|].
  - eapply core_extend; [done..|]. eapply durable_extend; [apply Hc|done|..]; cbn; try congruence; by intros.
  - split; apply Hr.
Qed.

(** ** Steps that matter to nobody *)

(** Everything the history speaks of is as it was. *)
Record neutral r r' : Prop := mkNeutral {
  ne_id : rn_id r' = rn_id r;
  ne_term : rn_term r' = rn_term r;
  ne_vote : rn_vote r' = rn_vote r;
  ne_persisted : rn_persisted r' = rn_persisted r;
  ne_log : rn_log r' = rn_log r;
  ne_state : rn_state r' = rn_state r;
  ne_conf : rn_conf r' = rn_conf r;
  ne_boot : rn_bootstrap r' = rn_bootstrap r;
  ne_votes : rn_votes r' = rn_votes r;
  ne_match v : matchOf r' v = matchOf r v;
  ne_progress : rn_progress r = None → rn_progress r' = None;
  ne_pending snap : rn_appliedSnapshot r' = Some snap → rn_appliedSnapshot r = Some snap
}.

Lemma neutral_refl r : neutral r r.
Proof. by split. Qed.

Lemma neutral_trans r1 r2 r3 : neutral r1 r2 → neutral r2 r3 → neutral r1 r3.
Proof. intros [] []. split; try congruence; auto. Qed.

Lemma neutral_hard r r' : neutral r r' → hard_of r' = hard_of r.
Proof. intros Hn. unfold hard_of, disk_of. by rewrite (ne_log _ _ Hn). Qed.

Lemma fits_neutral H i L r r' :
  fits H i L r → neutral r r' → (∀ m, m ∈ rn_msgs r' → m ∈ ch_sent H) → fits H i L r'.
Proof.
  intros [Hc Hs Hr] Hn Hm. pose proof (neutral_hard _ _ Hn) as EH. destruct Hn as [En Et Ev Ep El Es Ec Eb Evs Emt Epr Epd].
  assert (disk_of r' = disk_of r) as ED by (unfold disk_of; by rewrite El).
  split.
  - split; rewrite ?En, ?El, ?ED, ?Ep, ?EH, ?Ec, ?Eb; try apply Hc; [done|].
    intros snap Hsn. by apply Hc, Epd.
  - unfold in_sync. rewrite Et, Ev, EH. exact Hs.
  - split; rewrite ?Es, ?Et, ?Evs; [apply Hr| |intros ?; by apply Epr, Hr].
    intros Hst'. destruct (ro_lead _ _ _ _ Hr Hst') as [Hl Ha]. split; [done|].
    intros v. rewrite Emt. apply Ha.
Qed.

(** ** One call

    [i] is the node that is called, [H0] the history when the call begins. *)

Section call.
Context (i : NodeID) (H0 : chronicle).

Definition alive r : Prop := ∃ H L, extends i H0 H ∧ good C H ∧ fits H i L r.
Definition halted r : Prop := ∃ H L, extends i H0 H ∧ good C H ∧ durable C H i L (disk_of r).

Lemma alive_halted r : alive r → halted r.
Proof. intros (H & L & He & Hg & Hf). exists H, L. split_and!; [done..|apply Hf]. Qed.

(** Code that only sends and keeps books. *)
Definition mild {A} (m : M RN A) : Prop :=
  ∀ r, alive r →
  let Q r' := alive r' ∧ neutral r r' in wp m (λ _, Q) (λ _, Q) Q r.

Lemma mild_ret {A} (a : A) : mild (ret a).
Proof. intros r Hr. split; [done|apply neutral_refl]. Qed.

Lemma mild_fail {A} e : mild (A:=A) (fail e).
Proof. intros r Hr. split; [done|apply neutral_refl]. Qed.

Lemma mild_panic {A} p : mild (A:=A) (panic p).
Proof. intros r Hr. split; [done|apply neutral_refl]. Qed.

Lemma mild_outOfFuel {A} : mild (A:=A) outOfFuel.
Proof. intros r Hr. split; [done|apply neutral_refl]. Qed.

Lemma mild_reads {A} (f : RN → outcome A) : mild (reads f).
Proof. intros r Hr. apply wp_reads. destruct (f r); (split; [done|apply neutral_refl]). Qed.

Lemma mild_bind {A B} (m : M RN A) (f : A → M RN B) : mild m → (∀ a, mild (f a)) → mild (bind m f).
Proof.
  intros Hm Hf r Hr. apply wp_bind. eapply wp_mono; [by apply Hm|..]; [|done..]. cbn.
  intros a r1 [H1 N1]. eapply wp_mono; [by apply Hf|..]; cbn; intros; destruct_and?;
    (split; [done|by eapply neutral_trans]).
Qed.

(** The state is the one just read. *)
Lemma mild_bind_get {B} (f : RN → M RN B) :
  (∀ r, alive r → let Q r' := alive r' ∧ neutral r r' in wp (f r) (λ _, Q) (λ _, Q) Q r) → mild (bind get f).
Proof. intros Hf r Hr. apply wp_bind, wp_get. by apply Hf. Qed.

Lemma mild_forEach {A} (l : list A) body : (∀ x, mild (body x)) → mild (forEach l body).
Proof. intros Hb. induction l as [|x l IH]; cbn; [apply mild_ret|]. by apply mild_bind. Qed.

Lemma mild_modify (f : RN → RN) :
  (∀ r, neutral r (f r) ∧ rn_msgs (f r) = rn_msgs r) → mild (modify f).
Proof.
  intros Hf r (H & L & He & Hg & Hr). apply wp_modify. destruct (Hf r) as [Hn Em]. split; [|done].
  exists H, L. split_and!; [done..|]. eapply fits_neutral; [done..|]. rewrite Em. apply Hr.
Qed.

Lemma send_wp m r :
  (∀ H L, extends i H0 H → good C H → fits H i L r → sent_ok C H (addressed (rn_id r) (rn_term r) m)) →
  alive r → let Q r' := alive r' ∧ neutral r r' in wp (send m) (λ _, Q) (λ _, Q) Q r.
Proof.
  intros Hm (H & L & He & Hg & Hr). apply wp_modify. split; [|by split].
  destruct (fits_sent H i L r _ Hg (Hm H L He Hg Hr) Hr) as (Hg' & He' & Hr').
  eexists _, L. split_and!; [by eapply extends_trans|exact Hg'|].
  eapply fits_neutral; [exact Hr'|by split|]. cbn. intros x [Hx|Hx%list_elem_of_singleton]%elem_of_app.
  - by apply elem_of_cons; right; apply Hr.
  - subst. by left.
Qed.

(** Messages that promise nothing. *)
Definition idle_message (m : Message) : Prop :=
  match m_Type m with
  | MsgVoteReq => m_PreVote m = true
  | MsgVoteResp => m_PreVote m = true ∨ m_Granted m = false
  | MsgAppendResp | MsgSnapshotResp => m_Success m = false
  | MsgUnknown _ => True
  | _ => False
  end.

Lemma idle_sent_ok H from t m : idle_message m → sent_ok C H (addressed from t m).
Proof. unfold idle_message, sent_ok. cbn. destruct (m_Type m); try done; naive_solver congruence. Qed.

Lemma mild_send_idle m : idle_message m → mild (send m).
Proof. intros Hm r Hr. apply send_wp; [|done]. intros. by apply idle_sent_ok. Qed.


(** ** Sending *)

Lemma progress_leader H L r x p : fits H i L r → progressOf r x = Some p → rn_state r = Leader.
Proof.
  intros Hr Hp. destruct (decide (rn_state r = Leader)) as [|Hn]; [done|].
  unfold progressOf in Hp. by rewrite (ro_progress _ _ _ _ (fi_role _ _ _ _ Hr) Hn) in Hp.
Qed.

Lemma setProgress_wp x p q r :
  progressOf r x = Some q → p_Match p = p_Match q → alive r →
  let Q r' := alive r' ∧ neutral r r' in wp (setProgress x p) (λ _, Q) (λ _, Q) Q r.
Proof.
  intros Hq Hp (H & L & He & Hg & Hr). apply wp_modify.
  assert (neutral r (set_progress (insert x p <$> rn_progress r) r)) as Hn.
  { split; try done; cbn; [|by intros ->]. intros v. unfold matchOf, progressOf in *. cbn.
    destruct (rn_progress r) as [pm|] eqn:E; [|done]. cbn.
    destruct (decide (x = v)) as [->|]; [|by rewrite lookup_insert_ne].
    by rewrite lookup_insert_eq, Hq. }
  split; [|done]. exists H, L. split_and!; [done..|]. eapply fits_neutral; [done..|]. apply Hr.
Qed.

(** Sequencing, when the second part depends on the state of the first. *)
Lemma mild_step {A B} (m : M RN A) (f : A → M RN B) r :
  (let Q r' := alive r' ∧ neutral r r' in wp m (λ _, Q) (λ _, Q) Q r) →
  (∀ a r', alive r' → neutral r r' →
     let Q r'' := alive r'' ∧ neutral r' r'' in wp (f a) (λ _, Q) (λ _, Q) Q r') →
  let Q r' := alive r' ∧ neutral r r' in wp (bind m f) (λ _, Q) (λ _, Q) Q r.
Proof.
  intros Hm Hf. apply wp_bind. eapply wp_mono; [exact Hm|..]; [|done..]. cbn.
  intros a r1 [H1 N1]. eapply wp_mono; [by apply Hf|..]; cbn; intros; destruct_and?;
    (split; [done|by eapply neutral_trans]).
Qed.

Lemma mild_here r : alive r → alive r ∧ neutral r r.
Proof. intros ?. split; [done|apply neutral_refl]. Qed.

Lemma lead_of H L r : fits H i L r → rn_state r = Leader → ch_leads H !! rn_term r = Some (i, L).
Proof. intros Hr HS. by apply (ro_lead _ _ _ _ (fi_role _ _ _ _ Hr)). Qed.

Lemma fits_sealed H L r : fits H i L r → sealed C H (rn_term r) (N.to_nat (l_committed (rn_log r))) L.
Proof. intros [Hc [-> _] _]. apply Hc. Qed.

Lemma mild_sendSnapshot to : mild (sendSnapshot to).
Proof.
  apply mild_bind_get. intros r Hr Q.
  destruct (progressOf r to) as [pr|] eqn:Ep; [|by apply mild_here].
  destruct (negb _); [by apply mild_here|].
  destruct (LoadSnapshot (disk_of r)) as [snap|e|p|] eqn:El; try by apply mild_here.
  destruct (Snapshot_IsEmpty snap) eqn:Es; [by apply mild_here|].
  eapply mild_step; [by eapply setProgress_wp|]. intros [] r1 Hr1 Hn. apply send_wp; [|done].
  intros H L He Hg Hf. destruct Hr as (H' & L' & _ & _ & Hf').
  assert (rn_state r1 = Leader) as HS.
  { rewrite (ne_state _ _ Hn). by eapply progress_leader. }
  pose proof (fi_core _ _ _ _ Hf) as Hc. pose proof (co_dur _ _ _ _ Hc) as Hd.
  assert (d_snapshot (disk (disk_of r1)) = snap) as <-.
  { unfold disk_of in *. rewrite (ne_log _ _ Hn). rewrite log_load in El; [congruence|].
    apply (co_log _ _ _ _ (fi_core _ _ _ _ Hf')). }
  unfold sent_ok. cbn. exists L, (d_snapshot (disk (disk_of r1))).
  rewrite (co_id _ _ _ _ Hc). split_and!; [by apply lead_of|done|apply Hd| |apply Hd].
  destruct (fi_sync _ _ _ _ Hf) as [-> _]. apply Hd.
Qed.

(** The entries a leader reads are those of the whole log. *)
Lemma log_range_spec H L r lo hi ents :
  core H i L r → log_entries_range lo hi (rn_log r) = Ret ents →
  (0 < lo)%N → ents `prefix_of` drop (N.to_nat (lo - 1)) L.
Proof.
  intros Hc Hr Hlo. unfold log_entries_range in Hr.
  destruct (N.leb_spec hi lo) as [|Hlt]; [simplify_eq; apply prefix_nil|].
  destruct (_ <? hi)%N eqn:E; [done|].
  pose proof (co_log _ _ _ _ Hc) as Hok. pose proof (proj1 Hok) as Hs.
  pose proof (du_rep _ _ _ _ _ (co_dur _ _ _ _ Hc)) as Hrep. unfold disk_of in Hrep.
  destruct (decide (lo ≤ d_base (disk (l_storage (rn_log r))) ∨ d_last (disk (l_storage (rn_log r))) + 1 < hi)%N) as [Ho|Ho].
  { destruct (log_entries_out _ _ _ Hs Hlt Ho) as (e & He & _). congruence. }
  rewrite log_entries in Hr by (done || lia). simplify_eq.
  destruct Hrep as (Hb & -> & _). rewrite drop_drop.
  replace (_ + _) with (N.to_nat (lo - 1)) by lia. apply take_prefix.
Qed.

Lemma mild_sendAppendWithRead to id : mild (sendAppendWithRead to id).
Proof.
  apply mild_bind_get. intros r Hr Q.
  destruct (progressOf r to) as [pr|] eqn:Ep; [|by apply mild_here].
  destruct (negb _); [by apply mild_here|]. cbv zeta.
  destruct (term_at (p_Next pr -u 1) (rn_log r)) as [pt|e|p|] eqn:Et;
    [|by apply mild_sendSnapshot|by apply mild_here..].
  destruct (if _ : bool then _ else _) as [ents|e|p|] eqn:Ee; try by apply mild_here.
  apply send_wp; [|done]. intros H L He Hg Hf. pose proof (fi_core _ _ _ _ Hf) as Hc.
  pose proof (progress_leader _ _ _ _ _ Hf Ep) as HS. unfold sent_ok. cbn. exists L.
  rewrite (co_id _ _ _ _ Hc). split_and!; [by apply lead_of| | |by apply fits_sealed].
  - pose proof (term_at_spec (rn_log r) (p_Next pr -u 1) (co_log _ _ _ _ Hc)) as HT. rewrite Et in HT.
    eapply log_term_before; [apply Hc|apply Hc|done].
  - pose proof (co_log _ _ _ _ Hc) as Hok. pose proof (log_ok_disk _ Hok) as (_ & HW & _).
    destruct (_ <=? _)%N eqn:En; [|simplify_eq; apply prefix_nil].
    apply N.leb_le in En. rewrite lastIndex_spec in En by done.
    destruct (decide (p_Next pr = 0%N)) as [E0|E0].
    { exfalso. pose proof (term_at_spec (rn_log r) (p_Next pr -u 1) Hok) as HT. rewrite Et, E0 in HT.
      assert (is_Some (log_term_of (rn_log r) (0 -u 1))) as Hs by by eexists.
      apply log_term_of_is_Some in Hs. replace (0 -u 1) with (W64 - 1)%N in Hs by by vm_compute.
      change W64 with 18446744073709551616%N in *. lia. }
    rewrite u64_sub_small by lia. eapply log_range_spec; [done..|lia].
Qed.

Lemma mild_broadcastAppend : mild broadcastAppend.
Proof.
  unfold broadcastAppend. apply mild_bind_get. intros r Hr. apply mild_forEach; [|done].
  intros x. apply mild_sendAppendWithRead.
Qed.

Lemma mild_resetTimeout : mild resetRandomizedElectionTimeout.
Proof. apply mild_modify. intros r. destruct (Intn _ _). by split. Qed.

Lemma mild_ackRead from id : mild (ackRead from id).
Proof. apply mild_modify. intros r. destruct (ackLoop _ _ _ _). by split. Qed.

Lemma mild_ReadIndex id : mild (ReadIndex id).
Proof.
  apply mild_bind_get. intros r Hr Q. destruct (negb _); [by apply mild_fail|].
  eapply mild_step; [by apply mild_reads|]. intros ok r1 Hr1 _. destruct (negb _); [by apply mild_fail|].
  cbv zeta. destruct (HasQuorum _ _); [by apply mild_modify|].
  eapply mild_step; [by apply mild_modify|]. intros _ r2 Hr2 _. apply mild_forEach; [|done].
  intros x. apply mild_sendAppendWithRead.
Qed.

Lemma mild_expirePendingSnapshots : mild expirePendingSnapshots.
Proof.
  apply mild_bind_get. intros r0 Hr0 Q. apply mild_forEach; [|done]. intros x.
  apply mild_bind_get. intros r Hr Q'. destruct (progressOf r x) as [pr|] eqn:Ep; [|by apply mild_here].
  destruct (_ =? 0)%N; [by apply mild_here|]. cbv zeta. destruct (_ <=? _)%Z; by eapply setProgress_wp.
Qed.

Lemma mild_tickHeartbeat : mild tickHeartbeat.
Proof.
  unfold tickHeartbeat. apply mild_bind; [by apply mild_modify|intros _].
  apply mild_bind; [by apply mild_modify|intros _].
  apply mild_bind_get. intros r Hr Q. destruct (_ <? _)%Z; [by apply mild_here|].
  eapply mild_step; [by apply mild_modify|]. intros _ r1 Hr1 _.
  eapply mild_step; [by apply mild_expirePendingSnapshots|]. intros _ r2 Hr2 _.
  eapply mild_step; [by apply mild_broadcastAppend|]. intros _ r3 Hr3 _.
  apply mild_bind_get; [|done]. intros r4 Hr4 Q'. apply mild_forEach; [|done]. intros req.
  apply mild_forEach. intros x. apply mild_sendAppendWithRead.
Qed.

(** ** Steps that change the log, the term or the role *)

(** [m] leaves a node that fits, whether it returns or reports an error. *)
Definition steady {A} (m : M RN A) r : Prop := wp m (λ _, alive) (λ _, alive) halted r.

(** [m] leaves a node that fits when it returns or ignores a message; after any other
    error the disk still stands. *)
Definition sound {A} (m : M RN A) r : Prop :=
  wp m (λ _, alive) (λ e r', halted r' ∧ (errorsIs e ErrIgnoredMessage = true → alive r')) halted r.

Lemma steady_sound {A} (m : M RN A) r : steady m r → sound m r.
Proof.
  intros Hm. eapply wp_mono; [exact Hm|..]; cbn beta; [done| |done].
  intros e r' Hr'. split; [by apply alive_halted|done].
Qed.

Lemma mild_steady {A} (m : M RN A) r : mild m → alive r → steady m r.
Proof.
  intros Hm Hr. eapply wp_mono; [by apply Hm|..]; cbn beta; intros; destruct_and?; [done..|by apply alive_halted].
Qed.

Lemma steady_bind {A B} (m : M RN A) (f : A → M RN B) r :
  steady m r → (∀ a r', alive r' → steady (f a) r') → steady (bind m f) r.
Proof.
  intros Hm Hf. apply wp_bind. eapply wp_mono; [exact Hm|..]; [|done..]. cbn. intros a r' Hr'. by apply Hf.
Qed.

Lemma core_set_log H L L' l' r :
  core H i L r → log_ok l' → durable C H i L' (l_storage l') → hard (l_storage l') = hard_of r →
  sealed C H (hs_Term (hard_of r)) (N.to_nat (l_committed l')) L' →
  (l_committed (rn_log r) ≤ l_committed l')%N → (l_applied (rn_log r) ≤ l_applied l')%N →
  core H i L' (set_log l' r).
Proof.
  intros Hc Hok Hd Eh Hs Hle Hap. split; cbn; unfold hard_of, disk_of in *; cbn; rewrite ?Eh; try apply Hc; try done.
  - etrans; [apply Hc|done].
  - intros snap Hsn. destruct (co_pending _ _ _ _ Hc snap Hsn). split; [done|lia].
Qed.

(** The storage changed underneath, but not what it holds. *)
Lemma durable_same H L s s' :
  durable C H i L s → hard_consistent s' → hard s' = hard s → disk s' = disk s → durable C H i L s'.
Proof. intros Hd Hc Eh Ed. split; rewrite ?Eh, ?Ed; try apply Hd. done. Qed.

Lemma core_relog H L l' r :
  core H i L r → log_ok l' → log_same (rn_log r) l' →
  hard_consistent (l_storage l') → hard (l_storage l') = hard_of r → core H i L (set_log l' r).
Proof.
  intros Hc Hok (Ed & Ec & Ea) Hhc Eh. eapply core_set_log; [done|done| |done| |by rewrite Ec|by rewrite Ea].
  - eapply durable_same; [apply Hc|done..].
  - rewrite Ec. apply Hc.
Qed.

Lemma fits_relog H L l' r :
  fits H i L r → log_ok l' → log_same (rn_log r) l' →
  hard_consistent (l_storage l') → hard (l_storage l') = hard_of r → fits H i L (set_log l' r).
Proof.
  intros [Hc Hs Hr] Hok Hsame Hhc Eh. split; [by apply core_relog| |split; apply Hr].
  unfold in_sync, hard_of, disk_of in *. cbn. by rewrite Eh.
Qed.

(** ** Persisting *)

(** The disk knows of no other vote in the term of the node. *)
Definition vote_open r : Prop :=
  hs_Term (hard_of r) = rn_term r → hs_Vote (hard_of r) = rn_vote r ∨ hs_Vote (hard_of r) = None_.

Lemma in_sync_open r : in_sync r → vote_open r.
Proof. intros [_ E] _. by left. Qed.

Lemma durable_persist H L s s' hs :
  good C H → durable C H i L s → hard_consistent s' → hard s' = hs → disk s' = disk s →
  (hs_Term (hard s) ≤ hs_Term hs)%N →
  (hs_Term (hard s) = hs_Term hs → hs_Vote (hard s) = hs_Vote hs ∨ hs_Vote (hard s) = None_) →
  sealed C H (hs_Term (hard s)) (N.to_nat (hs_Commit hs)) L → durable C H i L s'.
Proof.
  intros Hg Hd Hc Eh Ed Hle Hv Hs. subst hs. split; rewrite ?Ed; try apply Hd; try done.
  - eapply Forall_impl; [apply Hd|]. cbn. intros e ?. lia.
  - intros t c l b Hx. destruct (du_vote _ _ _ _ _ Hd _ _ _ _ Hx) as [Ht Et]. split; [lia|]. intros ->.
    assert (hs_Term (hard s) = hs_Term (hard s')) as E by lia. specialize (Et (eq_sym E)).
    destruct (gd_vote _ _ Hg _ _ _ _ _ Hx) as (_ & k & Hk & _).
    destruct (gd_cand _ _ Hg _ _ _ Hk) as (Hnz & _). destruct (Hv E); congruence.
  - intros t k Hx. pose proof (du_cand _ _ _ _ _ Hd _ _ Hx). lia.
  - intros t n n' Hx Hn. destruct (du_ack _ _ _ _ _ Hd _ _ _ Hx Hn) as [? [?|(t'' & ? & ?)]]; (split; [lia|]);
      [by left|right]. exists t''. split; [lia|done].
  - by eapply sealed_term.
  - eapply sealed_term; [apply Hd|done].
Qed.

Lemma persist_core H L r :
  good C H → core H i L r → vote_open r →
  wp persistHardState
     (λ _ r', core H i L r' ∧ in_sync r' ∧ rewrote r r' ∧ log_same (rn_log r) (rn_log r') ∧
        (hs_Term (hard_of r) ≤ rn_term r)%N)
     (λ e r', core H i L r' ∧ hard_of r' = hard_of r ∧ rewrote r r' ∧ log_same (rn_log r) (rn_log r') ∧
        errorsIs e ErrIgnoredMessage = false)
     (λ r', durable C H i L (disk_of r')) r.
Proof.
  intros Hg Hc Ho. pose proof (co_dur _ _ _ _ Hc) as Hd. pose proof (co_log _ _ _ _ Hc) as Hok.
  unfold persistHardState. wp_go. case_bool_decide as E.
  { wp_go. rewrite (co_mirror _ _ _ _ Hc) in E. unfold in_sync. rewrite <- E. cbn.
    split_and!; [done..|apply rewrote_refl|done|lia]. }
  wp_go. unfold on_disk, on_log, on_storage. wp_go.
  pose proof (wp_and _ _ _ _ _ _ _ _ (hard_set (mkHardState (rn_term r) (rn_vote r) (l_committed (rn_log r)))
    (disk_of r) (du_hard _ _ _ _ _ Hd)) (log_hard (disk_of r) (mkHardState (rn_term r) (rn_vote r)
    (l_committed (rn_log r))) (proj1 Hok))) as Hw.
  assert (∀ s', storage_ok s' → disk s' = disk (disk_of r) → log_ok (set_l_storage s' (rn_log r)) ∧
    log_same (rn_log r) (set_l_storage s' (rn_log r))) as Hsame.
  { intros s' Hs' Ed. unfold log_ok, log_same, log_disk, disk_of in *. cbn. rewrite Ed.
    destruct Hok as (_ & ? & ? & ?). done. }
  eapply wp_mono; [exact Hw|..]; cbn beta.
  - intros _ s' [(Hc' & Eh & Hle) (Hs' & Ed)]. wp_go. destruct (Hsame s' Hs' Ed) as [Hok' Hls].
    assert (durable C H i L s') as Hd'.
    { eapply (durable_persist H L (disk_of r) s' _ Hg Hd Hc' Eh Ed Hle Ho). apply Hc. }
    split_and!; [|by unfold in_sync, hard_of, disk_of; cbn; rewrite Eh|by eexists _, _|exact Hls|exact Hle].
    split; cbn; unfold hard_of, disk_of; cbn; rewrite ?Eh; try apply Hc; try done.
    eapply sealed_term; [apply Hc|exact Hle].
  - intros e s' [(Hc' & Eh & He) (Hs' & Ed)]. destruct (Hsame s' Hs' Ed) as [Hok' Hls].
    split_and!; [|done|exists (rn_persisted r), (set_l_storage s' (rn_log r)); by destruct r|exact Hls|cbn; by rewrite He].
    by apply core_relog.
  - intros s' [(Hc' & Eh) []].
Qed.

Lemma role_rewrote H L r r' : role H i L r → rewrote r r' → role H i L r'.
Proof. intros [Hc Hl Hp] (h & l & ->). by split. Qed.

Lemma persist_synced r :
  alive r →
  wp persistHardState
     (λ _ r', alive r' ∧ rewrote r r' ∧ log_same (rn_log r) (rn_log r'))
     (λ _ r', alive r' ∧ rewrote r r' ∧ log_same (rn_log r) (rn_log r')) halted r.
Proof.
  intros (H & L & He & Hg & [Hc Hs Hr]).
  eapply wp_mono; [apply (persist_core H L r Hg Hc), in_sync_open, Hs|..]; cbn beta.
  - intros _ r' (Hc' & Hs' & Hw & Hl & _). split_and!; [|done..]. exists H, L. split_and!; [done..|].
    split; [done..|by eapply role_rewrote].
  - intros e r' (Hc' & Eh & Hw & Hl & _). split_and!; [|done..]. exists H, L. split_and!; [done..|].
    split; [done| |by eapply role_rewrote]. destruct (rewrote_fields _ _ Hw) as (_ & Et & Ev & _).
    unfold in_sync. by rewrite Et, Ev, Eh.
  - intros r' Hd. by exists H, L.
Qed.

(** ** Following *)

Lemma becomeFollower_eq (t : Term) (lead : NodeID) r :
  ∃ g e, becomeFollower t lead r = (Ret tt,
    mkRawNode (rn_id r) (rn_cfg r) g t (if (rn_term r =? t)%N then rn_vote r else None_) (rn_persisted r)
      (rn_log r) Follower lead (rn_conf r) (rn_confIndex r) (rn_bootstrap r) ∅ None 0 0 e [] []
      (rn_appliedSnapshot r) (rn_msgs r)).
Proof.
  unfold becomeFollower, reset, resetRandomizedElectionTimeout, dropPendingReads, bind, get, modify, ret.
  cbv beta iota. destruct (N.eqb_spec (rn_term r) t) as [<-|]; cbn; destruct (Intn _ _) as [j g];
    exists g, (int_add (c_ElectionTick (rn_cfg r)) j); reflexivity.
Qed.

(** Stepping down within a term. *)
Lemma follow_wp lead r :
  alive r →
  wp (becomeFollower (rn_term r) lead)
     (λ _ r', alive r' ∧ rn_state r' = Follower ∧ rn_term r' = rn_term r ∧ rn_log r' = rn_log r ∧
        rn_id r' = rn_id r)
     (λ _ _, False) (λ _, False) r.
Proof.
  intros (H & L & He & Hg & [Hc Hs Hr]). destruct (becomeFollower_eq (rn_term r) lead r) as (g & e & E).
  unfold wp. rewrite E, N.eqb_refl. split_and!; try done. exists H, L. split_and!; [done..|].
  split; [split; apply Hc|exact Hs|by split].
Qed.

(** Entering a later term. *)
Lemma newer_term_wp t lead r :
  alive r → rn_term r ≠ t →
  wp (becomeFollower t lead ;;; persistHardState)
     (λ _ r', alive r' ∧ rn_state r' = Follower ∧ rn_term r' = t ∧ rn_id r' = rn_id r ∧
        log_same (rn_log r) (rn_log r'))
     (λ e r', halted r' ∧ errorsIs e ErrIgnoredMessage = false) halted r.
Proof.
  intros (H & L & He & Hg & [Hc [Et Ev] Hr]) Hne. apply wp_bind.
  destruct (becomeFollower_eq t lead r) as (g & e & E). unfold wp at 1. rewrite E. cbn beta iota.
  match goal with |- wp _ _ _ _ ?r' => set (r1 := r') end.
  assert (core H i L r1) as Hc1 by (split; apply Hc).
  eapply wp_mono; [apply (persist_core H L r1 Hg Hc1)|..]; cbn beta.
  - intros Eh. exfalso. apply Hne. subst r1. cbn in *. rewrite Et. exact Eh.
  - intros _ r' (Hc' & Hs' & Hw & Hl & _). destruct Hw as (h & l & ->). split_and!; try done.
    exists H, L. split_and!; [done..|]. split; [done..|by split].
  - intros e' r' (Hc' & _ & _ & _ & Hi). split; [|done]. exists H, L. split_and!; [done..|apply Hc'].
  - intros r' Hd. by exists H, L.
Qed.

(** ** Committing *)

Lemma stepDown_steady r : alive r → steady stepDownIfRemoved r.
Proof.
  intros Hr. apply wp_bind, wp_get. destruct (_ || _); [done|]. destruct (_ <? _)%N; [done|].
  eapply wp_mono; [by apply follow_wp|..]; [|done..]. by intros _ r' [? _].
Qed.

(** What the leader counts is committed. *)
Lemma counted_committed H L r n :
  good C H → fits H i L r → rn_state r = Leader → (0 < n)%N →
  (n ≤ CommittedIndex C (matchOf r))%N → log_term_of (rn_log r) n = Some (rn_term r) →
  committed C H (rn_term r) (N.to_nat n).
Proof.
  intros Hg Hf HS Hn Hle Ht. destruct (ro_lead _ _ _ _ (fi_role _ _ _ _ Hf) HS) as [Hl Ha].
  pose proof (fi_core _ _ _ _ Hf) as Hc.
  destruct (log_term_before (rn_log r) L n (rn_term r) (co_log _ _ _ _ Hc) (du_rep _ _ _ _ _ (co_dur _ _ _ _ Hc)) Ht)
    as [[? _]|[_ (e & He & Et)%fmap_Some]]; [lia|].
  destruct (gd_lead _ _ Hg _ _ _ Hl) as (_ & _ & _ & _ & Hq).
  exists i, L, e. split_and!; [done|lia|by replace (N.to_nat n - 1) with (N.to_nat (n - 1)) by lia|done|].
  apply CommittedIndex_iff in Hle; [|by apply HasQuorum_spec in Hq as [?%majority_nonempty _]].
  eapply HasQuorum_mono; [|exact Hle]. cbn beta. intros v Hv%N.leb_le.
  assert (acknowledged H (rn_term r) (N.to_nat (matchOf r v)) v = true) as Hav by (apply Ha; lia).
  apply acknowledged_spec in Hav as (n' & ? & ?). apply acknowledged_spec. exists n'. split; [done|lia].
Qed.

Lemma leaveJoint_steady k r : alive r → steady (maybeLeaveJoint k) r.
Proof.
  intros Hr. destruct k as [|k]; [by apply alive_halted|]. unfold steady. cbn [maybeLeaveJoint].
  apply wp_bind, wp_get. pose proof Hr as (H & L & _ & _ & Hf).
  by rewrite (co_conf _ _ _ _ (fi_core _ _ _ _ Hf)), Hfixed, orb_true_r.
Qed.

(** Moving the commit index of a leader. *)
Lemma commit_wp n r :
  alive r → rn_state r = Leader → (l_committed (rn_log r) < n ≤ CommittedIndex C (matchOf r))%N →
  log_term_of (rn_log r) n = Some (rn_term r) →
  wp (on_log (commitTo n)) (λ _, alive) (λ _ _, False) (λ _, False) r.
Proof.
  intros (H & L & He & Hg & Hf) HS [Hlt Hle] HT. pose proof Hf as [Hc Hsy Hro].
  assert (n ≤ d_last (log_disk (rn_log r)))%N as Hn.
  { assert (is_Some (log_term_of (rn_log r) n)) as Hs by by eexists. apply log_term_of_is_Some in Hs. lia. }
  apply wp_zoom. eapply wp_mono; [apply (commitTo_spec _ n); [apply Hc|done]|..]; [|done..]. cbn beta.
  intros _ l' (-> & Hok' & _). exists H, L. split_and!; [done..|]. split; [|exact Hsy|split; apply Hro].
  rewrite N.max_r in * by lia. eapply core_set_log; [exact Hc|done|apply Hc|done| |cbn; lia|done].
  destruct Hsy as [<- _]. right. exists (rn_term r), (N.to_nat n). cbn.
  split_and!; [eapply counted_committed; (done || lia)|lia|lia|].
  exists i, L. pose proof (represents_last _ _ (du_rep _ _ _ _ _ (co_dur _ _ _ _ Hc))) as HLast.
  unfold log_disk, disk_of in *. split_and!; [by apply lead_of|lia|done|lia].
Qed.

Lemma advance_steady k r : alive r → steady (maybeAdvanceCommit k) r.
Proof.
  intros Hr. destruct k as [|k]; [by apply alive_halted|]. unfold steady. cbn [maybeAdvanceCommit].
  apply wp_bind, wp_get.
  destruct (bool_decide (rn_state r = Leader)) eqn:HS; [|done]. apply bool_decide_eq_true in HS. cbn [negb]. cbv zeta.
  pose proof Hr as (H & L & _ & _ & Hf). pose proof (fi_core _ _ _ _ Hf) as Hc.
  rewrite (co_conf _ _ _ _ Hc). set (n := CommittedIndex C (matchOf r)).
  destruct (N.leb_spec n (l_committed (rn_log r))) as [|Hlt]; [done|].
  apply wp_bind, wp_wrapErr, wp_zoom, wp_reads.
  pose proof (term_at_spec (rn_log r) n (co_log _ _ _ _ Hc)) as HT.
  destruct (term_at n (rn_log r)) as [t|e|p|]; rewrite ?set_log_id; [|done..].
  destruct (N.eqb_spec t (rn_term r)) as [->|]; [|done]. cbn [negb].
  apply steady_bind; [|intros _ r1 Hr1].
  { eapply wp_mono; [by apply (commit_wp n)|..]; done. }
  apply steady_bind; [|intros _ r2 Hr2].
  { eapply wp_mono; [by apply persist_synced|..]; [by intros _ r' [? _]..|done]. }
  apply steady_bind; [by apply leaveJoint_steady|intros _ r3 Hr3].
  apply steady_bind; [by apply stepDown_steady|by intros _ r4 Hr4].
Qed.

(** ** Acknowledging *)

Lemma fits_ack H L r n j l :
  good C H → fits H i L r → ch_leads H !! rn_term r = Some (j, l) →
  take n l = take n L → n ≤ length l → n ≤ length L →
  good C (add_ack i (rn_term r) n H) ∧ extends i H (add_ack i (rn_term r) n H) ∧
  fits (add_ack i (rn_term r) n H) i L r.
Proof.
  intros Hg [Hc [Et Ev] Hr] Hl E Hnl HnL. pose proof (co_dur _ _ _ _ Hc) as Hd.
  destruct (add_ack_good C i (rn_term r) n H Hg) as [Hg' He].
  - by exists j, l.
  - intros t' [[c lv] b] Hx. rewrite Et. by apply (du_vote _ _ _ _ _ Hd) in Hx as [? _].
  - split_and!; [done..|]. split; [|done|].
    + eapply core_extend; [done..|]. eapply durable_extend; [exact Hd|exact He|..]; cbn; [congruence..|].
      intros t m m' [[= -> ->]|?]%elem_of_cons ? Hm; [|done]. unfold hard_of in Et. split; [lia|].
      exists j, l. split_and!; [done|lia|by eapply take_eq_le|lia].
    + split; [apply Hr| |apply Hr]. intros HS. destruct (ro_lead _ _ _ _ Hr HS) as [Hl' Ha].
      split; [done|]. intros v Hv. by eapply acknowledged_mono, Ha.
Qed.

Lemma fits_last H L r : core H i L r → last_of r = N.of_nat (length L).
Proof. intros Hc. apply represents_last, (du_rep _ _ _ _ _ (co_dur _ _ _ _ Hc)). Qed.

(** The leader counts its own log. *)
Lemma fits_setProgress H L r x p :
  fits H i L r → (rn_state r = Leader → (0 < p_Match p)%N → acknowledged H (rn_term r) (N.to_nat (p_Match p)) x = true) →
  fits H i L (set_progress (insert x p <$> rn_progress r) r).
Proof.
  intros [Hc Hs Hr] Ha. split; [split; apply Hc|exact Hs|]. split; cbn; [apply Hr| |intros HS; by rewrite (ro_progress _ _ _ _ Hr HS)].
  intros HS. destruct (ro_lead _ _ _ _ Hr HS) as [Hl Hm]. split; [done|]. intros v.
  unfold matchOf, progressOf in *. cbn. specialize (Hm v).
  destruct (rn_progress r) as [pm|]; [|done]. cbn in *. destruct (decide (x = v)) as [->|].
  - rewrite lookup_insert_eq. by apply Ha.
  - by rewrite lookup_insert_ne.
Qed.

Lemma own_progress_wp p r :
  alive r → rn_state r = Leader → p_Match p = last_of r →
  wp (setProgress (rn_id r) p) (λ _, alive) (λ _ _, False) (λ _, False) r.
Proof.
  intros (H & L & He & Hg & Hf) HS Hp. apply wp_modify. pose proof (fi_core _ _ _ _ Hf) as Hc.
  pose proof (lead_of _ _ _ Hf HS) as Hl. pose proof (fits_last _ _ _ Hc) as HLast.
  destruct (fits_ack H L r (length L) i L Hg Hf Hl) as (Hg' & He' & Hf'); [done..|].
  eexists _, L. split_and!; [by eapply extends_trans|exact Hg'|]. apply fits_setProgress; [exact Hf'|].
  intros _ _. rewrite (co_id _ _ _ _ Hc), Hp, HLast, Nat2N.id. apply acknowledged_spec. exists (length L).
  split; [by left|done].
Qed.

(** ** Appending as a leader *)

Lemma log_append_frame H L e r :
  core H i L r → (e_Index e + 1 < W64)%N → (e_Index e = last_of r + 1)%N →
  wp (log_append_entries [e])
     (λ _ l', log_ok l' ∧ hard_consistent (l_storage l') ∧ hard (l_storage l') = hard_of r ∧
        log_disk l' = disk_write (e_Index e) [e] (log_disk (rn_log r)) ∧
        l_committed l' = l_committed (rn_log r) ∧ l_applied l' = l_applied (rn_log r))
     (λ _ l', log_ok l' ∧ hard_consistent (l_storage l') ∧ hard (l_storage l') = hard_of r ∧
        log_same (rn_log r) l') (λ _, False) (rn_log r).
Proof.
  intros Hc Hw Hi. pose proof (co_log _ _ _ _ Hc) as Hok.
  eapply wp_mono; [apply wp_and; [apply (log_append_spec (rn_log r) e []); [done|cbn; lia]|
    apply (log_quiet_append_entries [e]), (du_hard _ _ _ _ _ (co_dur _ _ _ _ Hc))]|..]; cbn beta.
  - intros _ l' [(? & _ & ? & _ & _ & _ & ? & ?) [? ?]]. by split_and!.
  - intros _ l' [(? & ?) [? ?]]. by split_and!.
  - by intros l' [[] _].
Qed.

Lemma lead_append_wp e r :
  alive r → rn_state r = Leader → e_Term e = rn_term r → (e_Index e = last_of r + 1)%N →
  e_Type e ≠ EntryConfChange → (N.of_nat (length (e_Command e)) < W64)%N → (last_of r + 2 < W64)%N →
  wp (on_log (log_append_entries [e]))
     (λ _ r', alive r' ∧ last_of r' = e_Index e ∧ ∃ l', r' = set_log l' r) (λ _, alive) (λ _, False) r.
Proof.
  intros (H & L & He & Hg & Hf) HS Het Hei Hty Hlen Hroom. pose proof Hf as [Hc [Et Ev] Hro].
  pose proof (co_dur _ _ _ _ Hc) as Hd. pose proof (lead_of _ _ _ Hf HS) as Hl.
  pose proof (fits_last _ _ _ Hc) as HLast. apply wp_zoom.
  eapply wp_mono; [apply (log_append_frame H L); [done|lia|done]|..]; cbn beta; [| |done].
  2: { intros _ l' (Hok & Hhc & Eh & Hsame). exists H, L. split_and!; [done..|]. by apply fits_relog. }
  intros _ l' (Hok & Hhc & Eh & Ed & Ec & Ea).
  destruct (lead_append_good C i (rn_term r) L e H Hg Hl Het) as [Hg' He']; [lia|done|done|].
  set (H' := set_lead_log i (rn_term r) (L ++ [e]) H) in *.
  assert (ch_leads H' !! rn_term r = Some (i, L ++ [e])) as Hl' by (unfold H'; cbn; by rewrite lookup_insert_eq).
  assert (L `prefix_of` L ++ [e]) as Hpre by by eexists.
  assert (represents (L ++ [e]) (log_disk l')) as Hrep.
  { rewrite Ed. pose proof (represents_write L _ (du_rep _ _ _ _ _ Hd) (e_Index e) [e]) as Hw.
    unfold last_of, log_disk, disk_of in *. rewrite firstn_all2 in Hw by lia. apply Hw; [|lia].
    rewrite Hei. unfold d_last in *. lia. }
  assert (durable C H' i (L ++ [e]) (l_storage l')) as Hd'.
  { assert (durable C H' i L (disk_of r)) as Hd1.
    { eapply durable_extend; [exact Hd|exact He'|..]; cbn; congruence. }
    assert (d_snapshot (disk (l_storage l')) = d_snapshot (disk (disk_of r))) as Es.
    { unfold log_disk in Ed. by rewrite Ed. }
    split; rewrite ?Eh, ?Es; try done.
    - by apply (gd_log _ _ Hg' _ _ _ Hl').
    - apply Forall_app. split; [apply Hd|]. apply Forall_singleton. rewrite Het, Et. done.
    - apply Hd1.
    - apply Hd1.
    - intros t n n' Hx Hn. destruct (du_ack _ _ _ _ _ Hd1 _ _ _ Hx Hn) as [? [?|?]]; (split; [done|]); [left|by right].
      by eapply has_prefix.
    - eapply sealed_prefix; [apply Hd1|done].
    - eapply sealed_prefix; [apply Hd1|done].
    - eapply term_before_prefix; [apply Hd1|done].
    - apply Hd1. }
  split_and!; [|unfold last_of; cbn; rewrite (represents_last _ _ Hrep), length_app; cbn; lia|by eexists].
  eexists H', (L ++ [e]). split_and!; [by eapply extends_trans|done|]. split.
  - assert (core H' i L r) as Hc'.
    { eapply core_extend; [exact Hc|exact He'|]. eapply durable_extend; [exact Hd|exact He'|..]; cbn; congruence. }
    eapply core_set_log; [exact Hc'|done|exact Hd'|done| |by rewrite Ec|by rewrite Ea].
    rewrite Ec. eapply sealed_prefix; [apply Hc'|done].
  - unfold in_sync, hard_of, disk_of in *. cbn. by rewrite Eh.
  - split; cbn; [rewrite HS; done| |by rewrite HS].
    intros _. split; [done|]. intros v Hv. by apply (ro_lead _ _ _ _ Hro HS).
Qed.

Lemma next_index H L r : core H i L r → (last_of r + 2 < W64)%N → lastIndex (rn_log r) +u 1 = (last_of r + 1)%N.
Proof.
  intros Hc Hw. rewrite lastIndex_spec by apply Hc. unfold last_of in *. rewrite u64_add_small; [done|lia].
Qed.

Lemma propose_steady k ty cmd r :
  alive r → ty ≠ EntryConfChange → (N.of_nat (length cmd) < W64)%N → (last_of r + 2 < W64)%N →
  steady (propose k ty cmd) r.
Proof.
  intros Hr Hty Hlen Hroom. destruct k as [|k]; [by apply alive_halted|]. unfold steady. cbn [propose].
  apply wp_bind, wp_get.
  destruct (bool_decide (rn_state r = Leader)) eqn:HS; [|done]. apply bool_decide_eq_true in HS. cbn [negb]. cbv zeta.
  pose proof Hr as (H & L & _ & _ & Hf). rewrite (next_index H L) by (done || apply Hf).
  apply wp_bind. eapply wp_mono; [by apply lead_append_wp|..]; [|done..]. cbn beta.
  intros _ r1 (Hr1 & EL & l' & ->).
  replace (match ty with EntryConfChange => refreshConfiguration | _ => ret tt end)
    with (ret tt : M RN unit) by by destruct ty.
  apply wp_bind, wp_ret, wp_bind, wp_get. apply steady_bind; [|intros _ r2 Hr2].
  { destruct (progressOf _ _) as [self|]; [|done].
    eapply wp_mono; [by apply own_progress_wp|..]; done. }
  apply steady_bind; [by apply advance_steady|intros _ r3 Hr3].
  apply steady_bind; [by apply mild_steady; [apply mild_broadcastAppend|]|by intros _ r4 Hr4].
Qed.

(** ** Winning an election *)

Lemma initialProgress_match r last_ v p :
  initialProgress r last_ !! v = Some p → p_Match p = if (v =? rn_id r)%N then last_ else 0%N.
Proof.
  unfold initialProgress. assert (∀ ids (pm : gmap NodeID Progress),
    (∀ p, pm !! v = Some p → p_Match p = if (v =? rn_id r)%N then last_ else 0%N) →
    ∀ p, foldl (λ pm id, <[id := mkProgress (if (id =? rn_id r)%N then last_ else 0%N) (last_ +u 1) 0 0]> pm)
      pm ids !! v = Some p → p_Match p = if (v =? rn_id r)%N then last_ else 0%N) as Hf.
  { induction ids as [|x ids IH]; cbn; [done|]. intros pm Hpm. apply IH. intros q.
    destruct (decide (x = v)) as [->|]; [rewrite lookup_insert_eq; by intros [= <-]|].
    rewrite lookup_insert_ne by done. apply Hpm. }
  intros Hp. eapply Hf; [|exact Hp]. intros q. by rewrite lookup_empty.
Qed.

(** A quorum of recorded votes makes the candidate the leader of its term. *)
Lemma fits_win H L r :
  good C H → fits H i L r → rn_state r = Candidate → HasQuorum C (votedYes r) = true →
  let H' := set_lead_log i (rn_term r) L H in good C H' ∧ extends i H H'.
Proof.
  intros Hg Hf HS Hq H'. destruct (ro_cand _ _ _ _ (fi_role _ _ _ _ Hf) HS) as (Hk & Hno & Hv).
  assert (HasQuorum C (λ v, match ch_votes H !! (v, rn_term r) with Some (c, _, _) => (c =? i)%N | None => false end) = true) as Hq'.
  { eapply HasQuorum_mono; [|exact Hq]. intros v. unfold votedYes. cbn beta.
    destruct (rn_votes r !! v) as [[]|] eqn:E; try done. intros _.
    destruct (Hv v E) as (l & b & ->). apply N.eqb_refl. }
  apply win_good; [done| |done|done]. by eapply win_fresh.
Qed.

Lemma reset_eq (t : Term) r :
  ∃ g e, reset t r = (Ret tt,
    mkRawNode (rn_id r) (rn_cfg r) g t (if (rn_term r =? t)%N then rn_vote r else None_) (rn_persisted r)
      (rn_log r) (rn_state r) None_ (rn_conf r) (rn_confIndex r) (rn_bootstrap r) ∅ None 0 0 e [] []
      (rn_appliedSnapshot r) (rn_msgs r)).
Proof.
  unfold reset, resetRandomizedElectionTimeout, dropPendingReads, bind, get, modify, ret.
  cbv beta iota. destruct (N.eqb_spec (rn_term r) t) as [<-|]; cbn; destruct (Intn _ _) as [j g];
    exists g, (int_add (c_ElectionTick (rn_cfg r)) j); reflexivity.
Qed.

(** The new leader, before it appends. *)
Lemma fits_elected H L r g el :
  good C H → fits H i L r → rn_state r = Candidate → HasQuorum C (votedYes r) = true →
  let r1 := mkRawNode (rn_id r) (rn_cfg r) g (rn_term r) (rn_vote r) (rn_persisted r)
      (rn_log r) Leader (rn_id r) (rn_conf r) (rn_confIndex r) (rn_bootstrap r) ∅
      (Some (initialProgress r (lastIndex (rn_log r)))) 0 0 el [] []
      (rn_appliedSnapshot r) (rn_msgs r) in
  ∃ H', good C H' ∧ extends i H H' ∧ fits H' i L r1.
Proof.
  intros Hg Hf HS Hq r1. destruct (fits_win H L r Hg Hf HS Hq) as [Hg1 He1].
  set (H1 := set_lead_log i (rn_term r) L H) in *. pose proof Hf as [Hc [Et Ev] Hro].
  assert (ch_leads H1 !! rn_term r = Some (i, L)) as Hl by (unfold H1; cbn; by rewrite lookup_insert_eq).
  set (r0 := set_progress None (set_state Follower r)).
  assert (fits H1 i L r0) as Hf0.
  { split; [|done|by split]. assert (core H i L r0) as Hc0 by (split; apply Hc).
    eapply core_extend; [exact Hc0|exact He1|]. eapply durable_extend; [apply Hc0|exact He1|..]; cbn; congruence. }
  destruct (fits_ack H1 L r0 (length L) i L Hg1 Hf0 Hl) as (Hg2 & He2 & Hf2); [done..|].
  eexists. split_and!; [exact Hg2|by eapply extends_trans|]. destruct Hf2 as [Hc2 Hs2 _].
  split; [split; apply Hc2|exact Hs2|]. split; cbn; [done| |done].
  intros _. split; [exact Hl|]. intros v. unfold matchOf, progressOf. cbn.
  destruct (initialProgress r (lastIndex (rn_log r)) !! v) as [p|] eqn:Ep; [|lia].
  rewrite (initialProgress_match _ _ _ _ Ep), lastIndex_spec by apply Hc.
  destruct (N.eqb_spec v (rn_id r)) as [->|]; [|lia]. intros _.
  pose proof (fits_last _ _ _ Hc) as HLast. unfold last_of in HLast. rewrite HLast, Nat2N.id.
  by rewrite (co_id _ _ _ _ Hc), !N.eqb_refl, Nat.leb_refl.
Qed.

Lemma becomeLeader_steady r :
  alive r → rn_state r = Candidate → HasQuorum C (votedYes r) = true → (last_of r + 2 < W64)%N →
  steady becomeLeader r.
Proof.
  intros (H & L & He & Hg & Hf) HS Hq Hroom. unfold steady, becomeLeader. apply wp_bind, wp_get.
  rewrite bool_decide_false by (by rewrite HS). cbv zeta. apply wp_bind.
  destruct (reset_eq (rn_term r) r) as (g & el & E). unfold wp at 1. rewrite E, N.eqb_refl.
  apply wp_bind, wp_modify, wp_bind, wp_modify, wp_bind, wp_modify.
  unfold set_state, set_lead, set_progress. cbn [rn_id rn_cfg rn_rand rn_term rn_vote rn_persisted rn_log
    rn_state rn_lead rn_conf rn_confIndex rn_bootstrap rn_votes rn_progress rn_electionElapsed rn_heartbeatElapsed
    rn_randomizedElectionTimeout rn_pendingReads rn_readStates rn_appliedSnapshot rn_msgs].
  match goal with |- wp _ _ _ _ ?x => set (r1 := x) end.
  destruct (fits_elected H L r g el Hg Hf HS Hq) as (H' & Hg' & He' & Hf').
  assert (alive r1) as Hr1 by (exists H', L; split_and!; [by eapply extends_trans|done|exact Hf']).
  assert (last_of r1 = last_of r) as EL by done.
  assert (rn_state r1 = Leader) as HS1 by done.
  rewrite (next_index H L) by (done || apply Hf). clear Hf'.
  apply wp_bind, wp_wrapErr. eapply wp_mono; [apply lead_append_wp; done|..]; [|done..]. cbn beta.
  intros _ r2 (Hr2 & EL2 & l' & ->). apply wp_bind, wp_get.
  destruct (progressOf _ _) as [self|]; [|by apply alive_halted].
  apply steady_bind; [|intros _ r3 Hr3].
  { eapply wp_mono; [by apply own_progress_wp|..]; done. }
  apply steady_bind; [by apply advance_steady|intros _ r4 Hr4].
  apply steady_bind; [|intros _ r5 Hr5; by apply mild_steady; [apply mild_broadcastAppend|]].
  eapply wp_mono; [by apply persist_synced|..]; [by intros _ r' [? _]..|done].
Qed.

(** ** Campaigning *)

(** A node that has entered a campaign and, if it is a real one, voted for itself. *)
Definition standing r : Prop :=
  ∃ H L, extends i H0 H ∧ good C H ∧ fits H i L r ∧
    (rn_state r = Candidate → ∃ l b, ch_votes H !! (i, rn_term r) = Some (i, l, b)).

(** A vote that the disk holds joins the history, once. *)
Lemma fits_vote H L r c :
  good C H → fits H i L r → rn_vote r = c →
  (∃ k, ch_cands H !! (c, rn_term r) = Some k ∧ up_to_date k L) →
  ∃ H', good C H' ∧ extends i H H' ∧ fits H' i L r ∧
    ∃ l b, ch_votes H' !! (i, rn_term r) = Some (c, l, b).
Proof.
  intros Hg Hf HV Hk. pose proof Hf as [Hc [Et Ev] Hro]. pose proof (co_dur _ _ _ _ Hc) as Hd.
  set (t := rn_term r) in *. unfold hard_of in *.
  destruct (ch_votes H !! (i, t)) as [[[c' l] b]|] eqn:E.
  { destruct (du_vote _ _ _ _ _ Hd _ _ _ _ E) as [_ Ec]. exists H.
    split_and!; [done|apply extends_refl|done|]. exists l, b. rewrite E, <- Ec by done. congruence. }
  destruct (add_vote_good C i t c L H Hg E) as [Hg' He]; [apply Hd|done| |].
  { intros t0 n n' Hx Hn _. destruct (du_ack _ _ _ _ _ Hd _ _ _ Hx Hn) as [_ [?|(t'' & ? & ?)]]; [by left|right].
    exists t''. split; [lia|done]. }
  set (H' := add_vote i t c L H) in *. pose proof (vote_mono _ _ _ He) as Hvm.
  exists H'. split_and!; [done..| |eexists _, _; apply lookup_insert_eq]. split; [|done|].
  - eapply core_extend; [exact Hc|exact He|]. eapply durable_extend; [exact Hd|exact He|..].
    + intros t' c' l b Hx Hn. cbn in Hx. destruct (decide (t' = t)) as [->|Hne].
      * rewrite lookup_insert_eq in Hx. split; [lia|congruence].
      * rewrite lookup_insert_ne in Hx; congruence.
    + cbn. congruence.
    + done.
  - split; try apply Hro. intros HS. destruct (ro_cand _ _ _ _ Hro HS) as (? & ? & Hv). split_and!; [done..|].
    intros v Hy. destruct (Hv v Hy) as (l & b & ?). exists l, b. by apply Hvm.
Qed.

Lemma fits_candidate H L r r2 :
  good C H → fits H i L r → core H i L r2 → in_sync r2 → (rn_term r < rn_term r2 < W64)%N →
  rn_state r2 = Candidate → rn_vote r2 = i → rn_votes r2 = ∅ → rn_progress r2 = None →
  ∃ H', good C H' ∧ extends i H H' ∧ fits H' i L r2 ∧
    ∃ l b, ch_votes H' !! (i, rn_term r2) = Some (i, l, b).
Proof.
  intros Hg [Hc [Et Ev] Hro] Hc2 Hs2 Hlt HS HV HVs HP. pose proof (co_dur _ _ _ _ Hc) as Hd. set (t := rn_term r2) in *.
  unfold hard_of in Et.
  assert (ch_cands H !! (i, t) = None) as Hnc.
  { destruct (ch_cands H !! (i, t)) eqn:E; [|done]. apply (du_cand _ _ _ _ _ Hd) in E. lia. }
  destruct (add_cand_good C i t L H Hg Hnc) as [Hg1 He1]; [apply Hc|lia| |apply Hd|].
  { eapply Forall_impl; [apply Hd|]. cbn. intros e ?. lia. }
  set (H1 := add_cand i t L H) in *.
  assert (ch_cands H1 !! (i, t) = Some L) as Hk by apply lookup_insert_eq.
  destruct (fits_vote H1 L r2 i Hg1) as (H' & Hg' & He' & Hf' & Hv'); [|done| |].
  2: { exists L. split; [exact Hk|apply up_to_date_refl]. }
  2: { exists H'. split_and!; [done|by eapply extends_trans|done..]. }
  split; [|done|].
  - eapply core_extend; [exact Hc2|exact He1|]. destruct Hs2 as [Et2 _]. unfold hard_of in *.
    eapply durable_extend; [apply Hc2|exact He1|cbn; congruence| |done].
    intros t' k Hx Hn. destruct (decide (t' = t)) as [->|Hne]; [lia|].
    cbn in Hx. rewrite lookup_insert_ne in Hx by congruence. congruence.
  - split; [|by rewrite HS|done]. intros _. split_and!; [exact Hk| |intros v; by rewrite HVs].
    intros l Hl. destruct (gd_lead _ _ Hg _ _ _ Hl) as (k & Hk' & _).
    assert (ch_cands H !! (i, t) = Some k) by exact Hk'. congruence.
Qed.

Lemma enter_wp pre r :
  alive r →
  wp (enterCampaign pre)
     (λ t r', standing r' ∧ rn_state r' = campaign_role pre ∧ last_of r' = last_of r ∧
        rn_id r' = rn_id r ∧ (pre = false → t = rn_term r'))
     (λ e r', halted r' ∧ errorsIs e ErrIgnoredMessage = false) halted r.
Proof.
  intros Hr. pose proof Hr as (H & L & He & Hg & Hf). pose proof Hf as [Hc [Et Ev] Hro].
  unfold enterCampaign. destruct pre.
  - apply wp_bind. unfold becomePreCandidate. apply wp_bind, wp_get.
    case_bool_decide as HS; [by apply alive_halted|].
    apply wp_bind, wp_modify, wp_bind, wp_modify, wp_bind, wp_modify, wp_modify.
    destruct (Intn _ _) as [j g]. apply wp_bind, wp_get, wp_ret. split_and!; try done.
    exists H, L. split_and!; [done..| |done]. split; [split; apply Hc|done|].
    split; try done. intros _. cbn. by apply Hro.
  - apply wp_bind. unfold becomeCandidate. apply wp_bind, wp_get.
    case_bool_decide as HS; [by apply alive_halted|]. apply wp_bind.
    destruct (reset_eq (rn_term r +u 1) r) as (g & el & E). unfold wp at 1. rewrite E. clear E.
    apply wp_bind, wp_modify, wp_modify, wp_bind, wp_get.
    unfold set_state, set_vote. cbn [rn_id rn_cfg rn_rand rn_term rn_vote rn_persisted rn_log
      rn_state rn_lead rn_conf rn_confIndex rn_bootstrap rn_votes rn_progress rn_electionElapsed rn_heartbeatElapsed
      rn_randomizedElectionTimeout rn_pendingReads rn_readStates rn_appliedSnapshot rn_msgs]. cbv zeta.
    apply wp_bind. match goal with |- wp _ _ _ _ ?x => set (r1 := x) end.
    assert (core H i L r1) as Hc1 by (split; apply Hc).
    assert (hard_of r1 = hard_of r) as Eh by done.
    eapply wp_mono; [apply (persist_core H L r1 Hg Hc1)|..]; cbn beta.
    + intros Ex. exfalso. rewrite Eh, <- Et in Ex. symmetry in Ex. by apply u64_succ_ne in Ex.
    + intros _ r2 (Hc2 & Hs2 & (h & l & ->) & Hls & Hle). apply wp_ret.
      destruct (fits_candidate H L r (set_persisted h (set_log l r1)) Hg Hf Hc2 Hs2) as (H' & Hg' & He' & Hf' & Hv').
      * rewrite Eh, <- Et in Hle. cbn in *. pose proof (u64_succ_ne (rn_term r)). pose proof (u64_add_lt (rn_term r) 1). lia.
      * done.
      * cbn. apply Hc.
      * done.
      * done.
      * split_and!; [|done| |done|done].
        -- exists H', L. split_and!; [by eapply extends_trans|done|done|]. by intros _.
        -- unfold last_of. by destruct Hls as [-> _].
    + intros e r' (Hc' & _ & _ & _ & Hi). split; [|done]. exists H, L. split_and!; [done..|apply Hc'].
    + intros r' Hd. by exists H, L.
Qed.

(** Counting one more vote. *)
Definition counts from (granted : bool) r : Prop :=
  ∃ H L, extends i H0 H ∧ good C H ∧ fits H i L r ∧
    (rn_state r = Candidate → granted = true → ∃ l b, ch_votes H !! (from, rn_term r) = Some (i, l, b)).

Lemma standing_counts r : standing r → counts i true r.
Proof. intros (H & L & ? & ? & ? & Hv). exists H, L. split_and!; [done..|]. intros HS _. by apply Hv. Qed.

Lemma recordVote_wp from granted r :
  counts from granted r →
  wp (recordVote from granted)
     (λ _ r', alive r' ∧ rn_state r' = rn_state r ∧ rn_term r' = rn_term r ∧ rn_log r' = rn_log r ∧
        rn_id r' = rn_id r)
     (λ _ _, False) (λ _, False) r.
Proof.
  intros (H & L & He & Hg & Hf & Hv). apply wp_modify. destruct (rn_votes r !! from) eqn:E.
  { split_and!; try done. by exists H, L. }
  split_and!; try done. exists H, L. split_and!; [done..|]. pose proof Hf as [Hc Hs Hro].
  split; [split; apply Hc|done|]. split; try apply Hro. cbn. intros HS.
  destruct (ro_cand _ _ _ _ Hro HS) as (? & ? & Hy). split_and!; [done..|]. intros v.
  destruct (decide (from = v)) as [->|]; [rewrite lookup_insert_eq|by rewrite lookup_insert_ne; [apply Hy|]].
  intros [= Eg]. by apply Hv.
Qed.

(** What remains of a call that failed. *)
Definition ended (e : error) r : Prop := halted r ∧ (errorsIs e ErrIgnoredMessage = true → alive r).

Lemma alive_ended e r : alive r → ended e r.
Proof. intros Hr. split; [by apply alive_halted|done]. Qed.

Lemma lastTerm_of H L r t : core H i L r → lastTerm (rn_log r) = Ret t → t = lastTermOf L.
Proof.
  intros Hc E. pose proof (co_log _ _ _ _ Hc) as Hok. destruct (lastTerm_spec _ Hok) as (t' & E' & HT).
  assert (t' = t) as -> by congruence. pose proof (du_rep _ _ _ _ _ (co_dur _ _ _ _ Hc)) as Hrep.
  eapply log_term_before in HT; [|done..]. unfold log_disk in HT. unfold disk_of in Hrep. rewrite (represents_last _ _ Hrep) in HT.
  eapply term_before_inj; [exact HT|apply term_before_lastTerm].
Qed.

Lemma mild_requestVote to pre t last_ lastTrm r :
  alive r → (pre = false → rn_state r = Candidate ∧ t = rn_term r ∧ last_ = lastIndex (rn_log r) ∧
    lastTerm (rn_log r) = Ret lastTrm) →
  let Q r' := alive r' ∧ neutral r r' in wp (send (voteReqMsg to t pre last_ lastTrm)) (λ _, Q) (λ _, Q) Q r.
Proof.
  intros Hr Hp. apply send_wp; [|done]. intros H L He Hg Hf. unfold sent_ok. cbn. intros Hpre.
  destruct (Hp Hpre) as (HS & -> & -> & Ht). pose proof (fi_core _ _ _ _ Hf) as Hc. exists L.
  rewrite (co_id _ _ _ _ Hc). split_and!.
  - replace (if _ : bool then _ else _) with (rn_term r) by (by case_match). by apply (ro_cand _ _ _ _ (fi_role _ _ _ _ Hf)).
  - rewrite lastIndex_spec by apply Hc. by apply (fits_last H).
  - by eapply lastTerm_of.
Qed.

Lemma requestVotes_steady pre t peers last_ lastTrm c r :
  alive r → (pre = false → rn_state r = Candidate ∧ t = rn_term r ∧ last_ = lastIndex (rn_log r) ∧
    lastTerm (rn_log r) = Ret lastTrm) →
  steady (forEach peers (λ peer, if negb (IsVoter c peer) then ret tt
    else send (voteReqMsg peer t pre last_ lastTrm))) r.
Proof.
  intros Hr Hp. eapply (wp_forEach _ _ (λ _ r', alive r' ∧ neutral r r')).
  - by apply mild_here.
  - intros x l r' _ [Hr' Hn]. destruct (negb _); [done|].
    eapply wp_mono; [apply (mild_requestVote x pre t last_ lastTrm r' Hr')|..]; cbn beta.
    + intros Hpre. destruct Hn as [_ -> _ _ -> -> _ _ _ _ _ _]. by apply Hp.
    + intros _ r2 [? ?]. split; [done|by eapply neutral_trans].
    + by intros _ r2 [? _].
    + intros r2 [? _]. by apply alive_halted.
  - by intros r' [? _].
Qed.

Lemma campaign_wp k :
  (∀ pre r, alive r → (last_of r + 2 < W64)%N → wp (campaign k pre) (λ _, alive) ended halted r) ∧
  (∀ r, alive r → (last_of r + 2 < W64)%N → rn_state r = Candidate ∨ rn_state r = PreCandidate →
     wp (tallyVotes k) (λ b r', alive r' ∧ (b = false → r' = r)) ended halted r).
Proof.
  induction k as [|k [IHc IHt]]; [by split; intros; apply alive_halted|]. split.
  - intros pre r Hr Hw. cbn [campaign]. apply wp_bind, wp_get. destruct (negb _); [done|].
    apply wp_bind. eapply wp_mono; [by apply enter_wp|..]; cbn beta; [|intros e r1 [? E]; split; [done|by rewrite E]|done].
    intros t r1 (Hr1 & HS1 & EL1 & Ei & Et). apply wp_bind.
    replace (rn_id r) with i by (destruct Hr as (H & L & _ & _ & Hf); symmetry; apply Hf).
    eapply wp_mono; [by apply recordVote_wp, standing_counts|..]; cbn beta; [|done..].
    intros _ r2 (Hr2 & HS2 & Et2 & El2 & _). apply wp_bind.
    eapply wp_mono; [apply IHt; [done|unfold last_of in *; congruence|]|..]; cbn beta; [| |done..].
    { rewrite HS2, HS1. destruct pre; [by right|by left]. }
    intros [] r3 [Hr3 E]; [done|]. rewrite (E eq_refl) in *. clear E Hr3.
    apply wp_bind, wp_get. cbv zeta. apply wp_bind. unfold on_log. apply wp_zoom, wp_reads.
    destruct (lastTerm (rn_log r2)) as [lt|e|p|] eqn:Elt; rewrite ?set_log_id; [|by apply alive_ended|by apply alive_halted..].
    eapply wp_mono; [apply requestVotes_steady; [done|]|..]; cbn beta; [|done|intros; by apply alive_ended|done].
    intros ->. rewrite HS2, Et2. split_and!; [exact HS1|by apply Et|done|done].
  - intros r Hr Hw HS. cbn [tallyVotes]. apply wp_bind, wp_get.
    replace (rn_conf r) with C by (destruct Hr as (H & L & _ & _ & Hf); symmetry; apply Hf).
    destruct (HasQuorum C (votedYes r)) eqn:Hq; [|destruct (QuorumImpossible _ _)].
    + case_bool_decide as HP; apply wp_bind.
      * eapply wp_mono; [by apply IHc|..]; cbn beta; [|done..]. intros _ r' Hr'. by split.
      * destruct HS as [HS|]; [|done]. eapply wp_mono; [by apply becomeLeader_steady|..]; cbn beta;
          [|intros; by apply alive_ended|done]. intros _ r' Hr'. by split.
    + apply wp_bind. eapply wp_mono; [by apply follow_wp|..]; [|done..]. cbn beta. by intros _ r' [? _].
    + by apply wp_ret.
Qed.

(** ** Voting *)

(** The message was sent by somebody. *)
Lemma received H m : extends i H0 H → good C H → m ∈ ch_sent H0 → sent_ok C H m.
Proof. intros He Hg Hm. apply Hg. by apply (ex_sent _ _ _ He). Qed.

Lemma ended_bind {A B} (m : M RN A) (f : A → M RN B) r :
  wp m (λ a r', alive r' ∧ wp (f a) (λ _, alive) ended halted r') ended halted r →
  wp (bind m f) (λ _, alive) ended halted r.
Proof. intros Hm. apply wp_bind. eapply wp_mono; [exact Hm|..]; [by intros a r' [_ ?]|done..]. Qed.

Lemma sound_mild {A} (m : M RN A) r : mild m → alive r → wp m (λ _, alive) ended halted r.
Proof. intros. by apply steady_sound, mild_steady. Qed.

Lemma grant_wp m r H L :
  extends i H0 H → good C H → fits H i L r → m ∈ ch_sent H0 →
  m_Type m = MsgVoteReq → m_PreVote m = false → m_Term m = rn_term r →
  canVote m r = true → isUpToDate (m_LastLogIndex m) (m_LastLogTerm m) (rn_log r) = Ret true →
  wp (modify (set_vote (m_From m)) ;;; modify (set_electionElapsed 0) ;;; persistHardState)
     (λ _ r', alive r' ∧ rn_term r' = rn_term r ∧ ∃ H' L', extends i H0 H' ∧ good C H' ∧ fits H' i L' r' ∧
        ∃ l b, ch_votes H' !! (i, rn_term r) = Some (m_From m, l, b))
     ended halted r.
Proof.
  intros He Hg Hf Hm HT HP Et Hcan Hup. pose proof Hf as [Hc [Es Ev] Hro].
  pose proof (received H m He Hg Hm) as Hok. unfold sent_ok in Hok. rewrite HT in Hok.
  destruct (Hok HP) as (k & Hk & Hli & Hlt).
  apply wp_bind, wp_modify, wp_bind, wp_modify.
  match goal with |- wp _ _ _ _ ?x => set (r1 := x) end.
  assert (core H i L r1) as Hc1 by (split; apply Hc).
  assert (role H i L r1) as Hro1 by (split; apply Hro).
  eapply wp_mono; [apply (persist_core H L r1 Hg Hc1)|..]; cbn beta.
  - intros _. unfold canVote in Hcan. rewrite HP in Hcan. cbn. change (hard_of r1) with (hard_of r).
    rewrite <- Ev. destruct (N.eqb_spec (rn_vote r) (m_From m)); [by left|right].
    destruct (N.eqb_spec (rn_vote r) None_); [done|]. done.
  - intros _ r2 (Hc2 & Hs2 & Hw & _ & _).
    assert (fits H i L r2) as Hf2 by (split; [done..|by eapply role_rewrote]).
    destruct Hw as (h & l & ->). subst r1.
    destruct (fits_vote H L _ (m_From m) Hg Hf2) as (H' & Hg' & He' & Hf' & Hv'); [done| |].
    { exists k. cbn. rewrite <- Et. split; [done|].
      destruct (isUpToDate_ok _ (m_LastLogIndex m) (m_LastLogTerm m) (co_log _ _ _ _ Hc)) as (mine & Hmine & E).
      rewrite E in Hup. injection Hup as Hup%bool_decide_eq_true.
      assert (mine = lastTermOf L) as ->.
      { destruct (lastTerm_spec _ (co_log _ _ _ _ Hc)) as (t' & E' & HT'). assert (t' = mine) as -> by congruence.
        by apply (lastTerm_of H L r). }
      pose proof (fits_last _ _ _ Hc) as EL. unfold last_of in EL. unfold up_to_date. rewrite EL, Hli, Hlt in Hup. lia. }
    pose proof (extends_trans _ _ _ _ He He') as HeT.
    split_and!; [by exists H', L|done|]. exists H', L. split_and!; done.
  - intros e r2 (Hc2 & _ & _ & _ & Hi). split; [|by rewrite Hi]. exists H, L. split_and!; [done..|apply Hc2].
  - intros r2 Hd. by exists H, L.
Qed.

Lemma handleVoteRequest_wp m r :
  alive r → m ∈ ch_sent H0 → m_Type m = MsgVoteReq → (m_PreVote m = false → m_Term m = rn_term r) →
  wp (handleVoteRequest m) (λ _, alive) ended halted r.
Proof.
  intros Hr Hm HT Ht. pose proof Hr as (H & L & He & Hg & Hf).
  pose proof (co_log _ _ _ _ (fi_core _ _ _ _ Hf)) as Hlog. unfold handleVoteRequest. apply wp_bind, wp_get.
  apply wp_bind.
  assert (wp (if canVote m r then on_log (reads (isUpToDate (m_LastLogIndex m) (m_LastLogTerm m))) else ret false)
    (λ g r', r' = r ∧ (g = true → canVote m r = true ∧
       isUpToDate (m_LastLogIndex m) (m_LastLogTerm m) (rn_log r) = Ret true)) (λ _ _, False) (λ _, False) r) as Hgr.
  { destruct (canVote m r); [|done]. unfold on_log. apply wp_zoom, wp_reads.
    destruct (isUpToDate_ok _ (m_LastLogIndex m) (m_LastLogTerm m) Hlog) as (mine & _ & ->).
    rewrite set_log_id. split; [done|]. by intros ->. }
  eapply wp_mono; [exact Hgr|..]; [|done..]. cbn beta. intros g r' [-> Hg1]. clear Hgr.
  destruct (g && negb (m_PreVote m)) eqn:E.
  - apply andb_prop in E as [-> HP%negb_true_iff]. destruct Hg1 as [Hcan Hup]; [done|]. rewrite HP. cbn [andb].
    apply wp_bind. eapply wp_mono; [by eapply grant_wp; eauto|..]; cbn beta; [|done..].
    intros _ r2 (Hr2 & Et2 & H2 & L2 & He2 & Hg2 & Hf2 & l & b & Hv). apply wp_modify.
    destruct (fits_sent H2 i L2 r2 (addressed (rn_id r2) (rn_term r2)
      (voteRespMsg (m_From m) (rn_term r) false true)) Hg2) as (Hg3 & He3 & Hf3); [|done|].
    + unfold sent_ok. cbn. intros _ _. exists l, b. rewrite (co_id _ _ _ _ (fi_core _ _ _ _ Hf2)), Et2.
      by replace (if _ : bool then _ else _) with (rn_term r) by by case_match.
    + eexists _, L2. split_and!; [by eapply extends_trans|exact Hg3|].
      eapply fits_neutral; [exact Hf3|by split|]. cbn. intros x [Hx|Hx%list_elem_of_singleton]%elem_of_app.
      * apply elem_of_cons. right. by apply (co_msgs _ _ _ _ (fi_core _ _ _ _ Hf2)).
      * subst. by left.
  - apply wp_bind, wp_ret. apply sound_mild; [|done]. apply mild_send_idle. unfold idle_message. cbn.
    destruct g, (m_PreVote m); naive_solver.
Qed.

Lemma handleVoteResponse_wp m r :
  alive r → m ∈ ch_sent H0 → m_Type m = MsgVoteResp → (m_PreVote m = false → m_Term m = rn_term r) →
  m_To m = i ∨ m_To m = None_ → (last_of r + 2 < W64)%N →
  wp (handleVoteResponse m) (λ _, alive) ended halted r.
Proof.
  intros Hr Hm HT Ht Hto Hw. unfold handleVoteResponse. apply wp_bind, wp_get.
  destruct (m_PreVote m && _) eqn:E1; [by apply alive_ended|].
  destruct (negb (m_PreVote m) && _) eqn:E2; [by apply alive_ended|]. apply wp_bind.
  assert (rn_state r = Candidate ∨ rn_state r = PreCandidate) as HS.
  { destruct (m_PreVote m); cbn in *; apply negb_false_iff, bool_decide_eq_true in E1 || 
      apply negb_false_iff, bool_decide_eq_true in E2; auto. }
  eapply wp_mono; [apply recordVote_wp|..]; cbn beta; [| |done..].
  - destruct Hr as (H & L & He & Hg & Hf). exists H, L. split_and!; [done..|]. intros HC Hgr.
    assert (m_PreVote m = false) as HP.
    { destruct (m_PreVote m); [|done]. cbn in E1. rewrite HC in E1. done. }
    pose proof (received H m He Hg Hm) as Hok. unfold sent_ok in Hok. rewrite HT in Hok.
    destruct (Hok HP Hgr) as (l & b & Hv). exists l, b. rewrite <- Ht by done.
    destruct (gd_vote _ _ Hg _ _ _ _ _ Hv) as (_ & k & Hk & _). destruct (gd_cand _ _ Hg _ _ _ Hk) as (Hnz & _).
    destruct Hto as [<-|]; [done|congruence].
  - intros _ r1 (Hr1 & HS1 & Et1 & El1 & _). apply wp_bind.
    eapply wp_mono; [apply campaign_wp; [done|unfold last_of in *; congruence|by rewrite HS1]|..]; cbn beta; [|done..].
    by intros b r2 [? _].
Qed.
End call.
End node.
