(* ===== verification/LogCalls.v ===== *)
(** * The calls of a node and the history

    That every call of a node keeps [fits] of LogSteps.v: the handlers that take over a
    leader's log or snapshot, the responses that move a leader's commit index, local
    snapshots and compaction, [Step] and [Tick] as a whole, and a node started again from
    its disk. *)

From S2P Require Import Prelude Varint Types Config Storage RaftLog RawNode Membership NodeSafety Votes Cluster ClusterSafety LogHistory LogSteps.

(** ** Overwriting a log with the leader's *)

Section overwrite.
Context (C : Configuration) (i : NodeID).
Context {S : Type} `{Hst : Storage S} `{HH : !HardStateLaws S} `{HL : !LogLaws S}.
Implicit Types (H : chronicle) (L : list LogEntry) (s : S).

(** What both logs have is kept. *)
Definition covers L lt L' : Prop :=
  L' `prefix_of` lt ∧ ∀ m, take m L = take m lt → m ≤ length L → m ≤ length lt → m ≤ length L'.

Lemma covers_sealed H t j lt L L' n :
  good C H → ch_leads H !! t = Some (j, lt) → covers L lt L' → sealed C H t n L →
  take n L = take n L' ∧ n ≤ length L'.
Proof.
  intros Hg Hl [Hp Hcut] Hs. destruct (sealed_in_lead C H Hg t n L j lt Hs Hl) as (E & ? & ?).
  assert (n ≤ length L') by (by apply Hcut). split; [|done]. rewrite <- E. by apply prefix_take_iff.
Qed.

Lemma term_before_take L L' n p t :
  term_before L p t → take n L = take n L' → N.to_nat p ≤ n → term_before L' p t.
Proof.
  intros [?|[Hp Ht]] E Hn; [by left|right]. split; [done|]. rewrite <- Ht.
  by rewrite <- (take_eq_lookup n (N.to_nat (p - 1)) L L' E) by lia.
Qed.

Lemma durable_overwrite H t j lt L L' s s' :
  good C H → durable C H i L s → ch_leads H !! t = Some (j, lt) → t = hs_Term (hard s) →
  covers L lt L' → hard_consistent s' → hard s' = hard s → represents L' (disk s') →
  d_snapshot (disk s') = d_snapshot (disk s) ∨
  (let snap := d_snapshot (disk s') in
   sealed C H t (N.to_nat (snap_LastIncludedIndex snap)) L' ∧
   term_before L' (snap_LastIncludedIndex snap) (snap_LastIncludedTerm snap) ∧
   vouched C H snap) →
  durable C H i L' s'.
Proof.
  intros Hg Hd Hl -> Hcov Hc Eh Hrep Hsnap. pose proof Hcov as [Hp Hcut].
  assert (∀ n, sealed C H (hs_Term (hard s)) n L → take n L = take n L' ∧ n ≤ length L') as Hover.
  { intros n. by eapply covers_sealed. }
  assert (∀ n, sealed C H (hs_Term (hard s)) n L → sealed C H (hs_Term (hard s)) n L') as Hover'.
  { intros n Hs. destruct (Hover n Hs). by eapply sealed_take. }
  assert (let snap := d_snapshot (disk s') in
   sealed C H (hs_Term (hard s)) (N.to_nat (snap_LastIncludedIndex snap)) L' ∧
   term_before L' (snap_LastIncludedIndex snap) (snap_LastIncludedTerm snap) ∧
   vouched C H snap) as (Hs1 & Hs2 & Hs3).
  { destruct Hsnap as [->|]; [|done]. cbv zeta. pose proof (du_snap _ _ _ _ _ Hd) as Hs.
    split_and!; [by apply Hover'| |apply Hd]. eapply term_before_take; [apply Hd|by apply Hover|done]. }
  split; rewrite ?Eh; try done.
  - eapply matches_prefix; [by apply (gd_log _ _ Hg _ _ _ Hl)|done].
  - apply Forall_forall. intros e He. eapply lead_terms; [done..|]. by eapply elem_of_prefix.
  - apply Hd.
  - apply Hd.
  - intros t n n' Hx Hn. destruct (du_ack _ _ _ _ _ Hd _ _ _ Hx Hn) as [Ht [Hh|?]]; (split; [done|]); [|by right].
    destruct (overwrite_keeps C H _ j lt L L' t n Hg Hl Hp Hcut Hh Ht) as [?|[? ?]]; [by left|right].
    eexists. split; [|done]. lia.
  - apply Hover', Hd.
Qed.

(** Entries the log holds are the leader's, and so is everything before them. *)
Lemma holds_agree H (l : raftLog S) L lt p pt ents :
  log_ok l → represents L (log_disk l) → matches H L → matches H lt →
  term_before L p pt → term_before lt p pt → ents `prefix_of` drop (N.to_nat p) lt →
  contiguous_from (p + 1) ents → holds_all l ents →
  let n := N.to_nat p + length ents in take n L = take n lt ∧ n ≤ length L ∧ n ≤ length lt.
Proof.
  intros Hok Hrep HmL Hmlt Hp Hpt Hpre Hcon Hall.
  assert (∀ q t, term_before L q t → term_before lt q t →
    take (N.to_nat q) L = take (N.to_nat q) lt ∧ N.to_nat q ≤ length L ∧ N.to_nat q ≤ length lt) as Hagree.
  { intros q t H1 H2. split; [by eapply term_before_agree|].
    destruct H1 as [[-> _]|[? (e1 & He1%lookup_lt_Some & _)%fmap_Some]]; [lia|].
    destruct H2 as [[-> _]|[? (e2 & He2%lookup_lt_Some & _)%fmap_Some]]; lia. }
  destruct ents as [|e ents _] using rev_ind; [by cbn; rewrite Nat.add_0_r; eapply Hagree|].
  rewrite length_app. cbn. replace (N.to_nat p + (length ents + 1)) with (N.to_nat (p + N.of_nat (length ents) + 1)) by lia.
  apply Forall_app in Hall as [_ He]. rewrite Forall_singleton in He.
  assert ((ents ++ [e]) !! length ents = Some e) as Hlk by (by rewrite lookup_app_r, Nat.sub_diag).
  pose proof (Hcon _ _ Hlk) as Ei. eapply Hagree.
  - eapply log_term_before; [exact Hok|exact Hrep|]. replace (_ + 1)%N with (e_Index e) by lia. exact He.
  - right. split; [lia|]. pose proof (prefix_lookup_Some _ _ _ _ Hlk Hpre) as Hd. rewrite lookup_drop in Hd.
    replace (N.to_nat _) with (N.to_nat p + length ents) by lia. by rewrite Hd.
Qed.
End overwrite.

(** ** The calls *)

Section calls.
Context (C : Configuration) (Hfixed : IsJoint C = false) (Hnormal : conf_normal C) {S G : Type}.
Context `{Hst : Storage S} `{HH : !HardStateLaws S} `{HL : !LogLaws S} `{Hrand : Rand G}.
Context (i : NodeID).
Local Abbreviation RN := (RawNode S G).
Implicit Types (H : chronicle) (L : list LogEntry) (r : RN).

(** A call may be looked at from a later history. *)
Lemma alive_later H0 H1 r : extends i H0 H1 → alive C i H1 r → alive C i H0 r.
Proof. intros He (H & L & He' & ?). exists H, L. split; [by eapply extends_trans|done]. Qed.

Lemma halted_later H0 H1 r : extends i H0 H1 → halted C i H1 r → halted C i H0 r.
Proof. intros He (H & L & He' & ?). exists H, L. split; [by eapply extends_trans|done]. Qed.

Lemma calls_later {A} (m : M RN A) H0 H1 r :
  extends i H0 H1 → wp m (λ _, alive C i H1) (ended C i H1) (halted C i H1) r →
  wp m (λ _, alive C i H0) (ended C i H0) (halted C i H0) r.
Proof.
  intros He Hm. eapply wp_mono; [exact Hm|..]; cbn beta.
  - intros _ r'. by apply alive_later.
  - intros e r' [? Ha]. split; [by eapply halted_later|]. intros E. eapply alive_later; eauto.
  - intros r'. by apply halted_later.
Qed.

Lemma alive_now H L r : good C H → fits C H i L r → alive C i H r.
Proof. intros. exists H, L. split_and!; [apply extends_refl|done..]. Qed.

(** *** Acknowledging *)

Lemma send_ack H0 m r :
  alive C i H0 r → (i, rn_term r, N.to_nat (m_MatchIndex m)) ∈ ch_acks H0 →
  m_Type m = MsgAppendResp ∨ m_Type m = MsgSnapshotResp → m_Term m = 0%N →
  steady C i H0 (send m) r.
Proof.
  intros Hr Ha HT Ht. eapply wp_mono; [apply (send_wp C i H0 m r); [|done]|..]; cbn beta.
  - intros H L He Hg Hf. assert (sent_ok C H (addressed (rn_id r) (rn_term r) m) =
      (m_Success m = true → (i, rn_term r, N.to_nat (m_MatchIndex m)) ∈ ch_acks H)) as ->.
    { rewrite (co_id _ _ _ _ _ (fi_core _ _ _ _ _ Hf)). unfold sent_ok, addressed. cbn.
      rewrite Ht. destruct HT as [-> | ->]; done. }
    intros _. by apply (ex_acks _ _ _ He).
  - by intros _ r' [? _].
  - by intros _ r' [? _].
  - intros r' [? _]. by apply alive_halted.
Qed.

(** A follower answers for what it shares with the leader. *)
Lemma acknowledge_wp H0 H L r j lt n (rest : M RN unit) :
  extends i H0 H → good C H → fits C H i L r → ch_leads H !! rn_term r = Some (j, lt) →
  take n lt = take n L → n ≤ length lt → n ≤ length L →
  (∀ H1, extends i H H1 → alive C i H1 r → (i, rn_term r, n) ∈ ch_acks H1 →
     wp rest (λ _, alive C i H1) (ended C i H1) (halted C i H1) r) →
  wp rest (λ _, alive C i H0) (ended C i H0) (halted C i H0) r.
Proof.
  intros He Hg Hf Hl E Hn HnL Hrest.
  destruct (fits_ack C i H L r n j lt Hg Hf Hl E Hn HnL) as (Hg' & He' & Hf').
  eapply calls_later; [eapply extends_trans; [exact He|exact He']|]. apply Hrest; [done|by eapply alive_now|by left].
Qed.

(** *** Configurations *)

Section quiet.
Context (H0 : chronicle).
Local Abbreviation mildly m r :=
  (wp m (λ _ r', alive C i H0 r' ∧ neutral r r') (λ _ r', alive C i H0 r' ∧ neutral r r')
     (λ r', alive C i H0 r' ∧ neutral r r') r) (only parsing).

Lemma setConfiguration_mild at_ r :
  alive C i H0 r → rn_state r ≠ Leader → mildly (setConfiguration C at_) r.
Proof.
  intros (H & L & He & Hg & Hf) HS. apply wp_bind, wp_get. destruct (_ && _).
  { apply (mild_here C i H0). by exists H, L. }
  apply wp_bind, wp_modify, wp_bind, wp_modify. rewrite bool_decide_false by done. apply wp_ret.
  assert (neutral r (set_confIndex at_ (set_conf C r))) as Hn.
  { split; try done. cbn. symmetry. apply Hf. }
  split; [|done]. exists H, L. split_and!; [done..|]. eapply fits_neutral; [done..|]. apply Hf.
Qed.

Lemma refreshConfiguration_mild r :
  alive C i H0 r → rn_state r ≠ Leader → mildly refreshConfiguration r.
Proof.
  intros Hr HS. pose proof Hr as (H & L & He & Hg & Hf). pose proof (fi_core _ _ _ _ _ Hf) as Hc.
  pose proof (co_log _ _ _ _ _ Hc) as Hok. pose proof (co_dur _ _ _ _ _ Hc) as Hd.
  assert (∀ e, e ∈ d_entries (log_disk (rn_log r)) → e_Type e ≠ EntryConfChange) as Hplain.
  { intros e Hin. destruct (du_rep _ _ _ _ _ Hd) as (_ & E & _). unfold log_disk, disk_of in *.
    rewrite E in Hin. destruct (matches_plain C H Hg L (du_match _ _ _ _ _ Hd)) as [Hp _].
    rewrite Forall_forall in Hp. apply Hp.
    rewrite <- (take_drop (N.to_nat (d_base (disk (l_storage (rn_log r))))) L). apply elem_of_app. by right. }
  unfold refreshConfiguration. apply wp_bind, wp_get. cbv zeta. apply wp_bind, wp_reads.
  rewrite (latestConf_spec (HV:=any_conf)), newest_conf_None; [|done|done|].
  - unfold disk_of. rewrite (log_load _ (proj1 Hok)). rewrite (co_boot _ _ _ _ _ Hc).
    destruct (proj1 (du_snap_from _ _ _ _ _ Hd)) as [E|E]; unfold disk_of in E.
    + rewrite E. case_match; by apply setConfiguration_mild.
    + rewrite E. by apply setConfiguration_mild.
  - apply Forall_forall. intros e Hin HE. by apply Hplain in Hin.
Qed.

Lemma refreshIfNeeded_mild ents r :
  alive C i H0 r → rn_state r ≠ Leader → mildly (refreshConfigurationIfNeeded ents) r.
Proof.
  intros Hr HS. apply wp_bind, wp_get. cbv zeta. destruct (negb _); [by apply mild_here|].
  by apply refreshConfiguration_mild.
Qed.
End quiet.
(** *** Appends *)

(** The follower's new log, whole. *)
Lemma appended_log H L r j lt p pt lc ents l' :
  good C H → core C H i L r → ch_leads H !! hs_Term (hard_of r) = Some (j, lt) →
  term_before lt p pt → ents `prefix_of` drop (N.to_nat p) lt → contiguous_from (p + 1) ents →
  log_term_of (rn_log r) p = Some pt → appended (rn_log r) p lc ents l' →
  ∃ L', (L' = L ∧ log_disk l' = log_disk (rn_log r) ∨
         covers L lt L' ∧ d_snapshot (log_disk l') = d_snapshot (log_disk (rn_log r))) ∧
    represents L' (log_disk l') ∧ let n := N.to_nat p + length ents in
    take n lt = take n L' ∧ n ≤ length lt ∧ n ≤ length L'.
Proof.
  intros Hg Hc Hl Hpt Hpre Hcon Hp (Hall & _ & _ & Hdisk). pose proof (co_log _ _ _ _ _ Hc) as Hok.
  pose proof (co_dur _ _ _ _ _ Hc) as Hd. pose proof (du_rep _ _ _ _ _ Hd) as Hrep. unfold disk_of in Hrep.
  fold (log_disk (rn_log r)) in Hrep. pose proof (represents_last _ _ Hrep) as HLast.
  pose proof (log_term_before _ _ _ _ Hok Hrep Hp) as HpL. destruct (gd_log _ _ Hg _ _ _ Hl) as (Hmlt & _ & _).
  pose proof (du_match _ _ _ _ _ Hd) as HmL. pose proof (log_ok_base _ Hok) as HB. pose proof Hok as (_ & _ & HC & _).
  destruct Hdisk as [Ed|(k & Hk & Hcom & [Hheld Hconf] & Ed)].
  { exists L. split_and!; [by left|by rewrite Ed|].
    destruct (holds_agree H (rn_log r) L lt p pt ents) as (E & ? & ?); try done. by eapply holds_all_disk. }
  destruct (holds_agree H (rn_log r) L lt p pt (take k ents)) as (E & Hn1 & Hn2); try done.
  { etrans; [apply take_prefix|done]. }
  { by apply contiguous_take. }
  rewrite length_take, Nat.min_l in E, Hn1, Hn2 by lia.
  pose proof (append_log L lt ents (N.to_nat p) k E Hn1 ltac:(lia) Hpre) as EL'.
  assert (N.to_nat p + length ents ≤ length lt) as Hlen.
  { destruct Hpre as [z Hz]. apply (f_equal length) in Hz. rewrite length_drop, length_app in Hz. lia. }
  exists (take (N.to_nat p + length ents) lt). cbv zeta. split_and!.
  - right. split; [|by rewrite Ed]. split; [apply take_prefix|]. intros m Em HmL' Hmlt'. rewrite length_take, Nat.min_l by done.
    destruct (decide (m ≤ N.to_nat p + length ents)) as [|Hgt]; [done|exfalso].
    destruct (lookup_lt_is_Some_2 ents k) as [e He]; [done|]. apply (Hconf e He). rewrite (Hcon _ _ He).
    eapply term_before_log; [exact Hrep|lia|]. right. split; [lia|].
    rewrite (take_eq_lookup m _ L lt Em) by lia. pose proof (prefix_lookup_Some _ _ _ _ He Hpre) as Hx.
    rewrite lookup_drop in Hx. by replace (N.to_nat _) with (N.to_nat p + k) by lia; rewrite Hx.
  - rewrite Ed, <- EL'. pose proof (represents_write L _ Hrep (p + 1 + N.of_nat k) (drop k ents)) as Hw.
    replace (N.to_nat (p + 1 + N.of_nat k - 1)) with (N.to_nat p + k) in Hw by lia. apply Hw; lia.
  - by rewrite take_take, Nat.min_id.
  - done.
  - rewrite length_take. lia.
Qed.

Lemma appended_fits H L r j lt p pt lc ents l' :
  good C H → fits C H i L r → rn_state r = Follower → ch_leads H !! rn_term r = Some (j, lt) →
  term_before lt p pt → ents `prefix_of` drop (N.to_nat p) lt → contiguous_from (p + 1) ents →
  sealed C H (rn_term r) (N.to_nat lc) lt →
  log_term_of (rn_log r) p = Some pt → appended (rn_log r) p lc ents l' → log_ok l' →
  hard_consistent (l_storage l') → hard (l_storage l') = hard_of r →
  ∃ L', fits C H i L' (set_log l' r) ∧ let n := N.to_nat p + length ents in
    take n lt = take n L' ∧ n ≤ length lt ∧ n ≤ length L'.
Proof.
  intros Hg [Hc [Et Ev] Hro] HS Hl Hpt Hpre Hcon Hlc Hp Happ Hok' Hhc Eh. rewrite Et in *.
  destruct (appended_log H L r j lt p pt lc ents l' Hg Hc Hl Hpt Hpre Hcon Hp Happ) as (L' & HL' & Hrep & E & Hn & HnL).
  exists L'. split; [|done]. pose proof (co_dur _ _ _ _ _ Hc) as Hd.
  assert (durable C H i L' (l_storage l')) as Hd'.
  { destruct HL' as [[-> Ed]|[Hcov Es]]; [by eapply durable_same|]. eapply durable_overwrite; try done. by left. }
  assert (sealed C H (hs_Term (hard_of r)) (N.to_nat (l_committed l')) L') as Hs.
  { destruct Happ as (_ & -> & _). destruct (N.max_spec_le (l_committed (rn_log r))
      (N.min lc (p + N.of_nat (length ents)))) as [[_ ->]|[_ ->]].
    - eapply sealed_take; [eapply sealed_le; [exact Hlc|lia]| |lia]. eapply take_eq_le; [|exact E]. lia.
    - destruct HL' as [[-> _]|[Hcov _]]; [apply Hc|]. pose proof (co_commit _ _ _ _ _ Hc) as Hs.
      destruct (covers_sealed C H _ j lt L L' _ Hg Hl Hcov Hs). by eapply sealed_take. }
  split; [|unfold in_sync, hard_of, disk_of in *; cbn; by rewrite Eh|split; cbn; rewrite HS; try done].
  - destruct Happ as (_ & Ec & Ea & _). eapply core_set_log; [exact Hc|done|done|done|done|lia|lia].
  - intros _. apply (ro_progress _ _ _ _ Hro). by rewrite HS.
Qed.

(** The sender leads the term of the message. *)
Lemma append_wp H L r m :
  good C H → fits C H i L r → rn_state r = Follower → m_Term m = rn_term r → msg_ok m →
  sent_ok C H m → m_Type m = MsgAppendReq →
  wp (on_log (maybeAppend (m_PrevLogIndex m) (m_PrevLogTerm m) (m_LeaderCommit m) (m_Entries m)))
     (λ res r', if snd res
        then let n := N.to_nat (m_PrevLogIndex m) + length (m_Entries m) in
             N.to_nat (fst res) = n ∧ rn_term r' = rn_term r ∧ rn_state r' = Follower ∧
             ∃ j lt L', fits C H i L' r' ∧ ch_leads H !! rn_term r = Some (j, lt) ∧
               take n lt = take n L' ∧ n ≤ length lt ∧ n ≤ length L'
        else r' = r)
     (λ _ r', fits C H i L r') (λ _, False) r.
Proof.
  intros Hg Hf HS Et (Hcon & Hw & _ & _) Hm HT. unfold sent_ok in Hm. rewrite HT in Hm.
  destruct Hm as (lt & Hl & Hpt & Hpre & Hlc). rewrite Et in Hl, Hlc. pose proof (fi_core _ _ _ _ _ Hf) as Hc.
  apply wp_zoom. eapply wp_mono; [apply wp_and; [apply maybeAppend_wp; [apply Hc|done|lia]|
    apply log_quiet_maybeAppend, (du_hard _ _ _ _ _ (co_dur _ _ _ _ _ Hc))]|..]; cbn beta.
  - intros [n []] l' [(Hok' & _ & Hres) [Hhc Eh]]; cbn [fst snd] in *.
    + destruct Hres as (-> & Hp & Happ). split_and!; [lia|done..|].
      destruct (appended_fits H L r (m_From m) lt _ _ _ _ l' Hg Hf HS Hl Hpt Hpre Hcon Hlc Hp Happ Hok' Hhc Eh)
        as (L' & Hf' & E & ? & ?). by exists (m_From m), lt, L'.
    + destruct Hres as [-> _]. apply set_log_id.
  - intros _ l' [(Hok' & Hsame) [Hhc Eh]]. by apply fits_relog.
  - by intros l' [[] _].
Qed.

(** What both handlers of a leader's messages begin with. *)
Lemma heed_wp H0 m r :
  alive C i H0 r → m_Term m = rn_term r →
  wp (if negb (bool_decide (rn_state r = Follower)) then becomeFollower (m_Term m) (m_From m) else ret tt)
     (λ _ r', alive C i H0 r' ∧ rn_state r' = Follower ∧ rn_term r' = rn_term r ∧ rn_log r' = rn_log r)
     (λ _ _, False) (λ _, False) r.
Proof.
  intros Hr Et. case_bool_decide as HS; cbn [negb]; [by apply wp_ret|]. rewrite Et.
  eapply wp_mono; [by apply follow_wp|..]; [|done..]. cbn beta. by intros _ r' (? & ? & ? & ? & _).
Qed.

Lemma alive_neutral H0 r r' : alive C i H0 r → neutral r r' → rn_msgs r' = rn_msgs r → alive C i H0 r'.
Proof.
  intros (H & L & He & Hg & Hf) Hn Em. exists H, L. split_and!; [done..|].
  eapply fits_neutral; [done..|]. rewrite Em. apply Hf.
Qed.

(** Through the beginning of a handler, to the follower [r]. *)
Local Ltac heed r :=
  apply wp_bind, wp_modify, wp_bind, wp_get;
  match goal with Hr0 : alive C i ?H0 r, Et0 : m_Term ?m = rn_term r |- _ =>
    let r1 := fresh "r1" in let r2 := fresh "r2" in let rf := fresh "rf" in
    let Hr1 := fresh "Hr1" in let Et1 := fresh "Et1" in let Hr2 := fresh "Hr2" in let HS2 := fresh "HS2" in
    let Et2 := fresh "Et2" in let El2 := fresh "El2" in
    set (r1 := set_electionElapsed 0 r);
    assert (alive C i H0 r1) as Hr1 by (eapply alive_neutral; [exact Hr0|by split|done]);
    assert (m_Term m = rn_term r1) as Et1 by done; clearbody r1; clear dependent r; apply wp_bind;
    eapply wp_mono; [by apply heed_wp| |done..]; cbn beta; intros _ r2 (Hr2 & HS2 & Et2 & El2); rewrite <- El2;
    apply wp_bind, wp_modify; set (r := set_lead (m_From m) r2); change (rn_log r2) with (rn_log r);
    assert (alive C i H0 r) as Hr by (eapply alive_neutral; [exact Hr2|by split|done]);
    assert (m_Term m = rn_term r) as Et by (by cbn; rewrite Et2);
    assert (rn_state r = Follower) as HS by done; clearbody r; clear dependent r2; clear dependent r1
  end.

Lemma handleAppendRequest_wp H0 m r :
  alive C i H0 r → m ∈ ch_sent H0 → m_Type m = MsgAppendReq → m_Term m = rn_term r → msg_ok m →
  wp (handleAppendRequest m) (λ _, alive C i H0) (ended C i H0) (halted C i H0) r.
Proof.
  intros Hr0 Hm HT Et0 Hmok. unfold handleAppendRequest. heed r.
  destruct Hr as (H & L & He & Hg & Hf). pose proof (received C i H0 H m He Hg Hm) as Hok.
  destruct (N.ltb_spec (m_PrevLogIndex m) (l_committed (rn_log r))) as [Hlt|Hge].
  { pose proof Hok as Hok2. unfold sent_ok in Hok2. rewrite HT in Hok2. destruct Hok2 as (lt & Hl & _). rewrite Et in Hl.
    destruct (sealed_in_lead C H Hg _ _ L _ _ (fits_sealed _ _ _ _ _ Hf) Hl) as (E & ? & ?).
    eapply acknowledge_wp; [done..|]. intros H' _ Hr' Ha. apply steady_sound. apply send_ack; [done|done|by left|done]. }
  apply wp_bind. eapply wp_mono; [by apply (append_wp H L r m)|..]; cbn beta; [| |done].
  2: { intros e r' Hf'. apply alive_ended. by exists H, L. }
  intros [lastNew []] r'; cbn [fst snd negb].
  - intros (El & Et' & HS' & j & lt & L' & Hf' & Hl & E & Hn & HnL). rewrite <- Et' in Hl.
    eapply acknowledge_wp; [done|done|exact Hf'|exact Hl|done..|]. intros H1 HeH Hr1 Ha. clear dependent H. rewrite <- El in Ha.
    apply wp_bind. eapply wp_mono; [apply (refreshIfNeeded_mild H1); [done|by rewrite HS']|..]; cbn beta.
    2: { intros e r2 [? _]. by apply alive_ended. }
    2: { intros r2 [? _]. by apply alive_halted. }
    intros _ r2 [Hr2 Hn2]. apply wp_bind. eapply wp_mono; [by apply persist_synced|..]; cbn beta; [| |done].
    2: { intros e r3 [? _]. by apply alive_ended. }
    intros _ r3 (Hr3 & Hw & _). apply steady_sound, send_ack; [done| |by left|done].
    destruct (rewrote_fields _ _ Hw) as (_ & -> & _). by rewrite (ne_term _ _ Hn2).
  - intros ->. assert (alive C i H0 r) as Hr by by exists H, L. apply wp_bind.
    unfold on_log. apply wp_zoom, wp_reads. rewrite ?set_log_id.
    destruct (conflictHint _ _); rewrite ?set_log_id; [|by apply alive_ended|by apply alive_halted..].
    apply sound_mild; [|done]. by apply mild_send_idle.
Qed.
(** *** Responses *)

Lemma track_wp H0 x p r :
  alive C i H0 r → (rn_state r = Leader → (0 < p_Match p)%N → p_Match p = matchOf r x) →
  wp (setProgress x p) (λ _ r', alive C i H0 r' ∧ rn_term r' = rn_term r) (λ _ _, False) (λ _, False) r.
Proof.
  intros (H & L & He & Hg & Hf) Hp. apply wp_modify. split; [|done]. exists H, L. split_and!; [done..|].
  apply fits_setProgress; [done|]. intros HS H1. specialize (Hp HS H1). rewrite Hp in *.
  by apply (ro_lead _ _ _ _ (fi_role _ _ _ _ _ Hf)).
Qed.

(** The leader counts an acknowledgement. *)
Lemma acknowledge_steady H0 from pr n r :
  alive C i H0 r → (from, rn_term r, N.to_nat n) ∈ ch_acks H0 → steady C i H0 (acknowledge from pr n) r.
Proof.
  intros Hr Ha. unfold acknowledge. cbv zeta. apply steady_bind.
  - destruct (_ <? _)%N; [|done]. apply steady_bind; [|intros _ r1 Hr1; by apply advance_steady].
    apply wp_modify. destruct Hr as (H & L & He & Hg & Hf). exists H, L. split_and!; [done..|].
    apply fits_setProgress; [done|]. cbn [p_Match]. intros _ _. apply acknowledged_spec. exists (N.to_nat n).
    split; [by apply (ex_acks _ _ _ He)|done].
  - intros [] r1 Hr1; [by apply mild_steady; [apply mild_broadcastAppend|]|].
    apply wp_bind, wp_get. destruct (_ <=? _)%N; [|done]. apply mild_steady; [|done]. apply mild_sendAppendWithRead.
Qed.

Lemma handleAppendResponse_wp H0 m r :
  good C H0 → alive C i H0 r → m ∈ ch_sent H0 → m_Type m = MsgAppendResp → m_Term m = rn_term r →
  steady C i H0 (handleAppendResponse m) r.
Proof.
  intros Hg0 Hr Hm HT Et. pose proof (gd_sent _ _ Hg0 m Hm) as Hok. unfold sent_ok in Hok. rewrite HT in Hok.
  unfold handleAppendResponse. apply wp_bind, wp_get. destruct (negb _); [done|].
  destruct (progressOf r (m_From m)) as [pr|] eqn:Ep; [|done]. apply wp_bind.
  assert (matchOf r (m_From m) = p_Match pr) as Em by (unfold matchOf; by rewrite Ep).
  assert (mild C i H0 (if negb (m_ReadID m =? 0)%N then ackRead (m_From m) (m_ReadID m) else ret tt : M RN unit)) as Hack.
  { destruct (negb _); [by apply mild_ackRead|by apply mild_ret]. }
  eapply wp_mono; [by apply Hack|..]; cbn beta.
  - intros _ r1 [Hr1 Hn]. destruct (m_Success m).
    { apply acknowledge_steady; [done|]. rewrite (ne_term _ _ Hn), <- Et. by apply Hok. }
    apply wp_bind, wp_reads. destruct (nextAfterRejection _ _ _); [|done|by apply alive_halted..]. cbv zeta.
    destruct (_ <? p_Next pr)%N; [|done]. apply steady_bind; [|intros _ r2 Hr2; by apply mild_steady; [apply mild_sendAppendWithRead|]].
    eapply wp_mono; [apply track_wp; [done|]|..]; cbn beta; [|by intros _ r2 [? _]|done..].
    intros _ _. by rewrite (ne_match _ _ Hn).
  - by intros _ r1 [? _].
  - intros r1 [? _]. by apply alive_halted.
Qed.

Lemma handleSnapshotResponse_wp H0 m r :
  good C H0 → alive C i H0 r → m ∈ ch_sent H0 → m_Type m = MsgSnapshotResp → m_Term m = rn_term r →
  steady C i H0 (handleSnapshotResponse m) r.
Proof.
  intros Hg0 Hr Hm HT Et. pose proof (gd_sent _ _ Hg0 m Hm) as Hok. unfold sent_ok in Hok. rewrite HT in Hok.
  unfold handleSnapshotResponse. apply wp_bind, wp_get. destruct (negb _); [done|].
  destruct (progressOf r (m_From m)) as [pr|] eqn:Ep; [|done]. cbv zeta. apply wp_bind.
  eapply wp_mono; [apply track_wp; [done|]|..]; cbn beta; [| |done..].
  { intros _ _. unfold matchOf. by rewrite Ep. }
  intros _ r1 [Hr1 Et1]. destruct (m_Success m); [|done]. apply acknowledge_steady; [done|].
  rewrite Et1, <- Et. by apply Hok.
Qed.
(** *** Snapshots *)

Definition snapshot_fits H L (t : Term) (snap : Snapshot) : Prop :=
  sealed C H t (N.to_nat (snap_LastIncludedIndex snap)) L ∧
  term_before L (snap_LastIncludedIndex snap) (snap_LastIncludedTerm snap) ∧
  vouched C H snap.

(** The same log, with another snapshot or another start. *)
Lemma durable_resnap H L (s s' : S) :
  durable C H i L s → hard_consistent s' → hard s' = hard s → represents L (disk s') →
  snapshot_fits H L (hs_Term (hard s)) (d_snapshot (disk s')) → durable C H i L s'.
Proof. intros Hd Hc Eh Hrep (? & ? & ?). split; rewrite ?Eh; try apply Hd; done. Qed.

(** A snapshot of the leader's takes the place of the log, unless the log has its end. *)
Lemma restored_log H L r j lt snap l' :
  good C H → core C H i L r → ch_leads H !! hs_Term (hard_of r) = Some (j, lt) →
  snapshot_fits H lt (hs_Term (hard_of r)) snap → (l_committed (rn_log r) < snap_LastIncludedIndex snap)%N →
  log_disk l' = disk_snapshot snap (log_disk (rn_log r)) →
  hard_consistent (l_storage l') → hard (l_storage l') = hard_of r →
  let n := N.to_nat (snap_LastIncludedIndex snap) in
  ∃ L', durable C H i L' (l_storage l') ∧ take n lt = take n L' ∧ n ≤ length lt ∧ n ≤ length L'.
Proof.
  intros Hg Hc Hl (Hs & Ht & Hcf) Hlt Ed Hhc Eh n. pose proof (co_dur _ _ _ _ _ Hc) as Hd.
  pose proof (co_log _ _ _ _ _ Hc) as Hok. pose proof (log_ok_base _ Hok) as HB. pose proof Hok as (_ & _ & HC & _).
  pose proof (du_rep _ _ _ _ _ Hd) as Hrep. unfold disk_of in Hrep. fold (log_disk (rn_log r)) in Hrep.
  pose proof (represents_last _ _ Hrep) as HLast. pose proof (sealed_length _ _ _ _ _ Hs) as Hn. fold n in Hn.
  destruct (gd_log _ _ Hg _ _ _ Hl) as (Hmlt & _ & _). unfold disk_snapshot in Ed.
  destruct (_ && _) eqn:E.
  - apply andb_prop in E as [Hle%N.leb_le HT%bool_decide_eq_true].
    rewrite (represents_term _ _ Hrep) in HT by lia.
    assert (term_before L (snap_LastIncludedIndex snap) (snap_LastIncludedTerm snap)) as HtL by (right; split; [lia|done]).
    assert (take n lt = take n L) as En by (symmetry; eapply term_before_agree; [apply Hd|done..]).
    exists L. split_and!; [|done|done|lia]. eapply durable_resnap; [exact Hd|done|done|by unfold log_disk in Ed; rewrite Ed|].
    unfold log_disk in Ed. rewrite Ed. cbn [d_snapshot]. split_and!; [|done|done]. by eapply sealed_take; [exact Hs|..|lia].
  - assert (take n lt = take n (take n lt)) as En by (by rewrite take_take, Nat.min_id).
    exists (take n lt). rewrite length_take, Nat.min_l by done. split_and!; [|done|done|done].
    unfold log_disk in Ed. eapply durable_overwrite; [done|exact Hd|exact Hl|done| |done|done| |right].
    + split; [apply take_prefix|]. intros m Em HmL Hm. rewrite length_take, Nat.min_l by done.
      destruct (decide (m ≤ n)) as [|Hgt]; [done|exfalso]. apply andb_false_iff in E as [E%N.leb_gt|E%bool_decide_eq_false].
      { unfold log_disk in *. lia. }
      apply E. rewrite (represents_term _ _ Hrep) by lia. rewrite (take_eq_lookup m _ L lt Em) by lia.
      destruct Ht as [[? _]|[_ Ht]]; [lia|done].
    + rewrite Ed. split_and!; cbn; fold n.
      * rewrite length_take. lia.
      * rewrite drop_ge; [done|]. rewrite length_take. lia.
      * intros _. rewrite lookup_take_lt by lia. destruct Ht as [[? _]|[_ Ht]]; [lia|done].
    + rewrite Ed. cbn [d_snapshot]. cbv zeta. split_and!; [|by eapply term_before_take; [exact Ht|exact En|]|done].
      eapply sealed_take; [exact Hs|exact En|]. rewrite length_take. lia.
Qed.

Lemma restore_wp H L r m snap :
  good C H → fits C H i L r → rn_state r = Follower → m_Term m = rn_term r → msg_ok m →
  sent_ok C H m → m_Type m = MsgSnapshotReq → m_Snapshot m = Some snap →
  (l_committed (rn_log r) < snap_LastIncludedIndex snap)%N →
  wp (on_log (log_restore snap))
     (λ _ r', rn_term r' = rn_term r ∧ rn_state r' = Follower ∧ vouched C H snap ∧
        l_applied (rn_log r') = snap_LastIncludedIndex snap ∧ let n := N.to_nat (snap_LastIncludedIndex snap) in
        ∃ j lt L', fits C H i L' r' ∧ ch_leads H !! rn_term r = Some (j, lt) ∧
          take n lt = take n L' ∧ n ≤ length lt ∧ n ≤ length L')
     (λ _ r', fits C H i L r' ∧ rn_term r' = rn_term r) (λ _, False) r.
Proof.
  intros Hg Hf HS Et (_ & _ & _ & Hmok) Hm HT Em Hlt. unfold sent_ok in Hm. rewrite HT in Hm.
  destruct Hm as (lt & snap' & Hl & Em' & Hb & Hs & Hcf). assert (snap' = snap) as -> by congruence.
  destruct (proj1 Hmok snap Em) as [Hw [[_ Hnorm] _]]. rewrite Et in Hl, Hs. pose proof Hf as [Hc [Et' Ev'] Hro].
  apply wp_zoom. eapply wp_mono; [apply wp_and; [apply log_restore_wp; [apply Hc|done|done]|
    apply log_quiet_restore, (du_hard _ _ _ _ _ (co_dur _ _ _ _ _ Hc))]|..]; cbn beta.
  - intros _ l' [(Hok' & _ & _ & Ed & Ec & Ea) [Hhc Eh]]. do 3 (split; [done|]). split; [done|].
    rewrite Et' in Hs, Hl.
    destruct (restored_log H L r (m_From m) lt snap l' Hg Hc Hl) as (L' & Hd' & E & Hn & HnL); [by split_and!|done..|].
    exists (m_From m), lt, L'. rewrite Et'. split_and!; [|done..].
    split; [|unfold in_sync, hard_of, disk_of in *; cbn; by rewrite Eh|split; cbn; rewrite HS; try done].
    + destruct (co_log _ _ _ _ _ Hc) as (_ & _ & HA & _).
      eapply (core_set_log C i H L L' l' r Hc Hok' Hd' Eh); rewrite ?Ec, ?Ea; [|lia|lia].
      by eapply sealed_take; [exact Hs|..].
    + intros _. apply (ro_progress _ _ _ _ Hro). by rewrite HS.
  - intros _ l' [(Hok' & Hsame) [Hhc Eh]]. split; [|done]. by apply fits_relog.
  - by intros l' [[] _].
Qed.
Lemma alive_pending H0 snap r :
  alive C i H0 r → snap ∈ ch_snaps H0 → (snap_LastIncludedIndex snap ≤ l_applied (rn_log r))%N →
  alive C i H0 (set_appliedSnapshot (Some snap) r).
Proof.
  intros (H & L & He & Hg & Hf) Hsn Hle. exists H, L. split_and!; [done..|]. pose proof Hf as [Hc Hs Hro].
  split; [|done|split; apply Hro]. split; try apply Hc. cbn. intros x [= <-].
  split; [by rewrite (ex_snaps _ _ _ He)|done].
Qed.

Lemma handleSnapshotRequest_wp H0 m r :
  alive C i H0 r → m ∈ ch_sent H0 → m_Type m = MsgSnapshotReq → m_Term m = rn_term r → msg_ok m →
  wp (handleSnapshotRequest m) (λ _, alive C i H0) (ended C i H0) (halted C i H0) r.
Proof.
  intros Hr0 Hm HT Et0 Hmok. unfold handleSnapshotRequest. heed r.
  destruct (m_Snapshot m) as [snap|] eqn:Em; [|by apply alive_ended].
  destruct Hr as (H & L & He & Hg & Hf). pose proof (received C i H0 H m He Hg Hm) as Hok.
  assert (∃ lt, ch_leads H !! rn_term r = Some (m_From m, lt)) as [lt Hl].
  { pose proof Hok as Hok2. unfold sent_ok in Hok2. rewrite HT, Et in Hok2. destruct Hok2 as (lt & ? & Hl & _). by exists lt. }
  assert (∀ r' : RN, fits C H i L r' → rn_term r' = rn_term r →
    wp (send (snapshotRespMsg (m_From m) true (l_committed (rn_log r')))) (λ _, alive C i H0) (ended C i H0) (halted C i H0) r') as Hold.
  { intros r' Hf' Et'. rewrite <- Et' in Hl.
    destruct (sealed_in_lead C H Hg _ _ L _ _ (fits_sealed _ _ _ _ _ Hf') Hl) as (E & ? & ?).
    eapply acknowledge_wp; [done..|]. intros H' _ Hr' Ha. apply steady_sound. apply send_ack; [done|done|by right|done]. }
  destruct (N.leb_spec (snap_LastIncludedIndex snap) (l_committed (rn_log r))) as [Hle|Hgt]; [by apply Hold|].
  apply wp_bind, wp_try. eapply wp_mono; [by apply (restore_wp H L r m snap)|..]; cbn beta; [| |done].
  2: { intros e r' [Hf' Et']. destruct (errorsIs e _); [apply wp_bind, wp_get; by apply Hold|].
    apply alive_ended. by exists H, L. }
  clear Hold. intros _ r' (Et' & HS' & [Hcf Hsn] & Ea & j & lt' & L' & Hf' & Hl' & E & Hn & HnL). rewrite <- Et' in Hl'.
  eapply acknowledge_wp; [done|done|exact Hf'|exact Hl'|done..|]. intros H1 HeH Hr1 Ha.
  assert (snap ∈ ch_snaps H1) as Hsn1 by (rewrite (ex_snaps _ _ _ HeH); destruct Hsn; [lia|done]).
  clear dependent H.
  assert (wp (if negb (Configuration_IsEmpty (snap_Config snap))
      then setConfiguration (snap_Config snap) (snap_LastIncludedIndex snap) else ret tt)
    (λ _ r2, alive C i H1 r2 ∧ neutral r' r2) (λ _ r2, alive C i H1 r2 ∧ neutral r' r2)
    (λ r2, alive C i H1 r2 ∧ neutral r' r2) r') as Hconf.
  { destruct Hcf as [->| ->]; [|by apply mild_here]. destruct (negb _); [|by apply mild_here].
    apply setConfiguration_mild; [done|by rewrite HS']. }
  apply wp_bind. eapply wp_mono; [exact Hconf|..]; cbn beta.
  2: { intros e r2 [? _]. by apply alive_ended. }
  2: { intros r2 [? _]. by apply alive_halted. }
  intros _ r2 [Hr2 Hn2]. apply wp_bind, wp_modify.
  assert (alive C i H1 (set_appliedSnapshot (Some snap) r2)) as Hr3.
  { apply alive_pending; [done..|]. by rewrite (ne_log _ _ Hn2), Ea. }
  apply wp_bind. eapply wp_mono; [by apply persist_synced|..]; cbn beta; [| |done].
  2: { intros e r3 [? _]. by apply alive_ended. }
  intros _ r3 (Hr4 & Hw & _). apply steady_sound, send_ack; [done| |by right|done].
  destruct (rewrote_fields _ _ Hw) as (_ & -> & _). cbn. by rewrite (ne_term _ _ Hn2).
Qed.
(** *** Local snapshots *)

Lemma fits_resnap H L l' r :
  fits C H i L r → log_ok l' → represents L (log_disk l') → l_committed l' = l_committed (rn_log r) →
  (l_applied (rn_log r) ≤ l_applied l')%N →
  snapshot_fits H L (rn_term r) (d_snapshot (log_disk l')) →
  hard_consistent (l_storage l') → hard (l_storage l') = hard_of r → fits C H i L (set_log l' r).
Proof.
  intros [Hc [Et Ev] Hro] Hok Hrep Ec Ha Hs Hhc Eh. rewrite Et in Hs.
  split; [|unfold in_sync, hard_of, disk_of in *; cbn; by rewrite Eh|split; apply Hro].
  eapply core_set_log; [exact Hc|done| |done|rewrite Ec; apply Hc|by rewrite Ec|done].
  eapply durable_resnap; [apply Hc|done..].
Qed.

Lemma save_wp H L snap r :
  fits C H i L r → snap_LastIncludedIndex snap = l_applied (rn_log r) → l_applied (rn_log r) ≠ 0%N →
  log_term_of (rn_log r) (l_applied (rn_log r)) = Some (snap_LastIncludedTerm snap) → snap_Config snap = C →
  snap ∈ ch_snaps H →
  wp (on_disk (SaveSnapshot snap))
     (λ _ r', fits C H i L r' ∧ d_snapshot (log_disk (rn_log r')) = snap) (λ _ r', fits C H i L r') (λ _, False) r.
Proof.
  intros Hf Ei Hnz HT HC Hin. pose proof (fi_core _ _ _ _ _ Hf) as Hc. pose proof (co_log _ _ _ _ _ Hc) as Hok.
  pose proof (co_dur _ _ _ _ _ Hc) as Hd. pose proof (du_rep _ _ _ _ _ Hd) as Hrep. pose proof Hok as (_ & _ & HA & _).
  apply wp_zoom. eapply wp_mono; [apply wp_and; [apply (log_save_wp (rn_log r) snap); [done|done| |by rewrite HC]|
    apply log_quiet_snapshot, (du_hard _ _ _ _ _ Hd)]|..]; cbn beta.
  - unfold log_term_of in HT. by rewrite (proj2 (N.eqb_neq _ _)) in HT.
  - intros _ l' [(Hok' & _ & Ec & Ea & Ed) [Hhc Eh]]. split; [|cbn; by rewrite Ed].
    apply fits_resnap; try done; rewrite ?Ed; [exact Hrep|by rewrite Ea|]. cbn [d_snapshot]. split_and!.
    + eapply sealed_le; [exact (fits_sealed _ _ _ _ _ Hf)|]. lia.
    + rewrite Ei. eapply log_term_before; [exact Hok|exact Hrep|exact HT].
    + split; [by left|by right].
  - intros _ l' [(Hok' & Hsame) [Hhc Eh]]. by apply fits_relog.
  - by intros l' [[] _].
Qed.

Lemma compact_wp H L upto r :
  fits C H i L r → (upto ≤ snap_LastIncludedIndex (d_snapshot (log_disk (rn_log r))))%N →
  wp (on_log (log_compact_to upto)) (λ _ r', fits C H i L r') (λ _ r', fits C H i L r') (λ _, False) r.
Proof.
  intros Hf Hu. pose proof (fi_core _ _ _ _ _ Hf) as Hc. pose proof (co_log _ _ _ _ _ Hc) as Hok.
  pose proof (co_dur _ _ _ _ _ Hc) as Hd. pose proof (du_rep _ _ _ _ _ Hd) as Hrep.
  apply wp_zoom. eapply wp_mono; [apply wp_and; [apply log_compact_wp; [done|done]|
    apply log_quiet_compact_to, (du_hard _ _ _ _ _ Hd)]|..]; cbn beta.
  - intros _ l' [(Hok' & Hext & Ec & Ed) [Hhc Eh]].
    assert (d_snapshot (disk_compact upto (log_disk (rn_log r))) = d_snapshot (log_disk (rn_log r))) as Es.
    { unfold disk_compact. by case_match. }
    apply fits_resnap; try done; rewrite ?Ed.
    + apply represents_compact; [exact Hrep|]. destruct Hok as (_ & ? & ? & ?). unfold log_disk in *. lia.
    + apply Hext.
    + rewrite Es. destruct (fi_sync _ _ _ _ _ Hf) as [-> _]. split_and!; apply Hd.
  - intros _ l' [(Hok' & Hsame) [Hhc Eh]]. by apply fits_relog.
  - by intros l' [[] _].
Qed.

(** The snapshot that a node would take now. *)
Definition snapshot_of r (data : bytes) (snap : Snapshot) : Prop :=
  snap_LastIncludedIndex snap = l_applied (rn_log r) ∧ snap_Data snap = data ∧
  log_term_of (rn_log r) (l_applied (rn_log r)) = Some (snap_LastIncludedTerm snap) ∧ snap_Config snap = C.

Lemma CreateSnapshot_steady H0 data r :
  alive C i H0 r → (∀ snap, snapshot_of r data snap → snap ∈ ch_snaps H0) →
  steady C i H0 (CreateSnapshot data) r.
Proof.
  intros Hr Hnew. pose proof Hr as (H & L & He & Hg & Hf). pose proof (fi_core _ _ _ _ _ Hf) as Hc.
  pose proof (co_log _ _ _ _ _ Hc) as Hok.
  assert (∀ r', fits C H i L r' → alive C i H0 r') as Hfine by (intros; by exists H, L).
  unfold CreateSnapshot. apply wp_bind, wp_get. cbv zeta.
  destruct (N.eqb_spec (l_applied (rn_log r)) 0) as [|Hnz]; [done|].
  apply wp_bind, wp_wrapErr, wp_zoom, wp_reads. pose proof (term_at_spec (rn_log r) (l_applied (rn_log r)) Hok) as HT.
  destruct (term_at _ _) as [t|e| |]; rewrite ?set_log_id; [|done|by apply alive_halted..].
  apply wp_bind, wp_try. eapply wp_mono; [apply (save_wp H L); [done|done|done|done|apply Hc|]|..]; cbn beta; [| | |done].
  3: { intros e r1 Hf1. destruct (errorsIs e _); by apply Hfine. }
  1: { rewrite (ex_snaps _ _ _ He). apply Hnew. split_and!; [done..|apply Hc]. }
  intros _ r1 [Hf1 Es]. destruct (_ && _) eqn:E; [by apply Hfine|].
  apply wp_bind, wp_get. destruct (_ <=? firstIndex _ -u 1)%N; [by apply Hfine|]. apply wp_bind, wp_wrapErr.
  eapply wp_mono; [apply (compact_wp H L); [done|]|..]; cbn beta; [|intros; by apply Hfine..|done].
  rewrite Es. cbn. destruct (N.ltb_spec 0 (c_SnapshotCatchUpEntries (rn_cfg r))); [|done].
  destruct (N.leb_spec (l_applied (rn_log r)) (c_SnapshotCatchUpEntries (rn_cfg r))); [done|].
  pose proof (log_ok_disk _ Hok) as (_ & HW & _). destruct Hok as (_ & _ & ? & ?).
  rewrite u64_sub_small by lia. lia.
Qed.

Lemma ApplyTo_steady H0 n r : alive C i H0 r → steady C i H0 (ApplyTo n) r.
Proof.
  intros Hr. pose proof Hr as (H & L & He & Hg & Hf). pose proof (fi_core _ _ _ _ _ Hf) as Hc.
  pose proof (co_log _ _ _ _ _ Hc) as Hok. unfold steady, ApplyTo, on_log. apply wp_zoom, wp_bind, wp_get.
  destruct (_ || _) eqn:E; [apply wp_ret; by rewrite set_log_id|].
  destruct (N.ltb_spec (l_committed (rn_log r)) n) as [|Hle]; [change (halted C i H0 (set_log (rn_log r) r)); rewrite set_log_id; by apply alive_halted|].
  apply wp_modify. exists H, L. split_and!; [done..|]. pose proof (co_dur _ _ _ _ _ Hc) as Hd.
  apply fits_resnap; [done| |apply Hd|done| | |apply Hd|done].
  - apply orb_false_iff in E as [_ E%N.leb_gt]. unfold log_ok, log_disk in *. cbn.
    destruct Hok as (? & ? & ? & ?). split_and!; try done. lia.
  - cbn. apply orb_false_iff in E as [_ E%N.leb_gt]. lia.
  - destruct (fi_sync _ _ _ _ _ Hf) as [-> _]. split_and!; apply Hd.
Qed.
(** *** Whole calls *)

Definition term_fits m r : Prop :=
  m_Term m = rn_term r ∨ (m_PreVote m = true ∧ (m_Type m = MsgVoteReq ∨ m_Type m = MsgVoteResp)).

Lemma dispatch_wp H0 m r :
  good C H0 → alive C i H0 r → m ∈ ch_sent H0 → msg_ok m → term_fits m r →
  m_To m = i ∨ m_To m = None_ → (last_of r + 2 < W64)%N →
  wp (dispatch m) (λ _, alive C i H0) (ended C i H0) (halted C i H0) r.
Proof.
  intros Hg0 Hr Hm Hok Ht Hto Hw. unfold dispatch, term_fits in *. destruct (m_Type m) eqn:ET.
  - apply handleVoteRequest_wp; [done..|]. intros HP. destruct Ht as [|[? _]]; [done|congruence].
  - apply handleVoteResponse_wp; [done..| |done|done]. intros HP. destruct Ht as [|[? _]]; [done|congruence].
  - apply handleAppendRequest_wp; try done. by destruct Ht as [|[_ []]].
  - apply steady_sound, handleAppendResponse_wp; try done. by destruct Ht as [|[_ []]].
  - apply handleSnapshotRequest_wp; try done. by destruct Ht as [|[_ []]].
  - apply steady_sound, handleSnapshotResponse_wp; try done. by destruct Ht as [|[_ []]].
  - by apply alive_ended.
Qed.

Lemma stepHigherTerm_wp H0 m r :
  alive C i H0 r → (rn_term r < m_Term m)%N →
  wp (stepHigherTerm m) (λ _ r', alive C i H0 r' ∧ last_of r' = last_of r ∧ term_fits m r')
     (ended C i H0) (halted C i H0) r.
Proof.
  intros Hr Hlt. assert (∀ lead, wp (becomeFollower (m_Term m) lead ;;; persistHardState)
    (λ _ r', alive C i H0 r' ∧ last_of r' = last_of r ∧ term_fits m r') (ended C i H0) (halted C i H0) r) as Hnew.
  { intros lead. eapply wp_mono; [apply newer_term_wp; [done|lia]|..]; cbn beta; [| |done].
    - intros _ r' (? & _ & ? & _ & Hl & _). split_and!; [done|unfold last_of; by rewrite Hl|by left].
    - intros e r' [? E]. split; [done|by rewrite E]. }
  unfold stepHigherTerm, term_fits in *.
  destruct (m_Type m) eqn:ET, (m_PreVote m) eqn:EP, (m_Granted m); try apply Hnew; apply wp_ret; split_and!; auto.
Qed.

Lemma stepLowerTerm_wp H0 m r :
  alive C i H0 r → wp (stepLowerTerm m) (λ _, alive C i H0) (ended C i H0) (halted C i H0) r.
Proof.
  intros Hr. apply wp_bind. assert (mild C i H0 (match m_Type m with
   | MsgAppendReq | MsgSnapshotReq => send (appendRespMsg (m_From m) false 0 0 0 0)
   | MsgVoteReq => send (voteRespMsg (m_From m) 0 (m_PreVote m) false)
   | _ => ret tt
   end : M RN unit)) as Hs.
  { destruct (m_Type m); try apply mild_ret; apply mild_send_idle; unfold idle_message; cbn; auto. }
  eapply wp_mono; [by apply Hs|..]; cbn beta; intros; destruct_and?;
    [by apply alive_ended..|by apply alive_halted].
Qed.

Lemma Step_wp H0 m r :
  good C H0 → alive C i H0 r → m ∈ ch_sent H0 → msg_ok m → (last_of r + 2 < W64)%N →
  wp (Step m) (λ _, alive C i H0) (ended C i H0) (halted C i H0) r.
Proof.
  intros Hg0 Hr Hm Hok Hw. unfold Step. apply wp_bind, wp_get.
  assert (rn_id r = i) as -> by (destruct Hr as (H & L & _ & _ & Hf); apply Hf).
  destruct (negb _ && negb _) eqn:Eto; [by apply alive_ended|].
  assert (m_To m = i ∨ m_To m = None_) as Hto.
  { apply andb_false_iff in Eto as [E|E]; apply negb_false_iff, N.eqb_eq in E; auto. }
  destruct (N.ltb_spec (rn_term r) (m_Term m)) as [Hlt|Hge].
  - apply wp_bind. eapply wp_mono; [by apply stepHigherTerm_wp|..]; cbn beta; [|done..].
    intros _ r' (Hr' & EL & Ht). apply dispatch_wp; try done. by rewrite EL.
  - destruct (N.ltb_spec (m_Term m) (rn_term r)); [by apply stepLowerTerm_wp|].
    apply dispatch_wp; try done. left. lia.
Qed.

Lemma Campaign_wp H0 r :
  alive C i H0 r → (last_of r + 2 < W64)%N → wp Campaign (λ _, alive C i H0) (ended C i H0) (halted C i H0) r.
Proof. intros Hr Hw. apply wp_bind, wp_get. by apply campaign_wp. Qed.

Lemma Tick_wp H0 r :
  alive C i H0 r → (last_of r + 2 < W64)%N → wp Tick (λ _, alive C i H0) (ended C i H0) (halted C i H0) r.
Proof.
  intros Hr Hw. apply wp_bind, wp_get. destruct (bool_decide _).
  { apply sound_mild; [apply mild_tickHeartbeat|done]. }
  unfold tickElection. apply wp_bind, wp_modify, wp_bind, wp_get.
  set (r1 := set_electionElapsed _ r).
  assert (alive C i H0 r1) as Hr1 by (eapply alive_neutral; [exact Hr|by split|done]).
  assert (last_of r1 = last_of r) as EL by done. clearbody r1.
  destruct (_ || _); [done|]. apply wp_bind, wp_modify.
  apply campaign_wp; [done|eapply alive_neutral; [exact Hr1|by split|done]|]. by rewrite <- EL in Hw.
Qed.
(** What a driver may ask for while the membership is fixed. *)
Definition op_fits H0 (o : op) r : Prop :=
  match o with
  | OpStep m => m ∈ ch_sent H0 ∧ msg_ok m
  | OpPropose cmd => (N.of_nat (length cmd) < W64)%N
  | OpProposeConfChange _ => False
  | OpCreateSnapshot data => ∀ snap, snapshot_of r data snap → snap ∈ ch_snaps H0
  | _ => True
  end.

Lemma exec_wp H0 o r :
  good C H0 → alive C i H0 r → op_fits H0 o r → room_for o r →
  wp (exec o) (λ _, alive C i H0)
     (λ e r', halted C i H0 r' ∧ (tolerates o e = true → alive C i H0 r')) (halted C i H0) r.
Proof.
  intros Hg0 Hr Ho Hw.
  assert (∀ m : M RN unit, wp m (λ _, alive C i H0) (λ _, alive C i H0) (halted C i H0) r →
    wp m (λ _, alive C i H0) (λ e r', halted C i H0 r' ∧ (tolerates o e = true → alive C i H0 r'))
      (halted C i H0) r) as Hsteady.
  { intros m Hm. eapply wp_mono; [exact Hm|..]; cbn beta; [done| |done]. intros e r' Hr'.
    split; [by apply alive_halted|done]. }
  assert (∀ A (m : M RN A), steady C i H0 m r →
    wp (discard m) (λ _, alive C i H0) (λ _, alive C i H0) (halted C i H0) r) as Hdisc.
  { intros A m Hm. apply wp_bind. eapply wp_mono; [exact Hm|..]; done. }
  assert (∀ x, (x + 3 < W64)%N → (x + 2 < W64)%N) as Hless by (intros; lia).
  destruct o; cbn [exec op_fits tolerates room_for] in *; try apply Hless in Hw.
  - eapply wp_mono; [by apply Tick_wp|..]; cbn beta; [done| |done]. by intros e r' [? _].
  - destruct Ho. by apply Step_wp.
  - by apply Hsteady, Hdisc, propose_steady.
  - done.
  - apply Hsteady. apply mild_steady; [apply mild_ReadIndex|done].
  - eapply wp_mono; [by apply Campaign_wp|..]; cbn beta; [done| |done]. by intros e r' [? _].
  - by apply Hsteady, ApplyTo_steady.
  - by apply Hsteady, Hdisc, CreateSnapshot_steady.
  - apply Hsteady, Hdisc. apply wp_bind, wp_get, wp_bind, wp_modify, wp_ret.
    eapply alive_neutral; [exact Hr|by split|done].
  - apply Hsteady, Hdisc. apply wp_bind, wp_get, wp_bind, wp_modify, wp_ret.
    eapply alive_neutral; [exact Hr|by split|done].
Qed.

(** *** Restarting *)

Lemma newRaftLog_fits H L s hs l :
  durable C H i L s → storage_ok s → InitialState s = Ret (hs, d_snapshot (disk s)) → hs = hard s →
  newRaftLog s = Ret l →
  l_storage l = s ∧ log_ok l ∧ sealed C H (hs_Term (hard s)) (N.to_nat (l_committed l)) L ∧
  (hs_Commit (hard s) ≤ l_committed l)%N.
Proof.
  intros Hd Hs EI -> El. pose proof (represents_last _ _ (du_rep _ _ _ _ _ Hd)) as HLast.
  pose proof (sealed_length _ _ _ _ _ (du_snap _ _ _ _ _ Hd)). pose proof (sealed_length _ _ _ _ _ (du_commit _ _ _ _ _ Hd)).
  destruct (newRaftLog_wp s Hs) as (l' & El' & Hok & Es & _); [lia|]. assert (l' = l) as -> by congruence.
  split_and!; [done..| |]; unfold newRaftLog in El; rewrite EI, (log_last s Hs) in El; injection El as <-; cbn;
    destruct (N.ltb_spec (snap_LastIncludedIndex (d_snapshot (disk s))) (hs_Commit (hard s))); try lia.
  - rewrite N.min_l by lia. apply Hd.
  - apply Hd.
Qed.

Lemma NewRawNode_fits H L s cfg g r :
  good C H → durable C H i L s → storage_ok s → c_ID cfg = i → c_Bootstrap cfg = C →
  NewRawNode cfg (Some s) (Some g) = Ret r → alive C i H r.
Proof.
  intros Hg Hd Hs Ei Eb. unfold NewRawNode. destruct (validate cfg (Some s) (Some g)) eqn:EV; [|done..]. cbn [obind].
  assert (i ≠ None_) as Hnz.
  { unfold validate in EV. rewrite Ei in EV. by destruct (N.eqb_spec i None_). }
  destruct (log_initial s Hs) as [hs EI]. pose proof (hard_initial _ _ _ (du_hard _ _ _ _ _ Hd) EI) as ->. rewrite EI.
  destruct (newRaftLog s) as [l| | |] eqn:El; [|done..]. cbn [obind].
  destruct (newRaftLog_fits H L s _ l Hd Hs EI eq_refl El) as (Es & Hok & Hsl & Hle). subst s.
  match goal with |- context [mkRawNode ?a ?b ?c ?d ?e ?f ?g ?h ?i ?j ?k ?l ?m ?n ?o ?p ?q ?s ?t ?u ?v] =>
    set (r0 := mkRawNode a b c d e f g h i j k l m n o p q s t u v) end.
  assert (fits C H i L r0) as Hf0.
  { split; [|done|by split]. split; try done.
    - subst r0. cbn [rn_conf]. rewrite Eb. destruct (proj1 (du_snap_from _ _ _ _ _ Hd)) as [E|E]; rewrite E; [by case_match|done].
    - by intros m ?%not_elem_of_nil. }
  assert (alive C i H r0) as Hr0 by by eapply alive_now.
  assert (rn_term r0 = hs_Term (hard (l_storage l)) ∧ rn_state r0 = Follower) as [Et HS] by done. clearbody r0.
  assert (wp (refreshConfiguration ;;; becomeFollower (hs_Term (hard (l_storage l))) None_)
    (λ _, alive C i H) (λ _ _, True) (λ _, True) r0) as Hw.
  { apply wp_bind. eapply wp_mono; [apply (refreshConfiguration_mild H); [done|by rewrite HS]|..]; [|done..].
    cbn beta. intros _ r1 [Hr1 Hn]. rewrite <- Et, <- (ne_term _ _ Hn).
    eapply wp_mono; [by apply follow_wp|..]; [|done..]. cbn beta. by intros _ r2 [? _]. }
  unfold wp in Hw. destruct ((refreshConfiguration ;;; _) r0) as [[] r1]; [|done..]. by intros [= <-].
Qed.
End calls.
