(* ===== verification/StateMachineSafety.v ===== *)
(** * State machine safety

    The theorems of Raft about whole runs of a cluster whose membership is fixed: the
    schedules of Cluster.v, with any loss, duplication, reordering, crash, restart,
    snapshot and compaction, from empty disks.

    Every reachable cluster has a history (LogHistory.v) that its nodes and disks fit and
    that only grows.  From it follow Log Matching, Leader Completeness and State Machine
    Safety, the last two across time: what one node committed at some moment binds every
    node at every later moment. *)

From S2P Require Import Prelude Varint Types Config Storage RaftLog RawNode Membership NodeSafety Votes Cluster ElectionSafety ClusterSafety LogHistory LogSteps LogCalls.

(** A message fit for a restricted set of configurations is fit for any. *)
Lemma msg_ok_any `{HV : Vetting} m : msg_ok m → msg_ok (H := any_conf) m.
Proof.
  intros (H1 & H2 & H3 & H4 & _). split_and!; [done..| | |done|done].
  - eapply Forall_impl; [exact H3|]. intros e He Ht. destruct (He Ht) as (cc & Hcc & Hw & _). exists cc. by split.
  - intros snap Hs. destruct (H4 snap Hs) as [? [[[He _] Hn] _]]. split; [done|]. split; [|done]. by split; [split|].
Qed.

Section safety.
Context `{HVet : Vetting} (C : Configuration) (Hfixed : IsJoint C = false) (Hconf : conf_ok C) {S G : Type}.
Context `{Hst : Storage S} `{HH : !HardStateLaws S} `{HL : !LogLaws S} `{Hrand : Rand G}.
Local Abbreviation RN := (RawNode S G).
Implicit Types (H : chronicle) (L : list LogEntry) (r : RN) (c : cluster S G).

(** ** Schedules *)

(** A disk no node has written its log on. *)
Definition pristine (s : S) : Prop :=
  disk_ready s ∧ hard_consistent s ∧ hs_Commit (hard s) = 0%N ∧
  d_base (disk s) = 0%N ∧ d_entries (disk s) = [] ∧
  snap_LastIncludedIndex (d_snapshot (disk s)) = 0%N ∧
  snap_LastIncludedTerm (d_snapshot (disk s)) = 0%N ∧
  Configuration_IsEmpty (snap_Config (d_snapshot (disk s))) = true.

(** Nobody asks for another membership.  A command is a slice, and so shorter than 2^64. *)
Definition act_fixed (a : act G) : Prop :=
  match a with
  | ActOp _ (OpPropose cmd) => (N.of_nat (length cmd) < W64)%N
  | ActOp _ (OpProposeConfChange _) => False
  | ActRestart _ cfg _ => c_Bootstrap cfg = C
  | _ => True
  end.

(** ** The history of a cluster *)

Definition remembers H (i : NodeID) (st : status S G) : Prop :=
  match st with
  | Up r => ∃ L, fits C H i L r
  | Down s => ∃ L, durable C H i L s
  end.

Definition chronicled H c : Prop :=
  good C H ∧ (∀ m, m ∈ cl_soup c → m ∈ ch_sent H) ∧
  ∀ i st, cl_nodes c !! i = Some st → remembers H i st.

(** Histories grow by what a node does, and by the snapshots that are taken. *)
Definition grows_by H H' : Prop := (∃ j, extends j H H') ∨ ∃ snap, H' = add_snap snap H.
Definition grown : chronicle → chronicle → Prop := rtc grows_by.

Lemma remembers_mono j H H' i st : remembers H i st → extends j H H' → j ≠ i → remembers H' i st.
Proof.
  destruct st; intros [L Hr] He Hj; exists L; [by eapply fits_mono|by eapply durable_mono].
Qed.

Lemma chronicled_set i st soup wins H H' c :
  chronicled H c → extends i H H' → good C H' → remembers H' i st →
  (∀ m, m ∈ soup → m ∈ cl_soup c ∨ m ∈ ch_sent H') →
  chronicled H' (mkCluster (<[i := st]> (cl_nodes c)) soup wins).
Proof.
  intros (_ & Hs & Hn) He Hg Hst' Hsoup. split_and!; [done|..]; cbn.
  - intros m [Hm|]%Hsoup; [|done]. by apply (ex_sent _ _ _ He), Hs.
  - intros j st' [[<- <-]|[Hj Hx]]%lookup_insert_Some; [done|]. by eapply remembers_mono; eauto.
Qed.

Lemma remembers_start H i (s : S) :
  H = mkChronicle ∅ ∅ ∅ [] [] [] → pristine s → remembers H i (Down s).
Proof.
  intros -> (_ & Hc & Ecm & Eb & Ee & Es & Et & Ecf). exists []. split; try done; cbn.
  - split_and!; [by rewrite Eb|by rewrite Ee, drop_nil|by rewrite Eb].
  - by intros ? ? ? ?%not_elem_of_nil.
  - left. by rewrite Ecm.
  - left. by rewrite Es.
  - left. done.
  - split; [by right|by left].
Qed.

Lemma chronicled_start (disks : gmap NodeID S) :
  map_Forall (λ _, pristine) disks → ∃ H, ch_snaps H = [] ∧ chronicled H (start_cluster disks).
Proof.
  intros Hd. exists (mkChronicle ∅ ∅ ∅ [] [] []). split; [done|]. split_and!; cbn.
  - split; cbn; try done; try by intros *; rewrite lookup_empty.
    all: intros *; by intros ?%not_elem_of_nil.
  - by intros m ?%not_elem_of_nil.
  - intros i st Hi. rewrite lookup_fmap in Hi. destruct (disks !! i) eqn:E; simplify_eq/=.
    eapply (remembers_start _ i s); [done|by eapply Hd].
Qed.

(** *** Snapshots taken *)

Lemma remembers_noted snap H i st : remembers H i st → remembers (add_snap snap H) i st.
Proof.
  assert (∀ L (s : S), durable C H i L s → durable C (add_snap snap H) i L s) as Hd.
  { intros L s []. split; try assumption. by apply add_snap_vouched. }
  destruct st; cbn; intros [L Hr]; exists L; [|by apply Hd]. destruct Hr as [[] ? []].
  split; [split; try assumption; [by apply Hd|]|assumption|by split].
  intros x Hx. destruct (co_pending x Hx). split; [by apply elem_of_cons; right|done].
Qed.

Lemma chronicled_noted snap H c : chronicled H c → chronicled (add_snap snap H) c.
Proof.
  intros (Hg & Hs & Hn). split_and!; [by apply add_snap_good|exact Hs|]. intros i st Hi. by apply remembers_noted, Hn.
Qed.

(** The snapshot that a call will take joins the history first. *)
Lemma snapshot_noted H r o c :
  chronicled H c →
  ∃ H1, chronicled H1 c ∧ (H1 = H ∨ grows_by H H1) ∧
    (∀ data snap, o = OpCreateSnapshot data → snapshot_of C r data snap → snap ∈ ch_snaps H1) ∧
    (∀ snap, snap ∈ ch_snaps H1 → snap ∈ ch_snaps H ∨ ∃ data, o = OpCreateSnapshot data ∧ snapshot_of C r data snap).
Proof.
  intros Hc.
  assert ((∀ data snap, o = OpCreateSnapshot data → ¬ snapshot_of C r data snap) ∨
          ∃ data snap, o = OpCreateSnapshot data ∧ snapshot_of C r data snap) as [Hno|(data & snap & -> & Hsn)].
  { destruct o; try (left; congruence). destruct (log_term_of (rn_log r) (l_applied (rn_log r))) as [t|] eqn:E.
    - right. exists data, (mkSnapshot (l_applied (rn_log r)) t C data). split; [done|]. by split_and!.
    - left. intros d snap _ (_ & _ & Ht & _). congruence. }
  - exists H. split_and!; [done|by left|intros data snap E Hs; by destruct (Hno data snap)|by left].
  - exists (add_snap snap H). split_and!; [by apply chronicled_noted|right; right; by exists snap|..]; cbn.
    + intros d x [= <-] (E1 & E2 & E3 & E4). apply elem_of_cons. left. destruct Hsn as (F1 & F2 & F3 & F4).
      rewrite E3 in F3. injection F3 as F3. destruct x, snap. cbn in *. congruence.
    + intros x [->|]%elem_of_cons; [right|by left]. by exists data.
Qed.

(** What a call leaves behind. *)
Lemma halted_remembers i H r : halted C i H r →
  ∃ H', extends i H H' ∧ good C H' ∧ remembers H' i (Down (disk_of r)).
Proof. intros (H' & L & ? & ? & ?). exists H'. split_and!; [done..|]. by exists L. Qed.

Lemma alive_remembers i H r : alive C i H r →
  ∃ H', extends i H H' ∧ good C H' ∧ remembers H' i (Up r).
Proof. intros (H' & L & ? & ? & ?). exists H'. split_and!; [done..|]. by exists L. Qed.

Lemma op_chronicled H i o r c :
  cluster_ok c → act_ok (ActOp i o) c → act_fixed (ActOp i o) → chronicled H c →
  cl_nodes c !! i = Some (Up r) → deliverable o (cl_soup c) = true →
  (∀ data snap, o = OpCreateSnapshot data → snapshot_of C r data snap → snap ∈ ch_snaps H) →
  match exec o r with
  | (Ret _, r') => alive C i H r'
  | (Fail e, r') => halted C i H r' ∧ (tolerates o e = true → alive C i H r')
  | (_, r') => halted C i H r'
  end.
Proof.
  intros Hok Ha Hfx (Hg & Hs & Hn) Hr Hd Hsn. destruct (act_ok_op i o r c Hok Ha Hr Hd) as (_ & _ & Hroom & Hop).
  assert (op_fits C H o r) as Ho.
  { destruct o; try done; [|by intros snap; apply Hsn]. cbn in Hd. apply bool_decide_eq_true in Hd. split; [by apply Hs|by apply msg_ok_any]. }
  destruct (Hn i _ Hr) as [L Hf].
  pose proof (exec_wp C Hfixed (proj2 Hconf) i H o r Hg (alive_now C i H L r Hg Hf) Ho Hroom) as Hw.
  unfold wp in Hw. by destruct (exec o r) as [[] r'].
Qed.

(** The snapshot is taken in this act. *)
Definition takes (a : act G) c (snap : Snapshot) : Prop :=
  ∃ i data r, a = ActOp i (OpCreateSnapshot data) ∧ cl_nodes c !! i = Some (Up r) ∧ snapshot_of C r data snap.

Definition follows a c H H' : Prop :=
  grown H H' ∧ ∀ snap, snap ∈ ch_snaps H' → snap ∈ ch_snaps H ∨ takes a c snap.

Lemma follows_extends a c i H H1 H' :
  (H1 = H ∨ grows_by H H1) → (∀ snap, snap ∈ ch_snaps H1 → snap ∈ ch_snaps H ∨ takes a c snap) →
  extends i H1 H' → follows a c H H'.
Proof.
  intros Hl Hs He. split; [|intros snap; rewrite (ex_snaps _ _ _ He); apply Hs].
  destruct Hl as [->|Hl]; [|eapply rtc_l; [exact Hl|]]; apply rtc_once; left; by exists i.
Qed.

Lemma follows_set a i st soup wins H H1 c :
  (H1 = H ∨ grows_by H H1) → (∀ snap, snap ∈ ch_snaps H1 → snap ∈ ch_snaps H ∨ takes a c snap) →
  chronicled H1 c → (∃ H', extends i H1 H' ∧ good C H' ∧ remembers H' i st) →
  (∀ m, m ∈ soup → m ∈ cl_soup c ∨ m ∈ ch_sent H1) →
  ∃ H', follows a c H H' ∧ chronicled H' (mkCluster (<[i := st]> (cl_nodes c)) soup wins).
Proof.
  intros Hl Hs Hc (H' & He & Hg' & Hr') Hsoup. exists H'. split; [by eapply follows_extends|].
  eapply chronicled_set; [done..|]. intros m [|]%Hsoup; [by left|right]. by apply (ex_sent _ _ _ He).
Qed.

Lemma op_follows i o H c c' r :
  cluster_ok c → act_ok (ActOp i o) c → act_fixed (ActOp i o) → chronicled H c →
  cl_nodes c !! i = Some (Up r) → perform (ActOp i o) c = Some c' →
  ∃ H', follows (ActOp i o) c H H' ∧ chronicled H' c'.
Proof.
  intros Hok Ha Hfx Hc EN Hp. cbn [perform] in Hp. rewrite EN in Hp.
  destruct (deliverable o (cl_soup c)) eqn:ED; [|done].
  destruct (snapshot_noted H r o c Hc) as (H1 & Hc1 & Hl1 & Hsn & Hnew).
  assert (∀ snap, snap ∈ ch_snaps H1 → snap ∈ ch_snaps H ∨ takes (ActOp i o) c snap) as Htk.
  { intros snap [?|(data & -> & ?)]%Hnew; [by left|right]. by exists i, data, r. }
  pose proof (op_chronicled H1 i o r c Hok Ha Hfx Hc1 EN ED Hsn) as Hw.
  destruct (exec o r) as [[] r']; [|destruct (tolerates o e); [destruct Hw as [_ Hw]|destruct Hw as [Hw _]]|..];
    simplify_eq; apply (follows_set _ _ _ _ _ H H1); try done; try (by left);
    by first [apply alive_remembers; auto|apply halted_remembers].
Qed.

Lemma perform_chronicled a H c c' :
  cluster_ok c → act_ok a c → act_fixed a → chronicled H c → perform a c = Some c' →
  ∃ H', follows a c H H' ∧ chronicled H' c'.
Proof.
  intros Hok Ha Hfx Hc Hp. pose proof Hc as (Hg & Hs & Hn).
  assert (∀ i st soup wins, remembers H i st → (∀ m, m ∈ soup → m ∈ cl_soup c ∨ m ∈ ch_sent H) →
    ∃ H', follows a c H H' ∧ chronicled H' (mkCluster (<[i := st]> (cl_nodes c)) soup wins)) as Hset.
  { intros i st soup wins Hr Hsoup. eapply follows_set; [by left|by left|done| |done].
    exists H. split_and!; [apply extends_refl|done..]. }
  destruct a as [i o|i|i g|i|i cfg g].
  { cbn [perform] in Hp. destruct (cl_nodes c !! i) as [[r|]|] eqn:EN; try done. eapply op_follows; [done..|].
    cbn [perform]. by rewrite EN. }
  all: cbn [perform] in Hp; destruct (cl_nodes c !! i) as [[r|s]|] eqn:EN; try done.
  - cbn in Hp. simplify_eq. destruct (Hn i _ EN) as [L Hf]. apply Hset.
    + exists L. eapply fits_neutral; [done|by split|]. by intros m ?%not_elem_of_nil.
    + intros m [Hm|]%elem_of_app; [right|by left]. apply (co_msgs _ _ _ _ _ (fi_core _ _ _ _ _ Hf)), Hm.
  - simplify_eq. destruct (Hn i _ EN) as [L Hf]. apply Hset; [|by left].
    exists L. eapply fits_neutral; [done|by split|]. intros m. apply (co_msgs _ _ _ _ _ (fi_core _ _ _ _ _ Hf)).
  - simplify_eq. destruct (Hn i _ EN) as [L Hf]. apply Hset; [|by left]. exists L. apply Hf.
  - destruct (N.eqb_spec (c_ID cfg) i) as [Ei|]; [|done].
    destruct (NewRawNode cfg (Some s) (Some g)) as [r| | |] eqn:EH; simplify_eq/=.
    2-4: exists H; split; [by split; [|left]|done].
    destruct (Hn _ _ EN) as [L Hd].
    eapply follows_set; [by left|by left|done| |by left]. apply alive_remembers.
    eapply NewRawNode_fits; [done|exact Hd|apply (proj1 Hok _ _ EN)|done..].
Qed.

Lemma chronicled_run sched H c c' :
  cluster_ok c → sched_ok sched c → Forall act_fixed sched → chronicled H c →
  perform_all sched c = Some c' → cluster_ok c' ∧ ∃ H', grown H H' ∧ chronicled H' c'.
Proof.
  intros Hok Hs Hfx Hc Hp. split; [by eapply perform_all_ok|].
  revert H c Hok Hs Hfx Hc Hp. induction sched as [|a sched IH]; cbn; intros H c Hok Hs Hfx Hc Hp.
  { simplify_eq. by exists H. }
  destruct (perform a c) as [c1|] eqn:E; [|done]. destruct Hs as [Ha Hs]. apply Forall_cons in Hfx as [Hfa Hfx].
  destruct (perform_chronicled a H c c1 Hok Ha Hfa Hc E) as (H1 & [HL1 _] & Hc1).
  destruct (IH H1 c1) as (H2 & HL2 & Hc2); [by eapply perform_ok|by apply Hs|done..|].
  exists H2. split; [by etrans|done].
Qed.

(** ** Runs *)

(** [c'] is reached from [c] by a schedule that keeps the membership. *)
Definition fixed_run c (sched : list (act G)) c' : Prop :=
  sched_ok sched c ∧ Forall act_fixed sched ∧ perform_all sched c = Some c'.

(** The histories of two moments of one run. *)
Lemma two_moments disks sched sched' c c' :
  map_Forall (λ _, pristine) disks → fixed_run (start_cluster disks) sched c → fixed_run c sched' c' →
  ∃ H H', chronicled H c ∧ grown H H' ∧ chronicled H' c'.
Proof.
  intros Hd (Hs & Hf & Hp) (Hs' & Hf' & Hp'). destruct (chronicled_start disks Hd) as (H0 & _ & Hc0).
  assert (cluster_ok (start_cluster disks : cluster S G)) as Hok0.
  { apply start_cluster_ok. intros i s Hi. apply (Hd i s Hi). }
  destruct (chronicled_run sched H0 _ c Hok0 Hs Hf Hc0 Hp) as (Hok & H & _ & Hc).
  destruct (chronicled_run sched' H c c' Hok Hs' Hf' Hc Hp') as (_ & H' & HL' & Hc'). by exists H, H'.
Qed.

Lemma sealed_grown H H' t n L : sealed C H t n L → grown H H' → sealed C H' t n L.
Proof. intros Hs Hl. induction Hl as [|H1 H2 H3 [[j He]|[snap ->]] _ IH]; [done|..]; apply IH; [by eapply sealed_mono|exact Hs].
Qed.

(** The node knows that entry [e] at index [n] is committed. *)
Definition committed_at r (n : Index) (e : LogEntry) : Prop :=
  (n ≤ l_committed (rn_log r))%N ∧ disk_entry (log_disk (rn_log r)) n = Some e.

Lemma entry_whole H i L r n e :
  fits C H i L r → disk_entry (log_disk (rn_log r)) n = Some e →
  (d_base (log_disk (rn_log r)) < n)%N ∧ L !! N.to_nat (n - 1) = Some e.
Proof.
  intros Hf He. assert (d_base (log_disk (rn_log r)) < n)%N as Hb.
  { unfold disk_entry in He. destruct (N.leb_spec n (d_base (log_disk (rn_log r)))); [done|lia]. }
  split; [done|]. rewrite <- He. symmetry. apply represents_entry; [|done].
  apply (du_rep _ _ _ _ _ (co_dur _ _ _ _ _ (fi_core _ _ _ _ _ Hf))).
Qed.

Lemma committed_sealed H i L r n e :
  fits C H i L r → committed_at r n e →
  L !! N.to_nat (n - 1) = Some e ∧ (0 < n)%N ∧ sealed C H (rn_term r) (N.to_nat n) L.
Proof.
  intros Hf [Hn He]. destruct (entry_whole H i L r n e Hf He) as [? HLk]. split_and!; [done|lia|].
  eapply sealed_le; [exact (fits_sealed _ _ _ _ _ Hf)|lia].
Qed.

(** What a node hands to its state machine is committed. *)
Lemma CommittedEntries_committed r ents e :
  log_ok (rn_log r) → CommittedEntries r = Ret ents → e ∈ ents → committed_at r (e_Index e) e.
Proof.
  intros Hok HE He. unfold CommittedEntries in HE. rewrite (entriesToApply_prefix _ _ Hok) in HE. cbv zeta in HE.
  assert (e ∈ committed_above (rn_log r) (l_applied (rn_log r))) as Hin.
  { injection HE as <-. case_match; [|done]. by eapply elem_of_prefix, take_prefix. }
  destruct (committed_above_spec _ Hok) as [Hlen Hcon].
  apply list_elem_of_lookup_1 in Hin as [k Hk]. pose proof (Hcon _ _ Hk) as Ei.
  pose proof (lookup_lt_Some _ _ _ Hk) as Hlt. pose proof (log_ok_base _ Hok) as HB. split; [lia|].
  unfold committed_above in Hk. rewrite lookup_take_lt, lookup_drop in Hk by lia. unfold disk_entry.
  rewrite (proj2 (N.leb_gt _ _)) by lia. rewrite <- Hk. f_equal. lia.
Qed.

Lemma committed_agree H H' i j L L' r r' n e e' :
  good C H' → grown H H' → fits C H i L r → fits C H' j L' r' →
  committed_at r n e → committed_at r' n e' → e = e'.
Proof.
  intros Hg Hl Hf Hf' He He'. destruct (committed_sealed _ _ _ _ _ _ Hf He) as (E1 & Hn & Hs).
  destruct (committed_sealed _ _ _ _ _ _ Hf' He') as (E2 & _ & Hs').
  pose proof (sealed_agree C H' Hg _ _ _ _ _ _ (N.to_nat n) (sealed_grown _ _ _ _ _ Hs Hl) Hs' ltac:(done) ltac:(done)) as E.
  rewrite (take_eq_lookup (N.to_nat n) _ L L' E) in E1 by lia. congruence.
Qed.

(** ** The theorems *)

(** C1: State Machine Safety.  In every run of a cluster whose membership is fixed, from empty
    disks and whatever is lost, duplicated, reordered, crashed, restarted, snapshotted and
    compacted, an entry that one node knows to be committed at some moment is the one every
    node, then or later, knows to be committed at that index.  So the entries
    [CommittedEntries] hands to the state machines never differ at an index, and a snapshot
    that ends at the index ends with an entry of the same term. *)
Theorem state_machine_safety disks sched sched' c c' i j r r' :
  map_Forall (λ _, pristine) disks → fixed_run (start_cluster disks) sched c → fixed_run c sched' c' →
  cl_nodes c !! i = Some (Up r) → cl_nodes c' !! j = Some (Up r') →
  (∀ n e e', committed_at r n e → committed_at r' n e' → e = e') ∧
  (∀ ents ents' e e', CommittedEntries r = Ret ents → CommittedEntries r' = Ret ents' →
     e ∈ ents → e' ∈ ents' → e_Index e = e_Index e' → e = e') ∧
  (∀ e, let snap := d_snapshot (log_disk (rn_log r')) in
     committed_at r (snap_LastIncludedIndex snap) e → e_Term e = snap_LastIncludedTerm snap).
Proof.
  intros Hd Hrun Hrun' Hi Hj. destruct (two_moments disks sched sched' c c' Hd Hrun Hrun') as (H & H' & Hc & Hl & Hc').
  destruct Hc as (_ & _ & Hn), Hc' as (Hg' & _ & Hn'). destruct (Hn i _ Hi) as [L Hf], (Hn' j _ Hj) as [L' Hf'].
  assert (∀ n e e', committed_at r n e → committed_at r' n e' → e = e') as Hagree.
  { intros n e e'. by apply (committed_agree H H' i j L L'). }
  split_and!; [done|..].
  - intros ents ents' e e' HE HE' He He' Ei. eapply Hagree.
    + eapply CommittedEntries_committed; [apply Hf|done..].
    + rewrite Ei. eapply CommittedEntries_committed; [apply Hf'|done..].
  - cbv zeta. intros e He. destruct (committed_sealed _ _ _ _ _ _ Hf He) as (E1 & Hpos & Hs).
    pose proof (co_dur _ _ _ _ _ (fi_core _ _ _ _ _ Hf')) as Hd'.
    pose proof (sealed_agree C H' Hg' _ _ _ _ _ _ _ (sealed_grown _ _ _ _ _ Hs Hl) (du_snap _ _ _ _ _ Hd')
      (le_n _) (le_n _)) as E.
    destruct (du_snap_term _ _ _ _ _ Hd') as [[E0 _]|[_ Ht]]; unfold log_disk, disk_of in *; [lia|].
    rewrite <- (take_eq_lookup _ _ L L' E), E1 in Ht by lia. by injection Ht.
Qed.

(** C4: Log Matching.  In every such run, with the membership fixed, if two nodes hold entries
    with the same term at some index then they hold the same entry there and at every smaller
    index that neither has compacted. *)
Theorem log_matching disks sched c i j r r' n e e' k :
  map_Forall (λ _, pristine) disks → fixed_run (start_cluster disks) sched c →
  cl_nodes c !! i = Some (Up r) → cl_nodes c !! j = Some (Up r') →
  disk_entry (log_disk (rn_log r)) n = Some e → disk_entry (log_disk (rn_log r')) n = Some e' →
  e_Term e = e_Term e' →
  (d_base (log_disk (rn_log r)) < k ≤ n)%N → (d_base (log_disk (rn_log r')) < k)%N →
  disk_entry (log_disk (rn_log r)) k = disk_entry (log_disk (rn_log r')) k.
Proof.
  intros Hd Hrun Hi Hj He He' Et Hk Hk'.
  destruct (two_moments disks sched [] c c Hd Hrun) as (_ & H' & _ & _ & Hg & _ & Hn); [by split_and!|].
  destruct (Hn i _ Hi) as [L Hf], (Hn j _ Hj) as [L' Hf'].
  destruct (entry_whole _ _ _ _ _ _ Hf He) as [Hb E1], (entry_whole _ _ _ _ _ _ Hf' He') as [_ E2].
  pose proof (co_dur _ _ _ _ _ (fi_core _ _ _ _ _ Hf)) as Hd1. pose proof (co_dur _ _ _ _ _ (fi_core _ _ _ _ _ Hf')) as Hd2.
  pose proof (matches_agree H' L L' _ e e' (du_match _ _ _ _ _ Hd1) (du_match _ _ _ _ _ Hd2) E1 E2 Et) as E.
  unfold log_disk. rewrite (represents_entry L _ (du_rep _ _ _ _ _ Hd1)), (represents_entry L' _ (du_rep _ _ _ _ _ Hd2))
    by (unfold log_disk, disk_of in *; lia).
  by apply (take_eq_lookup _ _ L L' E); lia.
Qed.

(** C3: Leader Completeness.  In every such run, with the membership fixed, an entry that some
    node knows to be committed at some moment is, then and later, in the log of every leader
    of that node's term or a later one, unless the leader has compacted it into a
    snapshot. *)
Theorem leader_completeness disks sched sched' c c' i j r r' n e :
  map_Forall (λ _, pristine) disks → fixed_run (start_cluster disks) sched c → fixed_run c sched' c' →
  cl_nodes c !! i = Some (Up r) → committed_at r n e →
  cl_nodes c' !! j = Some (Up r') → rn_state r' = Leader → (rn_term r ≤ rn_term r')%N →
  (n ≤ last_of r')%N ∧
  ((d_base (log_disk (rn_log r')) < n)%N → disk_entry (log_disk (rn_log r')) n = Some e).
Proof.
  intros Hd Hrun Hrun' Hi He Hj HS Ht.
  destruct (two_moments disks sched sched' c c' Hd Hrun Hrun') as (H & H' & (_ & _ & Hn) & Hl & Hg' & _ & Hn').
  destruct (Hn i _ Hi) as [L Hf], (Hn' j _ Hj) as [L' Hf'].
  destruct (committed_sealed _ _ _ _ _ _ Hf He) as (E1 & Hpos & Hs).
  pose proof (sealed_term _ _ _ _ _ _ (sealed_grown _ _ _ _ _ Hs Hl) Ht) as Hs'.
  destruct (sealed_in_lead C H' Hg' _ _ L _ _ Hs' (lead_of _ _ _ _ _ Hf' HS)) as (E & HnL' & _).
  pose proof (fits_last _ _ _ _ _ (fi_core _ _ _ _ _ Hf')) as EL. split; [lia|]. intros Hb.
  unfold log_disk. rewrite (represents_entry L' _ (du_rep _ _ _ _ _ (co_dur _ _ _ _ _ (fi_core _ _ _ _ _ Hf')))) by done.
  rewrite <- E1. by apply (take_eq_lookup _ _ L' L E); lia.
Qed.

(** ** Checking a schedule *)

Definition act_check (a : act G) c : bool :=
  match a with
  | ActOp i o =>
      match cl_nodes c !! i with
      | Some (Up r) =>
          match o with
          | OpTick | OpStep _ | OpCampaign => (last_of r + 3 <? W64)%N
          | OpPropose cmd => (last_of r + 3 <? W64)%N && (N.of_nat (length cmd) <? W64)%N
          | OpProposeConfChange _ => false
          | _ => true
          end
      | _ => false
      end
  | ActRestart _ cfg _ => bool_decide (c_Bootstrap cfg = C)
  | _ => true
  end.

Fixpoint sched_check (sched : list (act G)) c : option (cluster S G) :=
  match sched with
  | [] => Some c
  | a :: sched' =>
      if act_check a c
      then match perform a c with Some c' => sched_check sched' c' | None => None end
      else None
  end.

Lemma act_check_ok a c : (∀ i, known i) → (∀ b, imaged b) → act_check a c = true → act_ok a c ∧ act_fixed a.
Proof.
  destruct a as [i o|i|i g|i|i cfg g]; cbn; intros Hk Hi; try done; [|by intros ->%bool_decide_eq_true].
  destruct (cl_nodes c !! i) as [[r|]|]; [|done..]. intros Ho. split.
  - intros r' [= <-]. destruct o; cbn in *; try done; try (split; [|done]); try by apply N.ltb_lt.
    by apply andb_prop in Ho as [?%N.ltb_lt _].
  - destruct o; try done. by apply andb_prop in Ho as [_ ?%N.ltb_lt].
Qed.

Lemma sched_check_ok sched c c' :
  (∀ i, known i) → (∀ b, imaged b) → sched_check sched c = Some c' → fixed_run c sched c'.
Proof.
  intros Hk Hi. revert c. unfold fixed_run. induction sched as [|a sched IH]; cbn; intros c Hs; [by simplify_eq|].
  destruct (act_check a c) eqn:Ea; [|done]. apply act_check_ok in Ea as [? ?]; [|done..].
  destruct (perform a c) as [c1|] eqn:Ep; [|done]. destruct (IH c1 Hs) as (? & ? & ?).
  split_and!; [done| |by constructor|done]. intros c2 [= <-]. done.
Qed.
End safety.

(** ** A run of three nodes

    Node 1 wins term 1 and replicates its first entry to node 2, which commits it; node 1
    stops, and node 2 wins term 2 with the vote of node 3. *)

Definition trio_noop : LogEntry := mkEntry 1 1 EntryNoOp [].
Definition trio_append : Message := addressed 1 1 (appendReqMsg 2 0 0 [trio_noop] 0 0).
Definition trio_ack : Message := addressed 2 1 (appendRespMsg 1 true 1 0 0 0).
Definition trio_commit : Message := addressed 1 1 (appendReqMsg 2 1 1 [] 1 0).
Definition trio_request2 : Message := addressed 2 2 (voteReqMsg 3 2 false 1 1).
Definition trio_grant2 : Message := addressed 3 2 (voteRespMsg 2 2 false true).

Definition trio_commits : list (act unit) :=
  trio_schedule ++ [ActDrain 1; ActOp 2 (OpStep trio_append); ActDrain 2; ActOp 1 (OpStep trio_ack); ActDrain 1].
Definition trio_learns : list (act unit) := [ActOp 2 (OpStep trio_commit)].
Definition trio_fails_over : list (act unit) :=
  [ActCrash 1; ActRestart 3 (trio_cfg 3) tt; ActOp 2 OpCampaign; ActDrain 2;
   ActOp 3 (OpStep trio_request2); ActDrain 3; ActOp 2 (OpStep trio_grant2)].

Definition trio_after (sched : list (act unit)) (c : cluster MemoryStorage unit) : cluster MemoryStorage unit :=
  default c (perform_all sched c).
Definition trio_node (i : NodeID) (c : cluster MemoryStorage unit) : RawNode MemoryStorage unit :=
  match cl_nodes c !! i with Some (Up r) => r | _ => trio_leader end.

Definition trio_committed : cluster MemoryStorage unit := trio_after trio_commits (start_cluster trio_disks).
Definition trio_learned : cluster MemoryStorage unit := trio_after trio_learns trio_committed.
Definition trio_failed_over : cluster MemoryStorage unit := trio_after trio_fails_over trio_committed.

Lemma trio_pristine : map_Forall (λ _, pristine) trio_disks.
Proof.
  intros i s Hs. split; [exact (trio_disks_ready i s Hs)|]. unfold trio_disks in Hs.
  rewrite !lookup_insert_Some, lookup_singleton_Some in Hs.
  by destruct Hs as [[_ <-]|[_ [[_ <-]|[_ [_ <-]]]]].
Qed.

Lemma trio_commits_run : fixed_run trio_conf (start_cluster trio_disks) trio_commits trio_committed.
Proof. apply (sched_check_ok _ trio_conf_ok); [done..|by vm_compute]. Qed.

Lemma trio_learns_run : fixed_run trio_conf trio_committed trio_learns trio_learned.
Proof. apply (sched_check_ok _ trio_conf_ok); [done..|by vm_compute]. Qed.

Lemma trio_fails_over_run : fixed_run trio_conf trio_committed trio_fails_over trio_failed_over.
Proof. apply (sched_check_ok _ trio_conf_ok); [done..|by vm_compute]. Qed.

Lemma state_machine_safety_witness :
  committed_at (trio_node 1 trio_committed) 1 trio_noop ∧
  committed_at (trio_node 2 trio_learned) 1 trio_noop ∧
  ∀ e, committed_at (trio_node 2 trio_learned) 1 e → trio_noop = e.
Proof.
  assert (committed_at (trio_node 1 trio_committed) 1 trio_noop) as Hc by (split; by vm_compute).
  split; [done|]. split; [split; by vm_compute|]. intros e He.
  destruct (state_machine_safety trio_conf eq_refl trio_conf_ok trio_disks trio_commits trio_learns
    trio_committed trio_learned 1 2 (trio_node 1 trio_committed) (trio_node 2 trio_learned)
    trio_pristine trio_commits_run trio_learns_run) as [Hs _]; [by vm_compute..|].
  by apply (Hs 1%N).
Defined.

Lemma log_matching_witness :
  disk_entry (log_disk (rn_log (trio_node 1 trio_learned))) 1 =
  disk_entry (log_disk (rn_log (trio_node 2 trio_learned))) 1.
Proof.
  eapply (log_matching trio_conf eq_refl trio_conf_ok trio_disks (trio_commits ++ trio_learns) trio_learned 1 2
    (trio_node 1 trio_learned) (trio_node 2 trio_learned) 1 trio_noop trio_noop 1);
    [exact trio_pristine| |by vm_compute..].
  apply (sched_check_ok _ trio_conf_ok); [done..|by vm_compute].
Defined.

Lemma leader_completeness_witness :
  rn_term (trio_node 2 trio_failed_over) = 2%N ∧ (1 ≤ last_of (trio_node 2 trio_failed_over))%N ∧
  ((d_base (log_disk (rn_log (trio_node 2 trio_failed_over))) < 1)%N →
   disk_entry (log_disk (rn_log (trio_node 2 trio_failed_over))) 1 = Some trio_noop).
Proof.
  split; [by vm_compute|].
  eapply (leader_completeness trio_conf eq_refl trio_conf_ok trio_disks trio_commits trio_fails_over
    trio_committed trio_failed_over 1 2 (trio_node 1 trio_committed) (trio_node 2 trio_failed_over));
    [exact trio_pristine|exact trio_commits_run|exact trio_fails_over_run|by vm_compute| |by vm_compute..].
  split; by vm_compute.
Defined.
