(* ===== verification/KVStore.v ===== *)
(** * The replicated key/value map

    kvstore/kvstore.go (the map and [Apply]), kvstore/session.go (client sessions,
    by which a retried write is recognised) and kvstore/encoding.go (the binary
    form of commands and snapshots).  The mutex only separates the goroutine that
    applies from those that read, and each method holds it throughout, so a method
    is one step on the state.  Go strings used as keys are byte lists. *)

From S2P Require Import Prelude Varint GoMaps Types.

(** ** Commands *)

(** [Op] is a [uint8], and decoding accepts any. *)
Abbreviation Op := byte (only parsing).
Definition OpSet : Op := Byte.x00.
Definition OpDelete : Op := Byte.x01.

Record Command := mkCommand {
  cmd_Op : Op;
  cmd_Key : bytes;
  cmd_Value : bytes;
  cmd_ClientID : N;
  cmd_Sequence : N
}.

Definition maxKeyLen : N := 1048576.
Definition maxValueLen : N := 16777216.

Definition len (b : bytes) : N := N.of_nat (length b).

Definition appendBytes (dst b : bytes) : bytes := AppendUvarint dst (len b) ++ b.

Definition readBytes (b : bytes) (what : string) : outcome (bytes * bytes) :=
  let? (n, b) := readUvarint ("kvstore: truncated length reading " ++ what) b in
  if (len b <? n)%N then Fail (Errorf ("kvstore: claimed bytes exceed what remains: " ++ what) [])
  else Ret (take (N.to_nat n) b, drop (N.to_nat n) b).

Definition EncodeCommand (cmd : Command) : outcome bytes :=
  if (len (cmd_Key cmd) =? 0)%N then Fail (Errorf "kvstore: key must not be empty" [])
  else if (maxKeyLen <? len (cmd_Key cmd))%N then Fail (Errorf "kvstore: key too long" [])
  else if (maxValueLen <? len (cmd_Value cmd))%N then Fail (Errorf "kvstore: value too long" [])
  else
    let buf := [cmd_Op cmd] in
    let buf := AppendUvarint buf (cmd_ClientID cmd) in
    let buf := AppendUvarint buf (cmd_Sequence cmd) in
    let buf := appendBytes buf (cmd_Key cmd) in
    Ret (if bool_decide (cmd_Op cmd = OpSet) then appendBytes buf (cmd_Value cmd) else buf).

Definition DecodeCommand (b : bytes) : outcome Command :=
  match b with
  | [] => Fail (Errorf "kvstore: empty command" [])
  | op :: rest =>
      let? (clientID, rest) := readUvarint "kvstore: truncated client id" rest in
      let? (seq, rest) := readUvarint "kvstore: truncated sequence number" rest in
      let? (key, rest) := readBytes rest "key" in
      if bool_decide (op = OpSet) then
        let? (value, _) := readBytes rest "value" in
        Ret (mkCommand op key value clientID seq)
      else Ret (mkCommand op key [] clientID seq)
  end.

Definition SetCommand (key value : bytes) : outcome bytes :=
  EncodeCommand (mkCommand OpSet key value 0 0).
Definition DeleteCommand (key : bytes) : outcome bytes :=
  EncodeCommand (mkCommand OpDelete key [] 0 0).
Definition SessionSetCommand (clientID seq : N) (key value : bytes) : outcome bytes :=
  EncodeCommand (mkCommand OpSet key value clientID seq).
Definition SessionDeleteCommand (clientID seq : N) (key : bytes) : outcome bytes :=
  EncodeCommand (mkCommand OpDelete key [] clientID seq).

(** ** State *)

Record Result := mkResult { Existed : bool; Duplicate : bool }.

Record session := mkSession { lastSeq : N; sess_lastIndex : Index; sess_result : Result }.

Record Store := mkStore {
  st_data : gmap bytes bytes;
  st_sessions : gmap N session;
  st_maxSessions : Z;
  st_applied : Index
}.

#[export] Instance Result_eq_dec : EqDecision Result.
Proof. solve_decision. Defined.
#[export] Instance Command_eq_dec : EqDecision Command.
Proof. solve_decision. Defined.

Definition set_st_data d s := mkStore d (st_sessions s) (st_maxSessions s) (st_applied s).
Definition set_st_sessions ss s := mkStore (st_data s) ss (st_maxSessions s) (st_applied s).
Definition set_st_applied i s := mkStore (st_data s) (st_sessions s) (st_maxSessions s) i.

Definition DefaultMaxSessions : Z := 4096.

Definition NewWithSessionLimit (n : Z) : Store :=
  mkStore ∅ ∅ (if (n <? 1)%Z then 1 else n) 0.
Definition NewStore : Store := NewWithSessionLimit DefaultMaxSessions.

(** ** Sessions *)

Definition checkSession (clientID seq : N) (s : Store) : option Result :=
  if (clientID =? 0)%N then None
  else
    match st_sessions s !! clientID with
    | None => None
    | Some prev =>
        if (lastSeq prev <? seq)%N then None
        else Some (mkResult (Existed (sess_result prev)) true)
    end.

(** The order of eviction: last log index, then client id. *)
Definition older (a b : Index * N) : Prop :=
  (fst a < fst b)%N ∨ (fst a = fst b ∧ (snd a ≤ snd b)%N).

#[export] Instance older_dec : RelDecision older.
Proof. intros a b. unfold older. apply _. Defined.

Section store.
Context `{R : MapRange}.

Definition evictSessions (s : Store) : Store :=
  let n := Z.of_nat (size (st_sessions s)) in
  if (n <=? st_maxSessions s)%Z then s
  else
    let candidates := (λ '(id, sess), (sess_lastIndex sess, id)) <$> range_map (st_sessions s) in
    let victims := take (Z.to_nat (n - st_maxSessions s)) (merge_sort older candidates) in
    set_st_sessions (foldl (λ ss c, delete (snd c) ss) (st_sessions s) victims) s.

Definition recordSession (clientID seq : N) (index : Index) (result : Result) (s : Store) : Store :=
  if (clientID =? 0)%N then s
  else
    evictSessions
      (set_st_sessions (<[clientID := mkSession seq index result]> (st_sessions s)) s).

Definition Sessions (s : Store) : Z := Z.of_nat (size (st_sessions s)).

(** ** Apply *)

Definition noResult : Result := mkResult false false.

(** What a command does to the map, and what it answers. *)
Definition applyOp (cmd : Command) (d : gmap bytes bytes) : option (Result * gmap bytes bytes) :=
  if bool_decide (cmd_Op cmd = OpSet) then
    Some (noResult, <[cmd_Key cmd := cmd_Value cmd]> d)
  else if bool_decide (cmd_Op cmd = OpDelete) then
    Some (mkResult (bool_decide (is_Some (d !! cmd_Key cmd))) false, delete (cmd_Key cmd) d)
  else None.

Definition Apply (entry : LogEntry) : M Store Result :=
  cmd <- wrapErr "kvstore: entry" (reads (λ _, DecodeCommand (e_Command entry))) ;;
  s <- get ;;
  match checkSession (cmd_ClientID cmd) (cmd_Sequence cmd) s with
  | Some result =>
      modify (set_st_applied (e_Index entry)) ;;;
      ret result
  | None =>
      match applyOp cmd (st_data s) with
      | None => fail (Errorf "kvstore: entry has unknown operation" [])
      | Some (result, d) =>
          modify (set_st_data d) ;;;
          modify (recordSession (cmd_ClientID cmd) (cmd_Sequence cmd) (e_Index entry) result) ;;;
          modify (set_st_applied (e_Index entry)) ;;;
          ret result
      end
  end.

(** Entries applied in log order; the first failure stops. *)
Fixpoint ApplyAll (entries : list LogEntry) : M Store (list Result) :=
  match entries with
  | [] => ret []
  | e :: rest => res <- Apply e ;; more <- ApplyAll rest ;; ret (res :: more)
  end.

Definition Get (key : bytes) (s : Store) : option bytes := st_data s !! key.
Definition Store_AppliedIndex (s : Store) : Index := st_applied s.
Definition Store_Len (s : Store) : Z := Z.of_nat (size (st_data s)).
Definition Keys (s : Store) : list bytes := sorted_keys (st_data s).

(** ** Snapshots *)

Definition encodeMap (m : gmap bytes bytes) : bytes :=
  let keys := sorted_keys m in
  foldl (λ buf k, appendBytes (appendBytes buf k) (default [] (m !! k)))
    (AppendUvarint [] (N.of_nat (length keys))) keys.

Definition Snapshot_ (s : Store) : bytes := encodeMap (st_data s).
End store.

(** [for i := 0; i < count; i++]: each round consumes at least two bytes, so
    [length rest] rounds are enough. *)
Fixpoint decodeMap_loop (fuel : nat) (count : N) (rest : bytes) (m : gmap bytes bytes)
    : outcome (gmap bytes bytes) :=
  if (count =? 0)%N then Ret m
  else
    match fuel with
    | O => OutOfFuel
    | S k =>
        let? (key, r) := readBytes rest "snapshot key" in
        let? (value, r2) := readBytes r "snapshot value" in
        decodeMap_loop k (count - 1) r2 (<[key := value]> m)
    end.

Definition decodeMap (b : bytes) : outcome (gmap bytes bytes) :=
  let? (count, rest) := readUvarint "kvstore: truncated snapshot header" b in
  decodeMap_loop (S (length rest)) count rest ∅.

Definition Restore (data : bytes) (appliedIndex : Index) : M Store unit :=
  m <- reads (λ _, decodeMap data) ;;
  modify (set_st_data m) ;;;
  modify (set_st_applied appliedIndex).

(** ** Round trips *)

Lemma appendBytes_app dst b :
  appendBytes dst b = dst ++ uvarint_bytes MaxVarintLen64 (len b) ++ b.
Proof. unfold appendBytes, AppendUvarint. by rewrite <- app_assoc. Qed.

Lemma readBytes_bytes b rest what :
  (len b < W64)%N →
  readBytes (uvarint_bytes MaxVarintLen64 (len b) ++ b ++ rest) what = Ret (b, rest).
Proof.
  intros Hb. unfold readBytes. rewrite readUvarint_bytes by done. cbn [obind].
  unfold len. rewrite length_app, (proj2 (N.ltb_ge _ _)) by lia.
  by rewrite Nat2N.id, take_app_length, drop_app_length.
Qed.

(** A command survives its encoding.  Whatever [EncodeCommand] accepts decodes to
    the command it encoded, the value of anything but a Set apart, which is not
    written. *)
Theorem DecodeCommand_EncodeCommand cmd b :
  (cmd_ClientID cmd < W64)%N → (cmd_Sequence cmd < W64)%N → EncodeCommand cmd = Ret b →
  DecodeCommand b =
    Ret (mkCommand (cmd_Op cmd) (cmd_Key cmd)
           (if bool_decide (cmd_Op cmd = OpSet) then cmd_Value cmd else [])
           (cmd_ClientID cmd) (cmd_Sequence cmd)).
Proof.
  intros Hc Hs. unfold EncodeCommand. destruct (N.eqb_spec (len (cmd_Key cmd)) 0); [done|].
  destruct (N.ltb_spec maxKeyLen (len (cmd_Key cmd))) as [|Hk]; [done|].
  destruct (N.ltb_spec maxValueLen (len (cmd_Value cmd))) as [|Hv]; [done|].
  assert (len (cmd_Key cmd) < W64 ∧ len (cmd_Value cmd) < W64)%N as [Hk' Hv']
    by (unfold maxKeyLen, maxValueLen, W64 in *; lia).
  intros [= <-]. rewrite !appendBytes_app. unfold AppendUvarint. rewrite <- !app_assoc.
  assert (∀ tail, DecodeCommand ([cmd_Op cmd] ++ uvarint_bytes MaxVarintLen64 (cmd_ClientID cmd) ++
    uvarint_bytes MaxVarintLen64 (cmd_Sequence cmd) ++
    uvarint_bytes MaxVarintLen64 (len (cmd_Key cmd)) ++ cmd_Key cmd ++ tail) =
    if bool_decide (cmd_Op cmd = OpSet) then
      let? (value, _) := readBytes tail "value" in
      Ret (mkCommand (cmd_Op cmd) (cmd_Key cmd) value (cmd_ClientID cmd) (cmd_Sequence cmd))
    else Ret (mkCommand (cmd_Op cmd) (cmd_Key cmd) [] (cmd_ClientID cmd) (cmd_Sequence cmd))) as HD.
  { intros tail. cbn [app DecodeCommand]. rewrite readUvarint_bytes by done. cbn [obind].
    rewrite readUvarint_bytes by done. cbn [obind]. by rewrite readBytes_bytes. }
  destruct (bool_decide (cmd_Op cmd = OpSet)) eqn:EO.
  - rewrite HD. pose proof (readBytes_bytes (cmd_Value cmd) [] "value" Hv') as HV.
    rewrite app_nil_r in HV. by rewrite HV.
  - specialize (HD []). by rewrite app_nil_r in HD.
Qed.

(** What one pair contributes to a snapshot. *)
Definition pair_bytes (m : gmap bytes bytes) (k : bytes) : bytes :=
  appendBytes (appendBytes [] k) (default [] (m !! k)).

Lemma encodeMap_concat `{R : MapRange} m :
  encodeMap m = uvarint_bytes MaxVarintLen64 (N.of_nat (length (sorted_keys m))) ++
                concat (pair_bytes m <$> sorted_keys m).
Proof.
  unfold encodeMap. change (AppendUvarint [] ?x) with (uvarint_bytes MaxVarintLen64 x).
  generalize (uvarint_bytes MaxVarintLen64 (N.of_nat (length (sorted_keys m)))).
  induction (sorted_keys m) as [|k ks IH]; intros buf; cbn [foldl fmap list_fmap concat];
    [by rewrite app_nil_r|].
  rewrite IH. unfold pair_bytes. by rewrite !appendBytes_app, <- !app_assoc.
Qed.

(** Sizes a snapshot can carry: anything that fits in memory. *)
Definition map_fits (m : gmap bytes bytes) : Prop :=
  (N.of_nat (size m) < W64)%N ∧ map_Forall (λ k v, (len k < W64)%N ∧ (len v < W64)%N) m.

Lemma decodeMap_loop_concat m fuel ks acc :
  map_fits m → Forall (λ k, is_Some (m !! k)) ks → (length ks ≤ fuel)%nat →
  decodeMap_loop fuel (N.of_nat (length ks)) (concat (pair_bytes m <$> ks)) acc =
  Ret (foldl (λ acc k, <[k := default [] (m !! k)]> acc) acc ks).
Proof.
  intros [_ Hm] Hks. revert acc fuel.
  induction Hks as [|k ks [v Hv] _ IH]; intros acc fuel Hf; [by destruct fuel|].
  destruct fuel as [|fuel]; [cbn in Hf; lia|]. destruct (Hm k v Hv) as [Hlk Hlv].
  cbn [decodeMap_loop fmap list_fmap concat].
  rewrite (proj2 (N.eqb_neq _ _)) by (cbn; lia). unfold pair_bytes at 1. rewrite Hv. cbn [default].
  rewrite !appendBytes_app, app_nil_l, <- !app_assoc, readBytes_bytes by done. cbn [obind].
  rewrite readBytes_bytes by done. cbn [obind].
  replace (N.of_nat (length (k :: ks)) - 1)%N with (N.of_nat (length ks)) by (cbn; lia).
  cbn [foldl]. rewrite Hv. apply IH. cbn in Hf. lia.
Qed.

Lemma foldl_insert_lookup {K V} `{Countable K} (f : K → V) (ks : list K) (acc : gmap K V) k :
  foldl (λ acc k, <[k := f k]> acc) acc ks !! k = if decide (k ∈ ks) then Some (f k) else acc !! k.
Proof.
  revert acc. induction ks as [|k' ks IH]; intros acc; cbn [foldl]; [done|].
  rewrite IH. destruct (decide (k ∈ ks)); [by rewrite decide_True by (by right)|].
  destruct (decide (k = k')) as [->|Hne].
  - rewrite lookup_insert_eq, decide_True by (by left). done.
  - rewrite lookup_insert_ne by done. by rewrite decide_False by (by intros [|]%elem_of_cons).
Qed.

(** A snapshot restores the map it was taken from, byte for byte and key for key. *)
Theorem decodeMap_encodeMap `{R : MapRange} m : map_fits m → decodeMap (encodeMap m) = Ret m.
Proof.
  intros Hm. rewrite encodeMap_concat. unfold decodeMap.
  assert (length (sorted_keys m) = size m) as HL.
  { by rewrite sorted_keys_perm, length_fmap, length_map_to_list. }
  assert (Forall (λ k, is_Some (m !! k)) (sorted_keys m)) as Hks.
  { apply Forall_forall. intros k. by rewrite elem_of_sorted_keys. }
  rewrite readUvarint_bytes by (rewrite HL; apply Hm). cbn [obind].
  rewrite decodeMap_loop_concat; [|done..|].
  - f_equal. apply map_eq. intros k. rewrite foldl_insert_lookup. case_decide as Hk;
      rewrite elem_of_sorted_keys in Hk; [by destruct Hk as [v ->]|].
    rewrite lookup_empty. symmetry. by apply eq_None_not_Some.
  - apply Nat.le_le_succ_r. clear. induction (sorted_keys m) as [|k ks IH]; [done|].
    cbn [length fmap list_fmap concat]. rewrite length_app. unfold pair_bytes at 1.
    rewrite !appendBytes_app, !length_app.
    pose proof (length_uvarint_pos (len k)). lia.
Qed.

Lemma readBytes_consumes what b v rest :
  readBytes b what = Ret (v, rest) → (length rest < length b)%nat.
Proof.
  unfold readBytes. destruct (readUvarint _ b) as [[n b']|e| |] eqn:E; cbn; try done.
  apply readUvarint_consumes in E. case_match; [done|]. intros [= _ <-]. rewrite length_drop. lia.
Qed.

Lemma readBytes_total what b :
  (∃ v rest, readBytes b what = Ret (v, rest)) ∨ ∃ e, readBytes b what = Fail e.
Proof.
  unfold readBytes. destruct (readUvarint_total ("kvstore: truncated length reading " ++ what) b)
    as [(n & rest & ->)|[e ->]]; cbn; [case_match|]; eauto.
Qed.

Lemma decodeMap_loop_total fuel count rest m :
  (length rest < fuel)%nat →
  (∃ m', decodeMap_loop fuel count rest m = Ret m') ∨
  ∃ e, decodeMap_loop fuel count rest m = Fail e.
Proof.
  revert count rest m. induction fuel as [|fuel IH]; intros count rest m Hf; [lia|].
  cbn [decodeMap_loop]. case_match; [eauto|].
  destruct (readBytes_total "snapshot key" rest) as [(k & r & E1)|[e ->]]; [rewrite E1|]; cbn; [|eauto].
  destruct (readBytes_total "snapshot value" r) as [(v & r2 & E2)|[e ->]]; [rewrite E2|]; cbn; [|eauto].
  apply readBytes_consumes in E1, E2. apply IH. lia.
Qed.

(** Restoring arbitrary bytes ends.  Whatever the header claims, [decodeMap]
    returns a map or reports an error; it neither panics nor loops. *)
Theorem decodeMap_total b : (∃ m, decodeMap b = Ret m) ∨ ∃ e, decodeMap b = Fail e.
Proof.
  unfold decodeMap. destruct (readUvarint_total "kvstore: truncated snapshot header" b)
    as [(n & rest & ->)|[e ->]]; cbn [obind]; [|eauto]. apply decodeMap_loop_total. lia.
Qed.

Lemma DecodeCommand_total b : (∃ cmd, DecodeCommand b = Ret cmd) ∨ ∃ e, DecodeCommand b = Fail e.
Proof.
  unfold DecodeCommand. destruct b as [|op b]; [eauto|].
  destruct (readUvarint_total "kvstore: truncated client id" b) as [(c & r & ->)|[e ->]]; cbn; [|eauto].
  destruct (readUvarint_total "kvstore: truncated sequence number" r) as [(q & r2 & ->)|[e ->]];
    cbn; [|eauto].
  destruct (readBytes_total "key" r2) as [(k & r3 & ->)|[e ->]]; cbn; [|eauto].
  case_match; [|eauto].
  destruct (readBytes_total "value" r3) as [(v & r4 & ->)|[e ->]]; cbn; eauto.
Qed.

(** ** Replicas agree *)

#[export] Instance older_total : Total older.
Proof. intros [i a] [j b]. unfold older. cbn. lia. Qed.
#[export] Instance older_trans : Transitive older.
Proof. intros [i a] [j b] [k c]. unfold older. cbn. lia. Qed.
#[export] Instance older_antisymm : AntiSymm (=) older.
Proof. intros [i a] [j b]. unfold older. cbn. intros. f_equal; lia. Qed.

Lemma evictSessions_canonical (R1 R2 : MapRange) s :
  @evictSessions R1 s = @evictSessions R2 s.
Proof.
  unfold evictSessions. case_match; [done|]. do 3 f_equal.
  apply merge_sort_canonical; [apply _..|]. by rewrite !range_map_perm.
Qed.

Lemma Apply_canonical (R1 R2 : MapRange) e s : @Apply R1 e s = @Apply R2 e s.
Proof.
  unfold Apply, bind, modify, recordSession. repeat case_match; try done; simplify_eq;
    by rewrite (evictSessions_canonical R1 R2).
Qed.

(** C27: Replicas that apply the same entries agree, whatever order Go ranges over
    their maps: the answers, the errors, the sessions kept and evicted, the map, and
    the bytes of a snapshot taken afterwards are the same. *)
Theorem replicas_agree (R1 R2 : MapRange) entries s :
  @ApplyAll R1 entries s = @ApplyAll R2 entries s ∧
  @Snapshot_ R1 (snd (@ApplyAll R1 entries s)) = @Snapshot_ R2 (snd (@ApplyAll R2 entries s)).
Proof.
  assert (@ApplyAll R1 entries s = @ApplyAll R2 entries s) as HA.
  { revert s. induction entries as [|e entries IH]; intros s; [done|].
    cbn [ApplyAll]. unfold bind. rewrite (Apply_canonical R1 R2).
    destruct (@Apply R2 e s) as [[] s']; try done. by rewrite IH. }
  split; [done|]. rewrite HA. unfold Snapshot_, encodeMap.
  by rewrite (sorted_keys_canonical R1 R2).
Qed.

(** ** Sessions: bounded, and forgotten in order of age *)

Section sessions.
Context `{R : MapRange}.
Implicit Types (s : Store) (ss : gmap N session).

Lemma foldl_delete_lookup ss (vs : list (Index * N)) k :
  foldl (λ ss c, delete (snd c) ss) ss vs !! k = if decide (k ∈ vs.*2) then None else ss !! k.
Proof.
  revert ss. induction vs as [|[i k'] vs IH]; intros ss; cbn [foldl fmap list_fmap]; [done|].
  rewrite IH. destruct (decide (k ∈ vs.*2)); [by rewrite decide_True by (by right)|].
  destruct (decide (k = k')) as [->|Hne].
  - rewrite lookup_delete_eq, decide_True by (by left). done.
  - rewrite lookup_delete_ne by done. by rewrite decide_False by (by intros [|]%elem_of_cons).
Qed.

(** The candidates, sorted by age, are exactly the sessions. *)
Lemma candidates_spec ss :
  let cs := merge_sort older ((λ '(id, sess), (sess_lastIndex sess, id)) <$> range_map ss) in
  NoDup cs.*2 ∧ StronglySorted older cs ∧ length cs = size ss ∧
  (∀ i k, (i, k) ∈ cs ↔ ∃ a, ss !! k = Some a ∧ sess_lastIndex a = i).
Proof.
  cbv zeta. split_and!.
  - rewrite merge_sort_Permutation, range_map_perm, <- list_fmap_compose.
    rewrite (list_fmap_ext _ fst (map_to_list ss)); [apply NoDup_fst_map_to_list|].
    by intros ? [].
  - by apply StronglySorted_merge_sort; apply _.
  - by rewrite merge_sort_Permutation, range_map_perm, length_fmap, length_map_to_list.
  - intros i k. rewrite merge_sort_Permutation, range_map_perm, list_elem_of_fmap. split.
    + intros ([k' a] & [= -> ->] & Ha%elem_of_map_to_list). eauto.
    + intros (a & Ha & <-). exists (k, a). by rewrite elem_of_map_to_list.
Qed.

(** Eviction keeps a part of the sessions, as many as the cap allows, and whatever
    it drops is older than everything it keeps. *)
Lemma evictSessions_spec s :
  (0 ≤ st_maxSessions s)%Z →
  let ss := st_sessions s in
  let ss' := st_sessions (evictSessions s) in
  evictSessions s = set_st_sessions ss' s ∧ ss' ⊆ ss ∧
  Z.of_nat (size ss') = Z.min (Z.of_nat (size ss)) (st_maxSessions s) ∧
  (∀ k a k2 b, ss !! k = Some a → ss' !! k = None → ss' !! k2 = Some b →
     older (sess_lastIndex a, k) (sess_lastIndex b, k2)).
Proof.
  intros Hmax. cbv zeta. unfold evictSessions.
  destruct (Z.leb_spec (Z.of_nat (size (st_sessions s))) (st_maxSessions s)) as [|Hgt].
  { split; [by destruct s|]. split_and!; [done|lia|]. intros k a k2 b ->. done. }
  destruct (candidates_spec (st_sessions s)) as (Hnd & Hsort & Hlen & Hin).
  set (cs := merge_sort older _) in *. set (n := Z.to_nat _). cbn [st_sessions set_st_sessions].
  set (ss' := foldl _ _ _). rewrite <- (take_drop n cs) in Hnd, Hsort, Hin.
  set (vs := take n cs) in *. set (ks := drop n cs) in *.
  assert (∀ k, ss' !! k = if decide (k ∈ vs.*2) then None else st_sessions s !! k) as Hl
    by (intros; apply foldl_delete_lookup).
  rewrite fmap_app, NoDup_app in Hnd. destruct Hnd as (Hnv & Hdis & Hnk).
  assert (∀ k, is_Some (ss' !! k) ↔ k ∈ ks.*2) as Hdom.
  { intros k. rewrite Hl. split.
    - case_decide as Hk; [by intros []|]. intros [a Ha].
      assert ((sess_lastIndex a, k) ∈ vs ++ ks) as Hc by (apply Hin; eauto).
      apply elem_of_app in Hc as [Hc|Hc]; [|by apply (list_elem_of_fmap_2 snd) in Hc].
      destruct Hk. by apply (list_elem_of_fmap_2 snd) in Hc.
    - intros Hk. rewrite decide_False by (intros Hv; by eapply Hdis).
      apply list_elem_of_fmap in Hk as ([i k'] & -> & Hk).
      destruct (proj1 (Hin i k')) as (a & ? & _); [|eauto]. apply elem_of_app. by right. }
  split_and!; [done| | |].
  - apply map_subseteq_spec. intros k a. rewrite Hl. by case_decide.
  - rewrite <- (size_dom (D:=gset N)). assert (dom ss' = list_to_set (ks.*2)) as ->.
    { apply set_eq. intros k. by rewrite elem_of_dom, Hdom, elem_of_list_to_set. }
    rewrite size_list_to_set, length_fmap by done. subst ks. rewrite length_drop, Hlen.
    subst n. lia.
  - intros k a k2 b Ha Hn Hb. rewrite Hl in Hn. case_decide as Hk; [|congruence].
    apply list_elem_of_fmap in Hk as ([i k'] & -> & Hk).
    assert (i = sess_lastIndex a) as ->.
    { destruct (proj1 (Hin i k')) as (a' & Ha' & <-); [apply elem_of_app; by left|].
      cbn in Ha. by simplify_eq. }
    assert (k2 ∈ ks.*2) as Hk2 by (apply Hdom; eauto).
    apply list_elem_of_fmap in Hk2 as ([j k2'] & -> & Hk2). cbn in *.
    assert (j = sess_lastIndex b) as ->.
    { destruct (proj1 (Hin j k2')) as (b' & Hb' & <-); [apply elem_of_app; by right|].
      rewrite Hl in Hb. case_decide; by simplify_eq. }
    by eapply StronglySorted_app_1_elem_of.
Qed.

(** The cap holds, and no session is newer than the log. *)
Definition store_ok s : Prop :=
  (1 ≤ st_maxSessions s)%Z ∧ (Z.of_nat (size (st_sessions s)) ≤ st_maxSessions s)%Z ∧
  map_Forall (λ _ a, (sess_lastIndex a ≤ st_applied s)%N) (st_sessions s).

(** The client [c] is remembered with at least sequence [q] and the answer
    [existed], and only the clients of [C] have written since. *)
Definition remembers (c q : N) (existed : bool) (C : gset N) s : Prop :=
  ∃ a, st_sessions s !! c = Some a ∧ (q ≤ lastSeq a)%N ∧ Existed (sess_result a) = existed ∧
       ∀ k b, st_sessions s !! k = Some b → k ≠ c → (sess_lastIndex a ≤ sess_lastIndex b)%N → k ∈ C.

Lemma checkSession_remembers c q existed C s :
  remembers c q existed C s → c ≠ 0%N → checkSession c q s = Some (mkResult existed true).
Proof.
  intros (a & Ha & Hq & <- & _) Hc. unfold checkSession.
  by rewrite (proj2 (N.eqb_neq _ _)), Ha, (proj2 (N.ltb_ge _ _)).
Qed.

(** A client is not evicted while fewer clients than the cap have written since. *)
Lemma evict_remembers c q existed C s :
  (Z.of_nat (size C) < st_maxSessions s)%Z → remembers c q existed C s →
  remembers c q existed C (evictSessions s).
Proof.
  intros HC (a & Ha & Hq & He & Hy).
  destruct (evictSessions_spec s) as (_ & Hsub & Hsz & Hage); [lia|].
  exists a. split_and!; [|done|done|].
  2: { intros k b Hk. apply Hy. by eapply lookup_weaken. }
  destruct (st_sessions (evictSessions s) !! c) as [a'|] eqn:E.
  { assert (st_sessions s !! c = Some a') by (by eapply lookup_weaken). congruence. }
  exfalso. assert (dom (st_sessions (evictSessions s)) ⊆ C) as Hd%subseteq_size.
  { intros k [b Hb]%elem_of_dom. apply (Hy k b); [by eapply lookup_weaken|congruence|].
    destruct (Hage c a k b Ha E Hb) as [|[]]; cbn in *; lia. }
  rewrite size_dom in Hd.
  assert (size (st_sessions s) ≠ 0%nat) as Hnz.
  { intros H0%map_size_empty_inv. by rewrite H0, lookup_empty in Ha. }
  assert (Z.of_nat (size (st_sessions s)) ≤ st_maxSessions s ∨
          st_maxSessions s < Z.of_nat (size (st_sessions s)))%Z as [Hle|Hgt] by lia; [|lia].
  assert (evictSessions s = s) as Es.
  { unfold evictSessions. by rewrite (proj2 (Z.leb_le _ _)). }
  rewrite Es in E. congruence.
Qed.

Lemma recordSession_ok cid q i res s :
  store_ok s → (st_applied s < i)%N → store_ok (set_st_applied i (recordSession cid q i res s)).
Proof.
  intros (H1 & H2 & H3) Hi. unfold recordSession. destruct (cid =? 0)%N.
  { split_and!; [done|done|]. intros k a Ha. specialize (H3 k a Ha). cbn in *. lia. }
  match goal with |- context [evictSessions ?x] =>
    destruct (evictSessions_spec x) as (-> & Hsub & Hsz & _); [cbn; lia|] end.
  split_and!; [done|cbn in *; lia|]. intros k a Ha. cbn in *.
  eapply lookup_weaken in Ha; [|exact Hsub].
  apply lookup_insert_Some in Ha as [[<- <-]|[_ Ha]]; [done|].
  specialize (H3 k a Ha). cbn in H3. lia.
Qed.

Lemma recordSession_self cid q i res s :
  store_ok s → (st_applied s < i)%N → cid ≠ 0%N →
  remembers cid q (Existed res) ∅ (recordSession cid q i res s).
Proof.
  intros (H1 & H2 & H3) Hi Hc. unfold recordSession. rewrite (proj2 (N.eqb_neq _ _)) by done.
  apply evict_remembers; [rewrite size_empty; cbn; lia|].
  eexists. cbn. rewrite lookup_insert_eq. split_and!; [done|done|done|].
  intros k b Hk Hne. rewrite lookup_insert_ne in Hk by done. cbn. intros Hle.
  specialize (H3 k b Hk). cbn in H3. lia.
Qed.

Lemma recordSession_other cid q i res c q0 existed C s :
  store_ok s → (st_applied s < i)%N → cid ∈ C → c ∉ C → (Z.of_nat (size C) < st_maxSessions s)%Z →
  remembers c q0 existed C s → remembers c q0 existed C (recordSession cid q i res s).
Proof.
  intros (H1 & H2 & H3) Hi HC Hc Hsz (a & Ha & Hq & He & Hy). unfold recordSession.
  destruct (cid =? 0)%N; [by exists a|]. apply evict_remembers; [done|]. exists a. cbn.
  rewrite lookup_insert_ne by (by intros ->). split_and!; [done..|].
  intros k b [[<- _]|[_ Hk]]%lookup_insert_Some; [done|by apply Hy].
Qed.

(** What applying an entry does, in one equation. *)
Lemma Apply_unfold e s cmd :
  DecodeCommand (e_Command e) = Ret cmd →
  Apply e s =
    match checkSession (cmd_ClientID cmd) (cmd_Sequence cmd) s with
    | Some result => (Ret result, set_st_applied (e_Index e) s)
    | None =>
        match applyOp cmd (st_data s) with
        | None => (Fail (Errorf "kvstore: entry has unknown operation" []), s)
        | Some (result, d) =>
            (Ret result, set_st_applied (e_Index e)
               (recordSession (cmd_ClientID cmd) (cmd_Sequence cmd) (e_Index e) result
                  (set_st_data d s)))
        end
    end.
Proof.
  intros HD. unfold Apply, bind, wrapErr, reads. rewrite HD. cbn. repeat case_match; by simplify_eq.
Qed.

Lemma Apply_returns e s res s' :
  Apply e s = (Ret res, s') → ∃ cmd, DecodeCommand (e_Command e) = Ret cmd.
Proof.
  unfold Apply, bind, wrapErr, reads. destruct (DecodeCommand (e_Command e)); [eauto|done..].
Qed.

Lemma Apply_store_ok e s res s' :
  store_ok s → (st_applied s < e_Index e)%N → Apply e s = (Ret res, s') →
  store_ok s' ∧ st_applied s' = e_Index e ∧ st_maxSessions s' = st_maxSessions s.
Proof.
  intros Hok Hi HA. destruct (Apply_returns _ _ _ _ HA) as [cmd HD].
  rewrite (Apply_unfold e s cmd HD) in HA. repeat case_match; simplify_eq.
  - split_and!; [|done|done]. destruct Hok as (H1 & H2 & H3). split_and!; [done|done|].
    intros k a Ha. specialize (H3 k a Ha). cbn in *. lia.
  - split; [|split; [done|]].
    + apply (recordSession_ok _ _ _ _ (set_st_data g s)); done.
    + unfold recordSession, evictSessions. by repeat case_match.
Qed.

(** Entries whose indexes go up, as committed entries do. *)
Fixpoint ascending (from : Index) (es : list LogEntry) : Prop :=
  match es with
  | [] => True
  | e :: rest => (from < e_Index e)%N ∧ ascending (e_Index e) rest
  end.

(** The clients that write in [es]. *)
Definition clients_of (es : list LogEntry) : gset N :=
  list_to_set (omap (λ e, match DecodeCommand (e_Command e) with
                          | Ret cmd => Some (cmd_ClientID cmd) | _ => None end) es).

Lemma ApplyAll_remembers c q existed C es s rs s' :
  store_ok s → ascending (st_applied s) es → clients_of es ⊆ C → c ∉ C →
  (Z.of_nat (size C) < st_maxSessions s)%Z → remembers c q existed C s →
  ApplyAll es s = (Ret rs, s') → remembers c q existed C s'.
Proof.
  revert s rs. induction es as [|e es IH]; intros s rs Hok Hasc Hcl Hc Hsz Hrem HA.
  { unfold ApplyAll, ret in HA. by simplify_eq. }
  destruct Hasc as [Hi Hasc]. cbn [ApplyAll] in HA. unfold bind, ret in HA.
  destruct (Apply e s) as [[r| | |] s1] eqn:E1; try done.
  destruct (ApplyAll es s1) as [[rs'| | |] s2] eqn:E2; try done. simplify_eq/=.
  destruct (Apply_store_ok e s r s1 Hok Hi E1) as (Hok1 & Ea1 & Em1).
  destruct (Apply_returns _ _ _ _ E1) as [cmd HD].
  assert (cmd_ClientID cmd ∈ C ∧ clients_of es ⊆ C) as [Hcin Hcl'].
  { unfold clients_of in Hcl. cbn in Hcl. rewrite HD in Hcl. cbn in Hcl. set_solver. }
  eapply (IH s1); [done|by rewrite Ea1|done|done|by rewrite Em1| |done].
  rewrite (Apply_unfold e s cmd HD) in E1. repeat case_match; simplify_eq; [done|].
  apply (recordSession_other _ _ _ _ _ _ _ _ (set_st_data g s)); done.
Qed.

(** A retried write takes effect once.  A client's write took effect at [e]; any
    entries followed in which fewer other clients wrote than the store remembers
    sessions.  Applying the same request again, or an older one of that client, then
    changes nothing but the applied index, and answers as the first time, marked as
    a duplicate. *)
Theorem retry_is_replayed s e cmd res s1 es rs s2 e' cmd' :
  store_ok s → ascending (st_applied s) (e :: es) →
  DecodeCommand (e_Command e) = Ret cmd → cmd_ClientID cmd ≠ 0%N →
  Apply e s = (Ret res, s1) → Duplicate res = false → ApplyAll es s1 = (Ret rs, s2) →
  cmd_ClientID cmd ∉ clients_of es →
  (Z.of_nat (size (clients_of es)) < st_maxSessions s)%Z →
  DecodeCommand (e_Command e') = Ret cmd' → cmd_ClientID cmd' = cmd_ClientID cmd →
  (cmd_Sequence cmd' ≤ cmd_Sequence cmd)%N →
  Apply e' s2 = (Ret (mkResult (Existed res) true), set_st_applied (e_Index e') s2).
Proof.
  intros Hok [Hi Hasc] HD Hcid HA Hfresh HAA Hnin Hsz HD' Ecid Hseq.
  destruct (Apply_store_ok e s res s1 Hok Hi HA) as (Hok1 & Ea1 & Em1).
  assert (remembers (cmd_ClientID cmd) (cmd_Sequence cmd) (Existed res) (clients_of es) s1) as H1.
  { rewrite (Apply_unfold e s cmd HD) in HA.
    destruct (checkSession _ _ s) as [r|] eqn:EC.
    { unfold checkSession in EC. repeat case_match; by simplify_eq. }
    destruct (applyOp cmd (st_data s)) as [[r d]|]; simplify_eq.
    destruct (recordSession_self (cmd_ClientID cmd) (cmd_Sequence cmd) (e_Index e) res
      (set_st_data d s)) as (a & Ha & Hq & He & Hy); [done..|].
    exists a. split_and!; try done. intros k b Hk Hne Hle.
    by destruct (not_elem_of_empty (C:=gset N) k (Hy k b Hk Hne Hle)). }
  assert (remembers (cmd_ClientID cmd) (cmd_Sequence cmd) (Existed res) (clients_of es) s2)
    as (a & Ha & Hq & He & Hy).
  { eapply ApplyAll_remembers; [exact Hok1|by rewrite Ea1|done|done|by rewrite Em1|done|done]. }
  rewrite (Apply_unfold e' s2 cmd' HD'), Ecid.
  rewrite (checkSession_remembers _ _ (Existed res) (clients_of es)); [done| |done].
  exists a. split_and!; try done. lia.
Qed.

(** The store's invariant.  However many clients write, the sessions never exceed
    the cap and none is newer than the applied index. *)
Theorem ApplyAll_store_ok es s rs s' :
  store_ok s → ascending (st_applied s) es → ApplyAll es s = (Ret rs, s') → store_ok s'.
Proof.
  revert s rs. induction es as [|e es IH]; intros s rs Hok Hasc HA.
  { unfold ApplyAll, ret in HA. by simplify_eq. }
  destruct Hasc as [Hi Hasc]. cbn [ApplyAll] in HA. unfold bind, ret in HA.
  destruct (Apply e s) as [[r| | |] s1] eqn:E1; try done.
  destruct (ApplyAll es s1) as [[rs'| | |] s2] eqn:E2; try done. simplify_eq/=.
  destruct (Apply_store_ok e s r s1 Hok Hi E1) as (Hok1 & Ea1 & Em1).
  eapply (IH s1); [done|by rewrite Ea1|done].
Qed.
End sessions.

Lemma NewWithSessionLimit_ok n : store_ok (NewWithSessionLimit n).
Proof.
  unfold store_ok, NewWithSessionLimit. cbn. rewrite map_size_empty. cbn.
  destruct (Z.ltb_spec n 1); (split_and!; [lia|lia|apply map_Forall_empty]).
Qed.

(** ** Snapshots forget sessions *)

Definition kbyte : bytes := [Byte.x6b].
Definition one : bytes := [Byte.x31].
Definition two : bytes := [Byte.x32].

Definition write_entry (i : Index) (clientID seq : N) (v : bytes) : LogEntry :=
  mkEntry 1 i EntryNormal
    (match SessionSetCommand clientID seq kbyte v with Ret b => b | _ => [] end).

(** Client 7 sets k to 1, client 8 then sets it to 2. *)
Definition two_writes : list LogEntry := [write_entry 1 7 1 one; write_entry 2 8 1 two].
(** The first request again, retried by a client that never saw its answer. *)
Definition retried : LogEntry := write_entry 3 7 1 one.

Definition applied_replica : Store := snd (@ApplyAll forward_range two_writes NewStore).
Definition restored_replica : Store :=
  snd (Restore (@Snapshot_ forward_range applied_replica) 2 NewStore).

(** C37: Replicas diverge when one of them was restored from a snapshot.  A snapshot
    carries the map and not the sessions.  Take any replica [s] that has applied a write of
    a client, or a later one of it, and whose map has moved on since; and any replica [s0]
    that has no session of the client, and is restored from the snapshot of [s].  Then they
    agree in map and index; but when the write is retried, [s] answers it as a duplicate and
    [s0] takes it for a new one, and their maps differ. *)
Theorem restored_replica_diverges `{R : MapRange} s s0 e cmd prev :
  map_fits (st_data s) → DecodeCommand (e_Command e) = Ret cmd → cmd_Op cmd = OpSet → cmd_ClientID cmd ≠ 0%N →
  st_sessions s !! cmd_ClientID cmd = Some prev → (cmd_Sequence cmd ≤ lastSeq prev)%N →
  st_sessions s0 !! cmd_ClientID cmd = None → st_data s !! cmd_Key cmd ≠ Some (cmd_Value cmd) →
  ∃ r res1 s1 res2 s2,
    Restore (Snapshot_ s) (st_applied s) s0 = (Ret tt, r) ∧ st_data r = st_data s ∧ st_applied r = st_applied s ∧
    Apply e s = (Ret res1, s1) ∧ Duplicate res1 = true ∧ st_data s1 = st_data s ∧
    Apply e r = (Ret res2, s2) ∧ Duplicate res2 = false ∧
    st_data s2 !! cmd_Key cmd = Some (cmd_Value cmd) ∧ st_data s1 ≠ st_data s2.
Proof.
  intros Hfits HD Hop Hc Hprev Hseq Hnone Hmoved.
  set (r := set_st_applied (st_applied s) (set_st_data (st_data s) s0)).
  assert (Restore (Snapshot_ s) (st_applied s) s0 = (Ret tt, r)) as HR.
  { unfold Restore, bind, reads, Snapshot_. by rewrite decodeMap_encodeMap. }
  assert (∃ res2 s2, Apply e r = (Ret res2, s2) ∧ Duplicate res2 = false ∧
    st_data s2 = <[cmd_Key cmd := cmd_Value cmd]> (st_data s)) as (res2 & s2 & H2 & Hd2 & E2).
  { rewrite (Apply_unfold e r cmd HD). unfold checkSession, applyOp. cbn [st_sessions r set_st_applied set_st_data].
    rewrite (proj2 (N.eqb_neq _ _)), Hnone, bool_decide_true by done. do 2 eexists. split_and!; [done..|].
    cbn. unfold recordSession, evictSessions. by repeat case_match. }
  exists r, (mkResult (Existed (sess_result prev)) true), (set_st_applied (e_Index e) s), res2, s2. split_and!; try done.
  - rewrite (Apply_unfold e s cmd HD). unfold checkSession.
    by rewrite (proj2 (N.eqb_neq _ _)), Hprev, (proj2 (N.ltb_ge _ _)) by done.
  - rewrite E2. apply lookup_insert_eq.
  - rewrite E2. cbn. intros E. apply Hmoved. rewrite E. apply lookup_insert_eq.
Qed.

(** ** Witnesses *)

Lemma DecodeCommand_EncodeCommand_witness :
  ∃ b, EncodeCommand (mkCommand OpSet kbyte one 7 300) = Ret b ∧
       DecodeCommand b = Ret (mkCommand OpSet kbyte one 7 300).
Proof.
  eexists. split; [by vm_compute|].
  apply (DecodeCommand_EncodeCommand (mkCommand OpSet kbyte one 7 300)); by vm_compute.
Defined.

Lemma decodeMap_encodeMap_witness :
  decodeMap (@encodeMap backward_range (<[one := two]> {[kbyte := one]})) =
  Ret (<[one := two]> {[kbyte := one]}).
Proof.
  apply (@decodeMap_encodeMap backward_range (<[one := two]> {[kbyte := one]})).
  split; [by vm_compute|]. apply map_Forall_insert_2; [done|]. by apply map_Forall_singleton.
Defined.

Lemma retry_is_replayed_witness :
  ∃ s, @ApplyAll forward_range [write_entry 2 8 1 two]
         (snd (@Apply forward_range (write_entry 1 7 1 one) NewStore)) =
       (Ret [mkResult false false], s) ∧
  @Apply forward_range retried s = (Ret (mkResult false true), set_st_applied 3 s).
Proof.
  destruct (@ApplyAll forward_range [write_entry 2 8 1 two]
         (snd (@Apply forward_range (write_entry 1 7 1 one) NewStore))) as [o s] eqn:E.
  assert (o = Ret [mkResult false false]) as -> by (apply (f_equal fst) in E; vm_compute in E; by symmetry).
  exists s. split; [done|].
  apply (@retry_is_replayed forward_range NewStore (write_entry 1 7 1 one)
    (mkCommand OpSet kbyte one 7 1) (mkResult false false)
    (snd (@Apply forward_range (write_entry 1 7 1 one) NewStore))
    [write_entry 2 8 1 two] [mkResult false false] s retried (mkCommand OpSet kbyte one 7 1));
    [apply NewWithSessionLimit_ok|by vm_compute|by vm_compute|done|by vm_compute|done|exact E| |
     by vm_compute|by vm_compute|done|done].
  apply (bool_decide_unpack _). by vm_compute.
Defined.

Lemma ApplyAll_store_ok_witness : store_ok applied_replica.
Proof.
  destruct (@ApplyAll forward_range two_writes NewStore) as [o s] eqn:E.
  assert (o = Ret [mkResult false false; mkResult false false]) as ->
    by (apply (f_equal fst) in E; vm_compute in E; by symmetry).
  assert (applied_replica = s) as -> by (unfold applied_replica; by rewrite E).
  apply (@ApplyAll_store_ok forward_range two_writes NewStore
    [mkResult false false; mkResult false false]);
    [apply NewWithSessionLimit_ok|by vm_compute|exact E].
Defined.

Lemma restored_replica_diverges_witness :
  st_data restored_replica = st_data applied_replica ∧
  ∃ s1 s2, @Apply forward_range retried applied_replica = (Ret (mkResult false true), s1) ∧
    @Apply forward_range retried restored_replica = (Ret (mkResult false false), s2) ∧
    Get kbyte s1 = Some two ∧ Get kbyte s2 = Some one ∧ st_data s1 ≠ st_data s2.
Proof.
  destruct (restored_replica_diverges (R := forward_range) applied_replica NewStore retried
    (mkCommand OpSet kbyte one 7 1) (mkSession 1 1 noResult)) as (r & res1 & s1 & res2 & s2 & HR & Er & _ & H1 & _ & _ & H2 & _ & _ & Hne).
  - assert (st_data applied_replica = {[kbyte := two]}) as -> by (apply (bool_decide_unpack _); by vm_compute).
    split; [by vm_compute|]. by apply map_Forall_singleton.
  - by vm_compute.
  - done.
  - done.
  - by vm_compute.
  - done.
  - done.
  - by vm_compute.
  - assert (r = restored_replica) as ->.
    { apply (f_equal snd) in HR. cbn [snd] in HR. by rewrite <- HR. }
    split; [done|]. exists s1, s2. rewrite H1, H2.
    assert (res1 = mkResult false true ∧ Get kbyte s1 = Some two) as [-> ->].
    { apply (f_equal fst) in H1 as F1. apply (f_equal snd) in H1 as F2. cbn in F1, F2. subst s1.
      split; [vm_compute in F1; congruence|by vm_compute]. }
    assert (res2 = mkResult false false ∧ Get kbyte s2 = Some one) as [-> ->].
    { apply (f_equal fst) in H2 as F1. apply (f_equal snd) in H2 as F2. cbn in F1, F2. subst s2.
      split; [vm_compute in F1; congruence|by vm_compute]. }
    by split_and!.
Defined.
