(* ===== verification/Codec.v ===== *)
(** * On the wire and on disk

    codec/codec.go and codec/varint.go (entries, configurations, snapshots and hard
    states in their protobuf or varint form), transport/convert.go (messages to and
    from their protobuf form), and the message structs of proto/raftpb that they
    fill in.  A pointer to a protobuf message is an [option]: [None] is nil, and
    the generated getters answer zero values on it.  [proto.Marshal] and
    [proto.Unmarshal] are the class [ProtoCodec]. *)

From S2P Require Import Prelude Varint Types Config RawNode.

(** ** Generated messages *)

(** Enum values of a protobuf message are open: any int32. *)
Definition ENTRY_TYPE_UNSPECIFIED : Z := 0.
Definition ENTRY_TYPE_NORMAL : Z := 1.
Definition ENTRY_TYPE_NOOP : Z := 2.
Definition ENTRY_TYPE_CONF_CHANGE : Z := 3.

Record pbLogEntry := mkPbLogEntry {
  pe_Term : N; pe_Index : N; pe_Type : Z; pe_Command : bytes
}.

Record pbConfiguration := mkPbConfiguration {
  pc_Voters : list N; pc_OldVoters : list N; pc_Learners : list N
}.

Record pbSnapshot := mkPbSnapshot {
  ps_LastIncludedIndex : N; ps_LastIncludedTerm : N;
  ps_Config : option pbConfiguration; ps_Data : bytes
}.

Record pbVoteRequest := mkPbVoteRequest {
  vq_Term : N; vq_CandidateId : N; vq_LastLogIndex : N; vq_LastLogTerm : N; vq_PreVote : bool
}.

Record pbVoteResponse := mkPbVoteResponse {
  vr_Term : N; vr_VoteGranted : bool; vr_PreVote : bool
}.

Record pbAppendRequest := mkPbAppendRequest {
  aq_Term : N; aq_LeaderId : N; aq_PrevLogIndex : N; aq_PrevLogTerm : N;
  aq_Entries : list (option pbLogEntry); aq_LeaderCommit : N; aq_ReadId : N
}.

Record pbAppendResponse := mkPbAppendResponse {
  ar_Term : N; ar_Success : bool; ar_MatchIndex : N;
  ar_ConflictIndex : N; ar_ConflictTerm : N; ar_ReadId : N
}.

Record pbSnapshotRequest := mkPbSnapshotRequest {
  sq_Term : N; sq_LeaderId : N; sq_Snapshot : option pbSnapshot
}.

Record pbSnapshotResponse := mkPbSnapshotResponse {
  sr_Term : N; sr_Success : bool; sr_MatchIndex : N
}.

(** The oneof; each arm holds a pointer. *)
Inductive pbPayload :=
  | VoteRequest (r : option pbVoteRequest)
  | VoteResponse (r : option pbVoteResponse)
  | AppendRequest (r : option pbAppendRequest)
  | AppendResponse (r : option pbAppendResponse)
  | SnapshotRequest (r : option pbSnapshotRequest)
  | SnapshotResponse (r : option pbSnapshotResponse).

Record pbRaftMessage := mkPbRaftMessage {
  rm_From : N; rm_To : N; rm_Payload : option pbPayload
}.

(** ** Entries *)

Definition entryTypeToProto (t : EntryType) : Z :=
  match t with
  | EntryNormal => ENTRY_TYPE_NORMAL
  | EntryNoOp => ENTRY_TYPE_NOOP
  | EntryConfChange => ENTRY_TYPE_CONF_CHANGE
  end.

Definition entryTypeFromProto (t : Z) : EntryType :=
  if (t =? ENTRY_TYPE_NOOP)%Z then EntryNoOp
  else if (t =? ENTRY_TYPE_CONF_CHANGE)%Z then EntryConfChange
  else EntryNormal.

Definition EntryToProto (e : LogEntry) : pbLogEntry :=
  mkPbLogEntry (e_Term e) (e_Index e) (entryTypeToProto (e_Type e)) (e_Command e).

Definition EntryFromProto (p : option pbLogEntry) : LogEntry :=
  match p with
  | None => mkEntry 0 0 EntryNormal []
  | Some p => mkEntry (pe_Term p) (pe_Index p) (entryTypeFromProto (pe_Type p)) (pe_Command p)
  end.

(** ** Configurations and snapshots *)

Definition idsToProto (ids : list NodeID) : list N := ids.
Definition idsFromProto (ids : list N) : list NodeID := ids.

Definition ConfigurationToProto (c : Configuration) : pbConfiguration :=
  mkPbConfiguration (idsToProto (Voters c)) (idsToProto (OldVoters c)) (idsToProto (Learners c)).

Definition ConfigurationFromProto (p : option pbConfiguration) : Configuration :=
  match p with
  | None => mkConfiguration [] [] []
  | Some p =>
      let c := mkConfiguration (idsFromProto (pc_Voters p)) (idsFromProto (pc_OldVoters p))
                 (idsFromProto (pc_Learners p)) in
      let out := NewConfiguration (Voters c) (Learners c) in
      mkConfiguration (Voters out) (OldVoters c) (Learners out)
  end.

Definition SnapshotToProto (s : Snapshot) : pbSnapshot :=
  mkPbSnapshot (snap_LastIncludedIndex s) (snap_LastIncludedTerm s)
    (Some (ConfigurationToProto (snap_Config s))) (snap_Data s).

Definition SnapshotFromProto (p : option pbSnapshot) : Snapshot :=
  match p with
  | None => mkSnapshot 0 0 (mkConfiguration [] [] []) []
  | Some p => mkSnapshot (ps_LastIncludedIndex p) (ps_LastIncludedTerm p)
                (ConfigurationFromProto (ps_Config p)) (ps_Data p)
  end.

(** ** Protobuf *)

(** Marshalling a message and reading it back gives an equal message; an error of the
    library's own is not one of the core's. *)
Class ProtoCodec (P : Type) := {
  proto_Marshal : P → outcome bytes;
  proto_Unmarshal : bytes → outcome P;
  proto_roundtrip p b : proto_Marshal p = Ret b → proto_Unmarshal b = Ret p;
  proto_total p :
    (∃ b, proto_Marshal p = Ret b) ∨
    ∃ e, proto_Marshal p = Fail e ∧ errorsIs e ErrIgnoredMessage = false;
  proto_foreign b e : proto_Unmarshal b = Fail e → errorsIs e ErrIgnoredMessage = false
}.

Section proto.
Context `{!ProtoCodec pbLogEntry, !ProtoCodec pbSnapshot}.

Definition wrap {A} (msg : string) (o : outcome A) : outcome A :=
  match o with Fail e => Fail (Errorf msg [e]) | _ => o end.

Definition MarshalEntry (e : LogEntry) : outcome bytes :=
  wrap "codec: marshalling entry" (proto_Marshal (EntryToProto e)).

Definition UnmarshalEntry (b : bytes) : outcome LogEntry :=
  let? p := wrap "codec: unmarshalling entry" (proto_Unmarshal b) in
  Ret (EntryFromProto (Some p)).

Definition MarshalSnapshot (s : Snapshot) : outcome bytes :=
  wrap "codec: marshalling snapshot" (proto_Marshal (SnapshotToProto s)).

Definition UnmarshalSnapshot (b : bytes) : outcome Snapshot :=
  let? p := wrap "codec: unmarshalling snapshot" (proto_Unmarshal b) in
  Ret (SnapshotFromProto (Some p)).
End proto.

(** ** Hard states *)

(** [binary.PutUvarint] into a scratch array, then append. *)
Definition appendUvarint (b : bytes) (v : N) : bytes := b ++ uvarint_bytes MaxVarintLen64 v.

Definition MarshalHardState (hs : HardState) : bytes :=
  appendUvarint (appendUvarint (appendUvarint [] (hs_Term hs)) (hs_Vote hs)) (hs_Commit hs).

Definition UnmarshalHardState (b : bytes) : outcome HardState :=
  let? (term, b) := readUvarint "codec: truncated hard state reading term" b in
  let? (vote, b) := readUvarint "codec: truncated hard state reading vote" b in
  let? (commit, _) := readUvarint "codec: truncated hard state reading commit" b in
  Ret (mkHardState term vote commit).

(** ** Messages *)

Definition toProto (m : Message) : outcome pbRaftMessage :=
  let out p := Ret (mkPbRaftMessage (m_From m) (m_To m) (Some p)) in
  match m_Type m with
  | MsgVoteReq =>
      out (VoteRequest (Some (mkPbVoteRequest (m_Term m) (m_From m) (m_LastLogIndex m)
                                (m_LastLogTerm m) (m_PreVote m))))
  | MsgVoteResp =>
      out (VoteResponse (Some (mkPbVoteResponse (m_Term m) (m_Granted m) (m_PreVote m))))
  | MsgAppendReq =>
      let entries := (λ e, Some (EntryToProto e)) <$> m_Entries m in
      out (AppendRequest (Some (mkPbAppendRequest (m_Term m) (m_From m) (m_PrevLogIndex m)
                                  (m_PrevLogTerm m) entries (m_LeaderCommit m) (m_ReadID m))))
  | MsgAppendResp =>
      out (AppendResponse (Some (mkPbAppendResponse (m_Term m) (m_Success m) (m_MatchIndex m)
                                   (m_ConflictIndex m) (m_ConflictTerm m) (m_ReadID m))))
  | MsgSnapshotReq =>
      match m_Snapshot m with
      | None => Fail (Errorf "transport: snapshot message carries no snapshot" [])
      | Some snap =>
          out (SnapshotRequest (Some (mkPbSnapshotRequest (m_Term m) (m_From m)
                                        (Some (SnapshotToProto snap)))))
      end
  | MsgSnapshotResp =>
      out (SnapshotResponse (Some (mkPbSnapshotResponse (m_Term m) (m_Success m) (m_MatchIndex m))))
  | MsgUnknown _ => Fail (Errorf "transport: cannot encode message type" [])
  end.

(** [m.From == raft.None] lets the body name the sender. *)
Definition sender (envelope body : N) : NodeID := if (envelope =? None_)%N then body else envelope.

Definition fromProto (p : option pbRaftMessage) : outcome Message :=
  match p with
  | None => Fail (Errorf "transport: nil message" [])
  | Some p =>
      let from := rm_From p in
      let to := rm_To p in
      match rm_Payload p with
      | Some (VoteRequest r) =>
          let r := default (mkPbVoteRequest 0 0 0 0 false) r in
          Ret (mkMessage MsgVoteReq (sender from (vq_CandidateId r)) to (vq_Term r) (vq_PreVote r)
                 (vq_LastLogIndex r) (vq_LastLogTerm r) false 0 0 [] 0 false 0 0 0 0 None)
      | Some (VoteResponse r) =>
          let r := default (mkPbVoteResponse 0 false false) r in
          Ret (mkMessage MsgVoteResp from to (vr_Term r) (vr_PreVote r) 0 0 (vr_VoteGranted r)
                 0 0 [] 0 false 0 0 0 0 None)
      | Some (AppendRequest r) =>
          let r := default (mkPbAppendRequest 0 0 0 0 [] 0 0) r in
          Ret (mkMessage MsgAppendReq (sender from (aq_LeaderId r)) to (aq_Term r) false 0 0 false
                 (aq_PrevLogIndex r) (aq_PrevLogTerm r) (EntryFromProto <$> aq_Entries r)
                 (aq_LeaderCommit r) false 0 0 0 (aq_ReadId r) None)
      | Some (AppendResponse r) =>
          let r := default (mkPbAppendResponse 0 false 0 0 0 0) r in
          Ret (mkMessage MsgAppendResp from to (ar_Term r) false 0 0 false 0 0 [] 0
                 (ar_Success r) (ar_MatchIndex r) (ar_ConflictIndex r) (ar_ConflictTerm r)
                 (ar_ReadId r) None)
      | Some (SnapshotRequest r) =>
          let r := default (mkPbSnapshotRequest 0 0 None) r in
          Ret (mkMessage MsgSnapshotReq (sender from (sq_LeaderId r)) to (sq_Term r) false 0 0 false
                 0 0 [] 0 false 0 0 0 0 (Some (SnapshotFromProto (sq_Snapshot r))))
      | Some (SnapshotResponse r) =>
          let r := default (mkPbSnapshotResponse 0 false 0) r in
          Ret (mkMessage MsgSnapshotResp from to (sr_Term r) false 0 0 false 0 0 [] 0
                 (sr_Success r) (sr_MatchIndex r) 0 0 0 None)
      | None => Fail (Errorf "transport: message has no recognized payload" [])
      end
  end.

(** ** Round trips *)

Lemma EntryFromProto_to e : EntryFromProto (Some (EntryToProto e)) = e.
Proof. by destruct e as [t i [] c]. Qed.

Lemma ConfigurationFromProto_to c :
  conf_normal c → ConfigurationFromProto (Some (ConfigurationToProto c)) = c.
Proof.
  intros (Hv & Ho & Hl & Hd). cbn [ConfigurationFromProto ConfigurationToProto].
  unfold NewConfiguration, idsToProto, idsFromProto. cbn [pc_Voters pc_OldVoters pc_Learners].
  rewrite normalize_id; [by destruct c|]. split_and!; [done|constructor|done|].
  intros id Hid. split; [by apply Hd|by apply not_elem_of_nil].
Qed.

Lemma SnapshotFromProto_to s :
  conf_normal (snap_Config s) → SnapshotFromProto (Some (SnapshotToProto s)) = s.
Proof.
  intros Hc. unfold SnapshotFromProto, SnapshotToProto. cbn [ps_Config].
  rewrite ConfigurationFromProto_to by done. by destruct s.
Qed.

(** The messages the core builds (RawNode.v): every field its type does not use is
    zero. *)
Inductive core_message : Message → Prop :=
  | core_vote_req to t pre li lt : core_message (voteReqMsg to t pre li lt)
  | core_vote_resp to t pre g : core_message (voteRespMsg to t pre g)
  | core_append_req to pi pt es c id : core_message (appendReqMsg to pi pt es c id)
  | core_append_resp to ok mi ci ct id : core_message (appendRespMsg to ok mi ci ct id)
  | core_snapshot_req to snap :
      conf_normal (snap_Config snap) → core_message (snapshotReqMsg to snap)
  | core_snapshot_resp to ok mi : core_message (snapshotRespMsg to ok mi).

Lemma core_message_travels m from t :
  core_message m →
  ∃ p, toProto (addressed from t m) = Ret p ∧ fromProto (Some p) = Ret (addressed from t m).
Proof.
  intros Hm. destruct Hm as [| |to pi pt es c id| |to snap Hs|];
    (eexists; split; [done|]); cbn -[SnapshotFromProto SnapshotToProto EntryFromProto EntryToProto];
    unfold sender; rewrite ?SnapshotFromProto_to by done;
    try (by destruct (from =? None_)%N).
  assert (EntryFromProto <$> ((λ e, Some (EntryToProto e)) <$> es) = es) as HE.
  { rewrite <- list_fmap_compose. rewrite <- (list_fmap_id es) at 2.
    apply list_fmap_ext. intros. apply EntryFromProto_to. }
  change (list_fmap _ _ EntryFromProto _) with (EntryFromProto <$> ((λ e, Some (EntryToProto e)) <$> es)).
  rewrite HE. by destruct (from =? None_)%N.
Qed.

(** C35: Nothing is lost on the wire.  Every message the core builds, once addressed,
    can be encoded, and decodes to itself; a snapshot's configuration has to be in the
    normal form the core keeps it in. *)
Theorem fromProto_toProto m from t :
  core_message m →
  ∃ p, toProto (addressed from t m) = Ret p ∧ fromProto (Some p) = Ret (addressed from t m).
Proof. apply core_message_travels. Qed.

(** A hard state survives its encoding. *)
Theorem UnmarshalHardState_Marshal hs :
  (hs_Term hs < W64)%N → (hs_Vote hs < W64)%N → (hs_Commit hs < W64)%N →
  UnmarshalHardState (MarshalHardState hs) = Ret hs.
Proof.
  intros Ht Hv Hc. unfold UnmarshalHardState, MarshalHardState, appendUvarint.
  rewrite app_nil_l, <- !app_assoc, readUvarint_bytes by done. cbn [obind].
  rewrite readUvarint_bytes by done. cbn [obind].
  rewrite <- (app_nil_r (uvarint_bytes _ (hs_Commit hs))), readUvarint_bytes by done.
  by destruct hs.
Qed.

Section disk.
Context `{!ProtoCodec pbLogEntry, !ProtoCodec pbSnapshot}.

Lemma UnmarshalEntry_Marshal e b : MarshalEntry e = Ret b → UnmarshalEntry b = Ret e.
Proof.
  unfold MarshalEntry, UnmarshalEntry, wrap. destruct (proto_Marshal _) eqn:E; intros; simplify_eq.
  rewrite (proto_roundtrip _ _ E). cbn [obind]. by rewrite EntryFromProto_to.
Qed.

Lemma UnmarshalSnapshot_Marshal s b :
  conf_normal (snap_Config s) → MarshalSnapshot s = Ret b → UnmarshalSnapshot b = Ret s.
Proof.
  unfold MarshalSnapshot, UnmarshalSnapshot, wrap. intros Hc.
  destruct (proto_Marshal _) eqn:E; intros; simplify_eq.
  rewrite (proto_roundtrip _ _ E). cbn [obind]. by rewrite SnapshotFromProto_to.
Qed.

Lemma MarshalEntry_total e :
  (∃ b, MarshalEntry e = Ret b) ∨
  ∃ err, MarshalEntry e = Fail err ∧ errorsIs err ErrIgnoredMessage = false.
Proof.
  unfold MarshalEntry, wrap. destruct (proto_total (EntryToProto e)) as [[b ->]|(err & -> & He)].
  - by left; eexists.
  - right. eexists. split; [done|]. cbn. by rewrite He.
Qed.

Lemma UnmarshalEntry_foreign b e : UnmarshalEntry b = Fail e → errorsIs e ErrIgnoredMessage = false.
Proof.
  unfold UnmarshalEntry, wrap. destruct (proto_Unmarshal b) eqn:E; cbn; intros; simplify_eq.
  cbn. by rewrite (proto_foreign b _ E).
Qed.

Lemma MarshalSnapshot_total s :
  (∃ b, MarshalSnapshot s = Ret b) ∨
  ∃ err, MarshalSnapshot s = Fail err ∧ errorsIs err ErrIgnoredMessage = false.
Proof.
  unfold MarshalSnapshot, wrap. destruct (proto_total (SnapshotToProto s)) as [[b ->]|(err & -> & He)].
  - by left; eexists.
  - right. eexists. split; [done|]. cbn. by rewrite He.
Qed.
End disk.

(** What is written to disk is read back.  Entries of any type and snapshots with
    a configuration in normal form survive marshalling, given that protobuf itself
    does. *)
Theorem disk_roundtrip `{!ProtoCodec pbLogEntry, !ProtoCodec pbSnapshot} e s b b' :
  MarshalEntry e = Ret b → MarshalSnapshot s = Ret b' → conf_normal (snap_Config s) →
  UnmarshalEntry b = Ret e ∧ UnmarshalSnapshot b' = Ret s.
Proof.
  intros He Hs Hc. by split; [apply UnmarshalEntry_Marshal|apply UnmarshalSnapshot_Marshal].
Qed.

(** A configuration from the wire is not always in normal form.  The sets of a joint
    configuration are rebuilt except for the outgoing voters, which are taken as they
    arrive: unsorted, repeated, and without removing them from the learners. *)
Theorem ConfigurationFromProto_keeps_old_voters :
  ∃ p, ConfigurationFromProto (Some p) = mkConfiguration [1; 2]%N [3; 1; 3]%N [3]%N ∧
       normalize (ConfigurationFromProto (Some p)) ≠ ConfigurationFromProto (Some p).
Proof.
  exists (mkPbConfiguration [2; 1]%N [3; 1; 3]%N [3]%N). by vm_compute.
Qed.

(** ** Witnesses *)

Lemma fromProto_toProto_witness :
  ∃ p, toProto (addressed 1 4 (voteReqMsg 2 5 true 7 3)) = Ret p ∧
       fromProto (Some p) = Ret (addressed 1 4 (voteReqMsg 2 5 true 7 3)).
Proof. apply (fromProto_toProto (voteReqMsg 2 5 true 7 3) 1 4). constructor. Defined.

Lemma UnmarshalHardState_Marshal_witness :
  UnmarshalHardState (MarshalHardState (mkHardState 300 2 70000)) = Ret (mkHardState 300 2 70000).
Proof. apply (UnmarshalHardState_Marshal (mkHardState 300 2 70000)); by vm_compute. Defined.

#[export] Instance pbLogEntry_eq_dec : EqDecision pbLogEntry.
Proof. solve_decision. Defined.
#[export] Instance pbConfiguration_eq_dec : EqDecision pbConfiguration.
Proof. solve_decision. Defined.
#[export] Instance pbSnapshot_eq_dec : EqDecision pbSnapshot.
Proof. solve_decision. Defined.

(** A codec that checks what it wrote before handing it out. *)
Definition checked_Marshal {P} `{EqDecision P} (enc : P → bytes) (dec : bytes → outcome P) (p : P)
    : outcome bytes :=
  match dec (enc p) with
  | Ret p' => if decide (p' = p) then Ret (enc p) else Fail (Errorf "not encodable" [])
  | _ => Fail (Errorf "not encodable" [])
  end.

Definition checked_Unmarshal {P} (dec : bytes → outcome P) (b : bytes) : outcome P :=
  match dec b with Ret p => Ret p | _ => Fail (Errorf "not a message" []) end.

Lemma checked_roundtrip {P} `{EqDecision P} enc dec (p : P) b :
  checked_Marshal enc dec p = Ret b → checked_Unmarshal dec b = Ret p.
Proof.
  unfold checked_Marshal, checked_Unmarshal. destruct (dec (enc p)) eqn:E; try done.
  case_decide; [|done]. intros [= <-]; subst. by rewrite E.
Qed.

Lemma checked_foreign {P} (dec : bytes → outcome P) b e :
  checked_Unmarshal dec b = Fail e → errorsIs e ErrIgnoredMessage = false.
Proof. unfold checked_Unmarshal. case_match; intros; by simplify_eq. Qed.

Lemma checked_total {P} `{EqDecision P} enc dec (p : P) :
  (∃ b, checked_Marshal enc dec p = Ret b) ∨
  ∃ e, checked_Marshal enc dec p = Fail e ∧ errorsIs e ErrIgnoredMessage = false.
Proof. unfold checked_Marshal. repeat case_match; eauto. Qed.

Definition checked_codec {P} `{EqDecision P} (enc : P → bytes) (dec : bytes → outcome P)
    : ProtoCodec P :=
  {| proto_roundtrip := checked_roundtrip enc dec; proto_total := checked_total enc dec;
     proto_foreign := checked_foreign dec |}.

Definition entry_codec : ProtoCodec pbLogEntry :=
  checked_codec
    (λ p, appendUvarint (appendUvarint (appendUvarint [] (pe_Term p)) (pe_Index p))
            (Z.to_N (pe_Type p)) ++ pe_Command p)
    (λ b,
      let? (t, b) := readUvarint "term" b in
      let? (i, b) := readUvarint "index" b in
      let? (ty, b) := readUvarint "type" b in
      Ret (mkPbLogEntry t i (Z.of_N ty) b)).

Definition snapshot_codec : ProtoCodec pbSnapshot :=
  checked_codec
    (λ p, appendUvarint (appendUvarint [] (ps_LastIncludedIndex p)) (ps_LastIncludedTerm p) ++
            appendUvarint [] (N.of_nat (length (ps_Data p))) ++ ps_Data p ++
            match ps_Config p with
            | Some c => Encode (mkConfChange ConfChangeLeaveJoint
                          (mkConfiguration (pc_Voters c) (pc_OldVoters c) (pc_Learners c)))
            | None => []
            end)
    (λ b,
      let? (i, b) := readUvarint "index" b in
      let? (t, b) := readUvarint "term" b in
      let? (n, b) := readUvarint "length" b in
      let? cc := DecodeConfChange (drop (N.to_nat n) b) in
      let c := cc_Config cc in
      Ret (mkPbSnapshot i t (Some (mkPbConfiguration (Voters c) (OldVoters c) (Learners c)))
             (take (N.to_nat n) b))).

Lemma disk_roundtrip_witness :
  let e := mkEntry 3 9 EntryConfChange [Byte.x41] in
  let s := mkSnapshot 9 3 (mkConfiguration [1; 2; 3]%N [] []) [Byte.x42] in
  ∃ b b', @MarshalEntry entry_codec e = Ret b ∧ @MarshalSnapshot snapshot_codec s = Ret b' ∧
          @UnmarshalEntry entry_codec b = Ret e ∧ @UnmarshalSnapshot snapshot_codec b' = Ret s.
Proof.
  eexists _, _. split; [by vm_compute|]. split; [by vm_compute|].
  apply (@disk_roundtrip entry_codec snapshot_codec (mkEntry 3 9 EntryConfChange [Byte.x41])
    (mkSnapshot 9 3 (mkConfiguration [1; 2; 3]%N [] []) [Byte.x42])); [by vm_compute..|].
  split_and!; [repeat constructor|constructor|constructor|]. by intros id ?%not_elem_of_nil.
Defined.
