(* ===== verification/Bolt.v ===== *)
(** * Durable storage on bbolt

    storage/bolt.go, the implementation of raft.Storage that production runs on.
    The embedded database is the class [Bbolt]: transactions over named buckets of
    ordered keys, with cursors.  [BboltLaws] says what the code relies on: a
    transaction that returns an error leaves no trace, and a cursor walks the keys
    in byte order.

    [Bolt_LogLaws] shows that the store implements the same abstract log as the
    in-memory one, so everything proved of the core against [Storage] holds of a
    node on bbolt; [reopen_recovers] shows that the state read back from the file
    is the state that was cached when the process stopped. *)

From S2P Require Import Prelude Varint GoMaps Types Config Storage RawNode Codec.

(** ** Keys *)

(** [binary.BigEndian.PutUint64] *)
Definition encodeIndex (i : Index) : bytes :=
  (λ k, byte_of (N.shiftr i (8 * k))) <$> [7; 6; 5; 4; 3; 2; 1; 0]%N.

(** [binary.BigEndian.Uint64], which panics on fewer than eight bytes. *)
Definition decodeIndex (k : bytes) : outcome Index :=
  if (length k <? 8)%nat then Panic "index out of range"
  else Ret (foldl (λ acc b, N.lor (N.shiftl acc 8) (Byte.to_N b)) 0%N (take 8 k)).

Definition encodeFloor (index : Index) (term : Term) : bytes :=
  AppendUvarint (AppendUvarint [] index) term.

Definition decodeFloor (b : bytes) : outcome (Index * Term) :=
  let '(index, n) := Uvarint b in
  if (n <=? 0)%Z then Fail (Errorf "storage: truncated log floor index" [])
  else
    let '(term, m) := Uvarint (drop (Z.to_nat n) b) in
    if (m <=? 0)%Z then Fail (Errorf "storage: truncated log floor term" [])
    else Ret (index, term).

Inductive bucketName := bucketLog | bucketMeta.

#[export] Instance bucketName_eq_dec : EqDecision bucketName.
Proof. solve_decision. Defined.

Definition key_of (s : list N) : bytes := byte_of <$> s.
Definition keyHardState : bytes := key_of [104; 97; 114; 100]%N.
Definition keySnapshot : bytes := key_of [115; 110; 97; 112]%N.
Definition keyFloor : bytes := key_of [102; 108; 111; 111; 114]%N.

(** ** bbolt *)

(** [D] is an open database, [T] a transaction, [C] a cursor.  A cursor is made by
    [Seek], [First] or [Last]; a walk that has run off the end returns no key. *)
Class Bbolt (D T C : Type) := {
  CreateBucketIfNotExists : bucketName → M T unit;
  DeleteBucket : bucketName → M T unit;
  hasBucket : bucketName → T → bool;
  BucketGet : bucketName → bytes → T → option bytes;
  BucketPut : bucketName → bytes → bytes → M T unit;
  Seek : bucketName → bytes → T → option (bytes * bytes * C);
  First : bucketName → T → option (bytes * bytes * C);
  Last : bucketName → T → option (bytes * bytes * C);
  Next : C → T → option (bytes * bytes * C);
  CursorDelete : C → M T C;
  Update {A} : M T A → M D A;
  View {A} : (T → outcome A) → D → outcome A
}.

(** [tx.Bucket(name)] is nil for a bucket that does not exist, and using it panics. *)
Definition Bucket {D T C} `{Bbolt D T C} (name : bucketName) (t : T) : outcome unit :=
  if hasBucket name t then Ret tt else Panic "nil pointer dereference".

(** ** The store *)

Record Bolt (D : Type) := mkBolt {
  b_db : D;
  b_first : Index;
  b_last : Index;
  b_snapIndex : Index;
  b_snapTerm : Term;
  b_floorIndex : Index;
  b_floorTerm : Term;
  b_hardState : HardState
}.
Arguments mkBolt {D}.
Arguments b_db {D}.
Arguments b_first {D}.
Arguments b_last {D}.
Arguments b_snapIndex {D}.
Arguments b_snapTerm {D}.
Arguments b_floorIndex {D}.
Arguments b_floorTerm {D}.
Arguments b_hardState {D}.

#[global] Arguments encodeIndex : simpl never.

Section bolt.
Context {D T C : Type} `{DB : Bbolt D T C} `{!ProtoCodec pbLogEntry, !ProtoCodec pbSnapshot}.
Local Abbreviation BS := (Bolt D).

Definition set_db d (s : BS) : BS := mkBolt d (b_first s) (b_last s) (b_snapIndex s) (b_snapTerm s)
  (b_floorIndex s) (b_floorTerm s) (b_hardState s).
Definition set_bounds f l (s : BS) : BS := mkBolt (b_db s) f l (b_snapIndex s) (b_snapTerm s)
  (b_floorIndex s) (b_floorTerm s) (b_hardState s).
Definition set_snap i t (s : BS) : BS := mkBolt (b_db s) (b_first s) (b_last s) i t
  (b_floorIndex s) (b_floorTerm s) (b_hardState s).
Definition set_floor i t (s : BS) : BS := mkBolt (b_db s) (b_first s) (b_last s) (b_snapIndex s)
  (b_snapTerm s) i t (b_hardState s).
Definition set_b_hardState hs (s : BS) : BS := mkBolt (b_db s) (b_first s) (b_last s) (b_snapIndex s)
  (b_snapTerm s) (b_floorIndex s) (b_floorTerm s) hs.

Definition on_db {A} (m : M D A) : M BS A := zoom b_db set_db m.

(** [init]: creates the buckets and loads the cached state. *)
Definition Bolt_load : M T (HardState * (Index * Term) * (Index * Term) * (Index * Index)) :=
  wrapErr "storage: creating log bucket" (CreateBucketIfNotExists bucketLog) ;;;
  wrapErr "storage: creating meta bucket" (CreateBucketIfNotExists bucketMeta) ;;;
  t <- get ;;
  hs <- reads (λ _, match BucketGet bucketMeta keyHardState t with
                    | Some raw => UnmarshalHardState raw
                    | None => Ret zeroHardState
                    end) ;;
  snap <- reads (λ _, match BucketGet bucketMeta keySnapshot t with
                      | Some raw =>
                          let? s := UnmarshalSnapshot raw in
                          Ret (snap_LastIncludedIndex s, snap_LastIncludedTerm s)
                      | None => Ret (0%N, 0%N)
                      end) ;;
  floor <- reads (λ _, match BucketGet bucketMeta keyFloor t with
                       | Some raw => decodeFloor raw
                       | None => Ret (0%N, 0%N)
                       end) ;;
  last_ <- reads (λ _, match Last bucketLog t with
                       | Some (k, _, _) => decodeIndex k
                       | None => Ret (fst floor)
                       end) ;;
  first <- reads (λ _, match First bucketLog t with
                       | Some (k, _, _) => decodeIndex k
                       | None => Ret (fst floor +u 1)
                       end) ;;
  ret (hs, snap, floor, (first, last_)).

(** [Open], on a database bbolt has opened. *)
Definition Bolt_Open : M D BS :=
  r <- Update Bolt_load ;;
  d <- get ;;
  let '(hs, (si, st), (fi, ft), (first, last_)) := r in
  ret (mkBolt d first last_ si st fi ft hs).

(** ** Reading *)

Definition Bolt_FirstIndex (s : BS) : Index := b_first s.
Definition Bolt_LastIndex (s : BS) : Index := b_last s.

Definition Bolt_LoadSnapshot (s : BS) : outcome Snapshot :=
  View (λ t,
    let? _ := Bucket bucketMeta t in
    match BucketGet bucketMeta keySnapshot t with
    | None => Ret zeroSnapshot
    | Some raw => UnmarshalSnapshot raw
    end) (b_db s).

Definition Bolt_InitialState (s : BS) : outcome (HardState * Snapshot) :=
  let? snap := Bolt_LoadSnapshot s in Ret (b_hardState s, snap).

Definition Bolt_GetEntry (i : Index) (s : BS) : outcome LogEntry :=
  if (i <? b_first s)%N then Fail (Errorf "storage: entry, first available" [ErrCompacted])
  else if (b_last s <? i)%N then Fail (Errorf "storage: entry, last index" [ErrUnavailable])
  else
    View (λ t,
      let? _ := Bucket bucketLog t in
      match BucketGet bucketLog (encodeIndex i) t with
      | None => Fail (Errorf "storage: index is within range but absent" [ErrUnavailable])
      | Some raw => UnmarshalEntry raw
      end) (b_db s).

Definition Bolt_Term (i : Index) (s : BS) : outcome Term :=
  if ((i =? b_floorIndex s) && (0 <? b_floorIndex s))%N then Ret (b_floorTerm s)
  else let? e := Bolt_GetEntry i s in Ret (e_Term e).

(** [for k, v := c.Seek(lo); k != nil && decodeIndex(k) < hi; k, v = c.Next()] *)
Fixpoint scan (fuel : nat) (hi : Index) (at_ : option (bytes * bytes * C)) (t : T)
    : outcome (list LogEntry) :=
  match at_ with
  | None => Ret []
  | Some (k, v, c) =>
      let? i := decodeIndex k in
      if (i <? hi)%N then
        match fuel with
        | O => OutOfFuel
        | Datatypes.S n =>
            let? e := UnmarshalEntry v in
            let? rest := scan n hi (Next c t) t in
            Ret (e :: rest)
        end
      else Ret []
  end.

Definition Bolt_Entries (lo hi : Index) (s : BS) : outcome (list LogEntry) :=
  if (hi <=? lo)%N then Ret []
  else if (lo <? b_first s)%N then Fail (Errorf "storage: entries, first available" [ErrCompacted])
  else if (b_last s +u 1 <? hi)%N then Fail (Errorf "storage: entries, last index" [ErrUnavailable])
  else
    View (λ t,
      let? _ := Bucket bucketLog t in
      scan (N.to_nat (hi - lo)) hi (Seek bucketLog (encodeIndex lo) t) t) (b_db s).

(** ** Writing *)

Definition Bolt_SetHardState (hs : HardState) : M BS unit :=
  s <- get ;;
  if (hs_Term hs <? hs_Term (b_hardState s))%N
  then fail (Errorf "storage: hard state term is below persisted term" [])
  else
    wrapErr "storage: persisting hard state"
      (on_db (Update (reads (Bucket bucketMeta) ;;;
                      BucketPut bucketMeta keyHardState (MarshalHardState hs)))) ;;;
    modify (set_b_hardState hs).

(** [for k, _ := c.Seek(firstNew); k != nil; k, _ = c.Next() { c.Delete() }] *)
Fixpoint truncate (fuel : nat) (at_ : option (bytes * bytes * C)) : M T unit :=
  match at_ with
  | None => ret tt
  | Some (_, _, c) =>
      match fuel with
      | O => outOfFuel
      | Datatypes.S n =>
          c' <- wrapErr "storage: truncating" (CursorDelete c) ;;
          t <- get ;;
          truncate n (Next c' t)
      end
  end.

Definition writeEntry (e : LogEntry) : M T unit :=
  raw <- reads (λ _, MarshalEntry e) ;;
  wrapErr "storage: writing entry" (BucketPut bucketLog (encodeIndex (e_Index e)) raw).

(** The transaction of [AppendEntries]: [rounds] bounds the keys a well-formed log has
    from [firstNew] on. *)
Definition appendTx (rounds : nat) (firstNew : Index) (entries : list LogEntry) : M T unit :=
  reads (Bucket bucketLog) ;;;
  t <- get ;;
  truncate rounds (Seek bucketLog (encodeIndex firstNew) t) ;;;
  forEach entries writeEntry.

Definition Bolt_AppendEntries (entries : list LogEntry) : M BS unit :=
  match entries with
  | [] => ret tt
  | e0 :: _ =>
      reads (λ _, checkContiguous entries) ;;;
      s <- get ;;
      let firstNew := e_Index e0 in
      let lastNew := e_Index (List.last entries e0) in
      (* entirely below the floor: nothing left to store *)
      if (lastNew <=? b_floorIndex s)%N then ret tt
      else
        let entries' :=
          if (firstNew <=? b_floorIndex s)%N
          then drop (N.to_nat (b_floorIndex s +u 1 -u firstNew)) entries else entries in
        match entries' with
        | [] => panic "index out of range"
        | e :: _ =>
            if (b_last s +u 1 <? e_Index e)%N
            then fail (Errorf "storage: append leaves a gap after last index" [])
            else
              on_db (Update (appendTx (N.to_nat (b_last s + 1 - e_Index e)) (e_Index e) entries')) ;;;
              modify (λ s, set_bounds
                (if (lastNew <? b_first s)%N then b_floorIndex s +u 1 else b_first s) lastNew s)
        end
  end.

Definition snapshotTx (snap : Snapshot) (raw : bytes) (replaceLog : bool) : M T unit :=
  reads (Bucket bucketMeta) ;;;
  wrapErr "storage: writing snapshot" (BucketPut bucketMeta keySnapshot raw) ;;;
  if negb replaceLog then ret tt
  else
    wrapErr "storage: writing log floor"
      (BucketPut bucketMeta keyFloor
         (encodeFloor (snap_LastIncludedIndex snap) (snap_LastIncludedTerm snap))) ;;;
    res <- try (DeleteBucket bucketLog) ;;
    match res with
    | inr err =>
        if negb (errorsIs err ErrBucketNotFound) then fail (Errorf "storage: clearing log" [err])
        else CreateBucketIfNotExists bucketLog
    | inl _ => CreateBucketIfNotExists bucketLog
    end.

(** Whether the snapshot runs past the log, or disagrees with it at the boundary. *)
Definition replacesLog (snap : Snapshot) (s : BS) : outcome bool :=
  if (b_last s <? snap_LastIncludedIndex snap)%N then Ret true
  else match Bolt_Term (snap_LastIncludedIndex snap) s with
       | Ret term => Ret (negb (term =? snap_LastIncludedTerm snap)%N)
       | Fail _ => Ret true
       | Panic p => Panic p
       | OutOfFuel => OutOfFuel
       end.

Definition Bolt_SaveSnapshot (snap : Snapshot) : M BS unit :=
  s <- get ;;
  let i := snap_LastIncludedIndex snap in
  let t := snap_LastIncludedTerm snap in
  if (i <=? b_snapIndex s)%N
  then fail (Errorf "storage: snapshot, already have" [ErrSnapshotOutOfDate])
  else
    raw <- reads (λ _, MarshalSnapshot snap) ;;
    replaceLog <- reads (replacesLog snap) ;;
    on_db (Update (snapshotTx snap raw replaceLog)) ;;;
    modify (set_snap i t) ;;;
    if (replaceLog : bool) then modify (λ s, set_bounds (i +u 1) i (set_floor i t s)) else ret tt.

(** [for k, _ := c.First(); k != nil && decodeIndex(k) <= upto; k, _ = c.Next()] *)
Fixpoint discard_upto (fuel : nat) (upto : Index) (at_ : option (bytes * bytes * C)) : M T unit :=
  match at_ with
  | None => ret tt
  | Some (k, _, c) =>
      i <- reads (λ _, decodeIndex k) ;;
      if (i <=? upto)%N then
        match fuel with
        | O => outOfFuel
        | Datatypes.S n =>
            c' <- wrapErr "storage: compacting" (CursorDelete c) ;;
            t <- get ;;
            discard_upto n upto (Next c' t)
        end
      else ret tt
  end.

Definition compactTx (rounds : nat) (upto : Index) (term : Term) : M T unit :=
  reads (Bucket bucketMeta) ;;;
  wrapErr "storage: writing log floor" (BucketPut bucketMeta keyFloor (encodeFloor upto term)) ;;;
  reads (Bucket bucketLog) ;;;
  t <- get ;;
  discard_upto rounds upto (First bucketLog t).

Definition Bolt_Compact (upto : Index) : M BS unit :=
  s <- get ;;
  if (upto <=? b_floorIndex s)%N then ret tt
  else if (b_last s <? upto)%N then fail (Errorf "storage: compact past last index" [])
  else
    term <- wrapErr "storage: reading term at compaction boundary" (reads (Bolt_Term upto)) ;;
    on_db (Update (compactTx (N.to_nat (upto - b_floorIndex s)) upto term)) ;;;
    modify (λ s, set_bounds (upto +u 1) (b_last s) (set_floor upto term s)).

#[export] Instance Bolt_Storage : Storage BS := {
  InitialState := Bolt_InitialState;
  SetHardState := Bolt_SetHardState;
  AppendEntries := Bolt_AppendEntries;
  GetEntry := Bolt_GetEntry;
  Entries := Bolt_Entries;
  FirstIndex := Bolt_FirstIndex;
  LastIndex := Bolt_LastIndex;
  StorageTerm := Bolt_Term;
  SaveSnapshot := Bolt_SaveSnapshot;
  LoadSnapshot := Bolt_LoadSnapshot;
  Compact := Bolt_Compact
}.
End bolt.

(** ** What the store relies on *)

(** The pair a cursor is put on: of the keys that satisfy [P] the one that comes first
    in byte order. *)
Definition lands (m : gmap bytes bytes) (P : bytes → Prop) (r : option (bytes * bytes)) : Prop :=
  match r with
  | Some (k, v) => P k ∧ m !! k = Some v ∧ ∀ k', P k' → is_Some (m !! k') → bytes_le k k'
  | None => ∀ k, P k → m !! k = None
  end.

(** An error of bbolt's own is not one of the core's. *)
Definition foreign (e : error) : Prop := errorsIs e ErrIgnoredMessage = false.

Class BboltLaws (D T C : Type) `{Bbolt D T C} := {
  (** the buckets of a transaction, the transaction a database would begin, and the
      bucket and key a cursor stands on *)
  contents : T → bucketName → option (gmap bytes bytes);
  begin_tx : D → T;
  stands : C → bucketName * bytes;
  bucket_has n t : hasBucket n t = bool_decide (is_Some (contents t n));
  bucket_get n k t m : contents t n = Some m → BucketGet n k t = m !! k;
  bucket_create n t :
    wp (CreateBucketIfNotExists n)
       (λ _ t', ∀ n', contents t' n' =
          if decide (n' = n) then Some (default ∅ (contents t n)) else contents t n')
       (λ e _, foreign e) (λ _, False) t;
  bucket_delete n t :
    is_Some (contents t n) →
    wp (DeleteBucket n)
       (λ _ t', ∀ n', contents t' n' = if decide (n' = n) then None else contents t n')
       (λ e _, foreign e ∧ errorsIs e ErrBucketNotFound = false) (λ _, False) t;
  bucket_put n k v t m :
    contents t n = Some m →
    wp (BucketPut n k v)
       (λ _ t', ∀ n', contents t' n' = if decide (n' = n) then Some (<[k := v]> m) else contents t n')
       (λ e _, foreign e) (λ _, False) t;
  cursor_seek n k t m :
    contents t n = Some m →
    lands m (bytes_le k) (fst <$> Seek n k t) ∧
    ∀ k' v c, Seek n k t = Some (k', v, c) → stands c = (n, k');
  cursor_first n t m :
    contents t n = Some m →
    lands m (λ _, True) (fst <$> First n t) ∧
    ∀ k v c, First n t = Some (k, v, c) → stands c = (n, k);
  cursor_last n t m :
    contents t n = Some m →
    match Last n t with
    | Some (k, v, c) => m !! k = Some v ∧ ∀ k', is_Some (m !! k') → bytes_le k' k
    | None => m = ∅
    end;
  cursor_next c n k t m :
    stands c = (n, k) → contents t n = Some m →
    lands m (λ k', bytes_le k k' ∧ k' ≠ k) (fst <$> Next c t) ∧
    ∀ k' v c', Next c t = Some (k', v, c') → stands c' = (n, k');
  (** a deleted key leaves the cursor where it was: the next key is the one above it *)
  cursor_delete c n k t m :
    stands c = (n, k) → contents t n = Some m →
    wp (CursorDelete c)
       (λ c' t', stands c' = (n, k) ∧
          ∀ n', contents t' n' = if decide (n' = n) then Some (delete k m) else contents t n')
       (λ e _, foreign e) (λ _, False) t;
  (** all or nothing: a commit makes the transaction's writes the database's, and an
      error, the function's or the commit's, rolls everything back *)
  update_atomic {A} (f : M T A) d :
    match Update f d with
    | (Ret a, d') => ∃ t', f (begin_tx d) = (Ret a, t') ∧ ∀ n, contents (begin_tx d') n = contents t' n
    | (Fail e, d') =>
        (∀ n, contents (begin_tx d') n = contents (begin_tx d) n) ∧
        ((∃ t', f (begin_tx d) = (Fail e, t')) ∨ foreign e)
    | (Panic p, d') =>
        (∀ n, contents (begin_tx d') n = contents (begin_tx d) n) ∧ ∃ t', f (begin_tx d) = (Panic p, t')
    | (OutOfFuel, d') =>
        (∀ n, contents (begin_tx d') n = contents (begin_tx d) n) ∧ ∃ t', f (begin_tx d) = (OutOfFuel, t')
    end;
  view_reads {A} (f : T → outcome A) d : View f d = f (begin_tx d)
}.

(** ** Key order *)

Fixpoint be (n : nat) (i : N) : bytes :=
  match n with
  | O => []
  | Datatypes.S k => byte_of (N.shiftr i (8 * N.of_nat k)) :: be k i
  end.

Lemma encodeIndex_be i : encodeIndex i = be 8 i.
Proof. done. Qed.

Lemma length_be n i : length (be n i) = n.
Proof. induction n; cbn; congruence. Qed.

Lemma shiftr_div i k : N.shiftr i (8 * k) = (i / 256 ^ k)%N.
Proof. by rewrite N.shiftr_div_pow2, N.pow_mul_r. Qed.

Lemma be_mod n i : be n i = be n (i mod 256 ^ N.of_nat n).
Proof.
  assert (∀ m, (n ≤ m)%nat → be n i = be n (i mod 256 ^ N.of_nat m)) as H; [|by apply H].
  induction n as [|n IH]; intros m Hm; [done|]. cbn [be]. f_equal; [|apply IH; lia].
  apply to_N_inj. rewrite !to_N_byte_of, !shiftr_div.
  replace (256 ^ N.of_nat m)%N with (256 ^ N.of_nat n * 256 * 256 ^ (N.of_nat m - N.of_nat n - 1))%N.
  - rewrite <- N.mul_assoc, N.Div0.mod_mul_r, (N.mul_comm (256 ^ N.of_nat n)), N.div_add
      by (apply N.pow_nonzero; lia).
    rewrite (N.div_small (i mod _)), N.add_0_l by (apply N.mod_lt, N.pow_nonzero; lia).
    rewrite N.Div0.mod_mul_r, (N.mul_comm 256), N.Div0.mod_add. by rewrite N.Div0.mod_mod.
  - rewrite <- N.mul_assoc, <- N.pow_succ_r', <- N.pow_add_r. f_equal. lia.
Qed.

(** Big-endian keys sort as the numbers do. *)
Lemma be_le n i j :
  (i < 256 ^ N.of_nat n)%N → (j < 256 ^ N.of_nat n)%N → bytes_le (be n i) (be n j) ↔ (i ≤ j)%N.
Proof.
  revert i j. induction n as [|n IH]; intros i j.
  { cbn. intros Hi Hj. split; [lia|done]. }
  rewrite Nat2N.inj_succ, N.pow_succ_r'. intros Hi Hj. cbn [be]. rewrite bytes_le_cons.
  assert (256 ^ N.of_nat n ≠ 0)%N as Hnz by (apply N.pow_nonzero; lia).
  rewrite (be_mod n i), (be_mod n j), IH by (by apply N.mod_lt).
  assert (∀ x, (x < 256 * 256 ^ N.of_nat n)%N →
    Byte.to_N (byte_of (N.shiftr x (8 * N.of_nat n))) = (x / 256 ^ N.of_nat n)%N) as Hd.
  { intros x Hx. rewrite to_N_byte_of, shiftr_div. apply N.mod_small.
    apply N.Div0.div_lt_upper_bound. lia. }
  assert (byte_of (N.shiftr i (8 * N.of_nat n)) = byte_of (N.shiftr j (8 * N.of_nat n)) ↔
    (i / 256 ^ N.of_nat n = j / 256 ^ N.of_nat n)%N) as ->.
  { rewrite <- (Hd i Hi), <- (Hd j Hj). split; [congruence|apply to_N_inj]. }
  rewrite (Hd i Hi), (Hd j Hj).
  pose proof (N.Div0.div_mod i (256 ^ N.of_nat n)) as Ei. pose proof (N.mod_lt i _ Hnz) as Ri.
  pose proof (N.Div0.div_mod j (256 ^ N.of_nat n)) as Ej. pose proof (N.mod_lt j _ Hnz) as Rj.
  set (q := (256 ^ N.of_nat n)%N) in *. clearbody q.
  generalize dependent (i / q)%N. generalize dependent (i mod q)%N.
  generalize dependent (j / q)%N. generalize dependent (j mod q)%N. intros. subst. nia.
Qed.

Lemma W64_be : W64 = (256 ^ N.of_nat 8)%N.
Proof. done. Qed.

Lemma encodeIndex_le i j :
  (i < W64)%N → (j < W64)%N → bytes_le (encodeIndex i) (encodeIndex j) ↔ (i ≤ j)%N.
Proof. intros Hi Hj. rewrite !encodeIndex_be. by apply be_le. Qed.

Lemma encodeIndex_inj i j :
  (i < W64)%N → (j < W64)%N → encodeIndex i = encodeIndex j → i = j.
Proof.
  intros Hi Hj E. apply N.le_antisymm; apply encodeIndex_le; try done; by rewrite E.
Qed.

Lemma decode_be n i acc :
  foldl (λ acc b, N.lor (N.shiftl acc 8) (Byte.to_N b)) acc (be n i) =
  (acc * 256 ^ N.of_nat n + i mod 256 ^ N.of_nat n)%N.
Proof.
  revert acc. induction n as [|n IH]; intros acc.
  { cbn. rewrite N.mod_1_r. lia. }
  cbn [be foldl]. rewrite IH. rewrite N.lor_comm.
  rewrite lor_shiftl_add by (rewrite to_N_byte_of; apply N.mod_lt; lia).
  rewrite to_N_byte_of, shiftr_div, Nat2N.inj_succ, N.pow_succ_r'.
  rewrite (N.mul_comm 256 (256 ^ _)), N.Div0.mod_mul_r. change (2 ^ 8)%N with 256%N. lia.
Qed.

Lemma decodeIndex_encode i : (i < W64)%N → decodeIndex (encodeIndex i) = Ret i.
Proof.
  intros Hi. rewrite encodeIndex_be. unfold decodeIndex.
  rewrite length_be, take_ge by (by rewrite length_be). cbn [Nat.ltb Nat.leb].
  rewrite decode_be, N.mod_small by done. done.
Qed.

Lemma decodeFloor_encode i t :
  (i < W64)%N → (t < W64)%N → decodeFloor (encodeFloor i t) = Ret (i, t).
Proof.
  intros Hi Ht. unfold decodeFloor, encodeFloor, AppendUvarint. rewrite app_nil_l.
  rewrite Uvarint_bytes by done. pose proof (length_uvarint_pos i) as Hp.
  rewrite (proj2 (Z.leb_gt _ 0)) by lia. rewrite Nat2Z.id, drop_app_length.
  rewrite <- (app_nil_r (uvarint_bytes _ t)), Uvarint_bytes by done.
  pose proof (length_uvarint_pos t) as Hq. by rewrite (proj2 (Z.leb_gt _ 0)) by lia.
Qed.

(** ** The log bucket *)

Section laws.
Context {D T C : Type} `{DB : Bbolt D T C} `{BL : !BboltLaws D T C}
  `{!ProtoCodec pbLogEntry, !ProtoCodec pbSnapshot}.
Local Abbreviation BS := (Bolt D).
Implicit Types (s : BS) (d : D) (t : T) (lm mm : gmap bytes bytes) (es : list LogEntry).

(** The bucket holds the entries [es], at the keys from [f] on, but for the positions
    from [j] up to [i]. *)
Definition gap_bucket (f : Index) es (j i : nat) lm : Prop :=
  (∀ k e, es !! k = Some e → (k < j ∨ i ≤ k)%nat →
     ∃ raw, lm !! encodeIndex (f + N.of_nat k) = Some raw ∧ UnmarshalEntry raw = Ret e) ∧
  (∀ key, is_Some (lm !! key) →
     ∃ k, (k < length es)%nat ∧ (k < j ∨ i ≤ k)%nat ∧ key = encodeIndex (f + N.of_nat k)).

Definition log_bucket (f : Index) es lm : Prop := gap_bucket f es 0 0 lm.

Lemma log_bucket_gap f es j lm : log_bucket f es lm → gap_bucket f es j j lm.
Proof.
  intros [H1 H2]. split.
  - intros k e He _. apply (H1 k e He). lia.
  - intros key Hk. destruct (H2 key Hk) as (k & Hl & _ & ->). exists k. split_and!; [done|lia|done].
Qed.

Lemma gap_delete f es j i lm :
  (f + N.of_nat (length es) ≤ W64)%N → (j ≤ i < length es)%nat → gap_bucket f es j i lm →
  gap_bucket f es j (S i) (delete (encodeIndex (f + N.of_nat i)) lm).
Proof.
  intros HW Hi [H1 H2]. split.
  - intros k e He Hk. pose proof (lookup_lt_Some _ _ _ He).
    rewrite lookup_delete_ne; [apply (H1 k e He); lia|].
    intros E%encodeIndex_inj; lia.
  - intros key [raw Hr]. apply lookup_delete_Some in Hr as [Hne Hr].
    destruct (H2 key) as (k & Hl & Hk & ->); [by eexists|]. exists k. split_and!; [done| |done].
    destruct (decide (k = i)) as [->|]; [done|lia].
Qed.

(** Where a cursor lands. *)
Lemma gap_lands f es j i p lm P r :
  (f + N.of_nat (length es) ≤ W64)%N → gap_bucket f es j i lm → (i ≤ p)%nat →
  (∀ k, (k < length es)%nat → (k < j ∨ i ≤ k)%nat → P (encodeIndex (f + N.of_nat k)) ↔ (p ≤ k)%nat) →
  lands lm P r →
  match r with
  | Some (k, v) => (p < length es)%nat ∧ k = encodeIndex (f + N.of_nat p) ∧ lm !! k = Some v
  | None => (length es ≤ p)%nat
  end.
Proof.
  intros HW [H1 H2] Hip HP. destruct r as [[key v]|]; cbn.
  - intros (HPk & Hv & Hmin). destruct (H2 key) as (k & Hl & Hk & ->); [by eexists|].
    apply HP in HPk; [|done..].
    destruct (lookup_lt_is_Some_2 es p) as [e He]; [lia|].
    destruct (H1 p e He) as (raw & Hr & _); [lia|].
    assert (bytes_le (encodeIndex (f + N.of_nat k)) (encodeIndex (f + N.of_nat p))) as Hle.
    { apply Hmin; [apply HP; lia|by eexists]. }
    apply encodeIndex_le in Hle; [|lia..]. assert (k = p) as -> by lia. by split_and!.
  - intros Hnone. destruct (decide (p < length es)%nat) as [Hlt|]; [|lia].
    destruct (lookup_lt_is_Some_2 es p Hlt) as [e He].
    destruct (H1 p e He) as (raw & Hr & _); [lia|].
    rewrite Hnone in Hr; [done|]. apply HP; lia.
Qed.

Lemma enc_from f p k n :
  (f + N.of_nat n ≤ W64)%N → (k < n)%nat → (f + N.of_nat p < W64)%N →
  bytes_le (encodeIndex (f + N.of_nat p)) (encodeIndex (f + N.of_nat k)) ↔ (p ≤ k)%nat.
Proof. intros HW Hk Hp. rewrite encodeIndex_le by lia. lia. Qed.

Lemma enc_above f p k n :
  (f + N.of_nat n ≤ W64)%N → (k < n)%nat → (p < n)%nat →
  bytes_le (encodeIndex (f + N.of_nat p)) (encodeIndex (f + N.of_nat k)) ∧
  encodeIndex (f + N.of_nat k) ≠ encodeIndex (f + N.of_nat p) ↔ (S p ≤ k)%nat.
Proof.
  intros HW Hk Hp. rewrite (enc_from f p k n) by lia. split.
  - intros [Hle Hne]. destruct (decide (k = p)) as [->|]; [done|lia].
  - intros Hle. split; [lia|]. intros E%encodeIndex_inj; lia.
Qed.

Lemma gap_take f es j lm :
  (j ≤ length es)%nat → gap_bucket f es j (length es) lm → log_bucket f (take j es) lm.
Proof.
  intros Hj [H1 H2]. split.
  - intros k e He _. rewrite lookup_take in He. case_decide; [|done]. apply (H1 k e He). lia.
  - intros key Hk. destruct (H2 key Hk) as (k & Hl & Hk' & ->). exists k.
    rewrite length_take. split_and!; [lia..|done].
Qed.

Lemma gap_drop f es i lm :
  gap_bucket f es 0 i lm → log_bucket (f + N.of_nat i) (drop i es) lm.
Proof.
  intros [H1 H2]. split.
  - intros k e He _. rewrite lookup_drop in He. destruct (H1 _ e He) as (raw & Hr & HU); [lia|].
    exists raw. split; [|done]. rewrite <- Hr. do 2 f_equal. lia.
  - intros key Hk. destruct (H2 key Hk) as (k & Hl & Hk' & ->). exists (k - i)%nat.
    rewrite length_drop. split_and!; [lia|lia|]. f_equal. lia.
Qed.

Lemma log_bucket_snoc f es lm e raw :
  (f + N.of_nat (length es) < W64)%N → log_bucket f es lm → MarshalEntry e = Ret raw →
  log_bucket f (es ++ [e]) (<[encodeIndex (f + N.of_nat (length es)) := raw]> lm).
Proof.
  intros HW [H1 H2] HM. split.
  - intros k x Hx _. apply lookup_snoc_Some in Hx as [[Hk Hx]|[-> ->]].
    + rewrite lookup_insert_ne; [apply (H1 k x Hx); lia|]. intros E%encodeIndex_inj; lia.
    + exists raw. rewrite lookup_insert_eq. split; [done|by apply UnmarshalEntry_Marshal].
  - intros key [v Hv]. rewrite length_app. cbn.
    apply lookup_insert_Some in Hv as [[<- _]|[_ Hv]].
    + exists (length es). split_and!; [lia..|done].
    + destruct (H2 key) as (k & Hl & _ & ->); [by eexists|]. exists k. split_and!; [lia..|done].
Qed.

Lemma log_bucket_empty f : log_bucket f [] ∅.
Proof. split; [done|]. intros key [? Hk]. by rewrite lookup_empty in Hk. Qed.

(** ** Transactions *)

Definition both lm mm t : Prop := contents t bucketLog = Some lm ∧ contents t bucketMeta = Some mm.

(** A transaction function: it returns with buckets [Q] accepts, or fails with an error
    that is not the core's. *)
Definition twp {A} (m : M T A) (Q : A → gmap bytes bytes → gmap bytes bytes → Prop) t : Prop :=
  wp m (λ a t', ∃ lm mm, both lm mm t' ∧ Q a lm mm) (λ e _, foreign e) (λ _, False) t.

Lemma foreign_wrap msg e : foreign e → foreign (Errorf msg [e]).
Proof. unfold foreign. cbn. by intros ->. Qed.

Lemma twp_bind {A B} (m : M T A) (f : A → M T B) Q Q' t :
  twp m Q' t → (∀ a t' lm mm, both lm mm t' → Q' a lm mm → twp (f a) Q t') → twp (bind m f) Q t.
Proof.
  intros Hm Hf. apply wp_bind. eapply wp_mono; [exact Hm|..]; [|done..]. cbn beta.
  intros a t' (lm & mm & Hb & HQ). by eapply Hf.
Qed.

Lemma twp_bucket {B} n (f : unit → M T B) Q lm mm t :
  both lm mm t → twp (f tt) Q t → twp (bind (reads (Bucket n)) f) Q t.
Proof.
  intros [Hl Hm] Hf. apply wp_bind, wp_reads. unfold Bucket. rewrite bucket_has.
  rewrite bool_decide_true by (destruct n; rewrite ?Hl, ?Hm; by eexists). exact Hf.
Qed.

Lemma put_log lm mm msg k v t :
  both lm mm t →
  twp (wrapErr msg (BucketPut bucketLog k v)) (λ _ lm' mm', lm' = <[k := v]> lm ∧ mm' = mm) t.
Proof.
  intros [Hl Hm]. apply wp_wrapErr. eapply wp_mono; [by eapply bucket_put|..]; [..|done]; cbn beta.
  - intros _ t' H. exists (<[k := v]> lm), mm. split; [|done]. split; by rewrite H.
  - intros e _. apply foreign_wrap.
Qed.

Lemma put_meta lm mm msg k v t :
  both lm mm t →
  twp (wrapErr msg (BucketPut bucketMeta k v)) (λ _ lm' mm', lm' = lm ∧ mm' = <[k := v]> mm) t.
Proof.
  intros [Hl Hm]. apply wp_wrapErr. eapply wp_mono; [by eapply bucket_put|..]; [..|done]; cbn beta.
  - intros _ t' H. exists lm, (<[k := v]> mm). split; [|done]. split; by rewrite H.
  - intros e _. apply foreign_wrap.
Qed.

Lemma put_meta_plain lm mm k v t :
  both lm mm t → twp (BucketPut bucketMeta k v) (λ _ lm' mm', lm' = lm ∧ mm' = <[k := v]> mm) t.
Proof.
  intros [Hl Hm]. eapply wp_mono; [by eapply bucket_put|..]; [|done..]. cbn beta.
  intros _ t' H. exists lm, (<[k := v]> mm). split; [|done]. split; by rewrite H.
Qed.

Lemma delete_log c key msg lm mm t :
  both lm mm t → stands c = (bucketLog, key) →
  twp (wrapErr msg (CursorDelete c))
      (λ c' lm' mm', stands c' = (bucketLog, key) ∧ lm' = delete key lm ∧ mm' = mm) t.
Proof.
  intros [Hl Hm] Hc. apply wp_wrapErr. eapply wp_mono; [by eapply cursor_delete|..]; [..|done]; cbn beta.
  - intros c' t' [Hc' H]. exists (delete key lm), mm. split; [|done]. split; by rewrite H.
  - intros e _. apply foreign_wrap.
Qed.

(** A cursor on position [p] of the entries, or past them. *)
Definition on_entry (f : Index) es (p : nat) lm (at_ : option (bytes * bytes * C)) : Prop :=
  match at_ with
  | Some (k, v, c) =>
      (p < length es)%nat ∧ k = encodeIndex (f + N.of_nat p) ∧ lm !! k = Some v ∧
      stands c = (bucketLog, k)
  | None => (length es ≤ p)%nat
  end.

Lemma next_on_entry f es j i p lm mm t c :
  both lm mm t → (f + N.of_nat (length es) ≤ W64)%N → gap_bucket f es j i lm →
  (j ≤ p)%nat → (i ≤ S p)%nat → (p < length es)%nat →
  stands c = (bucketLog, encodeIndex (f + N.of_nat p)) →
  on_entry f es (S p) lm (Next c t).
Proof.
  intros [Hl _] HW Hg Hj Hi Hp Hc. destruct (cursor_next c _ _ t lm Hc Hl) as [Hland Hst].
  apply (gap_lands f es j i (S p)) in Hland; [|done|done|done|].
  - destruct (Next c t) as [[[k v] c']|] eqn:E; cbn in Hland; [|done].
    destruct Hland as (? & ? & ?). split_and!; try done. by eapply Hst.
  - intros k Hk _. by apply (enc_above f p k (length es)).
Qed.

Lemma truncate_ok f es j mm fuel i at_ lm t :
  both lm mm t → (f + N.of_nat (length es) ≤ W64)%N → gap_bucket f es j i lm →
  (j ≤ i)%nat → (length es ≤ i + fuel)%nat → (j ≤ length es)%nat → (i ≤ length es)%nat →
  on_entry f es i lm at_ →
  twp (truncate fuel at_) (λ _ lm' mm', log_bucket f (take j es) lm' ∧ mm' = mm) t.
Proof.
  revert i at_ lm t. induction fuel as [|n IH]; intros i at_ lm t Hb HW Hg Hj Hf Hjl Hil Hat;
    destruct at_ as [[[k v] c]|]; cbn [truncate].
  1: destruct Hat; lia.
  1,3: cbn in Hat; apply wp_ret; exists lm, mm; split; [done|]; split; [|done];
    (apply gap_take; [done|]); by replace i with (length es) in Hg by lia.
  destruct Hat as (Hp & -> & Hv & Hc).
  eapply twp_bind; [by eapply delete_log|]. cbn beta. intros c' t' lm' mm' Hb' (Hc' & -> & ->).
  unfold twp. apply wp_bind, wp_get.
  pose proof (gap_delete f es j i lm HW ltac:(lia) Hg) as Hg'.
  eapply IH; [done..|lia|lia|done|lia|]. eapply next_on_entry; [done..|lia|lia|done|done].
Qed.

Lemma discard_ok f es mm n fuel i at_ lm t :
  both lm mm t → (f + N.of_nat (length es) ≤ W64)%N → gap_bucket f es 0 i lm →
  (n ≤ i + fuel)%nat → (i ≤ n ≤ length es)%nat → (0 < f)%N → on_entry f es i lm at_ →
  twp (discard_upto fuel (f + N.of_nat n - 1) at_)
    (λ _ lm' mm', log_bucket (f + N.of_nat n) (drop n es) lm' ∧ mm' = mm) t.
Proof.
  revert i at_ lm t. induction fuel as [|m IH]; intros i at_ lm t Hb HW Hg Hf Hn Hf0 Hat;
    (destruct at_ as [[[k v] c]|]; cbn [discard_upto];
     [destruct Hat as (Hp & -> & Hv & Hc); unfold twp; apply wp_bind, wp_reads;
      rewrite decodeIndex_encode by lia|
      cbn in Hat; apply wp_ret; exists lm, mm; split; [done|]; split; [|done];
      apply gap_drop; by replace n with i by lia]).
  - rewrite (proj2 (N.leb_gt _ _)) by lia. apply wp_ret. exists lm, mm. split; [done|].
    split; [|done]. apply gap_drop. by replace n with i by lia.
  - destruct (N.leb_spec (f + N.of_nat i) (f + N.of_nat n - 1)).
    2: { apply wp_ret. exists lm, mm. split; [done|]. split; [|done]. apply gap_drop.
         by replace n with i by lia. }
    eapply twp_bind; [by eapply delete_log|]. cbn beta. intros c' t' lm' mm' Hb' (Hc' & -> & ->).
    unfold twp. apply wp_bind, wp_get.
    pose proof (gap_delete f es 0 i lm HW ltac:(lia) Hg) as Hg'.
    eapply IH; [done|done|exact Hg'|lia|lia|done|].
    eapply next_on_entry; [done|done|exact Hg'|lia|lia|done|done].
Qed.

Lemma writeEntries_ok f mm ents es lm t :
  both lm mm t → log_bucket f es lm → contiguous_from (f + N.of_nat (length es)) ents →
  (f + N.of_nat (length es) + N.of_nat (length ents) ≤ W64)%N →
  twp (forEach ents writeEntry) (λ _ lm' mm', log_bucket f (es ++ ents) lm' ∧ mm' = mm) t.
Proof.
  revert es lm t. induction ents as [|e ents IH]; intros es lm t Hb Hg Hc HW; cbn [forEach].
  { apply wp_ret. exists lm, mm. by rewrite app_nil_r. }
  pose proof (Hc 0%nat e eq_refl) as He. rewrite N.add_0_r in He. cbn [length] in HW.
  apply (twp_bind _ _ _ (λ _ lm' mm', log_bucket f (es ++ [e]) lm' ∧ mm' = mm)).
  - unfold writeEntry, twp. apply wp_bind, wp_reads.
    destruct (MarshalEntry_total e) as [[raw Hr]|(err & -> & ?)]; [|done]. rewrite Hr.
    eapply wp_mono; [by apply (put_log lm mm)|..]; [|done..]. cbn beta.
    intros _ t' (lm' & mm' & Hb' & -> & ->). eexists _, mm. split; [exact Hb'|].
    split; [|done]. rewrite He. apply log_bucket_snoc; [lia|done|done].
  - cbn beta. intros [] t' lm' mm' Hb' [Hg' ->].
    replace (es ++ e :: ents) with ((es ++ [e]) ++ ents) by by rewrite <- app_assoc.
    apply (IH (es ++ [e]) lm'); [done|done|..]; rewrite length_app; cbn [length]; [|lia].
    intros k x Hx. rewrite (Hc (S k) x Hx). lia.
Qed.

Lemma appendTx_ok f es lm mm t rounds j ents :
  both lm mm t → log_bucket f es lm → (j ≤ length es)%nat → (length es - j ≤ rounds)%nat →
  contiguous_from (f + N.of_nat j) ents → ents ≠ [] → (f + N.of_nat (length es) ≤ W64)%N →
  (f + N.of_nat j + N.of_nat (length ents) ≤ W64)%N →
  twp (appendTx rounds (f + N.of_nat j) ents)
    (λ _ lm' mm', log_bucket f (take j es ++ ents) lm' ∧ mm' = mm) t.
Proof.
  intros Hb Hg Hj Hr Hc Hne HW1 HW2. unfold appendTx. eapply twp_bucket; [done|].
  unfold twp at 1. apply wp_bind, wp_get.
  assert (0 < length ents)%nat by (destruct ents; cbn; [done|lia]).
  eapply twp_bind.
  - eapply (truncate_ok f es j mm rounds j); [done|done|by apply log_bucket_gap|lia|lia|lia|lia|].
    destruct (cursor_seek bucketLog (encodeIndex (f + N.of_nat j)) t lm (proj1 Hb)) as [Hland Hst].
    apply (gap_lands f es 0 0 j) in Hland; [|done|done|lia|].
    + destruct (Seek _ _ t) as [[[k v] c]|] eqn:E; cbn in Hland; [|done].
      destruct Hland as (? & ? & ?). split_and!; try done. by eapply Hst.
    + intros k Hk _. apply (enc_from f j k (length es)); lia.
  - cbn beta. intros [] t' lm' mm' Hb' [Hg' ->].
    eapply writeEntries_ok; [done|done|..]; rewrite length_take, Nat.min_l by lia; done.
Qed.

Lemma scan_ok f es lm mm t h fuel p at_ :
  both lm mm t → log_bucket f es lm → (f + N.of_nat (length es) ≤ W64)%N →
  (p ≤ h ≤ length es)%nat → (h - p ≤ fuel)%nat → on_entry f es p lm at_ →
  scan fuel (f + N.of_nat h) at_ t = Ret (take (h - p) (drop p es)).
Proof.
  intros Hb Hg HW. revert p at_.
  induction fuel as [|n IH]; intros p at_ Hp Hf Hat; destruct at_ as [[[k v] c]|]; cbn [scan].
  2,4: cbn in Hat; by rewrite drop_ge, take_nil.
  all: destruct Hat as (Hlt & -> & Hv & Hc); rewrite decodeIndex_encode by lia; cbn [obind].
  { rewrite (proj2 (N.ltb_ge _ _)) by lia. by replace (h - p)%nat with 0%nat by lia. }
  destruct (N.ltb_spec (f + N.of_nat p) (f + N.of_nat h)).
  2: by replace (h - p)%nat with 0%nat by lia.
  destruct (lookup_lt_is_Some_2 es p Hlt) as [e He].
  destruct (proj1 Hg p e He) as (raw & Hr & HU); [lia|]. simplify_eq. rewrite HU. cbn [obind].
  rewrite (IH (S p)); [|lia|lia|].
  - cbn [obind]. rewrite (drop_S es e p He). replace (h - p)%nat with (S (h - S p)) by lia. done.
  - eapply next_on_entry; [done|done|exact Hg|lia|lia|done|done].
Qed.

Lemma snapshotTx_ok snap raw repl lm mm t :
  both lm mm t →
  twp (snapshotTx snap raw repl)
    (λ _ lm' mm',
       if repl : bool
       then lm' = ∅ ∧ mm' = <[keyFloor := encodeFloor (snap_LastIncludedIndex snap)
                                            (snap_LastIncludedTerm snap)]> (<[keySnapshot := raw]> mm)
       else lm' = lm ∧ mm' = <[keySnapshot := raw]> mm) t.
Proof.
  intros Hb. unfold snapshotTx. eapply twp_bucket; [done|].
  eapply twp_bind; [by apply put_meta|]. cbn beta. intros [] t1 lm1 mm1 Hb1 [-> ->].
  destruct repl; cbn [negb]; [|apply wp_ret; eexists _, _; done].
  eapply twp_bind; [by apply put_meta|]. cbn beta. intros [] t2 lm2 mm2 Hb2 [-> ->].
  unfold twp. apply wp_bind, wp_try.
  eapply wp_mono; [apply bucket_delete; destruct Hb2 as [-> _]; by eexists|..]; [..|done]; cbn beta.
  - intros _ t3 H3. eapply wp_mono; [apply bucket_create|..]; [|done..]. cbn beta.
    intros _ t4 H4. eexists _, _. split; [|done]. split.
    + rewrite H4, decide_True, H3, decide_True by done. done.
    + rewrite H4, decide_False, H3, decide_False by done. apply Hb2.
  - intros e t3 [He Hnf]. rewrite Hnf. cbn [negb]. by apply foreign_wrap.
Qed.

Lemma compactTx_ok f es lm mm t rounds n term :
  both lm mm t → log_bucket f es lm → (n ≤ length es)%nat → (n ≤ rounds)%nat → (0 < f)%N →
  (f + N.of_nat (length es) ≤ W64)%N →
  twp (compactTx rounds (f + N.of_nat n - 1) term)
    (λ _ lm' mm', log_bucket (f + N.of_nat n) (drop n es) lm' ∧
       mm' = <[keyFloor := encodeFloor (f + N.of_nat n - 1) term]> mm) t.
Proof.
  intros Hb Hg Hn Hr Hf HW. unfold compactTx. eapply twp_bucket; [done|].
  eapply twp_bind; [by apply put_meta|]. cbn beta. intros [] t1 lm1 mm1 Hb1 [-> ->].
  eapply twp_bucket; [done|]. unfold twp at 1. apply wp_bind, wp_get.
  eapply (discard_ok f es _ n rounds 0); [done|done|exact Hg|lia|lia|done|].
  destruct (cursor_first bucketLog t1 lm (proj1 Hb1)) as [Hland Hst].
  apply (gap_lands f es 0 0 0) in Hland; [|done|done|lia|].
  - destruct (First bucketLog t1) as [[[k v] c]|] eqn:E; cbn in Hland; [|done].
    destruct Hland as (? & ? & ?). split_and!; try done. by eapply Hst.
  - intros k Hk _. split; [lia|done].
Qed.

(** Committing. *)
Lemma update_ok {A} (f : M T A) Q lm mm s :
  both lm mm (begin_tx (b_db s)) → twp f Q (begin_tx (b_db s)) →
  wp (on_db (Update f))
     (λ a s', ∃ d lm' mm', s' = set_db d s ∧ both lm' mm' (begin_tx d) ∧ Q a lm' mm')
     (λ e s', ∃ d, s' = set_db d s ∧ both lm mm (begin_tx d) ∧ foreign e) (λ _, False) s.
Proof.
  intros [Hl Hm] Hf. unfold on_db. apply wp_zoom. pose proof (update_atomic f (b_db s)) as Hu.
  unfold twp, wp in *. destruct (Update f (b_db s)) as [[a|e|p|] d]; cbn.
  - destruct Hu as (t' & Et & Hc). rewrite Et in Hf. destruct Hf as (lm' & mm' & [Hl' Hm'] & HQ).
    exists d, lm', mm'. split; [done|]. split; [|done]. split; by rewrite Hc.
  - destruct Hu as [Hc Hor]. exists d. split; [done|]. split; [split; by rewrite Hc|].
    destruct Hor as [[t' Et]|]; [|done]. by rewrite Et in Hf.
  - destruct Hu as [_ [t' Et]]. by rewrite Et in Hf.
  - destruct Hu as [_ [t' Et]]. by rewrite Et in Hf.
Qed.

(** ** The state of a store *)

Definition meta_bucket s (snap : Snapshot) mm : Prop :=
  match mm !! keyHardState with
  | Some raw => raw = MarshalHardState (b_hardState s)
  | None => b_hardState s = zeroHardState
  end ∧
  match mm !! keySnapshot with
  | Some raw => UnmarshalSnapshot raw = Ret snap
  | None => snap = zeroSnapshot
  end ∧
  match mm !! keyFloor with
  | Some raw => raw = encodeFloor (b_floorIndex s) (b_floorTerm s)
  | None => b_floorIndex s = 0%N ∧ b_floorTerm s = 0%N
  end.

(** The store holds [es] and [snap], on disk and in its cached fields. *)
Definition cached s es (snap : Snapshot) lm mm : Prop :=
  log_bucket (b_floorIndex s + 1) es lm ∧ meta_bucket s snap mm ∧
  b_first s = (b_floorIndex s + 1)%N ∧ b_last s = (b_floorIndex s + N.of_nat (length es))%N ∧
  b_snapIndex s = snap_LastIncludedIndex snap ∧ b_snapTerm s = snap_LastIncludedTerm snap.

Definition rep s es (snap : Snapshot) : Prop :=
  ∃ lm mm, both lm mm (begin_tx (b_db s)) ∧ cached s es snap lm mm.

Definition rep_as s es (snap : Snapshot) : Disk := mkDisk snap (b_floorIndex s) (b_floorTerm s) es.

(** The abstract log, read off the file and the cached bounds. *)
Definition stored lm (i : Index) : LogEntry :=
  match UnmarshalEntry <$> (lm !! encodeIndex i) with Some (Ret e) => e | _ => zeroEntry end.

Definition stored_snapshot mm : Snapshot :=
  match UnmarshalSnapshot <$> (mm !! keySnapshot) with Some (Ret sn) => sn | _ => zeroSnapshot end.

Definition bolt_disk s : Disk :=
  let t := begin_tx (b_db s) in
  rep_as s ((λ k, stored (default ∅ (contents t bucketLog)) (b_floorIndex s + 1 + N.of_nat k))
              <$> seq 0 (N.to_nat (b_last s - b_floorIndex s)))
    (stored_snapshot (default ∅ (contents t bucketMeta))).

Definition bolt_ok s : Prop := ∃ es snap, rep s es snap ∧ disk_ok (rep_as s es snap).

Lemma rep_disk s es snap : rep s es snap → bolt_disk s = rep_as s es snap.
Proof.
  intros (lm & mm & [Hl Hm] & [H1 _] & (_ & Hs & _) & _ & EL & _). unfold bolt_disk.
  rewrite Hl, Hm. change (default ∅ (Some lm)) with lm. change (default ∅ (Some mm)) with mm. f_equal.
  - apply list_eq. intros k. rewrite list_lookup_fmap.
    replace (N.to_nat (b_last s - b_floorIndex s)) with (length es) by lia.
    destruct (es !! k) as [e|] eqn:E.
    + pose proof (lookup_lt_Some _ _ _ E). rewrite lookup_seq_lt by done. cbn.
      destruct (H1 k e E ltac:(lia)) as (raw & Hr & HU). unfold stored. rewrite Hr. cbn. by rewrite HU.
    + apply lookup_ge_None in E. by rewrite lookup_seq_ge by done.
  - unfold stored_snapshot. destruct (mm !! keySnapshot) as [raw|]; [|by rewrite Hs].
    change (UnmarshalSnapshot <$> Some raw) with (Some (UnmarshalSnapshot raw)). by rewrite Hs.
Qed.

Lemma bolt_ok_disk s : bolt_ok s → rep s (d_entries (bolt_disk s)) (d_snapshot (bolt_disk s)) ∧
  disk_ok (bolt_disk s) ∧ d_base (bolt_disk s) = b_floorIndex s ∧ d_baseTerm (bolt_disk s) = b_floorTerm s.
Proof. intros (es & snap & Hr & Hd). by rewrite (rep_disk _ _ _ Hr). Qed.

(** ** Reads *)

Lemma rep_get i s es snap :
  rep s es snap → disk_ok (rep_as s es snap) →
  Bolt_GetEntry i s =
  if (i <=? b_floorIndex s)%N then Fail (Errorf "storage: entry, first available" [ErrCompacted])
  else match es !! N.to_nat (i - b_floorIndex s - 1) with
       | Some e => Ret e
       | None => Fail (Errorf "storage: entry, last index" [ErrUnavailable])
       end.
Proof.
  intros (lm & mm & [Hl Hm] & [H1 _] & _ & EF & EL & _) (_ & HW & _).
  unfold d_last in HW. cbn in HW. unfold Bolt_GetEntry. rewrite EF, EL.
  destruct (N.leb_spec i (b_floorIndex s)).
  { by rewrite (proj2 (N.ltb_lt _ _)) by lia. }
  rewrite (proj2 (N.ltb_ge _ _)) by lia.
  destruct (N.ltb_spec (b_floorIndex s + N.of_nat (length es)) i).
  { by rewrite lookup_ge_None_2 by lia. }
  destruct (lookup_lt_is_Some_2 es (N.to_nat (i - b_floorIndex s - 1))) as [e He]; [lia|]. rewrite He.
  rewrite view_reads. unfold Bucket. rewrite bucket_has, bool_decide_true by (rewrite Hl; by eexists).
  cbn [obind]. rewrite (bucket_get _ _ _ lm Hl).
  destruct (H1 _ e He ltac:(lia)) as (raw & Hr & HU).
  replace (b_floorIndex s + 1 + N.of_nat (N.to_nat (i - b_floorIndex s - 1)))%N with i in Hr by lia.
  by rewrite Hr.
Qed.

Lemma bolt_entry s i :
  bolt_ok s →
  match Bolt_GetEntry i s with
  | Ret e => disk_entry (bolt_disk s) i = Some e
  | Fail e => disk_entry (bolt_disk s) i = None ∧
      (if (i <=? d_base (bolt_disk s))%N then errorsIs e ErrCompacted
       else errorsIs e ErrUnavailable) = true
  | _ => False
  end.
Proof.
  intros (es & snap & Hr & Hd). rewrite (rep_disk _ _ _ Hr), (rep_get i _ _ _ Hr Hd).
  unfold disk_entry. cbn. destruct (i <=? b_floorIndex s)%N; [done|].
  by destruct (es !! _).
Qed.

Lemma bolt_term s i :
  bolt_ok s → i ≠ 0%N →
  match Bolt_Term i s with
  | Ret t => disk_term (bolt_disk s) i = Some t
  | Fail e => disk_term (bolt_disk s) i = None ∧
      (if (i <? d_base (bolt_disk s))%N then errorsIs e ErrCompacted
       else errorsIs e ErrUnavailable) = true
  | _ => False
  end.
Proof.
  intros Hs Hi. pose proof (bolt_entry s i Hs) as HE. destruct Hs as (es & snap & Hr & Hd).
  rewrite (rep_disk _ _ _ Hr) in *. unfold Bolt_Term, disk_term. cbn in *.
  destruct (N.eqb_spec i (b_floorIndex s)) as [->|Hne]; cbn [andb].
  { rewrite (proj2 (N.ltb_lt 0 _)) by lia. done. }
  destruct (Bolt_GetEntry i s); cbn [obind]; [|..|done|done]; [by rewrite HE|].
  destruct HE as [-> HE]. split; [done|].
  destruct (N.leb_spec i (b_floorIndex s)); [rewrite (proj2 (N.ltb_lt _ _)) by lia|
    rewrite (proj2 (N.ltb_ge _ _)) by lia]; done.
Qed.

Lemma bolt_entries s lo hi :
  bolt_ok s → (d_base (bolt_disk s) < lo)%N → (lo ≤ hi)%N → (hi ≤ d_last (bolt_disk s) + 1)%N →
  Bolt_Entries lo hi s =
  Ret (take (N.to_nat (hi - lo)) (drop (N.to_nat (lo - d_base (bolt_disk s) - 1))
                                    (d_entries (bolt_disk s)))).
Proof.
  intros (es & snap & Hr & Hd). rewrite (rep_disk _ _ _ Hr). unfold d_last. cbn. intros Hlo Hle Hhi.
  destruct Hd as (_ & HW & _). unfold d_last in HW. cbn in HW.
  destruct Hr as (lm & mm & Hb & Hg & _ & EF & EL & _).
  unfold Bolt_Entries. destruct (N.leb_spec hi lo).
  { by replace (N.to_nat (hi - lo)) with 0%nat by lia. }
  rewrite EF, EL, u64_add_small, !(proj2 (N.ltb_ge _ _)) by lia.
  rewrite view_reads. unfold Bucket.
  rewrite bucket_has, bool_decide_true by (rewrite (proj1 Hb); by eexists). cbn [obind].
  set (f := (b_floorIndex s + 1)%N) in *. set (p := N.to_nat (lo - b_floorIndex s - 1)).
  replace hi with (f + N.of_nat (p + N.to_nat (hi - lo)))%N at 2 by lia.
  rewrite (scan_ok f es lm mm _ _ _ p); try done; try lia.
  - f_equal. f_equal. lia.
  - replace lo with (f + N.of_nat p)%N by lia.
    destruct (cursor_seek bucketLog (encodeIndex (f + N.of_nat p)) _ lm (proj1 Hb)) as [Hland Hst].
    apply (gap_lands f es 0 0 p) in Hland; [|lia|done|lia|].
    + destruct (Seek _ _ _) as [[[k v] c]|] eqn:E; cbn in Hland; [|done].
      destruct Hland as (? & ? & ?). split_and!; try done. by eapply Hst.
    + intros k Hk _. apply (enc_from f p k (length es)); lia.
Qed.

Lemma bolt_entries_out s lo hi :
  bolt_ok s → (lo < hi)%N → (lo ≤ d_base (bolt_disk s) ∨ d_last (bolt_disk s) + 1 < hi)%N →
  ∃ e, Bolt_Entries lo hi s = Fail e ∧
       errorsIs e (if (lo <=? d_base (bolt_disk s))%N then ErrCompacted else ErrUnavailable) = true.
Proof.
  intros (es & snap & Hr & Hd). rewrite (rep_disk _ _ _ Hr). unfold d_last. cbn. intros Hlt Hout.
  destruct Hd as (_ & HW & _). unfold d_last in HW. cbn in HW.
  destruct Hr as (lm & mm & _ & _ & _ & EF & EL & _).
  unfold Bolt_Entries. rewrite (proj2 (N.leb_gt _ _)), EF, EL, u64_add_small by lia.
  destruct (N.ltb_spec lo (b_floorIndex s + 1)).
  { eexists. split; [done|]. by rewrite (proj2 (N.leb_le _ _)) by lia. }
  rewrite (proj2 (N.ltb_lt _ _)) by lia. eexists. split; [done|]. by rewrite (proj2 (N.leb_gt _ _)) by lia.
Qed.

Lemma bolt_load s : bolt_ok s → Bolt_LoadSnapshot s = Ret (d_snapshot (bolt_disk s)).
Proof.
  intros (es & snap & Hr & Hd). rewrite (rep_disk _ _ _ Hr).
  destruct Hr as (lm & mm & [_ Hm] & _ & (_ & Hs & _) & _). unfold Bolt_LoadSnapshot.
  rewrite view_reads. unfold Bucket. rewrite bucket_has, bool_decide_true by (rewrite Hm; by eexists).
  cbn [obind]. rewrite (bucket_get _ _ _ mm Hm). destruct (mm !! keySnapshot); [done|by rewrite Hs].
Qed.

(** ** Writes *)

(** A transaction that failed left the store as it was. *)
Lemma cached_kept s d es snap lm mm :
  cached s es snap lm mm → both lm mm (begin_tx d) → disk_ok (rep_as s es snap) → rep s es snap →
  bolt_ok (set_db d s) ∧ bolt_disk (set_db d s) = bolt_disk s.
Proof.
  intros Hc Hb Hd Hr. assert (rep (set_db d s) es snap) as Hr' by (by exists lm, mm).
  rewrite (rep_disk _ _ _ Hr), (rep_disk _ _ _ Hr'). split; [by exists es, snap|done].
Qed.

Lemma bolt_hard s hs :
  bolt_ok s →
  wp (Bolt_SetHardState hs) (λ _ s', bolt_ok s' ∧ bolt_disk s' = bolt_disk s)
     (λ _ s', bolt_ok s' ∧ bolt_disk s' = bolt_disk s) (λ _, False) s.
Proof.
  intros (es & snap & Hr & Hd). pose proof Hr as (lm & mm & Hb & Hc). unfold Bolt_SetHardState. wp_go.
  case_match; [apply wp_fail; split; [by exists es, snap|done]|].
  apply wp_bind, wp_wrapErr. eapply wp_mono; [eapply (update_ok _ _ lm mm); [done|]|..].
  - eapply twp_bucket; [done|]. by apply (put_meta_plain lm mm).
  - cbn beta. intros _ s' (d & lm' & mm' & -> & Hb' & -> & ->). wp_go.
    assert (rep (set_b_hardState hs (set_db d s)) es snap) as Hr'.
    { eexists _, _. split; [exact Hb'|]. destruct Hc as (Hg & (_ & Hs & Hf) & Hrest).
      split; [exact Hg|]. split; [|exact Hrest]. split; [by rewrite lookup_insert_eq|].
      by rewrite !lookup_insert_ne by done. }
    rewrite (rep_disk _ _ _ Hr), (rep_disk _ _ _ Hr'). split; [by exists es, snap|done].
  - cbn beta. intros e s' (d & -> & Hb' & _). by eapply cached_kept.
  - done.
Qed.

Lemma rep_ok s es snap :
  rep s es snap → disk_ok (rep_as s es snap) → bolt_ok s ∧ bolt_disk s = rep_as s es snap.
Proof. intros Hr Hd. split; [by exists es, snap|by apply rep_disk]. Qed.

Lemma bolt_append s e ents :
  bolt_ok s → (d_base (bolt_disk s) < e_Index e)%N →
  (e_Index e + N.of_nat (length (e :: ents)) < W64)%N →
  wp (Bolt_AppendEntries (e :: ents))
     (λ _ s', bolt_ok s' ∧ bolt_disk s' = disk_write (e_Index e) (e :: ents) (bolt_disk s) ∧
              (e_Index e ≤ d_last (bolt_disk s) + 1)%N ∧
              contiguous_from (e_Index e) (e :: ents) ∧ terms_ascend (e :: ents))
     (λ _ s', bolt_ok s' ∧ bolt_disk s' = bolt_disk s) (λ _, False) s.
Proof.
  intros Hs Hlo HW. pose proof Hs as (es & snap & Hr & Hd). rewrite (rep_disk _ _ _ Hr) in *.
  pose proof Hr as (lm & mm & Hb & Hc). pose proof Hc as (Hg & Hm & EF & EL & Esi & Est).
  assert ((b_floorIndex s + 1 + N.of_nat (length es) < W64)%N) as HW1.
  { destruct Hd as (_ & ? & _). unfold d_last in *. cbn in *. lia. }
  unfold Bolt_AppendEntries. apply wp_bind, wp_reads.
  destruct (checkContiguous_total (e :: ents)) as [EC|[msg EC]]; rewrite EC; [|by apply rep_ok].
  destruct (checkContiguous_spec e ents HW EC) as [Hcont Hasc].
  pose proof (contiguous_last _ _ _ Hcont) as Elast. apply wp_bind, wp_get. cbv zeta. cbn in Hlo.
  rewrite Elast, (proj2 (N.leb_gt _ _)), (proj2 (N.leb_gt (e_Index e) _)), EL, u64_add_small by lia.
  destruct (N.ltb_spec (b_floorIndex s + N.of_nat (length es) + 1) (e_Index e)).
  { apply wp_fail. by apply rep_ok. }
  set (f := (b_floorIndex s + 1)%N) in *. set (j := N.to_nat (e_Index e - f)).
  assert (e_Index e = f + N.of_nat j)%N as Ej by lia.
  apply wp_bind. eapply wp_mono; [eapply (update_ok _ _ lm mm); [done|]|..].
  - rewrite Ej at 2. eapply (appendTx_ok f es lm mm _ _ j); try done; try lia.
    by rewrite <- Ej.
  - cbn beta. intros _ s' (d & lm' & mm' & -> & Hb' & Hg' & ->). wp_go.
    set (s' := set_bounds _ _ _).
    assert (rep s' (take j es ++ e :: ents) snap) as Hr'.
    { exists lm', mm. split; [exact Hb'|]. split; [exact Hg'|]. split; [exact Hm|]. cbn. rewrite EF.
      rewrite length_app, length_take. cbn. split_and!; try done; [|lia].
      case_match; [|done]. by rewrite u64_add_small by lia. }
    destruct (disk_write_ok (rep_as s es snap) e ents) as [Hok _];
      [done|done|unfold d_last; cbn; lia|done|done|].
    assert (rep_as s' (take j es ++ e :: ents) snap = disk_write (e_Index e) (e :: ents) (rep_as s es snap))
      as Erep.
    { unfold rep_as, disk_write. cbn. f_equal. do 2 f_equal. lia. }
    destruct (rep_ok _ _ _ Hr') as [Hok' ->]; [by rewrite Erep|].
    rewrite Erep. by split_and!.
  - cbn beta. intros err s' (d & -> & Hb' & _).
    rewrite <- (rep_disk _ _ _ Hr). by eapply cached_kept.
  - done.
Qed.

Lemma bolt_replaces s es snap0 snap :
  rep s es snap0 → disk_ok (rep_as s es snap0) →
  (snap_LastIncludedIndex snap0 < snap_LastIncludedIndex snap)%N →
  replacesLog snap s =
  Ret (negb ((snap_LastIncludedIndex snap <=? d_last (rep_as s es snap0))%N &&
       bool_decide (disk_term (rep_as s es snap0) (snap_LastIncludedIndex snap) =
                    Some (snap_LastIncludedTerm snap)))).
Proof.
  intros Hr Hd Hlt. pose proof Hr as (lm & mm & _ & _ & _ & _ & EL & _).
  pose proof (bolt_term s (snap_LastIncludedIndex snap) ltac:(by exists es, snap0) ltac:(lia)) as HT.
  rewrite (rep_disk _ _ _ Hr) in HT. unfold replacesLog. rewrite EL.
  change (d_last (rep_as s es snap0)) with (b_floorIndex s + N.of_nat (length es))%N.
  destruct (N.ltb_spec (b_floorIndex s + N.of_nat (length es)) (snap_LastIncludedIndex snap)).
  { by rewrite (proj2 (N.leb_gt _ _)) by lia. }
  rewrite (proj2 (N.leb_le _ _)) by lia. cbn [andb].
  destruct (Bolt_Term _ s) as [t|e| |]; [|..|done|done].
  - rewrite HT. destruct (N.eqb_spec t (snap_LastIncludedTerm snap)) as [->|];
      [by rewrite bool_decide_true|by rewrite bool_decide_false by congruence].
  - destruct HT as [-> _]. by rewrite bool_decide_false.
Qed.

Lemma bolt_save s snap :
  bolt_ok s → (snap_LastIncludedIndex snap + 1 < W64)%N → conf_normal (snap_Config snap) →
  wp (Bolt_SaveSnapshot snap)
     (λ _ s', bolt_ok s' ∧ bolt_disk s' = disk_snapshot snap (bolt_disk s) ∧
        (snap_LastIncludedIndex (d_snapshot (bolt_disk s)) < snap_LastIncludedIndex snap)%N)
     (λ _ s', bolt_ok s' ∧ bolt_disk s' = bolt_disk s) (λ _, False) s.
Proof.
  intros Hs HW Hn. pose proof Hs as (es & snap0 & Hr & Hd). rewrite (rep_disk _ _ _ Hr) in *.
  pose proof Hr as (lm & mm & Hb & Hc). pose proof Hc as (Hg & Hm & EF & EL & Esi & Est).
  unfold Bolt_SaveSnapshot. wp_go. rewrite Esi.
  destruct (N.leb_spec (snap_LastIncludedIndex snap) (snap_LastIncludedIndex snap0)) as [|Hlt].
  { apply wp_fail. by apply rep_ok. }
  apply wp_bind, wp_reads.
  destruct (MarshalSnapshot_total snap) as [[raw Hraw]|(err & -> & _)]; [rewrite Hraw|by apply rep_ok].
  apply wp_bind, wp_reads. rewrite (bolt_replaces s es snap0 snap Hr Hd Hlt).
  unfold disk_snapshot. set (keep := (_ && _)).
  apply wp_bind. eapply wp_mono; [eapply (update_ok _ _ lm mm); [done|by apply snapshotTx_ok]|..].
  - cbn beta. intros _ s' (d & lm' & mm' & -> & Hb' & HQ). apply wp_bind, wp_modify.
    destruct Hm as (Hhs & Hsn & Hfl). pose proof (UnmarshalSnapshot_Marshal snap raw Hn Hraw) as HU.
    destruct keep; cbn [negb] in *; destruct HQ as [-> ->]; wp_go.
    + set (s' := set_snap _ _ _). assert (rep s' es snap) as Hr'.
      { eexists _, _. split; [exact Hb'|]. split; [exact Hg|]. split; [|by split_and!].
        rewrite <- EF in *. split; [by rewrite lookup_insert_ne by done|].
        split; [by rewrite lookup_insert_eq|by rewrite lookup_insert_ne by done]. }
      assert (disk_ok (rep_as s' es snap)) as Hd'.
      { destruct Hd as (? & ? & ?). split_and!; try done. cbn in *. lia. }
      destruct (rep_ok _ _ _ Hr' Hd') as [Hok' ->]. by split_and!.
    + set (s' := set_bounds _ _ _). assert (rep s' [] snap) as Hr'.
      { eexists _, _. split; [exact Hb'|]. split; [apply log_bucket_empty|]. split.
        - split; [by rewrite !lookup_insert_ne by done|].
          split; [by rewrite lookup_insert_ne, lookup_insert_eq by done|by rewrite lookup_insert_eq].
        - cbn. rewrite u64_add_small by lia. split_and!; try done. lia. }
      assert (disk_ok (rep_as s' [] snap)) as Hd'.
      { split_and!; [by intros []|unfold d_last; cbn; lia|done]. }
      destruct (rep_ok _ _ _ Hr' Hd') as [Hok' ->]. by split_and!.
  - cbn beta. intros err s' (d & -> & Hb' & _).
    rewrite <- (rep_disk _ _ _ Hr). by eapply cached_kept.
  - done.
Qed.

Lemma bolt_compact s upto :
  bolt_ok s → (upto ≤ snap_LastIncludedIndex (d_snapshot (bolt_disk s)))%N →
  wp (Bolt_Compact upto)
     (λ _ s', bolt_ok s' ∧ bolt_disk s' = disk_compact upto (bolt_disk s) ∧
              (upto ≤ d_base (bolt_disk s) ∨ upto ≤ d_last (bolt_disk s))%N)
     (λ _ s', bolt_ok s' ∧ bolt_disk s' = bolt_disk s) (λ _, False) s.
Proof.
  intros Hs Hup. pose proof Hs as (es & snap & Hr & Hd). pose proof (bolt_term s upto Hs) as HT.
  rewrite (rep_disk _ _ _ Hr) in *.
  pose proof Hr as (lm & mm & Hb & Hc). pose proof Hc as (Hg & Hm & EF & EL & Esi & Est).
  pose proof Hd as (Hcont & HW & _). unfold d_last in HW. cbn in HW, Hcont, Hup.
  unfold Bolt_Compact, disk_compact. wp_go. cbn [d_base rep_as]. rewrite EL.
  destruct (N.leb_spec upto (b_floorIndex s)).
  { wp_go. destruct (rep_ok _ _ _ Hr Hd) as [? ->]. split_and!; auto. }
  destruct (N.ltb_spec (b_floorIndex s + N.of_nat (length es)) upto).
  { apply wp_fail. by apply rep_ok. }
  apply wp_bind, wp_wrapErr, wp_reads. specialize (HT ltac:(lia)).
  destruct (Bolt_Term upto s) as [term|err| |]; [|by apply rep_ok|done|done]. rewrite HT. cbn [default].
  set (f := (b_floorIndex s + 1)%N) in *. set (n := N.to_nat (upto - b_floorIndex s)).
  assert (upto = f + N.of_nat n - 1)%N as Eu by lia.
  apply wp_bind. eapply wp_mono; [eapply (update_ok _ _ lm mm); [done|]|..].
  - rewrite Eu at 1. eapply (compactTx_ok f es lm mm); try done; lia.
  - cbn beta. intros _ s' (d & lm' & mm' & -> & Hb' & Hg' & ->). wp_go.
    set (s' := set_bounds _ _ _). assert (rep s' (drop n es) snap) as Hr'.
    { eexists _, _. split; [exact Hb'|]. unfold cached. subst s'. cbn. rewrite u64_add_small by lia.
      split_and!; try done; [by replace (upto + 1)%N with (f + N.of_nat n)%N by lia|..].
      - destruct Hm as (Hhs & Hsn & Hfl). split; [by rewrite lookup_insert_ne by done|].
        split; [by rewrite lookup_insert_ne by done|]. rewrite lookup_insert_eq. cbn. by rewrite Eu.
      - rewrite EL, length_drop. lia. }
    assert (disk_ok (rep_as s' (drop n es) snap)) as Hd'.
    { split_and!; cbn; [|unfold d_last; cbn; rewrite length_drop; lia|done].
      replace (upto + 1)%N with (f + N.of_nat n)%N by lia. by apply contiguous_drop. }
    destruct (rep_ok _ _ _ Hr' Hd') as [Hok' ->]. split_and!; [done|done|].
    right. unfold d_last. cbn. lia.
  - cbn beta. intros err s' (d & -> & Hb' & _).
    rewrite <- (rep_disk _ _ _ Hr). by eapply cached_kept.
  - done.
Qed.

(** ** The hard state *)

(** Whatever the buckets hold, no transaction but that of [SetHardState] touches the hard
    state, and none fails with an error of the core's. *)
Definition has_buckets t : Prop := ∃ lm mm, both lm mm t.

Definition xwp {A} (m : M T A) t : Prop :=
  has_buckets t → wp m (λ _, has_buckets) (λ e _, foreign e) (λ _, True) t.

Lemma xwp_twp {A} (m : M T A) t : (∀ lm mm, both lm mm t → ∃ Q, twp m Q t) → xwp m t.
Proof.
  intros Hm (lm & mm & Hb). destruct (Hm lm mm Hb) as [Q HQ].
  eapply wp_mono; [exact HQ|..]; [|done..]. intros a t' (lm' & mm' & Hb' & _). by exists lm', mm'.
Qed.

Lemma xwp_bind {A B} (m : M T A) (f : A → M T B) t :
  xwp m t → (∀ a t', xwp (f a) t') → xwp (bind m f) t.
Proof.
  intros Hm Hf Ht. apply wp_bind. eapply wp_mono; [by apply Hm|..]; [|done..].
  intros a t' Ht'. by apply Hf.
Qed.

Lemma xwp_bucket n t : xwp (reads (Bucket n)) t.
Proof. intros Ht. apply wp_reads. unfold Bucket. by destruct (hasBucket n t). Qed.

Lemma xwp_put n k v msg t : xwp (wrapErr msg (BucketPut n k v)) t.
Proof.
  apply xwp_twp. intros lm mm Hb. destruct n; eexists; [by apply put_log|by apply put_meta].
Qed.

Definition in_log (at_ : option (bytes * bytes * C)) : Prop :=
  ∀ k v c, at_ = Some (k, v, c) → ∃ key, stands c = (bucketLog, key).

(** One deletion of a cursor loop. *)
Lemma delete_step {B} msg c (f : C → M T B) t :
  has_buckets t → (∃ key, stands c = (bucketLog, key)) →
  (∀ c' t', has_buckets t' → in_log (Next c' t') →
     wp (f c') (λ _, has_buckets) (λ e _, foreign e) (λ _, True) t') →
  wp (bind (wrapErr msg (CursorDelete c)) f) (λ _, has_buckets) (λ e _, foreign e) (λ _, True) t.
Proof.
  intros (lm & mm & Hb) [key Hc] Hf. apply wp_bind.
  eapply wp_mono; [by apply (delete_log c key _ lm mm)|..]; [|done..]. cbn beta.
  intros c' t' (lm' & mm' & Hb' & Hc' & _). apply Hf; [by exists lm', mm'|].
  intros k v c2 E. destruct (cursor_next c' _ _ _ _ Hc' (proj1 Hb')) as [_ H]. eexists. by eapply H.
Qed.

Lemma xwp_truncate fuel at_ t : in_log at_ → xwp (truncate fuel at_) t.
Proof.
  revert at_ t. induction fuel as [|n IH]; intros at_ t Hat Ht;
    destruct at_ as [[[k v] c]|]; cbn [truncate]; try done.
  apply delete_step; [done|by eapply Hat|]. intros c' t' Ht' Hn. apply wp_bind, wp_get. by apply IH.
Qed.

Lemma xwp_discard fuel upto at_ t : in_log at_ → xwp (discard_upto fuel upto at_) t.
Proof.
  revert at_ t. induction fuel as [|n IH]; intros at_ t Hat Ht;
    destruct at_ as [[[k v] c]|]; cbn [discard_upto]; try done;
    apply wp_bind, wp_reads; unfold decodeIndex; destruct (_ <? _)%nat; try done;
    destruct (_ <=? _)%N; try done.
  apply delete_step; [done|by eapply Hat|]. intros c' t' Ht' Hn. apply wp_bind, wp_get. by apply IH.
Qed.

Lemma xwp_appendTx rounds i ents t : xwp (appendTx rounds i ents) t.
Proof.
  apply xwp_bind; [apply xwp_bucket|]. intros _ t1 Ht1. apply wp_bind, wp_get. revert Ht1.
  apply xwp_bind.
  - intros Ht1. apply xwp_truncate; [|done]. destruct Ht1 as (lm & mm & Hb). intros k v c E.
    destruct (cursor_seek bucketLog (encodeIndex i) t1 lm (proj1 Hb)) as [_ H]. eexists. by eapply H.
  - intros _. induction ents as [|e ents IH]; intros t2; cbn [forEach]; [by intros Ht2|].
    apply xwp_bind; [|auto]. apply xwp_bind; [|intros; apply xwp_put].
    intros Ht2. apply wp_reads. by destruct (MarshalEntry_total e) as [[raw ->]|(err & -> & ?)].
Qed.

Lemma xwp_compactTx rounds i term t : xwp (compactTx rounds i term) t.
Proof.
  apply xwp_bind; [apply xwp_bucket|]. intros _ t1. apply xwp_bind; [apply xwp_put|]. intros _ t2.
  apply xwp_bind; [apply xwp_bucket|]. intros _ t3 Ht3. apply wp_bind, wp_get.
  apply xwp_discard; [|done]. destruct Ht3 as (lm & mm & Hb). intros k v c E.
  destruct (cursor_first bucketLog t3 lm (proj1 Hb)) as [_ H]. eexists. by eapply H.
Qed.

Lemma xwp_snapshotTx snap raw repl t : xwp (snapshotTx snap raw repl) t.
Proof. apply xwp_twp. intros lm mm Hb. eexists. by apply snapshotTx_ok. Qed.

Definition bolt_consistent s : Prop := has_buckets (begin_tx (b_db s)).

Definition only_db s s' : Prop := bolt_consistent s' ∧ ∃ d, s' = set_db d s.

Lemma update_consistent {A} (f : M T A) s :
  bolt_consistent s → (∀ t, xwp f t) →
  wp (on_db (Update f)) (λ _, only_db s) (λ e s', only_db s s' ∧ foreign e) (only_db s) s.
Proof.
  intros Hs Hf. unfold on_db. apply wp_zoom. pose proof (update_atomic f (b_db s)) as Hu.
  pose proof (Hf _ Hs) as Hw. destruct Hs as (lm & mm & Hl & Hm).
  assert (∀ d, (∀ n, contents (begin_tx d) n = contents (begin_tx (b_db s)) n) →
    only_db s (set_db d s)) as Hsame.
  { intros d Hc. split; [|by eexists]. exists lm, mm. split; cbn; by rewrite Hc. }
  unfold wp in *. destruct (Update f (b_db s)) as [[a|e|p|] d]; cbn.
  - destruct Hu as (t' & Et & Hc). rewrite Et in Hw. destruct Hw as (lm' & mm' & Hl' & Hm').
    split; [|by eexists]. exists lm', mm'. split; cbn; by rewrite Hc.
  - destruct Hu as [Hc Hor]. split; [auto|]. destruct Hor as [[t' Et]|]; [|done]. by rewrite Et in Hw.
  - destruct Hu as [Hc _]. auto.
  - destruct Hu as [Hc _]. auto.
Qed.

(** What a write other than [SetHardState] leaves alone. *)
Definition hard_kept s s' : Prop := bolt_consistent s' ∧ b_hardState s' = b_hardState s.

Lemma only_db_kept s s' : only_db s s' → hard_kept s s'.
Proof. intros [Hc [d ->]]. done. Qed.

Lemma bolt_hard_set hs s :
  bolt_consistent s →
  wp (Bolt_SetHardState hs)
     (λ _ s', bolt_consistent s' ∧ b_hardState s' = hs ∧ (hs_Term (b_hardState s) ≤ hs_Term hs)%N)
     (λ e s', bolt_consistent s' ∧ b_hardState s' = b_hardState s ∧ errorsIs e ErrIgnoredMessage = false)
     (λ s', bolt_consistent s' ∧ b_hardState s' = b_hardState s) s.
Proof.
  intros Hs. unfold Bolt_SetHardState. wp_go.
  destruct (N.ltb_spec (hs_Term hs) (hs_Term (b_hardState s))); [by apply wp_fail|].
  apply wp_bind, wp_wrapErr. eapply wp_mono; [apply update_consistent; [done|]|..]; cbn beta.
  - intros t. apply xwp_bind; [apply xwp_bucket|]. intros _ t'. apply xwp_twp. intros lm mm Hb.
    eexists. by apply put_meta_plain.
  - intros _ s' [Hc [d ->]]. by wp_go.
  - intros e s' [Hk%only_db_kept He]. destruct Hk. split_and!; try done. by apply foreign_wrap.
  - intros s'. apply only_db_kept.
Qed.

Lemma bolt_hard_append ents s :
  bolt_consistent s →
  wp (Bolt_AppendEntries ents) (λ _, hard_kept s)
     (λ e s', hard_kept s s' ∧ errorsIs e ErrIgnoredMessage = false) (hard_kept s) s.
Proof.
  intros Hs. unfold Bolt_AppendEntries. destruct ents as [|e ents]; [done|].
  apply wp_bind, wp_reads. destruct (checkContiguous_total (e :: ents)) as [->|[msg ->]]; [|done].
  apply wp_bind, wp_get. cbv zeta. case_match; [done|].
  match goal with |- context [if _ then drop ?n ?l else _] =>
    destruct (if (e_Index e <=? b_floorIndex s)%N then drop n l else l) as [|e' ents'] end; [done|].
  case_match; [done|]. apply wp_bind.
  eapply wp_mono; [apply update_consistent; [done|apply xwp_appendTx]|..]; cbn beta.
  - intros _ s' [Hc [d ->]]. by wp_go.
  - intros err s' [Hk%only_db_kept He]. by destruct Hk.
  - intros s'. apply only_db_kept.
Qed.

Lemma bolt_hard_snapshot snap s :
  bolt_consistent s →
  wp (Bolt_SaveSnapshot snap) (λ _, hard_kept s)
     (λ e s', hard_kept s s' ∧ errorsIs e ErrIgnoredMessage = false) (hard_kept s) s.
Proof.
  intros Hs. unfold Bolt_SaveSnapshot. wp_go. case_match; [by apply wp_fail|].
  apply wp_bind, wp_reads. destruct (MarshalSnapshot_total snap) as [[raw ->]|(err & -> & ?)]; [|done].
  apply wp_bind, wp_reads. unfold replacesLog.
  destruct (if (_ <? _)%N then _ else _) as [repl| | |] eqn:E; [|by repeat case_match|done|done].
  apply wp_bind. eapply wp_mono; [apply update_consistent; [done|apply xwp_snapshotTx]|..]; cbn beta.
  - intros _ s' [Hc [d ->]]. wp_go. by destruct repl; wp_go.
  - intros err s' [Hk%only_db_kept He]. by destruct Hk.
  - intros s'. apply only_db_kept.
Qed.

Lemma Bolt_Term_foreign i s e : Bolt_Term i s = Fail e → foreign e.
Proof.
  unfold Bolt_Term, Bolt_GetEntry. rewrite view_reads. unfold Bucket.
  destruct (_ && _); [done|]. destruct (i <? _)%N; [by intros [= <-]|].
  destruct (_ <? i)%N; [by intros [= <-]|]. destruct (hasBucket _ _); [|done]. cbn [obind].
  destruct (BucketGet _ _ _) as [raw|]; [|by intros [= <-]].
  destruct (UnmarshalEntry raw) eqn:EU; cbn [obind]; intros [= <-]. by eapply UnmarshalEntry_foreign.
Qed.

Lemma bolt_hard_compact upto s :
  bolt_consistent s →
  wp (Bolt_Compact upto) (λ _, hard_kept s)
     (λ e s', hard_kept s s' ∧ errorsIs e ErrIgnoredMessage = false) (hard_kept s) s.
Proof.
  intros Hs. unfold Bolt_Compact. wp_go. case_match; [done|]. case_match; [by apply wp_fail|].
  apply wp_bind, wp_wrapErr, wp_reads. destruct (Bolt_Term upto s) as [t|e| |] eqn:E; [|..|done|done].
  2: { split; [done|]. apply foreign_wrap. by eapply Bolt_Term_foreign. }
  apply wp_bind. eapply wp_mono; [apply update_consistent; [done|apply xwp_compactTx]|..]; cbn beta.
  - intros _ s' [Hc [d ->]]. by wp_go.
  - intros err s' [Hk%only_db_kept He]. by destruct Hk.
  - intros s'. apply only_db_kept.
Qed.

#[export] Program Instance Bolt_LogLaws : LogLaws BS := {
  disk := bolt_disk;
  storage_ok := bolt_ok
}.
Next Obligation. intros s Hs. by destruct (bolt_ok_disk s Hs) as (_ & ? & _). Qed.
Next Obligation.
  intros s (es & snap & Hr & _). rewrite (rep_disk _ _ _ Hr).
  by destruct Hr as (lm & mm & _ & _ & _ & EF & _).
Qed.
Next Obligation.
  intros s (es & snap & Hr & _). rewrite (rep_disk _ _ _ Hr).
  by destruct Hr as (lm & mm & _ & _ & _ & _ & EL & _).
Qed.
Next Obligation. apply bolt_term. Qed.
Next Obligation. apply bolt_entry. Qed.
Next Obligation. apply bolt_entries. Qed.
Next Obligation. apply bolt_entries_out. Qed.
Next Obligation. intros s lo hi _ Hle. cbn. unfold Bolt_Entries. by rewrite (proj2 (N.leb_le _ _)). Qed.
Next Obligation. apply bolt_load. Qed.
Next Obligation.
  intros s Hs. exists (b_hardState s). cbn. unfold Bolt_InitialState. by rewrite (bolt_load s Hs).
Qed.
Next Obligation. apply bolt_hard. Qed.
Next Obligation. apply bolt_append. Qed.
Next Obligation. apply bolt_save. Qed.
Next Obligation. apply bolt_compact. Qed.

#[export] Program Instance Bolt_HardStateLaws : HardStateLaws BS := {
  hard := b_hardState;
  hard_consistent := bolt_consistent
}.
Next Obligation.
  intros s hs snap _. cbn. unfold Bolt_InitialState. destruct (Bolt_LoadSnapshot s); cbn; intros; by simplify_eq.
Qed.
Next Obligation. apply bolt_hard_set. Qed.
Next Obligation.
  intros ents s Hs. eapply wp_mono; [by apply bolt_hard_append|..]; [done| |done].
  by intros e s' [[? ?] ?].
Qed.
Next Obligation.
  intros snap s Hs. eapply wp_mono; [by apply bolt_hard_snapshot|..]; [done| |done].
  by intros e s' [[? ?] ?].
Qed.
Next Obligation.
  intros upto s Hs. eapply wp_mono; [by apply bolt_hard_compact|..]; [done| |done].
  by intros e s' [[? ?] ?].
Qed.

(** ** Reopening *)

Lemma first_of_log f es lm mm t :
  both lm mm t → log_bucket f es lm → (f + N.of_nat (length es) ≤ W64)%N →
  match First bucketLog t with
  | Some (k, _, _) => decodeIndex k = Ret f ∧ es ≠ []
  | None => es = []
  end.
Proof.
  intros Hb Hg HW. destruct (cursor_first bucketLog t lm (proj1 Hb)) as [Hland _].
  apply (gap_lands f es 0 0 0) in Hland; [|done|done|lia|intros k Hk _; split; [lia|done]].
  destruct (First bucketLog t) as [[[k v] c]|]; cbn [fst fmap option_fmap option_map] in Hland.
  - destruct Hland as (Hlt & -> & _). rewrite decodeIndex_encode by lia.
    split; [f_equal; lia|]. intros ->. cbn in Hlt. lia.
  - apply nil_length_inv. lia.
Qed.

Lemma last_of_log f es lm mm t :
  both lm mm t → log_bucket f es lm → (f + N.of_nat (length es) ≤ W64)%N →
  match Last bucketLog t with
  | Some (k, _, _) => decodeIndex k = Ret (f + N.of_nat (length es) - 1)%N ∧ es ≠ []
  | None => es = []
  end.
Proof.
  intros Hb [H1 H2] HW. pose proof (cursor_last bucketLog t lm (proj1 Hb)) as Hlast.
  destruct (Last bucketLog t) as [[[k v] c]|].
  - destruct Hlast as [Hv Hmax]. destruct (H2 k) as (p & Hp & _ & ->); [by eexists|].
    destruct (lookup_lt_is_Some_2 es (length es - 1)) as [e He]; [lia|].
    destruct (H1 _ e He ltac:(lia)) as (raw & Hr & _).
    pose proof (Hmax _ (ex_intro _ raw Hr)) as Hle. apply encodeIndex_le in Hle; [|lia..].
    rewrite decodeIndex_encode by lia. split; [f_equal; lia|]. intros ->. cbn in Hp. lia.
  - subst lm. destruct es as [|e es]; [done|]. destruct (H1 0%nat e eq_refl ltac:(lia)) as (raw & Hr & _).
    by rewrite lookup_empty in Hr.
Qed.

(** The [uint64] fields that are written as varints. *)
Definition in_range s : Prop :=
  (hs_Term (b_hardState s) < W64)%N ∧ (hs_Vote (b_hardState s) < W64)%N ∧
  (hs_Commit (b_hardState s) < W64)%N ∧ (b_floorTerm s < W64)%N.

Definition opened t (n : bucketName) : gmap bytes bytes := default ∅ (contents t n).

Lemma create_ok msg n t :
  wp (wrapErr msg (CreateBucketIfNotExists n))
     (λ _ t', ∀ n', contents t' n' = if decide (n' = n) then Some (opened t n) else contents t n')
     (λ e _, foreign e) (λ _, False) t.
Proof.
  apply wp_wrapErr. eapply wp_mono; [apply bucket_create|..]; [done| |done]. cbn beta.
  intros e _. apply foreign_wrap.
Qed.

(** What [init] reads back from the meta bucket. *)
Lemma load_meta s snap mm :
  meta_bucket s snap mm → in_range s → (b_floorIndex s < W64)%N →
  match mm !! keyHardState with Some raw => UnmarshalHardState raw | None => Ret zeroHardState end
    = Ret (b_hardState s) ∧
  match mm !! keySnapshot with
  | Some raw => let? sn := UnmarshalSnapshot raw in
                Ret (snap_LastIncludedIndex sn, snap_LastIncludedTerm sn)
  | None => Ret (0%N, 0%N)
  end = Ret (snap_LastIncludedIndex snap, snap_LastIncludedTerm snap) ∧
  match mm !! keyFloor with Some raw => decodeFloor raw | None => Ret (0%N, 0%N) end
    = Ret (b_floorIndex s, b_floorTerm s).
Proof.
  intros (Hhs & Hsn & Hfl) (R1 & R2 & R3 & R4) R5. split_and!.
  - destruct (mm !! keyHardState) as [raw|]; [|congruence]. subst raw. by apply UnmarshalHardState_Marshal.
  - destruct (mm !! keySnapshot); [by rewrite Hsn|by subst snap].
  - destruct (mm !! keyFloor) as [raw|]; [subst raw; by apply decodeFloor_encode|].
    by destruct Hfl as [-> ->].
Qed.

(** What it reads back from the log. *)
Lemma load_log s es lm mm t :
  both lm mm t → log_bucket (b_floorIndex s + 1) es lm →
  (b_floorIndex s + 1 + N.of_nat (length es) < W64)%N →
  match Last bucketLog t with Some (k, _, _) => decodeIndex k | None => Ret (b_floorIndex s) end
    = Ret (b_floorIndex s + N.of_nat (length es))%N ∧
  match First bucketLog t with Some (k, _, _) => decodeIndex k | None => Ret (b_floorIndex s +u 1) end
    = Ret (b_floorIndex s + 1)%N.
Proof.
  intros Hb Hg HW. pose proof (last_of_log _ _ _ _ _ Hb Hg ltac:(lia)) as HLast.
  pose proof (first_of_log _ _ _ _ _ Hb Hg ltac:(lia)) as HFirst. split.
  - destruct (Last bucketLog t) as [[[k v] c]|]; [|subst es; cbn; f_equal; lia].
    destruct HLast as [-> _]. f_equal. lia.
  - destruct (First bucketLog t) as [[[k v] c]|]; [by destruct HFirst as [-> _]|].
    by rewrite u64_add_small by lia.
Qed.

Lemma load_ok s es snap t :
  cached s es snap (opened t bucketLog) (opened t bucketMeta) → disk_ok (rep_as s es snap) →
  in_range s →
  twp Bolt_load
    (λ r lm mm, lm = opened t bucketLog ∧ mm = opened t bucketMeta ∧
       r = (b_hardState s, (b_snapIndex s, b_snapTerm s), (b_floorIndex s, b_floorTerm s),
            (b_first s, b_last s))) t.
Proof.
  intros (Hg & Hmeta & EF & EL & Esi & Est) (_ & HW & _) HR. unfold d_last in HW. cbn in HW.
  destruct (load_meta _ _ _ Hmeta HR ltac:(lia)) as (Ehs & Esn & Efl).
  unfold Bolt_load, twp. apply wp_bind.
  eapply wp_mono; [apply create_ok|..]; [|done..]. cbn beta. intros _ t1 H1.
  apply wp_bind. eapply wp_mono; [apply create_ok|..]; [|done..]. cbn beta. intros _ t2 H2.
  assert (both (opened t bucketLog) (opened t bucketMeta) t2) as Hb.
  { split; rewrite H2; cbn; [|unfold opened]; rewrite H1; done. }
  destruct (load_log s es _ _ _ Hb Hg ltac:(lia)) as [ELast EFirst].
  apply wp_bind, wp_get. rewrite !(bucket_get _ _ _ _ (proj2 Hb)).
  apply wp_bind, wp_reads. rewrite Ehs. apply wp_bind, wp_reads. rewrite Esn.
  apply wp_bind, wp_reads. rewrite Efl. cbn [fst]. apply wp_bind, wp_reads. rewrite ELast.
  apply wp_bind, wp_reads. rewrite EFirst, <- EF, <- EL, <- Esi, <- Est. apply wp_ret. eexists _, _. done.
Qed.

Lemma Open_cached s es snap :
  cached s es snap (opened (begin_tx (b_db s)) bucketLog) (opened (begin_tx (b_db s)) bucketMeta) →
  disk_ok (rep_as s es snap) → in_range s →
  wp Bolt_Open
     (λ s' d', s' = set_db d' s ∧ bolt_ok s' ∧ bolt_disk s' = rep_as s es snap)
     (λ e d', (∀ n, contents (begin_tx d') n = contents (begin_tx (b_db s)) n) ∧ foreign e)
     (λ _, False) (b_db s).
Proof.
  intros Hc Hd HR. pose proof (load_ok s es snap _ Hc Hd HR) as Hl.
  unfold Bolt_Open. apply wp_bind. pose proof (update_atomic Bolt_load (b_db s)) as Hu.
  unfold twp, wp in *. destruct (Update Bolt_load (b_db s)) as [[r|e|p|] d].
  - destruct Hu as (t' & Et & Hcont). rewrite Et in Hl.
    destruct Hl as (lm & mm & [H1 H2] & -> & -> & ->). cbn.
    assert (rep (set_db d s) es snap) as Hr.
    { eexists _, _. split; [split; cbn; rewrite Hcont; done|exact Hc]. }
    destruct (rep_ok _ _ _ Hr Hd) as [Hok Hdisk]. done.
  - destruct Hu as [Hcont Hor]. split; [done|]. destruct Hor as [[t' Et]|]; [|done]. by rewrite Et in Hl.
  - destruct Hu as [_ [t' Et]]. by rewrite Et in Hl.
  - destruct Hu as [_ [t' Et]]. by rewrite Et in Hl.
Qed.

(** C11: A restart recovers the store.  Opening the database of a store, after a clean stop
    or a crash, gives back every cached field (the bounds, the floor, the snapshot's
    position and the hard state) and with them the same log; if the opening transaction
    cannot commit, the file is as it was and can be opened again. *)
Theorem reopen_recovers s :
  bolt_ok s → in_range s →
  match Bolt_Open (b_db s) with
  | (Ret s', d') => s' = set_db d' s ∧ bolt_ok s' ∧ bolt_disk s' = bolt_disk s
  | (Fail _, d') => bolt_ok (set_db d' s) ∧ bolt_disk (set_db d' s) = bolt_disk s
  | _ => False
  end.
Proof.
  intros (es & snap & Hr & Hd) HR. pose proof Hr as (lm & mm & [Hl Hm] & Hc).
  pose proof (Open_cached s es snap) as Hw. unfold opened, wp in Hw. rewrite Hl, Hm in Hw.
  specialize (Hw Hc Hd HR). rewrite (rep_disk _ _ _ Hr).
  destruct (Bolt_Open (b_db s)) as [[s'|e|p|] d']; [done| |done|done]. destruct Hw as [Hcont _].
  rewrite <- (rep_disk _ _ _ Hr). apply (cached_kept s d' es snap lm mm); try done.
  split; by rewrite Hcont.
Qed.

(** A new file is an empty log. *)
Lemma Open_empty d :
  (∀ n, contents (begin_tx d) n = None) →
  wp Bolt_Open (λ s' d', bolt_ok s' ∧ bolt_disk s' = mem_disk NewMemoryStorage ∧
                         b_hardState s' = zeroHardState) (λ e _, foreign e) (λ _, False) d.
Proof.
  intros Hn. eapply wp_mono; [apply (Open_cached (mkBolt d 1 0 0 0 0 0 zeroHardState) [] zeroSnapshot)|..].
  - unfold opened. cbn [b_db]. rewrite !Hn. split; [apply log_bucket_empty|]. by split_and!.
  - split_and!; [by intros []|done..].
  - done.
  - by intros s' d' (-> & Hok & ->).
  - by intros e d' [_ ?].
  - done.
Qed.
End laws.

(** ** A database *)

(** Two maps in memory, whose commits never fail: it satisfies [BboltLaws]. *)
Record memTx := mkMemTx { mt_log : option (gmap bytes bytes); mt_meta : option (gmap bytes bytes) }.

Definition mt_bucket (t : memTx) (n : bucketName) : option (gmap bytes bytes) :=
  match n with bucketLog => mt_log t | bucketMeta => mt_meta t end.

Definition mt_set (n : bucketName) (b : option (gmap bytes bytes)) (t : memTx) : memTx :=
  match n with bucketLog => mkMemTx b (mt_meta t) | bucketMeta => mkMemTx (mt_log t) b end.

Lemma mt_bucket_set n n' b t :
  mt_bucket (mt_set n b t) n' = if decide (n' = n) then b else mt_bucket t n'.
Proof. by destruct n, n'. Qed.

(** The least key that passes a test. *)
Definition first_where (p : bytes → bool) (m : gmap bytes bytes) : option (bytes * bytes) :=
  match filter (λ k, p k = true) (@sorted_keys forward_range _ m) with
  | k :: _ => (λ v, (k, v)) <$> m !! k
  | [] => None
  end.

Lemma first_where_lands p P m :
  (∀ k, p k = true ↔ P k) → lands m P (first_where p m).
Proof.
  intros Hp. unfold first_where.
  assert (∀ k, k ∈ filter (λ k, p k = true) (@sorted_keys forward_range _ m) ↔ P k ∧ is_Some (m !! k))
    as Hin.
  { intros k. rewrite list_elem_of_filter, Hp. by rewrite (@elem_of_sorted_keys forward_range). }
  assert (StronglySorted bytes_le (filter (λ k, p k = true) (@sorted_keys forward_range _ m))) as Hs.
  { apply StronglySorted_filter. unfold sorted_keys. apply StronglySorted_merge_sort; apply _. }
  destruct (filter _ _) as [|k ks] eqn:E; cbn.
  - intros k Hk. apply eq_None_not_Some. intros Hm. by apply (not_elem_of_nil k), Hin.
  - destruct (Hin k) as [[HP [v Hv]] _]; [by left|]. rewrite Hv. cbn. split_and!; [done..|].
    intros k' HP' Hk'. destruct (Hin k') as [_ Hel]. apply StronglySorted_inv in Hs as [_ Hall].
    specialize (Hel (conj HP' Hk')). apply elem_of_cons in Hel as [->|Hel]; [done|].
    by eapply Forall_forall in Hall.
Qed.

Definition mem_cursor (n : bucketName) (r : option (bytes * bytes)) : option (bytes * bytes * (bucketName * bytes)) :=
  (λ '(k, v), (k, v, (n, k))) <$> r.

Definition mem_walk (n : bucketName) (p : bytes → bool) (t : memTx) : option (bytes * bytes * (bucketName * bytes)) :=
  match mt_bucket t n with Some m => mem_cursor n (first_where p m) | None => None end.

Definition mem_last_key (m : gmap bytes bytes) : option (bytes * bytes) :=
  k ← last (@sorted_keys forward_range _ m); v ← m !! k; Some (k, v).

Definition with_bucket {A : Type} (n : bucketName) (f : gmap bytes bytes → gmap bytes bytes) (a : A) : M memTx A :=
  t <- get ;;
  match mt_bucket t n with
  | Some m => modify (mt_set n (Some (f m))) ;;; ret a
  | None => panic "nil pointer dereference"
  end.

#[export] Instance mem_bbolt : Bbolt memTx memTx (bucketName * bytes) := {
  CreateBucketIfNotExists n := modify (λ t, mt_set n (Some (default ∅ (mt_bucket t n))) t);
  DeleteBucket n :=
    t <- get ;;
    match mt_bucket t n with Some _ => modify (mt_set n None) | None => fail ErrBucketNotFound end;
  hasBucket n t := bool_decide (is_Some (mt_bucket t n));
  BucketGet n k t := m ← mt_bucket t n; m !! k;
  BucketPut n k v := with_bucket n <[k := v]> tt;
  Seek n k t := mem_walk n (bytes_leb k) t;
  First n t := mem_walk n (λ _, true) t;
  Last n t := m ← mt_bucket t n; mem_cursor n (mem_last_key m);
  Next c t := mem_walk (fst c) (λ k, bytes_leb (snd c) k && negb (bool_decide (k = snd c))) t;
  CursorDelete c := with_bucket (fst c) (delete (snd c)) c;
  Update A f d := match f d with (Ret a, d') => (Ret a, d') | (o, _) => (o, d) end;
  View A f d := f d
}.

Lemma mem_walk_lands n p P t m :
  (∀ k, p k = true ↔ P k) → mt_bucket t n = Some m →
  lands m P (fst <$> mem_walk n p t) ∧ ∀ k v c, mem_walk n p t = Some (k, v, c) → c = (n, k).
Proof.
  intros Hp Hm. unfold mem_walk. rewrite Hm. pose proof (first_where_lands p P m Hp) as Hl.
  destruct (first_where p m) as [[k v]|]; cbn; split; try done. intros ??? [= <- <- <-]. done.
Qed.

Lemma mem_last_key_spec n m :
  match mem_cursor n (mem_last_key m) with
  | Some (k, v, c) => m !! k = Some v ∧ ∀ k', is_Some (m !! k') → bytes_le k' k
  | None => m = ∅
  end.
Proof.
  unfold mem_last_key. pose proof (@elem_of_sorted_keys forward_range _ m) as Hin.
  assert (StronglySorted bytes_le (@sorted_keys forward_range _ m)) as Hs.
  { unfold sorted_keys. apply StronglySorted_merge_sort; apply _. }
  destruct (@sorted_keys forward_range _ m) as [|k ks _] using rev_ind; cbn.
  - apply map_empty. intros k. apply eq_None_not_Some. intros Hk. by apply (not_elem_of_nil k), Hin.
  - rewrite last_snoc. cbn. destruct (Hin k) as [[v Hv] _]; [apply elem_of_app; right; by left|]. rewrite Hv. cbn.
    split; [done|]. intros k' Hk'. apply Hin in Hk'. apply elem_of_app in Hk' as [Hk'|Hk'].
    + by eapply StronglySorted_app_1_elem_of; [exact Hs|exact Hk'|by left].
    + apply list_elem_of_singleton in Hk' as ->. done.
Qed.

#[export] Program Instance mem_bbolt_laws : BboltLaws memTx memTx (bucketName * bytes) := {
  contents := mt_bucket;
  begin_tx := id;
  stands := id
}.
Next Obligation. done. Qed.
Next Obligation. intros n k t m H. cbn. by rewrite H. Qed.
Next Obligation. intros n t. cbn. wp_go. intros n'. apply mt_bucket_set. Qed.
Next Obligation.
  intros n t [m Hm]. cbn. wp_go. rewrite Hm. wp_go. intros n'. apply mt_bucket_set.
Qed.
Next Obligation.
  intros n k v t m Hm. cbn. unfold with_bucket. wp_go. rewrite Hm. wp_go. intros n'. apply mt_bucket_set.
Qed.
Next Obligation. intros n k t m Hm. by apply mem_walk_lands. Qed.
Next Obligation. intros n t m Hm. by apply mem_walk_lands. Qed.
Next Obligation.
  intros n t m Hm. cbn. rewrite Hm. apply mem_last_key_spec.
Qed.
Next Obligation.
  intros [n' k'] n k t m [= -> ->] Hm. apply mem_walk_lands; [|done]. intros k'. cbn.
  rewrite andb_true_iff, negb_true_iff, bool_decide_eq_false. done.
Qed.
Next Obligation.
  intros [n' k'] n k t m [= -> ->] Hm. cbn. unfold with_bucket. wp_go. cbn. rewrite Hm. wp_go.
  split; [done|]. intros n'. apply mt_bucket_set.
Qed.
Next Obligation.
  intros A f d. cbn. destruct (f d) as [[] d']; cbn; eauto.
Qed.
Next Obligation. done. Qed.

(** ** The two stores *)

(** The same answer: equal values, or errors of the same kind. *)
Definition alike {A : Type} (o1 o2 : outcome A) : Prop :=
  match o1, o2 with
  | Ret a, Ret b => a = b
  | Fail e1, Fail e2 =>
      errorsIs e1 ErrCompacted && errorsIs e2 ErrCompacted ||
      errorsIs e1 ErrUnavailable && errorsIs e2 ErrUnavailable = true
  | _, _ => False
  end.

Definition reads_alike {S1 S2 : Type} `{Storage S1} `{Storage S2} (s1 : S1) (s2 : S2) : Prop :=
  FirstIndex s1 = FirstIndex s2 ∧ LastIndex s1 = LastIndex s2 ∧ LoadSnapshot s1 = LoadSnapshot s2 ∧
  (∀ i, alike (GetEntry i s1) (GetEntry i s2)) ∧
  (∀ i, i ≠ 0%N → alike (StorageTerm i s1) (StorageTerm i s2)) ∧
  (∀ lo hi, alike (Entries lo hi s1) (Entries lo hi s2)).

Lemma same_disk_alike {S1 S2 : Type} `{Storage S1} `{!LogLaws S1} `{Storage S2} `{!LogLaws S2}
    (s1 : S1) (s2 : S2) :
  storage_ok s1 → storage_ok s2 → disk s1 = disk s2 → reads_alike s1 s2.
Proof.
  intros H1 H2 Ed. unfold reads_alike.
  rewrite (log_first s1 H1), (log_first s2 H2), (log_last s1 H1), (log_last s2 H2), Ed.
  split_and!; [done|done|by rewrite (log_load s1 H1), (log_load s2 H2), Ed|..].
  - intros i. pose proof (log_entry s1 i H1) as E1. pose proof (log_entry s2 i H2) as E2.
    rewrite Ed in E1. destruct (GetEntry i s1), (GetEntry i s2); cbn; try done; try congruence.
    1: destruct E2; congruence.
    1: destruct E1; congruence.
    destruct E1 as [_ E1], E2 as [_ E2]. case_match; rewrite E1, E2; [done|by rewrite orb_true_r].
  - intros i Hi. pose proof (log_term s1 i H1 Hi) as E1. pose proof (log_term s2 i H2 Hi) as E2.
    rewrite Ed in E1. destruct (StorageTerm i s1), (StorageTerm i s2); cbn; try done; try congruence.
    1: destruct E2; congruence.
    1: destruct E1; congruence.
    destruct E1 as [_ E1], E2 as [_ E2]. case_match; rewrite E1, E2; [done|by rewrite orb_true_r].
  - intros lo hi. destruct (N.le_gt_cases hi lo) as [Hle|Hlt].
    { by rewrite (log_entries_empty s1), (log_entries_empty s2). }
    destruct (decide (lo ≤ d_base (disk s2) ∨ d_last (disk s2) + 1 < hi)%N) as [Hout|Hin].
    + destruct (log_entries_out s1 lo hi H1 Hlt) as (e1 & -> & He1); [by rewrite Ed|].
      destruct (log_entries_out s2 lo hi H2 Hlt Hout) as (e2 & -> & He2). cbn. rewrite Ed in He1.
      case_match; rewrite He1, He2; [done|by rewrite orb_true_r].
    + rewrite (log_entries s1 lo hi), (log_entries s2 lo hi); rewrite ?Ed; done || lia.
Qed.

Inductive write :=
  | WHardState (hs : HardState)
  | WAppend (e : LogEntry) (ents : list LogEntry)
  | WSnapshot (snap : Snapshot)
  | WCompact (upto : Index).

Definition perform_write {S : Type} `{Storage S} (w : write) : M S unit :=
  match w with
  | WHardState hs => SetHardState hs
  | WAppend e ents => AppendEntries (e :: ents)
  | WSnapshot snap => SaveSnapshot snap
  | WCompact upto => Compact upto
  end.

(** What the core owes a store. *)
Definition write_ok (w : write) (d : Disk) : Prop :=
  match w with
  | WHardState _ => True
  | WAppend e ents =>
      (d_base d < e_Index e)%N ∧ (e_Index e + N.of_nat (length (e :: ents)) < W64)%N
  | WSnapshot snap => (snap_LastIncludedIndex snap + 1 < W64)%N ∧ conf_normal (snap_Config snap)
  | WCompact upto => (upto ≤ snap_LastIncludedIndex (d_snapshot d))%N
  end.

(** What a write that succeeds does. *)
Definition write_disk (w : write) (d : Disk) : Disk :=
  match w with
  | WHardState _ => d
  | WAppend e ents => disk_write (e_Index e) (e :: ents) d
  | WSnapshot snap => disk_snapshot snap d
  | WCompact upto => disk_compact upto d
  end.

Lemma write_effect {S : Type} `{Storage S} `{!LogLaws S} w (s s' : S) :
  storage_ok s → write_ok w (disk s) → perform_write w s = (Ret tt, s') →
  storage_ok s' ∧ disk s' = write_disk w (disk s).
Proof.
  intros Hs Hw E. destruct w as [hs|e ents|snap|upto]; cbn in *.
  - pose proof (log_hard s hs Hs) as Hl. unfold wp in Hl. by rewrite E in Hl.
  - destruct Hw as [? ?]. pose proof (log_append s e ents Hs) as Hl. unfold wp in Hl.
    rewrite E in Hl. destruct Hl as (? & ? & _); done.
  - destruct Hw as [? ?]. pose proof (log_snapshot s snap Hs) as Hl. unfold wp in Hl.
    rewrite E in Hl. destruct Hl as (? & ? & _); done.
  - pose proof (log_compact s upto Hs Hw) as Hl. unfold wp in Hl. rewrite E in Hl.
    by destruct Hl as (? & ? & _).
Qed.

Lemma write_hard {S : Type} `{Storage S} `{!HardStateLaws S} w (s s' : S) :
  hard_consistent s → perform_write w s = (Ret tt, s') →
  hard s' = match w with WHardState hs => hs | _ => hard s end.
Proof.
  intros Hs E. destruct w as [hs|e ents|snap|upto]; cbn in E.
  - pose proof (hard_set hs s Hs) as Hl. unfold wp in Hl. rewrite E in Hl. by destruct Hl as (_ & ? & _).
  - pose proof (hard_append (e :: ents) s Hs) as Hl. unfold wp in Hl. rewrite E in Hl. by destruct Hl.
  - pose proof (hard_snapshot snap s Hs) as Hl. unfold wp in Hl. rewrite E in Hl. by destruct Hl.
  - pose proof (hard_compact upto s Hs) as Hl. unfold wp in Hl. rewrite E in Hl. by destruct Hl.
Qed.

Fixpoint perform_writes {S : Type} `{Storage S} (ws : list write) : M S unit :=
  match ws with [] => ret tt | w :: rest => perform_write w ;;; perform_writes rest end.

Fixpoint writes_ok {S : Type} `{Storage S} `{!LogLaws S} (ws : list write) (s : S) : Prop :=
  match ws with
  | [] => True
  | w :: rest => write_ok w (disk s) ∧ ∀ s', perform_write w s = (Ret tt, s') → writes_ok rest s'
  end.

Section conform.
Context {D T C : Type} `{DB : Bbolt D T C} `{BL : !BboltLaws D T C}
  `{!ProtoCodec pbLogEntry, !ProtoCodec pbSnapshot}.

(** The stores hold the same log and the same hard state. *)
Definition same_state (b : Bolt D) (m : MemoryStorage) : Prop :=
  bolt_ok b ∧ mem_ok m ∧ bolt_disk b = mem_disk m ∧ b_hardState b = ms_hardState m.

(** A write bbolt accepts is one the in-memory store accepts. *)
Lemma memory_accepts w b m b' :
  same_state b m → write_ok w (mem_disk m) → perform_write w b = (Ret tt, b') →
  ∃ m', perform_write w m = (Ret tt, m').
Proof.
  intros (Hb & Hm & Ed & Eh) Hw E. destruct w as [hs|e ents|snap|upto];
    cbn [write_ok perform_write SetHardState AppendEntries SaveSnapshot Compact Bolt_Storage
         MemoryStorage_Storage] in *.
  - unfold Bolt_SetHardState, MemoryStorage_SetHardState, bind, get in *. rewrite Eh in E.
    case_match; [done|by eexists].
  - destruct Hw as [Hlo HW]. pose proof (bolt_append b e ents Hb) as Hl. rewrite Ed in Hl.
    specialize (Hl Hlo HW). unfold wp in Hl. rewrite E in Hl. destruct Hl as (_ & _ & Hle & _).
    apply mem_append_accepts; try done. unfold Bolt_AppendEntries, bind at 1, reads in E.
    by destruct (checkContiguous_total (e :: ents)) as [?|[msg EC]]; [|rewrite EC in E].
  - destruct Hw as [HW Hn]. pose proof (bolt_save b snap Hb HW Hn) as Hl. unfold wp in Hl.
    rewrite E, Ed in Hl. destruct Hl as (_ & _ & Hlt). by apply mem_save_accepts.
  - pose proof (bolt_compact b upto Hb) as Hl. rewrite Ed in Hl. specialize (Hl Hw). unfold wp in Hl.
    rewrite E in Hl. destruct Hl as (_ & _ & Hle). by apply mem_compact_accepts.
Qed.

Lemma write_same w b m b' :
  same_state b m → write_ok w (mem_disk m) → perform_write w b = (Ret tt, b') →
  ∃ m', perform_write w m = (Ret tt, m') ∧ same_state b' m'.
Proof.
  intros Hs Hw E. destruct (memory_accepts w b m b' Hs Hw E) as [m' E']. exists m'. split; [done|].
  destruct Hs as (Hb & Hm & Ed & Eh).
  destruct (write_effect w b b') as [Hb' Ed']; [done|by cbn; rewrite Ed|done|].
  destruct (write_effect w m m') as [Hm' Em']; [done..|].
  split_and!; [exact Hb'|exact Hm'|cbn in *; congruence|].
  assert (bolt_consistent b) as Hc.
  { destruct Hb as (es & snap & (lm & mm & Hbo & _) & _). by exists lm, mm. }
  pose proof (write_hard w b b' Hc E) as H1. pose proof (write_hard w m m' I E') as H2. cbn in H1, H2.
  rewrite H1, H2. by destruct w.
Qed.

Lemma writes_same ws b m b' :
  same_state b m → writes_ok ws m → perform_writes ws b = (Ret tt, b') →
  ∃ m', perform_writes ws m = (Ret tt, m') ∧ same_state b' m'.
Proof.
  revert b m. induction ws as [|w ws IH]; intros b m Hs Hws E; cbn [perform_writes] in *.
  - injection E as <-. by exists m.
  - destruct Hws as [Hw Hrest]. unfold bind in E |- *.
    destruct (perform_write w b) as [[[]|e|p|] b1] eqn:E1; try done.
    destruct (write_same w b m b1 Hs Hw E1) as (m1 & E1' & Hs1). rewrite E1'.
    by apply (IH b1 m1 Hs1); [apply Hrest|].
Qed.

(** C10: The production store and the one the simulator runs on cannot be told apart by the
    core.  From the same log and hard state, take any sequence of the writes the core makes
    ([write_ok]: appends above what was compacted and within 64-bit indexes, snapshots with
    a normalised configuration, compaction up to the snapshot).  If bbolt accepts them the
    in-memory store accepts them too; afterwards they hold the same log and the same hard
    state, and every read answers alike, with equal values or errors of the same kind:
    bounds, the snapshot, entries, ranges, also those out of bounds, and terms, except that
    of index 0, which the core does not ask for. *)
Theorem bolt_conforms ws b m b' :
  same_state b m → writes_ok ws m → perform_writes ws b = (Ret tt, b') →
  ∃ m', perform_writes ws m = (Ret tt, m') ∧ same_state b' m' ∧ reads_alike b' m'.
Proof.
  intros Hs Hws E. destruct (writes_same ws b m b' Hs Hws E) as (m' & E' & Hs'). exists m'.
  split; [done|]. split; [done|]. destruct Hs' as (Hb & Hm & Ed & _). by apply same_disk_alike.
Qed.
End conform.

(** ** Witnesses *)

#[local] Existing Instances entry_codec snapshot_codec.

Definition new_bolt : Bolt memTx :=
  match fst (Bolt_Open (mkMemTx None None)) with
  | Ret s => s
  | _ => mkBolt (mkMemTx None None) 0 0 0 0 0 0 zeroHardState
  end.

Lemma new_bolt_same : same_state new_bolt NewMemoryStorage.
Proof.
  pose proof (Open_empty (mkMemTx None None)) as Hw. unfold wp, new_bolt in *.
  destruct (Bolt_Open (mkMemTx None None)) as [[s|e|p|] d] eqn:E;
    [|apply (f_equal fst) in E; by vm_compute in E..].
  destruct Hw as (Hok & Hd & Hh); [by intros []|]. cbn [fst]. split_and!; [exact Hok|apply mem_ok_new|exact Hd|exact Hh].
Qed.

Definition sample_writes : list write :=
  [WHardState (mkHardState 2 1 0);
   WAppend (mkEntry 1 1 EntryNoOp []) [mkEntry 1 2 EntryNormal [Byte.x41]; mkEntry 1 3 EntryNormal []];
   WAppend (mkEntry 2 3 EntryNoOp []) [mkEntry 2 4 EntryNormal [Byte.x42]];
   WSnapshot (mkSnapshot 3 2 (mkConfiguration [1; 2; 3]%N [] []) [Byte.x43]);
   WCompact 2].

Lemma sample_conf_normal : conf_normal (mkConfiguration [1; 2; 3]%N [] []).
Proof. assert (normalize (mkConfiguration [1; 2; 3]%N [] []) = mkConfiguration [1; 2; 3]%N [] []) as <-
  by (by vm_compute). apply normalize_normal. Qed.

Lemma sample_writes_ok : writes_ok sample_writes NewMemoryStorage.
Proof.
  unfold sample_writes. split; [done|]. intros m1 E1%(f_equal snd). vm_compute in E1. subst m1.
  split; [by vm_compute|]. intros m2 E2%(f_equal snd). vm_compute in E2. subst m2.
  split; [by vm_compute|]. intros m3 E3%(f_equal snd). vm_compute in E3. subst m3.
  split; [split; [by vm_compute|apply sample_conf_normal]|].
  intros m4 E4%(f_equal snd). vm_compute in E4. subst m4. by split; [vm_compute|].
Qed.

Definition worked_bolt : Bolt memTx := snd (perform_writes sample_writes new_bolt).

Lemma worked_bolt_run : perform_writes sample_writes new_bolt = (Ret tt, worked_bolt).
Proof. rewrite (surjective_pairing (perform_writes sample_writes new_bolt)). by f_equal. Qed.

Lemma bolt_conforms_witness :
  perform_writes sample_writes new_bolt = (Ret tt, worked_bolt) ∧
  ∃ m', perform_writes sample_writes NewMemoryStorage = (Ret tt, m') ∧ same_state worked_bolt m' ∧
        reads_alike worked_bolt m'.
Proof.
  split; [exact worked_bolt_run|].
  exact (bolt_conforms sample_writes new_bolt NewMemoryStorage worked_bolt new_bolt_same
    sample_writes_ok worked_bolt_run).
Defined.

Lemma worked_bolt_ok : bolt_ok worked_bolt.
Proof.
  destruct (writes_same _ _ _ _ new_bolt_same sample_writes_ok worked_bolt_run) as (m' & _ & Hok & _).
  exact Hok.
Qed.

Lemma worked_in_range : in_range worked_bolt.
Proof. do 3 (split; [vm_compute; reflexivity|]). vm_compute. reflexivity. Qed.

Lemma reopen_recovers_witness :
  match Bolt_Open (b_db worked_bolt) with
  | (Ret s', d') => s' = set_db d' worked_bolt ∧ bolt_disk s' = bolt_disk worked_bolt
  | _ => False
  end.
Proof.
  assert (match Bolt_Open (b_db worked_bolt) with (Ret _, _) => true | _ => false end = true) as Hret
    by (vm_compute; reflexivity).
  pose proof (reopen_recovers worked_bolt worked_bolt_ok worked_in_range) as Hw. revert Hret Hw.
  destruct (Bolt_Open (b_db worked_bolt)) as [[s'|e|p|] d'];
    [intros _ (H1 & _ & H2); exact (conj H1 H2)|intros [=]..].
Defined.

(** The stores part where the log says nothing: the term of index 0, before any entry.
    raftLog.term answers for index 0 itself and never asks. *)
Lemma term_zero_differs :
  MemoryStorage_Term 0 NewMemoryStorage = Ret 0%N ∧
  match Bolt_Term 0 new_bolt with Fail e => errorsIs e ErrCompacted = true | _ => False end.
Proof. by vm_compute. Qed.
