(* ===== verification/Node.v ===== *)
(** * The driver

    node/node.go, node/read.go and node/membership.go: the run loop that owns a
    RawNode, feeds it ticks, messages and client requests one at a time, moves what
    it produces to the network and the state machine, and answers the callers.
    [iterate] is one round of the loop; which case of its [select] fires is the
    argument, so a run is a list of inputs.

    A caller is named by a handle, standing for the one-place channel it waits on;
    [n_answers] records what was sent on which channel.  A second send on the same
    channel would block the loop for ever, and a channel never sent on leaves its
    caller to its timeout: neither happens ([run_answers_every_caller]).  Timeouts and
    cancellation live on the callers' side and are not modelled. *)

From S2P Require Import Prelude Varint GoMaps Types Config Storage RaftLog RawNode.

(** ** State machines *)

Record Snapshotter (A : Type) := mkSnapshotter {
  sn_Snapshot : A → outcome bytes;
  sn_Restore : bytes → Index → M A unit
}.
Arguments mkSnapshotter {A}.
Arguments sn_Snapshot {A}.
Arguments sn_Restore {A}.

(** A state machine need not be a [Snapshotter]. *)
Class StateMachine (A Resp : Type) := {
  sm_Apply : LogEntry → M A Resp;
  sm_Snapshotter : option (Snapshotter A)
}.

Abbreviation handle := N (only parsing).

(** What a caller is told. *)
Inductive answer (Resp : Type) :=
  | Proposed (index : Index) (response : option Resp)
  | ReadAt (index : Index)
  | ConfChanged (index : Index)
  | Failed (e : error).
Arguments Proposed {Resp}.
Arguments ReadAt {Resp}.
Arguments ConfChanged {Resp}.
Arguments Failed {Resp}.

Record awaiting := mkAwaiting { w_term : Term; w_p : handle }.

Section node.
Context {S G A Resp : Type} `{Hst : Storage S} `{Hrand : Rand G} `{HSM : !StateMachine A Resp}
  `{R : MapRange}.
Local Abbreviation RN := (RawNode S G).

Record Node := mkNode {
  n_rn : RN;
  n_sm : A;
  n_pending : gmap Index awaiting;
  n_pendingReads : gmap N handle;
  n_readSeq : N;
  n_lastState : State;
  n_lastTerm : Term;
  n_sent : list Message;
  n_answers : list (handle * answer Resp)
}.

Definition set_rn x n := mkNode x (n_sm n) (n_pending n) (n_pendingReads n) (n_readSeq n)
  (n_lastState n) (n_lastTerm n) (n_sent n) (n_answers n).
Definition set_sm x n := mkNode (n_rn n) x (n_pending n) (n_pendingReads n) (n_readSeq n)
  (n_lastState n) (n_lastTerm n) (n_sent n) (n_answers n).
Definition set_pending x n := mkNode (n_rn n) (n_sm n) x (n_pendingReads n) (n_readSeq n)
  (n_lastState n) (n_lastTerm n) (n_sent n) (n_answers n).
Definition set_reads x n := mkNode (n_rn n) (n_sm n) (n_pending n) x (n_readSeq n)
  (n_lastState n) (n_lastTerm n) (n_sent n) (n_answers n).
Definition set_readSeq x n := mkNode (n_rn n) (n_sm n) (n_pending n) (n_pendingReads n) x
  (n_lastState n) (n_lastTerm n) (n_sent n) (n_answers n).
Definition set_last st t n := mkNode (n_rn n) (n_sm n) (n_pending n) (n_pendingReads n) (n_readSeq n)
  st t (n_sent n) (n_answers n).
Definition set_sent x n := mkNode (n_rn n) (n_sm n) (n_pending n) (n_pendingReads n) (n_readSeq n)
  (n_lastState n) (n_lastTerm n) x (n_answers n).
Definition set_answers x n := mkNode (n_rn n) (n_sm n) (n_pending n) (n_pendingReads n) (n_readSeq n)
  (n_lastState n) (n_lastTerm n) (n_sent n) x.

Definition on_rn {B} (m : M RN B) : M Node B := zoom n_rn set_rn m.
Definition on_sm {B} (m : M A B) : M Node B := zoom n_sm set_sm m.

(** [done <- result] *)
Definition reply (h : handle) (a : answer Resp) : M Node unit :=
  modify (λ n, set_answers (n_answers n ++ [(h, a)]) n).

(** ** Answering *)

Definition failPending (err : error) : M Node unit :=
  n <- get ;;
  forEach (range_map (n_pending n)) (λ '(idx, w),
    modify (λ n, set_pending (delete idx (n_pending n)) n) ;;;
    reply (w_p w) (Failed err)).

Definition failReads (err : error) : M Node unit :=
  n <- get ;;
  forEach (range_map (n_pendingReads n)) (λ '(id, h),
    modify (λ n, set_reads (delete id (n_pendingReads n)) n) ;;;
    reply h (Failed err)).

Definition resolve (e : LogEntry) (response : option Resp) : M Node unit :=
  n <- get ;;
  match n_pending n !! e_Index e with
  | None => ret tt
  | Some w =>
      modify (λ n, set_pending (delete (e_Index e) (n_pending n)) n) ;;;
      if negb (w_term w =? e_Term e)%N then reply (w_p w) (Failed ErrProposalDropped)
      else reply (w_p w) (Proposed (e_Index e) response)
  end.

Definition resolveReads : M Node unit :=
  states <- on_rn ReadStates ;;
  forEach states (λ state,
    n <- get ;;
    match n_pendingReads n !! rs_ID state with
    | None => ret tt
    | Some h =>
        modify (λ n, set_reads (delete (rs_ID state) (n_pendingReads n)) n) ;;;
        reply h (ReadAt (rs_Index state))
    end).

(** [fatal]: the loop returns after it. *)
Definition fatal (during : string) (err : error) : M Node unit :=
  let wrapped := Errorf ("node: failed during " ++ during) [err] in
  failPending wrapped ;;;
  failReads wrapped.

(** ** Requests *)

Definition handlePropose (h : handle) (cmd : bytes) : M Node unit :=
  res <- try (on_rn (Propose cmd)) ;;
  match res with
  | inr err => reply h (Failed err)
  | inl index =>
      modify (λ n, set_pending (<[index := mkAwaiting (rn_term (n_rn n)) h]> (n_pending n)) n)
  end.

Definition handleRead (h : handle) : M Node unit :=
  modify (λ n, set_readSeq (n_readSeq n +u 1) n) ;;;
  n <- get ;;
  let id := n_readSeq n in
  res <- try (on_rn (ReadIndex id)) ;;
  match res with
  | inr err => reply h (Failed err)
  | inl _ => modify (λ n, set_reads (<[id := h]> (n_pendingReads n)) n)
  end.

Definition handleConfChange (h : handle) (target : Configuration) : M Node unit :=
  res <- try (on_rn (ProposeConfChange target)) ;;
  match res with
  | inr err => reply h (Failed err)
  | inl index => reply h (ConfChanged index)
  end.

(** ** Applying *)

(** One committed entry: only a client command reaches the state machine. *)
Definition applyEntry (e : LogEntry) : M Node unit :=
  response <-
    (match e_Type e with
     | EntryNormal =>
         r <- wrapErr "applying index" (on_sm (sm_Apply e)) ;; ret (Some r)
     | _ => ret None
     end) ;;
  resolve e response.

(** The index the driver acknowledges: that of the last entry of the batch. *)
Definition last_index (entries : list LogEntry) : Index :=
  default 0%N (e_Index <$> last entries).

(** [for n.rn.HasCommittedEntries()]: every round applies at least one entry. *)
Fixpoint applyCommitted_loop (fuel : nat) : M Node unit :=
  n <- get ;;
  if negb (HasCommittedEntries (n_rn n)) then ret tt
  else
    match fuel with
    | O => outOfFuel
    | Datatypes.S k =>
        entries <- wrapErr "reading committed entries" (on_rn (reads CommittedEntries)) ;;
        match entries with
        | [] => ret tt
        | _ =>
            forEach entries applyEntry ;;;
            on_rn (ApplyTo (last_index entries)) ;;;
            applyCommitted_loop k
        end
    end.

Definition applyCommitted : M Node unit :=
  n <- get ;;
  let l := rn_log (n_rn n) in
  applyCommitted_loop (N.to_nat (l_committed l - l_applied l)).

(** ** Snapshots *)

Definition restoreSnapshot : M Node unit :=
  arrived <- on_rn SnapshotToApply ;;
  match arrived with
  | None => ret tt
  | Some snap =>
      match @sm_Snapshotter A Resp HSM with
      | None => fail (Errorf "received a snapshot but the state machine cannot restore from one" [])
      | Some sn =>
          wrapErr "restoring snapshot"
            (on_sm (sn_Restore sn (snap_Data snap) (snap_LastIncludedIndex snap))) ;;;
          failPending ErrProposalDropped
      end
  end.

Definition maybeSnapshot : M Node unit :=
  n <- get ;;
  if negb (ShouldSnapshot (n_rn n)) then ret tt
  else
    match @sm_Snapshotter A Resp HSM with
    | None => ret tt
    | Some sn =>
        data <- wrapErr "capturing the state machine" (on_sm (reads (sn_Snapshot sn))) ;;
        res <- try (on_rn (CreateSnapshot data)) ;;
        match res with
        | inl _ => ret tt
        | inr err =>
            if errorsIs err ErrNothingToSnapshot || errorsIs err ErrSnapshotOutOfDate then ret tt
            else fail (Errorf "creating snapshot" [err])
        end
    end.

(** ** The loop *)

(** A node that stopped leading cannot say what became of what it was holding. *)
Definition noticeStateChange : M Node unit :=
  n <- get ;;
  let state := rn_state (n_rn n) in
  if negb (bool_decide (state = n_lastState n)) || negb (rn_term (n_rn n) =? n_lastTerm n)%N then
    (if bool_decide (n_lastState n = Leader) && negb (bool_decide (state = Leader)) then
       failPending ErrProposalDropped ;;;
       failReads ErrNotLeader
     else ret tt) ;;;
    modify (λ n, set_last state (rn_term (n_rn n)) n)
  else ret tt.

Definition flush : M Node unit :=
  msgs <- on_rn Messages ;;
  modify (λ n, set_sent (n_sent n ++ msgs) n) ;;;
  resolveReads ;;;
  restoreSnapshot ;;;
  applyCommitted ;;;
  maybeSnapshot ;;;
  noticeStateChange.

(** What the loop may receive. *)
Inductive input :=
  | InStop
  | InTick
  | InRecv (m : option Message)
  | InPropose (h : handle) (cmd : bytes)
  | InRead (h : handle)
  | InConfChange (h : handle) (target : Configuration)
  | InStatus.

(** The end of a round; [true] means the loop goes on. *)
Definition finish : M Node bool :=
  res <- try flush ;;
  match res with
  | inr err => fatal "flush" err ;;; ret false
  | inl _ => ret true
  end.

Definition stopped : M Node bool :=
  failPending ErrStopped ;;;
  failReads ErrStopped ;;;
  ret false.

Definition iterate (i : input) : M Node bool :=
  match i with
  | InStop => stopped
  | InTick =>
      res <- try (on_rn Tick) ;;
      match res with
      | inr err => fatal "tick" err ;;; ret false
      | inl _ => finish
      end
  | InRecv None => stopped
  | InRecv (Some m) =>
      res <- try (on_rn (Step m)) ;;
      match res with
      | inr err =>
          if negb (errorsIs err ErrIgnoredMessage) then fatal "step" err ;;; ret false
          else finish
      | inl _ => finish
      end
  | InPropose h cmd => handlePropose h cmd ;;; finish
  | InRead h => handleRead h ;;; finish
  | InConfChange h target => handleConfChange h target ;;; finish
  | InStatus => finish
  end.

(** A run of the loop, until it returns. *)
Fixpoint run (inputs : list input) : M Node bool :=
  match inputs with
  | [] => ret true
  | i :: rest => go <- iterate i ;; if (go : bool) then run rest else ret false
  end.

(** ** Starting *)

(** What an operator configures; nil interfaces are [None]. *)
Record nodeConfig := mkNodeConfig {
  nc_ID : NodeID;
  nc_Peers : list NodeID;
  nc_Bootstrap : list NodeID;
  nc_Storage : option S;
  nc_hasTransport : bool;
  nc_StateMachine : option A;
  nc_ElectionTick : Z;
  nc_HeartbeatTick : Z;
  nc_PreVote : bool;
  nc_MaxEntriesPerMessage : Z;
  nc_MaxApplyEntries : Z;
  nc_SnapshotThreshold : N;
  nc_SnapshotCatchUpEntries : N;
  nc_Rand : option G
}.

(** The seeded source of jitter, when none is given. *)
Context (newSeededRand : NodeID → G).

Definition withDefaults (c : nodeConfig) : outcome nodeConfig :=
  if (nc_ID c =? None_)%N then Fail (Errorf "node: ID must not be zero" [])
  else match nc_Storage c with
  | None => Fail (Errorf "node: Storage is required" [])
  | Some _ =>
      if negb (nc_hasTransport c) then Fail (Errorf "node: Transport is required" [])
      else match nc_StateMachine c with
      | None => Fail (Errorf "node: StateMachine is required" [])
      | Some _ =>
          Ret (mkNodeConfig (nc_ID c) (nc_Peers c) (nc_Bootstrap c) (nc_Storage c) true
                 (nc_StateMachine c)
                 (if (nc_ElectionTick c =? 0)%Z then 10 else nc_ElectionTick c)
                 (if (nc_HeartbeatTick c =? 0)%Z then 2 else nc_HeartbeatTick c)
                 (nc_PreVote c) (nc_MaxEntriesPerMessage c) (nc_MaxApplyEntries c)
                 (nc_SnapshotThreshold c) (nc_SnapshotCatchUpEntries c)
                 (match nc_Rand c with
                  | Some g => Some g
                  | None => Some (newSeededRand (nc_ID c))
                  end))
      end
  end.

Definition contains (ids : list NodeID) (id : NodeID) : bool := existsb (N.eqb id) ids.

(** The initial voters: those configured, or everyone known. *)
Definition bootVoters (c : nodeConfig) : list NodeID :=
  match nc_Bootstrap c with
  | [] => if contains (nc_Peers c) (nc_ID c) then nc_Peers c else nc_Peers c ++ [nc_ID c]
  | voters => voters
  end.

Definition rawConfig (c : nodeConfig) : Config :=
  mkConfig (nc_ID c) (nc_ElectionTick c) (nc_HeartbeatTick c) (nc_PreVote c)
    (NewConfiguration (bootVoters c) []) (nc_MaxApplyEntries c) (nc_MaxEntriesPerMessage c)
    (nc_SnapshotThreshold c) (nc_SnapshotCatchUpEntries c) 0.

(** The state machine a node starts from: the one given, with its own snapshot
    restored if the disk has one. *)
Definition restoreFromDisk (st : S) (sm : A) : outcome A :=
  match InitialState st with
  | Fail e => Fail (Errorf "node: reading initial state" [e])
  | Panic p => Panic p
  | OutOfFuel => OutOfFuel
  | Ret (_, snap) =>
      if Snapshot_IsEmpty snap then Ret sm
      else
        match @sm_Snapshotter A Resp HSM with
        | None => Fail (Errorf "node: storage holds a snapshot but the state machine cannot restore from one" [])
        | Some sn =>
            match sn_Restore sn (snap_Data snap) (snap_LastIncludedIndex snap) sm with
            | (Ret _, sm') => Ret sm'
            | (Fail e, _) => Fail (Errorf "node: restoring snapshot" [e])
            | (Panic p, _) => Panic p
            | (OutOfFuel, _) => OutOfFuel
            end
        end
  end.

Definition Start (cfg : nodeConfig) : outcome Node :=
  let? c := withDefaults cfg in
  let? rn := NewRawNode (rawConfig c) (nc_Storage c) (nc_Rand c) in
  match nc_Storage c, nc_StateMachine c with
  | Some st, Some sm =>
      let? sm' := restoreFromDisk st sm in
      Ret (mkNode rn sm' ∅ ∅ 0 (rn_state rn) (rn_term rn) [] [])
  | _, _ => Panic "nil pointer dereference"
  end.
End node.
Arguments Node : clear implicits.
Arguments nodeConfig : clear implicits.
