(* ===== verification/Jitter.v ===== *)
(** * The source of election jitter

    [node/rand.go]: the seed of a node's generator, from the clock and the node's id.  The
    mutex around the generator is left out: a node draws from its run loop only. *)

From S2P Require Import Prelude Types.

(** [0x9E3779B97F4A7C15], an odd number, so that multiplying by it loses nothing. *)
Definition golden : N := 11400714819323198485.

(** [time.Now().UnixNano() ^ int64(uint64(id)*0x9E3779B97F4A7C15)] *)
Definition seedOf (unixNano : Z) (id : NodeID) : Z :=
  Z.lxor unixNano (int_wrap (Z.of_N ((id * golden) mod W64)%N)).

(** [NewSource] is math/rand's. *)
Definition newSeededRand {G} (NewSource : Z → G) (unixNano : Z) (id : NodeID) : G := NewSource (seedOf unixNano id).

Lemma golden_inverse id : (id < W64)%N → (((id * golden) mod W64) * 17428512612931826493 mod W64 = id)%N.
Proof.
  intros Hid. rewrite N.Div0.mul_mod_idemp_l, <- N.mul_assoc.
  rewrite <- N.Div0.mul_mod_idemp_r. replace ((golden * 17428512612931826493) mod W64)%N with 1%N by (vm_compute; reflexivity).
  rewrite N.mul_1_r. by apply N.mod_small.
Qed.

Lemma int_wrap_inj a b :
  (0 ≤ a < 18446744073709551616)%Z → (0 ≤ b < 18446744073709551616)%Z → int_wrap a = int_wrap b → a = b.
Proof.
  unfold int_wrap. intros Ha Hb E%Z.sub_cancel_r. assert ((a - b) mod 18446744073709551616 = 0)%Z as Hm.
  { replace (a - b)%Z with ((a + 9223372036854775808) - (b + 9223372036854775808))%Z by lia. rewrite Zminus_mod.
    by rewrite E, Z.sub_diag. }
  apply Z.mod_divide in Hm as [k Hk]; [|done]. assert (k = 0)%Z; nia.
Qed.

Lemma below_W64 n : (0 ≤ Z.of_N (n mod W64) < 18446744073709551616)%Z.
Proof. pose proof (N.mod_upper_bound n W64 ltac:(done)) as Hn. revert Hn. generalize (n mod W64)%N. unfold W64. lia. Qed.

(** Nodes started in the same instant do not draw the same timeouts: whatever the clock says,
    two ids never give the same seed. *)
Theorem seeds_differ unixNano id1 id2 :
  (id1 < W64)%N → (id2 < W64)%N → id1 ≠ id2 → seedOf unixNano id1 ≠ seedOf unixNano id2.
Proof.
  intros H1 H2 Hne E. apply Hne. unfold seedOf in E. apply (f_equal (Z.lxor unixNano)) in E.
  rewrite <- !Z.lxor_assoc, Z.lxor_nilpotent, !Z.lxor_0_l in E.
  apply int_wrap_inj, N2Z.inj in E; [|by apply below_W64..].
  rewrite <- (golden_inverse id1 H1), <- (golden_inverse id2 H2). by rewrite E.
Qed.

Lemma seeds_differ_witness : seedOf 1700000000000000000 1 ≠ seedOf 1700000000000000000 2.
Proof. apply seeds_differ; done. Defined.
