(* ===== verification/Driver.v ===== *)
(** * What the driver guarantees

    The run loop of Node.v loses no caller and answers none twice, feeds the state
    machine every committed entry once and in order, and never panics, on any state
    machine that does not panic itself ([StateMachineLaws]); the key/value store is
    such a state machine. *)

From S2P Require Import Prelude Varint GoMaps Types Config Storage RaftLog RawNode Membership.
From S2P Require Import NodeSafety Replication Cluster ElectionSafety ClusterSafety KVStore Node.

(** What the driver relies on: applying, capturing and restoring return or fail. *)
Class StateMachineLaws (A Resp : Type) `{StateMachine A Resp} := {
  sm_apply_total e (a : A) : wp (sm_Apply e) (λ _ _, True) (λ _ _, True) (λ _, False) a;
  sm_snapshot_total sn (a : A) :
    sm_Snapshotter = Some sn → wp (reads (sn_Snapshot sn)) (λ _ _, True) (λ _ _, True) (λ _, False) a;
  sm_restore_total sn data i (a : A) :
    sm_Snapshotter = Some sn → wp (sn_Restore sn data i) (λ _ _, True) (λ _ _, True) (λ _, False) a
}.

Section driver.
Context {S G A Resp : Type} `{Hst : Storage S} `{HL : !LogLaws S} `{Hrand : Rand G}
  `{HSM : !StateMachine A Resp} `{HSL : !StateMachineLaws A Resp} `{R : MapRange}.
Local Abbreviation RN := (RawNode S G).
Local Abbreviation ND := (Node S G A Resp).
Implicit Types (n : ND) (r : RN).

(** ** Callers *)

Definition answered n : list N := (n_answers n).*1.
Definition waiting n : list N :=
  (w_p <$> (map_to_list (n_pending n)).*2) ++ (map_to_list (n_pendingReads n)).*2.
(** Everyone who ever asked. *)
Definition callers n : list N := answered n ++ waiting n.

(** ** What a flush may do to the core *)

Definition calm r r' : Prop :=
  grows 0 r r' ∧ rn_state r' = rn_state r ∧ rn_term r' = rn_term r.

Lemma calm_refl r : node_ok r → calm r r.
Proof. intros Hr. by split; [apply still_grows, still_refl|]. Qed.

Lemma calm_trans r1 r2 r3 : calm r1 r2 → calm r2 r3 → calm r1 r3.
Proof.
  intros (G1 & S1 & T1) (G2 & S2 & T2). split; [by eapply grows_trans|]. split; congruence.
Qed.

(** A part of the loop: the core stays as [calm] says, callers are neither lost nor
    invented, nobody starts to wait, and nothing panics. *)
Definition moves n n' : Prop :=
  calm (n_rn n) (n_rn n') ∧ callers n' ≡ₚ callers n ∧
  n_pending n' ⊆ n_pending n ∧ n_pendingReads n' ⊆ n_pendingReads n ∧
  n_readSeq n' = n_readSeq n ∧ n_lastState n' = n_lastState n.

Definition mwp {B} (m : M ND B) n : Prop :=
  wp m (λ _, moves n) (λ _, moves n) (λ _, False) n.

Lemma moves_refl n : node_ok (n_rn n) → moves n n.
Proof. intros Hn. by split; [apply calm_refl|]. Qed.

Lemma moves_trans n1 n2 n3 : moves n1 n2 → moves n2 n3 → moves n1 n3.
Proof.
  intros (C1 & P1 & A1 & B1 & S1 & L1) (C2 & P2 & A2 & B2 & S2 & L2).
  split; [by eapply calm_trans|]. split; [by rewrite P2|].
  split_and!; [by etrans|by etrans|congruence..].
Qed.

Lemma moves_ok n n' : moves n n' → node_ok (n_rn n').
Proof. intros ((H & _) & _). apply H. Qed.

Lemma mwp_after {B} (m : M ND B) n n1 :
  moves n n1 → mwp m n1 → wp m (λ _, moves n) (λ _, moves n) (λ _, False) n1.
Proof.
  intros H1 Hm. eapply wp_mono; [exact Hm|..]; [..|done]; cbn beta; intros; by eapply moves_trans.
Qed.

Lemma mwp_bind {B C} (m : M ND B) (f : B → M ND C) n :
  mwp m n → (∀ b n1, moves n n1 → mwp (f b) n1) → mwp (bind m f) n.
Proof.
  intros Hm Hf. apply wp_bind. eapply wp_mono; [exact Hm|..]; [|done..]. cbn beta.
  intros b n1 H1. apply mwp_after; [done|by apply Hf].
Qed.

Lemma mwp_ret {B} (b : B) n : node_ok (n_rn n) → mwp (ret b) n.
Proof. intros Hn. by apply moves_refl. Qed.

Lemma mwp_fail {B} e n : node_ok (n_rn n) → mwp (B:=B) (fail e) n.
Proof. intros Hn. by apply moves_refl. Qed.

Lemma mwp_get {B} (f : ND → M ND B) n : mwp (f n) n → mwp (bind get f) n.
Proof. intros Hf. apply wp_bind, wp_get. exact Hf. Qed.

Lemma mwp_wrapErr {B} msg (m : M ND B) n : mwp m n → mwp (wrapErr msg m) n.
Proof. intros Hm. apply wp_wrapErr. exact Hm. Qed.

Lemma mwp_forEach {B} (l : list B) body n :
  node_ok (n_rn n) → (∀ x n1, x ∈ l → node_ok (n_rn n1) → mwp (body x) n1) →
  mwp (forEach l body) n.
Proof.
  revert n. induction l as [|x l IH]; intros n Hn Hb; cbn [forEach]; [by apply mwp_ret|].
  apply mwp_bind; [by apply Hb; [left|]|]. intros _ n1 H1.
  apply IH; [by eapply moves_ok|]. intros y n2 Hy. apply Hb. by right.
Qed.

(** ** The core and the state machine *)

Lemma callers_set_rn r' n : callers (set_rn r' n) = callers n.
Proof. done. Qed.

Lemma mwp_on_rn {B} (m : M RN B) n :
  wp m (λ _, calm (n_rn n)) (λ _, calm (n_rn n)) (λ _, False) (n_rn n) → mwp (on_rn m) n.
Proof.
  intros Hm. apply wp_zoom. eapply wp_mono; [exact Hm|..]; [..|done]; cbn beta;
    intros; by split; [|split_and!].
Qed.

Lemma mwp_on_sm {B} (m : M A B) n :
  node_ok (n_rn n) → wp m (λ _ _, True) (λ _ _, True) (λ _, False) (n_sm n) → mwp (on_sm m) n.
Proof.
  intros Hn Hm. apply wp_zoom. eapply wp_mono; [exact Hm|..]; [..|done]; cbn beta;
    intros; (split; [by apply calm_refl|by split_and!]).
Qed.

(** ** Answering one caller *)

Lemma answer_pending idx w a n :
  node_ok (n_rn n) → n_pending n !! idx = Some w →
  moves n (set_answers (n_answers n ++ [(w_p w, a)]) (set_pending (delete idx (n_pending n)) n)).
Proof.
  intros Hn Hw. split; [by apply calm_refl|]. split; [|split_and!; try done; apply delete_subseteq].
  unfold callers, answered, waiting. cbn.
  rewrite <- (map_to_list_delete (n_pending n) idx w Hw), fmap_app. cbn. solve_Permutation.
Qed.

Lemma answer_read id h a n :
  node_ok (n_rn n) → n_pendingReads n !! id = Some h →
  moves n (set_answers (n_answers n ++ [(h, a)]) (set_reads (delete id (n_pendingReads n)) n)).
Proof.
  intros Hn Hw. split; [by apply calm_refl|]. split; [|split_and!; try done; apply delete_subseteq].
  unfold callers, answered, waiting. cbn.
  rewrite <- (map_to_list_delete (n_pendingReads n) id h Hw), fmap_app. cbn. solve_Permutation.
Qed.

(** Both loops of [failPending] and [failReads] empty the map they range over. *)
Lemma failPending_moves err n :
  node_ok (n_rn n) →
  wp (failPending err) (λ _ n', moves n n' ∧ n_pending n' = ∅ ∧ n_pendingReads n' = n_pendingReads n)
     (λ _ _, False) (λ _, False) n.
Proof.
  intros Hn. unfold failPending. wp_pure.
  assert (∀ l n1, moves n n1 → l ≡ₚ map_to_list (n_pending n1) →
    n_pendingReads n1 = n_pendingReads n →
    wp (forEach l (λ '(idx, w), modify (λ n, set_pending (delete idx (n_pending n)) n) ;;;
          reply (w_p w) (Failed err)))
       (λ _ n', moves n n' ∧ n_pending n' = ∅ ∧ n_pendingReads n' = n_pendingReads n)
       (λ _ _, False) (λ _, False) n1) as Hloop.
  2: { apply Hloop; [by apply moves_refl|apply range_map_perm|done]. }
  induction l as [|[idx w] l IH]; intros n1 H1 Hl HR; cbn [forEach].
  - wp_pure. split_and!; [done| |done]. by apply map_to_list_empty_iff, Permutation_nil.
  - assert (n_pending n1 !! idx = Some w) as Hw.
    { apply elem_of_map_to_list. rewrite <- Hl. by left. }
    apply wp_bind. unfold reply. wp_pure. apply IH; [|cbn|done].
    + eapply moves_trans; [done|]. exact (answer_pending idx w _ n1 (moves_ok _ _ H1) Hw).
    + rewrite <- (map_to_list_delete _ _ _ Hw) in Hl. by apply (inj (cons (idx, w))) in Hl.
Qed.

Lemma failReads_moves err n :
  node_ok (n_rn n) →
  wp (failReads err) (λ _ n', moves n n' ∧ n_pendingReads n' = ∅ ∧ n_pending n' = n_pending n)
     (λ _ _, False) (λ _, False) n.
Proof.
  intros Hn. unfold failReads. wp_pure.
  assert (∀ l n1, moves n n1 → l ≡ₚ map_to_list (n_pendingReads n1) →
    n_pending n1 = n_pending n →
    wp (forEach l (λ '(id, h), modify (λ n, set_reads (delete id (n_pendingReads n)) n) ;;;
          reply h (Failed err)))
       (λ _ n', moves n n' ∧ n_pendingReads n' = ∅ ∧ n_pending n' = n_pending n)
       (λ _ _, False) (λ _, False) n1) as Hloop.
  2: { apply Hloop; [by apply moves_refl|apply range_map_perm|done]. }
  induction l as [|[id h] l IH]; intros n1 H1 Hl HR; cbn [forEach].
  - wp_pure. split_and!; [done| |done]. by apply map_to_list_empty_iff, Permutation_nil.
  - assert (n_pendingReads n1 !! id = Some h) as Hw.
    { apply elem_of_map_to_list. rewrite <- Hl. by left. }
    apply wp_bind. unfold reply. wp_pure. apply IH; [|cbn|done].
    + eapply moves_trans; [done|]. exact (answer_read id h _ n1 (moves_ok _ _ H1) Hw).
    + rewrite <- (map_to_list_delete _ _ _ Hw) in Hl. by apply (inj (cons (id, h))) in Hl.
Qed.

(** Giving up answers everyone. *)
Lemma fail_all_moves e1 e2 n :
  node_ok (n_rn n) →
  wp (failPending e1 ;;; failReads e2) (λ _ n', moves n n' ∧ n_pending n' = ∅ ∧ waiting n' = [])
     (λ _ _, False) (λ _, False) n.
Proof.
  intros Hn. apply wp_bind. eapply wp_mono; [by apply failPending_moves|..]; [|done..]. cbn beta.
  intros _ n1 (H1 & E1 & _).
  eapply wp_mono; [apply failReads_moves; by eapply moves_ok|..]; [|done..]. cbn beta.
  intros _ n2 (H2 & E2 & E3). split; [by eapply moves_trans|]. split; [congruence|].
  unfold waiting. by rewrite E3, E1, E2, !map_to_list_empty.
Qed.

(** ** The calls of a flush *)

(** A call that only replaces the log is calm if it grows nothing. *)
Lemma calm_set_log {B} (m : M RN B) r :
  gwp 0 m r →
  wp m (λ _ r', ∃ l, r' = set_log l r) (λ _ r', ∃ l, r' = set_log l r) (λ _, True) r →
  wp m (λ _, calm r) (λ _, calm r) (λ _, False) r.
Proof.
  intros Hg Hf. eapply wp_mono; [apply wp_and; [exact Hg|exact Hf]|..]; cbn beta.
  - by intros b r' [? [l ->]].
  - by intros e r' [? [l ->]].
  - by intros r' [[] _].
Qed.

Lemma on_log_sets {B} (m : M (raftLog S) B) r l :
  wp (on_log m) (λ _ r', ∃ l, r' = set_log l r) (λ _ r', ∃ l, r' = set_log l r) (λ _, True)
     (set_log l r).
Proof. unfold on_log. apply wp_zoom. unfold wp. destruct (m _) as [[]]; by try eexists. Qed.

Lemma CreateSnapshot_calm data r :
  node_ok r → wp (CreateSnapshot data) (λ _, calm r) (λ _, calm r) (λ _, False) r.
Proof.
  intros Hr. apply calm_set_log; [by apply CreateSnapshot_ok|].
  assert (∃ l, r = set_log l r) as Hid by (exists (rn_log r); by rewrite set_log_id).
  unfold CreateSnapshot, on_disk. wp_pure. case_match; [by apply wp_fail|].
  apply wp_bind, wp_wrapErr. rewrite <- (set_log_id r) at 2.
  eapply wp_mono; [apply on_log_sets|..]; [|done..]. cbn beta. intros t r1 [l1 ->].
  apply wp_bind, wp_try. eapply wp_mono; [apply on_log_sets|..]; [..|done]; cbn beta.
  2: { intros e r2 [l2 ->]. case_match; apply wp_fail; by eexists. }
  intros _ r2 [l2 ->]. case_match; [wp_pure; by eexists|].
  wp_pure. case_match; [wp_pure; by eexists|].
  apply wp_bind, wp_wrapErr. eapply wp_mono; [apply on_log_sets|..]; [|done..]. cbn beta.
  intros _ r3 [l3 ->]. wp_pure. by eexists.
Qed.

Lemma ApplyTo_calm i r :
  node_ok r → (i ≤ l_committed (rn_log r))%N →
  wp (ApplyTo i)
     (λ _ r', calm r r' ∧ r' = set_log (set_l_applied (N.max (l_applied (rn_log r)) i) (rn_log r)) r)
     (λ _ _, False) (λ _, False) r.
Proof.
  intros Hr Hi. eapply wp_mono; [by apply ApplyTo_wp|..]; [|done..]. cbn beta.
  intros _ r' [Hg ->]. by split; [split|].
Qed.

(** Taking what the core hands out. *)
Lemma field_calm r r' :
  node_ok r → rn_log r' = rn_log r → rn_id r' = rn_id r → rn_bootstrap r' = rn_bootstrap r →
  rn_conf r' = rn_conf r → rn_state r' = rn_state r → rn_term r' = rn_term r →
  rn_msgs r' = rn_msgs r ∨ rn_msgs r' = [] → calm r r'.
Proof.
  intros Hr El Ei Eb Ec Es Et Em. split; [|done]. unfold grows, node_ok, last_of.
  rewrite El, Ei, Eb, Ec, Es. split; [by split_and!; try apply Hr|].
  split; [by apply log_appends_disk; [apply log_extends_refl|]|]. split_and!; try done; [lia|].
  intros m. destruct Em as [-> | ->]; [by left|by intros ?%not_elem_of_nil].
Qed.

Lemma resolveReads_moves n : node_ok (n_rn n) → mwp resolveReads n.
Proof.
  intros Hn. unfold resolveReads. apply mwp_bind.
  { apply mwp_on_rn. unfold ReadStates. wp_pure. apply field_calm; try done. by left. }
  intros states n1 H1. apply mwp_forEach; [by eapply moves_ok|]. intros st n2 _ Hn2.
  apply mwp_get. destruct (n_pendingReads n2 !! rs_ID st) as [h|] eqn:E; [|by apply mwp_ret].
  unfold mwp, reply. wp_pure. exact (answer_read (rs_ID st) h _ n2 Hn2 E).
Qed.

Lemma restoreSnapshot_moves n : node_ok (n_rn n) → mwp restoreSnapshot n.
Proof.
  intros Hn. unfold restoreSnapshot. apply mwp_bind.
  { apply mwp_on_rn. unfold SnapshotToApply. wp_pure. apply field_calm; try done. by left. }
  intros [snap|] n1 H1%moves_ok; [|by apply mwp_ret].
  destruct sm_Snapshotter as [sn|] eqn:E; [|by apply mwp_fail].
  apply mwp_bind; [by apply mwp_wrapErr, mwp_on_sm, sm_restore_total|].
  intros _ n2 H2%moves_ok. eapply wp_mono; [by apply failPending_moves|..]; [|done..].
  by intros _ n3 [? _].
Qed.

Lemma maybeSnapshot_moves n : node_ok (n_rn n) → mwp maybeSnapshot n.
Proof.
  intros Hn. apply mwp_get. case_match; [by apply mwp_ret|].
  destruct sm_Snapshotter as [sn|] eqn:E; [|by apply mwp_ret].
  apply mwp_bind; [by apply mwp_wrapErr, mwp_on_sm, sm_snapshot_total|].
  intros data n1 H1%moves_ok. apply mwp_bind.
  { apply wp_try. eapply wp_mono; [by apply mwp_on_rn, CreateSnapshot_calm|..]; by cbn beta. }
  intros [_|err] n2 H2%moves_ok; [by apply mwp_ret|]. case_match; [by apply mwp_ret|by apply mwp_fail].
Qed.

(** ** Applying *)

(** What the state machine is given: the client commands, in order. *)
Definition feed1 (e : LogEntry) : M A unit :=
  match e_Type e with EntryNormal => sm_Apply e ;;; ret tt | _ => ret tt end.
Definition feed (es : list LogEntry) : M A unit := forEach es feed1.

Lemma feed_app es1 es2 a a' :
  feed es1 a = (Ret tt, a') → feed (es1 ++ es2) a = feed es2 a'.
Proof.
  unfold feed. revert a. induction es1 as [|e es1 IH]; intros a; cbn [app forEach].
  { unfold ret. by intros [= <-]. }
  unfold bind. destruct (feed1 e a) as [[]]; try done.
  apply IH.
Qed.

Lemma feed_app_fail es1 es2 a a' err :
  feed es1 a = (Fail err, a') → feed (es1 ++ es2) a = (Fail err, a').
Proof.
  unfold feed. revert a. induction es1 as [|e es1 IH]; intros a; cbn [app forEach]; [done|].
  unfold bind. destruct (feed1 e a) as [[]]; try done. apply IH.
Qed.

Definition fed (es : list LogEntry) n n' : Prop :=
  moves n n' ∧ n_rn n' = n_rn n ∧ feed es (n_sm n) = (Ret tt, n_sm n').
Definition choked (es : list LogEntry) n n' : Prop :=
  moves n n' ∧ ∃ err, feed es (n_sm n) = (Fail err, n_sm n').

Lemma resolve_fixed e resp n :
  node_ok (n_rn n) →
  wp (resolve e resp) (λ _ n', moves n n' ∧ n_rn n' = n_rn n ∧ n_sm n' = n_sm n) (λ _ _, False)
     (λ _, False) n.
Proof.
  intros Hn. unfold resolve. wp_pure. destruct (n_pending n !! e_Index e) as [w|] eqn:E.
  2: { wp_pure. by split; [apply moves_refl|]. }
  unfold reply. case_match; wp_pure;
    (split; [exact (answer_pending (e_Index e) w _ n Hn E)|done]).
Qed.

Lemma applyEntry_fed e n :
  node_ok (n_rn n) → wp (applyEntry e) (λ _, fed [e] n) (λ _, choked [e] n) (λ _, False) n.
Proof.
  intros Hn. unfold applyEntry, fed, feed. cbn [forEach].
  assert (∀ resp a n1, n1 = set_sm a n → feed1 e (n_sm n) = (Ret tt, a) →
    wp (resolve e resp) (λ _ n', moves n n' ∧ n_rn n' = n_rn n ∧
      (feed1 e ;;; ret tt) (n_sm n) = (Ret tt, n_sm n')) (λ _, choked [e] n) (λ _, False) n1) as Hres.
  { intros resp a n1 -> Hf. eapply wp_mono; [by apply resolve_fixed|..]; [|done..]. cbn beta.
    intros _ n2 (H2 & E2 & E3). split; [|split; [done|]].
    - eapply moves_trans; [|exact H2]. split; [by apply calm_refl|by split_and!].
    - unfold bind at 1. rewrite Hf, E3. done. }
  apply wp_bind. destruct (e_Type e) eqn:ET; [|wp_pure; apply (Hres None (n_sm n) n); [by destruct n|by unfold feed1; rewrite ET]..].
  apply wp_bind, wp_wrapErr. unfold on_sm. apply wp_zoom.
  pose proof (sm_apply_total e (n_sm n)) as Htot. unfold wp in Htot |- *.
  destruct (sm_Apply e (n_sm n)) as [[x|err| |] a] eqn:EA; [|..|done|done].
  - wp_pure. eapply (Hres (Some x)); [done|]. unfold feed1, bind. by rewrite ET, EA.
  - split; [split; [by apply calm_refl|by split_and!]|]. exists err.
    unfold feed, feed1. cbn [forEach]. unfold bind. by rewrite ET, EA.
Qed.

Lemma applyEntries_fed es n :
  node_ok (n_rn n) → wp (forEach es applyEntry) (λ _, fed es n) (λ _, choked es n) (λ _, False) n.
Proof.
  revert n. induction es as [|e es IH]; intros n Hn; cbn [forEach].
  { wp_pure. by split; [apply moves_refl|]. }
  apply wp_bind. eapply wp_mono; [by apply applyEntry_fed|..]; [..|done]; cbn beta.
  2: { intros _ n1 [H1 [err F1]]. split; [done|]. exists err.
       change (e :: es) with ([e] ++ es). by apply feed_app_fail. }
  intros _ n1 (H1 & E1 & F1).
  eapply wp_mono; [apply IH; by eapply moves_ok|..]; [..|done]; cbn beta.
  - intros _ n2 (H2 & E2 & F2). split; [by eapply moves_trans|]. split; [congruence|].
    change (e :: es) with ([e] ++ es). by rewrite (feed_app _ _ _ _ F1).
  - intros _ n2 (H2 & err & F2). split; [by eapply moves_trans|]. exists err.
    change (e :: es) with ([e] ++ es). by rewrite (feed_app _ _ _ _ F1).
Qed.

(** ** Where a proposal lands *)

Lemma wp_any {T B} (m : M T B) s : wp m (λ _ _, True) (λ _ _, True) (λ _, True) s.
Proof. unfold wp. by destruct (m s) as [[]]. Qed.

Lemma wp_seq {T B C} (m : M T B) (f : B → M T C) (Q : C → T → Prop) s :
  (∀ b s', wp (f b) Q (λ _ _, True) (λ _, True) s') → wp (bind m f) Q (λ _ _, True) (λ _, True) s.
Proof. intros Hf. apply wp_bind. eapply wp_mono; [apply wp_any|..]; [|done..]. by intros. Qed.

Lemma grows_last k r r' : grows k r r' → (last_of r ≤ last_of r')%N.
Proof. intros (_ & (_ & H & _) & _). exact H. Qed.

Lemma propose_index k m r cmd :
  node_ok r → (last_of r + 2 < W64)%N →
  (∀ r1, node_ok r1 → last_of r1 = (last_of r + 1)%N → gwp m (maybeAdvanceCommit k) r1) →
  wp (propose (Datatypes.S k) EntryNormal cmd)
     (λ i r', i = (last_of r + 1)%N ∧ (i ≤ last_of r')%N ∧ rn_state r = Leader)
     (λ _ _, True) (λ _, True) r.
Proof.
  intros Hr Hroom Hk. pose proof Hr as (Hok & _).
  cbn [propose]. wp_pure. destruct (negb _) eqn:EL; [by apply wp_fail|].
  apply negb_false_iff, bool_decide_eq_true in EL. cbv zeta. cbn [e_Index].
  rewrite (lastIndex_spec _ Hok). fold (last_of r). rewrite u64_add_small by lia.
  set (e := mkEntry (rn_term r) (last_of r + 1) EntryNormal cmd).
  apply wp_bind. eapply wp_mono; [by apply (append_one_ok r e)|..]; cbn beta; [|done..].
  intros _ r1 (H1 & l1 & E1 & EL1 & ED1). subst r1. apply wp_bind, wp_ret.
  eapply wp_mono; [apply wp_and; [apply (propose_tail k m (last_of r + 1)%N)|]|..].
  - apply H1.
  - intros r2 Hr2 _ EL2. apply Hk; [done|by rewrite EL2].
  - do 4 (apply (wp_seq _ _ (λ i _, i = (last_of r + 1)%N)); intros). by apply wp_ret.
  - cbn beta. intros i r2 [H2 ->]. apply grows_last in H2. split_and!; [done| |done].
    etrans; [|exact H2]. by rewrite EL1.
  - done.
  - done.
Qed.

Lemma Propose_index r cmd :
  node_ok r → (last_of r + 3 < W64)%N →
  wp (Propose cmd)
     (λ i r', steps r r' ∧ i = (last_of r + 1)%N ∧ (i ≤ last_of r')%N ∧ rn_state r = Leader)
     (λ _, steps r) (λ _, False) r.
Proof.
  intros Hr Hroom. eapply wp_mono; [apply wp_and|..].
  - eapply (gwp_swp 2), (propose_ok r EntryNormal cmd); [done..|by intros].
  - apply (propose_index _ 1); [done|lia|]. intros r1 Hr1 EL.
    apply maybeAdvanceCommit_step; [done|]. intros r2 Hr2 _ EL2. apply maybeLeaveJoint_ok; [done|lia].
  - done.
  - by intros _ r' [? _].
  - by intros r' [[] _].
Qed.

(** ** The apply loop *)

Lemma last_index_contiguous f es :
  contiguous_from f es → es ≠ [] → (last_index es + 1 = f + N.of_nat (length es))%N.
Proof.
  intros Hc Hne. unfold last_index. destruct (last es) as [e|] eqn:E; [|by apply last_None in E].
  by apply (contiguous_last_Some f es e).
Qed.

Lemma committed_above_advance l b :
  log_ok l → (b ≤ length (committed_above l (l_applied l)))%nat →
  committed_above (set_l_applied (l_applied l + N.of_nat b) l) (l_applied l + N.of_nat b) =
  drop b (committed_above l (l_applied l)).
Proof.
  intros Hok Hb. pose proof (committed_above_spec l Hok) as [EL _].
  pose proof (log_ok_base l Hok) as HB.
  unfold committed_above in *. rewrite skipn_firstn_comm, drop_drop.
  change (log_disk (set_l_applied _ l)) with (log_disk l).
  f_equal; [cbn; lia|]. f_equal. lia.
Qed.

(** Everything committed has been applied, in order. *)
Definition caught_up n n' : Prop :=
  (c_MaxApplyEntries (rn_cfg (n_rn n)) < 9223372036854775808)%Z →
  let l := rn_log (n_rn n) in
  feed (committed_above l (l_applied l)) (n_sm n) = (Ret tt, n_sm n') ∧
  rn_log (n_rn n') = set_l_applied (l_committed l) l.

(** One round of the loop, and what is left to do after it. *)
Lemma caught_up_step b n n1 n2 n3 :
  let l := rn_log (n_rn n) in let pending := committed_above l (l_applied l) in
  node_ok (n_rn n) → (b ≤ length pending)%nat → feed (take b pending) (n_sm n) = (Ret tt, n_sm n1) →
  n2 = set_rn (set_log (set_l_applied (l_applied l + N.of_nat b) l) (n_rn n)) n1 →
  caught_up n2 n3 → caught_up n n3.
Proof.
  intros l pending (Hok & _) Hb HF -> H3 Hm. cbv zeta. fold l. fold pending.
  destruct (H3 Hm) as [F3 E3]. cbn in F3, E3.
  rewrite (committed_above_advance l b Hok Hb) in F3. fold pending in F3.
  rewrite <- (take_drop b pending), (feed_app _ _ _ _ HF). split; [exact F3|exact E3].
Qed.

Lemma caught_up_idle n :
  node_ok (n_rn n) → ¬ (l_applied (rn_log (n_rn n)) < l_committed (rn_log (n_rn n)))%N → caught_up n n.
Proof.
  intros ((_ & Ha & Hb & _) & _) Hi _. cbv zeta. unfold committed_above.
  replace (N.to_nat _) with 0%nat by lia. split; [done|].
  destruct (rn_log (n_rn n)) as [st c a]. unfold set_l_applied. cbn in *. f_equal. lia.
Qed.

Lemma applyCommitted_loop_spec fuel n :
  node_ok (n_rn n) →
  (N.to_nat (l_committed (rn_log (n_rn n)) - l_applied (rn_log (n_rn n))) ≤ fuel)%nat →
  wp (applyCommitted_loop fuel) (λ _ n', moves n n' ∧ caught_up n n')
     (λ _, choked (committed_above (rn_log (n_rn n)) (l_applied (rn_log (n_rn n)))) n) (λ _, False) n.
Proof.
  revert n. induction fuel as [|k IH]; intros n Hn Hfuel; pose proof Hn as (Hok & _);
    cbn [applyCommitted_loop]; wp_pure; unfold HasCommittedEntries, hasEntriesToApply;
    destruct (N.ltb_spec (l_applied (rn_log (n_rn n))) (l_committed (rn_log (n_rn n))));
    cbn [negb]; try lia.
  1,3: wp_pure; split; [by apply moves_refl|apply caught_up_idle; [done|lia]].
  pose proof (committed_above_spec _ Hok) as [EL HC].
  destruct (CommittedEntries_batch (n_rn n) Hn) as (b & EB & Hb & Hb0). cbv zeta in Hb, Hb0, EB.
  apply wp_bind, wp_wrapErr. unfold on_rn at 1. apply wp_zoom, wp_reads. rewrite EB.
  replace (set_rn (n_rn n) n) with n by by destruct n.
  set (pending := committed_above _ _) in *.
  destruct (decide (b = 0%nat)) as [->|Hb1].
  { cbn. wp_pure. split; [by apply moves_refl|]. intros Hm. destruct (Hb0 Hm); [|done].
    intros E. rewrite E in EL. cbn in EL. lia. }
  assert (take b pending ≠ []) as Hne.
  { intros E%(f_equal length). rewrite length_take in E. cbn in E. lia. }
  pose proof (last_index_contiguous _ _ (contiguous_take _ _ b HC) Hne) as ELI.
  rewrite length_take, Nat.min_l in ELI by done.
  destruct (take b pending) as [|e0 es0] eqn:ET; [done|]. rewrite <- ET in *. clear e0 es0 ET Hne.
  apply wp_bind. eapply wp_mono; [by apply applyEntries_fed|..]; [..|done]; cbn beta.
  2: { intros _ n1 [H1 [err F1]]. split; [done|]. exists err.
       rewrite <- (take_drop b pending). by apply feed_app_fail. }
  intros _ n1 (H1 & E1 & F1). apply wp_bind. unfold on_rn. apply wp_zoom. rewrite E1.
  eapply wp_mono; [apply ApplyTo_calm; [done|lia]|..]; [|done..]. cbn beta.
  rewrite N.max_r by lia.
  replace (last_index _) with (l_applied (rn_log (n_rn n)) + N.of_nat b)%N by lia.
  intros _ r2 [C2 E2].
  assert (moves n (set_rn r2 n1)) as H2.
  { eapply moves_trans; [exact H1|]. rewrite <- E1 in C2. split; [exact C2|]. by split_and!. }
  eapply wp_mono; [apply IH; [by eapply moves_ok|]|..]; [..|done]; cbn beta.
  - rewrite E2. cbn. lia.
  - intros _ n3 [H3 K3]. split; [by eapply moves_trans|].
    eapply (caught_up_step b n n1 (set_rn r2 n1)); [done|done|exact F1|by rewrite E2|exact K3].
  - intros _ n3 [H3 [err F3]]. split; [by eapply moves_trans|]. exists err.
    rewrite E2 in F3. cbn in F3. rewrite (committed_above_advance _ b Hok Hb) in F3.
    rewrite <- (take_drop b pending), (feed_app _ _ _ _ F1). exact F3.
Qed.

Lemma applyCommitted_ok n :
  node_ok (n_rn n) →
  wp applyCommitted (λ _ n', moves n n' ∧ caught_up n n')
     (λ _, choked (committed_above (rn_log (n_rn n)) (l_applied (rn_log (n_rn n)))) n) (λ _, False) n.
Proof. intros Hn. unfold applyCommitted. wp_pure. by apply applyCommitted_loop_spec. Qed.

(** ** A flush *)

Definition same_callers n n' : Prop :=
  callers n' ≡ₚ callers n ∧ n_pending n' ⊆ n_pending n ∧ n_pendingReads n' ⊆ n_pendingReads n ∧
  n_readSeq n' = n_readSeq n.

(** A flush that succeeded leaves no proposal with a node that stopped leading. *)
Definition settles n n' : Prop :=
  calm (n_rn n) (n_rn n') ∧ same_callers n n' ∧ n_lastState n' = rn_state (n_rn n') ∧
  (n_lastState n = Leader → rn_state (n_rn n) ≠ Leader → n_pending n' = ∅).

Lemma moves_settles n n1 n' : moves n n1 → settles n1 n' → settles n n'.
Proof.
  intros (C1 & P1 & A1 & B1 & S1 & L1) (C2 & (P2 & A2 & B2 & S2) & L2 & F2).
  split; [by eapply calm_trans|]. split; [split_and!; [by rewrite P2|by etrans|by etrans|congruence]|].
  split; [done|]. destruct C1 as (_ & Es & _). rewrite <- L1, <- Es. exact F2.
Qed.

Lemma noticeStateChange_settles n :
  node_ok (n_rn n) → wp noticeStateChange (λ _, settles n) (λ _ _, False) (λ _, False) n.
Proof.
  intros Hn. unfold noticeStateChange. wp_pure. cbv zeta.
  assert (∀ n1, moves n n1 →
    (n_lastState n = Leader → rn_state (n_rn n) ≠ Leader → n_pending n1 = ∅) →
    wp (modify (λ n0, set_last (rn_state (n_rn n)) (rn_term (n_rn n0)) n0)) (λ _, settles n)
       (λ _ _, False) (λ _, False) n1) as Hset.
  { intros n1 (C1 & P1 & A1 & B1 & S1 & L1) HF. wp_pure. split; [done|]. split; [by split_and!|].
    split; [|exact HF]. cbn. by destruct C1 as (_ & -> & _). }
  destruct (negb _ || negb _) eqn:EC.
  2: { apply orb_false_iff in EC as [Es%negb_false_iff%bool_decide_eq_true _]. wp_pure.
       split; [by apply calm_refl|]. split; [by split_and!|]. split; [done|]. by intros <-. }
  apply wp_bind. destruct (_ && _) eqn:EL.
  - eapply wp_mono; [by apply fail_all_moves|..]; [|done..]. cbn beta.
    intros _ n1 (H1 & E1 & _). by apply Hset.
  - wp_pure. apply Hset; [by apply moves_refl|]. intros E1 E2.
    by rewrite (bool_decide_eq_true_2 _ E1), (bool_decide_eq_false_2 _ E2) in EL.
Qed.

Lemma flush_settles n :
  node_ok (n_rn n) → wp flush (λ _, settles n) (λ _, moves n) (λ _, False) n.
Proof.
  intros Hn. unfold flush.
  assert (∀ B (m : M ND B) (f : B → M ND unit) n1, moves n n1 → mwp m n1 →
    (∀ b n2, moves n n2 → wp (f b) (λ _, settles n) (λ _, moves n) (λ _, False) n2) →
    wp (bind m f) (λ _, settles n) (λ _, moves n) (λ _, False) n1) as Hstep.
  { intros B m f n1 H1 Hm Hf. apply wp_bind.
    eapply wp_mono; [exact (mwp_after m n n1 H1 Hm)|..]; [|done..]. exact Hf. }
  apply Hstep; [by apply moves_refl|..].
  { apply mwp_on_rn. unfold Messages. wp_pure. apply field_calm; try done. by right. }
  intros msgs n1 H1. apply Hstep; [done|..].
  { unfold mwp. wp_pure. split; [apply calm_refl; by eapply moves_ok|]. by split_and!. }
  intros _ n2 H2. apply Hstep; [done|apply resolveReads_moves; by eapply moves_ok|].
  intros _ n3 H3. apply Hstep; [done|apply restoreSnapshot_moves; by eapply moves_ok|].
  intros _ n4 H4. apply Hstep; [done|..].
  { eapply wp_mono; [apply applyCommitted_ok; by eapply moves_ok|..]; [by intros _ ? []..|done]. }
  intros _ n5 H5. apply Hstep; [done|apply maybeSnapshot_moves; by eapply moves_ok|].
  intros _ n6 H6. eapply wp_mono; [apply noticeStateChange_settles; by eapply moves_ok|..]; [|done..].
  intros ? n7. by apply moves_settles.
Qed.

(** ** A round of the loop *)

(** Between rounds the driver has noticed every change of state, keeps proposals only
    while it leads, at indexes its log has, and reads under numbers it gave out. *)
Definition node_inv n : Prop :=
  node_ok (n_rn n) ∧ n_lastState n = rn_state (n_rn n) ∧
  (n_pending n = ∅ ∨
     rn_state (n_rn n) = Leader ∧ ∀ i, is_Some (n_pending n !! i) → (i ≤ last_of (n_rn n))%N) ∧
  (∀ id, is_Some (n_pendingReads n !! id) → (id ≤ n_readSeq n)%N).

(** After the event of a round, before its flush. *)
Definition handled n : Prop :=
  node_ok (n_rn n) ∧
  (n_pending n = ∅ ∨ n_lastState n = Leader ∧
     (rn_state (n_rn n) = Leader → ∀ i, is_Some (n_pending n !! i) → (i ≤ last_of (n_rn n))%N)) ∧
  (∀ id, is_Some (n_pendingReads n !! id) → (id ≤ n_readSeq n)%N).

Lemma settles_inv n n' : handled n → settles n n' → node_inv n'.
Proof.
  intros (Hn & Hp & Hr) ((Hg & Es & _) & (_ & Ap & Ar & Eq) & El & Hf).
  split; [apply Hg|]. split; [done|]. rewrite Es, Eq. split.
  - destruct Hp as [Hp|[HLd Hp]]; [left; rewrite Hp in Ap; by apply (anti_symm (⊆)), map_empty_subseteq|].
    destruct (decide (rn_state (n_rn n) = Leader)) as [HS|HS]; [|left; auto].
    right. split; [done|]. intros i Hi. etrans; [|exact (grows_last _ _ _ Hg)].
    apply Hp; [done|]. by eapply lookup_weaken_is_Some.
  - intros id Hid. apply Hr. by eapply lookup_weaken_is_Some.
Qed.

Definition ended n (go : bool) n' : Prop :=
  callers n' ≡ₚ callers n ∧ if go then node_inv n' else waiting n' = [].

Lemma giving_up e1 e2 n n1 :
  moves n n1 →
  wp ((failPending e1 ;;; failReads e2) ;;; ret false) (ended n) (λ _ _, False) (λ _, False) n1.
Proof.
  intros H1. apply wp_bind.
  eapply wp_mono; [apply fail_all_moves; by eapply moves_ok|..]; [|done..]. cbn beta.
  intros _ n3 ((_ & P & _) & _ & W). wp_pure. split; [|done]. destruct H1 as (_ & P1 & _).
  by rewrite P.
Qed.

Lemma stopped_ended n : node_ok (n_rn n) → wp stopped (ended n) (λ _ _, False) (λ _, False) n.
Proof. intros Hn. apply wp_assoc. apply giving_up. by apply moves_refl. Qed.

Lemma finish_ended n : handled n → wp finish (ended n) (λ _ _, False) (λ _, False) n.
Proof.
  intros Hh. pose proof Hh as (Hn & _). unfold finish. apply wp_bind, wp_try.
  eapply wp_mono; [by apply flush_settles|..]; [..|done]; cbn beta.
  - intros [] n1 H1. wp_pure. split; [apply H1|by eapply settles_inv].
  - intros err n1 H1. by apply giving_up.
Qed.

(** *** The event *)

(** What an event adds to the callers. *)
Definition gains (hs : list N) n n' : Prop := handled n' ∧ callers n' ≡ₚ hs ++ callers n.

Lemma step_handled r' n : node_inv n → steps (n_rn n) r' → gains [] n (set_rn r' n).
Proof.
  intros (Hn & El & Hp & Hr) ((Hn' & _) & Ha). split; [|done].
  split; [exact Hn'|]. split; [|exact Hr]. cbn.
  destruct Hp as [Hp|[HS Hp]]; [by left|]. right. split; [congruence|].
  intros HS' i Hi. etrans; [by apply Hp|]. by destruct (Ha HS') as (_ & ? & _).
Qed.

Lemma reply_gains h a n n1 :
  gains [] n n1 → wp (reply h a) (λ _, gains [h] n) (λ _ _, False) (λ _, False) n1.
Proof.
  intros [Hh P]. unfold reply. wp_pure. split; [exact Hh|]. rewrite <- P.
  unfold callers, answered. cbn. rewrite fmap_app. cbn. solve_Permutation.
Qed.

Lemma handlePropose_gains h cmd n :
  node_inv n → (last_of (n_rn n) + 3 < W64)%N →
  wp (handlePropose h cmd) (λ _, gains [h] n) (λ _ _, False) (λ _, False) n.
Proof.
  intros Hi Hroom. pose proof Hi as (Hn & El & Hp & Hr). unfold handlePropose, on_rn.
  apply wp_bind, wp_try, wp_zoom.
  eapply wp_mono; [by apply Propose_index|..]; [..|done]; cbn beta.
  2: { intros e r' Hs. by apply reply_gains, step_handled. }
  intros i r' (Hs & -> & Hlast & HS). wp_pure.
  destruct (step_handled r' n Hi Hs) as [(Hn' & Hp' & _) _].
  assert (∀ j, is_Some (n_pending n !! j) → (j ≤ last_of (n_rn n))%N) as Hold.
  { intros j Hj. destruct Hp as [Hp|[_ Hp]]; [|auto]. rewrite Hp, lookup_empty in Hj. by destruct Hj. }
  assert (n_pending n !! (last_of (n_rn n) + 1)%N = None) as Hfresh.
  { apply eq_None_not_Some. intros Hj%Hold. lia. }
  split; [split; [exact Hn'|split; [|exact Hr]]|].
  - right. split; [cbn; congruence|]. intros _ j. cbn.
    destruct (decide (j = (last_of (n_rn n) + 1)%N)) as [->|Hne]; [done|].
    rewrite lookup_insert_ne by done. intros Hj%Hold. lia.
  - unfold callers, waiting, answered. cbn. rewrite map_to_list_insert by done. cbn. solve_Permutation.
Qed.

Lemma handleRead_gains h n :
  node_inv n → (n_readSeq n + 1 < W64)%N →
  wp (handleRead h) (λ _, gains [h] n) (λ _ _, False) (λ _, False) n.
Proof.
  intros (Hn & El & Hp & Hr) Hroom. unfold handleRead. wp_pure. rewrite u64_add_small by lia.
  set (n1 := set_readSeq (n_readSeq n + 1)%N n).
  assert (node_inv n1) as Hi1.
  { split_and!; [done..|]. intros id Hid%Hr. subst n1. cbn. lia. }
  unfold on_rn. apply wp_try, wp_zoom.
  eapply wp_mono; [apply (safe_swp (ReadIndex _)); [exact Hn|apply safe_ReadIndex]|..]; [..|done]; cbn beta.
  2: { intros e r' Hs. apply (reply_gains h _ n). exact (step_handled r' n1 Hi1 Hs). }
  intros _ r' Hs. wp_pure. destruct (step_handled r' n1 Hi1 Hs) as [(Hn' & Hp' & Hr') _].
  assert (n_pendingReads n !! (n_readSeq n + 1)%N = None) as Hfresh.
  { apply eq_None_not_Some. intros Hj%Hr. lia. }
  split; [split; [exact Hn'|split; [exact Hp'|]]|].
  - intros id. cbn. destruct (decide (id = (n_readSeq n + 1)%N)) as [->|Hne]; [done|].
    rewrite lookup_insert_ne by done. apply Hr'.
  - unfold callers, waiting, answered. cbn. rewrite map_to_list_insert by done. cbn. solve_Permutation.
Qed.

Lemma handleConfChange_gains h target n :
  node_inv n → (last_of (n_rn n) + 3 < W64)%N → conf_encodable target →
  wp (handleConfChange h target) (λ _, gains [h] n) (λ _ _, False) (λ _, False) n.
Proof.
  intros Hi Hroom Ht. pose proof Hi as (Hn & _). unfold handleConfChange, on_rn.
  apply wp_bind, wp_try, wp_zoom.
  eapply wp_mono; [by eapply gwp_swp, ProposeConfChange_ok, target_any|..]; [..|done]; cbn beta;
    intros; by apply reply_gains, step_handled.
Qed.

(** *** The round *)

Definition asks (i : input) : list N :=
  match i with InPropose h _ | InRead h | InConfChange h _ => [h] | _ => [] end.

(** What the driver owes the core: indexes and read numbers are not about to run out,
    messages come from peers and a requested configuration fits its encoding. *)
Definition input_ok (i : input) n : Prop :=
  (last_of (n_rn n) + 3 < W64)%N ∧
  match i with
  | InRecv (Some m) => msg_ok m
  | InRead _ => (n_readSeq n + 1 < W64)%N
  | InConfChange _ target => conf_encodable target
  | _ => True
  end.

Definition round (i : input) n (go : bool) n' : Prop :=
  callers n' ≡ₚ asks i ++ callers n ∧ if go then node_inv n' else waiting n' = [].

Lemma gains_finish hs n n1 :
  gains hs n n1 →
  wp finish (λ go n', callers n' ≡ₚ hs ++ callers n ∧ if go then node_inv n' else waiting n' = [])
     (λ _ _, False) (λ _, False) n1.
Proof.
  intros [Hh P]. eapply wp_mono; [by apply finish_ended|..]; [|done..].
  intros go n2 [P2 H2]. by rewrite P2, P.
Qed.

Lemma gains_giving_up e1 e2 n n1 :
  gains [] n n1 →
  wp ((failPending e1 ;;; failReads e2) ;;; ret false)
     (λ go n', callers n' ≡ₚ callers n ∧ if go then node_inv n' else waiting n' = [])
     (λ _ _, False) (λ _, False) n1.
Proof.
  intros [Hh P]. eapply wp_mono; [apply giving_up, moves_refl, Hh|..]; [|done..].
  intros go n2 [P2 H2]. by rewrite P2, P.
Qed.

Lemma iterate_round i n :
  node_inv n → input_ok i n → wp (iterate i) (round i n) (λ _ _, False) (λ _, False) n.
Proof.
  intros Hi [Hroom Ho]. pose proof Hi as (Hn & _).
  assert (gains [] n n) as Hsame.
  { destruct Hi as (_ & El & Hp & Hr). split; [|done]. split_and!; [done| |done].
    destruct Hp as [?|[? ?]]; [by left|right]. split; [congruence|auto]. }
  destruct i as [| |[m|]|h cmd|h|h target|]; cbn [iterate].
  - by apply stopped_ended.
  - apply wp_bind, wp_try, wp_zoom. eapply wp_mono; [by eapply gwp_swp, Tick_ok|..]; [..|done];
      cbn beta; intros; [apply gains_finish|apply gains_giving_up]; by apply step_handled.
  - apply wp_bind, wp_try, wp_zoom. eapply wp_mono; [by apply Step_ok|..]; [..|done]; cbn beta;
      intros; [|case_match]; first [apply gains_finish|apply gains_giving_up]; by apply step_handled.
  - by apply stopped_ended.
  - apply wp_bind. eapply wp_mono; [by apply handlePropose_gains|..]; [|done..].
    intros ? n1. apply gains_finish.
  - apply wp_bind. eapply wp_mono; [by apply handleRead_gains|..]; [|done..].
    intros ? n1. apply gains_finish.
  - apply wp_bind. eapply wp_mono; [by apply handleConfChange_gains|..]; [|done..].
    intros ? n1. apply gains_finish.
  - by apply gains_finish.
Qed.

Fixpoint inputs_ok (inputs : list input) n : Prop :=
  match inputs with
  | [] => True
  | i :: rest => input_ok i n ∧ ∀ n', iterate i n = (Ret true, n') → inputs_ok rest n'
  end.

(** C6: The run loop loses no caller and answers none twice.  Whatever it is given, it
    returns or goes on without panicking; those it has answered and those it still holds
    are together exactly those it was given, each once; and when it returns, for whatever
    reason, it holds nobody: every caller has its answer. *)
Theorem run_answers_every_caller inputs n :
  node_inv n → inputs_ok inputs n →
  ∃ go n' k, run inputs n = (Ret go, n') ∧
    callers n' ≡ₚ concat (asks <$> take k inputs) ++ callers n ∧
    if (go : bool) then k = length inputs ∧ node_inv n' else waiting n' = [].
Proof.
  revert n. induction inputs as [|i rest IH]; intros n Hi Hin.
  { by exists true, n, 0%nat. }
  destruct Hin as [Ho Hrest].
  destruct (wp_returns _ _ _ (iterate_round i n Hi Ho)) as (go & n1 & E1 & P1 & H1).
  cbn [run]. unfold bind. rewrite E1. destruct go.
  - destruct (IH n1 H1 (Hrest n1 E1)) as (go & n2 & k & E2 & P2 & H2). exists go, n2, (Datatypes.S k).
    split; [done|]. split.
    + rewrite P2, P1. cbn [take fmap list_fmap concat]. solve_Permutation.
    + destruct go; [|done]. destruct H2 as [-> ?]. done.
  - exists false, n1, 1%nat. split; [done|]. split; [|done]. rewrite P1. cbn. by rewrite app_nil_r.
Qed.

(** C7: The state machine is fed every committed entry once and in order.  Whatever the
    batch limit, [applyCommitted] gives the state machine exactly the client commands
    between the applied and the commit index, in log order, and leaves the applied index
    at the commit index; it stops early only where the state machine itself fails, having fed it everything
    before. *)
Theorem applyCommitted_in_order n :
  node_ok (n_rn n) → (c_MaxApplyEntries (rn_cfg (n_rn n)) < 9223372036854775808)%Z →
  let l := rn_log (n_rn n) in
  match applyCommitted n with
  | (Ret _, n') =>
      feed (committed_above l (l_applied l)) (n_sm n) = (Ret tt, n_sm n') ∧
      l_applied (rn_log (n_rn n')) = l_committed l
  | (Fail _, n') =>
      ∃ err, feed (committed_above l (l_applied l)) (n_sm n) = (Fail err, n_sm n')
  | _ => False
  end.
Proof.
  intros Hn Hmax. cbv zeta. pose proof (applyCommitted_ok n Hn) as Hw. unfold wp in Hw.
  destruct (applyCommitted n) as [[[]|e| |] n']; [|by destruct Hw as [_ ?]|done|done].
  destruct Hw as [_ Hc]. destruct (Hc Hmax) as [F E]. split; [exact F|]. by rewrite E.
Qed.

(** A node that starts is ready for its first round. *)
Lemma Start_inv (seed : NodeID → G) (cfg : nodeConfig S G A) st n :
  nc_Storage cfg = Some st → disk_ready st →
  conf_encodable (NewConfiguration (bootVoters cfg) []) →
  Start seed cfg = Ret n → node_inv n ∧ callers n = [].
Proof.
  intros Est Hd Hb. unfold Start, withDefaults. rewrite Est.
  destruct (nc_ID cfg =? None_)%N; [done|]. destruct (nc_hasTransport cfg); [|done]. cbn [negb].
  destruct (nc_StateMachine cfg) as [sm|]; [|done]. cbn [obind nc_Storage nc_Rand nc_StateMachine].
  assert (∃ g, match nc_Rand cfg with Some g => Some g | None => Some (seed (nc_ID cfg)) end = Some g)
    as [g ->] by (destruct (nc_Rand cfg); eauto).
  assert (conf_ok (NewConfiguration (bootVoters cfg) [])) as Hb' by (split; [done|apply normalize_normal]).
  match goal with |- context [NewRawNode ?c (Some st) (Some g)] =>
    pose proof (NewRawNode_ok c st g Hd Hb' I) as Hrn; destruct (NewRawNode c (Some st) (Some g)) as [r| | |]
  end; try done.
  cbn [obind]. destruct (restoreFromDisk st sm); try done. cbn [obind].
  intros E. injection E as <-. destruct Hrn as [Hr _]. split; [|done]. split; [done|]. split; [done|]. split; [by left|].
  intros id [? Hid]. cbn in Hid. by rewrite lookup_empty in Hid.
Qed.
End driver.

(** ** The key/value store as a state machine *)

#[export] Instance Store_StateMachine `{R : MapRange} : StateMachine Store Result := {
  sm_Apply := Apply;
  sm_Snapshotter := Some (mkSnapshotter (λ s, Ret (Snapshot_ s)) Restore)
}.

#[export] Instance Store_StateMachineLaws `{R : MapRange} : StateMachineLaws Store Result.
Proof.
  split.
  - intros e a. cbn. unfold Apply. apply wp_bind, wp_wrapErr, wp_reads.
    destruct (DecodeCommand_total (e_Command e)) as [[cmd ->]|[err ->]]; [|done].
    wp_pure. case_match; [by wp_pure|]. case_match; [|by apply wp_fail]. case_match. by wp_pure.
  - intros sn a [= <-]. by apply wp_reads.
  - intros sn data i a [= <-]. cbn. unfold Restore. apply wp_bind, wp_reads.
    destruct (decodeMap_total data) as [[m ->]|[err ->]]; [|done]. by wp_pure.
Qed.

(** ** Witnesses *)

#[local] Existing Instance forward_range.

(** The leader of three, holding nobody. *)
Definition sample_driver : Node MemoryStorage unit Store Result :=
  mkNode (lead_at 2 4) NewStore ∅ ∅ 0 Leader 1 [] [].

Lemma sample_driver_inv : node_inv sample_driver.
Proof.
  split; [by apply lead_at_ok|]. split; [done|]. split; [by left|].
  intros id [? Hid]. cbn in Hid. by rewrite lookup_empty in Hid.
Qed.

(** A client writes, a follower acknowledges the entry, and the node is stopped. *)
Definition sample_command : bytes :=
  match SetCommand kbyte one with Ret b => b | _ => [] end.
Definition sample_ack : Message := addressed 3 1 (appendRespMsg 1 true 4 0 0 0).
Definition sample_inputs : list input :=
  [InPropose 5 sample_command; InRecv (Some sample_ack); InRead 6; InStop].

Lemma run_answers_every_caller_witness :
  answered (snd (run sample_inputs sample_driver)) = [5; 6]%N ∧
  ∃ go n' k, run sample_inputs sample_driver = (Ret go, n') ∧
    callers n' ≡ₚ concat (asks <$> take k sample_inputs) ++ callers sample_driver ∧
    if (go : bool) then k = length sample_inputs ∧ node_inv n' else waiting n' = [].
Proof.
  split; [by vm_compute|].
  apply (run_answers_every_caller sample_inputs sample_driver); [exact sample_driver_inv|].
  split; [by vm_compute|]. intros n1 E1%(f_equal snd). cbn [snd] in E1. subst n1.
  split; [split; [by vm_compute|by apply msg_ok_plain]|].
  intros n2 E2%(f_equal snd). cbn [snd] in E2. subst n2. split; [by vm_compute|].
  intros n3 E3%(f_equal snd). cbn [snd] in E3. subst n3. split; [by vm_compute|].
  intros n4 E4%(f_equal fst). by vm_compute in E4.
Defined.

(** The follower's acknowledgement has been handled, not yet flushed. *)
Definition sample_committed : Node MemoryStorage unit Store Result :=
  snd (on_rn (Step sample_ack) (snd (iterate (InPropose 5 sample_command) sample_driver))).

Lemma applyCommitted_in_order_witness :
  ∃ n', applyCommitted sample_committed = (Ret tt, n') ∧ Get kbyte (n_sm n') = Some one ∧
        l_applied (rn_log (n_rn n')) = 4%N.
Proof.
  assert (node_ok (n_rn sample_committed)) as Hn.
  { unfold sample_committed.
    destruct (wp_returns _ _ _ (iterate_round (InPropose 5 sample_command) sample_driver
      sample_driver_inv ltac:(by vm_compute))) as (go & n1 & E1 & _ & H1).
    assert (go = true) as -> by (apply (f_equal fst) in E1; vm_compute in E1; by injection E1).
    rewrite E1. cbn [snd].
    assert ((last_of (n_rn n1) + 3 < W64)%N) as Hroom.
    { apply (f_equal snd) in E1. cbn [snd] in E1. subst n1. by vm_compute. }
    pose proof (Step_ok sample_ack (n_rn n1) (proj1 H1) ltac:(by apply msg_ok_plain) Hroom) as Hs.
    unfold swp, wp in Hs. unfold on_rn, zoom.
    destruct (Step sample_ack (n_rn n1)) as [[] r2]; [apply Hs|apply Hs|destruct Hs|destruct Hs]. }
  exists (snd (applyCommitted sample_committed)).
  split; [|split; [by vm_compute|]].
  { rewrite (surjective_pairing (applyCommitted sample_committed)) at 1. by f_equal. }
  pose proof (applyCommitted_in_order sample_committed Hn ltac:(by vm_compute)) as Hw.
  cbv zeta in Hw. destruct (applyCommitted sample_committed) as [o n'] eqn:E.
  assert (o = Ret tt) as -> by (apply (f_equal fst) in E; vm_compute in E; by symmetry).
  destruct Hw as [_ Hw]. cbn [snd]. rewrite Hw. by vm_compute.
Defined.
