(* ===== verification/EventQueue.v ===== *)
(** * The simulator's event queue

    sim/event.go, with the part of container/heap it runs on: a binary heap in a
    slice, repaired by [up] after a push and by [down] before a pop.  [Heap] holds
    the algorithm and its invariant for any strict order; the rest is the queue of
    events, ordered by time and then by the order they were scheduled in.

    [pending] is the specification, the events still to come as one list in firing
    order: [pop_spec] and [schedule_spec] show that the heap implements it. *)

From S2P Require Import Prelude Varint GoMaps Types.

(** ** container/heap *)

Module Heap.
Section heap.
Context {A : Type} (less : A → A → bool).
Implicit Types (l : list A) (i j k n : nat).

(** [h.Less(i, j)] and [h.Swap(i, j)] on a slice: an index out of range panics. *)
Definition Less l i j : outcome bool :=
  match l !! i, l !! j with
  | Some x, Some y => Ret (less x y)
  | _, _ => Panic "index out of range"
  end.

Definition swap l i j : list A :=
  match l !! i, l !! j with
  | Some x, Some y => <[i := y]> (<[j := x]> l)
  | _, _ => l
  end.

Definition Swap l i j : outcome (list A) :=
  match l !! i, l !! j with
  | Some _, Some _ => Ret (swap l i j)
  | _, _ => Panic "index out of range"
  end.

(** The parent of a position; of the root, the root. *)
Definition parent j : nat := (j - 1) / 2.

(** Go's [for] loop moves [j] to its parent; the fuel is the depth. *)
Fixpoint up (fuel : nat) l j : outcome (list A) :=
  let i := parent j in
  if (i =? j)%nat then Ret l
  else
    let? b := Less l j i in
    if negb b then Ret l
    else match fuel with
    | O => OutOfFuel
    | Datatypes.S fuel' => let? swapped := Swap l i j in up fuel' swapped i
    end.

Fixpoint down (fuel : nat) l i n : outcome (list A) :=
  let j1 := 2 * i + 1 in
  if (n <=? j1)%nat then Ret l
  else
    let j2 := j1 + 1 in
    let? rightward := if (j2 <? n)%nat then Less l j2 j1 else Ret false in
    let j := if (rightward : bool) then j2 else j1 in
    let? b := Less l j i in
    if negb b then Ret l
    else match fuel with
    | O => OutOfFuel
    | Datatypes.S fuel' => let? swapped := Swap l i j in down fuel' swapped j n
    end.

(** [heap.Push] after the element was appended, and [heap.Pop] up to the removal of
    the last element, which the caller's own [Pop] does. *)
Definition Push l (x : A) : outcome (list A) :=
  up (length l) (l ++ [x]) (length l).

Definition Pop l : outcome (list A) :=
  match length l with
  | O => Panic "index out of range"
  | Datatypes.S n => let? swapped := Swap l 0 n in down n swapped 0 n
  end.

(** *** The heap invariant *)

Context (Htrans : ∀ x y z, less y x = false → less z y = false → less z x = false)
        (Hirr : ∀ x, less x x = false)
        (Hasym : ∀ x y, less x y = true → less y x = false).

(** [x] may stand above [y]. *)
Definition above (x y : A) : Prop := less y x = false.

(** Every position below [n] but the exempted ones is below its parent. *)
Definition heap_but (P : nat → Prop) l n : Prop :=
  ∀ j x y, (0 < j < n)%nat → ¬ P j → l !! parent j = Some x → l !! j = Some y → above x y.

Definition heap l n : Prop := heap_but (λ _, False) l n.

Lemma heap_parent l n k x y :
  heap l n → (0 < k < n)%nat → l !! parent k = Some x → l !! k = Some y → above x y.
Proof. intros Hh Hk. apply Hh; [done|by intros []]. Qed.

Lemma parent_lt j : (0 < j)%nat → (parent j < j)%nat.
Proof. intros. unfold parent. apply Nat.Div0.div_lt_upper_bound. lia. Qed.

Lemma parent_child i j : parent j = i → (0 < j)%nat → j = 2 * i + 1 ∨ j = 2 * i + 2.
Proof. unfold parent. intros <- ?. pose proof (Nat.div_mod_eq (j - 1) 2). pose proof (Nat.mod_upper_bound (j - 1) 2). lia. Qed.

Lemma parent_left i : parent (2 * i + 1) = i.
Proof. unfold parent. symmetry. apply Nat.div_unique with 0; lia. Qed.

Lemma parent_right i : parent (2 * i + 1 + 1) = i.
Proof. unfold parent. symmetry. apply Nat.div_unique with 1; lia. Qed.

Lemma swap_lookup l i j x y k :
  l !! i = Some x → l !! j = Some y →
  swap l i j !! k = if decide (k = i) then Some y else if decide (k = j) then Some x else l !! k.
Proof.
  intros Hi Hj. unfold swap. rewrite Hi, Hj.
  pose proof (lookup_lt_Some _ _ _ Hi). pose proof (lookup_lt_Some _ _ _ Hj).
  case_decide; subst; [by rewrite list_lookup_insert_eq; [|rewrite length_insert]|].
  rewrite list_lookup_insert_ne by done. case_decide; subst; [by rewrite list_lookup_insert_eq|].
  by rewrite list_lookup_insert_ne.
Qed.

Lemma swap_length l i j : length (swap l i j) = length l.
Proof. unfold swap. repeat case_match; by rewrite ?length_insert. Qed.

Lemma swap_perm l i j : swap l i j ≡ₚ l.
Proof. unfold swap. repeat case_match; try done. by apply Permutation_insert_swap. Qed.

Lemma Less_Some l i j x y : l !! i = Some x → l !! j = Some y → Less l i j = Ret (less x y).
Proof. intros Hi Hj. unfold Less. by rewrite Hi, Hj. Qed.

Lemma Swap_Some l i j x y : l !! i = Some x → l !! j = Some y → Swap l i j = Ret (swap l i j).
Proof. intros Hi Hj. unfold Swap. by rewrite Hi, Hj. Qed.

(** What stands below [j] may stand below the parent of [j]. *)
Definition skips l n j : Prop :=
  ∀ c x y, parent c = j → (0 < j)%nat → (0 < c < n)%nat →
    l !! parent j = Some x → l !! c = Some y → above x y.

(** Reads a swapped position and decides which one it is. *)
Local Ltac at_swap :=
  repeat match goal with
  | H : swap _ _ _ !! _ = Some _ |- _ =>
      erewrite swap_lookup in H by eassumption; repeat case_decide; simplify_eq
  end.

Lemma up_swap l j x y :
  heap_but (eq j) l (length l) → skips l (length l) j → (0 < j)%nat →
  l !! parent j = Some x → l !! j = Some y → less y x = true →
  heap_but (eq (parent j)) (swap l (parent j) j) (length l) ∧
  skips (swap l (parent j) j) (length l) (parent j).
Proof.
  intros Hh Hs Hj Hx Hy Hless. pose proof (parent_lt j Hj) as Hp. pose proof (Hasym _ _ Hless) as Hyx.
  split.
  - intros k u v Hk Hne Hu Hv. pose proof (parent_lt k ltac:(lia)). at_swap; try done; try lia.
    + eapply Htrans; [exact Hyx|]. eapply (Hh k); [done|lia|congruence|done].
    + by eapply Hs.
    + eapply (Hh k); [done|lia|done|done].
  - intros c u v Hc Hpos Hcn Hu Hv. pose proof (parent_lt (parent j) Hpos).
    pose proof (parent_lt c ltac:(lia)). at_swap; try lia.
    + eapply Hh; [| |exact Hu|exact Hx]; lia.
    + eapply Htrans; [eapply (Hh (parent j)); [| |exact Hu|exact Hx]; lia|].
      eapply Hh; [| |by rewrite Hc|exact Hv]; lia.
Qed.

Lemma up_spec fuel l j :
  (j < length l)%nat → (j ≤ fuel)%nat → heap_but (eq j) l (length l) → skips l (length l) j →
  ∃ l', up fuel l j = Ret l' ∧ l' ≡ₚ l ∧ heap l' (length l').
Proof.
  revert l j. induction fuel as [|fuel IH]; intros l j Hj Hf Hh Hs.
  { assert (j = 0) as -> by lia. exists l. split_and!; [done..|].
    intros k u v Hk _. apply Hh; lia. }
  cbn [up]. destruct (Nat.eqb_spec (parent j) j) as [E|E].
  { exists l. split_and!; [done..|]. intros k u v Hk _. apply Hh; [done|]. intros ->.
    pose proof (parent_lt k). lia. }
  assert (0 < j)%nat as Hpos by (destruct j; [done|lia]).
  pose proof (parent_lt j Hpos) as Hp.
  destruct (lookup_lt_is_Some_2 l j ltac:(lia)) as [y Hy].
  destruct (lookup_lt_is_Some_2 l (parent j) ltac:(lia)) as [x Hx].
  rewrite (Less_Some _ _ _ y x) by done. cbn [obind]. destruct (less y x) eqn:EL; cbn [negb].
  - rewrite (Swap_Some _ _ _ x y) by done. cbn [obind].
    destruct (up_swap l j x y) as [H1 H2]; try done.
    destruct (IH (swap l (parent j) j) (parent j)) as (l' & -> & HP & Hl');
      [rewrite swap_length; lia|lia|by rewrite swap_length..|].
    exists l'. split_and!; [done| |done]. by rewrite HP, swap_perm.
  - exists l. split_and!; [done..|]. intros k u v Hk _ Hu Hv.
    destruct (decide (k = j)) as [->|]; [by simplify_eq|]. eapply (Hh k); [done|lia|done|done].
Qed.

Lemma down_swap l i j n x y :
  heap_but (λ k, parent k = i) l n → skips l n i → (n ≤ length l)%nat →
  parent j = i → (0 < j < n)%nat → l !! i = Some x → l !! j = Some y → less y x = true →
  (∀ k z, parent k = i → (0 < k < n)%nat → l !! k = Some z → above y z) →
  heap_but (λ k, parent k = j) (swap l i j) n ∧ skips (swap l i j) n j.
Proof.
  intros Hh Hs Hn Hpar Hj Hx Hy Hless Hmin. pose proof (Hasym _ _ Hless) as Hyx.
  pose proof (parent_lt j ltac:(lia)) as Hp.
  split.
  - intros k u v Hk Hne Hu Hv. pose proof (parent_lt k ltac:(lia)). at_swap; try done; try lia.
    + eapply (Hs j); [done|lia|done|exact Hu|done].
    + by eapply Hmin.
    + by eapply Hh.
  - intros c u v Hc Hpos Hcn Hu Hv. pose proof (parent_lt c ltac:(lia)). at_swap; try lia.
    eapply (Hh c); [done|lia|done|done].
Qed.

Lemma down_spec fuel l i n :
  (i < n)%nat → (n ≤ length l)%nat → (n ≤ fuel + i)%nat →
  heap_but (λ k, parent k = i) l n → skips l n i →
  ∃ l', down fuel l i n = Ret l' ∧ l' ≡ₚ l ∧ length l' = length l ∧ heap l' n ∧
        ∀ k, (n ≤ k)%nat → l' !! k = l !! k.
Proof.
  revert l i. induction fuel as [|fuel IH]; intros l i Hi Hn Hf Hh Hs; [lia|].
  cbn [down]. destruct (Nat.leb_spec n (2 * i + 1)) as [Hleaf|Hleft].
  { exists l. split_and!; try done. intros k u v Hk _. apply Hh; [done|].
    intros Hpk. apply parent_child in Hpk; lia. }
  destruct (lookup_lt_is_Some_2 l i ltac:(lia)) as [x Hx].
  destruct (lookup_lt_is_Some_2 l (2 * i + 1) ltac:(lia)) as [y1 Hy1].
  (* the child that goes up *)
  assert (∃ rightward : bool, (if (2 * i + 1 + 1 <? n)%nat then Less l (2 * i + 1 + 1) (2 * i + 1) else Ret false)
      = Ret rightward ∧
    ∃ y, l !! (if rightward then 2 * i + 1 + 1 else 2 * i + 1) = Some y ∧
    (if rightward then 2 * i + 1 + 1 else 2 * i + 1) < n ∧
    ∀ k z, parent k = i → (0 < k < n)%nat → l !! k = Some z → above y z) as (rightward & -> & y & Hy & Hjn & Hmin).
  { destruct (Nat.ltb_spec (2 * i + 1 + 1) n) as [H2|H2].
    - destruct (lookup_lt_is_Some_2 l (2 * i + 1 + 1) ltac:(lia)) as [y2 Hy2].
      rewrite (Less_Some _ _ _ y2 y1) by done. eexists. split; [done|].
      destruct (less y2 y1) eqn:EL; [exists y2|exists y1]; (split_and!; [done|lia|]);
        intros k z Hk Hkn Hz; apply parent_child in Hk as [-> | ->]; try lia;
        rewrite ?Nat.add_1_r, ?Nat.add_succ_r, ?Nat.add_0_r in *; simplify_eq; try done; try apply Hirr.
      by apply Hasym.
    - exists false. split; [done|]. exists y1. split_and!; [done|lia|].
      intros k z Hk Hkn Hz. apply parent_child in Hk as [-> | ->]; [|lia|lia].
      simplify_eq. apply Hirr. }
  cbn [obind]. set (j := if rightward then 2 * i + 1 + 1 else 2 * i + 1) in *.
  assert (parent j = i) as Hpar by (destruct rightward; [apply parent_right|apply parent_left]).
  assert (i < j) as Hij by (unfold j; destruct rightward; lia). clearbody j. clear Hleft.
  rewrite (Less_Some _ _ _ y x) by done. cbn [obind].
  destruct (less y x) eqn:EL; cbn [negb].
  - rewrite (Swap_Some _ _ _ x y) by done. cbn [obind].
    destruct (down_swap l i j n x y Hh Hs Hn Hpar ltac:(lia) Hx Hy EL Hmin) as [H1 H2].
    destruct (IH (swap l i j) j) as (l' & -> & HP & Hlen & Hl' & Hrest);
      [lia|rewrite swap_length; lia|lia|done..|].
    exists l'. split_and!; [done|by rewrite HP, swap_perm|by rewrite Hlen, swap_length|done|].
    intros k Hk. rewrite Hrest by done. erewrite swap_lookup by done. by repeat (case_decide; [lia|]).
  - exists l. split_and!; try done. intros k u v Hk _ Hu Hv.
    destruct (decide (parent k = i)) as [E|]; [|by eapply Hh].
    rewrite E in Hu. simplify_eq. eapply Htrans; [exact EL|by eapply Hmin].
Qed.

(** The root stands above everything. *)
Lemma heap_root l n x k y :
  heap l n → (n ≤ length l)%nat → l !! 0 = Some x → (k < n)%nat → l !! k = Some y → above x y.
Proof.
  intros Hh Hn Hx. revert y. induction (lt_wf k) as [k _ IH]. intros y Hk Hy.
  destruct (decide (k = 0)) as [->|]; [simplify_eq; apply Hirr|].
  pose proof (parent_lt k ltac:(lia)) as Hp.
  destruct (lookup_lt_is_Some_2 l (parent k) ltac:(lia)) as [z Hz].
  eapply Htrans; [by apply (IH (parent k)); [lia|lia|exact Hz]|]. eapply (heap_parent l _ k); [exact Hh|lia|done|done].
Qed.

Lemma Push_spec l x :
  heap l (length l) → ∃ l', Push l x = Ret l' ∧ l' ≡ₚ l ++ [x] ∧ heap l' (length l').
Proof.
  intros Hh. unfold Push. apply up_spec; [rewrite length_app; cbn; lia|lia|..].
  - intros k u v Hk Hne Hu Hv. rewrite length_app in Hk. cbn in Hk.
    pose proof (parent_lt k ltac:(lia)). rewrite lookup_app_l in Hu, Hv by lia.
    eapply (heap_parent l _ k); [exact Hh|lia|done|done].
  - intros c u v Hc Hpos Hcn. rewrite length_app in Hcn. cbn in Hcn.
    pose proof (parent_lt c ltac:(lia)). lia.
Qed.

Lemma Pop_spec l :
  heap l (length l) → l ≠ [] →
  ∃ x l', Pop l = Ret (l' ++ [x]) ∧ l ≡ₚ x :: l' ∧ heap l' (length l') ∧ Forall (above x) l'.
Proof.
  intros Hh Hne. unfold Pop. destruct (length l) as [|n] eqn:El; [by destruct l|].
  destruct (lookup_lt_is_Some_2 l 0 ltac:(lia)) as [x Hx].
  destruct (lookup_lt_is_Some_2 l n ltac:(lia)) as [z Hz].
  rewrite (Swap_Some _ _ _ x z) by done. cbn [obind].
  set (l1 := swap l 0 n).
  assert (length l1 = S n) as El1 by (unfold l1; by rewrite swap_length).
  assert (l1 !! n = Some x) as Hlast.
  { unfold l1. erewrite swap_lookup by done. repeat case_decide; by simplify_eq. }
  assert (∃ l2, down n l1 0 n = Ret l2 ∧ l2 ≡ₚ l1 ∧ length l2 = S n ∧ heap l2 n ∧ l2 !! n = Some x)
    as (l2 & -> & HP & Hlen & Hh2 & Hx2).
  { destruct (decide (n = 0)) as [->|Hn].
    { exists l1. split_and!; try done. intros k u v Hk. lia. }
    destruct (down_spec n l1 0 n) as (l2 & H1 & H2 & H3 & H4 & H5); [lia..| | |].
    - intros k u v Hk Hpk Hu Hv. pose proof (parent_lt k ltac:(lia)).
      unfold l1 in Hu, Hv. erewrite swap_lookup in Hu, Hv by done.
      repeat (case_decide; [lia|]). eapply (heap_parent l _ k); [exact Hh|lia|done|done].
    - intros c u v _ Hpos. lia.
    - exists l2. split_and!; [done..|lia|done|]. by rewrite H5. }
  assert (l2 = take n l2 ++ [x]) as E2.
  { rewrite <- (take_drop n l2) at 1. f_equal. rewrite (drop_S _ x) by done.
    by rewrite drop_ge by lia. }
  assert (length (take n l2) = n) as Elt by (rewrite length_take; lia).
  assert (l ≡ₚ x :: take n l2) as HP2.
  { rewrite <- (swap_perm l 0 n). fold l1. rewrite <- HP. rewrite E2 at 1. by rewrite Permutation_app_comm. }
  exists x, (take n l2). split_and!; [by rewrite <- E2|done| |].
  - rewrite Elt. intros k u v Hk _ Hu Hv. pose proof (parent_lt k ltac:(lia)).
    rewrite lookup_take_lt in Hu, Hv by lia. eapply (heap_parent l2 _ k); [exact Hh2|lia|done|done].
  - apply Forall_forall. intros y Hy.
    assert (y ∈ l) as Hin by (rewrite HP2; by right).
    apply list_elem_of_lookup in Hin as [k Hk].
    eapply (heap_root l (S n)); [exact Hh|lia|exact Hx| |exact Hk].
    apply lookup_lt_Some in Hk. lia.
Qed.
End heap.
End Heap.

(** ** Events *)

Inductive eventKind :=
  | evTick | evDeliver | evCrash | evRestart | evPartition | evHeal | evClientWrite.
#[export] Instance eventKind_eq_dec : EqDecision eventKind.
Proof. solve_decision. Defined.

Record event := mkEvent {
  ev_at : Z;
  ev_seq : N;
  ev_kind : eventKind;
  ev_node : NodeID;
  ev_msg : Message;
  ev_loseDisk : bool
}.

Record eventQueue := mkEventQueue { q_items : list event; q_next : N }.

(** [heap.Init] has nothing to do on an empty slice. *)
Definition newEventQueue : eventQueue := mkEventQueue [] 0.

(** [eventQueue.Less], on the two events. *)
Definition ev_less (a b : event) : bool :=
  if negb (ev_at a =? ev_at b)%Z then (ev_at a <? ev_at b)%Z else (ev_seq a <? ev_seq b)%N.

Definition stamp (seq : N) (e : event) : event :=
  mkEvent (ev_at e) seq (ev_kind e) (ev_node e) (ev_msg e) (ev_loseDisk e).

Definition q_schedule (e : event) : M eventQueue unit :=
  q <- get ;;
  items <- reads (λ _, Heap.Push ev_less (q_items q) (stamp (q_next q) e)) ;;
  modify (λ _, mkEventQueue items (q_next q +u 1)).

(** [heap.Pop] leaves the event in the last place, from where [eventQueue.Pop] takes
    it. *)
Definition q_pop : M eventQueue (option event) :=
  q <- get ;;
  match q_items q with
  | [] => ret None
  | _ =>
      items <- reads (λ _, Heap.Pop ev_less (q_items q)) ;;
      match last items with
      | None => panic "index out of range"
      | Some e => modify (λ _, mkEventQueue (removelast items) (q_next q)) ;;; ret (Some e)
      end
  end.

(** ** The order of events *)

Definition ev_le (a b : event) : Prop := ev_less b a = false.
Definition ev_lt (a b : event) : Prop :=
  (ev_at a < ev_at b)%Z ∨ (ev_at a = ev_at b ∧ (ev_seq a < ev_seq b)%N).

#[export] Instance ev_le_dec : RelDecision ev_le.
Proof. intros a b. unfold ev_le. apply _. Defined.

Lemma ev_less_lt a b : ev_less a b = true ↔ ev_lt a b.
Proof.
  unfold ev_less, ev_lt. destruct (Z.eqb_spec (ev_at a) (ev_at b)) as [E|E]; cbn [negb].
  - rewrite N.ltb_lt. lia.
  - rewrite Z.ltb_lt. lia.
Qed.

Lemma ev_le_lt a b : ev_le a b ↔ ¬ ev_lt b a.
Proof. unfold ev_le. rewrite <- ev_less_lt. by destruct (ev_less b a). Qed.

#[export] Instance ev_le_total : Total ev_le.
Proof. intros a b. rewrite !ev_le_lt. unfold ev_lt. lia. Qed.

#[export] Instance ev_le_trans : Transitive ev_le.
Proof. intros a b c. rewrite !ev_le_lt. unfold ev_lt. lia. Qed.

#[export] Instance ev_lt_antisym : AntiSymm (=) ev_lt.
Proof. intros a b. unfold ev_lt. lia. Qed.

Lemma ev_less_trans x y z : ev_less y x = false → ev_less z y = false → ev_less z x = false.
Proof. intros Hxy Hyz. exact (transitivity (R := ev_le) Hxy Hyz). Qed.

Lemma ev_less_irr x : ev_less x x = false.
Proof. apply ev_le_lt. unfold ev_lt. lia. Qed.

Lemma ev_less_asym x y : ev_less x y = true → ev_less y x = false.
Proof. rewrite ev_less_lt. intros. apply ev_le_lt. unfold ev_lt in *. lia. Qed.

(** ** The queue as a list in firing order *)

Definition pending (q : eventQueue) : list event := merge_sort ev_le (q_items q).

(** The items form a heap, and their sequence numbers were handed out once each. *)
Definition queue_ok (q : eventQueue) : Prop :=
  Heap.heap ev_less (q_items q) (length (q_items q)) ∧
  NoDup (ev_seq <$> q_items q) ∧ Forall (λ e, (ev_seq e < q_next q)%N) (q_items q).

Lemma sorted_strict l :
  StronglySorted ev_le l → NoDup (ev_seq <$> l) → StronglySorted ev_lt l.
Proof.
  induction 1 as [|x l Hl IH Hx]; [constructor|]. rewrite fmap_cons, NoDup_cons. intros [Hnin Hnd].
  constructor; [by apply IH|]. apply Forall_forall. intros y Hy.
  eapply Forall_forall in Hx; [|done]. apply ev_le_lt in Hx.
  assert (ev_seq x ≠ ev_seq y) by (intros E; apply Hnin; rewrite E; by apply list_elem_of_fmap_2).
  unfold ev_lt in *. lia.
Qed.

Lemma pending_perm q : pending q ≡ₚ q_items q.
Proof. apply merge_sort_Permutation. Qed.

Lemma pending_sorted q : queue_ok q → StronglySorted ev_lt (pending q).
Proof.
  intros (_ & Hnd & _). apply sorted_strict; [by apply StronglySorted_merge_sort; apply _|].
  by rewrite pending_perm.
Qed.

(** There is one way to list the events in order. *)
Lemma pending_unique q l :
  queue_ok q → StronglySorted ev_lt l → l ≡ₚ q_items q → pending q = l.
Proof.
  intros Hq Hl HP. apply (StronglySorted_unique ev_lt); [by apply pending_sorted|done|].
  by rewrite pending_perm, HP.
Qed.

(** The heap alone, for clients that do not care about sequence numbers. *)
Definition heap_ok (q : eventQueue) : Prop :=
  Heap.heap ev_less (q_items q) (length (q_items q)).

Lemma schedule_heap e q :
  heap_ok q →
  ∃ q', q_schedule e q = (Ret tt, q') ∧ heap_ok q' ∧ q_items q' ≡ₚ stamp (q_next q) e :: q_items q ∧
        q_next q' = q_next q +u 1.
Proof.
  intros Hh. set (e' := stamp (q_next q) e).
  destruct (Heap.Push_spec ev_less ev_less_trans ev_less_asym (q_items q) e' Hh) as (items & EP & HP & Hh').
  exists (mkEventQueue items (q_next q +u 1)). split_and!; [|done| |done].
  - unfold q_schedule, bind, get, reads. fold e'. by rewrite EP.
  - cbn. by rewrite HP, Permutation_app_comm.
Qed.

Lemma pop_heap q :
  heap_ok q → q_items q ≠ [] →
  ∃ e q', q_pop q = (Ret (Some e), q') ∧ heap_ok q' ∧ q_items q ≡ₚ e :: q_items q' ∧
          Forall (ev_le e) (q_items q') ∧ q_next q' = q_next q.
Proof.
  intros Hh Hne.
  destruct (Heap.Pop_spec ev_less ev_less_trans ev_less_irr ev_less_asym (q_items q) Hh Hne)
    as (x & items & EP & HP & Hh' & Hmin).
  exists x, (mkEventQueue items (q_next q)). split_and!; try done.
  unfold q_pop, bind, get, reads. destruct (q_items q) eqn:Ei; [done|]. rewrite EP.
  by rewrite last_snoc, removelast_last.
Qed.

Lemma newEventQueue_ok : queue_ok newEventQueue.
Proof. split_and!; cbn; [|constructor..]. intros k x y Hk. cbn in Hk. lia. Qed.

Lemma pop_empty q : q_items q = [] → q_pop q = (Ret None, q).
Proof. intros E. unfold q_pop, bind, get. by rewrite E. Qed.

Lemma pop_spec q e l :
  queue_ok q → pending q = e :: l →
  ∃ q', q_pop q = (Ret (Some e), q') ∧ queue_ok q' ∧ pending q' = l ∧ q_next q' = q_next q.
Proof.
  intros Hq Hp. pose proof Hq as (Hh & Hnd & Hlt).
  assert (q_items q ≠ []) as Hne by (intros E; unfold pending in Hp; by rewrite E in Hp).
  destruct (pop_heap q Hh Hne) as (x & q' & EP & Hh' & HP & Hmin & En).
  assert (queue_ok q') as Hq'.
  { split; [done|]. rewrite HP in Hnd, Hlt. rewrite fmap_cons, NoDup_cons in Hnd.
    apply Forall_cons in Hlt. rewrite En. split; [apply Hnd|apply Hlt]. }
  assert (pending q = x :: pending q') as Ex.
  { apply pending_unique; [done| |by rewrite HP, (pending_perm q')].
    apply sorted_strict; [|rewrite (pending_perm q'); by rewrite <- HP].
    constructor; [by apply StronglySorted_merge_sort; apply _|].
    rewrite (pending_perm q'). exact Hmin. }
  rewrite Hp in Ex. injection Ex as -> ->. by exists q'.
Qed.

(** Where a new event goes: behind everything due no later. *)
Definition line_up (e : event) (l : list event) : list event :=
  filter (λ x, (ev_at x ≤ ev_at e)%Z) l ++ e :: filter (λ x, ¬ (ev_at x ≤ ev_at e)%Z) l.

Lemma line_up_perm e l : line_up e l ≡ₚ e :: l.
Proof.
  unfold line_up. rewrite <- Permutation_middle. f_equiv.
  induction l as [|x l IH]; [done|]. rewrite !filter_cons.
  destruct (decide (ev_at x ≤ ev_at e)%Z).
  - rewrite decide_False by tauto. cbn. by f_equiv.
  - rewrite decide_True by done. rewrite <- Permutation_middle. by f_equiv.
Qed.

Lemma schedule_spec e q :
  queue_ok q → (q_next q + 1 < W64)%N →
  ∃ q', q_schedule e q = (Ret tt, q') ∧ queue_ok q' ∧
        pending q' = line_up (stamp (q_next q) e) (pending q) ∧ q_next q' = (q_next q + 1)%N.
Proof.
  intros Hq Hroom. pose proof Hq as (Hh & Hnd & Hlt).
  destruct (schedule_heap e q Hh) as (q' & EP & Hh' & HP & En). rewrite u64_add_small in En by done.
  set (e' := stamp (q_next q) e) in *.
  assert (queue_ok q') as Hq'.
  { split; [done|]. rewrite En, HP. split.
    - rewrite fmap_cons. apply NoDup_cons. split; [|done].
      intros (x & E & Hx)%list_elem_of_fmap. eapply Forall_forall in Hlt; [|done]. cbn in E. lia.
    - constructor; [cbn; lia|]. eapply Forall_impl; [exact Hlt|]. cbn. lia. }
  exists q'. split_and!; [done|done| |done]. apply pending_unique; [done| |].
  - pose proof (pending_sorted q Hq) as Hs. unfold line_up.
    apply StronglySorted_app_2; [|by apply StronglySorted_filter|].
    + intros x y [Hx Hxin]%list_elem_of_filter [->|[Hy _]%list_elem_of_filter]%elem_of_cons.
      * rewrite pending_perm in Hxin. eapply Forall_forall in Hlt; [|done]. unfold ev_lt. cbn in *. lia.
      * unfold ev_lt. lia.
    + constructor; [by apply StronglySorted_filter|]. apply Forall_forall.
      intros y [Hy _]%list_elem_of_filter. unfold ev_lt. lia.
  - by rewrite line_up_perm, pending_perm, HP.
Qed.

(** ** Refinement *)

(** What the simulator does with the queue, and the same on a sorted list. *)
Inductive qop := QSchedule (e : event) | QPop.

Fixpoint run_ops (ops : list qop) : M eventQueue (list (option event)) :=
  match ops with
  | [] => ret []
  | QSchedule e :: ops' => q_schedule e ;;; run_ops ops'
  | QPop :: ops' => r <- q_pop ;; rs <- run_ops ops' ;; ret (r :: rs)
  end.

Fixpoint ref_ops (ops : list qop) (l : list event) (next : N) : list (option event) :=
  match ops with
  | [] => []
  | QSchedule e :: ops' => ref_ops ops' (line_up (stamp next e) l) (next + 1)
  | QPop :: ops' => head l :: ref_ops ops' (tail l) next
  end.

Lemma run_ops_ref ops q :
  queue_ok q → (q_next q + N.of_nat (length ops) < W64)%N →
  ∃ q', run_ops ops q = (Ret (ref_ops ops (pending q) (q_next q)), q') ∧ queue_ok q'.
Proof.
  revert q. induction ops as [|[e|] ops IH]; intros q Hq Hroom; cbn [length run_ops ref_ops] in *.
  - by exists q.
  - destruct (schedule_spec e q) as (q1 & E1 & Hq1 & Hp1 & Hn1); [done|lia|].
    destruct (IH q1) as (q2 & E2 & Hq2); [done|lia|]. exists q2. split; [|done].
    unfold bind. by rewrite E1, E2, Hp1, Hn1.
  - destruct (pending q) as [|e l] eqn:Ep.
    + assert (q_items q = []) as Ei by (apply Permutation_nil; by rewrite <- pending_perm, Ep).
      destruct (IH q) as (q2 & E2 & Hq2); [done|lia|]. exists q2. split; [|done].
      unfold bind. by rewrite (pop_empty q Ei), E2, Ep.
    + destruct (pop_spec q e l Hq Ep) as (q1 & E1 & Hq1 & Hp1 & Hn1).
      destruct (IH q1) as (q2 & E2 & Hq2); [done|lia|]. exists q2. split; [|done].
      unfold bind. by rewrite E1, E2, Hp1, Hn1.
Qed.

(** C26: The heap behaves as a list kept in firing order.  Whatever the simulator schedules
    and takes out, in whatever interleaving, every pop gives the event that is due
    first, and of two events due at the same instant the one scheduled first; no event
    is lost, repeated or reordered, and no operation panics.  This total order is what
    a run's reproducibility from its seed rests on. *)
Theorem queue_refines_list ops :
  (N.of_nat (length ops) < W64)%N →
  ∃ q, run_ops ops newEventQueue = (Ret (ref_ops ops [] 0), q) ∧ queue_ok q.
Proof. intros Hroom. apply (run_ops_ref ops newEventQueue newEventQueue_ok). cbn. lia. Qed.

Definition tick_at (t : Z) (i : NodeID) : event :=
  mkEvent t 0 evTick i (zeroMessage MsgVoteReq 0) false.

Lemma queue_refines_list_witness :
  ∃ q, run_ops [QSchedule (tick_at 9 1); QSchedule (tick_at 5 2); QPop; QSchedule (tick_at 9 3); QPop; QPop; QPop]
         newEventQueue =
       (Ret [Some (stamp 1 (tick_at 5 2)); Some (stamp 0 (tick_at 9 1)); Some (stamp 2 (tick_at 9 3)); None], q)
       ∧ queue_ok q.
Proof. apply queue_refines_list. by vm_compute. Defined.
