(* ===== verification/Sim.v ===== *)
(** * The deterministic simulator

    The package sim: a whole cluster in one event loop on virtual time, with the
    faults of its network and machines (sim/sim.go, sim/faults.go), the simulated
    nodes (sim/node.go), the trace (sim/trace.go) and the checker that reads the
    nodes' state after every event (sim/checker.go).  The event queue is
    EventQueue.v.

    A simulated node is the node of RawNode.v on the storage of memory_storage.go;
    as in Cluster.v it is running, or only its storage is left.  All nodes draw from
    the simulator's one random source ([simRand]): [on_rn] lends it to the node for
    the length of a call.  The source itself is the class [Source]; a [float64] rate
    is the rational it denotes.  A line of the trace is kept as data, and its text,
    which only the hash reads, is the class [Fmt]; SHA-256 is the class [Sha256].
    The text of a violation and the wall clock of a report are left out. *)

From S2P Require Import Prelude Varint GoMaps Types Config Storage RaftLog RawNode Cluster EventQueue.
From stdpp Require Import pretty.
From Stdlib Require QArith_base.

Abbreviation rate := QArith_base.Q (only parsing).

(** ** Configuration *)

Record Faults := mkFaults {
  DropRate : rate;
  DuplicateRate : rate;
  MinLatency : Z;
  MaxLatency : Z;
  ReorderRate : rate;
  ReorderMax : Z;
  PartitionRate : rate;
  PartitionMin : Z;
  PartitionMax : Z;
  CrashRate : rate;
  RestartMin : Z;
  RestartMax : Z;
  DiskLossRate : rate;
  MembershipRate : rate;
  FaultInterval : Z
}.

(** The [float64] nearest to 0.02, 0.05 and 0.15. *)
Definition f0_02 : rate := QArith_base.Qmake 5764607523034235 288230376151711744.
Definition f0_05 : rate := QArith_base.Qmake 3602879701896397 72057594037927936.
Definition f0_15 : rate := QArith_base.Qmake 5404319552844595 36028797018963968.
Definition f0 : rate := QArith_base.Qmake 0 1.

Definition DefaultFaults : Faults :=
  mkFaults f0_02 f0_02 1 30 f0_02 200 f0_15 200 2000 f0_15 100 3000 f0 f0_05 250.

Definition NoFaults : Faults := mkFaults f0 f0 5 5 f0 0 f0 0 0 f0 0 0 f0 f0 1000000.

Record simConfig := mkSimConfig {
  sc_Seed : Z;
  sc_Nodes : Z;
  sc_Duration : Z;
  sc_TickInterval : Z;
  sc_ElectionTick : Z;
  sc_HeartbeatTick : Z;
  sc_PreVote : bool;
  sc_WriteInterval : Z;
  sc_SnapshotThreshold : N;
  sc_SnapshotCatchUpEntries : N;
  sc_Faults : Faults;
  sc_Verbose : bool
}.

Definition DefaultConfig (seed : Z) : simConfig :=
  mkSimConfig seed 5 30000 10 10 2 true 20 50 10 DefaultFaults false.

Definition or_default (d z : Z) : Z := if (z =? 0)%Z then d else z.

Definition sim_withDefaults (c : simConfig) : simConfig :=
  let f := sc_Faults c in
  mkSimConfig (sc_Seed c) (or_default 5 (sc_Nodes c)) (or_default 30000 (sc_Duration c))
    (or_default 10 (sc_TickInterval c)) (or_default 10 (sc_ElectionTick c))
    (or_default 2 (sc_HeartbeatTick c)) (sc_PreVote c) (sc_WriteInterval c)
    (if (sc_SnapshotThreshold c =? 0)%N then 50%N else sc_SnapshotThreshold c)
    (sc_SnapshotCatchUpEntries c)
    (mkFaults (DropRate f) (DuplicateRate f) (MinLatency f) (or_default (MinLatency f) (MaxLatency f))
       (ReorderRate f) (ReorderMax f) (PartitionRate f) (PartitionMin f) (PartitionMax f)
       (CrashRate f) (RestartMin f) (RestartMax f) (DiskLossRate f) (MembershipRate f)
       (or_default 250 (FaultInterval f)))
    (sc_Verbose c).

(** ** The random source

    What the simulator uses of math/rand.Rand.  [Intn] and [Int63n] panic unless their
    argument is positive, which the wrappers below say. *)
Class Source (R : Type) := {
  src_Rand :: Rand R;
  src_Int63n : Z → R → Z * R;
  src_Float64 : R → rate * R
}.

Class SourceLaws (R : Type) `{Source R} := {
  Intn_range n (g : R) : (0 < n)%Z → (0 ≤ fst (Intn n g) < n)%Z;
  Int63n_range n (g : R) : (0 < n)%Z → (0 ≤ fst (src_Int63n n g) < n)%Z;
  Float64_range (g : R) :
    (0 ≤ QArith_base.Qnum (fst (src_Float64 g)))%Z ∧
    (QArith_base.Qnum (fst (src_Float64 g)) < Z.pos (QArith_base.Qden (fst (src_Float64 g))))%Z
}.

(** [a < b] on rates. *)
Definition below (a b : rate) : bool :=
  (QArith_base.Qnum a * Z.pos (QArith_base.Qden b) <? QArith_base.Qnum b * Z.pos (QArith_base.Qden a))%Z.

(** ** The trace *)

Inductive traceLine :=
  | LTick (id : NodeID) (st : State) (term : Term)
  | LLost (ty : MessageType)
  | LIgnore (from to : NodeID) (ty : MessageType)
  | LRecv (to from : NodeID) (ty : MessageType) (term : Term)
  | LRestore (id : NodeID) (at_ : Index)
  | LSnapshot (id : NodeID) (at_ : Index)
  | LCrash (id : NodeID)
  | LRestart (id : NodeID) (diskLost : bool)
  | LHeal (sideB : list NodeID)
  | LMembershipSkipped (err : error)
  | LMembershipRefused (err : error)
  | LMembership (current target : Configuration) (by_ : NodeID)
  | LPartition (sideB : list NodeID) (dur : Z)
  | LWrite (seq : Z) (id : NodeID)
  | LWriteSkipped
  | LBlock (from to : NodeID) (ty : MessageType)
  | LDrop (from to : NodeID) (ty : MessageType)
  | LSend (from to : NodeID) (ty : MessageType) (latency : Z)
  | LDup (from to : NodeID) (ty : MessageType) (latency : Z).

(** The text of a line with its time: [fmt.Sprintf] of the formats in the source. *)
Class Fmt := { sprint : Z → traceLine → bytes }.

(** SHA-256, [crypto/sha256]. *)
Class Sha256 := { Sum256 : bytes → bytes }.

(** FNV-1a, 64 bits: [hash/fnv]. *)
Definition fnv_offset : N := 14695981039346656037.
Definition fnv_prime : N := 1099511628211.
Definition fnv_sum (b : bytes) : N :=
  foldl (λ h x, (N.lxor h (Byte.to_N x) * fnv_prime mod W64)%N) fnv_offset b.

Record Trace := mkTrace {
  t_hash : N;
  t_events : Z;
  t_lines : list (Z * traceLine);
  t_verbose : bool;
  t_limit : N
}.

Definition newTrace (verbose : bool) : Trace := mkTrace fnv_offset 0 [] verbose 100000.

Definition trace_record `{Fmt} (at_ : Z) (line : traceLine) (t : Trace) : Trace :=
  let buf := (λ i, byte_of (N.shiftr (t_hash t) (8 * i))) <$> [0; 1; 2; 3; 4; 5; 6; 7]%N in
  mkTrace (fnv_sum (buf ++ sprint at_ line)) (t_events t + 1)
    (if t_verbose t && (N.of_nat (length (t_lines t)) <? t_limit t)%N
     then t_lines t ++ [(at_, line)] else t_lines t)
    (t_verbose t) (t_limit t).

(** ** The checker's data *)

Inductive property :=
  | PropElectionSafety | PropCommittedStable | PropLogMatching
  | PropCommitMonotonic | PropAppliedFollowing | PropStateMachineSafety.

Record Violation := mkViolation { v_Property : property; v_Seed : Z; v_At : Z }.

Record committedEntry := mkCommittedEntry {
  ce_term : Term;
  ce_digest : bytes;
  ce_by : NodeID;
  ce_at : Z;
  ce_command : bytes
}.

Record Checker := mkChecker {
  ck_seed : Z;
  ck_leaderPerTerm : gmap Term NodeID;
  ck_committed : gmap Index committedEntry;
  ck_checkedTo : gmap NodeID Index;
  ck_lastCommit : gmap NodeID Index;
  ck_violations : list Violation
}.

Definition NewChecker (seed : Z) : Checker := mkChecker seed ∅ ∅ ∅ ∅ [].

Definition set_leaderPerTerm v (c : Checker) : Checker :=
  mkChecker (ck_seed c) v (ck_committed c) (ck_checkedTo c) (ck_lastCommit c) (ck_violations c).
Definition set_committed v (c : Checker) : Checker :=
  mkChecker (ck_seed c) (ck_leaderPerTerm c) v (ck_checkedTo c) (ck_lastCommit c) (ck_violations c).
Definition set_checkedTo v (c : Checker) : Checker :=
  mkChecker (ck_seed c) (ck_leaderPerTerm c) (ck_committed c) v (ck_lastCommit c) (ck_violations c).
Definition set_lastCommit v (c : Checker) : Checker :=
  mkChecker (ck_seed c) (ck_leaderPerTerm c) (ck_committed c) (ck_checkedTo c) v (ck_violations c).
Definition set_violations v (c : Checker) : Checker :=
  mkChecker (ck_seed c) (ck_leaderPerTerm c) (ck_committed c) (ck_checkedTo c) (ck_lastCommit c) v.

Definition CommittedCount (c : Checker) : Z := Z.of_nat (size (ck_committed c)).
Definition LeaderTerms (c : Checker) : Z := Z.of_nat (size (ck_leaderPerTerm c)).

(** ** The simulated state machine

    The commands applied, in order.  Its image is the list itself. *)

Definition stateMachineImage (applied : list LogEntry) : bytes :=
  foldl (λ buf e,
           AppendUvarint (AppendUvarint (AppendUvarint buf (e_Index e)) (e_Term e))
             (N.of_nat (length (e_Command e))) ++ e_Command e)
    (AppendUvarint [] (N.of_nat (length applied))) applied.

(** [make([]raft.LogEntry, 0, count)] panics when the capacity, in elements of 48
    bytes, exceeds the 48-bit address space of the runtime's allocator. *)
Definition maxEntryCap : N := 5864062014805.

(** [for range count]: every entry takes at least three bytes. *)
Fixpoint decodeStateMachine_loop (fuel : nat) (count : N) (b : bytes) (out : list LogEntry)
    : outcome (list LogEntry) :=
  if (count =? 0)%N then Ret out
  else
    match fuel with
    | O => OutOfFuel
    | Datatypes.S k =>
        let? (index, b) := readUvarint "truncated entry index" b in
        let? (term, b) := readUvarint "truncated entry term" b in
        let? (size, b) := readUvarint "truncated entry command" b in
        if (N.of_nat (length b) <? size)%N then Fail (Errorf "truncated entry command" [])
        else
          decodeStateMachine_loop k (count - 1) (drop (N.to_nat size) b)
            (out ++ [mkEntry term index EntryNormal (take (N.to_nat size) b)])
    end.

Definition decodeStateMachine (b : bytes) : outcome (list LogEntry) :=
  let? (count, b) := readUvarint "truncated snapshot header" b in
  if (maxEntryCap <? count)%N then Panic "makeslice: cap out of range"
  else decodeStateMachine_loop (S (length b)) count b [].

(** ** The simulator *)

(** [p.sideB[id]] is false for a node that is not in the map. *)
Record partition := mkPartition { p_sideB : gmap NodeID bool; p_until : Z }.

Definition onSideB (p : partition) (id : NodeID) : bool := default false (p_sideB p !! id).

Definition blocks (p : option partition) (from to : NodeID) : bool :=
  match p with
  | None => false
  | Some p => negb (Bool.eqb (onSideB p from) (onSideB p to))
  end.

(** [partition.String], up to the text: the second side, sorted. *)
Definition partition_String `{MapRange} (p : partition) : list NodeID :=
  slices_Sort ((filter (λ kv, kv.2 = true) (range_map (p_sideB p))).*1).

Record simStats := mkStats {
  sent : Z; dropped : Z; duplicated : Z; partitions : Z;
  snapshots : Z; snapshotsSent : Z; membershipChanges : Z
}.

(** [n_st] holds both [rn], nil while the node is down, and [storage]: while the node
    is up they share the storage. *)
Record simNode (R : Type) := mkSimNode {
  n_id : NodeID;
  n_st : status MemoryStorage R;
  n_restartedSinceCheck : bool;
  n_crashes : Z;
  n_restarts : Z;
  n_restoredFrom : Index;
  n_applied : list LogEntry
}.
Arguments mkSimNode {R}.
Arguments n_id {R}.
Arguments n_st {R}.
Arguments n_restartedSinceCheck {R}.
Arguments n_crashes {R}.
Arguments n_restarts {R}.
Arguments n_restoredFrom {R}.
Arguments n_applied {R}.

Record Simulator (R : Type) := mkSimulator {
  s_cfg : simConfig;
  s_rng : R;
  s_now : Z;
  s_queue : eventQueue;
  s_ids : list NodeID;
  s_nodes : gmap NodeID (simNode R);
  s_conf : Configuration;
  s_part : option partition;
  s_checker : Checker;
  s_trace : Trace;
  s_writeSeq : Z;
  s_stats : simStats
}.
Arguments mkSimulator {R}.
Arguments s_cfg {R}.
Arguments s_rng {R}.
Arguments s_now {R}.
Arguments s_queue {R}.
Arguments s_ids {R}.
Arguments s_nodes {R}.
Arguments s_conf {R}.
Arguments s_part {R}.
Arguments s_checker {R}.
Arguments s_trace {R}.
Arguments s_writeSeq {R}.
Arguments s_stats {R}.

Section sim.
Context {R : Type} `{Source R} `{Fmt} `{Sha256} `{MapRange}.
Local Abbreviation Sim := (Simulator R).
Local Abbreviation RN := (RawNode MemoryStorage R).

(** *** Field updates *)

Definition set_rng v (s : Sim) : Sim :=
  mkSimulator (s_cfg s) v (s_now s) (s_queue s) (s_ids s) (s_nodes s) (s_conf s) (s_part s)
    (s_checker s) (s_trace s) (s_writeSeq s) (s_stats s).
Definition set_now v (s : Sim) : Sim :=
  mkSimulator (s_cfg s) (s_rng s) v (s_queue s) (s_ids s) (s_nodes s) (s_conf s) (s_part s)
    (s_checker s) (s_trace s) (s_writeSeq s) (s_stats s).
Definition set_queue v (s : Sim) : Sim :=
  mkSimulator (s_cfg s) (s_rng s) (s_now s) v (s_ids s) (s_nodes s) (s_conf s) (s_part s)
    (s_checker s) (s_trace s) (s_writeSeq s) (s_stats s).
Definition set_nodes v (s : Sim) : Sim :=
  mkSimulator (s_cfg s) (s_rng s) (s_now s) (s_queue s) (s_ids s) v (s_conf s) (s_part s)
    (s_checker s) (s_trace s) (s_writeSeq s) (s_stats s).
Definition set_part v (s : Sim) : Sim :=
  mkSimulator (s_cfg s) (s_rng s) (s_now s) (s_queue s) (s_ids s) (s_nodes s) (s_conf s) v
    (s_checker s) (s_trace s) (s_writeSeq s) (s_stats s).
Definition set_checker v (s : Sim) : Sim :=
  mkSimulator (s_cfg s) (s_rng s) (s_now s) (s_queue s) (s_ids s) (s_nodes s) (s_conf s) (s_part s)
    v (s_trace s) (s_writeSeq s) (s_stats s).
Definition set_trace v (s : Sim) : Sim :=
  mkSimulator (s_cfg s) (s_rng s) (s_now s) (s_queue s) (s_ids s) (s_nodes s) (s_conf s) (s_part s)
    (s_checker s) v (s_writeSeq s) (s_stats s).
Definition set_writeSeq v (s : Sim) : Sim :=
  mkSimulator (s_cfg s) (s_rng s) (s_now s) (s_queue s) (s_ids s) (s_nodes s) (s_conf s) (s_part s)
    (s_checker s) (s_trace s) v (s_stats s).
Definition set_stats v (s : Sim) : Sim :=
  mkSimulator (s_cfg s) (s_rng s) (s_now s) (s_queue s) (s_ids s) (s_nodes s) (s_conf s) (s_part s)
    (s_checker s) (s_trace s) (s_writeSeq s) v.

Definition set_n_st v (n : simNode R) : simNode R :=
  mkSimNode (n_id n) v (n_restartedSinceCheck n) (n_crashes n) (n_restarts n) (n_restoredFrom n) (n_applied n).
Definition set_n_restartedSinceCheck v (n : simNode R) : simNode R :=
  mkSimNode (n_id n) (n_st n) v (n_crashes n) (n_restarts n) (n_restoredFrom n) (n_applied n).
Definition set_n_restored from app (n : simNode R) : simNode R :=
  mkSimNode (n_id n) (n_st n) (n_restartedSinceCheck n) (n_crashes n) (n_restarts n) from app.
Definition set_n_applied v (n : simNode R) : simNode R :=
  mkSimNode (n_id n) (n_st n) (n_restartedSinceCheck n) (n_crashes n) (n_restarts n) (n_restoredFrom n) v.
Definition count_restart (n : simNode R) : simNode R :=
  mkSimNode (n_id n) (n_st n) true (n_crashes n) (n_restarts n + 1) (n_restoredFrom n) (n_applied n).

(** *** Small steps *)

Definition record (line : traceLine) : M Sim unit :=
  modify (λ s, set_trace (trace_record (s_now s) line (s_trace s)) s).

Definition schedule (e : event) : M Sim unit := zoom s_queue set_queue (q_schedule e).

Definition draw_Intn (n : Z) : M Sim Z :=
  s <- get ;;
  if (n <=? 0)%Z then panic "invalid argument to Intn"
  else let '(z, g) := Intn n (s_rng s) in modify (set_rng g) ;;; ret z.

Definition draw_Float64 : M Sim rate :=
  s <- get ;;
  let '(q, g) := src_Float64 (s_rng s) in modify (set_rng g) ;;; ret q.

(** [s.rng.Float64() < r] *)
Definition chance (r : rate) : M Sim bool :=
  q <- draw_Float64 ;; ret (below q r).

Definition randRange (n : Z) : M Sim Z :=
  if (n <=? 0)%Z then ret 0%Z
  else
    let n1 := int_add n 1 in
    s <- get ;;
    if (n1 <=? 0)%Z then panic "invalid argument to Int63n"
    else let '(z, g) := src_Int63n n1 (s_rng s) in modify (set_rng g) ;;; ret z.

Definition bump (f : simStats → simStats) : M Sim unit := modify (λ s, set_stats (f (s_stats s)) s).

(** [s.nodes[id]] is nil for an unknown id, and every use of it dereferences it. *)
Definition getNode (id : NodeID) : M Sim (simNode R) :=
  reads (λ s, match s_nodes s !! id with
              | Some n => Ret n
              | None => Panic "invalid memory address or nil pointer dereference"
              end).

Definition setNode (id : NodeID) (f : simNode R → simNode R) : M Sim unit :=
  modify (λ s, set_nodes (alter f id (s_nodes s)) s).

Definition crashed (n : simNode R) : bool := match n_st n with Up _ => false | Down _ => true end.

Definition storage (n : simNode R) : MemoryStorage :=
  match n_st n with Up r => disk_of r | Down st => st end.

(** A call on [n.rn], which draws from the simulator's source. *)
Definition on_rn {A} (id : NodeID) (m : M RN A) : M Sim A := λ s,
  match s_nodes s !! id with
  | Some n =>
      match n_st n with
      | Up r =>
          let '(o, r') := m (set_rand (s_rng s) r) in
          (o, set_rng (rn_rand r') (set_nodes (<[id := set_n_st (Up r') n]> (s_nodes s)) s))
      | Down _ => (Panic "invalid memory address or nil pointer dereference", s)
      end
  | None => (Panic "invalid memory address or nil pointer dereference", s)
  end.

(** [n.rn], for reading. *)
Definition getRN (id : NodeID) : M Sim RN :=
  n <- getNode id ;;
  match n_st n with
  | Up r => ret r
  | Down _ => panic "invalid memory address or nil pointer dereference"
  end.

Definition isLeader (n : simNode R) : bool :=
  match n_st n with Up r => bool_decide (rn_state r = Leader) | Down _ => false end.

(** *** Nodes *)

Definition raftConfig (id : NodeID) (s : Sim) : Config :=
  mkConfig id (sc_ElectionTick (s_cfg s)) (sc_HeartbeatTick (s_cfg s)) (sc_PreVote (s_cfg s))
    (s_conf s) 0 0 (sc_SnapshotThreshold (s_cfg s)) (sc_SnapshotCatchUpEntries (s_cfg s)) 0.

Definition sim_start (id : NodeID) : M Sim unit :=
  n <- getNode id ;;
  s <- get ;;
  rn <- wrapErr "sim: starting node"
          (reads (λ _, NewRawNode (raftConfig (n_id n) s) (Some (storage n)) (Some (s_rng s)))) ;;
  modify (set_rng (rn_rand rn)) ;;;
  setNode id (set_n_st (Up rn)) ;;;
  n <- getNode id ;;
  snap <- wrapErr "sim: loading its snapshot" (reads (λ _, MemoryStorage_LoadSnapshot (storage n))) ;;
  if Snapshot_IsEmpty snap then ret tt
  else
    applied <- wrapErr "sim: restoring its snapshot" (reads (λ _, decodeStateMachine (snap_Data snap))) ;;
    setNode id (set_n_restored (snap_LastIncludedIndex snap) applied).

(** [node.crash], and [node.wipeDisk] of a node that is down. *)
Definition crash (n : simNode R) : simNode R :=
  mkSimNode (n_id n) (Down (storage n)) (n_restartedSinceCheck n) (n_crashes n + 1) (n_restarts n)
    (n_restoredFrom n) [].

Definition wipeDisk (n : simNode R) : simNode R :=
  mkSimNode (n_id n) (Down NewMemoryStorage) (n_restartedSinceCheck n) (n_crashes n) (n_restarts n)
    (n_restoredFrom n) [].

(** [append] panics when the slice would outgrow the address space. *)
Definition growslice (len : nat) : M Sim unit :=
  if (maxEntryCap <? N.of_nat len)%N then panic "growslice: len out of range" else ret tt.

(** [for n.rn.HasCommittedEntries()]: every round applies at least one entry. *)
Fixpoint drainApplied_loop (fuel : nat) (id : NodeID) : M Sim unit :=
  r <- getRN id ;;
  if negb (HasCommittedEntries r) then ret tt
  else
    match fuel with
    | O => outOfFuel
    | Datatypes.S k =>
        entries <- wrapErr "sim: reading committed entries" (reads (λ _, CommittedEntries r)) ;;
        match last entries with
        | None => ret tt
        | Some e =>
            n <- getNode id ;;
            growslice (length (n_applied n ++ entries)) ;;;
            setNode id (λ n, set_n_applied (n_applied n ++ entries) n) ;;;
            on_rn id (ApplyTo (e_Index e)) ;;;
            drainApplied_loop k id
        end
    end.

Definition drainApplied (id : NodeID) : M Sim unit :=
  n <- getNode id ;;
  match n_st n with
  | Down _ => ret tt
  | Up r => drainApplied_loop (N.to_nat (CommitIndex r - AppliedIndex r)) id
  end.

Definition sim_restoreSnapshot (id : NodeID) : M Sim unit :=
  n <- getNode id ;;
  if crashed n then ret tt
  else
    arrived <- on_rn id SnapshotToApply ;;
    match arrived with
    | None => ret tt
    | Some snap =>
        applied <- wrapErr "sim: restoring snapshot" (reads (λ _, decodeStateMachine (snap_Data snap))) ;;
        setNode id (set_n_restored (snap_LastIncludedIndex snap) applied) ;;;
        record (LRestore id (snap_LastIncludedIndex snap))
    end.

(** *** The network *)

Definition delivery (at_ : Z) (m : Message) : event := mkEvent at_ 0 evDeliver None_ m false.

(** An event without a message. *)
Definition happening (at_ : Z) (k : eventKind) (id : NodeID) (loseDisk : bool) : event :=
  mkEvent at_ 0 k id (zeroMessage MsgVoteReq None_) loseDisk.

Definition latency : M Sim Z :=
  s <- get ;;
  let f := sc_Faults (s_cfg s) in
  d <- randRange (int_wrap (MaxLatency f - MinLatency f)) ;;
  let d := int_add (MinLatency f) d in
  if below f0 (ReorderRate f) then
    reorder <- chance (ReorderRate f) ;;
    if (reorder : bool) then
      extra <- randRange (ReorderMax f) ;; ret (int_add d extra)
    else ret d
  else ret d.

Definition route (m : Message) : M Sim unit :=
  bump (λ st, mkStats (sent st + 1) (dropped st) (duplicated st) (partitions st) (snapshots st)
                (snapshotsSent st) (membershipChanges st)) ;;;
  s <- get ;;
  let f := sc_Faults (s_cfg s) in
  let drop1 := bump (λ st, mkStats (sent st) (dropped st + 1) (duplicated st) (partitions st)
                             (snapshots st) (snapshotsSent st) (membershipChanges st)) in
  if blocks (s_part s) (m_From m) (m_To m) then
    drop1 ;;; record (LBlock (m_From m) (m_To m) (m_Type m))
  else
    lost <- chance (DropRate f) ;;
    if (lost : bool) then drop1 ;;; record (LDrop (m_From m) (m_To m) (m_Type m))
    else
      lat <- latency ;;
      schedule (delivery (int_add (s_now s) lat) m) ;;;
      record (LSend (m_From m) (m_To m) (m_Type m) lat) ;;;
      dup <- chance (DuplicateRate f) ;;
      if (dup : bool) then
        extra <- latency ;;
        schedule (delivery (int_add (int_add (s_now s) lat) extra) m) ;;;
        bump (λ st, mkStats (sent st) (dropped st) (duplicated st + 1) (partitions st) (snapshots st)
                      (snapshotsSent st) (membershipChanges st)) ;;;
        record (LDup (m_From m) (m_To m) (m_Type m) (int_add lat extra))
      else ret tt.

(** *** What follows every call on a node *)

Definition sim_maybeSnapshot (id : NodeID) : M Sim unit :=
  n <- getNode id ;;
  match n_st n with
  | Down _ => ret tt
  | Up r =>
      if negb (ShouldSnapshot r) then ret tt
      else
        res <- try (on_rn id (CreateSnapshot (stateMachineImage (n_applied n)))) ;;
        match res with
        | inr err =>
            if errorsIs err ErrNothingToSnapshot || errorsIs err ErrSnapshotOutOfDate then ret tt
            else fail (Errorf "sim: creating snapshot" [err])
        | inl snap =>
            bump (λ st, mkStats (sent st) (dropped st) (duplicated st) (partitions st) (snapshots st + 1)
                          (snapshotsSent st) (membershipChanges st)) ;;;
            record (LSnapshot id (snap_LastIncludedIndex snap))
        end
  end.

Definition after (id : NodeID) : M Sim unit :=
  n <- getNode id ;;
  if crashed n then ret tt
  else
    msgs <- on_rn id Messages ;;
    forEach msgs (λ m,
      (if bool_decide (m_Type m = MsgSnapshotReq)
       then bump (λ st, mkStats (sent st) (dropped st) (duplicated st) (partitions st) (snapshots st)
                          (snapshotsSent st + 1) (membershipChanges st))
       else ret tt) ;;;
      route m) ;;;
    sim_restoreSnapshot id ;;;
    drainApplied id ;;;
    sim_maybeSnapshot id.

(** *** Events *)

Definition applyTick (ev : event) : M Sim unit :=
  s <- get ;;
  schedule (happening (int_add (s_now s) (sc_TickInterval (s_cfg s))) evTick (ev_node ev) false) ;;;
  n <- getNode (ev_node ev) ;;
  if crashed n then ret tt
  else
    wrapErr "sim: tick on node" (on_rn (ev_node ev) Tick) ;;;
    r <- getRN (ev_node ev) ;;
    record (LTick (ev_node ev) (rn_state r) (rn_term r)) ;;;
    after (ev_node ev).

Definition applyDeliver (ev : event) : M Sim unit :=
  let m := ev_msg ev in
  n <- getNode (m_To m) ;;
  if crashed n then record (LLost (m_Type m))
  else
    res <- try (on_rn (m_To m) (Step m)) ;;
    match res with
    | inr err =>
        if negb (errorsIs err ErrIgnoredMessage) then fail (Errorf "sim: step on node" [err])
        else record (LIgnore (m_From m) (m_To m) (m_Type m))
    | inl _ =>
        record (LRecv (m_To m) (m_From m) (m_Type m) (m_Term m)) ;;;
        after (m_To m)
    end.

(** [!s.nodes[id].crashed()], and that the node believes it leads.  The map has all the
    ids, so that the missing case does not arise. *)
Definition isUp (s : Sim) (id : NodeID) : bool :=
  match s_nodes s !! id with Some n => negb (crashed n) | None => false end.

Definition leads (s : Sim) (id : NodeID) : bool :=
  match s_nodes s !! id with Some n => isLeader n | None => false end.

Definition liveNodes (s : Sim) : Z :=
  Z.of_nat (length (filter (λ id, isUp s id = true) (s_ids s))).

Definition sim_quorum (s : Sim) : Z := (Z.of_nat (length (s_ids s)) / 2 + 1)%Z.

Definition applyCrash (id : NodeID) : M Sim unit :=
  n <- getNode id ;;
  if crashed n then ret tt
  else
    s <- get ;;
    if (liveNodes s - 1 <? sim_quorum s)%Z then ret tt
    else
      setNode id crash ;;;
      record (LCrash id) ;;;
      let f := sc_Faults (s_cfg s) in
      d <- randRange (int_wrap (RestartMax f - RestartMin f)) ;;
      let down := int_add (RestartMin f) d in
      lose <- chance (DiskLossRate f) ;;
      schedule (happening (int_add (s_now s) down) evRestart id lose).

Definition applyRestart (ev : event) : M Sim unit :=
  let id := ev_node ev in
  n <- getNode id ;;
  if negb (crashed n) then ret tt
  else
    (if ev_loseDisk ev then setNode id wipeDisk ;;; record (LRestart id true)
     else record (LRestart id false)) ;;;
    sim_start id ;;;
    setNode id count_restart ;;;
    after id.

Definition applyHeal : M Sim unit :=
  s <- get ;;
  match s_part s with
  | None => ret tt
  | Some p => record (LHeal (partition_String p)) ;;; modify (set_part None)
  end.

(** The ids drawn to the second side, in order. *)
Fixpoint draw_sides (ids : list NodeID) (sideB : gmap NodeID bool) (count : Z) : M Sim (gmap NodeID bool * Z) :=
  match ids with
  | [] => ret (sideB, count)
  | id :: ids' =>
      c <- draw_Intn 2 ;;
      if (c =? 0)%Z then draw_sides ids' (<[id := true]> sideB) (count + 1) else draw_sides ids' sideB count
  end.

Definition startPartition : M Sim unit :=
  s <- get ;;
  sides <- draw_sides (s_ids s) ∅ 0 ;;
  let '(sideB, count) := sides in
  if (count =? 0)%Z || (count =? Z.of_nat (length (s_ids s)))%Z then ret tt
  else
    let f := sc_Faults (s_cfg s) in
    d <- randRange (int_wrap (PartitionMax f - PartitionMin f)) ;;
    let dur := int_add (PartitionMin f) d in
    let p := mkPartition sideB (int_add (s_now s) dur) in
    modify (set_part (Some p)) ;;;
    bump (λ st, mkStats (sent st) (dropped st) (duplicated st) (partitions st + 1) (snapshots st)
                  (snapshotsSent st) (membershipChanges st)) ;;;
    record (LPartition (partition_String p) dur) ;;;
    schedule (happening (int_add (s_now s) dur) evHeal None_ false).

(** The first node in order that believes it leads. *)
Definition sim_leader (s : Sim) : option NodeID :=
  head (filter (λ id, leads s id = true) (s_ids s)).

Definition nth_id (ids : list NodeID) (k : Z) : M Sim NodeID :=
  reads (λ _, match ids !! Z.to_nat k with Some id => Ret id | None => Panic "index out of range" end).

(** The voters to ask for next: one fewer, or one of the absent nodes more. *)
Definition nextVoters (current : Configuration) : M Sim (option (list NodeID)) :=
  s <- get ;;
  let voters := Voters current in
  let n := Z.of_nat (length voters) in
  shrink <- (if (sim_quorum s <? n)%Z then c <- draw_Intn 2 ;; ret (c =? 0)%Z else ret false) ;;
  if (shrink : bool) then
    k <- draw_Intn n ;;
    victim <- nth_id voters k ;;
    ret (Some (filter (λ id, id ≠ victim) voters))
  else
    match filter (λ id, id ∉ voters) (s_ids s) with
    | [] => ret None
    | absent =>
        k <- draw_Intn (Z.of_nat (length absent)) ;;
        id <- nth_id absent k ;;
        ret (Some (voters ++ [id]))
    end.

Definition changeMembership : M Sim unit :=
  s <- get ;;
  match sim_leader s with
  | None => ret tt
  | Some id =>
      r <- getRN id ;;
      let current := rn_conf r in
      if IsJoint current then ret tt
      else
        next <- nextVoters current ;;
        match next with
        | None => ret tt
        | Some voters =>
            let target := NewConfiguration voters [] in
            match Validate target with
            | Fail err => record (LMembershipSkipped err)
            | _ =>
                res <- try (on_rn id (ProposeConfChange target)) ;;
                match res with
                | inr err => record (LMembershipRefused err)
                | inl _ =>
                    bump (λ st, mkStats (sent st) (dropped st) (duplicated st) (partitions st)
                                  (snapshots st) (snapshotsSent st) (membershipChanges st + 1)) ;;;
                    record (LMembership current target id) ;;;
                    after id
                end
            end
        end
  end.

Definition applyFaultDecision : M Sim unit :=
  s <- get ;;
  let f := sc_Faults (s_cfg s) in
  schedule (happening (int_add (s_now s) (FaultInterval f)) evPartition None_ false) ;;;
  (match s_part s with
   | None => split <- chance (PartitionRate f) ;; if (split : bool) then startPartition else ret tt
   | Some _ => ret tt
   end) ;;;
  move <- chance (MembershipRate f) ;;
  (if (move : bool) then changeMembership else ret tt) ;;;
  hit <- chance (CrashRate f) ;;
  if (hit : bool) then
    s <- get ;;
    k <- draw_Intn (Z.of_nat (length (s_ids s))) ;;
    victim <- nth_id (s_ids s) k ;;
    applyCrash victim
  else ret tt.

(** [fmt.Appendf(nil, "w%d", seq)] *)
Definition writeCommand (seq : Z) : bytes := String.list_byte_of_string ("w" ++ pretty seq).

(** One round of the loop in [applyClientWrite]; the result is whether it wrote. *)
Definition offerWrite (id : NodeID) : M Sim bool :=
  s <- get ;;
  if negb (leads s id) then ret false
  else
    modify (λ s, set_writeSeq (int_add (s_writeSeq s) 1) s) ;;;
    s <- get ;;
    res <- try (on_rn id (Propose (writeCommand (s_writeSeq s)))) ;;
    match res with
    | inr _ => ret false
    | inl _ => record (LWrite (s_writeSeq s) id) ;;; after id ;;; ret true
    end.

Fixpoint offerWrites (ids : list NodeID) (wrote : bool) : M Sim bool :=
  match ids with
  | [] => ret wrote
  | id :: ids' => w <- offerWrite id ;; offerWrites ids' (wrote || w)
  end.

Definition applyClientWrite : M Sim unit :=
  s <- get ;;
  schedule (happening (int_add (s_now s) (sc_WriteInterval (s_cfg s))) evClientWrite None_ false) ;;;
  wrote <- offerWrites (s_ids s) false ;;
  if (wrote : bool) then ret tt else record LWriteSkipped.

Definition apply_event (ev : event) : M Sim unit :=
  match ev_kind ev with
  | evTick => applyTick ev
  | evDeliver => applyDeliver ev
  | evCrash => applyCrash (ev_node ev)
  | evRestart => applyRestart ev
  | evPartition => applyFaultDecision
  | evHeal => applyHeal
  | evClientWrite => applyClientWrite
  end.

(** ** The checker

    [c.fail] is the only error its methods return, so that an error is a violation:
    [None] is Go's nil error. *)

Definition on_checker (f : Checker → Checker) : M Sim unit :=
  modify (λ s, set_checker (f (s_checker s)) s).

Definition report_violation (p : property) : M Sim (option Violation) :=
  s <- get ;;
  let v := mkViolation p (ck_seed (s_checker s)) (s_now s) in
  on_checker (λ c, set_violations (ck_violations c ++ [v]) c) ;;;
  ret (Some v).

(** [if err := m; err != nil { return err }; k] *)
Definition unless {A} (m k : M A (option Violation)) : M A (option Violation) :=
  v <- m ;; match v with Some _ => ret v | None => k end.

Fixpoint checkAll {A X} (l : list X) (body : X → M A (option Violation)) : M A (option Violation) :=
  match l with
  | [] => ret None
  | x :: l' => unless (body x) (checkAll l' body)
  end.

Definition checkElectionSafety (id : NodeID) : M Sim (option Violation) :=
  r <- getRN id ;;
  if negb (bool_decide (rn_state r = Leader)) then ret None
  else
    s <- get ;;
    let leaders := ck_leaderPerTerm (s_checker s) in
    let claim := on_checker (set_leaderPerTerm (<[rn_term r := id]> leaders)) ;;; ret None in
    match leaders !! rn_term r with
    | Some prev => if negb (prev =? id)%N then report_violation PropElectionSafety else claim
    | None => claim
    end.

Definition checkCommitMonotonic (id : NodeID) : M Sim (option Violation) :=
  r <- getRN id ;;
  n <- getNode id ;;
  s <- get ;;
  let commit := CommitIndex r in
  let settle :=
    on_checker (λ c, set_lastCommit (<[id := commit]> (ck_lastCommit c)) c) ;;;
    setNode id (set_n_restartedSinceCheck false) ;;;
    if (commit <? AppliedIndex r)%N then report_violation PropAppliedFollowing else ret None in
  match ck_lastCommit (s_checker s) !! id with
  | Some prev =>
      if (commit <? prev)%N && negb (n_restartedSinceCheck n)
      then report_violation PropCommitMonotonic else settle
  | None => settle
  end.

(** One committed index [i] of a node. *)
Definition checkEntry (id : NodeID) (i : Index) : M Sim (option Violation) :=
  n <- getNode id ;;
  res <- try (reads (λ _, MemoryStorage_GetEntry i (storage n))) ;;
  match res with
  | inr err => if errorsIs err ErrCompacted then ret None else report_violation PropCommittedStable
  | inl entry =>
      s <- get ;;
      let digest := Sum256 (e_Command entry) in
      match ck_committed (s_checker s) !! i with
      | Some prev =>
          if negb (ce_term prev =? e_Term entry)%N || negb (bool_decide (ce_digest prev = digest))
          then report_violation PropCommittedStable else ret None
      | None =>
          on_checker (λ c, set_committed
            (<[i := mkCommittedEntry (e_Term entry) digest id (s_now s) (e_Command entry)]> (ck_committed c)) c) ;;;
          ret None
      end
  end.

(** The indexes from [from] through [upto]. *)
Definition indexes (from upto : Index) : list Index :=
  (λ k, from + N.of_nat k)%N <$> seq 0 (N.to_nat (upto + 1 - from)).

Definition checkCommittedEntries (id : NodeID) : M Sim (option Violation) :=
  r <- getRN id ;;
  s <- get ;;
  let commit := CommitIndex r in
  let checked := default 0%N (ck_checkedTo (s_checker s) !! id) in
  unless (checkAll (indexes (checked +u 1) commit) (checkEntry id))
    ((if (checked <? commit)%N
      then on_checker (λ c, set_checkedTo (<[id := commit]> (ck_checkedTo c)) c) else ret tt) ;;;
     ret None).

Definition Observe : M Sim (option Violation) :=
  s <- get ;;
  checkAll (s_ids s) (λ id,
    n <- getNode id ;;
    if crashed n then ret None
    else
      unless (checkElectionSafety id)
        (unless (checkCommitMonotonic id) (checkCommittedEntries id))).

(** [compareBelow] and the pair of nodes it is called on. *)
Definition compareAt (a b : NodeID) (i : Index) : M Sim (option Violation) :=
  na <- getNode a ;;
  nb <- getNode b ;;
  ea <- try (reads (λ _, MemoryStorage_GetEntry i (storage na))) ;;
  eb <- try (reads (λ _, MemoryStorage_GetEntry i (storage nb))) ;;
  match ea, eb with
  | inl ea, inl eb =>
      if negb (e_Term ea =? e_Term eb)%N || negb (bool_decide (Sum256 (e_Command ea) = Sum256 (e_Command eb)))
      then report_violation PropLogMatching else ret None
  | _, _ => ret None
  end.

Definition compareBelow (a b : NodeID) (upto : Index) : M Sim (option Violation) :=
  na <- getNode a ;;
  nb <- getNode b ;;
  let lo := N.max (MemoryStorage_FirstIndex (storage na)) (MemoryStorage_FirstIndex (storage nb)) in
  checkAll (indexes lo upto) (compareAt a b).

(** [for i := limit; i >= 1; i--] *)
Fixpoint matchDown (a b : NodeID) (i : nat) : M Sim (option Violation) :=
  match i with
  | O => ret None
  | Datatypes.S i' =>
      na <- getNode a ;;
      nb <- getNode b ;;
      ta <- try (reads (λ _, MemoryStorage_Term (N.of_nat i) (storage na))) ;;
      tb <- try (reads (λ _, MemoryStorage_Term (N.of_nat i) (storage nb))) ;;
      match ta, tb with
      | inl ta, inl tb => if negb (ta =? tb)%N then matchDown a b i' else compareBelow a b (N.of_nat i)
      | _, _ => ret None
      end
  end.

(** All pairs [a], [b] with [a] before [b]. *)
Fixpoint pairs (ids : list NodeID) : list (NodeID * NodeID) :=
  match ids with
  | [] => []
  | a :: ids' => ((λ b, (a, b)) <$> ids') ++ pairs ids'
  end.

Definition checkLogMatching : M Sim (option Violation) :=
  s <- get ;;
  checkAll (pairs (s_ids s)) (λ ab,
    let '(a, b) := (ab : NodeID * NodeID) in
    na <- getNode a ;;
    nb <- getNode b ;;
    if crashed na || crashed nb then ret None
    else
      let limit := N.min (MemoryStorage_LastIndex (storage na)) (MemoryStorage_LastIndex (storage nb)) in
      matchDown a b (N.to_nat limit)).

(** [byIndex]: of the entries applied at one index the last. *)
Definition byIndex (applied : list LogEntry) : gmap Index LogEntry :=
  foldl (λ m e, <[e_Index e := e]> m) ∅ applied.

Definition checkStateMachinesAgree : M Sim (option Violation) :=
  s <- get ;;
  checkAll (pairs (s_ids s)) (λ ab,
    let '(a, b) := (ab : NodeID * NodeID) in
    na <- getNode a ;;
    nb <- getNode b ;;
    checkAll (n_applied nb) (λ eb,
      match byIndex (n_applied na) !! e_Index eb with
      | None => ret None
      | Some ea =>
          if negb (e_Term ea =? e_Term eb)%N ||
             negb (bool_decide (Sum256 (e_Command ea) = Sum256 (e_Command eb)))
          then report_violation PropStateMachineSafety else ret None
      end)).

Definition Final : M Sim (option Violation) := unless checkLogMatching checkStateMachinesAgree.

(** ** Running *)

Record Report := mkReport {
  rp_Seed : Z;
  rp_Violation : option Violation;
  rp_Events : Z;
  rp_TraceHash : N;
  rp_VirtualTime : Z;
  rp_Committed : Z;
  rp_LeaderTerms : Z;
  rp_Crashes : Z;
  rp_Restarts : Z;
  rp_Stats : simStats
}.

Definition report (v : option Violation) (s : Sim) : Report :=
  let total (f : simNode R → Z) :=
    foldl (λ acc id, acc + match s_nodes s !! id with Some n => f n | None => 0 end)%Z 0%Z (s_ids s) in
  mkReport (sc_Seed (s_cfg s)) v (t_events (s_trace s)) (t_hash (s_trace s)) (s_now s)
    (CommittedCount (s_checker s)) (LeaderTerms (s_checker s))
    (total n_crashes) (total n_restarts) (s_stats s).

(** [Report.OK] *)
Definition OK (r : Report) : bool := match rp_Violation r with None => true | Some _ => false end.

Definition newNode (id : NodeID) : simNode R :=
  mkSimNode id (Down NewMemoryStorage) false 0 0 0 [].

(** [New]: [seeded] is [rand.New(rand.NewSource(seed))]. *)
Definition New (seeded : Z → R) (cfg : simConfig) : outcome Sim :=
  let cfg := sim_withDefaults cfg in
  if (sc_Nodes cfg <? 1)%Z then Fail (Errorf "sim: need at least one node" [])
  else
    let ids := slices_Sort (N.of_nat <$> seq 1 (Z.to_nat (sc_Nodes cfg))) in
    let nodes := list_to_map ((λ id, (id, newNode id)) <$> ids) in
    let s := mkSimulator cfg (seeded (sc_Seed cfg)) 0 newEventQueue ids nodes (NewConfiguration ids [])
               None (NewChecker (sc_Seed cfg)) (newTrace (sc_Verbose cfg)) 0 (mkStats 0 0 0 0 0 0 0) in
    match forEach ids sim_start s with
    | (Ret _, s') => Ret s'
    | (Fail e, _) => Fail e
    | (Panic p, _) => Panic p
    | (OutOfFuel, _) => OutOfFuel
    end.

(** The body of the event loop: [None] ends the loop. *)
Definition step : M Sim (option (option Violation)) :=
  ev <- zoom s_queue set_queue q_pop ;;
  s <- get ;;
  match ev with
  | None => ret None
  | Some ev =>
      if (sc_Duration (s_cfg s) <? ev_at ev)%Z then ret None
      else
        modify (set_now (ev_at ev)) ;;;
        apply_event ev ;;;
        v <- Observe ;; ret (Some v)
  end.

Fixpoint loop (fuel : nat) : M Sim (option Violation) :=
  match fuel with
  | O => outOfFuel
  | Datatypes.S k =>
      r <- step ;;
      match r with
      | None => ret None
      | Some (Some v) => ret (Some v)
      | Some None => loop k
      end
  end.

(** The events [Run] schedules before the loop. *)
Definition opening : M Sim unit :=
  s <- get ;;
  forEach (s_ids s) (λ id,
    d <- draw_Intn (sc_TickInterval (s_cfg s)) ;;
    schedule (happening (int_add d 1) evTick id false)) ;;;
  schedule (happening (FaultInterval (sc_Faults (s_cfg s))) evPartition None_ false) ;;;
  if (0 <? sc_WriteInterval (s_cfg s))%Z
  then schedule (happening (sc_WriteInterval (s_cfg s)) evClientWrite None_ false) else ret tt.

Definition Run (fuel : nat) : M Sim Report :=
  opening ;;;
  v <- loop fuel ;;
  v <- (match v with Some _ => ret v | None => Final end) ;;
  gets (report v).
End sim.

(** ** The image of the state machine *)

(** The count in the header alone decides about the allocation. *)
Lemma decodeStateMachine_loop_total fuel count b out :
  (length b < fuel)%nat →
  (∃ l, decodeStateMachine_loop fuel count b out = Ret l) ∨
  ∃ e, decodeStateMachine_loop fuel count b out = Fail e.
Proof.
  revert count b out. induction fuel as [|fuel IH]; intros count b out Hf; [lia|].
  cbn [decodeStateMachine_loop]. case_match; [eauto|].
  destruct (readUvarint_total "truncated entry index" b) as [(i & b1 & E1)|[e ->]]; [rewrite E1|]; cbn; [|eauto].
  destruct (readUvarint_total "truncated entry term" b1) as [(t & b2 & E2)|[e ->]]; [rewrite E2|]; cbn; [|eauto].
  destruct (readUvarint_total "truncated entry command" b2) as [(z & b3 & E3)|[e ->]]; [rewrite E3|]; cbn; [|eauto].
  case_match; [eauto|]. apply readUvarint_consumes in E1, E2, E3. apply IH. rewrite length_drop. lia.
Qed.

Lemma decodeStateMachine_total b :
  match decodeStateMachine b with
  | Panic p => p = "makeslice: cap out of range"%string
  | OutOfFuel => False
  | _ => True
  end.
Proof.
  unfold decodeStateMachine. destruct (readUvarint_total "truncated snapshot header" b)
    as [(n & rest & ->)|[e ->]]; cbn [obind]; [|done]. destruct (maxEntryCap <? n)%N; [done|].
  by destruct (decodeStateMachine_loop_total (S (length rest)) n rest [] ltac:(lia)) as [[l ->]|[e ->]].
Qed.

Definition image_entry (e : LogEntry) : bytes :=
  uvarint_bytes MaxVarintLen64 (e_Index e) ++ uvarint_bytes MaxVarintLen64 (e_Term e) ++
  uvarint_bytes MaxVarintLen64 (N.of_nat (length (e_Command e))) ++ e_Command e.

Lemma stateMachineImage_concat l :
  stateMachineImage l =
  uvarint_bytes MaxVarintLen64 (N.of_nat (length l)) ++ concat (image_entry <$> l).
Proof.
  unfold stateMachineImage.
  change (AppendUvarint [] ?x) with (uvarint_bytes MaxVarintLen64 x).
  generalize (uvarint_bytes MaxVarintLen64 (N.of_nat (length l))) as buf. induction l as [|e l IH]; intros buf.
  { cbn. by rewrite app_nil_r. }
  cbn [foldl fmap list_fmap concat]. rewrite IH. unfold AppendUvarint, image_entry. by rewrite <- !app_assoc.
Qed.

(** An entry as the image keeps it: the type is not written. *)
Definition as_normal (e : LogEntry) : LogEntry := mkEntry (e_Term e) (e_Index e) EntryNormal (e_Command e).

Definition entry_fits (e : LogEntry) : Prop :=
  (e_Index e < W64)%N ∧ (e_Term e < W64)%N ∧ (N.of_nat (length (e_Command e)) < W64)%N.

Lemma decodeStateMachine_loop_image fuel l out :
  (length (concat (image_entry <$> l)) < fuel)%nat → Forall entry_fits l →
  decodeStateMachine_loop fuel (N.of_nat (length l)) (concat (image_entry <$> l)) out = Ret (out ++ (as_normal <$> l)).
Proof.
  revert l out. induction fuel as [|fuel IH]; intros l out Hf Hl; [lia|].
  destruct l as [|e l]; [cbn; by rewrite app_nil_r|]. apply Forall_cons in Hl as [(Hi & Ht & Hc) Hl].
  cbn [decodeStateMachine_loop]. rewrite (proj2 (N.eqb_neq _ _)) by (cbn [length]; lia).
  cbn [fmap list_fmap concat] in *. unfold image_entry at 1. rewrite <- !app_assoc.
  rewrite readUvarint_bytes by done. cbn [obind].
  rewrite readUvarint_bytes by done. cbn [obind].
  rewrite readUvarint_bytes by done. cbn [obind].
  rewrite length_app, (proj2 (N.ltb_ge _ _)) by lia.
  rewrite Nat2N.id, take_app_length, drop_app_length.
  replace (N.of_nat (length (e :: l)) - 1)%N with (N.of_nat (length l)) by (cbn [length]; lia).
  rewrite IH; [by rewrite <- app_assoc| |done].
  rewrite length_app in Hf. unfold image_entry in Hf at 1. rewrite !length_app in Hf.
  pose proof (length_uvarint_pos (e_Index e)). fold (@fmap list _ _ _ image_entry l) in Hf |- *. lia.
Qed.

(** A restored node has the history of the node whose image it took.  Whatever commands
    were applied, at 64-bit indexes and terms and in a number that fits in memory,
    decoding their image gives them back in order. *)
Theorem decode_image l :
  Forall entry_fits l → (N.of_nat (length l) ≤ maxEntryCap)%N →
  decodeStateMachine (stateMachineImage l) = Ret (as_normal <$> l).
Proof.
  intros Hl Hn. unfold decodeStateMachine. rewrite stateMachineImage_concat.
  rewrite readUvarint_bytes by (unfold maxEntryCap, W64 in *; lia). cbn [obind].
  rewrite (proj2 (N.ltb_ge _ _)) by done. by apply decodeStateMachine_loop_image; [lia|].
Qed.

Lemma decode_image_witness :
  decodeStateMachine (stateMachineImage [mkEntry 3 300 EntryNoOp []; mkEntry 3 301 EntryNormal [Byte.x77; Byte.x31]]) =
  Ret [mkEntry 3 300 EntryNormal []; mkEntry 3 301 EntryNormal [Byte.x77; Byte.x31]].
Proof. apply decode_image; [repeat constructor|]; by vm_compute. Defined.

(** An image that was taken is decoded or found to be corrupt, never allocated for in vain;
    what it gives fits in memory. *)
Definition pictured (b : bytes) : Prop :=
  b = [] ∨ ∃ l, b = stateMachineImage l ∧ (N.of_nat (length l) ≤ maxEntryCap)%N.

Lemma decodeStateMachine_loop_length fuel count b out l :
  decodeStateMachine_loop fuel count b out = Ret l → N.of_nat (length l) = (N.of_nat (length out) + count)%N.
Proof.
  revert count b out. induction fuel as [|fuel IH]; intros count b out; cbn [decodeStateMachine_loop];
    destruct (N.eqb_spec count 0) as [->|]; [intros [= <-]; lia|done|intros [= <-]; lia|].
  destruct (readUvarint _ b) as [[i b1]| | |]; cbn [obind]; try done.
  destruct (readUvarint _ b1) as [[t b2]| | |]; cbn [obind]; try done.
  destruct (readUvarint _ b2) as [[z b3]| | |]; cbn [obind]; try done.
  case_match; [done|]. intros ->%IH. rewrite length_app. cbn [length]. lia.
Qed.

Lemma decode_fits b l : decodeStateMachine b = Ret l → (N.of_nat (length l) ≤ maxEntryCap)%N.
Proof.
  unfold decodeStateMachine. destruct (readUvarint _ b) as [[n rest]| | |]; cbn [obind]; try done.
  destruct (N.ltb_spec maxEntryCap n); [done|]. intros ->%decodeStateMachine_loop_length. cbn. lia.
Qed.

Lemma decode_pictured b :
  pictured b → match decodeStateMachine b with Ret _ | Fail _ => True | _ => False end.
Proof.
  intros [->|(l & -> & Hl)]; [done|]. unfold decodeStateMachine. rewrite stateMachineImage_concat.
  rewrite readUvarint_bytes by (unfold maxEntryCap, W64 in *; lia). cbn [obind].
  rewrite (proj2 (N.ltb_ge _ _)) by done.
  destruct (decodeStateMachine_loop_total (S (length (concat (image_entry <$> l)))) (N.of_nat (length l))
    (concat (image_entry <$> l)) [] ltac:(lia)) as [[x ->]|[x ->]]; done.
Qed.

(** A corrupt count makes the decoder panic, where every other corruption is reported. *)
Lemma decode_corrupt_count_panics :
  decodeStateMachine (uvarint_bytes MaxVarintLen64 18446744073709551615) = Panic "makeslice: cap out of range".
Proof. by vm_compute. Qed.
