(* ===== verification/SimSafety.v ===== *)
(** * What a simulation run can do

    The simulator of Sim.v is one more driver of the cluster of Cluster.v: every call it
    makes on a node is a step there, every message it delivers was sent there, and what
    its faults do (losing, delaying, duplicating, reordering, crashing) the cluster
    allows.  So what is proved of every cluster holds in every simulation.  With a fixed
    membership the run also carries the history of StateMachineSafety.v along ([world]),
    which the state machines and their snapshots are shown to agree with ([tale]).

    [moves] is what an event does, seen from the cluster; [ewp] the calculus for the
    simulator's methods.  The methods may report an error, and one panic is left to them
    ([tolerated]): that of a state machine which outgrows the address space.  Messages go
    to simulated nodes, and the images in snapshots are those of state machines, which
    [ImagesVetted] ties to what [Vetting] follows. *)

From S2P Require Import Prelude Varint GoMaps Types Config Storage RaftLog RawNode Membership NodeSafety.
From S2P Require Import Votes Cluster ElectionSafety ClusterSafety LogHistory LogSteps LogCalls StateMachineSafety EventQueue Sim.
From stdpp Require Import pretty.
From Stdlib Require QArith_base.

(** ** What a run needs of its configuration *)

Definition small (z : Z) : Prop := (-1152921504606846976 < z < 1152921504606846976)%Z.

(** Every interval and delay is positive, so that no event schedules another for its own
    instant, and of a size that virtual time cannot overflow; no restart loses its disk.
    The delays of faults that are switched off do not matter. *)
Definition cfg_ok (c : simConfig) : Prop :=
  let f := sc_Faults c in
  Forall small [sc_Duration c; sc_TickInterval c; sc_WriteInterval c; FaultInterval f; MinLatency f;
                MaxLatency f; ReorderMax f; PartitionMin f; PartitionMax f; RestartMin f; RestartMax f] ∧
  Forall (λ z, (0 < z)%Z) [sc_TickInterval c; FaultInterval f; MinLatency f] ∧
  ((0 < QArith_base.Qnum (PartitionRate f))%Z → (0 < PartitionMin f)%Z) ∧
  ((0 < QArith_base.Qnum (CrashRate f))%Z → (0 < RestartMin f)%Z) ∧
  (QArith_base.Qnum (DiskLossRate f) ≤ 0)%Z.

Definition tolerated (p : string) : Prop := p = "growslice: len out of range"%string.

(** What is followed of the data in snapshots: it is the image of a state machine. *)
Class ImagesVetted `{HVet : Vetting} : Prop := images_vetted b : imaged b ↔ pictured b.

(** ** What the state machines hold *)

(** The entry is, but for its type, the one the history [H] has at its index. *)
Definition historical C H (e : LogEntry) : Prop :=
  entry_fits e ∧ (0 < e_Index e)%N ∧
  ∃ t L e0, sealed C H t (N.to_nat (e_Index e)) L ∧ L !! N.to_nat (e_Index e - 1) = Some e0 ∧
    e_Term e0 = e_Term e ∧ e_Command e0 = e_Command e.

(** A snapshot holds a state machine's entries. *)
Definition image_ok C H (snap : Snapshot) : Prop :=
  ∀ ents, decodeStateMachine (snap_Data snap) = Ret ents →
    Forall (historical C H) ents ∧ (N.of_nat (length ents) ≤ snap_LastIncludedIndex snap)%N.

Lemma historical_grown C H H' e : historical C H e → grown H H' → historical C H' e.
Proof.
  intros (Hf & Hp & t & L & e0 & Hs & Hrest) Hl. split_and!; [done..|]. exists t, L, e0. split; [|done].
  by eapply sealed_grown.
Qed.

Lemma historical_agree C H e e' :
  good C H → historical C H e → historical C H e' → e_Index e = e_Index e' →
  e_Term e = e_Term e' ∧ e_Command e = e_Command e'.
Proof.
  intros Hg (_ & Hp & t & L & e0 & Hs & HL & <- & <-) (_ & _ & t' & L' & e1 & Hs' & HL' & <- & <-) Ei.
  rewrite <- Ei in *. pose proof (sealed_agree C H Hg _ _ _ _ _ _ (N.to_nat (e_Index e)) Hs Hs' ltac:(done) ltac:(done)) as E.
  rewrite (take_eq_lookup _ _ _ _ E) in HL by lia. by simplify_eq.
Qed.

Lemma image_ok_grown C H H' snap : image_ok C H snap → grown H H' → image_ok C H' snap.
Proof.
  intros Hi Hl ents He. destruct (Hi ents He) as [Hh Hn]. split; [|done].
  eapply Forall_impl; [exact Hh|]. intros e. intros ?. by eapply historical_grown.
Qed.

Lemma grown_snaps H H' snap : grown H H' → snap ∈ ch_snaps H → snap ∈ ch_snaps H'.
Proof.
  intros Hl. induction Hl as [|H1 H2 H3 [[j He]|[x ->]] _ IH]; [done|..]; intros Hin; apply IH.
  - by rewrite (ex_snaps _ _ _ He).
  - by apply elem_of_cons; right.
Qed.

Lemma image_taken C H l snap :
  Forall (historical C H) l → (N.of_nat (length l) ≤ snap_LastIncludedIndex snap < W64)%N →
  snap_Data snap = stateMachineImage l → image_ok C H snap.
Proof.
  intros Hl Hn Ed ents. rewrite Ed. destruct (decide (N.of_nat (length l) ≤ maxEntryCap)%N) as [Hcap|Hcap].
  - rewrite decode_image; [|by eapply Forall_impl; [exact Hl|]; intros e [? _]|done]. intros [= <-].
    rewrite length_fmap. split; [|lia]. apply Forall_fmap. eapply Forall_impl; [exact Hl|]. by intros e.
  - unfold decodeStateMachine. rewrite stateMachineImage_concat, readUvarint_bytes by lia. cbn [obind].
    by rewrite (proj2 (N.ltb_lt _ _)) by lia.
Qed.

(** The commands the simulator writes are short. *)
Lemma pretty_N_go_length k x s :
  (x < 10 ^ N.of_nat k)%N → (String.length (pretty_N_go x s) ≤ k + String.length s)%nat.
Proof.
  revert x s. induction k as [|k IH]; intros x s Hx.
  { assert (x = 0)%N as -> by (cbn in Hx; lia). by rewrite pretty_N_go_0. }
  destruct (decide (x = 0)%N) as [->|]; [rewrite pretty_N_go_0; lia|].
  rewrite pretty_N_go_step by lia. etrans; [apply IH|cbn; lia].
  apply N.Div0.div_lt_upper_bound. rewrite Nat2N.inj_succ, N.pow_succ_r' in Hx. lia.
Qed.

Lemma writeCommand_short z : (N.of_nat (length (writeCommand (int_wrap z))) < W64)%N.
Proof.
  assert (∀ x, (x < 100000000000000000000)%N → (String.length (pretty x) ≤ 20)%nat) as HN.
  { intros x Hx. unfold pretty, pretty_N. case_decide; [cbn; lia|].
    pose proof (pretty_N_go_length 20 x "" Hx). cbn in *. lia. }
  assert (String.length (pretty (int_wrap z)) ≤ 21)%nat as Hz.
  { pose proof (Z.mod_pos_bound (z + 9223372036854775808) 18446744073709551616 ltac:(lia)) as Hb.
    unfold int_wrap. set (w := (_ - _)%Z). assert (-100000000000000000000 < w < 100000000000000000000)%Z as Hw by (unfold w; lia).
    clearbody w. destruct w as [|p|p]; unfold pretty, pretty_Z; [cbn; lia|..].
    - pose proof (HN (Npos p) ltac:(lia)). unfold pretty, pretty_positive. lia.
    - pose proof (HN (Npos p) ltac:(lia)). change (S (String.length (pretty (Npos p))) ≤ 21)%nat. lia. }
  assert (∀ t, length (String.list_byte_of_string t) = String.length t) as HL.
  { unfold String.list_byte_of_string. induction t; cbn in *; congruence. }
  unfold writeCommand. rewrite HL. change (N.of_nat (S (String.length (pretty (int_wrap z)))) < W64)%N. unfold W64. lia.
Qed.

(** The cluster at some moment, with its history so far. *)
Record world (R : Type) := mkWorld { w_now :> cluster MemoryStorage R; w_past : chronicle }.
Arguments mkWorld {R}.
Arguments w_now {R}.
Arguments w_past {R}.

Section sim_safety.
Context {R : Type} `{HSrc : Source R} `{HLaws : !SourceLaws R} `{HFmt : Fmt} `{HSha : Sha256}.
Context `{HMap : MapRange} `{HVet : Vetting} `{HImg : !ImagesVetted}.
Local Abbreviation Sim := (Simulator R).
Local Abbreviation RN := (RawNode MemoryStorage R).
Implicit Types (s : Sim) (c : world R) (n : simNode R).

(** ** The invariant *)

(** An event of the queue can be carried out. *)
Definition fit c s e : Prop :=
  match ev_kind e with
  | evDeliver => ev_msg e ∈ cl_soup c
  | evTick => is_Some (s_nodes s !! ev_node e)
  | evCrash => is_Some (s_nodes s !! ev_node e) ∧ (0 < RestartMin (sc_Faults (s_cfg s)))%Z
  | evRestart => is_Some (s_nodes s !! ev_node e) ∧ ev_loseDisk e = false
  | evClientWrite => (0 < sc_WriteInterval (s_cfg s))%Z
  | evPartition | evHeal => True
  end.

(** The voters a membership change may ask for next can be asked for. *)
Definition asks_ok (ids : list NodeID) : Prop :=
  ∀ current voters, conf_ok current → (∀ v, v ∈ voters → v ∈ Voters current ∨ v ∈ ids) →
    target_ok (NewConfiguration voters []).

(** The membership is fixed. *)
Definition settled s : Prop :=
  IsJoint (s_conf s) = false ∧ (QArith_base.Qnum (MembershipRate (sc_Faults (s_cfg s))) ≤ 0)%Z.

(** What a node applied is history; it holds no more entries than it applied. *)
Definition told C H n : Prop :=
  Forall (historical C H) (n_applied n) ∧
  match n_st n with
  | Up r => (N.of_nat (length (n_applied n)) ≤ AppliedIndex r)%N
  | Down _ => n_applied n = []
  end.

(** The run so far fits its history, and so do the state machines and their snapshots. *)
Definition tale c s : Prop :=
  chronicled (s_conf s) (w_past c) c ∧
  (∀ id n, s_nodes s !! id = Some n → told (s_conf s) (w_past c) n) ∧
  (∀ snap, snap ∈ ch_snaps (w_past c) → image_ok (s_conf s) (w_past c) snap).

Definition applied_fits n : Prop := (N.of_nat (length (n_applied n)) ≤ maxEntryCap)%N.

(** The nodes are those of the cluster [c], and those that messages may name; with a fixed
    membership the past is known. *)
Definition sim_ok c s : Prop :=
  cluster_ok c ∧ cl_nodes c = n_st <$> s_nodes s ∧
  heap_ok (s_queue s) ∧
  (∀ e, e ∈ q_items (s_queue s) → fit c s e) ∧
  (∀ id n, s_nodes s !! id = Some n → n_id n = id ∧ applied_fits n) ∧
  ((∀ id, id ∈ s_ids s → is_Some (s_nodes s !! id)) ∧ (∀ id, known id ↔ is_Some (s_nodes s !! id))) ∧
  s_ids s ≠ [] ∧ NoDup (s_ids s) ∧
  cfg_ok (s_cfg s) ∧ conf_ok (s_conf s) ∧ (0 ≤ s_now s)%Z ∧ small (s_now s) ∧
  ((0 < QArith_base.Qnum (MembershipRate (sc_Faults (s_cfg s))))%Z → asks_ok (s_ids s)) ∧
  (settled s → tale c s).

(** What an event leaves alone. *)
Definition frame s s' : Prop :=
  s_cfg s' = s_cfg s ∧ s_ids s' = s_ids s ∧ s_conf s' = s_conf s ∧ s_now s' = s_now s ∧
  s_checker s' = s_checker s.

(** A node that is up has been up and its commit index did not fall, or it is marked as
    restarted. *)
Definition node_step n n' : Prop :=
  ∀ r', n_st n' = Up r' →
    n_restartedSinceCheck n' = true ∨
    (n_restartedSinceCheck n' = n_restartedSinceCheck n ∧
     ∃ r, n_st n = Up r ∧ (CommitIndex r ≤ CommitIndex r')%N).

(** The simulator went from [s] to [s'] while the cluster went from [c] to [c'].  Every
    event scheduled on the way is due later than now. *)
Definition moves c s c' s' : Prop :=
  (rtc cstep c c' ∧ grown (w_past c) (w_past c')) ∧ sim_ok c' s' ∧ frame s s' ∧
  (∃ new, q_items (s_queue s') ≡ₚ new ++ q_items (s_queue s) ∧ Forall (λ e, (s_now s < ev_at e)%Z) new) ∧
  (∀ id, option_Forall2 node_step (s_nodes s !! id) (s_nodes s' !! id)).

Definition ewp {A} (m : M Sim A) (Q : A → world R → Sim → Prop) c s : Prop :=
  match m s with
  | (Ret a, s') => ∃ c', moves c s c' s' ∧ Q a c' s'
  | (Fail _, _) => True
  | (Panic p, _) => tolerated p
  | (OutOfFuel, _) => False
  end.

Lemma node_step_refl n : node_step n n.
Proof. intros r Hr. right. split; [done|]. by exists r. Qed.

Lemma node_step_trans n1 n2 n3 : node_step n1 n2 → node_step n2 n3 → node_step n1 n3.
Proof.
  intros H12 H23 r3 H3. destruct (H23 r3 H3) as [|(E3 & r2 & H2 & Hc)]; [by left|].
  destruct (H12 r2 H2) as [|(E2 & r1 & H1 & Hc')]; [left; congruence|].
  right. split; [congruence|]. exists r1. split; [done|lia].
Qed.

Lemma frame_trans s1 s2 s3 : frame s1 s2 → frame s2 s3 → frame s1 s3.
Proof. unfold frame. intuition congruence. Qed.

Lemma sim_moves_refl c s : sim_ok c s → moves c s c s.
Proof.
  intros Hs. split_and!; [apply rtc_refl|apply rtc_refl|done|done|by exists []|].
  intros id. destruct (s_nodes s !! id); constructor. apply node_step_refl.
Qed.

Lemma sim_moves_trans c1 s1 c2 s2 c3 s3 :
  moves c1 s1 c2 s2 → moves c2 s2 c3 s3 → moves c1 s1 c3 s3.
Proof.
  intros ([Hr Hg] & _ & Hf & (new & HP & Hnew) & Hn) ([Hr' Hg'] & Hs & Hf' & (new' & HP' & Hnew') & Hn').
  split_and!; [by etrans|by etrans|done|by eapply frame_trans| |].
  - exists (new' ++ new). split; [by rewrite HP', HP, app_assoc|]. apply Forall_app. split; [|done].
    destruct Hf as (_ & _ & _ & E & _). by rewrite E in Hnew'.
  - intros id. specialize (Hn id). specialize (Hn' id). inversion Hn as [n1 n2 H12 E1 E2|E1 E2];
      rewrite <- E2 in Hn'; inversion Hn' as [? n3 H23 E3 E4|E3 E4]; constructor.
    by eapply node_step_trans.
Qed.

Lemma sim_moves_ok c s c' s' : moves c s c' s' → sim_ok c' s'.
Proof. by intros (_ & ? & _). Qed.

(** ** The calculus *)

Lemma ewp_ret {A} (a : A) (Q : A → world R → Sim → Prop) c s : sim_ok c s → Q a c s → ewp (ret a) Q c s.
Proof. intros Hs HQ. exists c. split; [by apply sim_moves_refl|done]. Qed.

Lemma ewp_get (Q : Sim → world R → Sim → Prop) c s : sim_ok c s → Q s c s → ewp get Q c s.
Proof. intros Hs HQ. exists c. split; [by apply sim_moves_refl|done]. Qed.

Lemma ewp_fail {A} err (Q : A → world R → Sim → Prop) c s : ewp (fail err) Q c s.
Proof. done. Qed.

Lemma ewp_bind {A B} (m : M Sim A) (f : A → M Sim B) Q c s :
  ewp m (λ a c' s', ewp (f a) Q c' s') c s → ewp (bind m f) Q c s.
Proof.
  unfold ewp, bind. destruct (m s) as [[a| | |] s1]; [|done..]. intros (c1 & H1 & H2).
  destruct (f a s1) as [[b| | |] s2]; [|done..]. destruct H2 as (c2 & H2 & HQ).
  exists c2. split; [by eapply sim_moves_trans|done].
Qed.

Lemma ewp_mono {A} (m : M Sim A) (Q Q' : A → world R → Sim → Prop) c s :
  ewp m Q c s → (∀ a c' s', moves c s c' s' → Q a c' s' → Q' a c' s') → ewp m Q' c s.
Proof.
  unfold ewp. destruct (m s) as [[a| | |] s1]; [|done..]. intros (c1 & H1 & H2) HQ. eauto.
Qed.

Lemma ewp_wrapErr {A} msg (m : M Sim A) Q c s : ewp m Q c s → ewp (wrapErr msg m) Q c s.
Proof. unfold ewp, wrapErr. by destruct (m s) as [[]]. Qed.

(** *** Steps the cluster does not see *)

(** The same simulator but for its source, trace, statistics and the like. *)
Definition inert s s' : Prop :=
  frame s s' ∧ s_nodes s' = s_nodes s ∧ s_queue s' = s_queue s.

(** The same, with more events to come. *)
Definition keeps_nodes s s' : Prop := frame s s' ∧ s_nodes s' = s_nodes s.

Lemma keeps_nodes_refl s : keeps_nodes s s.
Proof. done. Qed.

Lemma keeps_nodes_trans s1 s2 s3 : keeps_nodes s1 s2 → keeps_nodes s2 s3 → keeps_nodes s1 s3.
Proof. intros [F1 E1] [F2 E2]. split; [by eapply frame_trans|congruence]. Qed.

Lemma inert_keeps s s' : inert s s' → keeps_nodes s s'.
Proof. by intros (? & ? & _). Qed.

Lemma inert_moves c s s' : sim_ok c s → inert s s' → moves c s c s'.
Proof.
  intros (H1 & H2 & H3 & H4 & H5 & [H6 H6k] & H7 & H8 & H9 & H10 & H11 & H12 & H13 & H14)
    ((Ec & Ei & Ef & En & Ek) & Eno & Eq).
  split_and!; [apply rtc_refl|apply rtc_refl| |done|exists []; by rewrite Eq|].
  - unfold sim_ok, fit, settled, tale. rewrite Ec, Ei, Ef, En, Eno, Eq. by split_and!.
  - intros id. rewrite Eno. destruct (s_nodes s !! id); constructor. apply node_step_refl.
Qed.

Lemma ewp_inert {A} (m : M Sim A) (Q : A → world R → Sim → Prop) c s :
  sim_ok c s →
  wp m (λ a s', inert s s' ∧ (sim_ok c s' → Q a c s')) (λ _ _, True) (λ _, False) s → ewp m Q c s.
Proof.
  intros Hs Hm. unfold wp in Hm. unfold ewp. destruct (m s) as [[a| | |] s']; [|done..].
  destruct Hm as [Hi HQ]. pose proof (inert_moves c s s' Hs Hi) as Hmv.
  exists c. split; [done|]. by eapply HQ, sim_moves_ok.
Qed.

Lemma ewp_modify f (Q : unit → world R → Sim → Prop) c s :
  sim_ok c s → inert s (f s) → (∀ s', keeps_nodes s s' → sim_ok c s' → Q tt c s') →
  ewp (modify f) Q c s.
Proof. intros Hs Hi HQ. apply ewp_inert; [done|]. split; [done|]. by apply HQ, inert_keeps. Qed.

Lemma ewp_record line (Q : unit → world R → Sim → Prop) c s :
  sim_ok c s → (∀ s', keeps_nodes s s' → sim_ok c s' → Q tt c s') → ewp (record line) Q c s.
Proof. intros Hs HQ. by apply ewp_modify. Qed.

Lemma ewp_bump f (Q : unit → world R → Sim → Prop) c s :
  sim_ok c s → (∀ s', keeps_nodes s s' → sim_ok c s' → Q tt c s') → ewp (bump f) Q c s.
Proof. intros Hs HQ. by apply ewp_modify. Qed.

Lemma ewp_draw_Intn k (Q : Z → world R → Sim → Prop) c s :
  sim_ok c s → (0 < k)%Z → (∀ z s', (0 ≤ z < k)%Z → keeps_nodes s s' → sim_ok c s' → Q z c s') →
  ewp (draw_Intn k) Q c s.
Proof.
  intros Hs Hk HQ. apply ewp_inert; [done|]. unfold draw_Intn. apply wp_bind, wp_get.
  rewrite (proj2 (Z.leb_gt _ _)) by done. pose proof (Intn_range k (s_rng s) Hk).
  destruct (Intn k (s_rng s)) as [z g]. wp_go. split; [done|by apply HQ].
Qed.

Lemma ewp_chance q (Q : bool → world R → Sim → Prop) c s :
  sim_ok c s →
  (∀ b s', (b = true → (0 < QArith_base.Qnum q)%Z) → keeps_nodes s s' → sim_ok c s' → Q b c s') →
  ewp (chance q) Q c s.
Proof.
  intros Hs HQ. apply ewp_inert; [done|]. unfold chance, draw_Float64. wp_go.
  pose proof (Float64_range (s_rng s)) as [Hlo _]. destruct (src_Float64 (s_rng s)) as [d g]. cbn in Hlo.
  wp_go. split; [done|]. apply HQ; [|done]. unfold below. rewrite Z.ltb_lt. intros Hlt. nia.
Qed.

Lemma ewp_randRange k (Q : Z → world R → Sim → Prop) c s :
  sim_ok c s → (k < 2305843009213693952)%Z →
  (∀ z s', (0 ≤ z ≤ Z.max 0 k)%Z → keeps_nodes s s' → sim_ok c s' → Q z c s') →
  ewp (randRange k) Q c s.
Proof.
  intros Hs Hk HQ. apply ewp_inert; [done|]. unfold randRange.
  destruct (Z.leb_spec k 0) as [Hle|Hgt].
  { apply wp_ret. split; [done|]. apply HQ; [lia|done]. }
  unfold int_add. rewrite int_wrap_small by lia. wp_go.
  rewrite (proj2 (Z.leb_gt _ _)) by lia. pose proof (Int63n_range (k + 1) (s_rng s)) as Hr.
  destruct (src_Int63n (k + 1) (s_rng s)) as [z g]. cbn in Hr. wp_go. split; [done|]. apply HQ; [lia|done].
Qed.

(** *** Scheduling *)

Lemma ewp_schedule ev (Q : unit → world R → Sim → Prop) c s :
  sim_ok c s → (s_now s < ev_at ev)%Z → fit c s ev →
  (∀ s', keeps_nodes s s' → sim_ok c s' → Q tt c s') → ewp (schedule ev) Q c s.
Proof.
  intros Hs Hat Hfit HQ. pose proof Hs as (H1 & H2 & H3 & H4 & Hrest).
  destruct (schedule_heap ev (s_queue s) H3) as (q' & Eq & Hh & HP & _).
  assert (sim_ok c (set_queue q' s)) as Hs'.
  { split_and!; try apply Hs; [exact Hh|]. cbn. intros e. rewrite HP.
    intros [->|He]%elem_of_cons; [exact Hfit|by apply H4]. }
  unfold ewp, schedule, zoom. rewrite Eq. exists c. split; [|by apply HQ].
  split_and!; [apply rtc_refl|apply rtc_refl|done|done| |].
  - exists [stamp (q_next (s_queue s)) ev]. split; [exact HP|by repeat constructor].
  - intros id. cbn. destruct (s_nodes s !! id); constructor. apply node_step_refl.
Qed.

(** *** Replacing one node *)

Lemma tale_node c s c' s' id n' :
  tale c s → grown (w_past c) (w_past c') → chronicled (s_conf s) (w_past c') c' →
  told (s_conf s) (w_past c') n' →
  (∀ snap, snap ∈ ch_snaps (w_past c') → snap ∈ ch_snaps (w_past c) ∨ image_ok (s_conf s) (w_past c') snap) →
  s_conf s' = s_conf s → s_nodes s' = <[id := n']> (s_nodes s) → tale c' s'.
Proof.
  intros (_ & Hn & Hi) Hg Hc' Hn' Hi' Ef Eno. unfold tale. rewrite Ef. split_and!; [done|..].
  - intros j n0. rewrite Eno. intros [[<- <-]|[_ Hj]]%lookup_insert_Some; [done|].
    destruct (Hn j n0 Hj) as [Ha Hl]. split; [|done]. eapply Forall_impl; [exact Ha|].
    intros e ?. by eapply historical_grown.
  - intros snap [Hs|]%Hi'; [|done]. by eapply image_ok_grown; [apply Hi|].
Qed.

Lemma sim_ok_node c s c' s' id n n' :
  sim_ok c s → s_nodes s !! id = Some n →
  cluster_ok c' → cl_nodes c' = <[id := n_st n']> (cl_nodes c) →
  (∀ m, m ∈ cl_soup c → m ∈ cl_soup c') → n_id n' = n_id n → applied_fits n' →
  frame s s' → s_nodes s' = <[id := n']> (s_nodes s) → s_queue s' = s_queue s →
  (settled s → tale c' s') → sim_ok c' s'.
Proof.
  intros (H1 & H2 & H3 & H4 & H5 & [H6 H6k] & H7 & H8 & H9 & H10 & H11 & H12 & H13 & H14) Hn Hc' Ec' Hsoup Eid Hfits
    (Ec & Ei & Ef & En & Ek) Eno Eq Ht.
  assert (∀ i, is_Some (s_nodes s !! i) → is_Some (s_nodes s' !! i)) as Hdom.
  { intros i Hi. rewrite Eno. by apply lookup_insert_is_Some'; right. }
  unfold sim_ok. rewrite Ec, Ei, Ef, En, Eq. split_and!; try done.
  - by rewrite Ec', H2, Eno, fmap_insert.
  - intros e He. specialize (H4 e He). unfold fit in *. rewrite Ec.
    destruct (ev_kind e); auto; destruct H4; auto.
  - intros i n0. rewrite Eno. intros [[<- <-]|[_ ?]]%lookup_insert_Some; [|by apply H5].
    split; [|done]. rewrite Eid. by apply H5.
  - auto.
  - intros i. rewrite Eno, lookup_insert_is_Some', H6k. split; [by right|]. intros [<-|]; [by eexists|done].
  - unfold settled. by rewrite Ec, Ef.
Qed.

Lemma moves_node c s c' s' id n n' :
  s_nodes s !! id = Some n → rtc cstep c c' → grown (w_past c) (w_past c') → sim_ok c' s' → node_step n n' →
  frame s s' → s_nodes s' = <[id := n']> (s_nodes s) → s_queue s' = s_queue s → moves c s c' s'.
Proof.
  intros Hn Hr Hg Hs' Hstep Hf Eno Eq. split_and!; [done..|exists []; by rewrite Eq|].
  intros i. rewrite Eno. destruct (decide (i = id)) as [->|Hne].
  - rewrite Hn, lookup_insert_eq. by constructor.
  - rewrite lookup_insert_ne by done. destruct (s_nodes s !! i); constructor. apply node_step_refl.
Qed.

Lemma alter_insert f id n s :
  s_nodes s !! id = Some n → alter f id (s_nodes s) = <[id := f n]> (s_nodes s).
Proof.
  intros Hn. apply map_eq. intros i. destruct (decide (i = id)) as [->|].
  - by rewrite lookup_alter_eq, lookup_insert_eq, Hn.
  - by rewrite lookup_alter_ne, lookup_insert_ne.
Qed.

(** A change of a node's bookkeeping. *)
Lemma ewp_setNode id f (Q : unit → world R → Sim → Prop) c s n :
  sim_ok c s → s_nodes s !! id = Some n →
  n_st (f n) = n_st n → n_id (f n) = n_id n → n_restartedSinceCheck (f n) = n_restartedSinceCheck n →
  applied_fits (f n) →
  (settled s → tale c s → told (s_conf s) (w_past c) (f n)) →
  (∀ s', s_nodes s' = <[id := f n]> (s_nodes s) → frame s s' → sim_ok c s' → Q tt c s') →
  ewp (setNode id f) Q c s.
Proof.
  intros Hs Hn E1 E2 E3 Hfits Ht HQ. pose proof Hs as (Hc & HN & _). unfold ewp, setNode, modify.
  rewrite (alter_insert f id n s) by done.
  set (s' := set_nodes (<[id := f n]> (s_nodes s)) s).
  assert (sim_ok c s') as Hs'.
  { eapply (sim_ok_node c s c s' id n (f n)); try done.
    - symmetry. apply insert_id. by rewrite HN, lookup_fmap, Hn, E1.
    - intros Hst. assert (tale c s) as HT by (by apply Hs).
      eapply (tale_node c s c); try done; [apply HT|by apply Ht|by left]. }
  assert (moves c s c s') as Hmv.
  { eapply (moves_node c s c s' id n (f n)); try done.
    intros r' Hr'. right. split; [done|]. exists r'. split; [congruence|done]. }
  exists c. split; [done|]. apply HQ; [done|done|by eapply sim_moves_ok].
Qed.

(** ** Calls on a node *)

(** The call [m] of the simulator is the call [o] of the cluster. *)
Definition as_op {A} (o : op) (m : M RN A) : Prop :=
  ∀ r, match m r with
       | (Ret _, r') => exec o r = (Ret tt, r')
       | (Fail e, r') => exec o r = (Fail e, r')
       | (Panic p, r') => exec o r = (Panic p, r')
       | (OutOfFuel, r') => exec o r = (OutOfFuel, r')
       end.

Lemma as_op_discard {A} o (m : M RN A) : exec o = discard m → as_op o m.
Proof. intros E r. rewrite E. unfold discard, bind. by destruct (m r) as [[]]. Qed.

Lemma as_op_exec o (m : M RN unit) : exec o = m → as_op o m.
Proof. intros E r. rewrite E. by destruct (m r) as [[[]| | |]]. Qed.

(** The simulator after a call on node [n] under [id], which left it at [r']. *)
Definition called s id n (r' : RN) : Sim :=
  set_rng (rn_rand r') (set_nodes (<[id := set_n_st (Up r') n]> (s_nodes s)) s).

Lemma called_node id s n r' : s_nodes (called s id n r') !! id = Some (set_n_st (Up r') n).
Proof. apply lookup_insert_eq. Qed.

Lemma node_ok_applied (r : RN) : node_ok r → (AppliedIndex r < W64)%N.
Proof.
  intros (Hl & _). destruct (log_ok_disk _ Hl) as (_ & Hb & _), Hl as (_ & _ & Ha & Hc). unfold AppliedIndex. lia.
Qed.

(** A call that may be made while the membership is fixed. *)
Definition op_told n (o : op) : Prop :=
  match o with
  | OpProposeConfChange _ => False
  | OpPropose cmd => (N.of_nat (length cmd) < W64)%N
  | OpCreateSnapshot data => data = stateMachineImage (n_applied n)
  | _ => True
  end.

#[local] Instance settled_dec s : Decision (settled s).
Proof. apply and_dec; apply _. Qed.

Lemma told_grown C H H' n : told C H n → grown H H' → told C H' n.
Proof.
  intros [Ha Hl] Hg. split; [|done]. eapply Forall_impl; [exact Ha|]. intros e ?. by eapply historical_grown.
Qed.

(** A step of the cluster on node [id], which holds [n'] afterwards. *)
Lemma act_sim_ok a c s (c' : cluster MemoryStorage R) s' id n n' :
  sim_ok c s → s_nodes s !! id = Some n → act_ok a c → perform a c = Some c' →
  cl_nodes c' = <[id := n_st n']> (cl_nodes c) → (∀ m, m ∈ cl_soup c → m ∈ cl_soup c') →
  n_id n' = n_id n → applied_fits n' → frame s s' → s_nodes s' = <[id := n']> (s_nodes s) → s_queue s' = s_queue s →
  (settled s → act_fixed (s_conf s) a) →
  (settled s → tale c s → ∀ H', follows (s_conf s) a c (w_past c) H' → chronicled (s_conf s) H' c' →
     told (s_conf s) H' n') →
  (∀ snap, settled s → tale c s → takes (s_conf s) a c snap → image_ok (s_conf s) (w_past c) snap) →
  ∃ H', grown (w_past c) H' ∧ sim_ok (mkWorld c' H') s'.
Proof.
  intros Hs Hn Ha Hp Ecl Hsoup Eid Hfits F Eno Eq Hfx Hn' Hsn.
  pose proof Hs as (Hc & _ & _ & _ & _ & _ & _ & _ & _ & Hconf & _).
  assert (cluster_ok c') as Hc2 by (by eapply perform_ok).
  assert (∃ H', grown (w_past c) H' ∧ (settled s → tale (mkWorld c' H') s')) as (H' & Hl & HT).
  { destruct (decide (settled s)) as [Hst|Hst].
    2: { exists (w_past c). split; [apply rtc_refl|]. by intros ?. }
    assert (tale c s) as HT by (by apply Hs).
    destruct (perform_chronicled (s_conf s) (proj1 Hst) Hconf a (w_past c) c c' Hc Ha (Hfx Hst) (proj1 HT) Hp)
      as (H' & [Hl Hnew] & Hc'). exists H'. split; [done|]. intros _.
    eapply (tale_node c s (mkWorld c' H')); try done; [by apply Hn'| |apply F].
    intros snap [?|Ht]%Hnew; [by left|right]. by eapply image_ok_grown; [apply Hsn|]. }
  exists H'. split; [done|]. by eapply (sim_ok_node c s (mkWorld c' H')).
Qed.

Lemma act_moves a c s (c' : cluster MemoryStorage R) s' id n n' :
  sim_ok c s → s_nodes s !! id = Some n → act_ok a c → perform a c = Some c' →
  cl_nodes c' = <[id := n_st n']> (cl_nodes c) → (∀ m, m ∈ cl_soup c → m ∈ cl_soup c') →
  n_id n' = n_id n → applied_fits n' → node_step n n' → frame s s' → s_nodes s' = <[id := n']> (s_nodes s) → s_queue s' = s_queue s →
  (settled s → act_fixed (s_conf s) a) →
  (settled s → tale c s → ∀ H', follows (s_conf s) a c (w_past c) H' → chronicled (s_conf s) H' c' →
     told (s_conf s) H' n') →
  (∀ snap, settled s → tale c s → takes (s_conf s) a c snap → image_ok (s_conf s) (w_past c) snap) →
  ∃ H', moves c s (mkWorld c' H') s'.
Proof.
  intros Hs Hn Ha Hp Ecl Hsoup Eid Hfits Hstep F Eno Eq Hfx Hn' Hsn.
  destruct (act_sim_ok a c s c' s' id n n') as (H' & Hl & Hs'); [done..|]. exists H'.
  apply (moves_node c s (mkWorld c' H') s' id n n'); try done. apply rtc_once. by exists a.
Qed.

Lemma sim_ok_cluster c s id n st : sim_ok c s → s_nodes s !! id = Some n → n_st n = st → cl_nodes c !! id = Some st.
Proof. intros (_ & HN & _) Hn Hst. by rewrite HN, lookup_fmap, Hn; cbn; f_equal. Qed.

Lemma sim_ok_fits c s id n : sim_ok c s → s_nodes s !! id = Some n → applied_fits n.
Proof. intros (_ & _ & _ & _ & Hn & _) Hi. by apply Hn in Hi as [_ ?]. Qed.

Lemma sim_ok_known c s id : sim_ok c s → known id ↔ is_Some (s_nodes s !! id).
Proof. intros (_ & _ & _ & _ & _ & [_ Hk] & _). apply Hk. Qed.

(** The source moves before a call is made. *)
Lemma reseed_moves c s id n r :
  sim_ok c s → s_nodes s !! id = Some n → n_st n = Up r →
  let r0 := set_rand (s_rng s) r in
  ∃ H', moves c s (mkWorld (set_node id (Up r0) c) H') (called s id n r0).
Proof.
  intros Hs Hn Hr r0. pose proof (sim_ok_cluster _ _ _ _ _ Hs Hn Hr) as Hcr.
  eapply (act_moves (ActReseed id (s_rng s)) c s _ _ id n (set_n_st (Up r0) n)); try done.
  - cbn. by rewrite Hcr.
  - exact (sim_ok_fits _ _ _ _ Hs Hn).
  - intros r2 [= <-]. right. split; [done|]. by exists r.
  - intros _ (_ & Ht & _) H' [Hg _] _. specialize (Ht id n Hn). pose proof (told_grown _ _ _ _ Ht Hg) as [Ha Hl].
    rewrite Hr in Hl. by split.
  - intros snap _ _ (? & ? & ? & [=] & _).
Qed.

Lemma called_twice s id n n' (r0 r' : RN) :
  called (called s id n r0) id n' r' = called s id n' r'.
Proof. unfold called, set_rng, set_nodes. cbn. by rewrite insert_insert_eq. Qed.

(** A call that the cluster performs too, and which may leave [n'] for [n]. *)
Lemma called_moves {A} o (m : M RN A) c s id n n' r res r' :
  as_op o m → sim_ok c s → s_nodes s !! id = Some n → n_st n = Up r →
  op_ok o r → deliverable o (cl_soup c) = true → (settled s → op_told n o) →
  m (set_rand (s_rng s) r) = (res, r') →
  n_id n' = n_id n → applied_fits n' → n_restartedSinceCheck n' = n_restartedSinceCheck n →
  (settled s → tale c s → (AppliedIndex r ≤ AppliedIndex r')%N → told (s_conf s) (w_past c) (set_n_st (Up r') n')) →
  match res with
  | Ret _ => ∃ c', moves c s c' (called s id n' r')
  | Fail e => tolerates o e = true → ∃ c', moves c s c' (called s id n' r')
  | _ => False
  end.
Proof.
  intros Has Hs Hn Hr Ho Hd Hto Hm Eid Hfits Erst Ht.
  destruct (reseed_moves c s id n r Hs Hn Hr) as (H1 & Hmv1).
  set (r0 := set_rand (s_rng s) r) in *. set (c1 := mkWorld _ H1) in Hmv1. set (s1 := called s id n r0) in *.
  pose proof (sim_moves_ok _ _ _ _ Hmv1) as Hs1.
  assert (cl_nodes c1 !! id = Some (Up r0)) as Hc1r by apply lookup_insert_eq.
  assert (act_ok (ActOp id o) c1) as Hact.
  { intros r1. rewrite Hc1r. intros [= <-]. destruct o; first [exact Ho|exact (proj1 Ho)|by split; [apply Ho|]]. }
  assert (node_ok r) as Hok by apply (proj1 (proj1 Hs) id _ (sim_ok_cluster _ _ _ _ _ Hs Hn Hr)).
  pose proof (exec_steps o r0 Hok Ho) as Hex. specialize (Has r0). rewrite Hm in Has.
  assert (steps r0 r' →
    (∀ c2 : cluster MemoryStorage R, c2 = mkCluster (<[id := Up r']> (cl_nodes c1)) (cl_soup c1) (new_win r0 r' ++ cl_wins c1) →
       perform (ActOp id o) c1 = Some c2 → ∃ c', moves c s c' (called s id n' r'))) as Hmove.
  { intros [(_ & (Hcm & Hap & _) & _) _] c2 Ec2 P2. rewrite <- (called_twice s id n n' r0 r').
    assert (∃ H', moves c1 s1 (mkWorld c2 H') (called s1 id n' r')) as [H2 Hmv2].
    { eapply (act_moves (ActOp id o) c1 s1 c2 _ id (set_n_st (Up r0) n) (set_n_st (Up r') n')); try done.
      - apply called_node.
      - by subst c2.
      - by subst c2.
      - intros r2 [= <-]. right. split; [done|]. by exists r0.
      - intros Hst. specialize (Hto Hst). unfold op_told in Hto. by destruct o.
      - intros Hst _ H' [Hg _] _. assert (tale c s) as HT by (by apply Hs).
        eapply told_grown; [by apply Ht|]. etrans; [apply Hmv1|exact Hg].
      - intros snap Hst (_ & HT & _) (j & data & r2 & [= <- ->] & Hj & Esi & Esd & _). specialize (Hto Hst). cbn in Hto.
        subst data. rewrite Hc1r in Hj. injection Hj as <-. destruct (HT id _ (called_node id s n r0)) as [Ha Hl].
        cbn in Ha, Hl. apply (image_taken _ _ (n_applied n)); [done| |done].
        rewrite Esi. split; [exact Hl|]. by apply node_ok_applied. }
    exists (mkWorld c2 H2). by eapply sim_moves_trans. }
  destruct res as [a|e|p|]; rewrite Has in Hex; try done.
  - eapply (Hmove Hex _ eq_refl). cbn [perform]. rewrite Hc1r.
    change (cl_soup c1) with (cl_soup c). by rewrite Hd, Has.
  - intros Htl. eapply (Hmove Hex _ eq_refl). cbn [perform]. rewrite Hc1r.
    change (cl_soup c1) with (cl_soup c). by rewrite Hd, Has, Htl.
Qed.

(** Applying more keeps what a node holds. *)
Lemma told_called c s id n r r' :
  s_nodes s !! id = Some n → n_st n = Up r →
  settled s → tale c s → (AppliedIndex r ≤ AppliedIndex r')%N → told (s_conf s) (w_past c) (set_n_st (Up r') n).
Proof.
  intros Hn Hr _ (_ & Ht & _) Ha. destruct (Ht id n Hn) as [Hh Hl]. rewrite Hr in Hl. split; [done|]. cbn. lia.
Qed.

(** A call whose error ends the event. *)
Lemma ewp_call {A} o (m : M RN A) (Q : A → world R → Sim → Prop) c s id n r :
  as_op o m → sim_ok c s → s_nodes s !! id = Some n → n_st n = Up r →
  op_ok o r → deliverable o (cl_soup c) = true → (settled s → op_told n o) →
  (∀ a c' r', moves c s c' (called s id n r') → m (set_rand (s_rng s) r) = (Ret a, r') →
     Q a c' (called s id n r')) →
  ewp (on_rn id m) Q c s.
Proof.
  intros Has Hs Hn Hr Ho Hd Hto HQ. unfold ewp, on_rn. rewrite Hn, Hr.
  destruct (m (set_rand (s_rng s) r)) as [res r'] eqn:Hm.
  pose proof (called_moves o m c s id n n r res r' Has Hs Hn Hr Ho Hd Hto Hm eq_refl (sim_ok_fits c s id n Hs Hn) eq_refl
                (told_called c s id n r r' Hn Hr)) as Hcall.
  destruct res; try done. destruct Hcall as [c' Hmv]. exists c'. split; [done|by apply HQ].
Qed.

(** A call whose error the simulator looks at: those the cluster's driver does not
    tolerate end the event. *)
Lemma ewp_try_call {A B} o (m : M RN A) (k : A + error → M Sim B)
    (Q : B → world R → Sim → Prop) c s id n r :
  as_op o m → sim_ok c s → s_nodes s !! id = Some n → n_st n = Up r →
  op_ok o r → deliverable o (cl_soup c) = true → (settled s → op_told n o) →
  (∀ a c' r', moves c s c' (called s id n r') → m (set_rand (s_rng s) r) = (Ret a, r') →
     ewp (k (inl a)) Q c' (called s id n r')) →
  (∀ e c' r', moves c s c' (called s id n r') → tolerates o e = true →
     ewp (k (inr e)) Q c' (called s id n r')) →
  (∀ e s', tolerates o e = false → ∃ err s'', k (inr e) s' = (Fail err, s'')) →
  ewp (bind (try (on_rn id m)) k) Q c s.
Proof.
  intros Has Hs Hn Hr Ho Hd Hto Hret Htol Hfail. unfold ewp, bind, try, on_rn. rewrite Hn, Hr.
  destruct (m (set_rand (s_rng s) r)) as [res r'] eqn:Hm.
  pose proof (called_moves o m c s id n n r res r' Has Hs Hn Hr Ho Hd Hto Hm eq_refl (sim_ok_fits c s id n Hs Hn) eq_refl
                (told_called c s id n r r' Hn Hr)) as Hcall.
  assert (∀ a c', moves c s c' (called s id n r') → ewp (k a) Q c' (called s id n r') →
    match k a (called s id n r') with
    | (Ret a, s') => ∃ c', moves c s c' s' ∧ Q a c' s'
    | (Fail _, _) => True
    | (Panic p, _) => tolerated p
    | (OutOfFuel, _) => False
    end) as Hcont.
  { intros a c' Hmv Hk. unfold ewp in Hk. destruct (k a (called s id n r')) as [[]]; try done.
    destruct Hk as (c2 & Hmv2 & HQ). exists c2. split; [by eapply sim_moves_trans|done]. }
  destruct res as [a|e|p|]; try done.
  - destruct Hcall as [c' Hmv]. eapply Hcont; [done|by apply Hret].
  - destruct (tolerates o e) eqn:Et.
    + destruct (Hcall eq_refl) as [c' Hmv]. eapply Hcont; [done|by apply Htol].
    + destruct (Hfail e (called s id n r') Et) as (err & s'' & E).
      change (set_rng _ _) with (called s id n r'). by rewrite E.
Qed.

Lemma ewp_getNode id n (Q : simNode R → world R → Sim → Prop) c s :
  sim_ok c s → s_nodes s !! id = Some n → Q n c s → ewp (getNode id) Q c s.
Proof. intros Hs Hn HQ. apply ewp_inert; [done|]. unfold getNode. apply wp_reads. by rewrite Hn. Qed.

Lemma ewp_getRN id n r (Q : RN → world R → Sim → Prop) c s :
  sim_ok c s → s_nodes s !! id = Some n → n_st n = Up r → Q r c s → ewp (getRN id) Q c s.
Proof.
  intros Hs Hn Hr HQ. apply ewp_inert; [done|]. unfold getRN, getNode.
  apply wp_bind, wp_reads. rewrite Hn, Hr. by apply wp_ret.
Qed.

Lemma ewp_reads {A} (f : Sim → outcome A) (Q : A → world R → Sim → Prop) c s :
  sim_ok c s →
  match f s with Ret a => Q a c s | Fail _ => True | Panic p => tolerated p | OutOfFuel => False end →
  ewp (reads f) Q c s.
Proof.
  intros Hs Hf. unfold ewp, reads. destruct (f s); try done. exists c. split; [by apply sim_moves_refl|done].
Qed.

(** Draining the outbox sends its messages to the network. *)
Lemma ewp_drain (Q : list Message → world R → Sim → Prop) c s id n r :
  sim_ok c s → s_nodes s !! id = Some n → n_st n = Up r →
  (∀ c', let s' := called s id n (set_msgs [] (set_rand (s_rng s) r)) in
     moves c s c' s' → (∀ m, m ∈ rn_msgs r → m ∈ cl_soup c') → Q (rn_msgs r) c' s') →
  ewp (on_rn id Messages) Q c s.
Proof.
  intros Hs Hn Hr HQ. destruct (reseed_moves c s id n r Hs Hn Hr) as (H1 & Hmv1).
  set (r0 := set_rand (s_rng s) r) in *. set (r' := set_msgs [] r0) in *. set (c1 := mkWorld _ H1) in Hmv1.
  set (s1 := called s id n r0) in *. pose proof (sim_moves_ok _ _ _ _ Hmv1) as Hs1.
  set (c2 := mkCluster (<[id := Up r']> (cl_nodes c1)) (rn_msgs r ++ cl_soup c) (cl_wins c)).
  assert (∃ H', moves c1 s1 (mkWorld c2 H') (called s1 id n r')) as [H2 Hmv2].
  { eapply (act_moves (ActDrain id) c1 s1 c2 _ id (set_n_st (Up r0) n) (set_n_st (Up r') n)); try done.
    - apply called_node.
    - cbn. by rewrite lookup_insert_eq.
    - intros m Hm. apply elem_of_app. by right.
    - exact (sim_ok_fits _ _ _ _ Hs Hn).
    - intros r2 [= <-]. right. split; [done|]. by exists r0.
    - intros _ (_ & HT & _) H' [Hg _] _. exact (told_grown _ _ _ _ (HT id _ (called_node id s n r0)) Hg).
    - intros snap _ _ (? & ? & ? & [=] & _). }
  unfold s1 in Hmv2. rewrite called_twice in Hmv2. pose proof (sim_moves_trans _ _ _ _ _ _ Hmv1 Hmv2) as Hmv.
  unfold ewp, on_rn. rewrite Hn, Hr. exists (mkWorld c2 H2). split; [exact Hmv|]. apply HQ; [exact Hmv|].
  intros m Hm. apply elem_of_app. by left.
Qed.

(** ** Delays *)

Lemma sim_ok_cfg c s :
  sim_ok c s → (0 ≤ s_now s)%Z ∧ small (s_now s) ∧ cfg_ok (s_cfg s).
Proof. by intros (_ & _ & _ & _ & _ & _ & _ & _ & ? & _ & ? & ? & _). Qed.

(** Puts the bounds on the configuration into the context. *)
Local Ltac bounds Hs :=
  let Hn := fresh "Hnow" in let Hsm := fresh "Hsmall" in let Hb := fresh "Hbounds" in
  let Hp := fresh "Hpos" in let Hd := fresh "Hdisk" in let Hpm := fresh "Hpart" in let Hrm := fresh "Hcrash" in
  destruct (sim_ok_cfg _ _ Hs) as (Hn & Hsm & Hb & Hp & Hpm & Hrm & Hd); cbv zeta in Hb, Hp, Hpm, Hrm, Hd;
  repeat rewrite Forall_cons in Hb; repeat rewrite Forall_cons in Hp; unfold small in Hb, Hsm.

Lemma later z d : small z → (0 ≤ z)%Z → (0 < d < 4611686018427387904)%Z → (z < int_add z d)%Z.
Proof. unfold small, int_add. intros. rewrite int_wrap_small; lia. Qed.

Lemma ewp_latency (Q : Z → world R → Sim → Prop) c s :
  sim_ok c s →
  (∀ z s', (0 < z < 2305843009213693952)%Z → keeps_nodes s s' → sim_ok c s' → Q z c s') →
  ewp latency Q c s.
Proof.
  intros Hs HQ. bounds Hs. unfold latency. apply ewp_bind, ewp_get; [done|]. cbv zeta.
  set (f := sc_Faults (s_cfg s)) in *. clearbody f.
  rewrite (int_wrap_small (MaxLatency f - MinLatency f)) by lia.
  apply ewp_bind, ewp_randRange; [done|lia|]. intros z s1 Hz K1 Hs1.
  assert (0 < int_add (MinLatency f) z < 1152921504606846976)%Z as Hd
    by (unfold int_add; rewrite int_wrap_small by lia; lia).
  set (d := int_add (MinLatency f) z) in *. clearbody d.
  destruct (below f0 (ReorderRate f)); [|apply ewp_ret; [done|apply HQ; [lia|done|done]]].
  apply ewp_bind, ewp_chance; [done|]. intros b s2 _ K2 Hs2.
  pose proof (keeps_nodes_trans _ _ _ K1 K2) as K12.
  destruct b; [|apply ewp_ret; [done|apply HQ; [lia|done|done]]].
  apply ewp_bind, ewp_randRange; [done|lia|]. intros z' s3 Hz' K3 Hs3.
  apply ewp_ret; [done|]. apply HQ; [|by eapply keeps_nodes_trans|done].
  unfold int_add. rewrite int_wrap_small by lia. lia.
Qed.

(** [K] gathers what a chain of inert steps kept. *)
Local Ltac chain := repeat (eassumption || apply keeps_nodes_refl || (eapply keeps_nodes_trans; [eassumption|])).

Lemma keeps_fit c s s' e : keeps_nodes s s' → fit c s e → fit c s' e.
Proof. intros ((Ec & _) & En). unfold fit. by rewrite Ec, En. Qed.

Lemma keeps_now s s' : keeps_nodes s s' → s_now s' = s_now s.
Proof. by intros ((_ & _ & _ & ? & _) & _). Qed.

(** Routing a message that was sent: it is lost, or comes later, once or twice. *)
Lemma ewp_route m c s :
  sim_ok c s → m ∈ cl_soup c → ewp (route m) (λ _ c' s', c' = c ∧ keeps_nodes s s') c s.
Proof.
  intros Hs Hm. bounds Hs. unfold route. apply ewp_bind, ewp_bump; [done|]. intros s1 K1 Hs1.
  apply ewp_bind, ewp_get; [done|]. cbv zeta. rewrite (keeps_now _ _ K1).
  destruct (blocks _ _ _).
  { apply ewp_bind, ewp_bump; [done|]. intros s2 K2 Hs2. apply ewp_record; [done|]. intros s3 K3 Hs3.
    split; [done|chain]. }
  apply ewp_bind, ewp_chance; [done|]. intros lost s2 _ K2 Hs2. destruct lost.
  { apply ewp_bind, ewp_bump; [done|]. intros s3 K3 Hs3. apply ewp_record; [done|]. intros s4 K4 Hs4.
    split; [done|chain]. }
  apply ewp_bind, ewp_latency; [done|]. intros lat s3 Hlat K3 Hs3.
  assert (keeps_nodes s s3) as K13 by chain.
  apply ewp_bind, ewp_schedule; [done|rewrite (keeps_now _ _ K13); cbn; apply later; [done|done|lia]|exact Hm|].
  intros s4 K4 Hs4. apply ewp_bind, ewp_record; [done|]. intros s5 K5 Hs5.
  apply ewp_bind, ewp_chance; [done|]. intros dup s6 _ K6 Hs6. destruct dup.
  2: { apply ewp_ret; [done|]. split; [done|chain]. }
  apply ewp_bind, ewp_latency; [done|]. intros extra s7 Hextra K7 Hs7.
  assert (keeps_nodes s s7) as K17 by chain.
  apply ewp_bind, ewp_schedule; [done| |exact Hm|].
  { rewrite (keeps_now _ _ K17). cbn. unfold int_add.
    rewrite (int_wrap_small (s_now s + lat)), int_wrap_small by lia. lia. }
  intros s8 K8 Hs8. apply ewp_bind, ewp_bump; [done|]. intros s9 K9 Hs9.
  apply ewp_record; [done|]. intros s10 K10 Hs10. split; [done|chain].
Qed.

(** Loops over messages that were all sent. *)
Lemma ewp_forEach_route (body : Message → M Sim unit) ms c s :
  sim_ok c s → (∀ m, m ∈ ms → m ∈ cl_soup c) →
  (∀ m s1, sim_ok c s1 → m ∈ cl_soup c → ewp (body m) (λ _ c' s', c' = c ∧ keeps_nodes s1 s') c s1) →
  ewp (forEach ms body) (λ _ c' s', c' = c ∧ keeps_nodes s s') c s.
Proof.
  intros Hs Hms Hbody. revert s Hs. induction ms as [|m ms IH]; intros s Hs; cbn [forEach].
  { by apply ewp_ret. }
  apply ewp_bind. eapply ewp_mono; [apply Hbody; [done|apply Hms; by left]|].
  intros _ c1 s1 Hmv [-> K1]. eapply ewp_mono; [apply IH; [|by eapply sim_moves_ok]|].
  - intros m' Hm'. apply Hms. by right.
  - intros _ c2 s2 _ [-> K2]. split; [done|chain].
Qed.

(** ** What follows a call *)

(** Nothing but the node [id] changed, the cluster apart. *)
Definition only id s s' : Prop :=
  frame s s' ∧ (∀ j, j ≠ id → s_nodes s' !! j = s_nodes s !! j).

Lemma only_trans id s1 s2 s3 : only id s1 s2 → only id s2 s3 → only id s1 s3.
Proof.
  intros [F1 E1] [F2 E2]. split; [by eapply frame_trans|]. intros j Hj. by rewrite E2, E1.
Qed.

Lemma keeps_only id s s' : keeps_nodes s s' → only id s s'.
Proof. intros [F E]. split; [done|]. intros j _. by rewrite E. Qed.

Lemma called_only id s n r' : only id s (called s id n r').
Proof. split; [done|]. intros j Hj. cbn. by rewrite lookup_insert_ne. Qed.

(** The node is still there. *)
Lemma moves_is_Some c s c' s' id : moves c s c' s' → is_Some (s_nodes s !! id) → is_Some (s_nodes s' !! id).
Proof. intros (_ & _ & _ & _ & Hn) [n Hi]. specialize (Hn id). rewrite Hi in Hn. inversion Hn; eauto. Qed.

Definition touches {A} id (m : M Sim A) : Prop :=
  ∀ c s, sim_ok c s → is_Some (s_nodes s !! id) → ewp m (λ _ _ s', only id s s') c s.

Lemma touches_bind {A B} id (m : M Sim A) (f : A → M Sim B) :
  touches id m → (∀ a, touches id (f a)) → touches id (bind m f).
Proof.
  intros Hm Hf c s Hs Hi. apply ewp_bind. eapply ewp_mono; [by apply Hm|].
  intros a c1 s1 Hmv H1. eapply ewp_mono; [apply Hf; [by eapply sim_moves_ok|by eapply moves_is_Some]|].
  intros b c2 s2 _ H2. exact (only_trans _ _ _ _ H1 H2).
Qed.

Lemma only_refl id s : only id s s.
Proof. done. Qed.

Lemma touches_ret {A} id (a : A) : touches id (ret a).
Proof. intros c s Hs _. apply ewp_ret; [done|apply only_refl]. Qed.

(** Going on after [s1] was reached from [s]. *)
Lemma touches_then {A} id (k : M Sim A) c s s1 :
  touches id k → sim_ok c s1 → is_Some (s_nodes s1 !! id) → only id s s1 →
  ewp k (λ _ _ s', only id s s') c s1.
Proof.
  intros Hk Hs1 Hi H1. eapply ewp_mono; [by apply Hk|]. intros a c2 s2 _ H2. exact (only_trans _ _ _ _ H1 H2).
Qed.

Lemma touches_called {A} id (k : M Sim A) c s c1 n r1 :
  touches id k → moves c s c1 (called s id n r1) →
  ewp k (λ _ _ s', only id s s') c1 (called s id n r1).
Proof.
  intros Hk Hmv. apply touches_then; [done|by eapply sim_moves_ok|rewrite called_node; eauto|apply called_only].
Qed.

Lemma touches_record id line : touches id (record line).
Proof. intros c s Hs _. apply ewp_record; [done|]. intros s' K _. by apply keeps_only. Qed.

Lemma touches_bump id f : touches id (bump f).
Proof. intros c s Hs _. apply ewp_bump; [done|]. intros s' K _. by apply keeps_only. Qed.

Lemma sim_ok_up c s id n r :
  sim_ok c s → s_nodes s !! id = Some n → n_st n = Up r → node_ok r.
Proof.
  intros ((Hnodes & _) & HN & _) Hn Hr. apply (Hnodes id (Up r)).
  by rewrite HN, lookup_fmap, Hn; cbn; f_equal.
Qed.

(** A snapshot that has arrived holds a state machine. *)
Lemma arrived_pictured c s id n r snap :
  sim_ok c s → s_nodes s !! id = Some n → n_st n = Up r → rn_appliedSnapshot r = Some snap → pictured (snap_Data snap).
Proof.
  intros Hs Hn Hr Hp. destruct (sim_ok_up _ _ _ _ _ Hs Hn Hr) as (_ & _ & _ & _ & _ & _ & _ & Hi).
  by apply images_vetted, Hi.
Qed.

(** It was taken, too. *)
Lemma arrived_told c s id n r snap :
  sim_ok c s → s_nodes s !! id = Some n → n_st n = Up r → rn_appliedSnapshot r = Some snap → settled s →
  image_ok (s_conf s) (w_past c) snap ∧ (snap_LastIncludedIndex snap ≤ AppliedIndex r)%N.
Proof.
  intros Hs Hn Hr Hp Hst. assert (tale c s) as ((_ & _ & Hrem) & _ & Him) by (by apply Hs).
  destruct (Hrem id _ (sim_ok_cluster _ _ _ _ _ Hs Hn Hr)) as [L Hf].
  destruct (co_pending _ _ _ _ _ (fi_core _ _ _ _ _ Hf) snap Hp) as [Hin Hle]. split; [by apply Him|done].
Qed.

Lemma touches_restoreSnapshot id : touches id (sim_restoreSnapshot id).
Proof.
  intros c s Hs [n Hn]. unfold sim_restoreSnapshot. apply ewp_bind. eapply ewp_getNode; [done..|].
  unfold crashed. destruct (n_st n) as [r|st] eqn:Er; [|by apply ewp_ret].
  apply ewp_bind. eapply (ewp_call OpSnapshotToApply); [by apply as_op_discard|done..|].
  intros arrived c1 r1 Hmv Em. pose proof (sim_moves_ok _ _ _ _ Hmv) as Hs1.
  destruct arrived as [snap|]; [|eapply touches_called; [apply touches_ret|exact Hmv]].
  injection Em as Ep E1. pose proof (decode_pictured _ (arrived_pictured _ _ _ _ _ _ Hs Hn Er Ep)) as Ht.
  apply ewp_bind, ewp_wrapErr, ewp_reads; [done|].
  destruct (decodeStateMachine (snap_Data snap)) as [app|e|p|] eqn:Ed; try done.
  apply ewp_bind. eapply ewp_setNode; [done|apply called_node|done..|by eapply decode_fits| |].
  - intros Hst _. destruct (arrived_told c s id n r snap Hs Hn Er Ep Hst) as [Him Hle].
    destruct (image_ok_grown _ _ _ _ Him (proj2 (proj1 Hmv)) app Ed) as [Hh Hlen].
    split; [exact Hh|]. subst r1. cbn in *. unfold AppliedIndex in *. cbn. lia.
  - intros s2 E2 F2 Hs2. apply touches_then; [apply touches_record|done|rewrite E2, lookup_insert_eq; eauto|].
    eapply only_trans; [apply called_only|]. split; [done|]. intros j Hj. by rewrite E2, lookup_insert_ne.
Qed.

(** A call after a change of the node's bookkeeping. *)
Lemma ewp_set_call {A B} o (m : M RN A) (k : M Sim B) f Q c s id n r :
  as_op o m → sim_ok c s → s_nodes s !! id = Some n → n_st n = Up r →
  op_ok o r → deliverable o (cl_soup c) = true → (settled s → op_told n o) →
  n_st (f n) = n_st n → n_id (f n) = n_id n → applied_fits (f n) →
  n_restartedSinceCheck (f n) = n_restartedSinceCheck n →
  (∀ a r', m (set_rand (s_rng s) r) = (Ret a, r') → settled s → tale c s →
     told (s_conf s) (w_past c) (set_n_st (Up r') (f n))) →
  (∀ a c' r', moves c s c' (called s id (f n) r') → m (set_rand (s_rng s) r) = (Ret a, r') →
     ewp k Q c' (called s id (f n) r')) →
  ewp (setNode id f ;;; (on_rn id m ;;; k)) Q c s.
Proof.
  intros Has Hs Hn Hr Ho Hd Hto E1 E2 Hfits E3 Ht HQ. unfold setNode, modify, on_rn. unfold ewp, bind.
  rewrite (alter_insert f id n s) by done. cbn [s_nodes set_nodes s_rng]. rewrite lookup_insert_eq, E1, Hr.
  destruct (m (set_rand (s_rng s) r)) as [res r'] eqn:Hm. rewrite insert_insert_eq.
  change (set_rng _ _) with (called s id (f n) r').
  assert (∀ a, res = Ret a → ∃ c', moves c s c' (called s id (f n) r')) as Hret.
  { intros a ->. apply (called_moves o m c s id n (f n) r (Ret a) r' Has Hs Hn Hr Ho Hd Hto Hm E2 Hfits E3).
    intros Hst HT _. by eapply Ht. }
  destruct res as [a|e|p|]; try done.
  2,3: exfalso; exact (called_moves o m c s id n n r _ r' Has Hs Hn Hr Ho Hd Hto Hm eq_refl (sim_ok_fits c s id n Hs Hn) eq_refl (told_called c s id n r r' Hn Hr)).
  destruct (Hret a eq_refl) as [c' Hmv]. specialize (HQ a c' r' Hmv eq_refl). unfold ewp in HQ.
  destruct (k (called s id (f n) r')) as [[]]; try done.
  destruct HQ as (c2 & Hmv2 & HQ). exists c2. split; [by eapply sim_moves_trans|done].
Qed.

(** What a node knows to be committed is history. *)
Lemma committed_historical c s id n r i e :
  sim_ok c s → s_nodes s !! id = Some n → n_st n = Up r → tale c s → committed_at r i e →
  historical (s_conf s) (w_past c) e ∧ e_Index e = i.
Proof.
  intros Hs Hn Hr ((Hg & _ & Hrem) & _) Hce. pose proof (sim_ok_cluster _ _ _ _ _ Hs Hn Hr) as Hcr.
  destruct (Hrem id _ Hcr) as [L Hf]. assert (node_ok r) as Hok by apply (proj1 (proj1 Hs) id _ Hcr).
  destruct (committed_sealed _ _ _ _ _ _ _ Hf Hce) as (HL & Hpos & Hse).
  destruct (matches_plain _ _ Hg L (du_match _ _ _ _ _ (co_dur _ _ _ _ _ (fi_core _ _ _ _ _ Hf)))) as [Hp Hcon].
  eapply Forall_lookup_1 in Hp as (_ & Hterm & Hcmd); [|exact HL].
  assert (e_Index e = i) as <- by (rewrite (Hcon _ _ HL); lia).
  split; [|done]. split_and!; [|done|by exists (rn_term r), L, e]. pose proof (log_ok_disk _ (proj1 Hok)) as (_ & Hb & _).
  destruct (proj1 Hok) as (_ & _ & _ & Hcl). split_and!; [|lia|done]. destruct Hce as [Hce _]. lia.
Qed.

Lemma told_applied c s id n r r2 ents :
  sim_ok c s → s_nodes s !! id = Some n → n_st n = Up r → tale c s → CommittedEntries r = Ret ents →
  AppliedIndex r2 = (AppliedIndex r + N.of_nat (length ents))%N →
  told (s_conf s) (w_past c) (set_n_st (Up r2) (set_n_applied (n_applied n ++ ents) n)).
Proof.
  intros Hs Hn Hr HT HE Ea. destruct (proj1 (proj2 HT) id n Hn) as [Hh Hlen]. rewrite Hr in Hlen.
  assert (node_ok r) as Hok by apply (proj1 (proj1 Hs) id _ (sim_ok_cluster _ _ _ _ _ Hs Hn Hr)).
  split; cbn; [|rewrite length_app; lia]. apply Forall_app. split; [done|]. apply Forall_forall. intros e He.
  pose proof (CommittedEntries_committed r ents e (proj1 Hok) HE He) as Hce. by eapply committed_historical.
Qed.

(** The loop ends: every round applies something. *)
Lemma touches_drainApplied_loop fuel id c s n r :
  sim_ok c s → s_nodes s !! id = Some n → n_st n = Up r →
  (N.to_nat (CommitIndex r - AppliedIndex r) ≤ fuel)%nat →
  ewp (drainApplied_loop fuel id) (λ _ _ s', only id s s') c s.
Proof.
  revert c s n r. induction fuel as [|fuel IH]; intros c s n r Hs Hn Hr Hf; cbn [drainApplied_loop];
    (apply ewp_bind; eapply ewp_getRN; [done..|]); unfold HasCommittedEntries, hasEntriesToApply;
    unfold CommitIndex, AppliedIndex in Hf;
    destruct (N.ltb_spec (l_applied (rn_log r)) (l_committed (rn_log r))) as [Hlt|]; cbn [negb]; try lia.
  1,3: by apply touches_ret; [|eauto].
  pose proof Hs as ((Hnodes & _) & HN & _).
  assert (cl_nodes c !! id = Some (Up r)) as Hcr by (by rewrite HN, lookup_fmap, Hn; cbn; f_equal).
  destruct (Hnodes id _ Hcr) as [Hok _]. pose proof Hok as (Hlog & _).
  pose proof (committed_above_spec _ Hlog) as [EL HC].
  destruct (CommittedEntries_batch r Hok) as (b & EB & Hb & _). cbv zeta in EB, Hb.
  set (pending := committed_above _ _) in *.
  apply ewp_bind, ewp_wrapErr, ewp_reads; [done|]. rewrite EB.
  destruct (last (take b pending)) as [e|] eqn:Elast; [|by apply touches_ret; [|eauto]].
  pose proof (contiguous_last_Some _ _ _ (contiguous_take _ _ b HC) Elast) as Ee.
  rewrite length_take, Nat.min_l in Ee by done.
  assert (b ≠ 0%nat) as Hb0 by (intros ->; done).
  destruct Hlog as (_ & _ & Ha & _).
  assert (∀ r2, ApplyTo (e_Index e) (set_rand (s_rng s) r) = (Ret tt, r2) →
    CommitIndex r2 = CommitIndex r ∧ AppliedIndex r2 = (AppliedIndex r + N.of_nat b)%N) as Happly.
  { intros r2 E2. pose proof (ApplyTo_wp (e_Index e) (set_rand (s_rng s) r) Hok ltac:(cbn; lia)) as Hw.
    unfold wp in Hw. rewrite E2 in Hw. destruct Hw as [_ ->]. unfold CommitIndex, AppliedIndex. cbn. split; [done|lia]. }
  apply ewp_bind. eapply ewp_getNode; [done..|]. unfold growslice.
  destruct (N.ltb_spec maxEntryCap (N.of_nat (length (n_applied n ++ take b pending)))) as [|Hfits]; [done|].
  change (ret tt ;;; ?k) with k.
  eapply (ewp_set_call (OpApplyTo (e_Index e))); [by apply as_op_exec|done|exact Hn|exact Hr| |done..|exact Hfits|done| |].
  { split; [done|]. cbn. lia. }
  - intros [] r2 E2 _ HT. destruct (Happly r2 E2) as [_ Ea]. 
    apply (told_applied c s id n r r2 (take b pending)); [done..|]. by rewrite Ea, length_take, Nat.min_l.
  - intros [] c2 r2 Hmv2 E2. destruct (Happly r2 E2) as [Ec Ea].
    eapply ewp_mono; [eapply IH; [by eapply sim_moves_ok|apply called_node|done|]|].
    + unfold CommitIndex, AppliedIndex in *. lia.
    + intros ? c3 s3 _ H3. eapply only_trans; [apply called_only|exact H3].
Qed.

Lemma touches_drainApplied id : touches id (drainApplied id).
Proof.
  intros c s Hs [n Hn]. unfold drainApplied. apply ewp_bind. eapply ewp_getNode; [done..|].
  destruct (n_st n) as [r|st] eqn:Er; [|apply touches_ret; eauto].
  by eapply touches_drainApplied_loop.
Qed.

Lemma touches_maybeSnapshot id : touches id (sim_maybeSnapshot id).
Proof.
  intros c s Hs [n Hn]. unfold sim_maybeSnapshot. apply ewp_bind. eapply ewp_getNode; [done..|].
  destruct (n_st n) as [r|st] eqn:Er; [|apply touches_ret; eauto].
  destruct (negb (ShouldSnapshot r)); [apply touches_ret; eauto|].
  assert (imaged (stateMachineImage (n_applied n))) as Himg.
  { apply images_vetted. right. exists (n_applied n). split; [done|]. by eapply sim_ok_fits. }
  eapply (ewp_try_call (OpCreateSnapshot _)); [by apply as_op_discard|done|exact Hn|exact Er|by split|done|done|..].
  - intros snap c1 r1 Hmv _. eapply touches_called; [|exact Hmv].
    apply touches_bind; [apply touches_bump|]. intros _. apply touches_record.
  - intros e c1 r1 Hmv Ht. cbn in Ht. rewrite Ht. eapply touches_called; [|exact Hmv]. apply touches_ret.
  - intros e s' Ht. cbn in Ht. rewrite Ht. by eexists _, _.
Qed.

Lemma touches_after id : touches id (after id).
Proof.
  intros c s Hs [n Hn]. unfold after. apply ewp_bind. eapply ewp_getNode; [done..|].
  unfold crashed. destruct (n_st n) as [r|st] eqn:Er; [|apply touches_ret; eauto].
  apply ewp_bind. eapply ewp_drain; [done..|]. cbv zeta. intros c1 Hmv1 Hsoup.
  set (r1 := set_msgs _ _) in *. pose proof (sim_moves_ok _ _ _ _ Hmv1) as Hs1.
  apply ewp_bind. eapply ewp_mono; [apply ewp_forEach_route; [done|exact Hsoup|]|].
  - intros m s2 Hs2 Hm. apply ewp_bind.
    apply (ewp_mono _ (λ _ c' s', c' = c1 ∧ keeps_nodes s2 s')).
    { destruct (bool_decide _); [|by apply ewp_ret]. apply ewp_bump; [done|]. by intros. }
    intros _ c3 s3 Hmv3 [-> K3]. eapply ewp_mono; [apply ewp_route; [by eapply sim_moves_ok|done]|].
    intros _ c4 s4 _ [-> K4]. split; [done|by eapply keeps_nodes_trans].
  - intros _ c2 s2 Hmv2 [-> K2]. apply touches_then; [|by eapply sim_moves_ok| |].
    + apply touches_bind; [apply touches_restoreSnapshot|]. intros _.
      apply touches_bind; [apply touches_drainApplied|]. intros _. apply touches_maybeSnapshot.
    + eapply moves_is_Some; [exact Hmv2|]. rewrite called_node. eauto.
    + eapply only_trans; [apply called_only|by apply keeps_only].
Qed.

(** ** Events *)

(** What the visited states are assumed to satisfy: no log is about to run out of its
    64-bit indexes. *)
Definition has_room s : Prop :=
  ∀ id n r, s_nodes s !! id = Some n → n_st n = Up r → (last_of r + 3 < W64)%N.

Definition fine {A} (m : M Sim A) c s : Prop := ewp m (λ _ _ _, True) c s.

Lemma fine_touches {A} id (m : M Sim A) c s :
  touches id m → sim_ok c s → is_Some (s_nodes s !! id) → fine m c s.
Proof. intros Hm Hs Hi. eapply ewp_mono; [by apply Hm|]. done. Qed.

Lemma applyTick_fine ev c s :
  sim_ok c s → has_room s → is_Some (s_nodes s !! ev_node ev) → fine (applyTick ev) c s.
Proof.
  intros Hs Hroom [n Hn]. bounds Hs. unfold fine, applyTick. apply ewp_bind, ewp_get; [done|].
  apply ewp_bind, ewp_schedule; [done|apply later; [done|done|lia]|by eexists|].
  intros s1 [F1 K1] Hs1. rewrite <- K1 in Hn. apply ewp_bind. eapply ewp_getNode; [done..|].
  unfold crashed. destruct (n_st n) as [r|st] eqn:Er; [|by apply ewp_ret].
  apply ewp_bind, ewp_wrapErr. eapply (ewp_call OpTick); [by apply as_op_exec|done..| |done|done|].
  { split; [|done]. eapply Hroom; [by rewrite <- K1|done]. }
  intros ? c2 r2 Hmv _. apply ewp_bind. eapply ewp_getRN; [by eapply sim_moves_ok|apply called_node|done|].
  apply (fine_touches (ev_node ev)); [|by eapply sim_moves_ok|rewrite called_node; eauto].
  apply touches_bind; [apply touches_record|]. intros _. apply touches_after.
Qed.

Lemma applyDeliver_fine ev c s :
  sim_ok c s → has_room s → ev_msg ev ∈ cl_soup c → fine (applyDeliver ev) c s.
Proof.
  intros Hs Hroom Hm. assert (is_Some (s_nodes s !! m_To (ev_msg ev))) as [n Hn].
  { apply (sim_ok_known c); [done|]. by apply (proj1 (proj2 (proj1 Hs)) _ Hm). }
  unfold fine, applyDeliver. set (m := ev_msg ev) in *.
  apply ewp_bind. eapply ewp_getNode; [done..|].
  unfold crashed. destruct (n_st n) as [r|st] eqn:Er.
  2: by apply (fine_touches (m_To m)); [apply touches_record| |].
  pose proof Hs as ((_ & Hsoup & _) & _).
  eapply (ewp_try_call (OpStep m)); [by apply as_op_exec|done|done|done|..].
  - split; [|by apply Hsoup]. by eapply Hroom.
  - by apply bool_decide_eq_true.
  - done.
  - intros [] c2 r2 Hmv _.
    apply (fine_touches (m_To m)); [|by eapply sim_moves_ok|rewrite called_node; eauto].
    apply touches_bind; [apply touches_record|]. intros _. apply touches_after.
  - intros e c2 r2 Hmv Ht. cbn in Ht. rewrite Ht. cbn [negb].
    apply (fine_touches (m_To m)); [apply touches_record|by eapply sim_moves_ok|rewrite called_node; eauto].
  - intros e s' Ht. cbn in Ht. rewrite Ht. by eexists _, _.
Qed.

(** *** Restarts and crashes *)

Lemma ewp_assoc {A B C} (m : M Sim A) (f : A → M Sim B) (g : B → M Sim C) Q c s :
  ewp (bind (bind m f) g) Q c s → ewp (bind m (λ a, bind (f a) g)) Q c s.
Proof. unfold ewp. by rewrite bind_assoc. Qed.

(** The node that comes up holds what the snapshot on its disk says. *)
Definition restored (rn : RN) n n' : Prop :=
  n' = set_n_st (Up rn) n ∨
  ∃ app, let snap := d_snapshot (disk (disk_of rn)) in
    Snapshot_IsEmpty snap = false ∧ decodeStateMachine (snap_Data snap) = Ret app ∧
    n' = set_n_restored (snap_LastIncludedIndex snap) app (set_n_st (Up rn) n).

(** [node.start] builds a node from the storage, and restores its history. *)
Lemma sim_start_spec id n s :
  s_nodes s !! id = Some n → disk_ready (storage n) → conf_ok (s_conf s) → known (n_id n) →
  match sim_start id s with
  | (Ret _, s') =>
      ∃ rn n', NewRawNode (raftConfig (n_id n) s) (Some (storage n)) (Some (s_rng s)) = Ret rn ∧ restored rn n n' ∧
        s_nodes s' = <[id := n']> (s_nodes s) ∧ frame s s' ∧ s_queue s' = s_queue s
  | (Fail _, _) => True
  | _ => False
  end.
Proof.
  intros Hn Hd Hc Hk. unfold sim_start, getNode, setNode, bind, get, reads, wrapErr, modify. rewrite Hn.
  pose proof (NewRawNode_ok (raftConfig (n_id n) s) (storage n) (s_rng s) Hd Hc Hk) as Hnew.
  destruct (NewRawNode _ _ _) as [rn|e|p|]; [|done|done|done].
  cbn [s_nodes set_nodes set_rng]. rewrite (alter_insert _ _ n) by done. rewrite lookup_insert_eq.
  unfold MemoryStorage_LoadSnapshot.
  set (snap := ms_snapshot _). destruct (Snapshot_IsEmpty snap) eqn:Ese.
  { exists rn, (set_n_st (Up rn) n). split_and!; try done. by left. }
  assert (pictured (snap_Data snap)) as Ht%decode_pictured.
  { apply images_vetted. by destruct Hnew as ((_ & _ & [_ Hi] & _) & _). }
  destruct (decodeStateMachine (snap_Data snap)) as [app|e|p|] eqn:Ed; try done.
  exists rn, (set_n_restored (snap_LastIncludedIndex snap) app (set_n_st (Up rn) n)). split_and!; try done.
  { right. by exists app. }
  cbn. unfold set_rng. cbn. apply map_eq. intros i.
  destruct (decide (i = id)) as [->|].
  - by rewrite lookup_alter_eq, !lookup_insert_eq.
  - by rewrite lookup_alter_ne, !lookup_insert_ne.
Qed.

Lemma restored_told C H rn n n' i (st : MemoryStorage) :
  restored rn n n' → told C H n → n_st n = Down st →
  remembers C H i (Up rn) → (∀ snap, snap ∈ ch_snaps H → image_ok C H snap) → told C H n'.
Proof.
  intros Hres [_ Hd] Hst [L Hf] Him. rewrite Hst in Hd. destruct Hres as [->|(app & Hne & Hdec & ->)].
  { unfold told. cbn. rewrite Hd. split; [done|]. cbn. lia. }
  pose proof (fi_core _ _ _ _ _ Hf) as Hc. destruct (du_snap_from _ _ _ _ _ (co_dur _ _ _ _ _ Hc)) as [_ [Hz|Hin]].
  { unfold Snapshot_IsEmpty in Hne. apply N.eqb_neq in Hne. done. }
  destruct (Him _ Hin app Hdec) as [Hh Hlen]. split; [exact Hh|]. cbn.
  destruct (co_log _ _ _ _ _ Hc) as (_ & Hle & _). unfold AppliedIndex. etrans; [exact Hlen|exact Hle].
Qed.

(** The cluster restarts the node with it. *)
Lemma start_performs id n c s :
  sim_ok c s → s_nodes s !! id = Some n → crashed n = true →
  match sim_start id s with
  | (Ret _, s') =>
      let a := ActRestart id (raftConfig (n_id n) s) (s_rng s) in
      ∃ rn n', let c' := set_node id (Up rn) c in
        act_ok a c ∧ perform a c = Some c' ∧
        (tale c s → ∀ H', follows (s_conf s) a c (w_past c) H' → chronicled (s_conf s) H' c' → told (s_conf s) H' n') ∧
        n_st n' = Up rn ∧ n_id n' = n_id n ∧ applied_fits n' ∧
        s_nodes s' = <[id := n']> (s_nodes s) ∧ frame s s' ∧ s_queue s' = s_queue s
  | (Fail _, _) => True
  | _ => False
  end.
Proof.
  intros Hs Hn Hcr. pose proof Hs as (Hc & _ & _ & _ & Hids & _ & _ & _ & _ & Hconf & _).
  destruct (n_st n) as [r|st] eqn:Er; [unfold crashed in Hcr; by rewrite Er in Hcr|].
  assert (storage n = st) as Est by (unfold storage; by rewrite Er).
  pose proof (sim_ok_cluster _ _ _ _ _ Hs Hn Er) as Hcl.
  assert (disk_ready (storage n)) as Hd by (rewrite Est; exact (proj1 Hc id _ Hcl)).
  assert (known (n_id n)) as Hk by (rewrite (proj1 (Hids id n Hn)); apply (sim_ok_known c s); by eauto).
  pose proof (sim_start_spec id n s Hn Hd Hconf Hk) as Hst.
  destruct (sim_start id s) as [[u| | |] s1]; try done.
  destruct Hst as (rn & n' & Hnew & Hres & Eno & F & Eq). exists rn, n'. split_and!; try done.
  - rewrite (proj1 (Hids id n Hn)) in *. cbn. rewrite Hcl, N.eqb_refl. rewrite Est in Hnew. by rewrite Hnew.
  - intros (_ & HT & Him) H' [Hg Hsn] (_ & _ & Hrem).
    eapply restored_told; [done|exact (told_grown _ _ _ _ (HT id n Hn) Hg)|done| |].
    + apply Hrem. apply lookup_insert_eq.
    + intros snap [Hin|(? & ? & ? & [=] & _)]%Hsn. eapply image_ok_grown, Hg. by apply Him.
  - by destruct Hres as [->|(app & _ & _ & ->)].
  - by destruct Hres as [->|(app & _ & _ & ->)].
  - destruct Hres as [->|(app & _ & Hdec & ->)]; [apply (Hids id n Hn)|by eapply decode_fits].
Qed.

Lemma ewp_restart id n c s :
  sim_ok c s → s_nodes s !! id = Some n → crashed n = true →
  ewp (sim_start id ;;; setNode id count_restart) (λ _ _ s', only id s s') c s.
Proof.
  intros Hs Hn Hcr. pose proof (start_performs id n c s Hs Hn Hcr) as Hst. unfold ewp, bind.
  destruct (sim_start id s) as [[u| | |] s1]; try done.
  destruct Hst as (rn & n' & Ha & P & Ht & En' & Eid & Hfits & Eno & F & Eq). unfold setNode, modify.
  rewrite (alter_insert _ id n') by (rewrite Eno; apply lookup_insert_eq). set (s2 := set_nodes _ s1).
  assert (s_nodes s2 = <[id := count_restart n']> (s_nodes s)) as E2 by (cbn; by rewrite Eno, insert_insert_eq).
  assert (∃ H', moves c s (mkWorld (set_node id (Up rn) c) H') s2) as [H' Hmv].
  { eapply (act_moves _ c s _ _ id n (count_restart n')); [done|done|exact Ha|exact P|..]; try done.
    - cbn. by rewrite En'.
    - intros r' _. by left.
    - intros snap _ _ (? & ? & ? & [=] & _). }
  eexists. split; [exact Hmv|]. split; [exact F|]. intros j Hj. by rewrite E2, lookup_insert_ne.
Qed.

Lemma applyRestart_fine ev c s :
  sim_ok c s → is_Some (s_nodes s !! ev_node ev) → ev_loseDisk ev = false → fine (applyRestart ev) c s.
Proof.
  intros Hs [n Hn] Hl. unfold fine, applyRestart. set (id := ev_node ev) in *.
  apply ewp_bind. eapply ewp_getNode; [done..|]. destruct (crashed n) eqn:Ecr; cbn [negb]; [|by apply ewp_ret].
  rewrite Hl. apply ewp_bind, ewp_record; [done|]. intros s1 [F1 K1] Hs1. rewrite <- K1 in Hn.
  apply ewp_assoc, ewp_bind. eapply ewp_mono; [by eapply ewp_restart|].
  intros _ c2 s2 Hmv _. apply (fine_touches id); [apply touches_after|by eapply sim_moves_ok|].
  eapply moves_is_Some; [exact Hmv|eauto].
Qed.

Lemma ewp_crash id n r c s (Q : unit → world R → Sim → Prop) :
  sim_ok c s → s_nodes s !! id = Some n → n_st n = Up r →
  (∀ c' s', moves c s c' s' → s_nodes s' = <[id := crash n]> (s_nodes s) → Q tt c' s') →
  ewp (setNode id crash) Q c s.
Proof.
  intros Hs Hn Er HQ. pose proof (sim_ok_cluster _ _ _ _ _ Hs Hn Er) as Hcl.
  unfold ewp, setNode, modify. rewrite (alter_insert _ id n) by done. set (s' := set_nodes _ s).
  assert (∃ H', moves c s (mkWorld (set_node id (Down (disk_of r)) c) H') s') as [H' Hmv].
  { eapply (act_moves (ActCrash id) c s _ _ id n (crash n)); try done.
    - cbn. by rewrite Hcl.
    - cbn. unfold storage. by rewrite Er.
    - intros snap _ _ (? & ? & ? & [=] & _). }
  eexists. split; [exact Hmv|]. by apply HQ.
Qed.

Lemma applyCrash_fine id c s :
  sim_ok c s → is_Some (s_nodes s !! id) → (0 < RestartMin (sc_Faults (s_cfg s)))%Z → fine (applyCrash id) c s.
Proof.
  intros Hs [n Hn] Hmin. bounds Hs. unfold fine, applyCrash. apply ewp_bind. eapply ewp_getNode; [done..|].
  unfold crashed. destruct (n_st n) as [r|st] eqn:Er; [|by apply ewp_ret].
  apply ewp_bind, ewp_get; [done|]. destruct (_ <? _)%Z; [by apply ewp_ret|].
  apply ewp_bind. eapply ewp_crash; [done..|]. intros c1 s1 Hmv1 En1.
  pose proof (sim_moves_ok _ _ _ _ Hmv1) as Hs1. pose proof Hmv1 as (_ & _ & F1 & _).
  apply ewp_bind, ewp_record; [done|]. intros s2 K2 Hs2. cbv zeta.
  set (f := sc_Faults (s_cfg s)) in *. clearbody f.
  rewrite (int_wrap_small (RestartMax f - RestartMin f)) by lia.
  apply ewp_bind, ewp_randRange; [done|lia|]. intros z s3 Hz K3 Hs3.
  apply ewp_bind, ewp_chance; [done|]. intros lose s4 Hlose K4 Hs4.
  assert (keeps_nodes s1 s4) as K14 by chain.
  assert (s_now s4 = s_now s) as Enow by (rewrite (keeps_now _ _ K14); apply F1).
  apply ewp_schedule; [done| | |done].
  - rewrite Enow. apply later; [done|done|]. unfold int_add. rewrite int_wrap_small by lia. lia.
  - split; cbn.
    + rewrite (proj2 K14), En1, lookup_insert_eq. eauto.
    + destruct lose; [|done]. specialize (Hlose eq_refl). lia.
Qed.

(** *** Partitions and membership changes *)

Definition quiet_step {A} (m : M Sim A) : Prop :=
  ∀ c s, sim_ok c s → ewp m (λ _ c' s', c' = c ∧ keeps_nodes s s') c s.

Lemma quiet_step_bind {A B} (m : M Sim A) (f : A → M Sim B) :
  quiet_step m → (∀ a, quiet_step (f a)) → quiet_step (bind m f).
Proof.
  intros Hm Hf c s Hs. apply ewp_bind. eapply ewp_mono; [by apply Hm|].
  intros a c1 s1 Hmv [-> K1]. eapply ewp_mono; [apply Hf; by eapply sim_moves_ok|].
  intros b c2 s2 _ [-> K2]. split; [done|chain].
Qed.

Lemma quiet_step_ret {A} (a : A) : quiet_step (ret a).
Proof. intros c s Hs. by apply ewp_ret. Qed.

Lemma quiet_step_record line : quiet_step (record line).
Proof. intros c s Hs. by apply ewp_record. Qed.

Lemma quiet_step_draw k : (0 < k)%Z → quiet_step (draw_Intn k).
Proof. intros Hk c s Hs. by apply ewp_draw_Intn. Qed.

Lemma quiet_step_draw_sides ids sideB count : quiet_step (draw_sides ids sideB count).
Proof.
  revert sideB count. induction ids as [|id ids IH]; intros sideB count; cbn [draw_sides].
  { apply quiet_step_ret. }
  apply quiet_step_bind; [by apply quiet_step_draw|]. intros z. destruct (z =? 0)%Z; apply IH.
Qed.

Lemma startPartition_quiet c s :
  sim_ok c s → (0 < PartitionMin (sc_Faults (s_cfg s)))%Z →
  ewp startPartition (λ _ c' s', c' = c ∧ keeps_nodes s s') c s.
Proof.
  intros Hs Hmin. bounds Hs. unfold startPartition. apply ewp_bind, ewp_get; [done|].
  apply ewp_bind. eapply ewp_mono; [by apply quiet_step_draw_sides|].
  intros [sideB count] c1 s1 Hmv1 [-> K1]. pose proof (sim_moves_ok _ _ _ _ Hmv1) as Hs1.
  destruct (_ || _); [by apply ewp_ret|]. cbv zeta.
  set (f := sc_Faults (s_cfg s)) in *. clearbody f.
  rewrite (int_wrap_small (PartitionMax f - PartitionMin f)) by lia.
  apply ewp_bind, ewp_randRange; [done|lia|]. intros z s2 Hz K2 Hs2.
  apply ewp_bind, ewp_modify; [done|done|]. intros s3 K3 Hs3.
  apply ewp_bind, ewp_bump; [done|]. intros s4 K4 Hs4.
  apply ewp_bind, ewp_record; [done|]. intros s5 K5 Hs5.
  assert (keeps_nodes s s5) as K15 by chain.
  apply ewp_schedule; [done|rewrite (keeps_now _ _ K15)|done|].
  - apply later; [done|done|]. unfold int_add. rewrite int_wrap_small by lia. lia.
  - intros s6 K6 _. split; [done|chain].
Qed.

(** The voters asked for next come from the current ones and from the ids. *)
Lemma nextVoters_spec current c s :
  sim_ok c s →
  ewp (nextVoters current)
    (λ next c' s', c' = c ∧ keeps_nodes s s' ∧
       ∀ voters, next = Some voters → ∀ v, v ∈ voters → v ∈ Voters current ∨ v ∈ s_ids s) c s.
Proof.
  intros Hs. unfold nextVoters. apply ewp_bind, ewp_get; [done|]. cbv zeta.
  set (n := Z.of_nat (length (Voters current))).
  apply ewp_bind. apply (ewp_mono _ (λ b c' s', c' = c ∧ keeps_nodes s s' ∧ (b = true → (0 < n)%Z))).
  { destruct (Z.ltb_spec (sim_quorum s) n) as [Hlt|]; [|by apply ewp_ret].
    apply ewp_bind, ewp_draw_Intn; [done..|]. intros z s1 _ K1 Hs1. apply ewp_ret; [done|].
    split_and!; [done..|]. intros _. unfold sim_quorum in Hlt.
    pose proof (Z.div_pos (Z.of_nat (length (s_ids s))) 2). lia. }
  intros shrink c1 s1 Hmv1 (-> & K1 & Hn). pose proof (sim_moves_ok _ _ _ _ Hmv1) as Hs1. destruct shrink.
  - apply ewp_bind, ewp_draw_Intn; [done|by apply Hn|]. intros k s2 Hk K2 Hs2.
    apply ewp_bind. unfold nth_id. apply ewp_reads; [done|].
    destruct (lookup_lt_is_Some_2 (Voters current) (Z.to_nat k)) as [victim ->]; [unfold n in *; lia|].
    apply ewp_ret; [done|]. split_and!; [done|chain|]. intros voters [= <-] v Hv.
    left. by apply list_elem_of_filter in Hv as [_ ?].
  - destruct (filter (λ id, id ∉ Voters current) (s_ids s)) as [|a0 absent0] eqn:Ea.
    { apply ewp_ret; [done|]. by split_and!. }
    set (absent := a0 :: absent0) in *.
    apply ewp_bind, ewp_draw_Intn; [done|cbn; lia|]. intros k s2 Hk K2 Hs2.
    apply ewp_bind. unfold nth_id. apply ewp_reads; [done|].
    destruct (lookup_lt_is_Some_2 absent (Z.to_nat k)) as [id Hid]; [lia|]. rewrite Hid.
    apply ewp_ret; [done|]. split_and!; [done|chain|]. intros voters [= <-] v.
    rewrite elem_of_app, list_elem_of_singleton. intros [?| ->]; [by left|right].
    apply list_elem_of_lookup_2 in Hid. rewrite <- Ea in Hid. by apply list_elem_of_filter in Hid as [_ ?].
Qed.

Lemma changeMembership_fine c s :
  sim_ok c s → has_room s → asks_ok (s_ids s) → ¬ settled s → fine changeMembership c s.
Proof.
  intros Hs Hroom Hasks Hns. unfold fine, changeMembership. apply ewp_bind, ewp_get; [done|].
  destruct (sim_leader s) as [id|] eqn:El; [|by apply ewp_ret].
  assert (leads s id = true) as Hl.
  { unfold sim_leader in El. apply head_Some in El as [l' E].
    assert (id ∈ filter (λ id, leads s id = true) (s_ids s)) as Hin by (rewrite E; by left).
    by apply list_elem_of_filter in Hin as [? _]. }
  unfold leads in Hl. destruct (s_nodes s !! id) as [n|] eqn:Hn; [|done].
  unfold isLeader in Hl. destruct (n_st n) as [r|st] eqn:Er; [|done].
  pose proof (sim_ok_up _ _ _ _ _ Hs Hn Er) as (_ & _ & _ & _ & Hconf & _).
  apply ewp_bind. eapply ewp_getRN; [done..|]. cbv zeta.
  destruct (IsJoint (rn_conf r)); [by apply ewp_ret|].
  apply ewp_bind. eapply ewp_mono; [by apply nextVoters_spec|].
  intros next c1 s1 Hmv1 (-> & [F1 K1] & Hnext). pose proof (sim_moves_ok _ _ _ _ Hmv1) as Hs1.
  destruct next as [voters|]; [|by apply ewp_ret].
  pose proof (Hasks (rn_conf r) voters Hconf (Hnext voters eq_refl)) as Ht. rewrite <- K1 in Hn.
  assert (∀ k, touches id k → fine (A := unit) k c s1) as Hfine.
  { intros k Hk. apply (fine_touches id); [done..|eauto]. }
  unfold Validate. destruct (_ =? _)%nat; [apply Hfine, touches_record|].
  eapply (ewp_try_call (OpProposeConfChange (NewConfiguration voters [])));
    [by apply as_op_discard|done|exact Hn|exact Er|split; [|done]|done|..].
  - eapply (Hroom id n); [by rewrite <- K1|done].
  - intros []. destruct Hns. by destruct F1 as (E1 & _ & E2 & _); rewrite E1, E2 in *.
  - intros i c2 r2 Hmv _.
    apply (fine_touches id); [|by eapply sim_moves_ok|rewrite called_node; eauto].
    apply touches_bind; [apply touches_bump|]. intros _.
    apply touches_bind; [apply touches_record|]. intros _. apply touches_after.
  - intros e c2 r2 Hmv _.
    apply (fine_touches id); [apply touches_record|by eapply sim_moves_ok|rewrite called_node; eauto].
  - done.
Qed.

Lemma keeps_room s s' : keeps_nodes s s' → has_room s → has_room s'.
Proof. intros [_ E] Hr id n r. rewrite E. apply Hr. Qed.

Lemma applyFaultDecision_fine c s : sim_ok c s → has_room s → fine applyFaultDecision c s.
Proof.
  intros Hs Hroom. bounds Hs. unfold fine, applyFaultDecision. apply ewp_bind, ewp_get; [done|]. cbv zeta.
  apply ewp_bind, ewp_schedule; [done|apply later; [done|done|lia]|done|]. intros s1 K1 Hs1.
  apply ewp_bind. apply (ewp_mono _ (λ _ c' s', c' = c ∧ keeps_nodes s1 s')).
  { destruct (s_part s); [by apply ewp_ret|]. apply ewp_bind, ewp_chance; [done|]. intros b s2 Hb K2 Hs2.
    destruct b; [|by apply ewp_ret]. pose proof (keeps_nodes_trans _ _ _ K1 K2) as [(Ec & _) _].
    eapply ewp_mono; [apply startPartition_quiet; [done|rewrite Ec; by apply Hpart, Hb]|].
    intros _ c3 s3 _ [-> K3]. split; [done|chain]. }
  intros _ c2 s2 Hmv2 [-> K2]. pose proof (sim_moves_ok _ _ _ _ Hmv2) as Hs2.
  apply ewp_bind, ewp_chance; [done|]. intros move s3 Hmove K3 Hs3.
  assert (keeps_nodes s s3) as K13 by chain.
  apply ewp_bind. apply (ewp_mono _ (λ _ _ _, True)).
  { destruct move; [|by apply ewp_ret]. apply changeMembership_fine; [done|by eapply keeps_room|..].
    all: destruct K13 as [(Ec & Ei & Ef & _) _].
    - rewrite Ei. apply Hs. by apply Hmove.
    - intros [_ Hr]. rewrite Ec in Hr. specialize (Hmove eq_refl). lia. }
  intros _ c4 s4 Hmv4 _. pose proof (sim_moves_ok _ _ _ _ Hmv4) as Hs4.
  apply ewp_bind, ewp_chance; [done|]. intros hit s5 Hhit K5 Hs5. destruct hit; [|by apply ewp_ret].
  apply ewp_bind, ewp_get; [done|].
  pose proof Hs5 as (_ & _ & _ & _ & _ & [Hdom _] & Hne & _).
  apply ewp_bind, ewp_draw_Intn; [done|destruct (s_ids s5); [done|cbn; lia]|]. intros k s6 Hk K6 Hs6.
  apply ewp_bind. unfold nth_id. apply ewp_reads; [done|].
  destruct (lookup_lt_is_Some_2 (s_ids s5) (Z.to_nat k)) as [victim Hv]; [lia|]. rewrite Hv.
  apply applyCrash_fine; [done|rewrite (proj2 K6); apply Hdom; by eapply list_elem_of_lookup_2|].
  destruct K6 as [(-> & _) _], K5 as [(-> & _) _], Hmv4 as (_ & _ & (-> & _) & _), K13 as [(-> & _) _].
  by apply Hcrash, Hhit.
Qed.

Lemma applyHeal_fine c s : sim_ok c s → fine applyHeal c s.
Proof.
  intros Hs. unfold fine, applyHeal. apply ewp_bind, ewp_get; [done|].
  destruct (s_part s); [|by apply ewp_ret]. apply ewp_bind, ewp_record; [done|]. intros s1 _ Hs1.
  by apply ewp_modify.
Qed.

(** *** Client writes *)

Lemma touches_offerWrite id c s :
  sim_ok c s → is_Some (s_nodes s !! id) →
  (∀ n r, s_nodes s !! id = Some n → n_st n = Up r → (last_of r + 3 < W64)%N) →
  ewp (offerWrite id) (λ _ _ s', only id s s') c s.
Proof.
  intros Hs [n Hn] Hroom. unfold offerWrite. apply ewp_bind, ewp_get; [done|].
  unfold leads, isLeader. rewrite Hn. destruct (n_st n) as [r|st] eqn:Er; [|apply touches_ret; eauto].
  destruct (bool_decide _); [|apply touches_ret; eauto]. cbn [negb].
  apply ewp_bind, ewp_inert; [done|]. split; [done|]. set (s1 := set_writeSeq _ s). intros Hs1.
  apply ewp_bind, ewp_get; [done|]. assert (keeps_nodes s s1) as K1 by done.
  assert (s_nodes s1 !! id = Some n) as Hn1 by done.
  assert (only id s s1) as H1 by (by apply keeps_only).
  apply (ewp_mono _ (λ _ _ s', only id s1 s')); [|intros ? ? ? _ H2; exact (only_trans _ _ _ _ H1 H2)].
  eapply (ewp_try_call (OpPropose (writeCommand (s_writeSeq s1))));
    [by apply as_op_discard|done|exact Hn1|exact Er|split; [by eapply Hroom|done]|done|..].
  - intros _. apply writeCommand_short.
  - intros i c2 r2 Hmv _. eapply touches_called; [|exact Hmv].
    apply touches_bind; [apply touches_record|]. intros _.
    apply touches_bind; [apply touches_after|]. intros _. apply touches_ret.
  - intros e c2 r2 Hmv _. eapply touches_called; [apply touches_ret|exact Hmv].
  - done.
Qed.

Lemma offerWrites_fine ids wrote c s :
  sim_ok c s → NoDup ids → (∀ id, id ∈ ids → is_Some (s_nodes s !! id)) →
  (∀ id n r, id ∈ ids → s_nodes s !! id = Some n → n_st n = Up r → (last_of r + 3 < W64)%N) →
  fine (offerWrites ids wrote) c s.
Proof.
  unfold fine. revert wrote c s. induction ids as [|id ids IH]; intros wrote c s Hs Hnd Hdom Hroom; cbn [offerWrites].
  { by apply ewp_ret. }
  apply NoDup_cons in Hnd as [Hni Hnd]. apply ewp_bind.
  eapply ewp_mono; [apply touches_offerWrite; [done|apply Hdom; by left|intros n r; apply Hroom; by left]|].
  intros w c1 s1 Hmv [F1 E1]. apply IH; [by eapply sim_moves_ok|done|..].
  - intros j Hj. rewrite E1 by (intros ->; done). apply Hdom. by right.
  - intros j n r Hj. rewrite E1 by (intros ->; done). apply Hroom. by right.
Qed.

Lemma applyClientWrite_fine c s :
  sim_ok c s → has_room s → (0 < sc_WriteInterval (s_cfg s))%Z → fine applyClientWrite c s.
Proof.
  intros Hs Hroom Hw. bounds Hs. unfold fine, applyClientWrite. apply ewp_bind, ewp_get; [done|].
  apply ewp_bind, ewp_schedule; [done|apply later; [done|done|lia]|done|]. intros s1 K1 Hs1.
  pose proof Hs as (_ & _ & _ & _ & _ & [Hdom _] & _ & Hnd & _).
  apply ewp_bind. eapply ewp_mono; [apply offerWrites_fine; [done|done|..]|].
  - intros id Hid. rewrite (proj2 K1). by apply Hdom.
  - intros id n r _. rewrite (proj2 K1). apply Hroom.
  - intros w c2 s2 Hmv _. pose proof (sim_moves_ok _ _ _ _ Hmv). destruct w; [by apply ewp_ret|by apply ewp_record].
Qed.

(** Every event of a sound queue is carried out. *)
Lemma apply_event_fine ev c s :
  sim_ok c s → has_room s → fit c s ev → fine (apply_event ev) c s.
Proof.
  intros Hs Hroom Hfit. unfold apply_event, fit in *. destruct (ev_kind ev).
  - by apply applyTick_fine.
  - by apply applyDeliver_fine.
  - destruct Hfit. by apply applyCrash_fine.
  - destruct Hfit. by apply applyRestart_fine.
  - by apply applyFaultDecision_fine.
  - by apply applyHeal_fine.
  - by apply applyClientWrite_fine.
Qed.
End sim_safety.
