(* ===== verification/SimRun.v ===== *)
(** * Whole runs of the simulator

    [Observe] and [Final] only look: they change nothing but the checker's own records
    and the marks of restarts.  What the checker has recorded is true of the cluster
    ([ck_ok]), so that what is proved of every cluster decides which violations it can
    ever report ([reportable]): with a fixed membership, none.  The event loop ends, since
    every event schedules others only for later instants. *)

From S2P Require Import Prelude Varint GoMaps Types Config Storage RaftLog RawNode Membership NodeSafety.
From S2P Require Import Votes Cluster ElectionSafety ClusterSafety LogHistory LogSteps LogCalls StateMachineSafety EventQueue Sim SimSafety.
From Stdlib Require QArith_base.

Section sim_run.
Context {R : Type} `{HSrc : Source R} `{HLaws : !SourceLaws R} `{HFmt : Fmt} `{HSha : Sha256}.
Context `{HMap : MapRange} `{HVet : Vetting} `{HImg : !ImagesVetted}.
Local Abbreviation Sim := (Simulator R).
Local Abbreviation RN := (RawNode MemoryStorage R).
Implicit Types (s : Sim) (c : world R) (n : simNode R) (v : option Violation).

(** ** Looking *)

(** Only the checker and the marks of restarts changed. *)
Definition same_node n n' : Prop :=
  n_st n' = n_st n ∧ n_id n' = n_id n ∧ n_applied n' = n_applied n.

Definition looks s s' : Prop :=
  s_cfg s' = s_cfg s ∧ s_ids s' = s_ids s ∧ s_conf s' = s_conf s ∧ s_now s' = s_now s ∧
  s_queue s' = s_queue s ∧
  ∀ id, option_Forall2 same_node (s_nodes s !! id) (s_nodes s' !! id).

Lemma looks_refl s : looks s s.
Proof. split_and!; try done. intros id. destruct (s_nodes s !! id); by constructor. Qed.

Lemma looks_checker k s : looks s (set_checker k s).
Proof. exact (looks_refl s). Qed.

Lemma looks_trans s1 s2 s3 : looks s1 s2 → looks s2 s3 → looks s1 s3.
Proof.
  intros (H1 & H2 & H3 & H4 & H5 & H6) (K1 & K2 & K3 & K4 & K5 & K6). split_and!; try congruence.
  intros id. specialize (H6 id). specialize (K6 id).
  destruct H6 as [n1 n2 (A1 & A2 & A3)|]; inversion K6 as [? n3 (B1 & B2 & B3)|]; constructor.
  split_and!; congruence.
Qed.

Lemma looks_node s s' id n :
  looks s s' → s_nodes s !! id = Some n → ∃ n', s_nodes s' !! id = Some n' ∧ same_node n n'.
Proof.
  intros (_ & _ & _ & _ & _ & H) Hn. specialize (H id). rewrite Hn in H. inversion H; eauto.
Qed.

Lemma looks_node' s s' id n' :
  looks s s' → s_nodes s' !! id = Some n' → ∃ n, s_nodes s !! id = Some n ∧ same_node n n'.
Proof.
  intros (_ & _ & _ & _ & _ & H) Hn. specialize (H id). rewrite Hn in H. inversion H; eauto.
Qed.

Lemma looks_ok c s s' : looks s s' → sim_ok c s → sim_ok c s'.
Proof.
  intros HL (H1 & H2 & H3 & H4 & H5 & [H6 H6k] & H7 & H8 & H9 & H10 & H11 & H12 & H13 & H14).
  pose proof HL as (Ec & Ei & Ef & En & Eq & Hn).
  assert (∀ i, is_Some (s_nodes s !! i) → is_Some (s_nodes s' !! i)) as Hdom.
  { intros i [n Hi]. destruct (looks_node _ _ _ _ HL Hi) as (n' & -> & _). eauto. }
  unfold sim_ok, settled, tale. rewrite Ec, Ei, Ef, En, Eq. split_and!; try done.
  - rewrite H2. apply map_eq. intros i. rewrite !lookup_fmap. specialize (Hn i).
    destruct Hn as [n n' (E & _)|]; cbn; [by rewrite E|done].
  - intros e He. specialize (H4 e He). unfold fit in *. rewrite Ec.
    destruct (ev_kind e); auto; destruct H4; auto.
  - intros i n' Hi. destruct (looks_node' _ _ _ _ HL Hi) as (n & Hi' & _ & -> & Ea).
    unfold applied_fits. rewrite Ea. by apply H5.
  - auto.
  - intros i. rewrite H6k. split; [auto|]. intros [n' Hi]. destruct (looks_node' _ _ _ _ HL Hi) as (n & -> & _). eauto.
  - intros Hst. destruct (H14 Hst) as (Hc & Ht & Hi). split_and!; [done| |done].
    intros i n' Hn'. destruct (looks_node' _ _ _ _ HL Hn') as (n & Hi' & Es & _ & Ea). unfold told.
    rewrite Es, Ea. by eapply Ht.
Qed.

Lemma looks_settled s s' : looks s s' → settled s' = settled s.
Proof. intros (Ec & _ & Ef & _). unfold settled. by rewrite Ec, Ef. Qed.

(** ** What the checker has recorded *)

(** The entry recorded for index [i] is the one in the history. *)
Definition recorded C H (i : Index) (ce : committedEntry) : Prop :=
  ∃ e, historical C H e ∧ e_Index e = i ∧ ce_term ce = e_Term e ∧ ce_digest ce = Sum256 (e_Command e).

(** A commit index that was seen does not lie above that of the running node, unless the
    node restarted since; a leader that was seen was elected; with a fixed membership, an
    entry that was seen to be committed is in the history. *)
Definition ck_ok c s : Prop :=
  (∀ id prev n r, ck_lastCommit (s_checker s) !! id = Some prev → s_nodes s !! id = Some n →
     n_st n = Up r → n_restartedSinceCheck n = true ∨ (prev ≤ CommitIndex r)%N) ∧
  (∀ t id, ck_leaderPerTerm (s_checker s) !! t = Some id → ∃ conf, (id, t, conf) ∈ cl_wins c) ∧
  (∀ id i, ck_checkedTo (s_checker s) !! id = Some i → (i + 1 < W64)%N) ∧
  (settled s → ∀ i ce, ck_committed (s_checker s) !! i = Some ce → recorded (s_conf s) (w_past c) i ce).

(** Any two configurations of the run have overlapping quorums. *)
Definition overlapping : Prop :=
  ∀ conf conf' f g, vetted conf → vetted conf' → HasQuorum conf f = true → HasQuorum conf' g = true →
    ∃ v : NodeID, f v = true ∧ g v = true.

(** The violations a run may report. *)
Definition reportable s (p : property) : Prop :=
  p ≠ PropCommitMonotonic ∧ p ≠ PropAppliedFollowing ∧ (overlapping → p ≠ PropElectionSafety) ∧
  (settled s → p = PropElectionSafety).

Lemma looks_reportable s s' : looks s s' → reportable s' = reportable s.
Proof. intros HL. unfold reportable. by rewrite (looks_settled _ _ HL). Qed.

Definition judged c s : Prop := sim_ok c s ∧ ck_ok c s ∧ ∃ K, Inv K c.

(** [m] looks at the nodes and reports only what it may. *)
Definition watches c (m : M Sim (option Violation)) s : Prop :=
  wp m (λ v s', looks s s' ∧ ck_ok c s' ∧ ∀ w, v = Some w → reportable s (v_Property w))
    (λ _ _, False) (λ _, False) s.

Lemma judged_looks c s s' : judged c s → looks s s' → ck_ok c s' → judged c s'.
Proof. intros (Hs & _ & HK) HL Hk. split_and!; [by eapply looks_ok|done|done]. Qed.

Lemma watches_none c s : judged c s → watches c (ret None) s.
Proof. intros (_ & Hk & _). split_and!; [apply looks_refl|done|done]. Qed.

Lemma watches_report c p s : judged c s → reportable s p → watches c (report_violation p) s.
Proof.
  intros (_ & Hk & _) Hp. unfold watches, report_violation, on_checker. wp_go.
  split_and!; [apply looks_checker|exact Hk|by intros w [= <-]].
Qed.

(** Going on at [s1], which was reached from [s] by looking. *)
Definition watches_from c s m s1 : Prop :=
  wp m (λ v s', looks s s' ∧ ck_ok c s' ∧ ∀ w, v = Some w → reportable s (v_Property w))
    (λ _ _, False) (λ _, False) s1.

Lemma watches_then c s m s1 : looks s s1 → watches c m s1 → watches_from c s m s1.
Proof.
  intros HL Hm. eapply wp_mono; [exact Hm|..]; [|done..]. cbn beta.
  intros v s2 (HL' & Hk & Hv). rewrite (looks_reportable _ _ HL) in Hv. split_and!; [by eapply looks_trans|done|done].
Qed.

Lemma watches_unless c m k s :
  judged c s → watches c m s → (∀ s1, judged c s1 → looks s s1 → watches c k s1) →
  watches c (unless m k) s.
Proof.
  intros Hj Hm Hk. unfold watches, unless. apply wp_bind. eapply wp_mono; [exact Hm|..]; [|done..].
  cbn beta. intros v s1 (HL & Hck & Hv). destruct v as [w|]; [by apply wp_ret|].
  apply watches_then; [done|]. apply Hk; [by eapply judged_looks|done].
Qed.

Lemma watches_checkAll {X} c (l : list X) body s :
  judged c s → (∀ x s1, x ∈ l → judged c s1 → looks s s1 → watches c (body x) s1) →
  watches c (checkAll l body) s.
Proof.
  revert s. induction l as [|x l IH]; intros s Hj Hb; cbn [checkAll]; [by apply watches_none|].
  apply watches_unless; [done|apply Hb; [by left|done|apply looks_refl]|].
  intros s1 Hj1 HL. apply IH; [done|]. intros y s2 Hy Hj2 HL2.
  apply Hb; [by right|done|by eapply looks_trans].
Qed.

Lemma wp_getNode id n (Q : simNode R → Sim → Prop) E D s :
  s_nodes s !! id = Some n → Q n s → wp (getNode id) Q E D s.
Proof. intros Hn HQ. apply wp_reads. by rewrite Hn. Qed.

Lemma wp_getRN id n r (Q : RN → Sim → Prop) E D s :
  s_nodes s !! id = Some n → n_st n = Up r → Q r s → wp (getRN id) Q E D s.
Proof. intros Hn Hr HQ. unfold getRN. apply wp_bind. eapply wp_getNode; [done|]. by rewrite Hr. Qed.

(** *** Election Safety *)

Lemma judged_leader c s id n r :
  judged c s → s_nodes s !! id = Some n → n_st n = Up r → rn_state r = Leader →
  ∃ conf, (id, rn_term r, conf) ∈ cl_wins c.
Proof.
  intros ((_ & HN & _) & _ & K & _ & _ & _ & _ & HL) Hn Hr. apply HL.
  by rewrite HN, lookup_fmap, Hn; cbn; f_equal.
Qed.

Lemma judged_wins c s i j t conf conf' :
  judged c s → overlapping → (i, t, conf) ∈ cl_wins c → (j, t, conf') ∈ cl_wins c → i = j.
Proof.
  intros (((_ & _ & HV) & _) & _ & K & (Hfun & _) & _ & _ & HW & _) Hover Hi Hj.
  rewrite Forall_forall in HW. destruct (HW _ Hi) as (f & Hq & Hf), (HW _ Hj) as (g & Hq' & Hg).
  destruct (Hover conf conf' f g (HV _ Hi) (HV _ Hj) Hq Hq') as (v & Hv & Hv'). eauto.
Qed.

Lemma watches_election c id n r s :
  judged c s → s_nodes s !! id = Some n → n_st n = Up r → watches c (checkElectionSafety id) s.
Proof.
  intros Hj Hn Hr. unfold watches, checkElectionSafety. apply wp_bind. eapply wp_getRN; [done..|].
  case_bool_decide as HL; cbn [negb]; [|by apply watches_none].
  destruct (judged_leader c s id n r Hj Hn Hr HL) as [conf Hwin].
  apply wp_bind, wp_get. cbv zeta. pose proof Hj as (_ & (HC & HLd & Hrest) & _).
  assert (watches c (on_checker (set_leaderPerTerm (<[rn_term r := id]>
      (ck_leaderPerTerm (s_checker s)))) ;;; ret None) s) as Hclaim.
  { unfold watches, on_checker. wp_go. split_and!; [apply looks_checker| |done].
    split; [exact HC|]. split; [|exact Hrest]. cbn. intros t j [[<- <-]|[_ Hl]]%lookup_insert_Some; eauto. }
  destruct (ck_leaderPerTerm (s_checker s) !! rn_term r) as [prev|] eqn:Ep; [|exact Hclaim].
  destruct (N.eqb_spec prev id) as [->|Hne]; cbn [negb]; [exact Hclaim|].
  apply watches_report; [done|]. split_and!; [done..| |done]. intros Hover _. apply Hne.
  destruct (HLd _ _ Ep) as [conf' Hwin']. by eapply judged_wins.
Qed.

(** *** Commit and apply indexes *)

Lemma watches_commit c id n r s :
  judged c s → s_nodes s !! id = Some n → n_st n = Up r → watches c (checkCommitMonotonic id) s.
Proof.
  intros Hj Hn Hr. unfold watches, checkCommitMonotonic. apply wp_bind. eapply wp_getRN; [done..|].
  apply wp_bind. eapply wp_getNode; [done|]. apply wp_bind, wp_get. cbv zeta.
  pose proof Hj as (Hs & (HC & HLd & Hrest) & HK).
  pose proof (sim_ok_up _ _ _ _ _ Hs Hn Hr) as ((_ & _ & Ha & _) & _).
  match goal with |- wp (match _ with Some prev => if _ then _ else ?m | None => _ end) _ _ _ _ =>
    assert (watches c m s) as Hsettle end.
  { unfold watches, on_checker, setNode. wp_go. rewrite (proj2 (N.ltb_ge _ _)) by exact Ha. wp_go.
    split_and!; [|split; [|split]|done].
    - split_and!; try done. cbn. intros i. destruct (decide (i = id)) as [->|].
      + rewrite lookup_alter_eq, Hn. by constructor.
      + rewrite lookup_alter_ne by done. destruct (s_nodes s !! i); by constructor.
    - cbn. intros i prev n0 r0. destruct (decide (i = id)) as [->|].
      + rewrite lookup_insert_eq, lookup_alter_eq, Hn. intros [= <-] [= <-]. cbn. rewrite Hr.
        intros [= <-]. by right.
      + rewrite lookup_insert_ne, lookup_alter_ne by done. apply HC.
    - exact HLd.
    - exact Hrest. }
  destruct (ck_lastCommit (s_checker s) !! id) as [prev|] eqn:Ep; [|exact Hsettle].
  destruct ((CommitIndex r <? prev)%N && negb (n_restartedSinceCheck n)) eqn:Eb; [|exact Hsettle].
  apply andb_prop in Eb as [Hlt%N.ltb_lt Hf%negb_true_iff].
  destruct (HC id prev n r Ep Hn Hr); [congruence|lia].
Qed.

(** *** Committed entries *)

Lemma judged_storage c s id n : judged c s → s_nodes s !! id = Some n → storage_ok (storage n).
Proof.
  intros (((Hn & _) & HN & _) & _) Hi. unfold storage.
  assert (cl_nodes c !! id = Some (n_st n)) as Hc by (by rewrite HN, lookup_fmap, Hi).
  specialize (Hn id _ Hc). destruct (n_st n) as [r|st]; cbn in Hn; [|apply Hn].
  destruct Hn as [((Hst & _) & _) _]. exact Hst.
Qed.

(** Reading an entry or a term of a node's disk does not panic. *)
Lemma wp_try_entry i n (Q : LogEntry + error → Sim → Prop) E D s :
  storage_ok (storage n) →
  (∀ e, disk_entry (disk (storage n)) i = Some e → Q (inl e) s) →
  (∀ err, disk_entry (disk (storage n)) i = None →
     ((i <= d_base (disk (storage n)))%N → errorsIs err ErrCompacted = true) → Q (inr err) s) →
  wp (try (reads (λ _, MemoryStorage_GetEntry i (storage n)))) Q E D s.
Proof.
  intros Hst HQ HQ'. apply wp_try, wp_reads. pose proof (log_entry (storage n) i Hst) as He.
  change (GetEntry i (storage n)) with (MemoryStorage_GetEntry i (storage n)) in He.
  destruct (MemoryStorage_GetEntry i (storage n)); [by apply HQ| |done..]. destruct He as [Hnone Herr].
  apply HQ'; [done|]. intros Hle. by rewrite (proj2 (N.leb_le _ _) Hle) in Herr.
Qed.

Lemma wp_try_term i n (Q : Term + error → Sim → Prop) E D s :
  i ≠ 0%N → storage_ok (storage n) →
  (∀ t, disk_term (disk (storage n)) i = Some t → Q (inl t) s) → (∀ err, Q (inr err) s) →
  wp (try (reads (λ _, MemoryStorage_Term i (storage n)))) Q E D s.
Proof.
  intros Hi Hst HQ HQ'. apply wp_try, wp_reads. pose proof (log_term (storage n) i Hst Hi) as He.
  change (StorageTerm i (storage n)) with (MemoryStorage_Term i (storage n)) in He.
  destruct (MemoryStorage_Term i (storage n)); [by apply HQ|done..].
Qed.

(** A difference that cannot be found while the membership is fixed. *)
Lemma watches_differ c p s (b : bool) :
  judged c s → p ≠ PropCommitMonotonic → p ≠ PropAppliedFollowing → p ≠ PropElectionSafety →
  (settled s → b = false) → watches c (if b then report_violation p else ret None) s.
Proof.
  intros Hj H1 H2 H3 Hb. destruct b; [|by apply watches_none]. apply watches_report; [done|].
  split_and!; [done..|]. intros Hst. by specialize (Hb Hst).
Qed.

Lemma no_difference t t' (d d' : bytes) :
  t = t' → d = d' → negb (t =? t')%N || negb (bool_decide (d = d')) = false.
Proof. intros -> ->. by rewrite N.eqb_refl, bool_decide_eq_true_2. Qed.

(** A committed entry of a running node is there, unless it is compacted, and it is the
    one that was recorded before. *)
Lemma watches_entry c id n r i s :
  judged c s → s_nodes s !! id = Some n → n_st n = Up r → (0 < i ≤ CommitIndex r)%N → watches c (checkEntry id i) s.
Proof.
  intros Hj Hn Hr Hi. unfold watches, checkEntry. apply wp_bind. eapply wp_getNode; [done|].
  assert (disk (storage n) = log_disk (rn_log r)) as Ed by (unfold storage; by rewrite Hr).
  pose proof Hj as (Hs & (HC & HLd & Hto & Hrec) & HK). pose proof (sim_ok_up _ _ _ _ _ Hs Hn Hr) as (Hok & _).
  apply wp_bind, wp_try_entry; [by eapply judged_storage|..]; rewrite Ed; unfold CommitIndex in Hi.
  2: { intros err Hnone Herr. destruct (decide (i ≤ d_base (log_disk (rn_log r)))%N) as [Hle|Hgt].
       { rewrite (Herr Hle). by apply watches_none. }
       exfalso. destruct Hok as (_ & _ & _ & Hlast). unfold d_last in Hlast. unfold disk_entry in Hnone.
       rewrite (proj2 (N.leb_gt _ _)) in Hnone by lia. apply lookup_ge_None in Hnone. lia. }
  intros entry He. apply wp_bind, wp_get. cbv zeta.
  assert (settled s → historical (s_conf s) (w_past c) entry ∧ e_Index entry = i) as Hhist.
  { intros Hst. eapply committed_historical; [done..|by apply Hs|]. split; [apply Hi|done]. }
  destruct (ck_committed (s_checker s) !! i) as [prev|] eqn:Ep.
  - apply watches_differ; [done..|]. intros Hst. destruct (Hhist Hst) as [Hh Ei].
    destruct (Hrec Hst i prev Ep) as (e & He' & Ei' & -> & ->).
    assert (tale c s) as ((Hg & _) & _) by (by apply Hs).
    destruct (historical_agree _ _ _ _ Hg He' Hh) as [-> ->]; [congruence|]. by apply no_difference.
  - unfold on_checker. wp_go. split_and!; [apply looks_checker| |done]. split_and!; [exact HC|exact HLd|exact Hto|].
    cbn. intros Hst j ce [[<- <-]|[_ Hj']]%lookup_insert_Some; [|by apply Hrec].
    destruct (Hhist Hst). by exists entry.
Qed.

Lemma watches_committed c id n r s :
  judged c s → s_nodes s !! id = Some n → n_st n = Up r → watches c (checkCommittedEntries id) s.
Proof.
  intros Hj Hn Hr. unfold watches, checkCommittedEntries. apply wp_bind. eapply wp_getRN; [done..|].
  apply wp_bind, wp_get. cbv zeta. set (checked := default _ _).
  pose proof Hj as (Hs & (_ & _ & Hto & _) & _). apply watches_unless; [done|..].
  - apply watches_checkAll; [done|]. intros i s1 Hi Hj1 HL1.
    destruct (looks_node _ _ _ _ HL1 Hn) as (n1 & Hn1 & E1 & _). rewrite Hr in E1. eapply watches_entry; [done..|].
    assert (checked + 1 < W64)%N as Hsmall.
    { unfold checked. destruct (ck_checkedTo (s_checker s) !! id) as [x|] eqn:E; [exact (Hto _ _ E)|by vm_compute]. }
    unfold indexes in Hi. rewrite u64_add_small in Hi by done.
    apply list_elem_of_fmap in Hi as (k & -> & Hk%elem_of_seq). lia.
  - intros s1 Hj1 HL1. pose proof Hj1 as (_ & (HC & HLd & Hto1 & Hrec) & _). unfold watches, on_checker.
    destruct (_ <? _)%N; wp_go; (split_and!; [apply looks_checker || apply looks_refl| |done]); [|done].
    split_and!; [done..| |done]. cbn. intros j x [[<- <-]|[_ Hx]]%lookup_insert_Some; [|by eapply Hto1].
    pose proof (sim_ok_up _ _ _ _ _ Hs Hn Hr) as (Hok & _). destruct (log_ok_disk _ Hok) as (_ & Hb & _), Hok as (_ & _ & _ & Hl).
    unfold CommitIndex. lia.
Qed.

Lemma watches_Observe c s : judged c s → watches c Observe s.
Proof.
  intros Hj. unfold watches, Observe. apply wp_bind, wp_get. apply watches_checkAll; [done|].
  intros id s1 Hid Hj1 HL1. pose proof Hj as ((_ & _ & _ & _ & _ & [Hdom _] & _) & _).
  destruct (Hdom id Hid) as [n0 Hn0]. destruct (looks_node _ _ _ _ HL1 Hn0) as (n & Hn & _).
  apply wp_bind. eapply wp_getNode; [done|]. unfold crashed.
  destruct (n_st n) as [r|st] eqn:Er; [|by apply watches_none].
  apply watches_unless; [done|by eapply watches_election|]. intros s2 Hj2 HL2.
  destruct (looks_node _ _ _ _ HL2 Hn) as (n2 & Hn2 & E2 & _). rewrite Er in E2.
  apply watches_unless; [done|by eapply watches_commit|]. intros s3 Hj3 HL3.
  destruct (looks_node _ _ _ _ HL3 Hn2) as (n3 & Hn3 & E3 & _). rewrite E2 in E3.
  by eapply watches_committed.
Qed.

(** *** The final checks *)

Lemma watches_pairs c (body : NodeID → NodeID → simNode R → simNode R → M Sim (option Violation)) s :
  judged c s →
  (∀ a b na nb s1, judged c s1 → s_nodes s1 !! a = Some na → s_nodes s1 !! b = Some nb →
     watches c (body a b na nb) s1) →
  watches c (checkAll (pairs (s_ids s)) (λ ab,
    let '(a, b) := (ab : NodeID * NodeID) in
    na <- getNode a ;; nb <- getNode b ;; body a b na nb)) s.
Proof.
  intros Hj Hb. apply watches_checkAll; [done|]. intros [a b] s1 Hab Hj1 HL1.
  pose proof Hj1 as ((_ & _ & _ & _ & _ & [Hdom _] & _) & _). pose proof HL1 as (_ & Ei & _). rewrite Ei in Hdom.
  assert (a ∈ s_ids s ∧ b ∈ s_ids s) as [Ha Hb'].
  { clear -Hab. induction (s_ids s) as [|x l IH]; cbn in Hab; [by apply not_elem_of_nil in Hab|].
    apply elem_of_app in Hab as [(y & [= -> ->] & Hy)%list_elem_of_fmap|Hab].
    - split; [by left|by right].
    - destruct (IH Hab). split; by right. }
  destruct (Hdom a Ha) as [na Hna], (Hdom b Hb') as [nb Hnb].
  apply wp_bind. eapply wp_getNode; [done|]. apply wp_bind. eapply wp_getNode; [done|]. by apply Hb.
Qed.

(** The disk of a node, running or not, fits the history. *)
Lemma judged_durable c s id n :
  judged c s → settled s → s_nodes s !! id = Some n → ∃ L, durable (s_conf s) (w_past c) id L (storage n).
Proof.
  intros (Hs & _) Hst Hn. assert (tale c s) as ((_ & _ & Hrem) & _) by (by apply Hs). unfold storage.
  specialize (Hrem id _ (sim_ok_cluster _ _ _ _ _ Hs Hn eq_refl)).
  destruct (n_st n) as [r|st]; destruct Hrem as [L HL]; exists L; [|exact HL]. apply HL.
Qed.

(** Where both nodes have an entry it is the same. *)
Definition agreeing (na nb : simNode R) (i : Index) : Prop :=
  ∀ ea eb, disk_entry (disk (storage na)) i = Some ea → disk_entry (disk (storage nb)) i = Some eb → ea = eb.

Lemma terms_agree c s a b na nb k t :
  judged c s → settled s → s_nodes s !! a = Some na → s_nodes s !! b = Some nb → k ≠ 0%N →
  disk_term (disk (storage na)) k = Some t → disk_term (disk (storage nb)) k = Some t →
  ∀ i, (i ≤ k)%N → agreeing na nb i.
Proof.
  intros Hj Hst Ha Hb Hk Hta Htb i Hi ea eb Hea Heb.
  destruct (judged_durable _ _ _ _ Hj Hst Ha) as [L HL], (judged_durable _ _ _ _ Hj Hst Hb) as [L' HL'].
  assert (∀ d x, represents x d → disk_term d k = Some t → term_before x k t) as Hbefore.
  { intros d x Hrep Hd. right. split; [done|]. rewrite <- Hd. symmetry. apply represents_term; [done| |done].
    assert (is_Some (disk_term d k)) as Hs by by eexists. by apply disk_term_is_Some in Hs as [? _]. }
  assert (∀ d x e, represents x d → disk_entry d i = Some e → (0 < i)%N ∧ x !! N.to_nat (i - 1) = Some e) as Hentry.
  { intros d x e Hrep He. assert (d_base d < i)%N as Hlt.
    { unfold disk_entry in He. destruct (N.leb_spec i (d_base d)); [done|lia]. }
    split; [lia|]. rewrite <- He. symmetry. by apply represents_entry. }
  destruct (Hentry _ _ _ (du_rep _ _ _ _ _ HL) Hea) as [Hpos E1], (Hentry _ _ _ (du_rep _ _ _ _ _ HL') Heb) as [_ E2].
  pose proof (term_before_agree _ L L' k t (du_match _ _ _ _ _ HL) (du_match _ _ _ _ _ HL')
                (Hbefore _ _ (du_rep _ _ _ _ _ HL) Hta) (Hbefore _ _ (du_rep _ _ _ _ _ HL') Htb)) as E.
  rewrite (take_eq_lookup _ _ _ _ E) in E1 by lia. congruence.
Qed.

Lemma watches_compareAt c a b na nb i s :
  judged c s → s_nodes s !! a = Some na → s_nodes s !! b = Some nb → (settled s → agreeing na nb i) →
  watches c (compareAt a b i) s.
Proof.
  intros Hj Ha Hb Hag. unfold watches, compareAt.
  apply wp_bind. eapply wp_getNode; [done|]. apply wp_bind. eapply wp_getNode; [done|].
  apply wp_bind, wp_try_entry; [by eapply judged_storage|intros ea Hea|intros ea Hea _];
    (apply wp_bind, wp_try_entry; [by eapply judged_storage|intros eb Heb|intros eb Heb _]); try by apply watches_none.
  apply watches_differ; [done..|]. intros Hst. rewrite (Hag Hst ea eb Hea Heb). by apply no_difference.
Qed.

Lemma watches_compareBelow c a b na nb upto s :
  judged c s → s_nodes s !! a = Some na → s_nodes s !! b = Some nb →
  (settled s → ∀ i, (i ≤ upto)%N → agreeing na nb i) → watches c (compareBelow a b upto) s.
Proof.
  intros Hj Ha Hb Hag. unfold watches, compareBelow.
  apply wp_bind. eapply wp_getNode; [done|]. apply wp_bind. eapply wp_getNode; [done|].
  apply watches_checkAll; [done|]. intros i s1 Hi Hj1 HL1.
  destruct (looks_node _ _ _ _ HL1 Ha) as (na1 & Ha1 & Ea & _), (looks_node _ _ _ _ HL1 Hb) as (nb1 & Hb1 & Eb & _).
  eapply watches_compareAt; [done..|]. rewrite (looks_settled _ _ HL1). intros Hst.
  unfold agreeing, storage. rewrite Ea, Eb. apply (Hag Hst).
  unfold indexes in Hi. apply list_elem_of_fmap in Hi as (k & -> & Hk%elem_of_seq). lia.
Qed.

Lemma watches_matchDown c a b na nb i s :
  judged c s → s_nodes s !! a = Some na → s_nodes s !! b = Some nb → watches c (matchDown a b i) s.
Proof.
  intros Hj Ha Hb. induction i as [|i IH]; cbn [matchDown]; [by apply watches_none|]. unfold watches.
  apply wp_bind. eapply wp_getNode; [done|]. apply wp_bind. eapply wp_getNode; [done|].
  apply wp_bind, wp_try_term; [lia|by eapply judged_storage|intros ta Hta|intros ta];
    (apply wp_bind, wp_try_term; [lia|by eapply judged_storage|intros tb Htb|intros tb]); try by apply watches_none.
  destruct (N.eqb_spec ta tb) as [->|]; [|exact IH]. eapply watches_compareBelow; [done..|]. intros Hst.
  eapply terms_agree; [done..|lia|done|done].
Qed.

Lemma byIndex_elem l i e : byIndex l !! i = Some e → e ∈ l ∧ e_Index e = i.
Proof.
  induction l as [|x l IH] using rev_ind; [by unfold byIndex; cbn; rewrite lookup_empty|].
  unfold byIndex in *. rewrite foldl_app. cbn. rewrite elem_of_app, list_elem_of_singleton.
  intros [[<- <-]|[_ ?]]%lookup_insert_Some; [auto|]. destruct IH; auto.
Qed.

Lemma watches_Final c s : judged c s → watches c Final s.
Proof.
  intros Hj. unfold Final. apply watches_unless; [done|..].
  - unfold watches, checkLogMatching. apply wp_bind, wp_get. apply watches_pairs; [done|].
    intros a b na nb s1 Hj1 Ha Hb. destruct (_ || _); [by apply watches_none|].
    by eapply watches_matchDown.
  - intros s1 Hj1 _. unfold watches, checkStateMachinesAgree. apply wp_bind, wp_get.
    apply watches_pairs; [done|]. intros a b na nb s2 Hj2 Ha Hb.
    apply watches_checkAll; [done|]. intros eb s3 Heb Hj3 HL3.
    destruct (byIndex _ !! _) as [ea|] eqn:Ea; [|by apply watches_none].
    apply byIndex_elem in Ea as [Hea Ei]. apply watches_differ; [done..|].
    rewrite (looks_settled _ _ HL3). intros Hst. pose proof Hj2 as (Hs2 & _).
    assert (tale c s2) as ((Hg & _) & Ht & _) by (by apply Hs2).
    destruct (Ht a na Ha) as [Hha _], (Ht b nb Hb) as [Hhb _]. rewrite Forall_forall in Hha, Hhb.
    destruct (historical_agree _ _ _ _ Hg (Hha _ Hea) (Hhb _ Heb) Ei) as [-> ->]. by apply no_difference.
Qed.

(** ** One round of the event loop *)

Lemma wins_mono (c c' : cluster MemoryStorage R) w : cstep c c' → w ∈ cl_wins c → w ∈ cl_wins c'.
Proof.
  intros [a Ha] Hw. destruct a as [i o|i|i g|i|i cfg g]; cbn [perform] in Ha; repeat case_match; simplify_eq; cbn;
    try done; apply elem_of_app; by right.
Qed.

Lemma moves_judged c s c' s' : judged c s → moves c s c' s' → judged c' s'.
Proof.
  intros (Hs & (HC & HLd & Hto & Hrec) & K & HK) ([Hr Hg] & Hs' & (Ec & _ & Ecf & _ & Ek) & _ & Hn).
  split_and!; [done|split; [|split; [|split]]|].
  - rewrite Ek. intros id prev n' r' Hp Hn' Hr'. specialize (Hn id). rewrite Hn' in Hn.
    inversion Hn as [n ? Hstep En|]; subst. symmetry in En. destruct (Hstep r' Hr') as [|(Ef & r & Er & Hle)]; [by left|].
    rewrite Ef. destruct (HC id prev n r Hp En Er); [by left|right; lia].
  - rewrite Ek. intros t id Hl. destruct (HLd t id Hl) as [conf Hw]. exists conf. clear -Hr Hw.
    induction Hr as [|c1 c2 c3 Hstep _ IH]; [done|]. by eapply IH, wins_mono.
  - by rewrite Ek.
  - unfold settled. rewrite Ek, Ec, Ecf. intros Hst i ce Hi. destruct (Hrec Hst i ce Hi) as (e & He & Hrest).
    exists e. split; [by eapply historical_grown|done].
  - clear -Hr HK. revert K HK. induction Hr as [|c1 c2 c3 Hstep _ IH]; intros K HK; [by exists K|].
    destruct (Inv_step K c1 c2 HK Hstep) as [K' HK']. by eapply IH.
Qed.

Lemma moves_reportable c s c' s' : moves c s c' s' → reportable s' = reportable s.
Proof. intros (_ & _ & (Ec & _ & Ef & _) & _). unfold reportable, settled. by rewrite Ec, Ef. Qed.

(** No event of the queue is overdue. *)
Definition due s : Prop := ∀ e, e ∈ q_items (s_queue s) → (s_now s ≤ ev_at e)%Z.

(** The events of this instant. *)
Definition at_now s : nat := length (filter (λ e, ev_at e = s_now s) (q_items (s_queue s))).

(** How far the run has got. *)
Definition left s : nat * nat := (Z.to_nat (sc_Duration (s_cfg s) - s_now s), at_now s).

Definition fewer (p q : nat * nat) : Prop := (p.1 < q.1)%nat ∨ (p.1 = q.1 ∧ (p.2 < q.2)%nat).

Lemma fewer_wf : well_founded fewer.
Proof.
  intros [a b]. revert b. induction a as [a IHa] using (well_founded_induction Nat.lt_wf_0).
  intros b. induction b as [b IHb] using (well_founded_induction Nat.lt_wf_0).
  constructor. intros [a' b'] [Ha|[Ha Hb]]; cbn in *; [by apply IHa|subst a'; by apply IHb].
Qed.

(** Taking the earliest event, and going to its instant. *)
Lemma pop_round c s :
  judged c s → due s → q_items (s_queue s) ≠ [] →
  ∃ e q', q_pop (s_queue s) = (Ret (Some e), q') ∧
    q_items (s_queue s) ≡ₚ e :: q_items q' ∧ (s_now s ≤ ev_at e)%Z ∧
    judged c (set_queue q' s) ∧
    let s1 := set_now (ev_at e) (set_queue q' s) in
    ((ev_at e ≤ sc_Duration (s_cfg s))%Z → judged c s1) ∧ due s1 ∧ fit c s1 e.
Proof.
  intros (Hs & Hk & HK) Hdue Hne.
  pose proof Hs as (H1 & H2 & H3 & H4 & H5 & [H6 H6k] & H7 & H8 & H9 & H10 & H11 & H12 & H13 & H14).
  destruct (pop_heap _ H3 Hne) as (e & q' & EP & Hh & HP & Hmin & _).
  assert (s_now s ≤ ev_at e)%Z as Hle by (apply Hdue; rewrite HP; by left).
  assert (sim_ok c (set_queue q' s)) as Hs1.
  { split_and!; try done. cbn. intros x Hx. apply (H4 x). rewrite HP. by right. }
  exists e, q'. do 3 (split; [done|]). split; [by split_and!|]. split; [|split].
  - intros HD. split_and!; [|exact Hk|exact HK]. split_and!; try apply Hs1; cbn; [lia|].
    destruct H9 as (Hb & _). cbv zeta in Hb. rewrite Forall_cons in Hb. unfold small in *. lia.
  - intros x Hx. cbn in *. eapply Forall_forall in Hmin; [|done].
    unfold ev_le, ev_less in Hmin. destruct (Z.eqb_spec (ev_at x) (ev_at e)); cbn in Hmin; [lia|].
    by apply Z.ltb_ge in Hmin.
  - apply (H4 e). rewrite HP. by left.
Qed.

(** An event done: the others are still to come, and the new ones are for later. *)
Lemma round_left c s e q' c' s' :
  q_items (s_queue s) ≡ₚ e :: q_items q' → (s_now s ≤ ev_at e ≤ sc_Duration (s_cfg s))%Z →
  let s1 := set_now (ev_at e) (set_queue q' s) in
  due s1 → moves c s1 c' s' → due s' ∧ fewer (left s') (left s).
Proof.
  intros HP Hle s1 Hdue (_ & _ & (Ec & _ & _ & En & _) & (new & HN & Hnew) & _).
  rewrite Forall_forall in Hnew. cbn in Ec, En, HN, Hnew. split.
  - intros x. rewrite HN, En. intros [Hx|Hx]%elem_of_app; [specialize (Hnew x Hx); lia|by apply Hdue].
  - unfold fewer, left. rewrite Ec, En. cbn.
    destruct (decide (ev_at e = s_now s)) as [E|]; [right|left; lia]. rewrite E. split; [done|].
    unfold at_now. rewrite En, E, HN, HP, filter_app, filter_cons_True by done.
    rewrite length_app. cbn [length].
    assert (filter (λ x, ev_at x = s_now s) new = []) as ->; [|cbn; lia].
    apply elem_of_nil_inv. intros x [Ex Hx]%list_elem_of_filter. specialize (Hnew x Hx). lia.
Qed.

(** What a round may lead to: the end, or a violation it may report, or a later state. *)
Lemma step_spec c s :
  judged c s → has_room s → due s →
  match step s with
  | (Ret None, s') => reportable s' = reportable s ∧ judged c s'
  | (Ret (Some (Some w)), s') => reportable s (v_Property w)
  | (Ret (Some None), s') => ∃ c', reportable s' = reportable s ∧ judged c' s' ∧ due s' ∧ fewer (left s') (left s)
  | (Fail _, _) => True
  | (Panic p, _) => tolerated p
  | (OutOfFuel, _) => False
  end.
Proof.
  intros Hj Hroom Hdue. unfold step, bind, zoom.
  destruct (nil_or_length_pos (q_items (s_queue s))) as [Ei|Hne].
  { unfold q_pop, bind, get. rewrite Ei. cbn. by destruct s. }
  destruct (pop_round c s Hj Hdue) as (e & q' & EP & HP & Hle & Hj0 & Hj1 & Hdue1 & Hfit);
    [by intros E; rewrite E in Hne|].
  rewrite EP. cbn [get]. unfold get. destruct (Z.ltb_spec (sc_Duration (s_cfg (set_queue q' s))) (ev_at e)) as [|HD]; [done|].
  cbn [modify]. unfold modify. specialize (Hj1 HD). set (s1 := set_now (ev_at e) (set_queue q' s)) in *.
  assert (fine (apply_event e) c s1) as Hfine.
  { by apply apply_event_fine; [apply Hj1|exact Hroom|]. }
  unfold fine, ewp in Hfine. destruct (apply_event e s1) as [[u| | |] s2]; try done.
  destruct Hfine as (c2 & Hmv & _).
  pose proof (moves_judged _ _ _ _ Hj1 Hmv) as Hj2.
  destruct (round_left c s e q' c2 s2 HP (conj Hle HD) Hdue1 Hmv) as [Hdue2 Hleft].
  destruct (wp_returns _ _ _ (watches_Observe c2 s2 Hj2)) as (v & s3 & -> & HL & Hck & Hv).
  pose proof (moves_reportable _ _ _ _ Hmv) as Er. change (reportable s1) with (reportable s) in Er.
  cbn [ret]. unfold ret. destruct v as [w|]; [rewrite <- Er; by apply Hv|]. exists c2. split_and!.
  - by rewrite (looks_reportable _ _ HL).
  - by eapply judged_looks.
  - intros x. pose proof HL as (_ & _ & _ & -> & -> & _). apply Hdue2.
  - unfold left, at_now in *. by pose proof HL as (-> & _ & _ & -> & -> & _).
Qed.

(** ** The event loop *)

(** The states at the top of the loop. *)
Inductive visits (s : Sim) : Sim → Prop :=
  | visits_here : visits s s
  | visits_later s1 s2 : step s = (Ret (Some None), s1) → visits s1 s2 → visits s s2.

Definition ends {A} (res : outcome A * Sim) (Q : A → Sim → Prop) : Prop :=
  match res with
  | (Ret a, s') => Q a s'
  | (Fail _, _) => True
  | (Panic p, _) => tolerated p
  | (OutOfFuel, _) => False
  end.

Lemma loop_ends c s :
  judged c s → due s → (∀ s', visits s s' → has_room s') →
  ∃ fuel, ∀ k, (fuel ≤ k)%nat →
    ends (loop k s) (λ v s', match v with
      | Some w => reportable s (v_Property w)
      | None => reportable s' = reportable s ∧ ∃ c', judged c' s'
      end).
Proof.
  remember (left s) as p eqn:Ep. revert c s Ep.
  induction p as [p IH] using (well_founded_induction fewer_wf). intros c s -> Hj Hdue Hvis.
  pose proof (step_spec c s Hj (Hvis s (visits_here s)) Hdue) as Hst.
  destruct (step s) as [o s'] eqn:Es.
  destruct o as [[[w|]|]|e|q|].
  2: { destruct Hst as (c' & Er & Hj' & Hdue' & Hleft).
       destruct (IH _ Hleft c' s' eq_refl Hj' Hdue') as [fuel Hf].
       { intros s2 H2. apply Hvis. by eapply visits_later. }
       exists (Datatypes.S fuel). intros [|k] Hk; [lia|]. cbn [loop]. unfold bind. rewrite Es. rewrite <- Er. apply Hf. lia. }
  all: exists 1%nat; intros [|k] Hk; [lia|]; cbn [loop]; unfold bind; rewrite Es; try exact Hst.
  destruct Hst. split; [done|by exists c].
Qed.

(** *** Before the loop *)

Lemma opening_moves c s :
  judged c s → s_now s = 0%Z →
  ewp opening (λ _ _ _, True) c s.
Proof.
  intros (Hs & _) H0. pose proof Hs as (_ & _ & _ & _ & _ & [Hdom _] & _ & _ & (Hb & Hp & _) & _).
  cbv zeta in Hb, Hp. repeat rewrite Forall_cons in Hb. repeat rewrite Forall_cons in Hp. unfold small in Hb.
  unfold opening. apply ewp_bind, ewp_get; [done|]. apply ewp_bind.
  apply (ewp_mono _ (λ _ c' s', c' = c ∧ keeps_nodes s s')).
  { cut (∀ ids s1, (∀ id, id ∈ ids → is_Some (s_nodes s !! id)) → sim_ok c s1 → keeps_nodes s s1 →
      ewp (forEach ids (λ id, d <- draw_Intn (sc_TickInterval (s_cfg s)) ;;
          schedule (happening (int_add d 1) evTick id false)))
        (λ _ c' s', c' = c ∧ keeps_nodes s s') c s1); [intros H; by apply H|]. intros ids.
    induction ids as [|id ids IH]; intros s1 Hd Hs1 Hk; cbn [forEach]; [by apply ewp_ret|].
    apply ewp_bind, ewp_bind, ewp_draw_Intn; [done|lia|]. intros d s2 Hd2 K2 Hs2.
    pose proof (keeps_nodes_trans _ _ _ Hk K2) as K12.
    apply ewp_schedule; [done|rewrite (keeps_now _ _ K12), H0; cbn; unfold int_add; rewrite int_wrap_small; lia|..].
    - unfold fit. cbn. rewrite (proj2 K12). apply Hd. by left.
    - intros s3 K3 Hs3. apply IH; [|done|by eapply keeps_nodes_trans]. intros i Hi. apply Hd. by right. }
  intros _ c1 s1 Hmv [-> K1]. pose proof (sim_moves_ok _ _ _ _ Hmv) as Hs1.
  apply ewp_bind, ewp_schedule; [done|rewrite (keeps_now _ _ K1), H0; cbn; lia|done|]. intros s2 K2 Hs2.
  destruct (Z.ltb_spec 0 (sc_WriteInterval (s_cfg s))) as [Hw|]; [|by apply ewp_ret].
  pose proof (keeps_nodes_trans _ _ _ K1 K2) as K12.
  apply ewp_schedule; [done|rewrite (keeps_now _ _ K12), H0; cbn; lia| |done].
  unfold fit. cbn. by destruct K12 as [(-> & _) _].
Qed.

(** What [Run] needs of the simulator it is called on. *)
Definition ready c s : Prop := judged c s ∧ s_now s = 0%Z ∧ q_items (s_queue s) = [].

(** The states that [Run] goes through have room. *)
Definition stays_roomy s : Prop :=
  ∀ s0 s', opening s = (Ret tt, s0) → visits s0 s' → has_room s'.

Lemma Run_ends c s :
  ready c s → stays_roomy s →
  ∃ fuel, ∀ k, (fuel ≤ k)%nat →
    ends (Run k s) (λ rep _, ∀ w, rp_Violation rep = Some w → reportable s (v_Property w)).
Proof.
  intros (Hj & H0 & Hq) Hroom. pose proof (opening_moves c s Hj H0) as Ho. unfold ewp in Ho.
  unfold Run. destruct (opening s) as [[[]|e|p|] s0] eqn:Eo; try done.
  2-3: by exists 0%nat; intros k _; unfold bind; rewrite Eo.
  destruct Ho as (c0 & Hmv & _). pose proof (moves_judged _ _ _ _ Hj Hmv) as Hj0.
  destruct (loop_ends c0 s0) as [fuel Hf]; [done| |intros s' Hs'; by apply (Hroom s0)|].
  { intros e He. destruct Hmv as (_ & _ & (_ & _ & _ & En & _) & (new & HN & Hnew) & _).
    rewrite HN, Hq, app_nil_r in He. eapply Forall_forall in Hnew; [|done]. lia. }
  exists fuel. intros k Hk. specialize (Hf k Hk). rewrite (moves_reportable _ _ _ _ Hmv) in Hf. unfold bind. rewrite Eo.
  destruct (loop k s0) as [[v| | |] s1]; try done. cbn in Hf. destruct v as [w|].
  - cbn. by intros w' [= <-].
  - destruct Hf as [<- [c' Hj']]. destruct (wp_returns _ _ _ (watches_Final c' s1 Hj')) as (v & s2 & -> & _ & _ & Hv).
    cbn. exact Hv.
Qed.

(** *** A new simulator *)

Lemma start_all c s ids :
  judged c s → NoDup ids → (∀ id n, id ∈ ids → s_nodes s !! id = Some n → crashed n = true) →
  ck_lastCommit (s_checker s) = ∅ → (∀ id, id ∈ ids → is_Some (s_nodes s !! id)) →
  ends (forEach ids sim_start s)
    (λ _ s', ∃ c', judged c' s' ∧ frame s s' ∧ s_queue s' = s_queue s).
Proof.
  revert c s. induction ids as [|id ids IH]; intros c s Hj Hnd Hdown H0 Hdom; cbn [forEach].
  { cbn. by exists c. }
  apply NoDup_cons in Hnd as [Hni Hnd]. destruct (Hdom id) as [n Hn]; [by left|].
  pose proof Hj as (Hs & (_ & HLd & Hto & Hrec) & K & HK).
  pose proof (start_performs id n c s Hs Hn ltac:(eapply Hdown; [by left|done])) as Hst. unfold bind.
  destruct (sim_start id s) as [[u| | |] s1]; try done.
  destruct Hst as (rn & n' & Ha & P & Ht & En' & Eid & Hfits & Eno & F & Eq). pose proof F as (Ec & _ & Ef & _ & Ek).
  assert (∃ H', grown (w_past c) H' ∧ sim_ok (mkWorld (set_node id (Up rn) c) H') s1) as (H' & Hg & Hs1).
  { eapply (act_sim_ok _ c s _ s1 id n n'); [done|done|exact Ha|exact P|..]; try done.
    - cbn. by rewrite En'.
    - intros snap _ _ (? & ? & ? & [=] & _). }
  set (c1 := mkWorld (set_node id (Up rn) c) H') in *.
  assert (judged c1 s1) as Hj1.
  { split_and!; [done| |by eapply Inv_step; [exact HK|eexists; exact P]].
    unfold ck_ok, settled. rewrite Ek, H0, Ec, Ef. split_and!; [|exact HLd|done|].
    - intros i prev n0 r0. by rewrite lookup_empty.
    - intros Hst i ce Hi. destruct (Hrec Hst i ce Hi) as (e & He & Hrest).
      exists e. split; [by eapply historical_grown|done]. }
  assert (∀ i, i ∈ ids → s_nodes s1 !! i = s_nodes s !! i) as Ei.
  { intros i Hi. rewrite Eno, lookup_insert_ne; [done|]. intros ->. done. }
  assert (ends (forEach ids sim_start s1)
    (λ _ s', ∃ c', judged c' s' ∧ frame s1 s' ∧ s_queue s' = s_queue s1)) as Hrest.
  { apply (IH c1); [done|done| |by rewrite Ek|].
    - intros i n0 Hi. rewrite (Ei i Hi). apply Hdown. by right.
    - intros i Hi. rewrite (Ei i Hi). apply Hdom. by right. }
  destruct (forEach ids sim_start s1) as [[a| | |] s2]; try exact Hrest.
  destruct Hrest as (c2 & Hj2 & F2 & Eq2). exists c2. split_and!; [exact Hj2| |congruence].
  by eapply frame_trans.
Qed.

Lemma new_disk_ready : disk_ready NewMemoryStorage.
Proof.
  split_and!; [apply mem_ok_new|by vm_compute|constructor|].
  split; [|apply imaged_nil].
  apply conf_ok_check; [repeat constructor; by vm_compute|apply vetted_zero|by vm_compute].
Qed.

Lemma new_pristine : pristine NewMemoryStorage.
Proof. split; [apply new_disk_ready|]. by split_and!. Qed.

(** [New] gives a simulator that can run: its nodes start on empty disks. *)
Lemma New_ready (seeded : Z → R) cfg s :
  cfg_ok (sim_withDefaults cfg) →
  let ids := slices_Sort (N.of_nat <$> seq 1 (Z.to_nat (sc_Nodes (sim_withDefaults cfg)))) in
  conf_ok (NewConfiguration ids []) → (∀ i, known i ↔ i ∈ ids) →
  ((0 < QArith_base.Qnum (MembershipRate (sc_Faults (sim_withDefaults cfg))))%Z → asks_ok ids) →
  New seeded cfg = Ret s →
  (∃ c, ready c s) ∧ s_cfg s = sim_withDefaults cfg ∧ s_conf s = NewConfiguration ids [].
Proof.
  intros Hcfg ids Hconf Hknown Hasks. unfold New. set (cfg' := sim_withDefaults cfg) in *.
  destruct (Z.ltb_spec (sc_Nodes cfg') 1) as [|Hn]; [done|]. fold ids. cbv zeta.
  set (nodes := list_to_map _). set (s0 := mkSimulator _ _ _ _ _ _ _ _ _ _ _ _).
  assert (ids ≡ₚ (N.of_nat <$> seq 1 (Z.to_nat (sc_Nodes cfg')))) as HP by apply slices_Sort_Permutation.
  assert (NoDup ids) as Hnd.
  { rewrite HP. apply NoDup_fmap_2; [apply _|]. apply NoDup_seq. }
  assert (∀ i n, nodes !! i = Some n ↔ i ∈ ids ∧ n = newNode i) as Hnodes.
  { intros i n. subst nodes. rewrite <- elem_of_list_to_map.
    - rewrite list_elem_of_fmap. split; [intros (j & [= -> ->] & ?); done|intros [? ->]; eauto].
    - rewrite <- list_fmap_compose. change (fst ∘ _) with (@id NodeID). by rewrite list_fmap_id. }
  set (disks := (λ _, NewMemoryStorage) <$> nodes).
  destruct (chronicled_start (G := R) (NewConfiguration ids []) disks) as (H0 & Esn & Hc0).
  { intros i st (n & <- & _)%lookup_fmap_Some. apply new_pristine. }
  assert (judged (mkWorld (start_cluster disks) H0) s0) as Hj.
  { split_and!.
    - split_and!; try done; cbn.
      + apply start_cluster_ok. intros i st (n & <- & _)%lookup_fmap_Some. apply new_disk_ready.
      + subst disks. rewrite <- map_fmap_compose. apply map_fmap_ext. intros i n [_ ->]%Hnodes. done.
      + intros e He. by apply not_elem_of_nil in He.
      + by intros i n [_ ->]%Hnodes.
      + intros i Hi. exists (newNode i). by apply Hnodes.
      + intros i. rewrite Hknown. split; [intros Hi; exists (newNode i); by apply Hnodes|].
        by intros [n [? _]%Hnodes].
      + intros E. rewrite E in HP. apply Permutation_nil, fmap_nil_inv in HP.
        apply (f_equal length) in HP. rewrite length_seq in HP. cbn [length] in HP. lia.
      + intros _. split; [exact Hc0|]. split; cbn; [by intros i n [_ ->]%Hnodes|]. rewrite Esn. by intros snap ?%not_elem_of_nil.
    - split_and!; cbn; try intros _; intros *; by rewrite lookup_empty.
    - exists (λ _ _ _, False). apply Inv_start. intros i st (n & <- & [Hi _]%Hnodes)%lookup_fmap_Some.
      split; [|done]. rewrite HP in Hi. apply list_elem_of_fmap in Hi as (k & -> & Hk%elem_of_seq).
      unfold None_. lia. }
  pose proof (start_all _ s0 ids Hj Hnd) as Hall.
  assert (∀ i n, i ∈ ids → s_nodes s0 !! i = Some n → crashed n = true) as Hdown by (by intros i n _ [_ ->]%Hnodes).
  specialize (Hall Hdown eq_refl ltac:(intros i Hi; exists (newNode i); by apply Hnodes)).
  destruct (forEach ids sim_start s0) as [[u| | |] s1]; try done. intros [= <-].
  destruct Hall as (c & Hj' & (Ec & _ & Ef & En & _) & Eq). split; [|by split].
  exists c. split_and!; [exact Hj'|exact En|by rewrite Eq].
Qed.
End sim_run.

(** ** Two kinds of runs *)

(** The ids of the simulated nodes. *)
Definition sim_ids (cfg : simConfig) : list NodeID :=
  slices_Sort (N.of_nat <$> seq 1 (Z.to_nat (sc_Nodes (sim_withDefaults cfg)))).

(** Whatever the membership changes do, the members are simulated nodes. *)
Definition inside (ids : list NodeID) (c : Configuration) : Prop :=
  ∀ x, x ∈ Voters c ∨ x ∈ OldVoters c ∨ x ∈ Learners c → x ∈ ids.

Lemma inside_normalize ids v o l :
  (∀ x, x ∈ v ∨ x ∈ o ∨ x ∈ l → x ∈ ids) → inside ids (normalize (mkConfiguration v o l)).
Proof.
  intros H x. destruct (normalize_spec (mkConfiguration v o l)) as (_ & Hv & Ho & Hl & _).
  rewrite Hv, Ho, Hl. cbn. intros [?|[?|[? _]]]; auto.
Qed.

Program Definition members_inside (ids : list NodeID) : Vetting := 
  {| vetted := inside ids; known i := i ∈ ids; imaged := pictured |}.
Next Obligation. intros ids x. cbn. intros [H|[H|H]]; by apply not_elem_of_nil in H. Qed.
Next Obligation.
  intros ids c cc Hc. unfold LeaveJoint, Validate. repeat case_match; try done. intros [= <-]. cbn.
  apply inside_normalize. intros x [?|[[]%not_elem_of_nil|?]]; apply Hc; auto.
Qed.
Next Obligation. intros ids c i Hc Hi. apply Hc. by apply elem_of_Members. Qed.
Next Obligation. by left. Qed.

#[export] Instance inside_images ids : ImagesVetted (HVet := members_inside ids).
Proof. done. Qed.

Lemma inside_encodable ids c :
  Forall (λ i, (i < W64)%N) ids → (N.of_nat (length ids) ≤ maxNodeIDCap)%N →
  inside ids c → conf_normal c → conf_encodable c.
Proof.
  intros Hids Hlen Hin (Hv & Ho & Hl & _). rewrite Forall_forall in Hids. unfold conf_encodable.
  assert (∀ l, sorted_unique l → (∀ x, x ∈ l → x ∈ ids) →
    Forall (λ i, (i < W64)%N) l ∧ (N.of_nat (length l) ≤ maxNodeIDCap)%N) as Hlist.
  { intros l Hs Hl'. split; [apply Forall_forall; auto|].
    enough (length l ≤ length ids)%nat by lia. apply submseteq_length, NoDup_submseteq; [|done].
    by apply sorted_unique_NoDup. }
  repeat constructor; apply Hlist; try done; intros x Hx; apply Hin; auto.
Qed.

(** The bound on the number of nodes is that of the encoding of a configuration. *)
Lemma sim_ids_ok cfg :
  (sc_Nodes (sim_withDefaults cfg) ≤ Z.of_N maxNodeIDCap)%Z →
  Forall (λ i, (i < W64)%N) (sim_ids cfg) ∧ (N.of_nat (length (sim_ids cfg)) ≤ maxNodeIDCap)%N.
Proof.
  intros Hn. unfold sim_ids. rewrite !slices_Sort_Permutation. rewrite length_fmap, length_seq. split; [|lia].
  apply Forall_forall. intros x (k & -> & Hk%elem_of_seq)%list_elem_of_fmap. unfold W64, maxNodeIDCap in *. lia.
Qed.

Lemma inside_boot ids : inside ids (NewConfiguration ids []).
Proof. apply inside_normalize. intros x [?|[[]%not_elem_of_nil|[]%not_elem_of_nil]]; done. Qed.

Lemma inside_conf_ok cfg :
  (sc_Nodes (sim_withDefaults cfg) ≤ Z.of_N maxNodeIDCap)%Z →
  @conf_ok (members_inside (sim_ids cfg)) (NewConfiguration (sim_ids cfg) []).
Proof.
  intros [Hi Hl]%sim_ids_ok. split; [split|].
  - by eapply inside_encodable; [..|apply inside_boot|apply normalize_normal].
  - apply inside_boot.
  - apply normalize_normal.
Qed.

Lemma inside_asks cfg :
  (sc_Nodes (sim_withDefaults cfg) ≤ Z.of_N maxNodeIDCap)%Z →
  asks_ok (HVet := members_inside (sim_ids cfg)) (sim_ids cfg).
Proof.
  intros [Hi Hl]%sim_ids_ok current voters [[_ Hcur] _] Hv.
  assert (inside (sim_ids cfg) (NewConfiguration voters [])) as Ht.
  { apply inside_normalize. intros x [Hx|[[]%not_elem_of_nil|[]%not_elem_of_nil]].
    destruct (Hv x Hx); [|done]. apply Hcur. by left. }
  split; [by eapply inside_encodable; [..|apply normalize_normal]|].
  intros c cc Hc. unfold EnterJoint, Validate. repeat case_match; try done. intros [= <-]. cbn.
  apply inside_normalize. intros x [?|[?|?]]; [apply Ht; auto|apply Hc; auto|apply Ht; auto].
Qed.

(** Nothing but the configuration the cluster starts with. *)
Program Definition always (ids : list NodeID) : Vetting :=
  {| vetted c := c = NewConfiguration ids [] ∨ c = zeroConfiguration; known i := i ∈ ids; imaged := pictured |}.
Next Obligation. intros ids. by right. Qed.
Next Obligation. by intros ids c cc [->| ->]. Qed.
Next Obligation.
  intros ids c i [->| ->] Hi%elem_of_Members; [by apply inside_boot|].
  cbn in Hi. by destruct Hi as [?%not_elem_of_nil|[?%not_elem_of_nil|?%not_elem_of_nil]].
Qed.
Next Obligation. by left. Qed.

#[export] Instance always_images ids : ImagesVetted (HVet := always ids).
Proof. done. Qed.

Lemma always_overlapping ids :
  overlapping (HVet := always ids).
Proof.
  intros c c' f g Hc Hc' [Hf _]%HasQuorum_spec [Hg _]%HasQuorum_spec.
  assert (∀ c f, c = zeroConfiguration → hasMajority (Voters c) f = true → False) as Hz.
  { intros c0 f0 ->. by vm_compute. }
  destruct Hc as [->| ->]; [|by exfalso; eapply Hz]. destruct Hc' as [->| ->]; [|by exfalso; eapply Hz].
  destruct (majorities_intersect _ _ _ Hf Hg) as (v & _ & ?). by exists v.
Qed.

Section theorems.
Context {R : Type} `{HSrc : Source R} `{HLaws : !SourceLaws R} `{HFmt : Fmt} `{HSha : Sha256}.
Context `{HMap : MapRange}.

(** C15: A simulation comes to an end.  Take any seed and any configuration whose delays are
    positive and cannot overflow virtual time, with any rates of loss, duplication,
    reordering, partitions, crashes and membership changes, but no disk loss: as long as
    no log runs out of its 64-bit indexes, [Run] returns a report or an error after
    finitely many events.  It does not panic, other than by a state machine that outgrows
    the address space, and it never reports that a commit index moved back or that a node
    applied beyond its commit index. *)
Theorem simulation_ends (seeded : Z → R) cfg s :
  cfg_ok (sim_withDefaults cfg) → (sc_Nodes (sim_withDefaults cfg) ≤ Z.of_N maxNodeIDCap)%Z →
  New seeded cfg = Ret s → stays_roomy s →
  ∃ fuel, ∀ k, (fuel ≤ k)%nat →
    ends (Run k s) (λ rep _, ∀ w, rp_Violation rep = Some w →
      v_Property w ≠ PropCommitMonotonic ∧ v_Property w ≠ PropAppliedFollowing).
Proof.
  intros Hcfg Hn Hnew Hroom.
  destruct (New_ready (HVet := members_inside (sim_ids cfg)) seeded cfg s Hcfg) as [[c Hready] _];
    [by apply inside_conf_ok|done|intros _; by apply inside_asks|done|].
  destruct (Run_ends (HVet := members_inside (sim_ids cfg)) c s Hready Hroom) as [fuel Hf].
  exists fuel. intros k Hk. specialize (Hf k Hk). destruct (Run k s) as [[rep| | |] s']; try done.
  intros w Hw. destruct (Hf w Hw) as (? & ? & _). done.
Qed.

Lemma fixed_membership_clean (seeded : Z → R) cfg s :
  cfg_ok (sim_withDefaults cfg) → (sc_Nodes (sim_withDefaults cfg) ≤ Z.of_N maxNodeIDCap)%Z →
  (QArith_base.Qnum (MembershipRate (sc_Faults cfg)) ≤ 0)%Z →
  New seeded cfg = Ret s → stays_roomy s →
  ∃ fuel, ∀ k, (fuel ≤ k)%nat → ends (Run k s) (λ rep _, rp_Violation rep = None).
Proof.
  intros Hcfg Hn Hfix Hnew Hroom.
  destruct (New_ready (HVet := always (sim_ids cfg)) seeded cfg s Hcfg) as ([c Hready] & Ec & Ef);
    [|done|cbn; lia|done|].
  { destruct (inside_conf_ok cfg Hn) as [[He _] Hnorm]. split; [split; [done|by left]|done]. }
  destruct (Run_ends (HVet := always (sim_ids cfg)) c s Hready Hroom) as [fuel Hf].
  exists fuel. intros k Hk. specialize (Hf k Hk). destruct (Run k s) as [[rep| | |] s']; try done. cbn in *.
  destruct (rp_Violation rep) as [w|]; [|done]. destruct (Hf w eq_refl) as (_ & _ & HE & Hset).
  destruct (HE (always_overlapping _)). apply Hset. split; [by rewrite Ef|]. rewrite Ec. exact Hfix.
Qed.

(** C14: With the membership fixed, a simulation never reports a violation.  Take any seed and
    any configuration whose delays are positive and cannot overflow virtual time, with any
    rates of loss, duplication, reordering, partitions and crashes, with snapshots and
    restarts from disk, but no disk loss: as long as no log runs out of its 64-bit indexes,
    [Run] returns a report without violation, or an error, after finitely many events; it
    panics only when a state machine outgrows the address space.  None of the six checks
    ever fires, not those made after every event (one leader per term, commit indexes that
    only grow, applied entries within the committed ones, committed entries that never
    change) nor those made at the end (logs that match, state machines that agree), also
    where a state machine was restored from a snapshot. *)
Theorem simulation_clean (seeded : Z → R) cfg s :
  cfg_ok (sim_withDefaults cfg) → (sc_Nodes (sim_withDefaults cfg) ≤ Z.of_N maxNodeIDCap)%Z →
  (QArith_base.Qnum (MembershipRate (sc_Faults cfg)) ≤ 0)%Z →
  New seeded cfg = Ret s → stays_roomy s →
  ∃ fuel, ∀ k, (fuel ≤ k)%nat → ends (Run k s) (λ rep _, rp_Violation rep = None).
Proof. apply fixed_membership_clean. Qed.

(** In particular it never reports two leaders of one term. *)
Theorem simulation_one_leader (seeded : Z → R) cfg s :
  cfg_ok (sim_withDefaults cfg) → (sc_Nodes (sim_withDefaults cfg) ≤ Z.of_N maxNodeIDCap)%Z →
  (QArith_base.Qnum (MembershipRate (sc_Faults cfg)) ≤ 0)%Z →
  New seeded cfg = Ret s → stays_roomy s →
  ∃ fuel, ∀ k, (fuel ≤ k)%nat →
    ends (Run k s) (λ rep _, ∀ w, rp_Violation rep = Some w → v_Property w ≠ PropElectionSafety).
Proof.
  intros H1 H2 H3 H4 H5. destruct (fixed_membership_clean seeded cfg s H1 H2 H3 H4 H5) as [fuel Hf].
  exists fuel. intros k Hk. specialize (Hf k Hk). destruct (Run k s) as [[rep| | |] s']; try done.
  intros w. cbn in Hf. congruence.
Qed.
End theorems.

(** ** A simulation

    Three nodes, 150 ms, every fault of the network and of the machines, with a linear
    congruential generator in place of math/rand. *)

Section checking.
Context {R : Type} `{HSrc : Source R} `{HFmt : Fmt} `{HSha : Sha256} `{HMap : MapRange}.

Definition roomyb (s : Simulator R) : bool :=
  forallb (λ kn, match n_st kn.2 with
                 | Up r => (last_of r + 3 <? W64)%N
                 | Down _ => true
                 end) (map_to_list (s_nodes s)).

(** Runs at most [fuel] rounds and looks at every state on the way. *)
Fixpoint all_roomy (fuel : nat) (s : Simulator R) : bool :=
  roomyb s &&
  match step s with
  | (Ret (Some None), s1) => match fuel with O => false | S k => all_roomy k s1 end
  | _ => true
  end.

Lemma roomyb_sound s : roomyb s = true → has_room s.
Proof.
  unfold roomyb. rewrite forallb_forall. intros Hn id n r Hi Hr.
  apply elem_of_map_to_list, list_elem_of_In in Hi. specialize (Hn _ Hi). cbn in Hn.
  rewrite Hr in Hn. by apply N.ltb_lt in Hn.
Qed.

Lemma all_roomy_sound fuel s : all_roomy fuel s = true → ∀ s', visits s s' → has_room s'.
Proof.
  revert s. induction fuel as [|fuel IH]; intros s Ha s' Hv; cbn [all_roomy] in Ha;
    apply andb_prop in Ha as [Hr%roomyb_sound Hs]; destruct Hv as [|s1 s2 E Hv]; try done;
    rewrite E in Hs; [done|by eapply IH].
Qed.
End checking.

Module Example.
Definition next (g : N) : N := ((g * 6364136223846793005 + 1442695040888963407) mod W64)%N.
Definition bits (g : N) : Z := Z.of_N (N.shiftr g 33).

#[export] Instance lcg_rand : Rand N := {| Intn n g := ((bits g mod n)%Z, next g) |}.
#[export] Instance lcg_source : Source N := {|
  src_Rand := lcg_rand;
  src_Int63n n g := ((bits g mod n)%Z, next g);
  src_Float64 g := (QArith_base.Qmake (bits g mod 1073741824) 1073741824, next g)
|}.
#[export] Instance lcg_laws : SourceLaws N.
Proof. split; intros; by apply Z.mod_pos_bound. Qed.

#[export] Instance no_text : Fmt := {| sprint _ _ := [] |}.
#[export] Instance as_is : Sha256 := {| Sum256 b := b |}.
#[export] Instance in_order : MapRange := forward_range.

Definition cfg : simConfig :=
  mkSimConfig 4 3 150 10 2 1 false 20 50 10
    (mkFaults f0_05 f0_05 1 5 f0_05 20 f0_15 20 200 f0_15 10 30 f0 f0 25) false.

Definition sim : Simulator N :=
  match New Z.to_N cfg with
  | Ret s => s
  | _ => mkSimulator cfg 0%N 0 newEventQueue [] ∅ zeroConfiguration None (NewChecker 0) (newTrace false) 0
           (mkStats 0 0 0 0 0 0 0)
  end.

Lemma cfg_fine : cfg_ok (sim_withDefaults cfg).
Proof. split; [by repeat constructor|]. by repeat constructor. Qed.

Lemma sim_new : New Z.to_N cfg = Ret sim.
Proof. vm_compute. reflexivity. Qed.

Lemma sim_roomy : stays_roomy sim.
Proof.
  intros s0 s' Ho. apply (all_roomy_sound 400).
  assert (s0 = snd (opening sim)) as -> by (by rewrite Ho). vm_compute. reflexivity.
Qed.
End Example.
Import Example.

Lemma simulation_ends_witness :
  ∃ fuel, ∀ k, (fuel ≤ k)%nat →
    ends (Run k Example.sim) (λ rep _, ∀ w, rp_Violation rep = Some w →
      v_Property w ≠ PropCommitMonotonic ∧ v_Property w ≠ PropAppliedFollowing).
Proof.
  apply (simulation_ends Z.to_N Example.cfg);
    [exact Example.cfg_fine|by vm_compute|exact Example.sim_new|exact Example.sim_roomy].
Defined.

Lemma simulation_clean_witness :
  ∃ fuel, ∀ k, (fuel ≤ k)%nat → ends (Run k Example.sim) (λ rep _, rp_Violation rep = None).
Proof.
  apply (simulation_clean Z.to_N Example.cfg);
    [exact Example.cfg_fine|by vm_compute|by vm_compute|exact Example.sim_new|exact Example.sim_roomy].
Defined.

Lemma simulation_one_leader_witness :
  ∃ fuel, ∀ k, (fuel ≤ k)%nat →
    ends (Run k Example.sim) (λ rep _, ∀ w, rp_Violation rep = Some w → v_Property w ≠ PropElectionSafety).
Proof.
  apply (simulation_one_leader Z.to_N Example.cfg);
    [exact Example.cfg_fine|by vm_compute|by vm_compute|exact Example.sim_new|exact Example.sim_roomy].
Defined.
