(* ===== verification/SimChecker.v ===== *)
(** * What a clean run means

    The checker of sim/checker.go: when [Observe] returns no violation, every running node
    agrees with its records, on the leader of its term, on how far it had committed, and on
    the entries it committed since the last look at it; and the records only ever grow.  So
    a run without a violation had one leader per term, and what its nodes had at an index
    when they committed it was the same.  When [Final] returns none, the logs and the state
    machines agree. *)

From S2P Require Import Prelude Varint GoMaps Types Config Storage RaftLog RawNode Cluster EventQueue Sim SimRun.

Section checker.
Context {R : Type} `{HSrc : Source R} `{HFmt : Fmt} `{HSha : Sha256} `{HMap : MapRange}.
Local Abbreviation Sim := (Simulator R).
Implicit Types (s : Sim) (n na nb : simNode R).

(** If [m] finds no violation, then [P]. *)
Definition clean (m : M Sim (option Violation)) (P : Sim → Prop) s : Prop :=
  wp m (λ v s', v = None → P s') (λ _ _, True) (λ _, True) s.

(** What the checks leave alone, and that the records grow. *)
Definition same_but_mark n n' : Prop :=
  n_st n' = n_st n ∧ n_applied n' = n_applied n.

Definition grown s s' : Prop :=
  s_ids s' = s_ids s ∧
  (∀ id, option_Forall2 same_but_mark (s_nodes s !! id) (s_nodes s' !! id)) ∧
  ck_leaderPerTerm (s_checker s) ⊆ ck_leaderPerTerm (s_checker s') ∧
  ck_committed (s_checker s) ⊆ ck_committed (s_checker s').

Lemma grown_refl s : grown s s.
Proof. split_and!; try done. intros id. destruct (s_nodes s !! id); by constructor. Qed.

Lemma grown_trans s1 s2 s3 : grown s1 s2 → grown s2 s3 → grown s1 s3.
Proof.
  intros (H1 & H2 & H3 & H4) (K1 & K2 & K3 & K4). split_and!; [congruence| |by etrans..].
  intros id. specialize (H2 id). specialize (K2 id).
  destruct H2 as [n1 n2 (A1 & A2)|]; inversion K2 as [? n3 (B1 & B2)|]; constructor. split; congruence.
Qed.

Lemma clean_unless m m' P Q s :
  clean m P s → (∀ s1, P s1 → clean m' Q s1) → clean (unless m m') Q s.
Proof.
  intros Hm Hm'. unfold clean, unless. apply wp_bind. eapply wp_mono; [exact Hm|..]; [|done..].
  cbn beta. intros [w|] s1 H1; [by apply wp_ret|]. by apply Hm', H1.
Qed.

(** A loop establishes, of each element, what its body establishes, if that is kept. *)
Lemma clean_checkAll {X} (l : list X) body (I : list X → Sim → Prop) (P : X → Sim → Prop) s :
  I l s →
  (∀ x todo s1, x ∈ l → I (x :: todo) s1 →
     clean (body x) (λ s2, I todo s2 ∧ P x s2 ∧ ∀ y, P y s1 → P y s2) s1) →
  clean (checkAll l body) (λ s', I [] s' ∧ ∀ x, x ∈ l → P x s') s.
Proof.
  intros HI Hb.
  cut (∀ todo dn s1, l = dn ++ todo → I todo s1 → (∀ x, x ∈ dn → P x s1) →
    clean (checkAll todo body) (λ s', I [] s' ∧ ∀ x, x ∈ l → P x s') s1).
  { intros H. apply (H l []); [done|done|]. by intros x ?%not_elem_of_nil. }
  induction todo as [|x todo IH]; intros dn s1 El HI1 Hdn; cbn [checkAll].
  { apply wp_ret. intros _. split; [done|]. by rewrite El, app_nil_r. }
  assert (x ∈ l) as Hx by (rewrite El; apply elem_of_app; right; by left).
  eapply clean_unless; [by apply Hb|]. cbn beta. intros s2 (HI2 & HP2 & Hkeep).
  apply (IH (dn ++ [x])); [by rewrite <- app_assoc|done|]. intros y [Hy|Hy]%elem_of_app.
  - by apply Hkeep, Hdn.
  - by apply list_elem_of_singleton in Hy as ->.
Qed.

Lemma clean_getNode {A} id n (f : simNode R → M Sim A) Q E D s :
  s_nodes s !! id = Some n → wp (f n) Q E D s → wp (bind (getNode id) f) Q E D s.
Proof. intros Hn HQ. apply wp_bind, wp_reads. by rewrite Hn. Qed.

Lemma clean_getRN {A} id n r (f : RawNode MemoryStorage R → M Sim A) Q E D s :
  s_nodes s !! id = Some n → n_st n = Up r → wp (f r) Q E D s → wp (bind (getRN id) f) Q E D s.
Proof.
  intros Hn Hr HQ. unfold getRN. apply wp_bind. eapply clean_getNode; [done|]. rewrite Hr. by apply wp_ret.
Qed.

(** ** After every event *)

(** What the checker knows of node [id], which is at [r] on storage [st]. *)
Definition recorded id (r : RawNode MemoryStorage R) (k : Checker) : Prop :=
  rn_state r = Leader → ck_leaderPerTerm k !! rn_term r = Some id.

(** Index [i] of [st] agrees with the record, unless it is in the snapshot. *)
Definition filed (st : MemoryStorage) (k : Checker) (i : Index) : Prop :=
  (∀ e, MemoryStorage_GetEntry i st = Ret e →
    ∃ ce, ck_committed k !! i = Some ce ∧ ce_term ce = e_Term e ∧ ce_digest ce = Sum256 (e_Command e)) ∧
  ∀ err, MemoryStorage_GetEntry i st = Fail err → errorsIs err ErrCompacted = true.

(** What the checker remembers of each node, [j] here, for the next look. *)
Definition mark s (j : NodeID) : option Index * option Index * option bool :=
  (ck_checkedTo (s_checker s) !! j, ck_lastCommit (s_checker s) !! j,
   n_restartedSinceCheck <$> s_nodes s !! j).

Definition checked s (j : NodeID) : Index := default 0%N (ck_checkedTo (s_checker s) !! j).

(** The commit index [commit] of node [id] was looked at, and nothing of other nodes. *)
Definition marked id (commit : Index) s s' : Prop :=
  ck_lastCommit (s_checker s') !! id = Some commit ∧
  n_restartedSinceCheck <$> s_nodes s' !! id = Some false ∧
  checked s' id = N.max (checked s id) commit.

Lemma clean_election id n r s :
  s_nodes s !! id = Some n → n_st n = Up r →
  clean (checkElectionSafety id)
    (λ s', grown s s' ∧ s_nodes s' = s_nodes s ∧ recorded id r (s_checker s') ∧
           ck_lastCommit (s_checker s') = ck_lastCommit (s_checker s) ∧
           ck_checkedTo (s_checker s') = ck_checkedTo (s_checker s)) s.
Proof.
  intros Hn Hr. unfold clean, checkElectionSafety. eapply clean_getRN; [done..|].
  case_bool_decide as HL; cbn [negb].
  2: { apply wp_ret. intros _. split; [apply grown_refl|]. split_and!; try done. by intros ?. }
  apply wp_bind, wp_get. cbv zeta.
  assert (ck_leaderPerTerm (s_checker s) !! rn_term r = None ∨
    ck_leaderPerTerm (s_checker s) !! rn_term r = Some id →
    clean (on_checker (set_leaderPerTerm (<[rn_term r := id]> (ck_leaderPerTerm (s_checker s)))) ;;; ret None)
      (λ s', grown s s' ∧ s_nodes s' = s_nodes s ∧ recorded id r (s_checker s') ∧
             ck_lastCommit (s_checker s') = ck_lastCommit (s_checker s) ∧
             ck_checkedTo (s_checker s') = ck_checkedTo (s_checker s)) s) as Hclaim.
  { intros Hold. unfold clean, on_checker. wp_go. intros _. split; [|split_and!; try done].
    - split_and!; try done; [apply (grown_refl s)|]. cbn. destruct Hold; [by apply insert_subseteq|by rewrite insert_id].
    - intros _. cbn. apply lookup_insert_eq. }
  destruct (ck_leaderPerTerm (s_checker s) !! rn_term r) as [prev|]; [|apply Hclaim; by left].
  destruct (N.eqb_spec prev id) as [->|]; cbn [negb]; [apply Hclaim; by right|].
  unfold report_violation, on_checker. by wp_go.
Qed.

Lemma clean_commit id n r s :
  s_nodes s !! id = Some n → n_st n = Up r →
  clean (checkCommitMonotonic id)
    (λ s', grown s s' ∧ (∀ j, j ≠ id → mark s' j = mark s j) ∧
           mark s' id = (ck_checkedTo (s_checker s) !! id, Some (CommitIndex r), Some false) ∧
           (AppliedIndex r ≤ CommitIndex r)%N ∧
           (∀ prev, ck_lastCommit (s_checker s) !! id = Some prev →
              n_restartedSinceCheck n = true ∨ (prev ≤ CommitIndex r)%N)) s.
Proof.
  intros Hn Hr. unfold clean, checkCommitMonotonic. eapply clean_getRN; [done..|].
  eapply clean_getNode; [done|]. apply wp_bind, wp_get. cbv zeta.
  match goal with |- wp (match _ with Some prev => if _ then _ else ?m | None => _ end) _ _ _ _ =>
    assert (clean m (λ s', grown s s' ∧ (∀ j, j ≠ id → mark s' j = mark s j) ∧
           mark s' id = (ck_checkedTo (s_checker s) !! id, Some (CommitIndex r), Some false) ∧
           (AppliedIndex r ≤ CommitIndex r)%N) s) as Hsettle end.
  { unfold clean, on_checker, setNode. wp_go.
    destruct (N.ltb_spec (CommitIndex r) (AppliedIndex r)) as [|Hle].
    { unfold report_violation, on_checker. by wp_go. }
    wp_go. intros _. split_and!; [|intros j Hj; unfold mark; cbn; by rewrite lookup_insert_ne, lookup_alter_ne| |done].
    - split_and!; try done. cbn. intros i. destruct (decide (i = id)) as [->|].
      + rewrite lookup_alter_eq, Hn. by constructor.
      + rewrite lookup_alter_ne by done. destruct (s_nodes s !! i); by constructor.
    - unfold mark. cbn. by rewrite lookup_insert_eq, lookup_alter_eq, Hn. }
  destruct (ck_lastCommit (s_checker s) !! id) as [prev|] eqn:Ep.
  2: { eapply wp_mono; [exact Hsettle|..]; [|done..]. cbn beta. intros v s' H Hv.
       destruct (H Hv) as (? & ? & ? & ?). by split_and!. }
  destruct ((CommitIndex r <? prev)%N && negb (n_restartedSinceCheck n)) eqn:Eb.
  { unfold report_violation, on_checker. by wp_go. }
  eapply wp_mono; [exact Hsettle|..]; [|done..]. cbn beta. intros v s' H Hv.
  destruct (H Hv) as (? & ? & ? & ?). split_and!; try done. intros p [= <-].
  apply andb_false_iff in Eb as [?%N.ltb_ge|?%negb_false_iff]; auto.
Qed.

Lemma clean_entry id n i s :
  s_nodes s !! id = Some n →
  clean (checkEntry id i)
    (λ s', grown s s' ∧ s_nodes s' = s_nodes s ∧ (∀ j, mark s' j = mark s j) ∧
           filed (storage n) (s_checker s') i) s.
Proof.
  intros Hn. unfold clean, checkEntry. eapply clean_getNode; [done|]. apply wp_bind, wp_try, wp_reads.
  destruct (MemoryStorage_GetEntry i (storage n)) as [e|err|p|] eqn:EG; try done.
  2: { destruct (errorsIs _ _) eqn:Ee.
       - apply wp_ret. intros _. split_and!; [apply grown_refl|done|done|]. unfold filed. rewrite EG.
         split; [done|]. by intros ? [= <-].
       - unfold report_violation, on_checker. by wp_go. }
  apply wp_bind, wp_get. cbv zeta. destruct (ck_committed (s_checker s) !! i) as [prev|] eqn:Ep.
  - destruct (_ || _) eqn:Eb; [unfold report_violation, on_checker; by wp_go|].
    apply orb_false_iff in Eb as [Et%negb_false_iff%N.eqb_eq Ed%negb_false_iff%bool_decide_eq_true].
    apply wp_ret. intros _. split_and!; [apply grown_refl|done|done|].
    unfold filed. rewrite EG. split; [|done]. intros ? [= <-]. by exists prev.
  - unfold on_checker. wp_go. intros _. split; [|do 2 (split; [done|])].
    + split_and!; try done; [apply (grown_refl s)|]. cbn. by apply insert_subseteq.
    + unfold filed. rewrite EG. split; [|done]. intros ? [= <-]. cbn. rewrite lookup_insert_eq. by eexists.
Qed.

Lemma filed_mono st s s' i : grown s s' → filed st (s_checker s) i → filed st (s_checker s') i.
Proof.
  intros (_ & _ & _ & Hsub) [Hf Herr]. split; [|done]. intros e He. destruct (Hf e He) as (ce & Hce & ?). exists ce. split; [|done].
  by eapply lookup_weaken.
Qed.

Lemma recorded_mono id r s s' : grown s s' → recorded id r (s_checker s) → recorded id r (s_checker s').
Proof. intros (_ & _ & Hsub & _) Hr HL. eapply lookup_weaken; [by apply Hr|done]. Qed.

Lemma clean_committed id n r s :
  s_nodes s !! id = Some n → n_st n = Up r →
  clean (checkCommittedEntries id)
    (λ s', grown s s' ∧ (∀ j, j ≠ id → mark s' j = mark s j) ∧
       (mark s' id).2 = (mark s id).2 ∧ (mark s' id).1.2 = (mark s id).1.2 ∧
       checked s' id = N.max (checked s id) (CommitIndex r) ∧
       ∀ i, i ∈ indexes (checked s id +u 1) (CommitIndex r) → filed (storage n) (s_checker s') i) s.
Proof.
  intros Hn Hr. unfold clean, checkCommittedEntries. eapply clean_getRN; [done..|].
  apply wp_bind, wp_get. cbv zeta.
  eapply clean_unless; [eapply (clean_checkAll _ _ (λ _ s1, grown s s1 ∧ s_nodes s1 = s_nodes s ∧
      ∀ j, mark s1 j = mark s j)
    (λ i s1, filed (storage n) (s_checker s1) i))|].
  - split; [apply grown_refl|done].
  - intros i _ s1 _ (HG & HE & HT). eapply wp_mono; [apply (clean_entry id n); by rewrite HE|..]; [|done..].
    cbn beta. intros v s2 H Hv. destruct (H Hv) as (HG2 & HE2 & HT2 & Hf).
    split; [split_and!; [by eapply grown_trans|congruence|]|]; [intros j; by rewrite HT2|]. split; [done|].
    intros y. by apply filed_mono.
  - cbn beta. intros s1 [(HG & HE & HT) Hf]. unfold clean, on_checker.
    pose proof (HT id) as HTi. unfold mark in HTi. injection HTi as HTi _ _.
    fold (checked s id). destruct (N.ltb_spec (checked s id) (CommitIndex r)); wp_go; intros _; (split; [exact HG|]).
    + split_and!; [|by rewrite <- HT..| |exact Hf].
      * intros j Hj. rewrite <- HT. unfold mark. cbn. by rewrite lookup_insert_ne.
      * unfold checked at 1. cbn. rewrite lookup_insert_eq. cbn. lia.
    + split_and!; [by intros|by rewrite HT..| |exact Hf]. unfold checked at 1. rewrite HTi. fold (checked s id). lia.
Qed.

Lemma clean_node id n r s :
  s_nodes s !! id = Some n → n_st n = Up r →
  clean (unless (checkElectionSafety id) (unless (checkCommitMonotonic id) (checkCommittedEntries id)))
    (λ s', grown s s' ∧ (∀ j, j ≠ id → mark s' j = mark s j) ∧
       recorded id r (s_checker s') ∧ (AppliedIndex r ≤ CommitIndex r)%N ∧
       (∀ prev, ck_lastCommit (s_checker s) !! id = Some prev →
          n_restartedSinceCheck n = true ∨ (prev ≤ CommitIndex r)%N) ∧
       marked id (CommitIndex r) s s' ∧
       ∀ i, i ∈ indexes (checked s id +u 1) (CommitIndex r) → filed (storage n) (s_checker s') i) s.
Proof.
  intros Hn Hr. eapply clean_unless; [by eapply clean_election|]. cbn beta.
  intros s1 (HG1 & HN1 & Hrec & HL1 & HT1). rewrite <- HN1 in Hn.
  assert (∀ j, mark s1 j = mark s j) as HM1 by (intros j; unfold mark; congruence).
  eapply clean_unless; [by eapply clean_commit|]. cbn beta. intros s2 (HG2 & HF2 & HM2 & Ha & Hmono).
  pose proof HG2 as (_ & HN2 & _). specialize (HN2 id). rewrite Hn in HN2.
  inversion HN2 as [? n2 [E2 _] Ex Hn2'|]; subst. symmetry in Hn2'.
  eapply wp_mono; [eapply clean_committed; [done|by rewrite E2]|..]; [|done..]. cbn beta.
  intros v s3 H Hv. destruct (H Hv) as (HG3 & HF3 & HR3 & HC3 & HK3 & Hf). rewrite HM2 in HR3, HC3.
  assert (checked s2 id = checked s id) as HK2.
  { unfold mark in HM2. injection HM2 as HK _ _. unfold checked. by rewrite HK, HT1. }
  rewrite HK2 in HK3, Hf. rewrite HL1 in Hmono.
  pose proof (grown_trans _ _ _ HG2 HG3) as HG23.
  split_and!; [exact (grown_trans _ _ _ HG1 HG23)| |by eapply recorded_mono|done|done|by split|].
  - intros j Hj. by rewrite HF3, HF2, HM1.
  - unfold storage in *. by rewrite E2 in Hf.
Qed.

(** What is known of one node once [Observe] has passed it. *)
Definition known s id s' : Prop :=
  ∀ n r, s_nodes s !! id = Some n → n_st n = Up r →
    recorded id r (s_checker s') ∧ (AppliedIndex r ≤ CommitIndex r)%N ∧
    (∀ prev, ck_lastCommit (s_checker s) !! id = Some prev →
       n_restartedSinceCheck n = true ∨ (prev ≤ CommitIndex r)%N) ∧
    marked id (CommitIndex r) s s' ∧
    ∀ i, i ∈ indexes (checked s id +u 1) (CommitIndex r) → filed (storage n) (s_checker s') i.

Lemma known_mono s id s1 s2 : grown s1 s2 → mark s2 id = mark s1 id → known s id s1 → known s id s2.
Proof.
  intros HG HM Hk n r Hn Hr. destruct (Hk n r Hn Hr) as (H1 & H2 & H3 & (H4 & H5 & H6) & H7).
  unfold mark in HM. injection HM as HMc HMl HMr.
  split_and!; [by eapply recorded_mono|done|done| |].
  - split_and!; [congruence|by rewrite HMr|]. rewrite <- H6. unfold checked. by rewrite HMc.
  - intros i Hi. eapply filed_mono; [done|by apply H7].
Qed.

(** C25: A clean [Observe].  Of every running node it shows: if the node leads, it is the one
    leader on record for its term; it has not applied beyond its commit index; its commit
    index is not below that of the last look at it, unless it restarted in between; and
    every entry it committed since that look agrees with the record for its index, or is
    in its snapshot.  The look is noted for the next one, and no leader and no committed
    entry on record is ever replaced. *)
Theorem Observe_clean s s' :
  NoDup (s_ids s) → (∀ id, id ∈ s_ids s → is_Some (s_nodes s !! id)) →
  Observe s = (Ret None, s') → grown s s' ∧ ∀ id, id ∈ s_ids s → known s id s'.
Proof.
  intros Hnd Hdom HO.
  assert (clean Observe (λ s', grown s s' ∧ ∀ id, id ∈ s_ids s → known s id s') s) as Hc.
  { unfold clean, Observe. apply wp_bind, wp_get.
    eapply wp_mono; [eapply (clean_checkAll _ _ (λ todo s1, NoDup todo ∧ grown s s1 ∧
      ∀ j, j ∈ todo → mark s1 j = mark s j) (λ id s1, known s id s1))|..]; [..|done|done].
    - split_and!; [done|apply grown_refl|done].
    - intros id todo s1 Hid ([Hni Hnd1]%NoDup_cons & HG & HT). destruct (Hdom id Hid) as [n Hn].
      pose proof HG as (_ & HN & _). specialize (HN id). rewrite Hn in HN.
      inversion HN as [? n1 [E1 E1'] Ex Hn1'|]; subst. symmetry in Hn1'.
      assert (∀ s2, grown s1 s2 → (∀ j, j ≠ id → mark s2 j = mark s1 j) →
        known s id s2 → (NoDup todo ∧ grown s s2 ∧ ∀ j, j ∈ todo → mark s2 j = mark s j) ∧
          known s id s2 ∧ ∀ y, known s y s1 → known s y s2) as Hdone.
      { intros s2 HG2 HT2 Hk. split_and!; [done|by eapply grown_trans| |done|].
        - intros j Hj. rewrite HT2 by (by intros ->). apply HT. by right.
        - intros y. destruct (decide (y = id)) as [->|]; [done|]. apply known_mono; [done|by apply HT2]. }
      eapply clean_getNode; [done|]. unfold crashed.
      destruct (n_st n1) as [r|st] eqn:Er.
      2: { apply wp_ret. intros _. apply Hdone; [apply grown_refl|done|]. intros n0 r. congruence. }
      eapply wp_mono; [by eapply clean_node|..]; [|done..]. cbn beta. intros v s2 H Hv.
      destruct (H Hv) as (HG2 & HT2 & Hk). apply Hdone; [done|done|].
      intros n0 r0 Hn0 Hr0. simplify_eq. rewrite Hr0 in E1. simplify_eq.
      pose proof (HT id ltac:(by left)) as HM. unfold mark in HM. rewrite Hn, Hn1' in HM. injection HM as HMc HMl HMr.
      unfold marked, checked in *. rewrite HMc, HMl, HMr in Hk. unfold storage in *. by rewrite Er, Hr0 in *.
    - cbn beta. intros v s1 H Hv. destruct (H Hv) as [(_ & HG & _) Hk]. done. }
  unfold clean, wp in Hc. rewrite HO in Hc. by apply Hc.
Qed.

(** ** At the end *)

Definition same_entry (ea eb : LogEntry) : Prop :=
  e_Term ea = e_Term eb ∧ Sum256 (e_Command ea) = Sum256 (e_Command eb).

Lemma same_entry_check ea eb :
  negb (e_Term ea =? e_Term eb)%N || negb (bool_decide (Sum256 (e_Command ea) = Sum256 (e_Command eb))) = false →
  same_entry ea eb.
Proof.
  intros [Et%negb_false_iff%N.eqb_eq Ed%negb_false_iff%bool_decide_eq_true]%orb_false_iff. done.
Qed.

(** Loops that change nothing. *)
Lemma clean_all {X} (l : list X) body (P : X → Prop) s :
  (∀ x, x ∈ l → clean (body x) (λ s', s' = s ∧ P x) s) →
  clean (checkAll l body) (λ s', s' = s ∧ ∀ x, x ∈ l → P x) s.
Proof.
  intros Hb. eapply wp_mono; [apply (clean_checkAll l body (λ _ s1, s1 = s) (λ x _, P x)); [done|]|done..].
  intros x _ s1 Hx ->. eapply wp_mono; [by apply Hb|..]; [|done..]. cbn beta. intros v s2 H Hv.
  destruct (H Hv) as [-> HP]. done.
Qed.

Lemma elem_of_indexes lo hi i : i ∈ indexes lo hi ↔ (lo ≤ i ≤ hi)%N.
Proof.
  unfold indexes. rewrite list_elem_of_fmap. split.
  - intros (k & -> & Hk%elem_of_seq). lia.
  - intros Hi. exists (N.to_nat (i - lo)). split; [lia|]. apply elem_of_seq. lia.
Qed.

Lemma clean_compareAt a b na nb i s :
  s_nodes s !! a = Some na → s_nodes s !! b = Some nb →
  clean (compareAt a b i) (λ s', s' = s ∧ ∀ ea eb,
    MemoryStorage_GetEntry i (storage na) = Ret ea → MemoryStorage_GetEntry i (storage nb) = Ret eb →
    same_entry ea eb) s.
Proof.
  intros Ha Hb. unfold clean, compareAt. eapply clean_getNode; [done|]. eapply clean_getNode; [done|].
  apply wp_bind, wp_try, wp_reads. destruct (MemoryStorage_GetEntry i (storage na)) as [ea| | |]; try done;
    (apply wp_bind, wp_try, wp_reads; destruct (MemoryStorage_GetEntry i (storage nb)) as [eb| | |]; try done);
    try (apply wp_ret; intros _; split; [done|]; by intros ? ? ? ?).
  destruct (_ || _) eqn:E; [unfold report_violation, on_checker; by wp_go|].
  apply wp_ret. intros _. split; [done|]. intros ? ? [= <-] [= <-]. by apply same_entry_check.
Qed.

Lemma clean_compareBelow a b na nb upto s :
  s_nodes s !! a = Some na → s_nodes s !! b = Some nb →
  clean (compareBelow a b upto) (λ s', s' = s ∧ ∀ i ea eb,
    (N.max (MemoryStorage_FirstIndex (storage na)) (MemoryStorage_FirstIndex (storage nb)) ≤ i ≤ upto)%N →
    MemoryStorage_GetEntry i (storage na) = Ret ea → MemoryStorage_GetEntry i (storage nb) = Ret eb →
    same_entry ea eb) s.
Proof.
  intros Ha Hb. unfold clean, compareBelow. eapply clean_getNode; [done|]. eapply clean_getNode; [done|].
  eapply wp_mono; [apply clean_all; intros i _; by apply (clean_compareAt a b na nb)|..]; [|done..].
  cbn beta. intros v s' H Hv. destruct (H Hv) as [-> HP]. split; [done|].
  intros i ea eb Hi. apply HP. by apply elem_of_indexes.
Qed.

(** The terms of two logs can both be read at [i]. *)
Definition terms_at na nb (i : Index) (ta tb : Term) : Prop :=
  MemoryStorage_Term i (storage na) = Ret ta ∧ MemoryStorage_Term i (storage nb) = Ret tb.

(** Log Matching, as the checker looks for it: from an index on which two logs agree, back
    to where either begins, they are the same. *)
Definition logs_match na nb (limit : Index) : Prop :=
  ∀ i t, (0 < i ≤ limit)%N → terms_at na nb i t t →
    (∀ j, (i ≤ j ≤ limit)%N → ∃ ta tb, terms_at na nb j ta tb) →
    ∀ k ea eb,
      (N.max (MemoryStorage_FirstIndex (storage na)) (MemoryStorage_FirstIndex (storage nb)) ≤ k ≤ i)%N →
      MemoryStorage_GetEntry k (storage na) = Ret ea → MemoryStorage_GetEntry k (storage nb) = Ret eb →
      same_entry ea eb.

Lemma clean_matchDown a b na nb limit s :
  s_nodes s !! a = Some na → s_nodes s !! b = Some nb →
  clean (matchDown a b limit) (λ s', s' = s ∧ logs_match na nb (N.of_nat limit)) s.
Proof.
  intros Ha Hb. induction limit as [|l IH]; cbn [matchDown].
  { apply wp_ret. intros _. split; [done|]. intros i t Hi. lia. }
  unfold clean. eapply clean_getNode; [done|]. eapply clean_getNode; [done|].
  set (top := N.of_nat (Datatypes.S l)) in *.
  assert ((∀ ta tb, ¬ terms_at na nb top ta tb) → logs_match na nb top) as Hstop.
  { intros Hno i t Hi _ Hread. destruct (Hread top) as (ta & tb & Hr); [lia|]. by apply Hno in Hr. }
  unfold terms_at in Hstop.
  apply wp_bind, wp_try, wp_reads. destruct (MemoryStorage_Term top (storage na)) as [ta| | |] eqn:Ea; try done;
    (apply wp_bind, wp_try, wp_reads; destruct (MemoryStorage_Term top (storage nb)) as [tb| | |] eqn:Eb; try done);
    try (apply wp_ret; intros _; split; [done|apply Hstop; by intros ? ? [? ?]]).
  destruct (N.eqb_spec ta tb) as [->|Hne]; cbn [negb].
  - eapply wp_mono; [by eapply clean_compareBelow|..]; [|done..]. cbn beta. intros v s' H Hv.
    destruct (H Hv) as [-> HP]. split; [done|]. intros i t Hi _ _ k ea eb Hk. apply HP. lia.
  - eapply wp_mono; [exact IH|..]; [|done..]. cbn beta. intros v s' H Hv. destruct (H Hv) as [-> HM].
    split; [done|]. intros i t Hi Ht Hread k ea eb Hk.
    destruct (decide (i = top)) as [->|Hi'].
    { destruct Ht as [Hta Htb]. congruence. }
    apply (HM i t); [lia|done| |done]. intros j Hj. apply Hread. lia.
Qed.

Definition logs_ok na nb : Prop :=
  crashed na = false → crashed nb = false →
  logs_match na nb (N.min (MemoryStorage_LastIndex (storage na)) (MemoryStorage_LastIndex (storage nb))).

Definition applied_ok na nb : Prop :=
  ∀ ea eb, byIndex (n_applied na) !! e_Index eb = Some ea → eb ∈ n_applied nb → same_entry ea eb.

Lemma elem_of_pairs a b (ids : list NodeID) : (a, b) ∈ pairs ids → a ∈ ids ∧ b ∈ ids.
Proof.
  induction ids as [|x l IH]; cbn; [by intros ?%not_elem_of_nil|].
  intros [(y & [= -> ->] & Hy)%list_elem_of_fmap|[]%IH]%elem_of_app; split; (by left) || by right.
Qed.

(** The loops over all pairs of nodes. *)
Lemma clean_pairs (body : NodeID → NodeID → simNode R → simNode R → M Sim (option Violation))
    (P : simNode R → simNode R → Prop) s :
  (∀ id, id ∈ s_ids s → is_Some (s_nodes s !! id)) →
  (∀ a b na nb, s_nodes s !! a = Some na → s_nodes s !! b = Some nb →
     clean (body a b na nb) (λ s', s' = s ∧ P na nb) s) →
  clean (checkAll (pairs (s_ids s)) (λ ab,
    let '(a, b) := (ab : NodeID * NodeID) in
    na <- getNode a ;; nb <- getNode b ;; body a b na nb))
    (λ s', s' = s ∧ ∀ a b na nb, (a, b) ∈ pairs (s_ids s) → s_nodes s !! a = Some na →
       s_nodes s !! b = Some nb → P na nb) s.
Proof.
  intros Hdom Hb. eapply wp_mono; [apply (clean_all _ _ (λ ab, ∀ na nb, s_nodes s !! ab.1 = Some na →
    s_nodes s !! ab.2 = Some nb → P na nb))|..]; [| |done|done].
  - intros [a b] [[na Ha]%Hdom [nb Hnb]%Hdom]%elem_of_pairs.
    eapply clean_getNode; [done|]. eapply clean_getNode; [done|].
    eapply wp_mono; [by apply Hb|..]; [|done..]. cbn. intros v s' H Hv. destruct (H Hv) as [-> HP].
    split; [done|]. intros. by simplify_eq.
  - cbn beta. intros v s' H Hv. destruct (H Hv) as [-> HP]. split; [done|].
    intros a b na nb Hab. by apply (HP (a, b)).
Qed.

(** A clean [Final].  The logs of any two running nodes match, and whatever any two nodes
    applied at one index is the same. *)
Theorem Final_clean s s' :
  (∀ id, id ∈ s_ids s → is_Some (s_nodes s !! id)) → Final s = (Ret None, s') →
  ∀ a b na nb, (a, b) ∈ pairs (s_ids s) → s_nodes s !! a = Some na → s_nodes s !! b = Some nb →
    logs_ok na nb ∧ applied_ok na nb.
Proof.
  intros Hdom HF a b na nb Hab Ha Hb.
  assert (clean Final (λ _, logs_ok na nb ∧ applied_ok na nb) s) as Hc.
  2: { unfold clean, wp in Hc. rewrite HF in Hc. by apply Hc. }
  unfold Final. eapply clean_unless.
  - unfold clean, checkLogMatching. apply wp_bind, wp_get. apply (clean_pairs _ logs_ok); [done|].
    intros x y nx ny Hx Hy. unfold logs_ok. destruct (crashed nx || crashed ny) eqn:Ec.
    + apply wp_ret. intros _. split; [done|]. intros E1 E2. by rewrite E1, E2 in Ec.
    + eapply wp_mono; [by apply (clean_matchDown x y nx ny)|..]; [|done..]. cbn beta. intros v s1 H Hv.
      destruct (H Hv) as [-> HM]. split; [done|]. intros _ _. by rewrite N2Nat.id in HM.
  - cbn beta. intros s1 [-> Hlogs]. unfold clean, checkStateMachinesAgree. apply wp_bind, wp_get.
    eapply wp_mono; [apply (clean_pairs _ applied_ok); [done|]|..]; [| |done|done].
    + intros x y nx ny Hx Hy. unfold applied_ok. eapply wp_mono; [apply (clean_all _ _ (λ eb, ∀ ea,
        byIndex (n_applied nx) !! e_Index eb = Some ea → same_entry ea eb))|..]; [| |done|done].
      2: { cbn beta. intros v s2 H Hv. destruct (H Hv) as [-> HP]. split; [done|]. intros ea eb He Hin. by apply (HP eb). }
      intros eb _. destruct (byIndex (n_applied nx) !! e_Index eb) as [ea|]; [|by apply wp_ret].
      destruct (_ || _) eqn:E; [unfold report_violation, on_checker; by wp_go|].
      apply wp_ret. intros _. split; [done|]. intros ? [= <-]. by apply same_entry_check.
    + cbn beta. intros v s2 H Hv. destruct (H Hv) as [_ Happ]. split; [by eapply Hlogs|by eapply Happ].
Qed.
End checker.

(** ** The end of the simulation of SimRun.v *)

Import Example.

Definition finished : Simulator N := snd (loop 400 (snd (opening sim))).

Definition there (s : Simulator N) (id : NodeID) : bool :=
  match s_nodes s !! id with Some _ => true | None => false end.

Lemma there_Some s id : there s id = true → is_Some (s_nodes s !! id).
Proof. unfold there. destruct (s_nodes s !! id); [eauto|done]. Qed.

Lemma found_none (m : M (Simulator N) (option Violation)) s :
  fst (m s) = Ret None → m s = (Ret None, snd (m s)).
Proof. destruct (m s). cbn. by intros ->. Qed.

Lemma finished_ids : s_ids finished = [1; 2; 3]%N.
Proof. vm_compute. reflexivity. Qed.

Lemma finished_there id : id ∈ s_ids finished → is_Some (s_nodes finished !! id).
Proof.
  intros Hid. apply there_Some. revert id Hid. rewrite finished_ids. apply Forall_forall.
  do 3 (apply Forall_cons; split; [vm_compute; reflexivity|]). by apply Forall_nil.
Qed.

Lemma Observe_clean_witness :
  ∃ s', grown finished s' ∧ ∀ id, id ∈ s_ids finished → known finished id s'.
Proof.
  exists (snd (Observe finished)). apply Observe_clean.
  - rewrite finished_ids. apply (bool_decide_unpack _). vm_compute. exact I.
  - exact finished_there.
  - apply found_none. vm_compute. reflexivity.
Defined.

Lemma Final_clean_witness :
  ∃ na nb, s_nodes finished !! 1%N = Some na ∧ s_nodes finished !! 2%N = Some nb ∧
    logs_ok na nb ∧ applied_ok na nb.
Proof.
  destruct (finished_there 1%N) as [na Ha]; [rewrite finished_ids; by left|].
  destruct (finished_there 2%N) as [nb Hb]; [rewrite finished_ids; right; by left|].
  exists na, nb. split; [exact Ha|]. split; [exact Hb|].
  apply (Final_clean finished (snd (Final finished)) finished_there) with (a := 1%N) (b := 2%N).
  - apply found_none. vm_compute. reflexivity.
  - rewrite finished_ids. by left.
  - exact Ha.
  - exact Hb.
Defined.
