(* ===== verification/SimTrace.v ===== *)
(** * Recording a trace changes nothing else

    A simulation that is asked for its trace keeps the lines; one that is not only hashes
    them.  The two are otherwise the same run: they draw the same numbers, end the same
    way and report the same, hash included.  [erase] forgets what differs, and a method is
    [blind] if it commutes with that. *)

From S2P Require Import Prelude Varint GoMaps Types Config Storage RaftLog RawNode Cluster EventQueue Sim.

(** A configuration, a trace and a simulator without the trace's lines. *)
Definition quiet (c : simConfig) : simConfig :=
  mkSimConfig (sc_Seed c) (sc_Nodes c) (sc_Duration c) (sc_TickInterval c) (sc_ElectionTick c) (sc_HeartbeatTick c)
    (sc_PreVote c) (sc_WriteInterval c) (sc_SnapshotThreshold c) (sc_SnapshotCatchUpEntries c) (sc_Faults c) false.

Definition mute (t : Trace) : Trace := mkTrace (t_hash t) (t_events t) [] false (t_limit t).

Section blind.
Context {R : Type} `{HSrc : Source R} `{HFmt : Fmt} `{HSha : Sha256} `{HMap : MapRange}.
Local Abbreviation Sim := (Simulator R).
Implicit Types s : Sim.

Definition erase s : Sim :=
  mkSimulator (quiet (s_cfg s)) (s_rng s) (s_now s) (s_queue s) (s_ids s) (s_nodes s) (s_conf s) (s_part s)
    (s_checker s) (mute (s_trace s)) (s_writeSeq s) (s_stats s).

Definition erased {A} (r : A * Sim) : A * Sim := (fst r, erase (snd r)).

Definition blind {A} (m : M Sim A) : Prop := ∀ s, m (erase s) = erased (m s).

(** ** The calculus *)

Lemma blind_ret {A} (a : A) : blind (ret a).
Proof. done. Qed.

Lemma blind_fail {A} e : blind (A := A) (fail e).
Proof. done. Qed.

Lemma blind_panic {A} p : blind (A := A) (panic p).
Proof. done. Qed.

Lemma blind_outOfFuel {A} : blind (A := A) outOfFuel.
Proof. done. Qed.

Lemma blind_bind {A B} (m : M Sim A) (f : A → M Sim B) : blind m → (∀ a, blind (f a)) → blind (bind m f).
Proof.
  intros Hm Hf s. unfold bind. rewrite Hm. destruct (m s) as [[a| | |] s']; cbn; [apply Hf|done..].
Qed.

(** What is read off the state does not depend on the trace. *)
Lemma blind_get {A} (f : Sim → M Sim A) : (∀ s, f (erase s) = f s) → (∀ s, blind (f s)) → blind (bind get f).
Proof. intros He Hf s. unfold bind. cbn. rewrite He. apply Hf. Qed.

Lemma blind_modify f : (∀ s, f (erase s) = erase (f s)) → blind (modify f).
Proof. intros Hf s. unfold modify, erased. cbn. by rewrite Hf. Qed.

Lemma blind_reads {A} (f : Sim → outcome A) : (∀ s, f (erase s) = f s) → blind (reads f).
Proof. intros Hf s. unfold reads. rewrite Hf. by destruct (f s). Qed.

Lemma blind_gets {A} (f : Sim → A) : (∀ s, f (erase s) = f s) → blind (gets f).
Proof. intros Hf s. unfold gets, reads, erased. cbn. by rewrite Hf. Qed.

Lemma blind_wrapErr {A} msg (m : M Sim A) : blind m → blind (wrapErr msg m).
Proof. intros Hm s. unfold wrapErr. rewrite Hm. by destruct (m s) as [[] ?]. Qed.

Lemma blind_try {A} (m : M Sim A) : blind m → blind (try m).
Proof. intros Hm s. unfold try. rewrite Hm. by destruct (m s) as [[] ?]. Qed.

Lemma blind_forEach {X} (l : list X) body : (∀ x, blind (body x)) → blind (forEach l body).
Proof. intros Hb. induction l; cbn [forEach]; [apply blind_ret|by apply blind_bind]. Qed.

Lemma blind_queue {A} (m : M eventQueue A) : blind (zoom s_queue set_queue m).
Proof. intros s. unfold zoom, erased. cbn. by destruct (m (s_queue s)). Qed.

Lemma blind_on_rn {A} id (m : M (RawNode MemoryStorage R) A) : blind (on_rn id m).
Proof.
  intros s. unfold on_rn. cbn. destruct (s_nodes s !! id) as [n|]; [|done]. destruct (n_st n) as [r|]; [|done].
  by destruct (m (set_rand (s_rng s) r)).
Qed.

Lemma blind_record line : blind (record line).
Proof. by apply blind_modify. Qed.

Lemma blind_unless (m k : M Sim (option Violation)) : blind m → blind k → blind (unless m k).
Proof. intros Hm Hk. apply blind_bind; [done|]. intros [v|]; [apply blind_ret|done]. Qed.

Lemma blind_checkAll {X} (l : list X) body : (∀ x, blind (body x)) → blind (checkAll l body).
Proof. intros Hb. induction l; cbn [checkAll]; [apply blind_ret|by apply blind_unless]. Qed.

(** ** The methods *)

Create HintDb blind discriminated.
#[local] Hint Resolve blind_ret blind_fail blind_panic blind_outOfFuel blind_queue blind_on_rn blind_record : blind.

(** Goes through the text of a method. *)
Local Ltac blind_step :=
  lazymatch goal with
  | |- blind (bind get _) => apply blind_get; [by intros ?|intros ?]
  | |- blind (bind _ _) => apply blind_bind; [|intros ?]
  | |- blind (wrapErr _ _) => apply blind_wrapErr
  | |- blind (try _) => apply blind_try
  | |- blind (forEach _ _) => apply blind_forEach; intros ?
  | |- blind (checkAll _ _) => apply blind_checkAll; intros ?
  | |- blind (unless _ _) => apply blind_unless
  | |- blind (modify _) => by apply blind_modify
  | |- blind (reads _) => by apply blind_reads
  | |- blind (gets _) => by apply blind_gets
  | |- blind (let _ := _ in _) => cbv zeta
  | |- blind (match _ with _ => _ end) => case_match
  | |- blind _ => solve [auto 1 with blind]
  end.
Local Ltac blind_go := repeat blind_step.

Lemma blind_draws :
  (∀ n, blind (draw_Intn n)) ∧ (∀ r, blind (chance r)) ∧ (∀ n, blind (randRange n)) ∧ (∀ f, blind (bump f)).
Proof. split_and!; intros ?; unfold draw_Intn, chance, draw_Float64, randRange, bump; blind_go. Qed.

Lemma blind_Intn n : blind (draw_Intn n).
Proof. apply blind_draws. Qed.
Lemma blind_chance r : blind (chance r).
Proof. apply blind_draws. Qed.
Lemma blind_randRange n : blind (randRange n).
Proof. apply blind_draws. Qed.
Lemma blind_bump f : blind (bump f).
Proof. apply blind_draws. Qed.
Lemma blind_schedule e : blind (schedule e).
Proof. apply blind_queue. Qed.
Lemma blind_getNode id : blind (getNode id).
Proof. by apply blind_reads. Qed.
Lemma blind_setNode id f : blind (setNode id f).
Proof. by apply blind_modify. Qed.
#[local] Hint Resolve blind_Intn blind_chance blind_randRange blind_bump blind_schedule blind_getNode blind_setNode : blind.

Lemma blind_getRN id : blind (getRN id).
Proof. unfold getRN. blind_go. Qed.
Lemma blind_growslice len : blind (growslice len).
Proof. unfold growslice. blind_go. Qed.
#[local] Hint Resolve blind_getRN blind_growslice : blind.

Lemma blind_start id : blind (sim_start id).
Proof. unfold sim_start. blind_go. Qed.

Lemma blind_drainApplied id : blind (drainApplied id).
Proof.
  assert (∀ fuel, blind (drainApplied_loop fuel id)) as Hloop.
  { intros fuel. induction fuel as [|fuel IH]; cbn [drainApplied_loop]; blind_go. }
  unfold drainApplied. blind_go.
Qed.

Lemma blind_restoreSnapshot id : blind (sim_restoreSnapshot id).
Proof. unfold sim_restoreSnapshot. blind_go. Qed.

Lemma blind_maybeSnapshot id : blind (sim_maybeSnapshot id).
Proof. unfold sim_maybeSnapshot. blind_go. Qed.

Lemma blind_latency : blind latency.
Proof. unfold latency. blind_go. Qed.
#[local] Hint Resolve blind_start blind_drainApplied blind_restoreSnapshot blind_maybeSnapshot blind_latency : blind.

Lemma blind_route m : blind (route m).
Proof. unfold route. blind_go. Qed.
#[local] Hint Resolve blind_route : blind.

Lemma blind_after id : blind (after id).
Proof. unfold after. blind_go. Qed.

Lemma blind_crash id : blind (applyCrash id).
Proof. unfold applyCrash. blind_go. Qed.

Lemma blind_draw_sides ids sideB count : blind (draw_sides ids sideB count).
Proof. revert sideB count. induction ids as [|id ids IH]; intros sideB count; cbn [draw_sides]; blind_go. Qed.

Lemma blind_nth_id ids k : blind (nth_id ids k).
Proof. by apply blind_reads. Qed.
#[local] Hint Resolve blind_after blind_crash blind_draw_sides blind_nth_id : blind.

Lemma blind_startPartition : blind startPartition.
Proof. unfold startPartition. blind_go. Qed.

Lemma blind_nextVoters current : blind (nextVoters current).
Proof. unfold nextVoters. blind_go. Qed.
#[local] Hint Resolve blind_startPartition blind_nextVoters : blind.

Lemma blind_changeMembership : blind changeMembership.
Proof. unfold changeMembership. blind_go. Qed.

Lemma blind_offerWrites ids wrote : blind (offerWrites ids wrote).
Proof.
  revert wrote. induction ids as [|id ids IH]; intros wrote; cbn [offerWrites]; [apply blind_ret|].
  apply blind_bind; [|intros ?; apply IH]. unfold offerWrite. blind_go.
Qed.
#[local] Hint Resolve blind_changeMembership blind_offerWrites : blind.

Lemma blind_apply_event ev : blind (apply_event ev).
Proof.
  unfold apply_event. destruct (ev_kind ev); [unfold applyTick|unfold applyDeliver| |unfold applyRestart|
    unfold applyFaultDecision|unfold applyHeal|unfold applyClientWrite]; blind_go.
Qed.

Lemma blind_report_violation p : blind (report_violation p).
Proof. unfold report_violation, on_checker. blind_go. Qed.

Lemma blind_on_checker f : blind (on_checker f).
Proof. by apply blind_modify. Qed.
#[local] Hint Resolve blind_apply_event blind_report_violation blind_on_checker : blind.

Lemma blind_Observe : blind Observe.
Proof.
  unfold Observe, checkElectionSafety, checkCommitMonotonic, checkCommittedEntries, checkEntry. blind_go.
Qed.

Lemma blind_matchDown a b i : blind (matchDown a b i).
Proof. induction i as [|i IH]; cbn [matchDown]; [apply blind_ret|]. unfold compareBelow, compareAt. blind_go. Qed.
#[local] Hint Resolve blind_Observe blind_matchDown : blind.

Lemma blind_Final : blind Final.
Proof. unfold Final, checkLogMatching, checkStateMachinesAgree. blind_go. Qed.

Lemma blind_loop fuel : blind (loop fuel).
Proof. induction fuel as [|fuel IH]; cbn [loop]; [blind_go|]. unfold step. blind_go. Qed.
#[local] Hint Resolve blind_Final blind_loop : blind.

Lemma blind_Run fuel : blind (Run fuel).
Proof. unfold Run, opening. blind_go. Qed.

(** ** Whole runs *)

Lemma New_quiet (seeded : Z → R) cfg :
  New seeded (quiet cfg) = match New seeded cfg with Ret s => Ret (erase s) | o => o end.
Proof.
  unfold New. change (sim_withDefaults (quiet cfg)) with (quiet (sim_withDefaults cfg)).
  set (c := sim_withDefaults cfg). cbn [quiet sc_Nodes sc_Seed sc_Verbose]. destruct (_ <? _)%Z; [done|]. cbv zeta.
  set (s0 := mkSimulator c _ _ _ _ _ _ _ _ _ _ _). set (s1 := mkSimulator (quiet c) _ _ _ _ _ _ _ _ _ _ _).
  change s1 with (erase s0). rewrite (blind_forEach _ sim_start blind_start).
  by destruct (forEach _ sim_start s0) as [[] ?].
Qed.

(** Two configurations that differ in nothing but whether the trace is kept. *)
Lemma same_run (seeded : Z → R) fuel cfg cfg' :
  quiet cfg = quiet cfg' →
  match New seeded cfg, New seeded cfg' with
  | Ret s, Ret s' => fst (Run fuel s) = fst (Run fuel s') ∧ erase (snd (Run fuel s)) = erase (snd (Run fuel s'))
  | o, o' => o = o'
  end.
Proof.
  intros E. pose proof (New_quiet seeded cfg) as H1. rewrite E, (New_quiet seeded cfg') in H1.
  destruct (New seeded cfg) as [s| | |], (New seeded cfg') as [s'| | |]; try congruence.
  assert (erase s' = erase s) as Es by congruence.
  pose proof (blind_Run fuel s) as H2. rewrite <- Es, (blind_Run fuel s') in H2.
  unfold erased in H2. apply pair_equal_spec in H2 as [E1 E2]. by rewrite E1, E2.
Qed.
End blind.
