(* ===== verification/Simctl.v ===== *)
(** * The simctl command

    [cmd/simctl/main.go]: [simctl run] carries out one seed and [simctl fuzz] many, on
    several workers.  What the two promise each other is that a seed which fuzzing
    reports fails again, in the same way, when it is run alone.

    The flag package turns arguments into assignments of flags, which are the input here.
    [fuzz] is the machine of [cmdFuzz]: the goroutine that hands out seeds, the channel,
    the workers, and what they share; each step is one operation on what is shared, and a
    schedule is any order of steps.  The progress line is left out: it only prints. *)

From S2P Require Import Prelude Varint GoMaps Types Config Storage RaftLog RawNode Membership NodeSafety.
From S2P Require Import Cluster EventQueue Sim SimSafety SimRun SimTrace.
From Stdlib Require QArith_base.

(** ** Flags *)

(** The flags both subcommands have. *)
Inductive simFlag :=
  | Flag_nodes (z : Z)
  | Flag_duration (z : Z)
  | Flag_write_interval (z : Z)
  | Flag_pre_vote (b : bool)
  | Flag_drop (q : rate)
  | Flag_duplicate (q : rate)
  | Flag_min_latency (z : Z)
  | Flag_max_latency (z : Z)
  | Flag_reorder (q : rate)
  | Flag_partition (q : rate)
  | Flag_crash (q : rate)
  | Flag_membership (q : rate)
  | Flag_disk_loss (q : rate).

Definition set_faults (f : Faults) (c : simConfig) : simConfig :=
  mkSimConfig (sc_Seed c) (sc_Nodes c) (sc_Duration c) (sc_TickInterval c) (sc_ElectionTick c) (sc_HeartbeatTick c)
    (sc_PreVote c) (sc_WriteInterval c) (sc_SnapshotThreshold c) (sc_SnapshotCatchUpEntries c) f (sc_Verbose c).

(** Where [fs.IntVar], [fs.Float64Var] and so on store the value. *)
Definition set_flag (c : simConfig) (fl : simFlag) : simConfig :=
  let put nodes duration write preVote f :=
    mkSimConfig (sc_Seed c) nodes duration (sc_TickInterval c) (sc_ElectionTick c) (sc_HeartbeatTick c)
      preVote write (sc_SnapshotThreshold c) (sc_SnapshotCatchUpEntries c) f (sc_Verbose c) in
  let faults := put (sc_Nodes c) (sc_Duration c) (sc_WriteInterval c) (sc_PreVote c) in
  let f := sc_Faults c in
  let fault drop dup minl maxl reorder part crash disk member :=
    faults (mkFaults drop dup minl maxl reorder (ReorderMax f) part (PartitionMin f) (PartitionMax f)
              crash (RestartMin f) (RestartMax f) disk member (FaultInterval f)) in
  match fl with
  | Flag_nodes z => put z (sc_Duration c) (sc_WriteInterval c) (sc_PreVote c) f
  | Flag_duration z => put (sc_Nodes c) z (sc_WriteInterval c) (sc_PreVote c) f
  | Flag_write_interval z => put (sc_Nodes c) (sc_Duration c) z (sc_PreVote c) f
  | Flag_pre_vote b => put (sc_Nodes c) (sc_Duration c) (sc_WriteInterval c) b f
  | Flag_drop q => fault q (DuplicateRate f) (MinLatency f) (MaxLatency f) (ReorderRate f) (PartitionRate f)
                     (CrashRate f) (DiskLossRate f) (MembershipRate f)
  | Flag_duplicate q => fault (DropRate f) q (MinLatency f) (MaxLatency f) (ReorderRate f) (PartitionRate f)
                          (CrashRate f) (DiskLossRate f) (MembershipRate f)
  | Flag_min_latency z => fault (DropRate f) (DuplicateRate f) z (MaxLatency f) (ReorderRate f) (PartitionRate f)
                            (CrashRate f) (DiskLossRate f) (MembershipRate f)
  | Flag_max_latency z => fault (DropRate f) (DuplicateRate f) (MinLatency f) z (ReorderRate f) (PartitionRate f)
                            (CrashRate f) (DiskLossRate f) (MembershipRate f)
  | Flag_reorder q => fault (DropRate f) (DuplicateRate f) (MinLatency f) (MaxLatency f) q (PartitionRate f)
                        (CrashRate f) (DiskLossRate f) (MembershipRate f)
  | Flag_partition q => fault (DropRate f) (DuplicateRate f) (MinLatency f) (MaxLatency f) (ReorderRate f) q
                          (CrashRate f) (DiskLossRate f) (MembershipRate f)
  | Flag_crash q => fault (DropRate f) (DuplicateRate f) (MinLatency f) (MaxLatency f) (ReorderRate f)
                      (PartitionRate f) q (DiskLossRate f) (MembershipRate f)
  | Flag_membership q => fault (DropRate f) (DuplicateRate f) (MinLatency f) (MaxLatency f) (ReorderRate f)
                           (PartitionRate f) (CrashRate f) (DiskLossRate f) q
  | Flag_disk_loss q => fault (DropRate f) (DuplicateRate f) (MinLatency f) (MaxLatency f) (ReorderRate f)
                          (PartitionRate f) (CrashRate f) q (MembershipRate f)
  end.

(** [simFlags], after the flags given were parsed. *)
Definition simFlags (given : list simFlag) : simConfig := foldl set_flag (DefaultConfig 0) given.

Definition finish (cfg : simConfig) (perfect : bool) : simConfig :=
  if perfect then set_faults NoFaults cfg else cfg.

(** [cfg.Seed = seed; cfg.Verbose = verbose] *)
Definition seeded_with (seed : Z) (verbose : bool) (c : simConfig) : simConfig :=
  mkSimConfig seed (sc_Nodes c) (sc_Duration c) (sc_TickInterval c) (sc_ElectionTick c) (sc_HeartbeatTick c)
    (sc_PreVote c) (sc_WriteInterval c) (sc_SnapshotThreshold c) (sc_SnapshotCatchUpEntries c) (sc_Faults c) verbose.

Record runFlags := mkRunFlags {
  rf_seed : Z;
  rf_verbose : bool;
  rf_traceLines : Z;
  rf_noFaults : bool
}.

Record fuzzFlags := mkFuzzFlags {
  ff_count : Z;
  ff_start : Z;
  ff_workers : Z;
  ff_maxFailures : Z;
  ff_noFaults : bool
}.

Section simctl.
Context {R : Type} `{HSrc : Source R} `{HFmt : Fmt} `{HSha : Sha256} `{HMap : MapRange}.
Context (seeded : Z → R) (fuel : nat).

(** ** run *)

(** What is printed, on the standard output unless marked. *)
Inductive printed :=
  | TraceHeader (shown total : Z)
  | TraceLine (l : Z * traceLine)
  | BlankLine
  | TheReport (r : Report)
  | FinalState (nodes : list (option (simNode R)))
  | ErrFinalState (nodes : list (option (simNode R)))
  | ErrViolation (v : Violation).

(** [s.Nodes()], up to the text *)
Definition Nodes (s : Simulator R) : list (option (simNode R)) := (λ id, s_nodes s !! id) <$> s_ids s.

(** [lines[len(lines)-limit:]], with the line that says so. *)
Definition shownTrace (limit : Z) (lines : list (Z * traceLine)) : list printed :=
  let n := Z.of_nat (length lines) in
  if (0 <? limit)%Z && (limit <? n)%Z
  then TraceHeader limit n :: (TraceLine <$> drop (Z.to_nat (n - limit)) lines)
  else TraceLine <$> lines.

Definition cmdRun (given : list simFlag) (rf : runFlags) : outcome unit * list printed :=
  let cfg := seeded_with (rf_seed rf) (rf_verbose rf) (finish (simFlags given) (rf_noFaults rf)) in
  match New seeded cfg with
  | Fail e => (Fail e, [])
  | Panic p => (Panic p, [])
  | OutOfFuel => (OutOfFuel, [])
  | Ret s =>
      let '(res, s') := Run fuel s in
      let trace :=
        if rf_verbose rf then shownTrace (rf_traceLines rf) (t_lines (s_trace s')) ++ [BlankLine] else [] in
      match res with
      | Panic p => (Panic p, [])
      | OutOfFuel => (OutOfFuel, [])
      | Fail e => (Fail (Errorf "seed failed to run" [e]), trace ++ [ErrFinalState (Nodes s')])
      | Ret rep =>
          let out := trace ++ [TheReport rep; FinalState (Nodes s')] in
          match rp_Violation rep with
          | Some v => (Fail (Errorf "safety violation" []), out ++ [ErrViolation v])
          | None => (Ret tt, out)
          end
      end
  end.

(** ** fuzz *)

(** Why a seed is reported. *)
Inductive detail := DetailErr (e : error) | DetailViolation (v : Violation).

(** What a worker comes to with one seed.  A panic ends the process. *)
Inductive trialResult :=
  | Ran (committed events : Z) (d : option detail)
  | Crashes (p : string)
  | Spins.

Definition trial (cfg : simConfig) (seed : Z) : trialResult :=
  match New seeded (seeded_with seed (sc_Verbose cfg) cfg) with
  | Fail e => Ran 0 0 (Some (DetailErr e))
  | Panic p => Crashes p
  | OutOfFuel => Spins
  | Ret s =>
      match fst (Run fuel s) with
      | Fail e => Ran 0 0 (Some (DetailErr e))
      | Panic p => Crashes p
      | OutOfFuel => Spins
      | Ret rep => Ran (rp_Committed rep) (rp_Events rep) (DetailViolation <$> rp_Violation rep)
      end
  end.
End simctl.

(** ** The machine of [cmdFuzz] *)

(** Where a worker is.  [WRecord]: about to take the lock and add its failure. *)
Inductive worker :=
  | WRecv
  | WCheck (seed : Z)
  | WTrial (seed : Z)
  | WRecord (seed : Z) (d : detail)
  | WCount (seed : Z)
  | WGone.

(** Where the goroutine that called [cmdFuzz] is: in the loop over the seeds, in
    [seeds <- seed], at [close(seeds)], in [wg.Wait()], at [stop.Store(true)], done. *)
Inductive dealer := DLoop | DSend | DClose | DWait | DStop | DDone.
#[export] Instance dealer_eq_dec : EqDecision dealer.
Proof. solve_decision. Defined.

Record fuzz := mkFuzz {
  fz_dealer : dealer;
  fz_seed : Z;
  fz_chan : list Z;
  fz_closed : bool;
  fz_stop : bool;
  fz_failures : list (Z * detail);
  fz_done : Z;
  fz_committed : Z;
  fz_events : Z;
  fz_workers : list worker;
  fz_crashed : bool
}.

(** Who takes a step. *)
Inductive actor := Dealer | Worker (i : nat).

Section machine.
Context (simulate : Z → trialResult) (start count maxReport : Z) (capacity : nat).

Definition gone (w : worker) : bool := match w with WGone => true | _ => false end.

Definition set_dealer d (s : fuzz) : fuzz :=
  mkFuzz d (fz_seed s) (fz_chan s) (fz_closed s) (fz_stop s) (fz_failures s) (fz_done s) (fz_committed s)
    (fz_events s) (fz_workers s) (fz_crashed s).

Definition deal (s : fuzz) : option fuzz :=
  match fz_dealer s with
  | DLoop =>
      Some (set_dealer (if (fz_seed s <? int_add start count)%Z && negb (fz_stop s) then DSend else DClose) s)
  | DSend =>
      if decide (length (fz_chan s) < capacity)%nat then
        Some (mkFuzz DLoop (int_add (fz_seed s) 1) (fz_chan s ++ [fz_seed s]) (fz_closed s) (fz_stop s) (fz_failures s)
                (fz_done s) (fz_committed s) (fz_events s) (fz_workers s) (fz_crashed s))
      else None
  | DClose =>
      Some (mkFuzz DWait (fz_seed s) (fz_chan s) true (fz_stop s) (fz_failures s) (fz_done s) (fz_committed s)
              (fz_events s) (fz_workers s) (fz_crashed s))
  | DWait => if forallb gone (fz_workers s)
             then Some (set_dealer DStop s) else None
  | DStop =>
      Some (mkFuzz DDone (fz_seed s) (fz_chan s) (fz_closed s) true (fz_failures s) (fz_done s) (fz_committed s)
              (fz_events s) (fz_workers s) (fz_crashed s))
  | DDone => None
  end.

Definition set_worker i w (s : fuzz) : fuzz :=
  mkFuzz (fz_dealer s) (fz_seed s) (fz_chan s) (fz_closed s) (fz_stop s) (fz_failures s) (fz_done s) (fz_committed s)
    (fz_events s) (<[i := w]> (fz_workers s)) (fz_crashed s).

(** The two counters of a run that returned are read by nobody before the workers are
    gone, so that they are added in one step. *)
Definition work (i : nat) (s : fuzz) : option fuzz :=
  match fz_workers s !! i with
  | None | Some WGone => None
  | Some WRecv =>
      match fz_chan s with
      | seed :: rest =>
          Some (mkFuzz (fz_dealer s) (fz_seed s) rest (fz_closed s) (fz_stop s) (fz_failures s) (fz_done s)
                  (fz_committed s) (fz_events s) (<[i := WCheck seed]> (fz_workers s)) (fz_crashed s))
      | [] => if fz_closed s then Some (set_worker i WGone s) else None
      end
  | Some (WCheck seed) => Some (set_worker i (if fz_stop s then WGone else WTrial seed) s)
  | Some (WTrial seed) =>
      match simulate seed with
      | Spins => None
      | Crashes p =>
          Some (mkFuzz (fz_dealer s) (fz_seed s) (fz_chan s) (fz_closed s) (fz_stop s) (fz_failures s) (fz_done s)
                  (fz_committed s) (fz_events s) (fz_workers s) true)
      | Ran committed events d =>
          Some (mkFuzz (fz_dealer s) (fz_seed s) (fz_chan s) (fz_closed s) (fz_stop s) (fz_failures s) (fz_done s)
                  (int_add (fz_committed s) committed) (int_add (fz_events s) events)
                  (<[i := match d with Some d => WRecord seed d | None => WCount seed end]> (fz_workers s)) (fz_crashed s))
      end
  | Some (WRecord seed d) =>
      let failures := fz_failures s ++ [(seed, d)] in
      Some (mkFuzz (fz_dealer s) (fz_seed s) (fz_chan s) (fz_closed s)
              (if (0 <? maxReport)%Z && (maxReport <=? Z.of_nat (length failures))%Z then true else fz_stop s)
              failures (fz_done s) (fz_committed s) (fz_events s) (<[i := WCount seed]> (fz_workers s)) (fz_crashed s))
  | Some (WCount seed) =>
      Some (mkFuzz (fz_dealer s) (fz_seed s) (fz_chan s) (fz_closed s) (fz_stop s) (fz_failures s)
              (int_add (fz_done s) 1) (fz_committed s) (fz_events s) (<[i := WRecv]> (fz_workers s)) (fz_crashed s))
  end.

(** Nothing happens after a panic. *)
Definition fuzz_step (a : actor) (s : fuzz) : option fuzz :=
  if fz_crashed s then None
  else match a with Dealer => deal s | Worker i => work i s end.

Fixpoint fuzz_run (sched : list actor) (s : fuzz) : option fuzz :=
  match sched with
  | [] => Some s
  | a :: sched' => match fuzz_step a s with Some s' => fuzz_run sched' s' | None => None end
  end.

Definition fuzz_start (workers : nat) : fuzz :=
  mkFuzz DLoop start [] false false [] 0 0 0 (replicate workers WRecv) false.
End machine.

(** [sort.Slice]: the seeds are distinct, so that sorting by them leaves no choice. *)
Definition by_seed (a b : Z * detail) : Prop := (fst a ≤ fst b)%Z.
#[export] Instance by_seed_dec a b : Decision (by_seed a b).
Proof. unfold by_seed. apply _. Defined.

#[export] Instance by_seed_total : Total by_seed.
Proof. intros ??. unfold by_seed. lia. Qed.
#[export] Instance by_seed_trans : Transitive by_seed.
Proof. intros ???. unfold by_seed. lia. Qed.

(** What is printed at the end, and the error returned. *)
Record fuzzReport := mkFuzzReport {
  fr_ran : Z;
  fr_committed : Z;
  fr_events : Z;
  fr_failures : list (Z * detail)
}.

Definition fuzz_report (s : fuzz) : outcome unit * fuzzReport :=
  let failures := merge_sort by_seed (fz_failures s) in
  ((match fz_failures s with [] => Ret tt | _ => Fail (Errorf "safety violations found" []) end),
   mkFuzzReport (fz_done s) (fz_committed s) (fz_events s) failures).

Section cmdFuzz.
Context {R : Type} `{HSrc : Source R} `{HFmt : Fmt} `{HSha : Sha256} `{HMap : MapRange}.
Context (seeded : Z → R) (fuel : nat).

Definition fuzzWorkers (ff : fuzzFlags) : nat :=
  Z.to_nat (if (ff_workers ff <? 1)%Z then 1 else ff_workers ff).

(** [cmdFuzz] under a schedule; [None] if the schedule is not one of the machine's. *)
Definition cmdFuzz (given : list simFlag) (ff : fuzzFlags) (sched : list actor) : option fuzz :=
  let cfg := finish (simFlags given) (ff_noFaults ff) in
  let workers := fuzzWorkers ff in
  fuzz_run (trial seeded fuel cfg) (ff_start ff) (ff_count ff) (ff_maxFailures ff) (workers * 4) sched
    (fuzz_start (ff_start ff) workers).
End cmdFuzz.

(** The exit status of the process. *)
Definition simctl_main (args : list string) (run fuzz : list string → outcome unit) : outcome Z :=
  let status o := match o with Ret _ => Ret 0%Z | Fail _ => Ret 1%Z | Panic p => Panic p | OutOfFuel => OutOfFuel end in
  match args with
  | [] => Ret 2%Z
  | cmd :: rest =>
      if decide (cmd = "run"%string) then status (run rest)
      else if decide (cmd = "fuzz"%string) then status (fuzz rest)
      else if decide (cmd ∈ ["version"; "--version"; "-v"; "help"; "--help"; "-h"]%string) then Ret 0%Z
      else Ret 2%Z
  end.

(** ** What fuzzing guarantees *)

(** The sum of a measure over the workers. *)
Definition tally (f : worker → nat) (ws : list worker) : nat := sum_list_with f ws.

Lemma tally_insert f ws i w w' :
  ws !! i = Some w → (tally f (<[i := w']> ws) + f w = tally f ws + f w')%nat.
Proof. apply sum_insert. Qed.

Lemma tally_lookup f ws i w : ws !! i = Some w → (f w ≤ tally f ws)%nat.
Proof.
  unfold tally. revert i. induction ws as [|v ws IH]; intros [|i] Hi; simplify_eq/=; [lia|].
  specialize (IH i Hi). lia.
Qed.

Lemma tally_zero f ws : (∀ w, w ∈ ws → f w = 0%nat) → tally f ws = 0%nat.
Proof.
  unfold tally. induction ws as [|v ws IH]; intros Hz; [done|]. cbn. rewrite (Hz v), IH; [done|..|by left].
  intros w Hw. apply Hz. by right.
Qed.

(** How often [x] is in [l]. *)
Definition occ (x : Z) (l : list Z) : nat := length (filter (λ y, y = x) l).

Lemma occ_cons x y l : occ x (y :: l) = ((if decide (y = x) then 1 else 0) + occ x l)%nat.
Proof. unfold occ. rewrite filter_cons. by case_decide. Qed.

Lemma occ_nil x : occ x [] = 0%nat.
Proof. done. Qed.

Lemma occ_app x l l' : occ x (l ++ l') = (occ x l + occ x l')%nat.
Proof. unfold occ. by rewrite filter_app, length_app. Qed.

Lemma occ_elem x l : x ∈ l ↔ (0 < occ x l)%nat.
Proof.
  induction l as [|y l IH]; [split; [by intros ?%not_elem_of_nil|cbn; lia]|].
  rewrite elem_of_cons, occ_cons, IH. case_decide; [subst; split; [lia|by left]|].
  split; [intros [?|?]; [congruence|lia]|right; lia].
Qed.

Lemma occ_NoDup l : (∀ x, occ x l ≤ 1)%nat → NoDup l.
Proof.
  induction l as [|y l IH]; intros Ho; constructor.
  - intros Hy%occ_elem. specialize (Ho y). rewrite occ_cons in Ho. case_decide; [lia|done].
  - apply IH. intros x. specialize (Ho x). rewrite occ_cons in Ho. lia.
Qed.

#[local] Arguments occ : simpl never.
#[local] Arguments tally : simpl never.

(** The seed a worker has in hand, and whether it is past the simulation with it. *)
Definition hand (w : worker) : option Z :=
  match w with WCheck x | WTrial x | WRecord x _ | WCount x => Some x | WRecv | WGone => None end.
Definition holds (x : Z) (w : worker) : nat := if decide (hand w = Some x) then 1 else 0.
Definition counts (x : Z) (w : worker) : nat :=
  match w with WCount y => if decide (y = x) then 1 else 0 | _ => 0 end.
Definition past (x : Z) (w : worker) : nat :=
  match w with WRecord y _ | WCount y => if decide (y = x) then 1 else 0 | _ => 0 end.
Definition undecided (w : worker) : nat := match w with WTrial _ | WRecord _ _ => 1 | _ => 0 end.

Lemma worker_insert (ws : list worker) (i : nat) (v w w' : worker) :
  ws !! i = Some w → v ∈ <[i := w']> ws → v = w' ∨ v ∈ ws.
Proof.
  intros Hi [j Hj]%list_elem_of_lookup. destruct (decide (i = j)) as [->|Hne].
  - rewrite list_lookup_insert_eq in Hj by (by eapply lookup_lt_Some). left. congruence.
  - rewrite list_lookup_insert_ne in Hj by done. right. by eapply list_elem_of_lookup_2.
Qed.

Lemma worker_kept (ws : list worker) (i : nat) (v w w' : worker) : ws !! i = Some w → v ∈ ws → v ≠ w → v ∈ <[i := w']> ws.
Proof.
  intros Hi [j Hj]%list_elem_of_lookup Hne. apply list_elem_of_lookup. exists j.
  rewrite list_lookup_insert_ne; [done|]. intros ->. congruence.
Qed.

Lemma worker_put (ws : list worker) (i : nat) (w w' : worker) : ws !! i = Some w → w' ∈ <[i := w']> ws.
Proof.
  intros Hi. apply list_elem_of_lookup. exists i. apply list_lookup_insert_eq. by eapply lookup_lt_Some.
Qed.

Lemma tally_below (ws : list worker) (i : nat) w : ws !! i = Some w → undecided w = 0%nat → (tally undecided ws + 1 ≤ length ws)%nat.
Proof.
  assert (∀ ws, tally undecided ws ≤ length ws)%nat as Hle.
  { unfold tally. induction ws0 as [|v ws0 IH]; cbn; [lia|]. destruct v; cbn; lia. }
  revert i. induction ws as [|v ws IH]; intros [|i] Hi Hw; simplify_eq/=.
  - specialize (Hle ws). unfold tally in *. cbn. lia.
  - specialize (IH i Hi Hw). unfold tally in *. cbn. destruct v; cbn; lia.
Qed.

Lemma int_wrap_add z y : int_add (int_wrap z) y = int_wrap (z + y).
Proof.
  unfold int_add, int_wrap. f_equal. set (m := ((z + _) `mod` _)%Z).
  replace (m - 9223372036854775808 + y + 9223372036854775808)%Z with (m + y)%Z by lia.
  unfold m. rewrite Zplus_mod_idemp_l. f_equal. lia.
Qed.

Section fuzzing.
Context (simulate : Z → trialResult) (start count maxReport : Z) (workers : nat).
Local Abbreviation step := (fuzz_step simulate start count maxReport (workers * 4)).
Implicit Types (s : fuzz) (w : worker).

(** What is wrong with a seed, if its run returns. *)
Definition failing (x : Z) : option detail := match simulate x with Ran _ _ d => d | _ => None end.

(** What a run that returns adds to the two counters. *)
Definition ran_committed (x : Z) : Z := match simulate x with Ran c _ _ => c | _ => 0%Z end.
Definition ran_events (x : Z) : Z := match simulate x with Ran _ e _ => e | _ => 0%Z end.
Definition total (f : Z → Z) (l : list Z) : Z := foldr (λ x t, f x + t)%Z 0%Z l.

(** The run of a seed returns. *)
Definition returns (x : Z) : Prop := ∃ c e d, simulate x = Ran c e d.

(** As many failures as were asked for. *)
Definition enough s : Prop := (0 < maxReport ≤ Z.of_nat (length (fz_failures s)))%Z.

Definition past_close (d : dealer) : bool := match d with DWait | DStop | DDone => true | _ => false end.

(** Every seed handed out is in one place: the channel, a worker's hand, among the
    finished ones [fin], or among those [lost] to a worker that was told to stop.  [ran]
    are the seeds whose run has returned. *)
Record fuzz_inv s (fin lost ran : list Z) : Prop := mkFuzzInv {
  fi_where x :
    (occ x (fz_chan s) + tally (holds x) (fz_workers s) + occ x fin + occ x lost =
     if decide (start ≤ x < fz_seed s)%Z then 1 else 0)%nat;
  fi_seed : (start ≤ fz_seed s ≤ start + count)%Z;
  fi_done : fz_done s = int_wrap (Z.of_nat (length fin));
  fi_failures x :
    occ x (fz_failures s).*1 =
    (match failing x with Some _ => occ x fin + tally (counts x) (fz_workers s) | None => 0 end)%nat;
  fi_past x : (occ x ran = occ x fin + tally (past x) (fz_workers s))%nat;
  fi_ran x : x ∈ ran → returns x;
  fi_sums : fz_committed s = int_wrap (total ran_committed ran) ∧ fz_events s = int_wrap (total ran_events ran);
  fi_details x d : (x, d) ∈ fz_failures s → failing x = Some d;
  fi_record x d : WRecord x d ∈ fz_workers s → failing x = Some d;
  fi_lost : lost ≠ [] → enough s;
  fi_stop : fz_stop s = true → fz_dealer s = DDone ∨ enough s;
  fi_enough : enough s → fz_stop s = true;
  fi_gone : WGone ∈ fz_workers s → enough s ∨ (fz_closed s = true ∧ fz_chan s = []);
  fi_closed : fz_closed s = past_close (fz_dealer s);
  fi_ended : past_close (fz_dealer s) = true ∨ fz_dealer s = DClose → fz_seed s = (start + count)%Z ∨ enough s;
  fi_send : fz_dealer s = DSend → (fz_seed s < start + count)%Z;
  fi_all_gone : fz_dealer s = DStop ∨ fz_dealer s = DDone → Forall (λ w, gone w = true) (fz_workers s);
  fi_workers : length (fz_workers s) = workers;
  fi_room : (length (fz_chan s) ≤ workers * 4)%nat;
  fi_free : fz_dealer s = DSend → fz_stop s = true →
    (length (fz_chan s) < workers * 4)%nat ∨ ∃ w, w ∈ fz_workers s ∧ (w = WRecv ∨ ∃ x, w = WCount x);
  fi_bound : enough s →
    (Z.of_nat (length (fz_failures s) + tally undecided (fz_workers s)) ≤ maxReport + Z.of_nat workers - 1)%Z
}.

Context (Hcount : (0 ≤ count)%Z) (Hrange : (-9223372036854775808 ≤ start ∧ start + count < 9223372036854775808)%Z).
Context (Hworkers : (0 < workers)%nat).

Lemma fuzz_inv_start : fuzz_inv (fuzz_start start workers) [] [] [].
Proof.
  assert (∀ f, f WRecv = 0%nat → tally f (replicate workers WRecv) = 0%nat) as Hz.
  { intros f Hf. apply tally_zero. by intros w ->%elem_of_replicate_inv. }
  assert (∀ w, w ∈ replicate workers WRecv → w = WRecv) as Hrep by (intros w; apply elem_of_replicate_inv).
  split; cbn; try done; try lia.
  - intros x. rewrite Hz by done. unfold occ. cbn. case_decide; lia.
  - intros x. rewrite Hz by done. unfold occ. by destruct (failing x).
  - intros x. by rewrite Hz.
  - by intros x ?%not_elem_of_nil.
  - by intros x d ?%not_elem_of_nil.
  - by intros x d ?%Hrep.
  - unfold enough. cbn. lia.
  - by intros ?%Hrep.
  - by intros [|].
  - by intros [|].
  - apply length_replicate.
  - unfold enough. cbn. lia.
Qed.

Lemma deal_inv s s' fin lost ran :
  fuzz_inv s fin lost ran → deal start count (workers * 4) s = Some s' → fuzz_inv s' fin lost ran.
Proof.
  intros [] Hd. unfold deal in Hd.
  assert (int_add start count = (start + count)%Z) as El by (apply int_wrap_small; lia). rewrite El in Hd.
  destruct (fz_dealer s) eqn:ED; [|case_decide| |destruct (forallb _ _) eqn:EF| |]; simplify_eq.
  - destruct (Z.ltb_spec (fz_seed s) (start + count)), (fz_stop s) eqn:ES; split; unfold enough in *; cbn in *;
      try done; try lia; rewrite ?ES in *; try done; try naive_solver lia.
  - pose proof (fi_send0 eq_refl). assert (int_add (fz_seed s) 1 = fz_seed s + 1)%Z as E1 by (apply int_wrap_small; lia).
    split; unfold enough in *; cbn in *; rewrite ?E1; try done; try lia.
    + intros x. rewrite occ_app, occ_cons, occ_nil. specialize (fi_where0 x). repeat case_decide; lia.
    + intros Hs. right. by destruct fi_stop0.
    + intros [?|[? ?]]%fi_gone0; [by left|]. congruence.
    + by intros [|].
    + by intros [|].
    + rewrite length_app. cbn. lia.
  - split; unfold enough in *; cbn in *; try done; try naive_solver.
  - assert (Forall (λ w, gone w = true) (fz_workers s)) as Hall.
    { apply Forall_forall. intros w Hw. rewrite forallb_forall in EF. by apply EF, list_elem_of_In. }
    split; unfold enough in *; cbn in *; try done; try naive_solver.
  - split; unfold enough in *; cbn in *; try done; try naive_solver.
Qed.

(** While a worker is at work the dealer is not done, so that [stop] means that enough
    failures were found. *)
Lemma working_stop s fin lost ran i w :
  fuzz_inv s fin lost ran → fz_workers s !! i = Some w → gone w = false → fz_stop s = true ↔ enough s.
Proof.
  intros Hi Hw Hg. split; [|by eapply fi_enough].
  intros Hs. destruct (fi_stop _ _ _ _ Hi Hs) as [Hd|]; [|done].
  pose proof (fi_all_gone _ _ _ _ Hi ltac:(by right)) as Hall. eapply Forall_lookup_1 in Hall; [|exact Hw]. congruence.
Qed.

(** A worker that goes on with its loop, or counts. *)
Definition ready w : Prop := w = WRecv ∨ ∃ x, w = WCount x.

(** One worker moved from [w] to [w']: what is left to show of the invariant. *)
Lemma worker_moved s s' fin lost ran fin' lost' ran' i w w' :
  fuzz_inv s fin lost ran → fz_workers s !! i = Some w → gone w = false →
  fz_workers s' = <[i := w']> (fz_workers s) →
  fz_dealer s' = fz_dealer s → fz_seed s' = fz_seed s → fz_closed s' = fz_closed s →
  (∀ x, occ x (fz_chan s') + holds x w' + occ x fin' + occ x lost' =
        occ x (fz_chan s) + holds x w + occ x fin + occ x lost)%nat →
  (length (fz_chan s') ≤ length (fz_chan s))%nat →
  fz_done s' = int_wrap (Z.of_nat (length fin')) →
  (∀ x, occ x (fz_failures s').*1 + match failing x with Some _ => occ x fin + counts x w | None => 0 end =
        occ x (fz_failures s).*1 + match failing x with Some _ => occ x fin' + counts x w' | None => 0 end)%nat →
  (∀ x, occ x ran' + (occ x fin + past x w) = occ x ran + (occ x fin' + past x w'))%nat →
  (∀ x, x ∈ ran' → x ∈ ran ∨ returns x) →
  (fz_committed s' = int_wrap (total ran_committed ran') ∧ fz_events s' = int_wrap (total ran_events ran')) →
  (∀ x d, (x, d) ∈ fz_failures s' → (x, d) ∈ fz_failures s ∨ failing x = Some d) →
  (∀ x d, w' = WRecord x d → failing x = Some d) →
  (lost' ≠ lost → enough s') → (enough s → enough s') → (fz_stop s' = true ↔ enough s') →
  (w' = WGone → enough s' ∨ fz_closed s = true ∧ fz_chan s' = []) →
  (fz_dealer s = DSend → fz_stop s' = true →
     (length (fz_chan s') < length (fz_chan s))%nat ∨ ready w' ∨ (fz_stop s = true ∧ ¬ ready w)) →
  (enough s' → enough s ∧ length (fz_failures s') + undecided w' ≤ length (fz_failures s) + undecided w ∨
     Z.of_nat (length (fz_failures s')) = maxReport ∧ undecided w' = 0)%nat →
  fuzz_inv s' fin' lost' ran'.
Proof.
  intros Hi Hw Hg Ew Ed Es Ecl Hwhere Hlen Hdone Hfail Hpast Hret Hsums Hdet Hrec Hlost Hen Hstop Hgone Hfree Hbound.
  pose proof (λ x, tally_insert (holds x) _ _ _ w' Hw) as Hh.
  pose proof (λ x, tally_insert (counts x) _ _ _ w' Hw) as Hc.
  pose proof (λ x, tally_insert (past x) _ _ _ w' Hw) as Hp.
  pose proof (tally_insert undecided _ _ _ w' Hw) as Hu.
  assert (∀ v, v ∈ fz_workers s' → v = w' ∨ v ∈ fz_workers s) as Hin.
  { intros v. rewrite Ew. by eapply worker_insert. }
  assert (fz_dealer s ≠ DStop ∧ fz_dealer s ≠ DDone) as [Hnd1 Hnd2].
  { split; intros E; pose proof (fi_all_gone _ _ _ _ Hi ltac:(by auto)) as Hall;
      (eapply Forall_lookup_1 in Hall; [|exact Hw]); congruence. }
  destruct Hi. split; rewrite ?Ed, ?Es, ?Ecl; try done.
  - intros x. rewrite Ew, <- fi_where0. specialize (Hh x). specialize (Hwhere x). lia.
  - intros x. rewrite Ew. specialize (Hfail x). specialize (fi_failures0 x). specialize (Hc x).
    destruct (failing x); lia.
  - intros x. rewrite Ew. specialize (Hpast x). specialize (fi_past0 x). specialize (Hp x). lia.
  - intros x [?|?]%Hret; [by apply fi_ran0|done].
  - intros x d [?|?]%Hdet; [by apply fi_details0|done].
  - intros x d [<-|?]%Hin; [by apply Hrec|by apply fi_record0].
  - intros Hl. destruct (decide (lost' = lost)) as [->|]; [by apply Hen, fi_lost0|by apply Hlost].
  - intros ?%Hstop. by right.
  - apply Hstop.
  - intros [Hx|Hx]%Hin; [by apply Hgone|]. destruct (fi_gone0 Hx) as [?|[? Ec]]; [left; by apply Hen|right].
    split; [done|]. rewrite Ec in Hlen. cbn in Hlen. by apply nil_length_inv; lia.
  - intros Hx. destruct (fi_ended0 Hx); [by left|right; by apply Hen].
  - intros [|]; congruence.
  - by rewrite Ew, length_insert.
  - lia.
  - intros HS Ht. destruct (Hfree HS Ht) as [?|[Hr|[Ht' Hr]]]; [left; lia|right|].
    + exists w'. rewrite Ew. split; [by eapply worker_put|exact Hr].
    + destruct (fi_free0 HS Ht') as [?|(v & Hv & Hrv)]; [left; lia|right]. exists v. split; [|done].
      rewrite Ew. eapply worker_kept; [done|done|]. intros ->. by apply Hr.
  - intros He. rewrite Ew. destruct (Hbound He) as [[He' Hle]|[Hmax Hz]]; [specialize (fi_bound0 He'); lia|].
    assert (tally undecided (<[i:=w']> (fz_workers s)) + 1 ≤ length (<[i:=w']> (fz_workers s)))%nat as Hb.
    { eapply tally_below; [|exact Hz]. apply list_lookup_insert_eq. by eapply lookup_lt_Some. }
    rewrite length_insert in Hb. lia.
Qed.

(** The counting side conditions, seed by seed. *)
Local Ltac count_seeds :=
  let y := fresh "y" in intros y; cbn; rewrite ?occ_cons, ?fmap_app, ?occ_app; unfold holds; cbn;
  try destruct (failing y) eqn:?; repeat case_decide; simplify_eq; rewrite ?occ_cons, ?occ_nil; cbn; lia.

Lemma work_inv i s s' fin lost ran :
  fuzz_inv s fin lost ran → work simulate maxReport i s = Some s' → ∃ fin' lost' ran', fuzz_inv s' fin' lost' ran'.
Proof.
  intros Hinv Hd. unfold work in Hd. destruct (fz_workers s !! i) as [w|] eqn:Hw; [|done].
  pose proof (working_stop _ _ _ _ _ _ Hinv Hw) as Hst. pose proof (fi_done _ _ _ _ Hinv) as Hdone.
  pose proof (fi_closed _ _ _ _ Hinv) as Hcl. pose proof (fi_sums _ _ _ _ Hinv) as Hsum.
  destruct w as [|x|x|x d|x|]; [destruct (fz_chan s) as [|x rest] eqn:EC; [destruct (fz_closed s) eqn:EL; [|done]|]|
    destruct (fz_stop s) eqn:ES|destruct (simulate x) as [cm ev d| |] eqn:EX; [|..|done]| | |done];
    injection Hd as <-; try specialize (Hst eq_refl).
  - exists fin, lost, ran. eapply (worker_moved s _ fin lost ran _ _ _ i WRecv WGone); try done; cbn; auto; try by count_seeds; try exact Hst.
    intros HS. rewrite HS in Hcl. cbn in *. congruence.
  - exists fin, lost, ran. eapply (worker_moved s _ fin lost ran _ _ _ i WRecv (WCheck x)); try done; cbn; rewrite ?EC; cbn; auto;
      try by count_seeds.
  - exists fin, (x :: lost), ran. eapply (worker_moved s _ fin lost ran _ _ _ i (WCheck x) WGone); try done; cbn; auto; try by count_seeds; try exact Hst.
    all: assert (enough s) as He by (by apply Hst).
    + done.
    + done.
    + intros _. by left.
    + intros _ _. right. right. split; [done|]. by intros [|[]].
  - exists fin, lost, ran. eapply (worker_moved s _ fin lost ran _ _ _ i (WCheck x) (WTrial x)); try done; cbn; auto; try by count_seeds; try exact Hst.
    + by rewrite ES.
    + congruence.
    + intros ?%Hst. congruence.
  - assert (∀ y, y ∈ x :: ran → y ∈ ran ∨ returns y) as Hret.
    { intros y [->|?]%elem_of_cons; [right; repeat eexists; exact EX|by left]. }
    assert (int_add (fz_committed s) cm = int_wrap (total ran_committed (x :: ran)) ∧
            int_add (fz_events s) ev = int_wrap (total ran_events (x :: ran))) as Hsum'.
    { assert (ran_committed x = cm ∧ ran_events x = ev) as [Ec Ee] by (unfold ran_committed, ran_events; by rewrite EX).
      destruct Hsum as [-> ->]. rewrite !int_wrap_add. unfold total. cbn [foldr]. rewrite Ec, Ee. split; f_equal; lia. }
    exists fin, lost, (x :: ran). destruct d as [d|].
    + eapply (worker_moved s _ fin lost ran _ _ _ i (WTrial x) (WRecord x d)); try done; cbn; auto; try by count_seeds; try exact Hst.
      * intros y d' [= <- <-]. unfold failing. by rewrite EX.
      * intros _ Ht. right. right. split; [done|]. by intros [|[]].
    + assert (failing x = None) as Ef by (unfold failing; by rewrite EX).
      eapply (worker_moved s _ fin lost ran _ _ _ i (WTrial x) (WCount x)); try done; cbn; auto; try by count_seeds; try exact Hst.
      * intros _ Ht. right. left. right. eauto.
      * intros ?. left. split; [done|cbn; lia].
  - exists fin, lost, ran. destruct Hinv. by split.
  - assert (failing x = Some d) as Ef by (eapply fi_record; [done|by eapply list_elem_of_lookup_2]).
    exists fin, lost, ran. eapply (worker_moved s _ fin lost ran _ _ _ i (WRecord x d) (WCount x)); try done; cbn; auto; try by count_seeds; try exact Hst.
    + intros y. rewrite fmap_app, occ_app. cbn. rewrite occ_cons, occ_nil. cbn. case_decide; [subst; rewrite Ef; lia|].
      destruct (failing y); lia.
    + intros y d' [?|[= -> ->]%list_elem_of_singleton]%elem_of_app; [by left|by right].
    + unfold enough. cbn. rewrite length_app. cbn. lia.
    + unfold enough in *. cbn. rewrite length_app. cbn.
      destruct (Z.ltb_spec 0 maxReport), (Z.leb_spec maxReport (Z.of_nat (length (fz_failures s) + 1))); cbn;
        rewrite ?Hst; split; intros; try done; try lia.
    + intros _ _. right. left. right. eauto.
    + unfold enough in *. cbn. rewrite length_app. cbn. intros He.
      destruct (decide (maxReport ≤ Z.of_nat (length (fz_failures s)))%Z); [left|right]; split; try lia.
  - exists (x :: fin), lost, ran. eapply (worker_moved s _ fin lost ran _ _ _ i (WCount x) WRecv); try done; cbn; auto; try by count_seeds; try exact Hst.
    + rewrite Hdone, int_wrap_add. f_equal. lia.
    + intros _ _. right. left. by left.
Qed.
Local Abbreviation start_state := (fuzz_start start workers).
Local Abbreviation run := (fuzz_run simulate start count maxReport (workers * 4)).

Lemma fuzz_run_inv sched s s' :
  (∃ fin lost ran, fuzz_inv s fin lost ran) → run sched s = Some s' → ∃ fin lost ran, fuzz_inv s' fin lost ran.
Proof.
  revert s. induction sched as [|a sched IH]; intros s (fin & lost & ran & Hi) Hr; cbn in Hr; [naive_solver|].
  destruct (step a s) as [s1|] eqn:Es; [|done]. apply (IH s1); [|done].
  unfold fuzz_step in Es. destruct (fz_crashed s); [done|]. destruct a as [|i].
  - exists fin, lost, ran. by eapply deal_inv.
  - by eapply work_inv.
Qed.

Lemma fuzz_reach_inv sched s : run sched start_state = Some s → ∃ fin lost ran, fuzz_inv s fin lost ran.
Proof. apply fuzz_run_inv. eauto using fuzz_inv_start. Qed.

(** *** No deadlock, and no run without end *)

Lemma held_in_range s fin lost ran i x :
  fuzz_inv s fin lost ran → fz_workers s !! i = Some (WTrial x) → (start ≤ x < start + count)%Z.
Proof.
  intros Hi Hw. pose proof (tally_lookup (holds x) _ _ _ Hw) as Ht. unfold holds in Ht at 1.
  rewrite decide_True in Ht by done. pose proof (fi_where _ _ _ _ Hi x). pose proof (fi_seed _ _ _ _ Hi). case_decide; lia.
Qed.

(** The process dies of a seed that panics, and of nothing else. *)
Lemma fuzz_run_crash sched s s' :
  (∃ fin lost ran, fuzz_inv s fin lost ran) → run sched s = Some s' → fz_crashed s' = true →
  fz_crashed s = true ∨ ∃ x p, (start ≤ x < start + count)%Z ∧ simulate x = Crashes p.
Proof.
  revert s. induction sched as [|a sched IH]; intros s Hi Hr Hc; cbn [fuzz_run] in Hr; [left; by simplify_eq|].
  destruct (step a s) as [s1|] eqn:Es; [|done]. destruct (IH s1) as [Hc1|?]; [|done|done|clear IH|by right].
  { apply (fuzz_run_inv [a] s s1); [done|]. cbn. by rewrite Es. }
  destruct Hi as (fin & lost & ran & Hi). unfold fuzz_step in Es. destruct (fz_crashed s) eqn:Hc0; [by left|right].
  destruct a as [|i].
  - unfold deal in Es. repeat case_match; simplify_eq/=; congruence.
  - unfold work in Es. destruct (fz_workers s !! i) as [w|] eqn:Hw; [|done].
    destruct w as [|x|x|x d|x|]; try by repeat case_match; simplify_eq/=; congruence.
    pose proof (held_in_range _ _ _ _ _ _ Hi Hw). exists x. destruct (simulate x); simplify_eq/=; [congruence|eauto].
Qed.

(** Somebody can always go on, unless it is over. *)
Lemma fuzz_progress s fin lost ran :
  fuzz_inv s fin lost ran → (∀ x, start ≤ x < start + count → simulate x ≠ Spins)%Z → fz_crashed s = false → fz_dealer s ≠ DDone →
  ∃ a, step a s ≠ None.
Proof.
  intros Hi Hsp Hc Hd. unfold fuzz_step. rewrite Hc.
  assert (∀ w, w ∈ fz_workers s → gone w = false → (w = WRecv → fz_chan s ≠ [] ∨ fz_closed s = true) →
    ∃ a, match a with Dealer => deal start count (workers * 4) s | Worker i => work simulate maxReport i s end ≠ None) as Hwork.
  { intros w [i Hw]%list_elem_of_lookup Hg Hr. exists (Worker i). unfold work. rewrite Hw.
    destruct w as [|x|x|x d|x|]; try done.
    - destruct (Hr eq_refl) as [Hn|Hcl]; destruct (fz_chan s); try done. by rewrite Hcl.
    - specialize (Hsp x (held_in_range _ _ _ _ _ _ Hi Hw)). by destruct (simulate x). }
  destruct Hi. destruct (fz_dealer s) eqn:ED; try by (exists Dealer; unfold deal; rewrite ED).
  - destruct (decide (length (fz_chan s) < workers * 4)%nat) as [Hlt|Hge].
    { exists Dealer. unfold deal. rewrite ED. by rewrite decide_True. }
    assert (fz_chan s ≠ []) as Hne by (intros E; rewrite E in Hge; cbn in Hge; lia).
    destruct (fz_stop s) eqn:ES.
    + destruct fi_free0 as [?|(w & Hw & Hr)]; [done|done|lia|]. apply (Hwork w Hw); [by destruct Hr as [->|[x ->]]|by left].
    + destruct (fz_workers s) as [|w ws] eqn:EW; [cbn in *; lia|]. apply (Hwork w); [by left| |by left].
      destruct w; try done. destruct fi_gone0 as [He|[Hx _]]; [by left|by apply fi_enough0 in He|by rewrite fi_closed0 in Hx].
  - destruct (forallb gone (fz_workers s)) eqn:EF; [exists Dealer; unfold deal; by rewrite ED, EF|].
    assert (¬ Forall (λ w, gone w = true) (fz_workers s)) as Hn.
    { intros HF. rewrite Forall_forall in HF. assert (forallb gone (fz_workers s) = true); [|congruence].
      apply forallb_forall. intros w Hw. by apply HF, list_elem_of_In. }
    apply not_Forall_Exists in Hn; [|intros ?; apply _]. apply Exists_exists in Hn as (w & Hw & Hg).
    apply (Hwork w Hw); [by apply not_true_is_false|]. intros _. right. done.
Qed.

(** What is left to do: seven steps for a seed not yet sent, five for one in the channel. *)
Definition worker_weight w : nat :=
  match w with WCheck _ => 5 | WTrial _ => 4 | WRecord _ _ => 3 | WCount _ => 2 | WRecv => 1 | WGone => 0 end.
Definition dealer_weight (d : dealer) : nat :=
  match d with DLoop => 5 | DSend => 4 | DClose => 3 | DWait => 2 | DStop => 1 | DDone => 0 end.
Definition fuzz_weight s : nat :=
  7 * Z.to_nat (start + count - fz_seed s) + 5 * length (fz_chan s) + tally worker_weight (fz_workers s) +
  dealer_weight (fz_dealer s) + (if fz_crashed s then 0 else 1).

Lemma fuzz_step_weight a s s' fin lost ran :
  fuzz_inv s fin lost ran → step a s = Some s' → (fuzz_weight s' < fuzz_weight s)%nat.
Proof.
  intros Hi Hs. unfold fuzz_step in Hs. destruct (fz_crashed s) eqn:EC; [done|]. destruct a as [|i].
  - unfold deal in Hs. destruct Hi.
    destruct (fz_dealer s) eqn:ED; [|case_decide| |destruct (forallb _ _)| |]; simplify_eq; unfold fuzz_weight; cbn;
      rewrite ?ED, ?EC; cbn; try lia; [by destruct (_ && _); cbn; lia|].
    specialize (fi_send0 eq_refl). rewrite length_app. cbn. unfold int_add. rewrite int_wrap_small by lia. lia.
  - unfold work in Hs. destruct (fz_workers s !! i) as [w|] eqn:Hw; [|done].
    assert (∀ w', tally worker_weight (<[i:=w']> (fz_workers s)) + worker_weight w =
      tally worker_weight (fz_workers s) + worker_weight w')%nat as Ht by (intros w'; by apply tally_insert).
    destruct w as [|x|x|x d|x|]; [destruct (fz_chan s) as [|y rest] eqn:EL; [destruct (fz_closed s)|]|
      destruct (fz_stop s)|destruct (simulate x) as [cm ev [d|]| |]| | |]; simplify_eq; unfold fuzz_weight; cbn -[Nat.mul];
      rewrite ?EC, ?EL; try (match goal with |- context [<[i:=?w']> _] => specialize (Ht w') end); cbn -[Nat.mul] in *; lia.
Qed.

Lemma fuzz_run_weight sched s s' fin lost ran :
  fuzz_inv s fin lost ran → run sched s = Some s' → (length sched + fuzz_weight s' ≤ fuzz_weight s)%nat.
Proof.
  revert s fin lost ran. induction sched as [|a sched IH]; intros s fin lost ran Hi Hr; cbn [fuzz_run length] in *; [by simplify_eq|].
  destruct (step a s) as [s1|] eqn:Es; [|done]. pose proof (fuzz_step_weight _ _ _ _ _ _ Hi Es).
  destruct (fuzz_run_inv [a] s s1) as (fin1 & lost1 & ran1 & Hi1); [eauto|cbn; by rewrite Es|].
  specialize (IH _ _ _ _ Hi1 Hr). lia.
Qed.

Lemma fuzz_start_weight : fuzz_weight start_state = (7 * Z.to_nat count + workers + 6)%nat.
Proof.
  unfold fuzz_weight. cbn. assert (tally worker_weight (replicate workers WRecv) = workers) as ->.
  { unfold tally. clear. induction workers as [|n IH]; [done|]. cbn. by rewrite IH. }
  lia.
Qed.

(** *** What is reported *)

(** The failing seeds among [l], each with what is wrong. *)
Definition bad (l : list Z) : list (Z * detail) := omap (λ x, pair x <$> failing x) l.

Lemma elem_of_bad x d l : (x, d) ∈ bad l ↔ x ∈ l ∧ failing x = Some d.
Proof.
  unfold bad. rewrite list_elem_of_omap. split.
  - intros (y & Hy & Hd). destruct (failing y) eqn:Ef; simplify_eq/=. done.
  - intros [Hx Hd]. exists x. by rewrite Hd.
Qed.

Lemma NoDup_bad l : NoDup l → NoDup (bad l).
Proof.
  induction 1 as [|x l Hx Hl IH]; [constructor|]. cbn. destruct (failing x) as [d|]; [|done].
  constructor; [|done]. by intros [? _]%elem_of_bad.
Qed.

Lemma bad_sorted m n : StronglySorted by_seed (bad (seqZ m (Z.of_nat n))).
Proof.
  revert m. induction n as [|n IH]; intros m; [constructor|].
  rewrite seqZ_cons by lia. replace (Z.pred (Z.of_nat (S n))) with (Z.of_nat n) by lia. cbn.
  destruct (failing m) as [d|]; cbn; [|apply IH]. constructor; [apply IH|]. apply Forall_forall.
  intros [x d'] [Hx _]%elem_of_bad. apply elem_of_seqZ in Hx. unfold by_seed. cbn. lia.
Qed.

Section over.
Context (s : fuzz) (fin lost ran : list Z) (Hi : fuzz_inv s fin lost ran) (Hd : fz_dealer s = DDone).

Lemma over_tally f : f WGone = 0%nat → tally f (fz_workers s) = 0%nat.
Proof.
  intros Hf. apply tally_zero. intros w Hw. pose proof (fi_all_gone _ _ _ _ Hi ltac:(by right)) as Hall.
  rewrite Forall_forall in Hall. specialize (Hall w Hw). by destruct w.
Qed.

Lemma over_failures x d : (x, d) ∈ fz_failures s ↔ x ∈ fin ∧ failing x = Some d.
Proof.
  pose proof (fi_failures _ _ _ _ Hi x) as Hf. rewrite over_tally, Nat.add_0_r in Hf by done. split.
  - intros Hx. pose proof (fi_details _ _ _ _ Hi _ _ Hx) as Hfx. split; [|done].
    rewrite Hfx in Hf. apply occ_elem. rewrite <- Hf. apply occ_elem. apply list_elem_of_fmap. by exists (x, d).
  - intros [Hx Hfx]. rewrite Hfx in Hf. apply occ_elem in Hx. rewrite <- Hf in Hx. apply occ_elem in Hx.
    apply list_elem_of_fmap in Hx as ([y d'] & -> & Hy). cbn in *.
    pose proof (fi_details _ _ _ _ Hi _ _ Hy). by simplify_eq.
Qed.

Lemma over_fin x : (occ x fin ≤ 1)%nat ∧ (x ∈ fin → (start ≤ x < start + count)%Z).
Proof.
  pose proof (fi_where _ _ _ _ Hi x). pose proof (fi_seed _ _ _ _ Hi).
  split; [case_decide; lia|]. intros Hx%occ_elem. case_decide; lia.
Qed.

Lemma over_NoDup : NoDup (fz_failures s).*1.
Proof.
  apply occ_NoDup. intros x. rewrite (fi_failures _ _ _ _ Hi), over_tally by done.
  pose proof (over_fin x). destruct (failing x); lia.
Qed.

Lemma over_ran : ran ≡ₚ fin.
Proof.
  assert (∀ x, occ x ran = occ x fin) as He.
  { intros x. rewrite (fi_past _ _ _ _ Hi), over_tally; [lia|done]. }
  apply NoDup_Permutation; [apply occ_NoDup; intros x; rewrite He; apply over_fin|apply occ_NoDup; intros; apply over_fin|].
  intros x. by rewrite !occ_elem, He.
Qed.

(** Unless enough failures stopped it early, every seed was run. *)
Lemma over_all : ¬ enough s → fin ≡ₚ seqZ start count.
Proof.
  intros Hne. assert (lost = []) as El by (destruct lost; [done|]; exfalso; by apply Hne, (fi_lost _ _ _ _ Hi)).
  assert (fz_chan s = []) as Ec.
  { pose proof (fi_all_gone _ _ _ _ Hi ltac:(by right)) as Hall. pose proof (fi_workers _ _ _ _ Hi) as Hw.
    destruct (fz_workers s) as [|w ws] eqn:EW; [cbn in Hw; lia|]. apply Forall_cons in Hall as [Hg _].
    destruct w; try done. destruct (fi_gone _ _ _ _ Hi) as [|[_ ?]]; [rewrite EW; by left|done|done]. }
  destruct (fi_ended _ _ _ _ Hi) as [Hs|]; [left; by rewrite Hd| |done].
  apply NoDup_Permutation; [apply occ_NoDup; intros; apply over_fin|apply NoDup_seqZ|].
  intros x. rewrite elem_of_seqZ, occ_elem. pose proof (fi_where _ _ _ _ Hi x) as Hx.
  rewrite Ec, El, over_tally, Hs, !occ_nil in Hx by done. case_decide; lia.
Qed.

Lemma over_exact : ¬ enough s → merge_sort by_seed (fz_failures s) = bad (seqZ start count).
Proof.
  intros Hne. pose proof (over_all Hne) as Hall.
  assert (∀ x d, (x, d) ∈ fz_failures s ↔ (x, d) ∈ bad (seqZ start count)) as Hin.
  { intros x d. by rewrite over_failures, elem_of_bad, Hall. }
  apply (StronglySorted_unique_strong by_seed).
  - intros [x d] [y d'] Hx Hy H1 H2. rewrite merge_sort_Permutation in Hx. apply Hin in Hx.
    apply elem_of_bad in Hx as [_ Hx]. apply elem_of_bad in Hy as [_ Hy].
    assert (x = y) by (unfold by_seed in *; cbn in *; lia). by simplify_eq.
  - apply (StronglySorted_merge_sort _).
  - replace count with (Z.of_nat (Z.to_nat count)) by lia. apply bad_sorted.
  - rewrite merge_sort_Permutation. apply NoDup_Permutation.
    + eapply NoDup_fmap_1, over_NoDup.
    + apply NoDup_bad, NoDup_seqZ.
    + intros [x d]. apply Hin.
Qed.
End over.

Lemma total_perm f l l' : l ≡ₚ l' → total f l = total f l'.
Proof. unfold total. induction 1; cbn; lia. Qed.

Lemma over_report s :
  (∃ fin lost ran, fuzz_inv s fin lost ran) → fz_dealer s = DDone → (count < 9223372036854775808)%Z →
  let '(res, r) := fuzz_report s in
  (∀ x d, (x, d) ∈ fr_failures r → (start ≤ x < start + count)%Z ∧ failing x = Some d) ∧
  StronglySorted by_seed (fr_failures r) ∧ NoDup (fr_failures r).*1 ∧
  (res = Ret tt ↔ ∀ x, (start ≤ x < start + count)%Z → ∃ c e, simulate x = Ran c e None) ∧
  ((maxReport ≤ 0 ∨ Z.of_nat (length (fr_failures r)) < maxReport)%Z →
     fr_failures r = bad (seqZ start count) ∧ fr_ran r = count ∧
     fr_committed r = int_wrap (total ran_committed (seqZ start count)) ∧
     fr_events r = int_wrap (total ran_events (seqZ start count)) ∧
     ∀ x, (start ≤ x < start + count)%Z → returns x) ∧
  ((0 < maxReport)%Z → (Z.of_nat (length (fr_failures r)) ≤ maxReport + Z.of_nat workers - 1)%Z).
Proof.
  intros (fin & lost & ran & Hi) Hd Hc. unfold fuzz_report. cbn [fr_failures fr_ran fr_committed fr_events].
  assert (¬ enough s → fz_failures s = [] → ∀ x, (start ≤ x < start + count)%Z → ∃ c e, simulate x = Ran c e None) as Hclean.
  { intros Hne Hf x Hx. assert (x ∈ fin) as Hfin by (rewrite (over_all _ _ _ _ Hi Hd Hne); by apply elem_of_seqZ).
    destruct (fi_ran _ _ _ _ Hi x) as (c & e & d & Ex); [by rewrite (over_ran _ _ _ _ Hi Hd)|].
    exists c, e. destruct d as [d|]; [|done]. assert ((x, d) ∈ fz_failures s) as Hin; [|by rewrite Hf in Hin; apply not_elem_of_nil in Hin].
    apply (over_failures _ _ _ _ Hi Hd). unfold failing. by rewrite Ex. }
  assert (length (merge_sort by_seed (fz_failures s)) = length (fz_failures s)) as El by (by rewrite merge_sort_Permutation).
  split_and!.
  - intros x d. rewrite merge_sort_Permutation, (over_failures _ _ _ _ Hi Hd). intros [Hx ?]. split; [|done].
    by eapply over_fin.
  - apply (StronglySorted_merge_sort _).
  - rewrite merge_sort_Permutation. by eapply over_NoDup.
  - split.
    + destruct (fz_failures s) eqn:EF; [|done]. intros _. apply Hclean; [|done]. unfold enough. rewrite EF. cbn. lia.
    + intros Hall. destruct (fz_failures s) as [|[x d] l] eqn:EF; [done|]. exfalso.
      assert ((x, d) ∈ fz_failures s) as Hx by (rewrite EF; by left). apply (over_failures _ _ _ _ Hi Hd) in Hx as [Hx Hf].
      destruct (Hall x) as (c & e & Ex); [by eapply over_fin|]. unfold failing in Hf. by rewrite Ex in Hf.
  - rewrite El. intros Hb. assert (¬ enough s) as Hne by (unfold enough; lia).
    pose proof (over_all _ _ _ _ Hi Hd Hne) as Hall. pose proof (over_ran _ _ _ _ Hi Hd) as Hran. rewrite Hall in Hran.
    split_and!.
    + by eapply over_exact.
    + rewrite (fi_done _ _ _ _ Hi), Hall, length_seqZ. rewrite Z2Nat.id by lia. apply int_wrap_small. lia.
    + rewrite (proj1 (fi_sums _ _ _ _ Hi)). f_equal. by apply total_perm.
    + rewrite (proj2 (fi_sums _ _ _ _ Hi)). f_equal. by apply total_perm.
    + intros x Hx. apply (fi_ran _ _ _ _ Hi). rewrite Hran. by apply elem_of_seqZ.
  - rewrite El. intros Hm. destruct (decide (enough s)) as [He|Hne]; [|unfold enough in Hne; lia].
    pose proof (fi_bound _ _ _ _ Hi He). lia.
Qed.
End fuzzing.

(** ** The two subcommands *)

Lemma fuzz_run_snoc simulate start count maxReport capacity sched a s :
  fuzz_run simulate start count maxReport capacity (sched ++ [a]) s =
  match fuzz_run simulate start count maxReport capacity sched s with
  | Some s' => fuzz_step simulate start count maxReport capacity a s'
  | None => None
  end.
Proof.
  revert s. induction sched as [|b sched IH]; intros s; cbn; [by destruct (fuzz_step _ _ _ _ _ _ _)|].
  by destruct (fuzz_step _ _ _ _ _ b s).
Qed.

(** The seeds asked for are [int64] values, and counting up to them does not overflow. *)
Definition range_ok (ff : fuzzFlags) : Prop :=
  (0 ≤ ff_count ff < 9223372036854775808)%Z ∧
  (-9223372036854775808 ≤ ff_start ff)%Z ∧ (ff_start ff + ff_count ff < 9223372036854775808)%Z.

Definition in_range (ff : fuzzFlags) (x : Z) : Prop := (ff_start ff ≤ x < ff_start ff + ff_count ff)%Z.

Lemma fuzzWorkers_pos ff : (0 < fuzzWorkers ff)%nat.
Proof. unfold fuzzWorkers. destruct (Z.ltb_spec (ff_workers ff) 1); lia. Qed.

(** One amount of fuel for finitely many seeds. *)
Lemma fuel_for_all (P : Z → nat → Prop) (l : list Z) :
  (∀ x, x ∈ l → ∃ fuel, ∀ k, (fuel ≤ k)%nat → P x k) → ∃ fuel, ∀ k, (fuel ≤ k)%nat → ∀ x, x ∈ l → P x k.
Proof.
  induction l as [|y l IH]; intros Hl; [exists 0%nat; by intros k _ x ?%not_elem_of_nil|].
  destruct IH as [f1 H1]; [intros; apply Hl; by right|]. destruct (Hl y) as [f2 H2]; [by left|].
  exists (f1 + f2)%nat. intros k Hk x [->|Hx]%elem_of_cons; [apply H2; lia|apply H1; [lia|done]].
Qed.

Section commands.
Context {R : Type} `{HSrc : Source R} `{HFmt : Fmt} `{HSha : Sha256} `{HMap : MapRange}.
Context (seeded : Z → R).
Implicit Types (given : list simFlag) (ff : fuzzFlags).

(** What fuzzing tries with one seed. *)
Definition tries fuel given (noFaults : bool) (x : Z) : trialResult :=
  trial seeded fuel (finish (simFlags given) noFaults) x.

Lemma cmdFuzz_inv fuel given ff sched s :
  range_ok ff → cmdFuzz seeded fuel given ff sched = Some s →
  ∃ fin lost ran, fuzz_inv (tries fuel given (ff_noFaults ff)) (ff_start ff) (ff_count ff) (ff_maxFailures ff)
    (fuzzWorkers ff) s fin lost ran.
Proof.
  intros (Hc & Hr) Hs. eapply fuzz_reach_inv; [lia|done|apply fuzzWorkers_pos|exact Hs].
Qed.

Lemma cmdFuzz_finishes fuel given ff sched s :
  range_ok ff → (∀ x, in_range ff x → tries fuel given (ff_noFaults ff) x ≠ Spins) →
  cmdFuzz seeded fuel given ff sched = Some s →
  (length sched ≤ 7 * Z.to_nat (ff_count ff) + fuzzWorkers ff + 6)%nat ∧
  (fz_crashed s = true ∨ fz_dealer s = DDone ∨ ∃ a, cmdFuzz seeded fuel given ff (sched ++ [a]) ≠ None).
Proof.
  intros Hok Hsp Hs. pose proof Hok as (Hc & Hr).
  destruct (cmdFuzz_inv _ _ _ _ _ Hok Hs) as (fin & lost & ran & Hi). split.
  - unfold cmdFuzz in Hs. eapply (fuzz_run_weight _ _ _ _ (fuzzWorkers ff) (proj1 Hc) Hr (fuzzWorkers_pos ff)) in Hs;
      [|eapply fuzz_inv_start; try done; try lia; apply fuzzWorkers_pos].
    rewrite fuzz_start_weight in Hs by (done || lia || apply fuzzWorkers_pos). lia.
  - destruct (fz_crashed s) eqn:EC; [by left|right]. destruct (decide (fz_dealer s = DDone)) as [|Hd]; [by left|right].
    edestruct (fuzz_progress) as [a Ha]; [..|exact Hi|exact Hsp|done|done|]; try done; try lia; [apply fuzzWorkers_pos|].
    exists a. unfold cmdFuzz in *. by rewrite fuzz_run_snoc, Hs.
Qed.

Lemma cmdFuzz_crash fuel given ff sched s :
  range_ok ff → cmdFuzz seeded fuel given ff sched = Some s → fz_crashed s = true →
  ∃ x p, in_range ff x ∧ tries fuel given (ff_noFaults ff) x = Crashes p.
Proof.
  intros (Hc & Hr) Hs Hcr. pose proof (fuzzWorkers_pos ff).
  edestruct fuzz_run_crash as [?|?]; [..|exact Hs|exact Hcr| |eassumption]; try done; try lia.
  do 3 eexists. eapply fuzz_inv_start; try done; lia.
Qed.

(** Running a seed alone comes to what fuzzing found, whether or not the trace is kept. *)
Lemma run_as_tried fuel given rf :
  match tries fuel given (rf_noFaults rf) (rf_seed rf) with
  | Ran _ _ None => fst (cmdRun seeded fuel given rf) = Ret tt
  | Ran _ _ (Some (DetailViolation v)) =>
      fst (cmdRun seeded fuel given rf) = Fail (Errorf "safety violation" []) ∧
      last (snd (cmdRun seeded fuel given rf)) = Some (ErrViolation v)
  | Ran _ _ (Some (DetailErr e)) =>
      fst (cmdRun seeded fuel given rf) ∈ [Fail e; Fail (Errorf "seed failed to run" [e])]
  | Crashes p => fst (cmdRun seeded fuel given rf) = Panic p
  | Spins => fst (cmdRun seeded fuel given rf) = OutOfFuel
  end.
Proof.
  unfold tries, trial, cmdRun. set (c := finish _ _). cbv zeta.
  pose proof (same_run seeded fuel (seeded_with (rf_seed rf) (sc_Verbose c) c) (seeded_with (rf_seed rf) (rf_verbose rf) c)
    ltac:(reflexivity)) as Hsame.
  destruct (New seeded (seeded_with _ (sc_Verbose c) c)) as [s1|e1|p1|],
    (New seeded (seeded_with _ (rf_verbose rf) c)) as [s2|e2|p2|]; simplify_eq; try done; [|by left].
  destruct Hsame as [E _]. destruct (Run fuel s1) as [o1 s1'], (Run fuel s2) as [o2 s2']. cbn in E |- *. subst o2.
  destruct o1 as [rep|e|p|]; cbn; try done; [|by right; left].
  destruct (rp_Violation rep) as [v|]; cbn; [|done]. split; [done|]. by rewrite last_snoc.
Qed.

(** C18: Every schedule of [simctl fuzz] comes to an end, after a number of steps that the
    number of seeds and of workers bounds, and none gets stuck: as long as it is not over
    and no simulation panicked, the goroutine handing out seeds or a worker can go on.
    In particular a full channel never leaves the sender waiting for workers that have
    all been told to stop. *)
Theorem fuzz_finishes fuel given ff sched s :
  range_ok ff → (∀ x, in_range ff x → tries fuel given (ff_noFaults ff) x ≠ Spins) →
  cmdFuzz seeded fuel given ff sched = Some s →
  (length sched ≤ 7 * Z.to_nat (ff_count ff) + fuzzWorkers ff + 6)%nat ∧
  (fz_crashed s = true ∨ fz_dealer s = DDone ∨ ∃ a, cmdFuzz seeded fuel given ff (sched ++ [a]) ≠ None).
Proof. apply cmdFuzz_finishes. Qed.

Lemma cmdFuzz_report fuel given ff sched s :
  range_ok ff → cmdFuzz seeded fuel given ff sched = Some s → fz_dealer s = DDone →
  let tried := tries fuel given (ff_noFaults ff) in
  let '(res, r) := fuzz_report s in
  (∀ x d, (x, d) ∈ fr_failures r → in_range ff x ∧ failing tried x = Some d) ∧
  StronglySorted by_seed (fr_failures r) ∧ NoDup (fr_failures r).*1 ∧
  (res = Ret tt ↔ ∀ x, in_range ff x → ∃ c e, tried x = Ran c e None) ∧
  ((ff_maxFailures ff ≤ 0 ∨ Z.of_nat (length (fr_failures r)) < ff_maxFailures ff)%Z →
     fr_failures r = bad tried (seqZ (ff_start ff) (ff_count ff)) ∧ fr_ran r = ff_count ff ∧
     fr_committed r = int_wrap (total (ran_committed tried) (seqZ (ff_start ff) (ff_count ff))) ∧
     fr_events r = int_wrap (total (ran_events tried) (seqZ (ff_start ff) (ff_count ff))) ∧
     ∀ x, in_range ff x → returns tried x) ∧
  ((0 < ff_maxFailures ff)%Z →
     (Z.of_nat (length (fr_failures r)) ≤ ff_maxFailures ff + Z.of_nat (fuzzWorkers ff) - 1)%Z).
Proof.
  intros Hok Hs Hd. pose proof (cmdFuzz_inv _ _ _ _ _ Hok Hs) as Hi. destruct Hok as (Hc & Hr).
  eapply over_report; try done; try lia. apply fuzzWorkers_pos.
Qed.

(** C17: What [simctl fuzz] reports does not depend on the schedule.  Each failure is of a seed
    that was asked for and that fails so, the failures are in the order of the seeds,
    each once; the command succeeds if and only if every seed runs clean; and unless the
    limit on failures was reached, the failures, the number of seeds and the two totals
    are those of all seeds.  The limit is exceeded by fewer than there are workers. *)
Theorem fuzz_exact fuel given ff sched s :
  range_ok ff → cmdFuzz seeded fuel given ff sched = Some s → fz_dealer s = DDone →
  let tried := tries fuel given (ff_noFaults ff) in
  let '(res, r) := fuzz_report s in
  (∀ x d, (x, d) ∈ fr_failures r → in_range ff x ∧ failing tried x = Some d) ∧
  StronglySorted by_seed (fr_failures r) ∧ NoDup (fr_failures r).*1 ∧
  (res = Ret tt ↔ ∀ x, in_range ff x → ∃ c e, tried x = Ran c e None) ∧
  ((ff_maxFailures ff ≤ 0 ∨ Z.of_nat (length (fr_failures r)) < ff_maxFailures ff)%Z →
     fr_failures r = bad tried (seqZ (ff_start ff) (ff_count ff)) ∧ fr_ran r = ff_count ff ∧
     fr_committed r = int_wrap (total (ran_committed tried) (seqZ (ff_start ff) (ff_count ff))) ∧
     fr_events r = int_wrap (total (ran_events tried) (seqZ (ff_start ff) (ff_count ff))) ∧
     ∀ x, in_range ff x → returns tried x) ∧
  ((0 < ff_maxFailures ff)%Z →
     (Z.of_nat (length (fr_failures r)) ≤ ff_maxFailures ff + Z.of_nat (fuzzWorkers ff) - 1)%Z).
Proof. apply cmdFuzz_report. Qed.

(** C19: A seed that fuzzing reports fails again when it is run alone with the same flags, in
    the same way, whether or not the run is verbose; and unless the limit on failures was
    reached, a seed that was asked for and not reported runs clean. *)
Theorem reported_reproduces fuel given ff sched s rf :
  range_ok ff → cmdFuzz seeded fuel given ff sched = Some s → fz_dealer s = DDone →
  rf_noFaults rf = ff_noFaults ff → in_range ff (rf_seed rf) →
  let '(ran, out) := cmdRun seeded fuel given rf in
  let failures := fr_failures (snd (fuzz_report s)) in
  (∀ v, (rf_seed rf, DetailViolation v) ∈ failures →
     ran = Fail (Errorf "safety violation" []) ∧ last out = Some (ErrViolation v)) ∧
  (∀ e, (rf_seed rf, DetailErr e) ∈ failures → ran ∈ [Fail e; Fail (Errorf "seed failed to run" [e])]) ∧
  ((ff_maxFailures ff ≤ 0 ∨ Z.of_nat (length failures) < ff_maxFailures ff)%Z →
   rf_seed rf ∉ failures.*1 → ran = Ret tt).
Proof.
  intros Hok Hs Hd Ef Hin. pose proof (run_as_tried fuel given rf) as Hrun. rewrite Ef in Hrun.
  pose proof (cmdFuzz_report _ _ _ _ _ Hok Hs Hd) as Hrep. cbv zeta in Hrep.
  destruct (cmdRun seeded fuel given rf) as [ran out], (fuzz_report s) as [res r].
  destruct Hrep as (Hfail & _ & _ & _ & Hall & _). cbn in *.
  split_and!.
  - intros v Hv. apply Hfail in Hv as [_ Hv]. unfold failing in Hv.
    destruct (tries _ _ _ _) as [c e d| |]; simplify_eq. done.
  - intros e He. apply Hfail in He as [_ He]. unfold failing in He.
    destruct (tries _ _ _ _) as [c e' d| |]; simplify_eq. done.
  - intros Hb Hn. destruct (Hall Hb) as (Hbad & _ & _ & _ & Hret). destruct (Hret _ Hin) as (c & e & d & Ex).
    rewrite Ex in Hrun. destruct d as [d|]; [|done]. destruct Hn. apply list_elem_of_fmap. exists (rf_seed rf, d).
    split; [done|]. rewrite Hbad. apply elem_of_bad. unfold failing. rewrite Ex. split; [by apply elem_of_seqZ|done].
Qed.

(** What a run with fixed membership comes to: no violation. *)
Definition harmless (t : trialResult) : Prop :=
  match t with
  | Ran _ _ d => ∀ v, d ≠ Some (DetailViolation v)
  | Crashes p => tolerated p
  | Spins => False
  end.

Lemma fixed_membership_harmless `{HLaws : !SourceLaws R} cfg x sim :
  cfg_ok (sim_withDefaults cfg) → (sc_Nodes (sim_withDefaults cfg) ≤ Z.of_N maxNodeIDCap)%Z →
  (QArith_base.Qnum (MembershipRate (sc_Faults cfg)) ≤ 0)%Z →
  New seeded (seeded_with x (sc_Verbose cfg) cfg) = Ret sim → stays_roomy sim →
  ∃ fuel, ∀ k, (fuel ≤ k)%nat → harmless (trial seeded k cfg x).
Proof.
  intros Hcfg Hnodes Hfix Hnew Hroom.
  destruct (fixed_membership_clean seeded (seeded_with x (sc_Verbose cfg) cfg) sim Hcfg Hnodes Hfix Hnew Hroom) as [fuel Hf].
  exists fuel. intros k Hk. specialize (Hf k Hk). unfold trial. rewrite Hnew.
  destruct (Run k sim) as [[rep|e|p|] s']; cbn in *; try done. by rewrite Hf.
Qed.

(** C16: Fuzzing a cluster whose membership is fixed never reports a safety violation.  Take
    any flags whose delays are positive and cannot overflow virtual time and that lose no
    disk, and a range of seeds with each of which the cluster starts and no log runs out of
    its 64-bit indexes.  With enough fuel for the events of one simulation, every schedule
    of the workers ends within the bound without getting stuck, and what is reported, if
    anything, are errors of runs that could not be carried out.  The one panic possible is
    that of a state machine which outgrows the address space. *)
Theorem fuzz_clean `{HLaws : !SourceLaws R} given ff :
  let cfg := finish (simFlags given) (ff_noFaults ff) in
  range_ok ff →
  cfg_ok (sim_withDefaults cfg) → (sc_Nodes (sim_withDefaults cfg) ≤ Z.of_N maxNodeIDCap)%Z →
  (QArith_base.Qnum (MembershipRate (sc_Faults cfg)) ≤ 0)%Z →
  (∀ x, in_range ff x → ∃ sim, New seeded (seeded_with x (sc_Verbose cfg) cfg) = Ret sim ∧ stays_roomy sim) →
  ∃ fuel, ∀ k, (fuel ≤ k)%nat → ∀ sched s, cmdFuzz seeded k given ff sched = Some s →
    (length sched ≤ 7 * Z.to_nat (ff_count ff) + fuzzWorkers ff + 6)%nat ∧
    ((∃ x p, in_range ff x ∧ tries k given (ff_noFaults ff) x = Crashes p ∧ tolerated p) ∨
     fz_dealer s = DDone ∨ ∃ a, cmdFuzz seeded k given ff (sched ++ [a]) ≠ None) ∧
    (fz_dealer s = DDone → ∀ x v, (x, DetailViolation v) ∉ fr_failures (snd (fuzz_report s))).
Proof.
  intros cfg Hok Hcfg Hnodes Hfix Hsim.
  destruct (fuel_for_all (λ x k, harmless (trial seeded k cfg x)) (seqZ (ff_start ff) (ff_count ff))) as [fuel Hf].
  { intros x Hx%elem_of_seqZ. destruct (Hsim x Hx) as (sim & Hnew & Hroom). by eapply fixed_membership_harmless. }
  exists fuel. intros k Hk sched s Hs.
  assert (∀ x, in_range ff x → harmless (tries k given (ff_noFaults ff) x)) as Hran.
  { intros x Hin. by apply (Hf k Hk), elem_of_seqZ. }
  destruct (cmdFuzz_finishes k given ff sched s) as [Hlen Hend]; [done| |done|].
  { intros x Hx%Hran E. by rewrite E in Hx. }
  split_and!; [done|..].
  - destruct Hend as [Hc|?]; [left|by right]. destruct (cmdFuzz_crash _ _ _ _ _ Hok Hs Hc) as (x & p & Hx & Ex).
    exists x, p. split_and!; [done|done|]. specialize (Hran x Hx). by rewrite Ex in Hran.
  - intros Hd x v Hin. pose proof (cmdFuzz_report _ _ _ _ _ Hok Hs Hd) as Hrep.
    destruct (fuzz_report s) as [res r]. destruct Hrep as (Hfail & _).
    apply Hfail in Hin as [Hin Hv]. specialize (Hran x Hin). unfold failing in Hv.
    destruct (tries _ _ _ _); try done. by apply (Hran v).
Qed.
End commands.

(** ** Concrete runs *)

Module SimctlExample.
Import SimRun.Example.

Definition given : list simFlag :=
  [Flag_nodes 3; Flag_duration 60; Flag_min_latency 2; Flag_max_latency 9; Flag_membership f0].
Definition wanted : fuzzFlags := mkFuzzFlags 2 4 2 10 false.

(** Everybody in turn, as long as somebody can go on. *)
Fixpoint in_turn (fuel : nat) (given : list simFlag) (sched : list actor) : list actor :=
  match fuel with
  | O => sched
  | S k =>
      match list_find (λ a, cmdFuzz Z.to_N 2000 given wanted (sched ++ [a]) ≠ None) [Worker 1; Worker 0; Dealer] with
      | Some (_, a) => in_turn k given (sched ++ [a])
      | None => sched
      end
  end.

(** With too few nodes nothing runs, so that every seed is reported. *)
Definition none : list simFlag := [Flag_nodes (-1)].
Definition sched : list actor := Eval vm_compute in in_turn 40 none [].

Definition final (given : list simFlag) : fuzz :=
  match cmdFuzz Z.to_N 2000 given wanted sched with Some s => s | None => fuzz_start 0 0 end.

Lemma wanted_ok : range_ok wanted.
Proof. unfold range_ok. cbn. lia. Qed.

Lemma wanted_range x : in_range wanted x → x = 4%Z ∨ x = 5%Z.
Proof. unfold in_range. cbn. lia. Qed.

Lemma none_returns x : in_range wanted x → tries Z.to_N 2000 none false x ≠ Spins.
Proof. by intros [->| ->]%wanted_range. Qed.

Lemma none_over : cmdFuzz Z.to_N 2000 none wanted sched = Some (final none) ∧ fz_dealer (final none) = DDone.
Proof. vm_compute. done. Qed.

(** The cluster of the flags [given], for one seed. *)
Definition sim_of (x : Z) : Simulator N :=
  match New Z.to_N (seeded_with x false (simFlags given)) with Ret s => s | _ => sim end.

Lemma sims_roomy x :
  in_range wanted x →
  ∃ s, New Z.to_N (seeded_with x false (finish (simFlags given) false)) = Ret s ∧ stays_roomy s.
Proof.
  intros Hx. exists (sim_of x).
  split; [apply wanted_range in Hx as [->| ->]; vm_compute; reflexivity|].
  intros s0 s' Ho. apply (all_roomy_sound 400).
  assert (s0 = snd (opening (sim_of x))) as -> by (by rewrite Ho).
  apply wanted_range in Hx as [->| ->]; vm_compute; reflexivity.
Qed.
End SimctlExample.
Import SimRun.Example SimctlExample.

Lemma fuzz_finishes_witness :
  (length sched ≤ 7 * 2 + 2 + 6)%nat ∧
  (fz_crashed (final none) = true ∨ fz_dealer (final none) = DDone ∨
   ∃ a, cmdFuzz Z.to_N 2000 none wanted (sched ++ [a]) ≠ None).
Proof. apply (fuzz_finishes Z.to_N 2000 none wanted); [exact wanted_ok|exact none_returns|exact (proj1 none_over)]. Defined.

Lemma fuzz_exact_witness :
  let '(res, r) := fuzz_report (final none) in
  (res = Ret tt ↔ ∀ x, in_range wanted x → ∃ c e, tries Z.to_N 2000 none false x = Ran c e None) ∧
  NoDup (fr_failures r).*1 ∧ length (fr_failures r) = 2%nat.
Proof.
  pose proof (fuzz_exact Z.to_N 2000 none wanted sched (final none) wanted_ok (proj1 none_over) (proj2 none_over)) as H.
  cbv zeta in H. destruct (fuzz_report (final none)) as [res r] eqn:E. destruct H as (_ & _ & Hn & Hres & _).
  split; [exact Hres|]. split; [exact Hn|].
  change r with (res, r).2. rewrite <- E. vm_compute. reflexivity.
Defined.

Lemma reported_reproduces_witness :
  let '(ran, out) := cmdRun Z.to_N 2000 none (mkRunFlags 4 true 20 false) in
  ∀ e, (4%Z, DetailErr e) ∈ fr_failures (snd (fuzz_report (final none))) →
    ran ∈ [Fail e; Fail (Errorf "seed failed to run" [e])].
Proof.
  pose proof (reported_reproduces Z.to_N 2000 none wanted sched (final none) (mkRunFlags 4 true 20 false) wanted_ok
    (proj1 none_over) (proj2 none_over) eq_refl ltac:(unfold in_range; cbn; lia)) as H.
  destruct (cmdRun Z.to_N 2000 none (mkRunFlags 4 true 20 false)) as [ran out].
  destruct H as (_ & H & _). exact H.
Defined.

Lemma fuzz_clean_witness :
  ∃ fuel, ∀ k, (fuel ≤ k)%nat → ∀ sched s, cmdFuzz Z.to_N k given wanted sched = Some s →
    fz_dealer s = DDone → ∀ x v, (x, DetailViolation v) ∉ fr_failures (snd (fuzz_report s)).
Proof.
  destruct (fuzz_clean Z.to_N given wanted wanted_ok) as [fuel H];
    [split; [by repeat constructor|by repeat constructor]|by vm_compute|by vm_compute|exact sims_roomy|].
  exists fuel. intros k Hk sched s Hs. apply (H k Hk sched s Hs).
Defined.

(** [*start+*count] is an [int64] sum.  Where it overflows, nothing is run and the command
    says that there are no violations. *)
Lemma fuzz_overflow_silent `{HSrc : Source R, HFmt : Fmt, HSha : Sha256, HMap : MapRange} (seeded : Z → R) fuel given :
  ∃ s, cmdFuzz seeded fuel given (mkFuzzFlags 10 9223372036854775800 1 10 false)
         [Dealer; Dealer; Worker 0; Dealer; Dealer] = Some s ∧
       fz_dealer s = DDone ∧ fuzz_report s = (Ret tt, mkFuzzReport 0 0 0 []).
Proof. eexists. split; [reflexivity|]. split; reflexivity. Qed.
