(* ===== verification/Chaos.v ===== *)
(** * Recording a history and checking that it is linearizable

    The package chaos: clients record what they asked a cluster and what they were told
    (chaos/history.go), and the checker decides whether one machine, executing the
    operations one at a time, could have given these answers (chaos/check.go).

    The search itself is the third-party package porcupine, the class [Porcupine]; the
    source supplies what it searches against, the model of a single key, the partition of
    a history by key, and the form in which operations whose outcome is unknown are
    presented.  The theorems are about those: checking key by key decides exactly
    linearizability of the whole map, and an unknown write is neither lost nor forced.

    A time is in nanoseconds since the history began, and is an argument of the methods
    that read the clock. *)

From S2P Require Import Prelude Varint GoMaps Types.

(** ** The history *)

(** [OpKind] is a byte; values beyond the three constants have no meaning. *)
Inductive OpKind := OpGet | OpPut | OpDelete | OpOther (code : N).

Record Input := mkInput { in_Op : OpKind; in_Key : bytes; in_Value : bytes }.

Record Output := mkOutput { out_Value : bytes; out_Found : bool; out_Unknown : bool }.

Definition zeroOutput : Output := mkOutput [] false false.

Record Event := mkEvent {
  e_ClientID : Z;
  e_ID : Z;
  e_Input : Input;
  e_Output : Output;
  e_Invoked : Z;
  e_Returned : Z
}.

Definition Completed (e : Event) : bool := negb (e_Returned e =? 0)%Z && negb (out_Unknown (e_Output e)).

Record History := mkHistory { h_events : list Event; h_nextID : Z }.

Definition NewHistory : History := mkHistory [] 0.

Record Pending := mkPending {
  p_clientID : Z;
  p_id : Z;
  p_input : Input;
  p_invoked : Z;
  p_done : bool
}.

(** [Begin] takes an id under the lock, and reads the clock once it has released it:
    others may come in between. *)
Definition Begin_id (h : History) : Z * History := (h_nextID h, mkHistory (h_events h) (h_nextID h + 1)).

Definition Begin_pending (now clientID id : Z) (inp : Input) : Pending := mkPending clientID id inp now false.

Definition finished (p : Pending) : Pending :=
  mkPending (p_clientID p) (p_id p) (p_input p) (p_invoked p) true.

Definition Complete (now : Z) (out : Output) (p : Pending) (h : History) : Pending * History :=
  if p_done p then (p, h)
  else (finished p,
        mkHistory (h_events h ++ [mkEvent (p_clientID p) (p_id p) (p_input p) out (p_invoked p) now]) (h_nextID h)).

Definition Unknown (p : Pending) (h : History) : Pending * History :=
  if p_done p then (p, h)
  else (finished p,
        mkHistory (h_events h ++ [mkEvent (p_clientID p) (p_id p) (p_input p) (mkOutput [] false true)
                                    (p_invoked p) 0]) (h_nextID h)).

Definition HistoryFromEvents (events : list Event) : History :=
  mkHistory events (foldl (λ next e, if (next <=? e_ID e)%Z then (e_ID e + 1)%Z else next) 0%Z events).

(** [sortByInvocation]: the inner loop moves the event at [j] down while it is earlier
    than the one before it. *)
Fixpoint siftDown (j : nat) (events : list Event) : list Event :=
  match j with
  | O => events
  | S j' =>
      match events !! j, events !! j' with
      | Some a, Some b =>
          if (e_Invoked a <? e_Invoked b)%Z then siftDown j' (<[j := b]> (<[j' := a]> events)) else events
      | _, _ => events
      end
  end.

Definition sortByInvocation (events : list Event) : list Event :=
  foldl (λ l i, siftDown i l) events (seq 1 (length events - 1)).

Definition Events (h : History) : list Event := sortByInvocation (h_events h).

(** [History.Len] *)
Definition history_Len (h : History) : Z := Z.of_nat (length (h_events h)).

Record Stats := mkStats {
  st_Total : Z;
  st_Completed : Z;
  st_Unknown : Z;
  st_Gets : Z;
  st_Puts : Z;
  st_Deletes : Z;
  st_Keys : Z;
  st_Duration : Z
}.

Definition is_op (k : OpKind) (e : Event) : bool :=
  match k, in_Op (e_Input e) with
  | OpGet, OpGet | OpPut, OpPut | OpDelete, OpDelete => true
  | _, _ => false
  end.

Definition count (f : Event → bool) (events : list Event) : Z :=
  foldl (λ n e, if f e then (n + 1)%Z else n) 0%Z events.

Definition history_Stats (h : History) : Stats :=
  let events := h_events h in
  let keys := foldl (λ m e, <[in_Key (e_Input e) := true]> m) (∅ : gmap bytes bool) events in
  let last := foldl (λ t e, if (t <? e_Returned e)%Z then e_Returned e else t) 0%Z events in
  mkStats (count (λ _, true) events) (count (λ e, negb (out_Unknown (e_Output e))) events)
    (count (λ e, out_Unknown (e_Output e)) events)
    (count (is_op OpGet) events) (count (is_op OpPut) events) (count (is_op OpDelete) events)
    (Z.of_nat (size keys)) last.

(** ** What porcupine is given *)

Record Operation := mkOperation {
  o_ClientId : Z;
  o_Input : Input;
  o_Output : Output;
  o_Call : Z;
  o_Return : Z
}.

Record Model := mkModel {
  m_state : Type;
  m_Partition : list Operation → list (list Operation);
  m_Init : m_state;
  m_Step : m_state → Input → Output → bool * m_state;
  m_Equal : m_state → m_state → bool
}.

Record modelState := mkState { ms_value : bytes; ms_found : bool }.

Definition zeroState : modelState := mkState [] false.

Definition kv_Step (st : modelState) (inp : Input) (out : Output) : bool * modelState :=
  match in_Op inp with
  | OpGet =>
      (Bool.eqb (out_Found out) (ms_found st) &&
       (negb (ms_found st) || bool_decide (out_Value out = ms_value st)), st)
  | OpPut => (true, mkState (in_Value inp) true)
  | OpDelete =>
      if negb (out_Unknown out) && negb (Bool.eqb (out_Found out) (ms_found st)) then (false, st)
      else (true, zeroState)
  | OpOther _ => (false, st)
  end.

Definition kv_Equal (x y : modelState) : bool :=
  Bool.eqb (ms_found x) (ms_found y) && bool_decide (ms_value x = ms_value y).

Section partition.
Context `{MapRange}.

(** [byKey[key] = append(byKey[key], op)] *)
Definition byKey (history : list Operation) : gmap bytes (list Operation) :=
  foldl (λ m op, let key := in_Key (o_Input op) in <[key := default [] (m !! key) ++ [op]]> m) ∅ history.

Definition kv_Partition (history : list Operation) : list (list Operation) :=
  let m := byKey history in
  foldl (λ out k, out ++ [default [] (m !! k)]) [] (sorted_keys m).

Definition kvModel : Model := mkModel modelState kv_Partition zeroState kv_Step kv_Equal.
End partition.

(** An operation that never returned is given a return time past the end. *)
Definition toPorcupine (events : list Event) : list Operation :=
  let last := foldl (λ t e, let t := if (t <? e_Returned e)%Z then e_Returned e else t in
                            if (t <? e_Invoked e)%Z then e_Invoked e else t) 0%Z events in
  let last := int_add last 1 in
  foldl (λ ops e, ops ++ [mkOperation (e_ClientID e) (e_Input e) (e_Output e) (e_Invoked e)
                            (if negb (Completed e) then last else e_Returned e)]) [] events.

(** [PartitionByKey] *)
Definition PartitionByKey (events : list Event) : gmap bytes (list Event) :=
  foldl (λ m e, let key := in_Key (e_Input e) in <[key := default [] (m !! key) ++ [e]]> m) ∅ events.

(** ** Linearizability *)

(** One operation may come before another unless the other had returned by then. *)
Definition may_precede (a b : Operation) : Prop := (o_Call a ≤ o_Return b)%Z.

Section legal.
Context {T : Type} (stepf : T → Input → Output → bool * T).

(** Executed one at a time, in this order, the operations give these answers. *)
Fixpoint legal (st : T) (ops : list Operation) : Prop :=
  match ops with
  | [] => True
  | o :: ops' => fst (stepf st (o_Input o) (o_Output o)) = true ∧
                 legal (snd (stepf st (o_Input o) (o_Output o))) ops'
  end.

Definition linearizable (init : T) (ops : list Operation) : Prop :=
  ∃ order, order ≡ₚ ops ∧ StronglySorted may_precede order ∧ legal init order.
End legal.

Inductive CheckResult := Ok | Illegal | Undecided.

(** [porcupine.CheckOperationsVerbose], as documented: the history is linearizable if
    every part of its partition is; a search that is cut off decides nothing.  States that
    the model calls equal are searched from once only, so that the search is exhaustive if
    the model calls only those equal that are. *)
Class Porcupine := {
  CheckOperations : Model → list Operation → Z → CheckResult
}.

Class PorcupineLaws `{Porcupine} := {
  check_ok m ops timeout :
    CheckOperations m ops timeout = Ok → Forall (linearizable (m_Step m) (m_Init m)) (m_Partition m ops);
  check_illegal m ops timeout :
    (∀ x y, m_Equal m x y = true → x = y) → CheckOperations m ops timeout = Illegal → Exists (λ part, ¬ linearizable (m_Step m) (m_Init m) part) (m_Partition m ops)
}.

Record CheckOutcome := mkOutcome { r_Status : CheckResult; r_Stats : Stats; r_Timeout : Z }.

(** [Check], but for the time it took. *)
Definition CheckHistory `{MapRange} `{Porcupine} (h : History) (timeout : Z) : CheckOutcome :=
  mkOutcome (CheckOperations kvModel (toPorcupine (Events h)) timeout) (history_Stats h) timeout.

(** [Result.OK] *)
Definition Result_OK (r : CheckOutcome) : bool := match r_Status r with Ok => true | _ => false end.

(** ** The history is in order of invocation *)

Definition no_later (a b : Event) : Prop := (e_Invoked a ≤ e_Invoked b)%Z.

#[export] Instance no_later_trans : Transitive no_later.
Proof. unfold no_later. intros a b c. lia. Qed.

(** [x] goes after what was invoked no later than it. *)
Definition place (x : Event) (l : list Event) : list Event :=
  filter (λ y, (e_Invoked y ≤ e_Invoked x)%Z) l ++ x :: filter (λ y, (e_Invoked x < e_Invoked y)%Z) l.

Lemma siftDown_place p x s :
  StronglySorted no_later p → siftDown (length p) (p ++ x :: s) = place x p ++ s.
Proof.
  revert s. induction p as [|y p IH] using rev_ind; intros s Hp; [done|].
  rewrite length_app, Nat.add_1_r. cbn [siftDown].
  rewrite <- !app_assoc. cbn [app].
  rewrite (lookup_app_r p _ (S (length p))), (lookup_app_r p _ (length p)) by lia.
  rewrite Nat.sub_diag, Nat.sub_succ_l, Nat.sub_diag by lia. cbn [lookup list_lookup].
  apply StronglySorted_app in Hp as (Hxy & Hp & _). unfold place.
  destruct (Z.ltb_spec (e_Invoked x) (e_Invoked y)) as [Hlt|Hle].
  - rewrite (insert_app_r_alt p), Nat.sub_diag by lia. cbn [insert list_insert].
    rewrite (insert_app_r_alt p), Nat.sub_succ_l, Nat.sub_diag by lia. cbn [insert list_insert].
    rewrite IH by done. unfold place. rewrite !filter_app.
    rewrite (filter_cons_False _ y), (filter_cons_True _ y) by lia.
    rewrite !filter_nil, app_nil_r, <- !app_assoc. cbn. by rewrite <- app_assoc.
  - assert (∀ z, z ∈ p ++ [y] → (e_Invoked z ≤ e_Invoked x)%Z) as Hall.
    { intros z [Hz|Hz]%elem_of_app; [|apply list_elem_of_singleton in Hz as ->; lia].
      specialize (Hxy z y Hz). unfold no_later in Hxy. specialize (Hxy ltac:(by left)). lia. }
    rewrite list_filter_all by (by apply Forall_forall).
    assert (filter (λ z, (e_Invoked x < e_Invoked z)%Z) (p ++ [y]) = []) as ->.
    { apply elem_of_nil_inv. intros z [? ?%Hall]%list_elem_of_filter. lia. }
    by rewrite <- !app_assoc.
Qed.

Lemma place_sorted x l : StronglySorted no_later l → StronglySorted no_later (place x l).
Proof.
  intros Hl. unfold place. apply StronglySorted_app. split_and!.
  - intros a b [Ha _]%list_elem_of_filter [->|[Hb _]%list_elem_of_filter]%elem_of_cons; unfold no_later; lia.
  - by apply StronglySorted_filter.
  - constructor; [by apply StronglySorted_filter|]. apply Forall_forall. intros y [Hy _]%list_elem_of_filter.
    unfold no_later. lia.
Qed.

Lemma place_perm x l : place x l ≡ₚ x :: l.
Proof.
  unfold place. rewrite <- Permutation_middle. constructor. induction l as [|y l IH]; [done|].
  rewrite !filter_cons. repeat case_decide; try lia; cbn; [by rewrite IH|].
  rewrite <- Permutation_middle. by rewrite IH.
Qed.

(** Events of the same instant keep their order. *)
Lemma place_stable x l t :
  filter (λ y, e_Invoked y = t) (place x l) =
  filter (λ y, e_Invoked y = t) l ++ filter (λ y, e_Invoked y = t) [x].
Proof.
  unfold place. rewrite filter_app, filter_cons.
  assert (∀ P Q : Event → Prop, ∀ (HP : ∀ y, Decision (P y)) (HQ : ∀ y, Decision (Q y)),
    filter P (filter Q l) = filter (λ y, P y ∧ Q y) l) as Hff.
  { intros P Q HP HQ. induction l as [|y l IH]; [done|]. rewrite !filter_cons.
    repeat case_decide; try (exfalso; tauto); rewrite ?filter_cons; repeat case_decide; try tauto; by f_equal. }
  assert (∀ P : Event → Prop, ∀ HP : ∀ y, Decision (P y), (∀ y, ¬ P y) → filter P l = []) as Hnone.
  { intros P HP HN. apply elem_of_nil_inv. intros y [Hy _]%list_elem_of_filter. by apply (HN y). }
  rewrite !Hff, filter_cons, filter_nil. destruct (decide (t ≤ e_Invoked x)%Z) as [Hle|Hgt].
  - rewrite (Hnone (λ y, e_Invoked y = t ∧ (e_Invoked x < e_Invoked y)%Z)) by (intros; lia). f_equal. apply list_filter_iff. intros y. lia.
  - rewrite (Hnone (λ y, e_Invoked y = t ∧ (e_Invoked y ≤ e_Invoked x)%Z)) by (intros; lia).
    destruct (decide (e_Invoked x = t)); [lia|]. rewrite app_nil_r. cbn. apply list_filter_iff. intros y. lia.
Qed.

Lemma sort_prefix l k :
  (k ≤ length l)%nat →
  foldl (λ l i, siftDown i l) l (seq 1 (k - 1)) = foldl (λ s x, place x s) [] (take k l) ++ drop k l ∧
  StronglySorted no_later (foldl (λ s x, place x s) [] (take k l)) ∧
  foldl (λ s x, place x s) [] (take k l) ≡ₚ take k l.
Proof.
  induction k as [|[|k] IH]; intros Hk.
  - cbn. split_and!; [done|constructor|done].
  - destruct l as [|x l]; [cbn in Hk; lia|]. cbn. rewrite take_0. cbn. split_and!; [done|repeat constructor|done].
  - destruct IH as (IH & Hs & HP); [lia|].
    destruct (lookup_lt_is_Some_2 l (S k)) as [x Hx]; [lia|].
    rewrite (take_S_r l (S k) x) by done. rewrite foldl_app. cbn [foldl].
    set (sorted := foldl _ [] (take (S k) l)) in *.
    assert (length sorted = S k) as Hlen by (rewrite HP, length_take; lia).
    replace (S (S k) - 1)%nat with (S k - 1 + 1)%nat by lia.
    rewrite seq_app, foldl_app, IH. cbn [foldl seq].
    rewrite (drop_S l x (S k)) by done.
    replace (1 + (S k - 1))%nat with (length sorted) by lia. rewrite siftDown_place by done.
    split_and!; [done|by apply place_sorted|]. rewrite place_perm, HP, Permutation_app_comm. done.
Qed.

Lemma sort_stable t l :
  filter (λ y, e_Invoked y = t) (foldl (λ s x, place x s) [] l) = filter (λ y, e_Invoked y = t) l.
Proof.
  induction l as [|x l IH] using rev_ind; [done|].
  rewrite foldl_app. cbn [foldl]. by rewrite place_stable, IH, filter_app.
Qed.

Lemma Events_spec h :
  StronglySorted no_later (Events h) ∧ Events h ≡ₚ h_events h ∧
  ∀ t, filter (λ e, e_Invoked e = t) (Events h) = filter (λ e, e_Invoked e = t) (h_events h).
Proof.
  unfold Events, sortByInvocation. destruct (sort_prefix (h_events h) (length (h_events h))) as (E & Hs & HP); [done|].
  rewrite firstn_all in *. rewrite drop_all, app_nil_r in E. rewrite E. split_and!; [done..|].
  intros t. apply sort_stable.
Qed.

(** The events come out ordered by invocation, none lost or repeated, and those of one
    instant in the order they were recorded. *)
Theorem Events_sorted h :
  StronglySorted no_later (Events h) ∧ Events h ≡ₚ h_events h ∧
  ∀ t, filter (λ e, e_Invoked e = t) (Events h) = filter (λ e, e_Invoked e = t) (h_events h).
Proof. apply Events_spec. Qed.

(** ** Checking key by key *)

Definition key (o : Operation) : bytes := in_Key (o_Input o).

Definition on_key (k : bytes) (ops : list Operation) : list Operation := filter (λ o, key o = k) ops.

Lemma byKey_lookup ops k :
  byKey ops !! k = if bool_decide (on_key k ops = []) then None else Some (on_key k ops).
Proof.
  unfold byKey, on_key. induction ops as [|o ops IH] using rev_ind; [done|].
  rewrite foldl_app, filter_app. cbn [foldl]. fold (key o).
  set (m := foldl _ ∅ ops) in *. rewrite filter_cons, filter_nil.
  destruct (decide (key o = k)) as [->|Hne].
  - rewrite lookup_insert_eq, IH. rewrite (bool_decide_false (_ ++ [o] = [])) by (by intros [_ ?]%app_nil).
    case_bool_decide as E; cbn; [by rewrite E|done].
  - by rewrite lookup_insert_ne, app_nil_r, IH.
Qed.

Section locality.
Context `{R : MapRange}.

Lemma foldl_snoc_fmap {A B} (f : A → B) l acc : foldl (λ out k, out ++ [f k]) acc l = acc ++ (f <$> l).
Proof.
  revert acc. induction l as [|x l IH]; intros acc; cbn; [by rewrite app_nil_r|].
  by rewrite IH, <- app_assoc.
Qed.

Lemma kv_Equal_sound x y : kv_Equal x y = true → x = y.
Proof.
  unfold kv_Equal. intros [E1%Bool.eqb_prop E2%bool_decide_eq_true]%andb_true_iff. destruct x, y. cbn in *. by subst.
Qed.

(** The keys that occur, each once, and for each its operations in order. *)
Lemma kv_Partition_spec ops :
  ∃ keys, NoDup keys ∧ (∀ o, o ∈ ops → key o ∈ keys) ∧ kv_Partition ops = (λ k, on_key k ops) <$> keys.
Proof.
  exists (sorted_keys (byKey ops)). split_and!; [apply sorted_keys_NoDup| |].
  - intros o Ho. rewrite elem_of_sorted_keys, byKey_lookup. rewrite bool_decide_false; [by eexists|].
    intros E. assert (o ∈ on_key (key o) ops) as Hin by (by apply list_elem_of_filter).
    rewrite E in Hin. by apply not_elem_of_nil in Hin.
  - unfold kv_Partition. rewrite foldl_snoc_fmap. cbn [app]. apply list_fmap_ext. intros i k Hk.
    apply list_elem_of_lookup_2, elem_of_sorted_keys in Hk as [l Hl]. rewrite Hl. cbn.
    rewrite byKey_lookup in Hl. case_bool_decide; by simplify_eq.
Qed.

(** The whole store: a map, one operation at a time. *)
Definition map_Step (m : gmap bytes bytes) (inp : Input) (out : Output) : bool * gmap bytes bytes :=
  let k := in_Key inp in
  match in_Op inp with
  | OpGet =>
      (match m !! k with
       | Some v => out_Found out && bool_decide (out_Value out = v)
       | None => negb (out_Found out)
       end, m)
  | OpPut => (true, <[k := in_Value inp]> m)
  | OpDelete =>
      if negb (out_Unknown out) && negb (Bool.eqb (out_Found out) (bool_decide (is_Some (m !! k)))) then (false, m)
      else (true, delete k m)
  | OpOther _ => (false, m)
  end.

(** What the store holds under one key. *)
Definition cell (m : gmap bytes bytes) (k : bytes) : modelState :=
  match m !! k with Some v => mkState v true | None => zeroState end.

Lemma map_Step_same m inp out :
  fst (map_Step m inp out) = fst (kv_Step (cell m (in_Key inp)) inp out) ∧
  cell (snd (map_Step m inp out)) (in_Key inp) = snd (kv_Step (cell m (in_Key inp)) inp out).
Proof.
  unfold map_Step, kv_Step, cell. destruct (in_Op inp); cbn.
  - by destruct (m !! in_Key inp) as [v|], (out_Found out).
  - by rewrite lookup_insert_eq.
  - destruct (m !! in_Key inp) as [v|] eqn:E; cbn;
      destruct (_ && _); cbn; by rewrite ?E, ?lookup_delete_eq.
  - done.
Qed.

Lemma map_Step_other m inp out k : k ≠ in_Key inp → cell (snd (map_Step m inp out)) k = cell m k.
Proof.
  intros Hk. unfold map_Step, cell. destruct (in_Op inp); cbn; try done.
  - by rewrite lookup_insert_ne.
  - destruct (_ && _); cbn; [done|by rewrite lookup_delete_ne].
Qed.

(** An order is legal for the store exactly when, for each key, its operations are legal
    for the cell. *)
Lemma legal_cells m ops :
  legal map_Step m ops ↔ ∀ k, legal kv_Step (cell m k) (on_key k ops).
Proof.
  revert m. induction ops as [|o ops IH]; intros m; [done|]. cbn [legal].
  destruct (map_Step_same m (o_Input o) (o_Output o)) as [E1 E2]. fold (key o) in E1, E2.
  rewrite IH, E1. unfold on_key. split.
  - intros [Hok Hrest] k. rewrite filter_cons. specialize (Hrest k).
    destruct (decide (key o = k)) as [<-|Hne]; [by cbn; rewrite <- E2|].
    by rewrite map_Step_other in Hrest.
  - intros Hall. assert (Ho := Hall (key o)). rewrite filter_cons_True in Ho by done. cbn in Ho.
    destruct Ho as [Hok Ho]. split; [done|]. intros k. destruct (decide (key o = k)) as [<-|Hne]; [by rewrite E2|].
    specialize (Hall k). rewrite filter_cons_False in Hall by done. by rewrite map_Step_other.
Qed.

(** *** Linearization points *)

(** A point for each operation: the latest call so far.  It lies between the operation's
    own call and return, and the points do not go back. *)
Fixpoint points (t : Z) (order : list Operation) : list (Z * Operation) :=
  match order with
  | [] => []
  | o :: order' => (Z.max t (o_Call o), o) :: points (Z.max t (o_Call o)) order'
  end.

Definition in_time (p : Z * Operation) : Prop := (o_Call p.2 ≤ p.1 ≤ o_Return p.2)%Z.

Definition earlier (p q : Z * Operation) : Prop := (p.1 ≤ q.1)%Z.
#[local] Instance earlier_dec : RelDecision earlier.
Proof. intros p q. unfold earlier. apply _. Defined.
#[local] Instance earlier_total : Total earlier.
Proof. intros p q. unfold earlier. lia. Qed.
#[local] Instance earlier_trans : Transitive earlier.
Proof. intros p q r. unfold earlier. lia. Qed.

Lemma points_ops t order : (points t order).*2 = order.
Proof. revert t. induction order as [|o order IH]; intros t; cbn; [done|]. by rewrite IH. Qed.

Lemma points_spec t order :
  StronglySorted may_precede order → Forall (λ o, (o_Call o ≤ o_Return o)%Z) order →
  Forall (λ o, (t ≤ o_Return o)%Z) order →
  StronglySorted earlier (points t order) ∧ Forall in_time (points t order) ∧
  Forall (λ p, (t ≤ p.1)%Z) (points t order).
Proof.
  revert t. induction order as [|o order IH]; intros t Hs Hc Ht; [by repeat constructor|]. cbn [points].
  inversion Hs as [|? ? Hs' Ho]; subst. apply Forall_cons in Hc as [Hco Hc]. apply Forall_cons in Ht as [Hto Ht].
  destruct (IH (Z.max t (o_Call o))) as (Hs1 & Hin & Hge); [done|done| |].
  { apply Forall_forall. intros x Hx. eapply Forall_forall in Ho, Ht; [|done..]. unfold may_precede in Ho. lia. }
  split_and!.
  - constructor; [done|exact Hge].
  - constructor; [unfold in_time; cbn; lia|done].
  - constructor; [cbn; lia|]. eapply Forall_impl; [exact Hge|]. cbn. lia.
Qed.

(** Merging two schedules keeps each of them in order. *)
Lemma merge_filter_l (P : Z * Operation → Prop) `{!∀ x, Decision (P x)} l1 l2 :
  Forall P l1 → Forall (λ x, ¬ P x) l2 → filter P (list_merge earlier l1 l2) = l1.
Proof.
  intros H1. revert l2. induction H1 as [|x l1 Hx H1 IH1]; intros l2 H2.
  { apply elem_of_nil_inv. intros y [Hy Hin]%list_elem_of_filter.
    rewrite merge_Permutation in Hin. by eapply Forall_forall in H2. }
  induction H2 as [|y l2 Hy H2 IH2].
  { assert (list_merge earlier (x :: l1) [] = x :: l1) as -> by done. apply list_filter_all. by constructor. }
  rewrite list_merge_cons. case_decide; [rewrite filter_cons_True, IH1; [done|by constructor|done]|].
  by rewrite filter_cons_False.
Qed.

Lemma merge_filter_r (P : Z * Operation → Prop) `{!∀ x, Decision (P x)} l1 l2 :
  Forall (λ x, ¬ P x) l1 → filter P (list_merge earlier l1 l2) = filter P l2.
Proof.
  intros H1. revert l2. induction H1 as [|x l1 Hx H1 IH1]; intros l2; [by destruct l2|].
  induction l2 as [|y l2 IH2].
  { assert (list_merge earlier (x :: l1) [] = x :: l1) as -> by done. rewrite filter_nil.
    apply elem_of_nil_inv. intros z [Hz Hin]%list_elem_of_filter.
    assert (Forall (λ x, ¬ P x) (x :: l1)) as Hall by (by constructor). by eapply Forall_forall in Hall. }
  rewrite list_merge_cons. case_decide; [by rewrite filter_cons_False, IH1|].
  rewrite !filter_cons. by rewrite IH2.
Qed.

Definition keyed (k : bytes) (p : Z * Operation) : Prop := key p.2 = k.
#[local] Instance keyed_dec k p : Decision (keyed k p).
Proof. unfold keyed. apply _. Defined.

(** One schedule for all keys, in which each key's operations are in the order chosen for
    that key. *)
Lemma merge_keys (order : bytes → list Operation) keys :
  NoDup keys →
  (∀ k, k ∈ keys → StronglySorted may_precede (order k) ∧ Forall (λ o, (o_Call o ≤ o_Return o)%Z) (order k) ∧
     Forall (λ o, key o = k) (order k)) →
  ∃ all, StronglySorted earlier all ∧ Forall in_time all ∧ all.*2 ≡ₚ concat (order <$> keys) ∧
    ∀ k, (filter (keyed k) all).*2 = if bool_decide (k ∈ keys) then order k else [].
Proof.
  intros Hnd Hok. induction keys as [|k keys IH].
  { exists []. split_and!; try done; constructor. }
  apply NoDup_cons in Hnd as [Hk Hnd]. destruct IH as (all & Hs & Hin & HP & Hf); [done|intros; apply Hok; by right|].
  destruct (Hok k) as (Hsk & Hck & Hkk); [by left|].
  set (lo := foldr Z.min 0%Z (o_Return <$> order k)).
  destruct (points_spec lo (order k)) as (Hs1 & Hin1 & _); [done|done| |].
  { subst lo. clear. induction (order k) as [|o l IH]; constructor; cbn; [lia|].
    eapply Forall_impl; [exact IH|]. cbn. lia. }
  assert (Forall (keyed k) (points lo (order k))) as Hkp.
  { rewrite <- (points_ops lo (order k)) in Hkk. by rewrite Forall_fmap in Hkk. }
  assert (Forall (λ p, ¬ keyed k p) all) as Hnk.
  { apply Forall_forall. intros p Hp Hkp'. specialize (Hf k). rewrite bool_decide_false in Hf by done.
    assert (p ∈ filter (keyed k) all) as Hpf by (by apply list_elem_of_filter).
    apply fmap_nil_inv in Hf. rewrite Hf in Hpf. by apply not_elem_of_nil in Hpf. }
  exists (list_merge earlier (points lo (order k)) all). split_and!.
  - apply Sorted_StronglySorted; [apply _|]. apply Sorted_list_merge; [apply _|by apply StronglySorted_Sorted..].
  - rewrite merge_Permutation. by apply Forall_app.
  - rewrite merge_Permutation, fmap_app, points_ops. cbn. by rewrite HP.
  - intros k'. destruct (decide (k' = k)) as [->|Hne].
    + rewrite merge_filter_l by done. rewrite points_ops, bool_decide_true; [done|by left].
    + rewrite merge_filter_r, Hf.
      * assert (bool_decide (k' ∈ k :: keys) = bool_decide (k' ∈ keys)) as ->; [|done].
        apply bool_decide_ext. rewrite elem_of_cons. tauto.
      * eapply Forall_impl; [exact Hkp|]. unfold keyed. congruence.
Qed.

Lemma concat_parts ops keys :
  NoDup keys → (∀ o, o ∈ ops → key o ∈ keys) → concat ((λ k, on_key k ops) <$> keys) ≡ₚ ops.
Proof.
  intros Hnd Hcov. induction ops as [|o ops IH].
  { assert (∀ ks : list bytes, concat ((λ k, on_key k []) <$> ks) = []) as Hn; [|by rewrite Hn].
    intros ks. by induction ks. }
  destruct (list_elem_of_split keys (key o)) as (l1 & l2 & ->); [apply Hcov; by left|].
  rewrite NoDup_app, NoDup_cons in Hnd. destruct Hnd as (_ & Hd & Hnk & _).
  assert (∀ ks : list bytes, key o ∉ ks → (λ k, on_key k (o :: ops)) <$> ks = (λ k, on_key k ops) <$> ks) as Hsame.
  { intros ks Hks. apply list_fmap_ext. intros i k Hi. unfold on_key. rewrite filter_cons_False; [done|].
    intros E. subst k. by apply Hks, list_elem_of_lookup_2 with i. }
  rewrite fmap_app, fmap_cons, concat_app. cbn [concat].
  rewrite (Hsame l1) by (intros H; apply (Hd _ H); by left). rewrite (Hsame l2) by done.
  unfold on_key at 2. rewrite filter_cons_True by done. cbn [app].
  rewrite <- Permutation_middle. constructor. etrans; [|apply IH].
  - by rewrite fmap_app, fmap_cons, concat_app.
  - intros o' Ho'. apply Hcov. by right.
Qed.

Lemma linearizable_by_key ops :
  Forall (λ o, (o_Call o ≤ o_Return o)%Z) ops →
  linearizable map_Step ∅ ops ↔
  Forall (linearizable (m_Step kvModel) (m_Init kvModel)) (m_Partition kvModel ops).
Proof.
  intros Htimed. cbn. destruct (kv_Partition_spec ops) as (keys & Hnd & Hcov & ->). rewrite Forall_fmap. split.
  - intros (order & HP & Hs & Hlegal). apply Forall_forall. intros k _. exists (on_key k order).
    split_and!; [by apply filter_Permutation|by apply StronglySorted_filter|].
    by apply (proj1 (legal_cells ∅ order) Hlegal k).
  - intros Hparts. rewrite Forall_forall in Hparts.
    assert (∃ order : bytes → list Operation, ∀ k, k ∈ keys → order k ≡ₚ on_key k ops ∧
      StronglySorted may_precede (order k) ∧ legal kv_Step zeroState (order k)) as [order Hord].
    { clear Hcov Hnd. induction keys as [|k keys IH]; [exists (λ _, []); by intros ? ?%not_elem_of_nil|].
      destruct IH as [order Hord]; [intros; apply Hparts; by right|].
      destruct (Hparts k) as (ok & Hk); [by left|].
      exists (λ k', if bool_decide (k' = k) then ok else order k'). intros k' Hk'.
      case_bool_decide as E; [by subst|]. apply Hord. by apply elem_of_cons in Hk' as [|]. }
    destruct (merge_keys order keys Hnd) as (all & Hs & Hin & HP & Hf).
    { intros k Hk. destruct (Hord k Hk) as (HPk & Hsk & _). split_and!; [done|..]; rewrite HPk.
      - apply Forall_forall. intros o [_ Ho]%list_elem_of_filter. by eapply Forall_forall in Htimed.
      - apply Forall_forall. by intros o [? _]%list_elem_of_filter. }
    exists all.*2. split_and!.
    + rewrite HP, <- (concat_parts ops keys) by done.
      clear -Hord. induction keys as [|k keys IH]; [done|]. cbn.
      rewrite IH by (intros; apply Hord; by right). by rewrite (proj1 (Hord k ltac:(by left))).
    + clear -Hs Hin. induction Hs as [|p l Hl IH Hp]; [constructor|]. apply Forall_cons in Hin as [Hi Hin].
      cbn. constructor; [by apply IH|]. apply Forall_fmap, Forall_forall. intros q Hq. cbn.
      eapply Forall_forall in Hp, Hin; [|done..]. unfold earlier, in_time, may_precede in *. lia.
    + apply legal_cells. intros k. specialize (Hf k). unfold on_key.
      assert (filter (λ o, key o = k) all.*2 = (filter (keyed k) all).*2) as ->.
      { clear. induction all as [|p all IH]; [done|]. rewrite fmap_cons, !filter_cons.
        destruct (decide (key p.2 = k)), (decide (keyed k p)); [|done|done|done]. by rewrite fmap_cons, IH. }
      rewrite Hf. case_bool_decide as Hk; [|done]. by destruct (Hord k Hk) as (_ & _ & ?).
Qed.

(** C21: Checking key by key is exact: provided no operation returns before it is called, the
    answers are explained by one map executing the operations one at a time if and only if
    those of every part of the partition are explained by a single cell. *)
Theorem partition_exact ops :
  Forall (λ o, (o_Call o ≤ o_Return o)%Z) ops →
  linearizable map_Step ∅ ops ↔
  Forall (linearizable (m_Step kvModel) (m_Init kvModel)) (m_Partition kvModel ops).
Proof. apply linearizable_by_key. Qed.

(** ** Operations whose outcome is unknown *)

(** What an operation does to the store when nobody heard the answer. *)
Definition silent_Step (m : gmap bytes bytes) (inp : Input) : bool * gmap bytes bytes :=
  match in_Op inp with
  | OpGet => (true, m)
  | OpPut => (true, <[in_Key inp := in_Value inp]> m)
  | OpDelete => (true, delete (in_Key inp) m)
  | OpOther _ => (false, m)
  end.

Definition event_Step (m : gmap bytes bytes) (e : Event) : bool * gmap bytes bytes :=
  if Completed e then map_Step m (e_Input e) (e_Output e) else silent_Step m (e_Input e).

Fixpoint tells (m : gmap bytes bytes) (story : list Event) : Prop :=
  match story with
  | [] => True
  | e :: story' => fst (event_Step m e) = true ∧ tells (snd (event_Step m e)) story'
  end.

(** An event may come before another unless the other was known to be over. *)
Definition could_precede (a b : Event) : Prop := Completed b = true → (e_Invoked a ≤ e_Returned b)%Z.

(** The answers clients got have an explanation: some of the operations whose outcome is
    unknown happened, and one machine executed these and the completed ones in some order
    that agrees with real time. *)
Definition explained (events : list Event) : Prop :=
  ∃ happened order,
    happened ⊆+ filter (λ e, Completed e = false) events ∧
    order ≡ₚ filter (λ e, Completed e = true) events ++ happened ∧
    StronglySorted could_precede order ∧ tells ∅ order.

Lemma explained_perm l1 l2 : l1 ≡ₚ l2 → explained l1 → explained l2.
Proof.
  intros HP (happened & order & Hs & Ho & Hrest). exists happened, order. split_and!; [..|apply Hrest|apply Hrest].
  - by rewrite <- HP.
  - by rewrite <- HP.
Qed.

(** What a recorded history satisfies. *)
Definition well_recorded (e : Event) : Prop :=
  (0 ≤ e_Invoked e < 9223372036854775807)%Z ∧ (0 ≤ e_Returned e < 9223372036854775807)%Z ∧
  out_Unknown (e_Output e) = negb (Completed e) ∧
  (Completed e = true → (e_Invoked e ≤ e_Returned e)%Z).

(** The time that [toPorcupine] takes for the end of the history. *)
Definition horizon (events : list Event) : Z :=
  foldl (λ t e, let t := if (t <? e_Returned e)%Z then e_Returned e else t in
                if (t <? e_Invoked e)%Z then e_Invoked e else t) 0%Z events.

Definition as_operation (last : Z) (e : Event) : Operation :=
  mkOperation (e_ClientID e) (e_Input e) (e_Output e) (e_Invoked e)
    (if negb (Completed e) then last else e_Returned e).

Lemma horizon_above events :
  Forall well_recorded events →
  (0 ≤ horizon events < 9223372036854775807)%Z ∧
  Forall (λ e, (e_Invoked e ≤ horizon events)%Z ∧ (e_Returned e ≤ horizon events)%Z) events.
Proof.
  unfold horizon. set (f := λ t e, _).
  cut (∀ l t, (0 ≤ t < 9223372036854775807)%Z → Forall well_recorded l →
    (t ≤ foldl f t l < 9223372036854775807)%Z ∧
    Forall (λ e, (e_Invoked e ≤ foldl f t l)%Z ∧ (e_Returned e ≤ foldl f t l)%Z) l).
  { intros H Hw. destruct (H events 0%Z); [lia|done|]. split; [lia|done]. }
  induction l as [|e l IH]; intros t Ht Hw; cbn [foldl]; [split; [lia|constructor]|].
  apply Forall_cons in Hw as [(Hi & Hr & _) Hw].
  assert (t ≤ f t e < 9223372036854775807 ∧ e_Invoked e ≤ f t e ∧ e_Returned e ≤ f t e)%Z as Hf.
  { subst f. cbn. destruct (Z.ltb_spec t (e_Returned e)); case_match eqn:E;
      (apply Z.ltb_lt in E || apply Z.ltb_ge in E); lia. }
  destruct (IH (f t e)) as [Hb Hall]; [lia|done|]. split; [lia|]. constructor; [lia|done].
Qed.

Lemma toPorcupine_spec events :
  Forall well_recorded events →
  toPorcupine events = as_operation (horizon events + 1) <$> events.
Proof.
  intros Hw. destruct (horizon_above events Hw) as [Hb _].
  unfold toPorcupine. fold (horizon events). unfold int_add. rewrite int_wrap_small by lia.
  set (last := (horizon events + 1)%Z).
  change (foldl (λ ops e, ops ++ [as_operation last e]) [] events = as_operation last <$> events).
  by rewrite foldl_snoc_fmap.
Qed.

Lemma well_timed events :
  Forall well_recorded events → Forall (λ o, (o_Call o ≤ o_Return o)%Z) (toPorcupine events).
Proof.
  intros Hw. rewrite toPorcupine_spec by done. destruct (horizon_above events Hw) as [_ Hall].
  apply Forall_fmap, Forall_forall. intros e He. eapply Forall_forall in Hw, Hall; [|done..].
  destruct Hw as (_ & _ & _ & Ht). cbn. destruct (Completed e); cbn; [by apply Ht|lia].
Qed.

(** A step of the checker's model is a step of the story. *)
Lemma event_Step_map m e :
  well_recorded e → fst (map_Step m (e_Input e) (e_Output e)) = true →
  fst (event_Step m e) = true ∧ snd (event_Step m e) = snd (map_Step m (e_Input e) (e_Output e)).
Proof.
  intros (_ & _ & Hu & _). unfold event_Step. destruct (Completed e); [done|]. cbn in Hu.
  unfold map_Step, silent_Step. destruct (in_Op (e_Input e)); try done. by rewrite Hu.
Qed.

(** And the other way around, for the operations that change the store. *)
Lemma map_Step_event m e :
  well_recorded e → (Completed e = false → in_Op (e_Input e) ≠ OpGet) →
  fst (event_Step m e) = true →
  fst (map_Step m (e_Input e) (e_Output e)) = true ∧
  snd (map_Step m (e_Input e) (e_Output e)) = snd (event_Step m e).
Proof.
  intros (_ & _ & Hu & _) Hop. unfold event_Step. destruct (Completed e); [done|]. cbn in Hu.
  specialize (Hop eq_refl). unfold map_Step, silent_Step. destruct (in_Op (e_Input e)); try done. by rewrite Hu.
Qed.

(** Every unknown operation is a write. *)
Definition only_writes_unknown (events : list Event) : Prop :=
  Forall (λ e, Completed e = false → in_Op (e_Input e) = OpPut ∨ in_Op (e_Input e) = OpDelete) events.

Lemma legal_tells last m order :
  Forall well_recorded order → legal map_Step m (as_operation last <$> order) → tells m order.
Proof.
  revert m. induction order as [|e order IH]; intros m Hw; [done|]. apply Forall_cons in Hw as [He Hw].
  cbn. intros [Hok Hrest]. destruct (event_Step_map m e He Hok) as [H1 ->]. split; [done|by apply IH].
Qed.

Lemma tells_legal last m order rest :
  Forall well_recorded (order ++ rest) → only_writes_unknown (order ++ rest) →
  Forall (λ e, Completed e = false) rest → tells m order →
  legal map_Step m (as_operation last <$> (order ++ rest)).
Proof.
  unfold only_writes_unknown. revert m.
  induction order as [|e order IH]; cbn [app]; intros m Hw Ho Hrest Ht.
  - clear Ht. revert m. induction rest as [|e rest IH]; intros m; [done|].
    apply Forall_cons in Hw as [He Hw], Ho as [Hoe Ho], Hrest as [Hce Hrest]. cbn.
    destruct He as (_ & _ & Hu & _). rewrite Hce in Hu. cbn in Hu. split; [|by apply IH].
    unfold map_Step. destruct (Hoe Hce) as [->| ->]; [done|by rewrite Hu].
  - apply Forall_cons in Hw as [He Hw], Ho as [Hoe Ho]. destruct Ht as [Hok Ht]. cbn.
    destruct (map_Step_event m e He) as [H1 ->]; [intros Hc E; by destruct (Hoe Hc); congruence|done|].
    split; [done|by apply IH].
Qed.

Lemma split_completed events :
  filter (λ e, Completed e = true) events ++ filter (λ e, Completed e = false) events ≡ₚ events.
Proof.
  induction events as [|e events IH]; [done|]. destruct (Completed e) eqn:E.
  - rewrite (filter_cons_True _ e), (filter_cons_False _ e) by congruence. by constructor.
  - rewrite (filter_cons_False _ e), (filter_cons_True _ e) by congruence.
    rewrite <- Permutation_middle. by constructor.
Qed.

Lemma linearizable_explained events :
  Forall well_recorded events → linearizable map_Step ∅ (toPorcupine events) → explained events.
Proof.
  intros Hw. rewrite toPorcupine_spec by done. intros (ops & HP & Hs & Hlegal).
  destruct (Permutation_map_inv _ _ HP) as (order & -> & HPe).
  exists (filter (λ e, Completed e = false) events), order. split_and!; [done| | |].
  - by rewrite split_completed.
  - clear -Hs. induction order as [|e order IH]; [constructor|]. inversion Hs as [|? ? Hs' He]; subst.
    constructor; [by apply IH|]. apply Forall_forall. intros b Hb Hc.
    rewrite Forall_forall in He. specialize (He (as_operation (horizon events + 1) b)).
    unfold may_precede in He. cbn in He. rewrite Hc in He. cbn in He. apply He. by apply list_elem_of_fmap_2.
  - eapply legal_tells; [|exact Hlegal]. by rewrite <- HPe.
Qed.

Lemma explained_linearizable events :
  Forall well_recorded events → only_writes_unknown events →
  explained events → linearizable map_Step ∅ (toPorcupine events).
Proof.
  intros Hw Ho (happened & order & [rest Hsub]%submseteq_Permutation & HP & Hs & Ht).
  rewrite toPorcupine_spec by done. destruct (horizon_above events Hw) as [_ Hall].
  set (last := (horizon events + 1)%Z) in *.
  assert (order ++ rest ≡ₚ events) as HPe.
  { by rewrite HP, <- app_assoc, <- Hsub, split_completed. }
  assert (Forall (λ e, Completed e = false) rest) as Hrest.
  { apply Forall_forall. intros e He. assert (e ∈ filter (λ e, Completed e = false) events) as Hin.
    { rewrite Hsub. apply elem_of_app. by right. } by apply list_elem_of_filter in Hin as [? _]. }
  rewrite <- HPe in Hall, Hw. unfold only_writes_unknown in Ho. rewrite <- HPe in Ho.
  exists (as_operation last <$> (order ++ rest)). split_and!; [by rewrite HPe| |by apply tells_legal].
  assert (∀ a b, a ∈ order ++ rest → could_precede a b → may_precede (as_operation last a) (as_operation last b)) as Hprec.
  { intros a b Ha Hab. rewrite Forall_forall in Hall. specialize (Hall a Ha) as [Hia _].
    unfold may_precede, could_precede in *. cbn. destruct (Completed b); cbn; [by apply Hab|lia]. }
  assert (StronglySorted could_precede (order ++ rest)) as Hs'.
  { apply StronglySorted_app. split_and!; [|done|].
    - intros a b _ Hb Hc. eapply Forall_forall in Hrest; [|done]. congruence.
    - clear -Hrest. induction Hrest as [|e rest He Hrest IH]; constructor; [done|].
      eapply Forall_impl; [exact Hrest|]. intros b Hb Hc. congruence. }
  clear -Hs' Hprec. induction Hs' as [|a l Hl IH Ha]; [constructor|]. cbn.
  constructor; [apply IH; intros; apply Hprec; [by right|done]|].
  apply Forall_fmap. eapply Forall_impl; [exact Ha|]. intros b Hb. apply Hprec; [by left|done].
Qed.

(** ** The verdict *)

Lemma verdict_sound `{HPorc : Porcupine} `{!PorcupineLaws} h timeout :
  Forall well_recorded (h_events h) →
  (r_Status (CheckHistory h timeout) = Ok → explained (h_events h)) ∧
  (r_Status (CheckHistory h timeout) = Illegal → only_writes_unknown (h_events h) → ¬ explained (h_events h)).
Proof.
  intros Hw. destruct (Events_spec h) as (_ & HP & _). pose proof Hw as Hw'. rewrite <- HP in Hw'.
  pose proof (linearizable_by_key _ (well_timed _ Hw')) as Hexact. unfold CheckHistory. cbn [r_Status]. split.
  - intros Hok%check_ok. apply (explained_perm _ _ HP), linearizable_explained; [done|by apply Hexact].
  - intros Hill Ho Hex. apply check_illegal in Hill; [|exact kv_Equal_sound]. apply Exists_exists in Hill as (part & Hpart & Hnot). apply Hnot.
    apply (explained_perm _ (Events h)) in Hex; [|by rewrite HP].
    apply explained_linearizable in Hex; [|done|unfold only_writes_unknown; by rewrite HP].
    apply Hexact in Hex. by eapply Forall_forall in Hex.
Qed.

(** C20: A verdict can be relied on.  Take a well-recorded history.  If the check says it is
    linearizable then the answers have an explanation.  If it says it is not, and every
    operation whose outcome is unknown was a write, then they have none. *)
Theorem verdict_right `{HPorc : Porcupine} `{!PorcupineLaws} h timeout :
  Forall well_recorded (h_events h) →
  (r_Status (CheckHistory h timeout) = Ok → explained (h_events h)) ∧
  (r_Status (CheckHistory h timeout) = Illegal → only_writes_unknown (h_events h) → ¬ explained (h_events h)).
Proof. apply verdict_sound. Qed.

(** *** Reads that are not answered *)

Lemma legal_after m ops1 ops2 : legal map_Step m (ops1 ++ ops2) → ∃ m', legal map_Step m' ops2.
Proof. revert m. induction ops1 as [|o ops1 IH]; intros m; cbn; [by eauto|]. intros [_ Hl]. by apply IH in Hl. Qed.

(** A read that found nothing is not legal once there is something, unless it was deleted. *)
Lemma absent_illegal g ops rest : ∀ m,
  is_Some (m !! key g) → Forall (λ o, key o = key g → in_Op (o_Input o) ≠ OpDelete) ops →
  in_Op (o_Input g) = OpGet → out_Found (o_Output g) = false → ¬ legal map_Step m (ops ++ g :: rest).
Proof.
  induction ops as [|o ops IH]; intros m Hm Hops Hop Hout; cbn.
  - intros [Hl _]. unfold map_Step in Hl. rewrite Hop in Hl. fold (key g) in Hl. destruct Hm as [v Hv].
    rewrite Hv, Hout in Hl. done.
  - intros [Hl Hrest]. apply Forall_cons in Hops as [Ho Hops]. revert Hrest. apply IH; [|done..].
    unfold map_Step. fold (key o). destruct (in_Op (o_Input o)) eqn:Eo; cbn; try done.
    + destruct (decide (key o = key g)) as [->|]; [by rewrite lookup_insert_eq|by rewrite lookup_insert_ne].
    + case_match; cbn; [done|]. rewrite lookup_delete_ne; [done|]. intros E. by apply Ho in E.
Qed.

Lemma unanswered_read_illegal events w g :
  Forall well_recorded events → w ∈ events → g ∈ events →
  in_Op (e_Input w) = OpPut → Completed w = true → in_Key (e_Input w) = in_Key (e_Input g) →
  in_Op (e_Input g) = OpGet → out_Found (e_Output g) = false → (e_Returned w < e_Invoked g)%Z →
  Forall (λ e, in_Key (e_Input e) = in_Key (e_Input g) → in_Op (e_Input e) ≠ OpDelete) events →
  ¬ linearizable map_Step ∅ (toPorcupine events).
Proof.
  intros Hwell Hw Hg Hput Hc Hkey Hget Hnf Hlt Hdel. rewrite toPorcupine_spec by done. set (f := as_operation _).
  intros (order & HP & Hs & Hlegal).
  assert (f g ∈ order) as (l1 & l2 & ->)%list_elem_of_split by (rewrite HP; by apply list_elem_of_fmap_2).
  apply StronglySorted_app in Hs as (_ & _ & Hs). inversion Hs as [|? ? _ Hafter]; subst.
  assert (Forall (λ o, key o = key (f g) → in_Op (o_Input o) ≠ OpDelete) (l1 ++ f g :: l2)) as Hnd.
  { rewrite HP. apply Forall_fmap. exact Hdel. }
  apply Forall_app in Hnd as [Hnd _].
  assert (f w ∈ l1) as (l3 & l4 & ->)%list_elem_of_split.
  { assert (f w ∈ l1 ++ f g :: l2) as Hin by (rewrite HP; by apply list_elem_of_fmap_2).
    apply elem_of_app in Hin as [|[E|Hin]%elem_of_cons]; [done|..].
    - apply (f_equal (λ o, in_Op (o_Input o))) in E. cbn in E. congruence.
    - rewrite Forall_forall in Hafter. specialize (Hafter _ Hin). unfold may_precede in Hafter. cbn in Hafter.
      rewrite Hc in Hafter. cbn in Hafter. lia. }
  rewrite <- app_assoc in Hlegal. apply legal_after in Hlegal as (m & _ & Hlegal). revert Hlegal.
  apply Forall_app in Hnd as [_ Hnd]. apply Forall_cons in Hnd as [_ Hnd].
  apply absent_illegal; try done. unfold map_Step, key. cbn. rewrite Hput, Hkey. cbn. by rewrite lookup_insert_eq.
Qed.

Lemma explained_unanswered events g : Completed g = false → explained events → explained (g :: events).
Proof.
  intros Hg (happened & order & Hsub & HP & Hrest). exists happened, order.
  rewrite (filter_cons_True _ g), (filter_cons_False _ g) by congruence. split_and!; [by apply submseteq_cons|done|apply Hrest..].
Qed.

(** C40: An unanswered read is not given the benefit of the doubt that an unanswered write is:
    the recorded answer of a read that timed out is that the key was absent, and [kv_Step]
    holds the store to it.  So if a write of a key returned before such a read of it began,
    and nobody deletes the key, the check does not pass, for no order is legal; although
    the answers have an explanation as soon as those of the other operations have. *)
Theorem unanswered_read_rejected `{HPorc : Porcupine} `{!PorcupineLaws} h timeout w g rest :
  Forall well_recorded (h_events h) → h_events h ≡ₚ g :: rest → w ∈ rest →
  in_Op (e_Input w) = OpPut → Completed w = true → in_Key (e_Input w) = in_Key (e_Input g) →
  in_Op (e_Input g) = OpGet → e_Output g = mkOutput [] false true → (e_Returned w < e_Invoked g)%Z →
  Forall (λ e, in_Key (e_Input e) = in_Key (e_Input g) → in_Op (e_Input e) ≠ OpDelete) rest →
  ¬ linearizable map_Step ∅ (toPorcupine (Events h)) ∧ r_Status (CheckHistory h timeout) ≠ Ok ∧
  (explained rest → explained (h_events h)).
Proof.
  intros Hwell HP Hw Hput Hc Hkey Hget Hout Hlt Hdel. destruct (Events_spec h) as (_ & HPe & _).
  assert (Forall well_recorded (Events h)) as Hwell' by (by rewrite HPe).
  assert (¬ linearizable map_Step ∅ (toPorcupine (Events h))) as Hnot.
  { apply (unanswered_read_illegal (Events h) w g); try done; rewrite ?Hout, ?HPe, ?HP; try done; [by right|by left|].
    constructor; [by rewrite Hget|done]. }
  split; [done|]. split.
  - intros Hok%check_ok. apply Hnot. by apply linearizable_by_key; [apply well_timed|].
  - intros Hex. apply (explained_perm (g :: rest)); [done|]. apply explained_unanswered; [|done].
    unfold Completed. by rewrite Hout, andb_false_r.
Qed.
End locality.

(** ** Recording *)

(** What the clients of a run do, one after the other: the lock makes one step of
    [Complete] and of [Unknown], and two of [Begin].  [dt] is the time since the last
    step. *)
Inductive act :=
  | ATake (dt client : Z) (inp : Input)
  | ABegin (dt id : Z)
  | AComplete (dt id : Z) (value : bytes) (found : bool)
  | AUnknown (dt id : Z).

(** [rc_taken]: the calls of [Begin] that have taken an id, and not yet returned. *)
Record recorder := mkRecorder {
  rc_history : History;
  rc_taken : gmap Z (Z * Input);
  rc_pending : gmap Z Pending;
  rc_now : Z
}.

Definition act_dt (a : act) : Z :=
  match a with ATake dt _ _ | ABegin dt _ | AComplete dt _ _ _ | AUnknown dt _ => dt end.

Definition finish_with (r : recorder) (now id : Z) (f : Pending → History → Pending * History) : recorder :=
  match rc_pending r !! id with
  | Some p => let '(p, h) := f p (rc_history r) in mkRecorder h (rc_taken r) (<[id := p]> (rc_pending r)) now
  | None => mkRecorder (rc_history r) (rc_taken r) (rc_pending r) now
  end.

Definition perform_act (r : recorder) (a : act) : recorder :=
  let now := (rc_now r + act_dt a)%Z in
  match a with
  | ATake _ client inp =>
      let '(id, h) := Begin_id (rc_history r) in
      mkRecorder h (<[id := (client, inp)]> (rc_taken r)) (rc_pending r) now
  | ABegin _ id =>
      match rc_taken r !! id with
      | Some (client, inp) =>
          mkRecorder (rc_history r) (delete id (rc_taken r)) (<[id := Begin_pending now client id inp]> (rc_pending r)) now
      | None => mkRecorder (rc_history r) (rc_taken r) (rc_pending r) now
      end
  | AComplete _ id value found => finish_with r now id (Complete now (mkOutput value found false))
  | AUnknown _ id => finish_with r now id Unknown
  end.

(** The clock was read at [start], in the first nanosecond at the earliest. *)
Definition record_run (start : Z) (acts : list act) : recorder :=
  foldl perform_act (mkRecorder NewHistory ∅ ∅ start) acts.

(** What was begun is in flight, or recorded once. *)
Definition recorder_ok (r : recorder) : Prop :=
  Forall well_recorded (h_events (rc_history r)) ∧ NoDup (e_ID <$> h_events (rc_history r)) ∧
  (∀ e, e ∈ h_events (rc_history r) →
     ∃ p, rc_pending r !! e_ID e = Some p ∧ p_done p = true ∧ e_Input e = p_input p) ∧
  (∀ id p, rc_pending r !! id = Some p →
     p_id p = id ∧ (id < h_nextID (rc_history r))%Z ∧ (0 ≤ p_invoked p ≤ rc_now r)%Z ∧
     (p_done p = true → ∃ e, e ∈ h_events (rc_history r) ∧ e_ID e = id)) ∧
  (∀ id x, rc_taken r !! id = Some x → (id < h_nextID (rc_history r))%Z ∧ rc_pending r !! id = None) ∧
  (0 < rc_now r)%Z.

Lemma finish_ok r now id f out ret :
  recorder_ok r → (rc_now r ≤ now < 9223372036854775807)%Z →
  (∀ p h, f p h = if p_done p then (p, h)
     else (finished p, mkHistory (h_events h ++ [mkEvent (p_clientID p) (p_id p) (p_input p) out (p_invoked p) ret])
                         (h_nextID h))) →
  (ret = now ∧ out_Unknown out = false ∨ ret = 0%Z ∧ out_Unknown out = true) →
  recorder_ok (finish_with r now id f).
Proof.
  intros (Hw & Hnd & He & Hp & Ht & H0) Hnow Hf Hret. unfold finish_with.
  destruct (rc_pending r !! id) as [p|] eqn:Ep.
  2: { split_and!; try done; cbn; [|lia]. intros i q Hq. destruct (Hp i q Hq) as (? & ? & ? & ?). split_and!; try done; lia. }
  destruct (Hp id p Ep) as (Eid & Hid & Hinv & Hdone). rewrite Hf. destruct (p_done p) eqn:Ed.
  { rewrite insert_id by done. split_and!; try done; cbn; [|lia].
    intros i q Hq. destruct (Hp i q Hq) as (? & ? & ? & ?). split_and!; try done; lia. }
  assert (∀ e, e ∈ h_events (rc_history r) → e_ID e ≠ id) as Hfresh.
  { intros e Hin E. destruct (He e Hin) as (q & Hq & Hd & _). rewrite E, Ep in Hq. simplify_eq. congruence. }
  set (e := mkEvent _ _ _ _ _ _). split_and!; cbn [rc_history rc_pending rc_now h_events h_nextID].
  - apply Forall_app. split; [done|]. apply Forall_singleton. unfold well_recorded, Completed. subst e. cbn.
    destruct Hret as [[-> ->]|[-> ->]]; cbn; [rewrite (proj2 (Z.eqb_neq now 0)) by lia; cbn|].
    all: split_and!; try done; lia.
  - rewrite fmap_app. apply NoDup_app. split_and!; [done| |apply NoDup_singleton].
    intros x (e' & -> & Hin)%list_elem_of_fmap [= E]%list_elem_of_singleton. apply (Hfresh e' Hin). cbn in E. congruence.
  - intros e' [Hin|Hin]%elem_of_app.
    + destruct (He e' Hin) as (q & Hq & ?). exists q. rewrite lookup_insert_ne by (intros E; by apply (Hfresh e')). done.
    + apply list_elem_of_singleton in Hin as ->. cbn. rewrite Eid. exists (finished p). by rewrite lookup_insert_eq.
  - intros i q [[<- <-]|[Hne Hq]]%lookup_insert_Some.
    + cbn. split_and!; try done; try lia. intros _. exists e. split; [|done]. apply elem_of_app. right. by left.
    + destruct (Hp i q Hq) as (? & ? & ? & Hdq). split_and!; try done; try lia. intros Hd.
      destruct (Hdq Hd) as (e' & ? & ?). exists e'. split; [|done]. apply elem_of_app. by left.
  - intros i x Hx. destruct (Ht i x Hx) as [Hi Hn]. split; [done|]. rewrite lookup_insert_ne; [done|]. intros <-. congruence.
  - lia.
Qed.

Lemma perform_act_ok r a :
  recorder_ok r → (0 ≤ act_dt a)%Z → (rc_now r + act_dt a < 9223372036854775807)%Z → recorder_ok (perform_act r a).
Proof.
  intros Hr Hdt Hnow. destruct a as [dt client inp|dt id|dt id value found|dt id]; cbn in *.
  - destruct Hr as (Hw & Hnd & He & Hp & Ht & H0). split_and!; cbn; try done; [| |lia].
    + intros id p Hq. destruct (Hp id p Hq) as (? & ? & ? & ?). split_and!; try done; lia.
    + intros id x [[<- <-]|[Hne Hx]]%lookup_insert_Some; [|destruct (Ht id x Hx); split; [lia|done]].
      split; [lia|]. destruct (rc_pending r !! h_nextID (rc_history r)) as [p|] eqn:E; [|done].
      destruct (Hp _ _ E) as (_ & ? & _). lia.
  - destruct Hr as (Hw & Hnd & He & Hp & Ht & H0). destruct (rc_taken r !! id) as [[client inp]|] eqn:Et.
    2: { split_and!; try done; cbn; [|lia]. intros i q Hq. destruct (Hp i q Hq) as (? & ? & ? & ?). split_and!; try done; lia. }
    destruct (Ht id _ Et) as [Hlt Hnone]. split_and!; cbn; try done; [| | |lia].
    + intros e Hin. destruct (He e Hin) as (p & Hpe & ?). exists p. rewrite lookup_insert_ne; [done|]. intros ->. congruence.
    + intros i p [[<- <-]|[Hne Hq]]%lookup_insert_Some; [cbn; split_and!; try done; lia|].
      destruct (Hp i p Hq) as (? & ? & ? & ?). split_and!; try done; lia.
    + intros i x [Hne Hx]%lookup_delete_Some. destruct (Ht i x Hx). by rewrite lookup_insert_ne.
  - eapply finish_ok; [done|lia|done|by left].
  - eapply finish_ok; [done|lia|done|by right].
Qed.

Lemma perform_act_now r a : rc_now (perform_act r a) = (rc_now r + act_dt a)%Z.
Proof.
  destruct a as [| |dt id value found|dt id]; cbn; unfold finish_with; [done|by repeat case_match|..].
  all: destruct (rc_pending r !! id); cbn; try done; unfold Complete, Unknown; by case_match.
Qed.

Lemma record_run_ok start acts :
  (0 < start)%Z → Forall (λ a, (0 ≤ act_dt a)%Z) acts →
  (start + foldr (λ a t, act_dt a + t) 0 acts < 9223372036854775807)%Z →
  recorder_ok (record_run start acts).
Proof.
  intros Hs. unfold record_run.
  assert (recorder_ok (mkRecorder NewHistory ∅ ∅ start)) as Hok.
  { split_and!; cbn; [by constructor|by constructor| |by intros ?? ?|by intros ?? ?|done]. by intros e ?%elem_of_nil. }
  change start with (rc_now (mkRecorder NewHistory ∅ ∅ start)) at 1.
  revert Hok. generalize (mkRecorder NewHistory ∅ ∅ start).
  induction acts as [|a acts IH]; intros r Hok Hdt Hsum; [done|]. apply Forall_cons in Hdt as [Ha Hacts]. cbn in *.
  assert (0 ≤ foldr (λ a t, act_dt a + t) 0 acts)%Z as Hpos.
  { clear -Hacts. induction Hacts; cbn; lia. }
  pose proof (perform_act_now r a) as Hnow.
  apply IH; [apply perform_act_ok; [done..|lia]|done|lia].
Qed.

(** Whatever the clients do, and in whatever order, what the history records can be
    checked: no operation is recorded twice, each is one a client began, completed ones
    return no earlier than they were invoked, and the others are marked as unknown. *)
Theorem recording_sound start acts :
  (0 < start)%Z → Forall (λ a, (0 ≤ act_dt a)%Z) acts →
  (start + foldr (λ a t, act_dt a + t) 0 acts < 9223372036854775807)%Z →
  let h := rc_history (record_run start acts) in
  Forall well_recorded (h_events h) ∧ NoDup (e_ID <$> h_events h) ∧
  Forall (λ e, e_ID e < h_nextID h)%Z (h_events h).
Proof.
  intros Hs Hdt Hsum h. destruct (record_run_ok start acts Hs Hdt Hsum) as (Hw & Hnd & He & Hp & _ & _).
  split_and!; [done..|]. apply Forall_forall. intros e Hin. destruct (He e Hin) as (p & Hpe & _).
  by destruct (Hp _ _ Hpe) as (_ & ? & _).
Qed.

(** ** Every order tried *)

(** A checker that tries every order: what the library promises, without its speed. *)
Module Exhaustive.
Section checker.
Context {State : Type} (step : State → Input → Output → bool * State).

Fixpoint legalb (s : State) (ops : list Operation) : bool :=
  match ops with
  | [] => true
  | o :: rest =>
      fst (step s (o_Input o) (o_Output o)) && legalb (snd (step s (o_Input o) (o_Output o))) rest
  end.

Fixpoint sortedb (ops : list Operation) : bool :=
  match ops with
  | [] => true
  | o :: rest => forallb (λ p, o_Call o <=? o_Return p)%Z rest && sortedb rest
  end.

Definition linearizableb (s : State) (ops : list Operation) : bool :=
  existsb (λ order, sortedb order && legalb s order) (permutations ops).

Lemma legalb_spec s ops : legalb s ops = true ↔ legal step s ops.
Proof.
  revert s. induction ops as [|o ops IH]; intros s; cbn; [done|].
  by rewrite andb_true_iff, IH.
Qed.

Lemma sortedb_spec ops : sortedb ops = true ↔ StronglySorted may_precede ops.
Proof.
  induction ops as [|o ops IH]; cbn; [split; [constructor|done]|]. rewrite andb_true_iff, forallb_forall, IH.
  split.
  - intros [Hf Hs]. constructor; [done|]. apply Forall_forall. intros p Hp. apply Z.leb_le, Hf. by apply list_elem_of_In.
  - inversion 1 as [|?? Hs Hf]; subst. split; [|done]. intros p Hp%list_elem_of_In.
    apply Z.leb_le. by eapply Forall_forall in Hf.
Qed.

Lemma linearizableb_spec s ops : linearizableb s ops = true ↔ linearizable step s ops.
Proof.
  unfold linearizableb, linearizable. rewrite existsb_exists. split.
  - intros (order & Hin & [Hs Hl]%andb_true_iff). exists order. split_and!.
    + by apply list_elem_of_In, permutations_Permutation in Hin.
    + by apply sortedb_spec.
    + by apply legalb_spec.
  - intros (order & HP & Hs & Hl). exists order. split.
    + by apply list_elem_of_In, permutations_Permutation.
    + apply andb_true_iff. split; [by apply sortedb_spec|by apply legalb_spec].
Qed.
End checker.

Lemma parts_ok {State} (step : State → Input → Output → bool * State) init parts :
  forallb (linearizableb step init) parts = true ↔ Forall (linearizable step init) parts.
Proof.
  rewrite forallb_forall, Forall_forall. split; intros Hall part Hin.
  - apply linearizableb_spec, Hall. by apply list_elem_of_In.
  - apply linearizableb_spec, Hall. by apply list_elem_of_In.
Qed.

#[export] Instance porcupine : Porcupine := {|
  CheckOperations m ops _ :=
    if forallb (linearizableb (m_Step m) (m_Init m)) (m_Partition m ops) then Ok else Illegal
|}.

#[export] Instance porcupine_laws : PorcupineLaws.
Proof.
  split; intros m ops timeout; cbn.
  - destruct (forallb _ _) eqn:E; [|done]. intros _. by apply parts_ok.
  - intros _. destruct (forallb _ _) eqn:E; [done|]. intros _. apply not_true_iff_false in E. apply not_Forall_Exists; [|].
    + intros part. destruct (linearizableb (m_Step m) (m_Init m) part) eqn:Ep;
        [left; by apply linearizableb_spec|right; rewrite <- linearizableb_spec; by rewrite Ep].
    + intros Hall. by apply E, parts_ok.
Qed.
End Exhaustive.

(** ** Examples *)

Module ChaosExample.
Import Exhaustive.
#[local] Existing Instance forward_range.

Definition k : bytes := [Byte.x6b].
Definition v : bytes := [Byte.x76].

(** A client writes, another reads what was written before the first is answered, and a
    third writes again but never learns the outcome. *)
Definition acts : list act :=
  [ATake 1 0 (mkInput OpPut k v); ATake 1 1 (mkInput OpGet k []); ABegin 0 1; ABegin 0 0; AComplete 1 1 v true;
   AComplete 1 0 [] false; ATake 1 2 (mkInput OpDelete k []); ABegin 1 2; AUnknown 5 2; AUnknown 5 2;
   ATake 1 1 (mkInput OpGet k []); ABegin 1 3; AComplete 2 3 v true].

Definition history : History := rc_history (record_run 100 acts).

(** A client writes; the next reads, and its deadline passes. *)
Definition timed_out : History :=
  rc_history (record_run 100
    [ATake 1 0 (mkInput OpPut k v); ABegin 1 0; AComplete 1 0 [] false; ATake 1 1 (mkInput OpGet k []); ABegin 1 1; AUnknown 5 1]).

Lemma history_recorded : Forall well_recorded (h_events history).
Proof. apply record_run_ok; [lia|repeat constructor; cbn; lia|vm_compute; reflexivity]. Qed.
End ChaosExample.

Lemma recording_sound_witness :
  let h := ChaosExample.history in
  length (h_events h) = 4 ∧
  (Forall well_recorded (h_events h) ∧ NoDup (e_ID <$> h_events h) ∧ Forall (λ e, e_ID e < h_nextID h)%Z (h_events h)).
Proof.
  split; [vm_compute; reflexivity|].
  apply (recording_sound 100 ChaosExample.acts); [lia|repeat constructor; cbn; lia|vm_compute; reflexivity].
Defined.

Lemma partition_exact_witness :
  linearizable map_Step ∅ (toPorcupine (h_events ChaosExample.history)).
Proof.
  apply (partition_exact (R := forward_range)).
  - apply well_timed, ChaosExample.history_recorded.
  - apply Exhaustive.parts_ok. vm_compute. reflexivity.
Defined.

Lemma verdict_right_witness :
  r_Status (CheckHistory (H0 := Exhaustive.porcupine) (H := forward_range) ChaosExample.history 1) = Ok ∧
  explained (h_events ChaosExample.history).
Proof.
  split; [vm_compute; reflexivity|].
  destruct (verdict_right (R := forward_range) (HPorc := Exhaustive.porcupine)
              (H := Exhaustive.porcupine_laws) ChaosExample.history 1) as [Hok _].
  - apply ChaosExample.history_recorded.
  - apply Hok. vm_compute. reflexivity.
Defined.

Lemma unanswered_read_rejected_witness :
  r_Status (CheckHistory (H0 := Exhaustive.porcupine) (H := forward_range) ChaosExample.timed_out 1) ≠ Ok ∧
  explained (h_events ChaosExample.timed_out).
Proof.
  destruct (unanswered_read_rejected (R := forward_range) (HPorc := Exhaustive.porcupine) (H := Exhaustive.porcupine_laws)
    ChaosExample.timed_out 1 (mkEvent 0 0 (mkInput OpPut ChaosExample.k ChaosExample.v) (mkOutput [] false false) 102 103)
    (mkEvent 1 1 (mkInput OpGet ChaosExample.k []) (mkOutput [] false true) 105 0)
    [mkEvent 0 0 (mkInput OpPut ChaosExample.k ChaosExample.v) (mkOutput [] false false) 102 103]) as (_ & Hnot & Hex); try done.
  - apply record_run_ok; [lia|repeat constructor; cbn; lia|vm_compute; reflexivity].
  - apply Permutation_swap.
  - by left.
  - by apply Forall_singleton.
  - split; [exact Hnot|]. apply Hex. eexists [], _. split_and!; [apply submseteq_nil_l|reflexivity|vm_compute; by repeat constructor|done].
Defined.
