(* ===== verification/Clock.v ===== *)
(** * The fake clock

    [clock/fake.go]: the clock that driver tests move by hand.  Timers and tickers are
    shared objects; [f_heap] is the store they live in, a pointer is a position in it, and
    [f_waiters] are the pointers the clock holds.  A channel of capacity one is the value
    it holds.  Instants are in nanoseconds, unbounded as [time.Time] is in practice.

    [Advance] lets go of the lock while it fires; the model is of a test that has nobody
    else call the clock meanwhile. *)

From S2P Require Import Prelude.

(** ** The clock *)

Record waiter := mkWaiter {
  w_at : Z;
  w_ch : option Z;
  w_period : Z;
  w_stopped : bool
}.

Record Fake := mkFake { f_now : Z; f_heap : list waiter; f_waiters : list nat }.

(** The instant of [time.Time{}], and of 1 January 2030, in nanoseconds from the former. *)
Definition zeroTime : Z := 0.
Definition year2030 : Z := (64029052800 * 1000000000)%Z.

Definition NewFake (start : Z) : Fake :=
  mkFake (if (start =? zeroTime)%Z then year2030 else start) [] [].

Definition add (d period : Z) (f : Fake) : nat * Fake :=
  let w := mkWaiter (f_now f + d) None period false in
  (length (f_heap f), mkFake (f_now f) (f_heap f ++ [w]) (f_waiters f ++ [length (f_heap f)])).

Definition NewTimer (d : Z) (f : Fake) : nat * Fake := add d 0 f.

Definition NewTicker (d : Z) (f : Fake) : outcome nat * Fake :=
  if (d <=? 0)%Z then (Panic "clock: ticker period must be positive", f)
  else let '(w, f) := add d d f in (Ret w, f).

(** Insertion after whatever is not later: what a stable sort by [at] makes of a list,
    element by element. *)
Fixpoint insert_by_at (at_of : nat → Z) (x : nat) (l : list nat) : list nat :=
  match l with
  | [] => [x]
  | y :: l' => if (at_of x <? at_of y)%Z then x :: l else y :: insert_by_at at_of x l'
  end.

Definition at_of (f : Fake) (p : nat) : Z := from_option w_at 0%Z (f_heap f !! p).

Definition is_due (f : Fake) (target : Z) (p : nat) : bool :=
  match f_heap f !! p with
  | Some w => negb (w_stopped w) && (w_at w <=? target)%Z
  | None => false
  end.

Definition dueLocked (target : Z) (f : Fake) : list nat :=
  foldl (λ due p, insert_by_at (at_of f) p due) [] (filter (λ p, is_due f target p = true) (f_waiters f)).

Fixpoint removeLocked (p : nat) (l : list nat) : list nat :=
  match l with
  | [] => []
  | q :: l' => if decide (q = p) then l' else q :: removeLocked p l'
  end.

(** One turn of [Advance]'s loop, for the waiter that is due. *)
Definition fire (p : nat) (w : waiter) (f : Fake) : Fake :=
  let at' := if (0 <? w_period w)%Z then (w_at w + w_period w)%Z else w_at w in
  let ch' := match w_ch w with Some t => Some t | None => Some (w_at w) end in
  mkFake (w_at w) (<[p := mkWaiter at' ch' (w_period w) (w_stopped w)]> (f_heap f))
    (if (0 <? w_period w)%Z then f_waiters f else removeLocked p (f_waiters f)).

(** The loop of [Advance], with what fired and when. *)
Fixpoint advance_loop (fuel : nat) (target : Z) (f : Fake) : outcome (list (nat * Z) * Fake) :=
  match fuel with
  | O => OutOfFuel
  | S fuel =>
      match dueLocked target f with
      | [] => Ret ([], mkFake target (f_heap f) (f_waiters f))
      | p :: _ =>
          match f_heap f !! p with
          | Some w =>
              match advance_loop fuel target (fire p w f) with
              | Ret (fires, f') => Ret ((p, w_at w) :: fires, f')
              | o => o
              end
          | None => Panic "runtime error: invalid memory address or nil pointer dereference"
          end
      end
  end.

(** When a waiter fires up to [target]. *)
Definition occasions (target : Z) (w : waiter) : nat :=
  if (target <? w_at w)%Z then 0
  else if (0 <? w_period w)%Z then S (Z.to_nat ((target - w_at w) `div` w_period w)) else 1.

Definition times (target : Z) (w : waiter) : list Z :=
  (λ k, w_at w + Z.of_nat k * w_period w)%Z <$> seq 0 (occasions target w).

Definition budget (target : Z) (f : Fake) : nat :=
  sum_list_with (λ p, from_option (occasions target) 0 (f_heap f !! p)) (f_waiters f).

(** [Advance]; the fuel is the number of fires to come and one turn more to see that
    there is nothing left. *)
Definition Advance (d : Z) (f : Fake) : outcome (list (nat * Z) * Fake) :=
  let target := (f_now f + d)%Z in
  advance_loop (S (budget target f)) target f.

Definition Waiters (f : Fake) : nat := length (f_waiters f).

Definition stop (p : nat) (f : Fake) : outcome bool * Fake :=
  match f_heap f !! p with
  | Some w =>
      if w_stopped w then (Ret false, f)
      else (Ret true, mkFake (f_now f) (<[p := mkWaiter (w_at w) (w_ch w) (w_period w) true]> (f_heap f))
                        (removeLocked p (f_waiters f)))
  | None => (Panic "runtime error: invalid memory address or nil pointer dereference", f)
  end.

Definition reset (p : nat) (d : Z) (f : Fake) : outcome bool * Fake :=
  match f_heap f !! p with
  | Some w =>
      let active := negb (w_stopped w) in
      let waiters := if w_stopped w then f_waiters f ++ [p] else f_waiters f in
      (Ret active, mkFake (f_now f) (<[p := mkWaiter (f_now f + d) (w_ch w) (w_period w) false]> (f_heap f)) waiters)
  | None => (Panic "runtime error: invalid memory address or nil pointer dereference", f)
  end.

(** A receive from [C()] that finds a value. *)
Definition receive (p : nat) (f : Fake) : option Z * Fake :=
  match f_heap f !! p with
  | Some w => (w_ch w, mkFake (f_now f) (<[p := mkWaiter (w_at w) None (w_period w) (w_stopped w)]> (f_heap f)) (f_waiters f))
  | None => (None, f)
  end.

(** ** What the clock holds *)

(** The clock holds each waiter once, and none that was stopped; a period is not
    negative. *)
Definition fake_ok (f : Fake) : Prop :=
  NoDup (f_waiters f) ∧
  (∀ p, p ∈ f_waiters f → ∃ w, f_heap f !! p = Some w ∧ w_stopped w = false) ∧
  Forall (λ w, 0 ≤ w_period w)%Z (f_heap f).

Lemma removeLocked_spec p l : NoDup l → removeLocked p l = filter (λ q, q ≠ p) l.
Proof.
  induction 1 as [|q l Hq Hl IH]; [done|]. cbn [removeLocked]. case_decide as E.
  - subst q. rewrite filter_cons_False by (intros []; done). symmetry. apply list_filter_all.
    apply Forall_forall. intros x Hx ->. done.
  - by rewrite filter_cons_True, IH.
Qed.

Lemma insert_by_at_elem f x l q : q ∈ insert_by_at f x l ↔ q = x ∨ q ∈ l.
Proof. induction l as [|y l IH]; cbn; [set_solver|]. case_match; set_solver. Qed.

Definition earliest (f : nat → Z) (l : list nat) : Prop :=
  match l with [] => True | x :: l' => Forall (λ y, f x ≤ f y)%Z l' end.

Lemma insert_by_at_earliest f x l : earliest f l → earliest f (insert_by_at f x l).
Proof.
  destruct l as [|y l]; cbn; [done|]. intros Hl. case_match; cbn.
  - constructor; [lia|]. eapply Forall_impl; [done|]. cbn. lia.
  - apply Forall_forall. intros q [->|Hq]%insert_by_at_elem; [lia|]. by eapply Forall_forall in Hl.
Qed.

Lemma dueLocked_spec target f :
  (∀ q, q ∈ dueLocked target f ↔ q ∈ f_waiters f ∧ is_due f target q = true) ∧ earliest (at_of f) (dueLocked target f).
Proof.
  unfold dueLocked. set (l := filter _ _).
  assert (∀ q, q ∈ l ↔ q ∈ f_waiters f ∧ is_due f target q = true) as Hl.
  { intros q. subst l. rewrite list_elem_of_filter. naive_solver. }
  setoid_rewrite <- Hl. clear Hl.
  cut (∀ acc, earliest (at_of f) acc →
    (∀ q, q ∈ foldl (λ due p, insert_by_at (at_of f) p due) acc l ↔ q ∈ acc ∨ q ∈ l) ∧
    earliest (at_of f) (foldl (λ due p, insert_by_at (at_of f) p due) acc l)).
  { intros Hcut. destruct (Hcut [] I) as [Hq He]. split; [|done]. intros q. rewrite Hq. set_solver. }
  clearbody l. induction l as [|x l IH]; intros acc Hacc; cbn; [set_solver|].
  destruct (IH (insert_by_at (at_of f) x acc)) as [Hq He]; [by apply insert_by_at_earliest|].
  split; [|done]. intros q. rewrite Hq, insert_by_at_elem. set_solver.
Qed.

(** *** The operations keep it so *)

Lemma add_ok d period f : (0 ≤ period)%Z → fake_ok f → fake_ok (snd (add d period f)).
Proof.
  intros Hp (Hnd & Hw & Hper). split_and!; cbn.
  - apply NoDup_app. split_and!; [done| |apply NoDup_singleton]. intros p Hin E%list_elem_of_singleton. subst p.
    destruct (Hw _ Hin) as (w & ?%lookup_lt_Some & _). lia.
  - intros p [Hin|Hin%list_elem_of_singleton]%elem_of_app.
    + destruct (Hw _ Hin) as (w & Hpw & ?). exists w. by rewrite (lookup_app_l_Some _ _ _ _ Hpw).
    + subst p. eexists. by rewrite list_lookup_middle.
  - apply Forall_app. split; [done|]. by apply Forall_singleton.
Qed.

Lemma heap_insert_ok f p w now waiters :
  Forall (λ w, 0 ≤ w_period w)%Z (f_heap f) → (0 ≤ w_period w)%Z →
  NoDup waiters → p < length (f_heap f) →
  (p ∈ waiters → w_stopped w = false) →
  (∀ q, q ∈ waiters → q ≠ p → ∃ w', f_heap f !! q = Some w' ∧ w_stopped w' = false) →
  fake_ok (mkFake now (<[p := w]> (f_heap f)) waiters).
Proof.
  intros Hper Hw Hnd Hlt Hp Hq. split_and!; cbn; [done| |by apply Forall_insert].
  intros q Hin. destruct (decide (q = p)) as [->|Hne].
  - exists w. split; [by apply list_lookup_insert_eq|auto].
  - destruct (Hq q Hin Hne) as (w' & ? & ?). exists w'. by rewrite list_lookup_insert_ne.
Qed.

Lemma period_of f p w : fake_ok f → f_heap f !! p = Some w → (0 ≤ w_period w)%Z.
Proof. intros (_ & _ & Hper) Hpw. by eapply Forall_lookup_1 in Hper. Qed.

Lemma removed_waiters f p :
  fake_ok f →
  NoDup (removeLocked p (f_waiters f)) ∧ (p ∉ removeLocked p (f_waiters f)) ∧
  (∀ q, q ≠ p → (q ∈ removeLocked p (f_waiters f) ↔ q ∈ f_waiters f)).
Proof.
  intros (Hnd & _). rewrite removeLocked_spec by done. split_and!.
  - by apply NoDup_filter.
  - by intros [? _]%list_elem_of_filter.
  - intros q Hq. rewrite list_elem_of_filter. naive_solver.
Qed.

Lemma fire_ok p w f : fake_ok f → p ∈ f_waiters f → f_heap f !! p = Some w → fake_ok (fire p w f).
Proof.
  intros Hok Hin Hpw. destruct (removed_waiters f p Hok) as (Hnd' & Hp' & Hq').
  pose proof (period_of f p w Hok Hpw) as Hper. pose proof Hok as (Hnd & Hw & Hall).
  destruct (Hw p Hin) as (w' & Hpw' & Hst). simplify_eq.
  apply heap_insert_ok; cbn; [done|done|by case_match|by eapply lookup_lt_Some|done|].
  intros q Hq Hne. apply Hw. case_match; [done|by apply Hq'].
Qed.

Lemma stop_ok p f : fake_ok f → fake_ok (snd (stop p f)).
Proof.
  intros Hok. unfold stop. destruct (f_heap f !! p) as [w|] eqn:Hpw; [|done].
  destruct (w_stopped w) eqn:Est; [done|]. destruct (removed_waiters f p Hok) as (Hnd' & Hp' & Hq').
  pose proof (period_of f p w Hok Hpw) as Hper. destruct Hok as (Hnd & Hw & Hall).
  apply heap_insert_ok; cbn; [done|done|done|by eapply lookup_lt_Some|by intros ?%Hp'|].
  intros q Hq Hne. by apply Hw, Hq'.
Qed.

Lemma reset_ok p d f : fake_ok f → fake_ok (snd (reset p d f)).
Proof.
  intros Hok. unfold reset. destruct (f_heap f !! p) as [w|] eqn:Hpw; [|done].
  pose proof (period_of f p w Hok Hpw) as Hper. destruct Hok as (Hnd & Hw & Hall).
  apply heap_insert_ok; cbn; [done|done| |by eapply lookup_lt_Some|done|].
  - destruct (w_stopped w) eqn:Est; [|done]. apply NoDup_app. split_and!; [done| |apply NoDup_singleton].
    intros q Hin E%list_elem_of_singleton. subst q. destruct (Hw p Hin) as (w' & ? & ?). simplify_eq. congruence.
  - intros q Hq Hne. apply Hw. case_match; [|done]. apply elem_of_app in Hq as [?|?%list_elem_of_singleton]; done.
Qed.

(** ** Advancing *)

Lemma occasions_0 target w : occasions target w = 0 ↔ (target < w_at w)%Z.
Proof. unfold occasions. destruct (target <? w_at w)%Z eqn:E; [lia|]. case_match; lia. Qed.

Lemma times_0 target w : (target < w_at w)%Z → times target w = [].
Proof. intros H%occasions_0. unfold times. by rewrite H. Qed.

(** What a waiter does after it fired once. *)
Definition refired (w : waiter) : waiter :=
  mkWaiter (w_at w + w_period w) (w_ch w) (w_period w) (w_stopped w).

Lemma occasions_refired target w :
  (0 < w_period w)%Z → (w_at w ≤ target)%Z → occasions target w = S (occasions target (refired w)).
Proof.
  intros Hp Ht. unfold occasions. cbn. rewrite (proj2 (Z.ltb_ge _ _)) by done. rewrite (proj2 (Z.ltb_lt _ _)) by done.
  destruct (target <? w_at w + w_period w)%Z eqn:E.
  - rewrite Z.div_small by lia. done.
  - f_equal. replace (target - w_at w)%Z with (target - (w_at w + w_period w) + 1 * w_period w)%Z by lia.
    rewrite Z.div_add by lia. pose proof (Z.div_pos (target - (w_at w + w_period w)) (w_period w)). lia.
Qed.

Lemma times_refired target w :
  (0 < w_period w)%Z → (w_at w ≤ target)%Z → times target w = w_at w :: times target (refired w).
Proof.
  intros Hp Ht. unfold times. rewrite occasions_refired by done. cbn [seq fmap list_fmap].
  f_equal; [lia|]. rewrite <- fmap_S_seq, <- list_fmap_compose. apply list_fmap_ext. intros i k _. cbn. lia.
Qed.

Lemma times_once target w : (w_period w = 0)%Z → (w_at w ≤ target)%Z → times target w = [w_at w].
Proof.
  intros Hp Ht. unfold times, occasions. rewrite (proj2 (Z.ltb_ge _ _)) by done. rewrite Hp. cbn. f_equal. lia.
Qed.

Lemma times_length target w : length (times target w) = occasions target w.
Proof. unfold times. by rewrite length_fmap, length_seq. Qed.

(** What is due next is registered, due, and no registered waiter is earlier. *)
Lemma due_first target f p rest :
  fake_ok f → dueLocked target f = p :: rest →
  ∃ w, f_heap f !! p = Some w ∧ p ∈ f_waiters f ∧ (w_at w ≤ target)%Z ∧
       ∀ q, q ∈ f_waiters f → (w_at w ≤ at_of f q)%Z.
Proof.
  intros (_ & Hw & _) E. destruct (dueLocked_spec target f) as [Hin Hfirst]. rewrite E in Hin, Hfirst. cbn in Hfirst.
  destruct (proj1 (Hin p)) as [Hp Hdue]; [by left|]. destruct (Hw p Hp) as (w & Hpw & Hst).
  assert (w_at w ≤ target)%Z as Ht by (unfold is_due in Hdue; rewrite Hpw, Hst in Hdue; cbn in Hdue; lia).
  exists w. split_and!; [done..|]. intros q Hq. destruct (Hw q Hq) as (w' & Hqw & Hst'). unfold at_of. rewrite Hqw. cbn.
  destruct (Z.le_gt_cases (w_at w') target) as [Hle|]; [|lia].
  assert (q ∈ p :: rest) as Hq'. { apply Hin. split; [done|]. unfold is_due. rewrite Hqw, Hst'. cbn. lia. }
  apply elem_of_cons in Hq' as [->|Hq']; [simplify_eq; lia|]. eapply Forall_forall in Hfirst; [|done].
  cbn in Hfirst. unfold at_of in Hfirst. rewrite Hpw, Hqw in Hfirst. done.
Qed.

Lemma none_due target f p w :
  fake_ok f → dueLocked target f = [] → p ∈ f_waiters f → f_heap f !! p = Some w → (target < w_at w)%Z.
Proof.
  intros (_ & Hw & _) E Hp Hpw. destruct (Hw p Hp) as (w' & Hpw' & Hst). simplify_eq.
  destruct (dueLocked_spec target f) as [Hin _]. destruct (Z.lt_ge_cases target (w_at w)) as [|Hle]; [done|].
  exfalso. apply (elem_of_nil (A := nat) p). rewrite <- E. apply Hin. split; [done|].
  unfold is_due. rewrite Hpw, Hst. cbn. lia.
Qed.

Lemma sum_split (g : nat → nat) p l :
  NoDup l → p ∈ l → sum_list_with g l = g p + sum_list_with g (filter (λ q, q ≠ p) l).
Proof.
  induction 1 as [|q l Hq Hl IH]; intros Hp; [by apply elem_of_nil in Hp|]. rewrite filter_cons.
  case_decide as E; cbn [sum_list_with].
  - apply elem_of_cons in Hp as [->|Hp]; [done|]. rewrite IH by done. lia.
  - assert (q = p) as -> by (destruct (decide (q = p)); [done|tauto]).
    rewrite list_filter_all; [done|]. apply Forall_forall. by intros x Hx ->.
Qed.

Lemma sum_ext (g h : nat → nat) l : (∀ q, q ∈ l → g q = h q) → sum_list_with g l = sum_list_with h l.
Proof.
  induction l as [|q l IH]; intros E; [done|]. cbn [sum_list_with]. rewrite E by left. rewrite IH; [done|].
  intros x Hx. apply E. by right.
Qed.

Lemma budget_fire target p w f :
  fake_ok f → p ∈ f_waiters f → f_heap f !! p = Some w → (w_at w ≤ target)%Z →
  budget target f = S (budget target (fire p w f)).
Proof.
  intros Hok Hp Hpw Ht. pose proof (period_of f p w Hok Hpw) as Hper. pose proof Hok as (Hnd & _).
  assert (∀ g, sum_list_with (λ q, from_option (occasions target) 0 (<[p := g]> (f_heap f) !! q)) (filter (λ q, q ≠ p) (f_waiters f))
     = sum_list_with (λ q, from_option (occasions target) 0 (f_heap f !! q)) (filter (λ q, q ≠ p) (f_waiters f))) as Hrest.
  { intros g. apply sum_ext. intros q [Hne _]%list_elem_of_filter. by rewrite list_lookup_insert_ne. }
  unfold budget, fire. cbn [f_heap f_waiters]. rewrite (sum_split _ p) by done. rewrite Hpw. cbn [from_option].
  destruct (0 <? w_period w)%Z eqn:E.
  - rewrite (sum_split _ p (f_waiters f)) by done. rewrite Hrest, list_lookup_insert_eq by (by eapply lookup_lt_Some).
    cbn [from_option]. rewrite occasions_refired by lia. done.
  - rewrite removeLocked_spec, Hrest by done. unfold occasions. rewrite E, (proj2 (Z.ltb_ge _ _)) by done. done.
Qed.

Definition fires_of (p : nat) (fires : list (nat * Z)) : list Z := snd <$> filter (λ x, x.1 = p) fires.

(** A waiter the clock holds, once time has come to [target]. *)
Definition advanced (target : Z) (w : waiter) : waiter :=
  mkWaiter (w_at w + Z.of_nat (occasions target w) * w_period w)
    (match w_ch w with Some t => Some t | None => head (times target w) end) (w_period w) (w_stopped w).

Lemma advanced_fired target w ch :
  (0 < w_period w)%Z → (w_at w ≤ target)%Z → ch = match w_ch w with Some t => Some t | None => Some (w_at w) end →
  advanced target (mkWaiter (w_at w + w_period w) ch (w_period w) (w_stopped w)) = advanced target w.
Proof.
  intros Hp Ht ->. unfold advanced. cbn [w_at w_ch w_period w_stopped].
  rewrite (occasions_refired target w), (times_refired target w) by done. f_equal.
  - change (occasions target (mkWaiter _ _ _ _)) with (occasions target (refired w)). lia.
  - by destruct (w_ch w).
Qed.

(** What advancing to [target] comes to, for the fires and for every waiter. *)
Record advances (target : Z) (f : Fake) (fires : list (nat * Z)) (f' : Fake) : Prop := {
  adv_ok : fake_ok f';
  adv_now : f_now f' = target;
  adv_order : StronglySorted (λ x y, x.2 ≤ y.2)%Z fires;
  adv_from lo : (∀ q, q ∈ f_waiters f → lo ≤ at_of f q)%Z → Forall (λ x, lo ≤ x.2)%Z fires;
  adv_held p w : p ∈ f_waiters f → f_heap f !! p = Some w →
    fires_of p fires = times target w ∧ f_heap f' !! p = Some (advanced target w) ∧
    (p ∈ f_waiters f' ↔ (0 < w_period w ∨ target < w_at w)%Z);
  adv_others p : p ∉ f_waiters f →
    fires_of p fires = [] ∧ f_heap f' !! p = f_heap f !! p ∧ p ∉ f_waiters f'
}.

Lemma advances_nothing target f :
  fake_ok f → dueLocked target f = [] → advances target f [] (mkFake target (f_heap f) (f_waiters f)).
Proof.
  intros Hok E. split; cbn; [done|done|constructor|constructor| |done].
  intros p w Hp Hpw. pose proof (none_due target f p w Hok E Hp Hpw) as Hlt.
  rewrite (times_0 target w) by done. split_and!; [done| |naive_solver].
  rewrite Hpw. unfold advanced. rewrite (times_0 target w), (proj2 (occasions_0 target w)) by done.
  rewrite Z.mul_0_l, Z.add_0_r. f_equal. destruct w as [? [] ? ?]; done.
Qed.

Lemma fires_of_cons p q t fires :
  fires_of p ((q, t) :: fires) = if decide (q = p) then t :: fires_of p fires else fires_of p fires.
Proof. unfold fires_of. rewrite filter_cons. cbn. by case_decide. Qed.

Lemma fire_at_of p w f q :
  (0 ≤ w_period w)%Z → f_heap f !! p = Some w → (∀ q, q ∈ f_waiters f → w_at w ≤ at_of f q)%Z →
  q ∈ f_waiters (fire p w f) → q ∈ f_waiters f → (w_at w ≤ at_of (fire p w f) q)%Z.
Proof.
  intros Hper Hpw Hmin Hq Hq'. unfold at_of, fire. cbn [f_heap]. destruct (decide (q = p)) as [->|Hne].
  - rewrite list_lookup_insert_eq by (by eapply lookup_lt_Some). cbn. case_match; lia.
  - rewrite list_lookup_insert_ne by done. by apply Hmin.
Qed.

Lemma fire_waiters p w f q :
  fake_ok f → f_heap f !! p = Some w → p ∈ f_waiters f →
  q ∈ f_waiters (fire p w f) ↔ q ∈ f_waiters f ∧ (q = p → (0 < w_period w)%Z).
Proof.
  intros Hok Hpw Hp. destruct (removed_waiters f p Hok) as (_ & Hp' & Hq'). unfold fire. cbn [f_waiters].
  destruct (Z.ltb_spec 0 (w_period w)); [naive_solver|]. destruct (decide (q = p)) as [->|Hne].
  - split; [done|]. intros [_ Hlt]. specialize (Hlt eq_refl). lia.
  - rewrite Hq' by done. naive_solver.
Qed.

Lemma advances_fire target f p w fires f' :
  fake_ok f → p ∈ f_waiters f → f_heap f !! p = Some w → (w_at w ≤ target)%Z →
  (∀ q, q ∈ f_waiters f → w_at w ≤ at_of f q)%Z →
  advances target (fire p w f) fires f' → advances target f ((p, w_at w) :: fires) f'.
Proof.
  intros Hok Hp Hpw Ht Hmin [Hok' Hnow Hsort Hfrom Hheld Hothers].
  pose proof (period_of f p w Hok Hpw) as Hper.
  assert (∀ q, q ∈ f_waiters (fire p w f) → w_at w ≤ at_of (fire p w f) q)%Z as Hmin'.
  { intros q Hq. apply fire_at_of; try done. by apply fire_waiters in Hq as [? _]. }
  assert (p < length (f_heap f)) as Hlt by (by eapply lookup_lt_Some).
  split; [done|done|constructor; [done|by apply Hfrom]| | |].
  - intros lo Hlo. assert (lo ≤ w_at w)%Z by (specialize (Hlo p Hp); unfold at_of in Hlo; by rewrite Hpw in Hlo).
    constructor; [done|]. eapply Forall_impl; [by apply Hfrom|]. cbn. lia.
  - intros q w' Hq Hqw. rewrite fires_of_cons. destruct (decide (p = q)) as [<-|Hne].
    + assert (w' = w) as -> by congruence. destruct (Z.ltb_spec 0 (w_period w)) as [Hpos|Hzero].
      * destruct (Hheld p (mkWaiter (w_at w + w_period w) (match w_ch w with Some t => Some t | None => Some (w_at w) end)
          (w_period w) (w_stopped w))) as (E1 & E2 & E3).
        { by apply fire_waiters. }
        { unfold fire. cbn [f_heap]. rewrite list_lookup_insert_eq by done. by rewrite (proj2 (Z.ltb_lt _ _)). }
        rewrite E1, E2, E3. cbn. rewrite (times_refired target w), (advanced_fired target w) by done.
        split_and!; [done|done|naive_solver].
      * destruct (Hothers p) as (E1 & E2 & E3).
        { intros Hc%fire_waiters; try done. destruct Hc as [_ Hc]. specialize (Hc eq_refl). lia. }
        rewrite E1, E2. unfold fire. cbn [f_heap]. rewrite list_lookup_insert_eq, (proj2 (Z.ltb_ge _ _)) by done.
        rewrite (times_once target w) by lia. split_and!; [done| |split; [done|lia]].
        unfold advanced. rewrite (times_once target w) by lia. replace (w_period w) with 0%Z by lia.
        by rewrite Z.mul_0_r, Z.add_0_r.
    + destruct (Hheld q w') as (E1 & E2 & E3); [by apply fire_waiters|by cbn; rewrite list_lookup_insert_ne|]. done.
  - intros q Hq. rewrite fires_of_cons. rewrite decide_False by (intros ->; done).
    destruct (Hothers q) as (E1 & E2 & E3); [by intros [? _]%fire_waiters|].
    split_and!; [done| |done]. rewrite E2. cbn. rewrite list_lookup_insert_ne; [done|]. by intros ->.
Qed.

Lemma advance_loop_spec fuel target f :
  fake_ok f → budget target f < fuel → ∃ fires f', advance_loop fuel target f = Ret (fires, f') ∧ advances target f fires f'.
Proof.
  revert f. induction fuel as [|fuel IH]; intros f Hok Hb; [lia|]. cbn.
  destruct (dueLocked target f) as [|p rest] eqn:E.
  { eexists _, _. split; [done|]. by apply advances_nothing. }
  destruct (due_first target f p rest Hok E) as (w & Hpw & Hp & Ht & Hmin). rewrite Hpw.
  rewrite (budget_fire target p w f) in Hb by done.
  destruct (IH (fire p w f)) as (fires & f' & -> & Hadv); [by apply fire_ok|lia|].
  eexists _, _. split; [done|]. by apply advances_fire.
Qed.

(** *** In a test *)

(** What a test can have done with the clock so far. *)
Inductive used : Fake → Prop :=
  | used_new start : used (NewFake start)
  | used_timer d f : used f → used (snd (NewTimer d f))
  | used_ticker d f : used f → used (snd (NewTicker d f))
  | used_stop p f : used f → used (snd (stop p f))
  | used_reset p d f : used f → used (snd (reset p d f))
  | used_receive p f : used f → used (snd (receive p f))
  | used_advance d f fires f' : used f → Advance d f = Ret (fires, f') → used f'.

Lemma receive_ok p f : fake_ok f → fake_ok (snd (receive p f)).
Proof.
  intros Hok. unfold receive. destruct (f_heap f !! p) as [w|] eqn:Hpw; [|done].
  pose proof (period_of f p w Hok Hpw) as Hper. destruct Hok as (Hnd & Hw & Hall).
  apply heap_insert_ok; cbn; [done|done|done|by eapply lookup_lt_Some| |by auto].
  intros Hp. destruct (Hw p Hp) as (w' & ? & ?). by simplify_eq.
Qed.

Lemma Advance_spec d f :
  fake_ok f → ∃ fires f', Advance d f = Ret (fires, f') ∧ advances (f_now f + d) f fires f'.
Proof. intros Hok. apply advance_loop_spec; [done|lia]. Qed.

Lemma used_ok f : used f → fake_ok f.
Proof.
  induction 1 as [start|d f _ IH|d f _ IH|p f _ IH|p d f _ IH|p f _ IH|d f fires f' _ IH E].
  - split_and!; cbn; [constructor|by intros p ?%elem_of_nil|constructor].
  - by apply add_ok.
  - unfold NewTicker. destruct (d <=? 0)%Z eqn:E; [done|]. apply (add_ok d d); [lia|done].
  - by apply stop_ok.
  - by apply reset_ok.
  - by apply receive_ok.
  - destruct (Advance_spec d f IH) as (fires1 & f1 & E1 & Hadv). rewrite E1 in E. simplify_eq. apply Hadv.
Qed.

(** C33: Whatever a test did with the clock before, advancing it comes to an end, at the
    instant asked for; what fires does so in time order; every timer and ticker the clock
    holds fires at exactly the instants it was set for, and leaves on its channel the
    first of them, or what nobody had collected yet. *)
Theorem Advance_fires_in_order d f :
  used f → ∃ fires f', Advance d f = Ret (fires, f') ∧ advances (f_now f + d) f fires f'.
Proof. intros Hu. by apply Advance_spec, used_ok. Qed.

Module ClockExample.
Definition second : Z := 1000000000.
Definition clock : Fake :=
  snd (NewTimer (2 * second) (snd (NewTicker second (NewFake 0)))).
End ClockExample.

Lemma Advance_fires_in_order_witness :
  ∃ fires f', Advance (3 * ClockExample.second) ClockExample.clock = Ret (fires, f') ∧
    fires.*1 = [0; 0; 1; 0] ∧
    advances (f_now ClockExample.clock + 3 * ClockExample.second) ClockExample.clock fires f'.
Proof.
  destruct (Advance_fires_in_order (3 * ClockExample.second) ClockExample.clock) as (fires & f' & E & Hadv).
  { apply used_timer, used_ticker, used_new. }
  exists fires, f'. split_and!; [done| |done].
  revert E. vm_compute. by intros [= <- _].
Defined.

(** A timer that has fired is gone for good.  The clock forgets it without marking it as
    stopped: [Stop] reports that it had not fired, and [Reset] believes it is still
    held, so that it never fires again however far the clock is advanced. *)
Theorem fired_timer_never_fires_again d f :
  used f → (0 ≤ d)%Z →
  let '(p, f1) := NewTimer d f in
  ∃ fires f2, Advance d f1 = Ret (fires, f2) ∧ fires_of p fires = [f_now f + d]%Z ∧
    fst (stop p f2) = Ret true ∧
    ∀ d1 d2, fst (reset p d1 f2) = Ret true ∧
      ∃ fires' f3, Advance d2 (snd (reset p d1 f2)) = Ret (fires', f3) ∧ fires_of p fires' = [].
Proof.
  intros Hu Hd. unfold NewTimer, add. set (p := length (f_heap f)). set (f1 := mkFake _ _ _).
  assert (fake_ok f1) as Hok1 by (apply (add_ok d 0); [lia|by apply used_ok]).
  destruct (Advance_spec d f1 Hok1) as (fires & f2 & E & Hadv). exists fires, f2.
  destruct (adv_held _ _ _ _ Hadv p (mkWaiter (f_now f + d) None 0 false)) as (E1 & E2 & E3).
  { subst f1. cbn. apply elem_of_app. right. by left. }
  { subst f1. cbn. by apply list_lookup_middle. }
  cbn in E3. assert (p ∉ f_waiters f2) as Hp by (rewrite E3; lia). cbn in E1.
  split_and!; [done|rewrite E1; by apply times_once| |].
  - unfold stop. by rewrite E2.
  - intros d1 d2. unfold reset. rewrite E2. cbn. split; [done|].
    destruct (Advance_spec d2 (snd (reset p d1 f2)) (reset_ok p d1 f2 (adv_ok _ _ _ _ Hadv))) as (fires' & f3 & E' & Hadv').
    exists fires', f3. unfold reset in *. rewrite E2 in *. cbn in *. split; [done|].
    by apply (adv_others _ _ _ _ Hadv').
Qed.

Lemma fired_timer_never_fires_again_witness :
  let '(p, f1) := NewTimer 5 (NewFake 0) in
  ∃ fires f2, Advance 5 f1 = Ret (fires, f2) ∧ fires_of p fires = [f_now (NewFake 0) + 5]%Z ∧
    fst (stop p f2) = Ret true ∧
    ∀ d1 d2, fst (reset p d1 f2) = Ret true ∧
      ∃ fires' f3, Advance d2 (snd (reset p d1 f2)) = Ret (fires', f3) ∧ fires_of p fires' = [].
Proof. apply (fired_timer_never_fires_again 5 (NewFake 0)); [apply used_new|lia]. Defined.
