(* ===== verification/Transport.v ===== *)
(** * The transport

    [transport/grpc.go].  [Inbox] is the receiving server as its goroutines interleave:
    any number of stream handlers, each a sequence of steps around the read lock, and
    [shutdown] around the write lock.  It is shown never to send on the closed channel,
    and to behave as if [deliver] and [shutdown] were single steps.

    The rest takes them as such and models the transports of a whole cluster: the bounded
    outbox of every peer, the streams [pump] opens and loses, and the inboxes they end in.
    gRPC itself is not modelled: [AWire] lets it do anything to what is in flight on a
    stream, and [net_act_ok] states what is relied on, as its documentation has it: that
    messages may be lost, when the stream breaks, but are neither reordered nor repeated. *)

From S2P Require Import Prelude Varint Types Config RawNode Codec.

(** ** The inbox *)

Module Inbox.

(** Where a handler is in [deliver], and in [shutdown]. *)
Inductive thread :=
  | DStart (m : Message)       (* s.mu.RLock() *)
  | DCheck (m : Message)       (* if s.closed *)
  | DSelect (m : Message)      (* select { case s.inbox <- m: default: } *)
  | DUnlock                    (* s.mu.RUnlock() *)
  | CStart                     (* s.mu.Lock() *)
  | CCheck                     (* if !s.closed *)
  | CSet                       (* s.closed = true *)
  | CClose                     (* close(s.inbox) *)
  | CUnlock                    (* s.mu.Unlock() *)
  | TDone.

Record server := mkServer {
  sv_size : nat;
  sv_inbox : list Message;
  sv_inboxClosed : bool;
  sv_closed : bool;
  sv_readers : nat;
  sv_writer : bool
}.

Definition newServer (size : nat) : server := mkServer size [] false false 0 false.

Definition set_inbox (q : list Message) (s : server) : server :=
  mkServer (sv_size s) q (sv_inboxClosed s) (sv_closed s) (sv_readers s) (sv_writer s).
Definition set_lock (readers : nat) (writer : bool) (s : server) : server :=
  mkServer (sv_size s) (sv_inbox s) (sv_inboxClosed s) (sv_closed s) readers writer.
Definition set_closed (s : server) : server :=
  mkServer (sv_size s) (sv_inbox s) (sv_inboxClosed s) true (sv_readers s) (sv_writer s).
Definition close_inbox (s : server) : server :=
  mkServer (sv_size s) (sv_inbox s) true (sv_closed s) (sv_readers s) (sv_writer s).

(** One step of one goroutine; [None] when it has to wait or has returned.  A send on a
    closed channel panics, and so does closing it again. *)
Definition advance (t : thread) (s : server) : option (outcome (thread * server)) :=
  match t with
  | DStart m => if sv_writer s then None else Some (Ret (DCheck m, set_lock (S (sv_readers s)) false s))
  | DCheck m => Some (Ret (if sv_closed s then DUnlock else DSelect m, s))
  | DSelect m =>
      if sv_inboxClosed s then Some (Panic "send on closed channel")
      else if length (sv_inbox s) <? sv_size s
      then Some (Ret (DUnlock, set_inbox (sv_inbox s ++ [m]) s))
      else Some (Ret (DUnlock, s))
  | DUnlock => Some (Ret (TDone, set_lock (pred (sv_readers s)) (sv_writer s) s))
  | CStart => if sv_writer s || negb (sv_readers s =? 0) then None else Some (Ret (CCheck, set_lock 0 true s))
  | CCheck => Some (Ret (if sv_closed s then CUnlock else CSet, s))
  | CSet => Some (Ret (CClose, set_closed s))
  | CClose => if sv_inboxClosed s then Some (Panic "close of closed channel") else Some (Ret (CUnlock, close_inbox s))
  | CUnlock => Some (Ret (TDone, set_lock (sv_readers s) false s))
  | TDone => None
  end.

(** The goroutines of a server. *)
Record st := mkSt { st_server : server; st_threads : list thread; st_panicked : bool }.

Definition entry (t : thread) : Prop := match t with DStart _ | CStart => True | _ => False end.

Inductive call := CDeliver (m : Message) | CShutdown.

(** What can be seen of a run: calls that begin and return, and messages received.  [Act]
    is the instant at which a call takes effect. *)
Inductive event :=
  | Inv (i : nat) (c : call)
  | Act (i : nat) (c : call)
  | Fin (i : nat)
  | Got (m : Message).

Definition call_of (t : thread) : call := match t with DStart m => CDeliver m | _ => CShutdown end.
Definition returned (i : nat) (t : thread) : list event := match t with TDone => [Fin i] | _ => [] end.

Inductive step : st → list event → st → Prop :=
  | step_spawn s ts t : entry t → step (mkSt s ts false) [Inv (length ts) (call_of t)] (mkSt s (ts ++ [t]) false)
  | step_thread s ts i t t' s' :
      ts !! i = Some t → advance t s = Some (Ret (t', s')) →
      step (mkSt s ts false) (returned i t') (mkSt s' (<[i := t']> ts) false)
  | step_panic s ts i t msg :
      ts !! i = Some t → advance t s = Some (Panic msg) → step (mkSt s ts false) [] (mkSt s ts true)
  | step_receive s ts m q :
      sv_inbox s = m :: q → step (mkSt s ts false) [Got m] (mkSt (set_inbox q s) ts false).

(** A run, with what was seen of it. *)
Inductive runs (x : st) : list event → st → Prop :=
  | runs_none : runs x [] x
  | runs_more h y e z : runs x h y → step y e z → runs x (h ++ e) z.

(** What the two calls promise: each is one step. *)
Record spec := mkSpec { sp_size : nat; sp_inbox : list Message; sp_closed : bool }.

Definition deliver (m : Message) (a : spec) : spec :=
  if sp_closed a then a
  else if length (sp_inbox a) <? sp_size a then mkSpec (sp_size a) (sp_inbox a ++ [m]) false
  else a.

Definition shutdown (a : spec) : spec := mkSpec (sp_size a) (sp_inbox a) true.

Definition take_effect (c : call) (a : spec) : spec :=
  match c with CDeliver m => deliver m a | CShutdown => shutdown a end.

(** What the instants of a history, and the messages received, make of the inbox. *)
Fixpoint legal (a : spec) (h : list event) : option spec :=
  match h with
  | [] => Some a
  | Act _ c :: h' => legal (take_effect c a) h'
  | Got m :: h' =>
      match sp_inbox a with
      | m' :: q => if bool_decide (m' = m) then legal (mkSpec (sp_size a) q (sp_closed a)) h' else None
      | [] => None
      end
  | _ :: h' => legal a h'
  end.

(** The history as it is seen, and the part of one call. *)
Definition seen (e : event) : Prop := match e with Act _ _ => False | _ => True end.
Definition of_call (i : nat) (e : event) : Prop :=
  match e with Inv j _ | Act j _ | Fin j => j = i | Got _ => False end.
#[global] Instance seen_dec e : Decision (seen e).
Proof. destruct e; cbn; apply _. Defined.
#[global] Instance of_call_dec i e : Decision (of_call i e).
Proof. destruct e; cbn; apply _. Defined.

(** The server is closed from the moment the flag is set. *)
Definition abstract (x : st) : spec :=
  mkSpec (sv_size (st_server x)) (sv_inbox (st_server x)) (sv_closed (st_server x)).

(** *** The invariant *)

Definition reads (t : thread) : nat := match t with DCheck _ | DSelect _ | DUnlock => 1 | _ => 0 end.
Definition writes (t : thread) : nat := match t with CCheck | CSet | CClose | CUnlock => 1 | _ => 0 end.

(** The lock counts its holders, and excludes readers from a writer; between the check of
    the flag and the use of the channel, the flag is what it was; the channel is closed
    exactly when the flag is set, but for the one step that closes it. *)
Definition inv (x : st) : Prop :=
  let s := st_server x in let ts := st_threads x in
  st_panicked x = false ∧
  sv_readers s = sum_list_with reads ts ∧
  (if sv_writer s then 1 else 0) = sum_list_with writes ts ∧
  (sv_writer s = true → sv_readers s = 0) ∧
  (∀ m, DSelect m ∈ ts → sv_closed s = false) ∧
  (CSet ∈ ts → sv_closed s = false) ∧
  (sv_closed s = false → sv_inboxClosed s = false) ∧
  (CClose ∈ ts → sv_closed s = true ∧ sv_inboxClosed s = false) ∧
  length (sv_inbox s) ≤ sv_size s.

Lemma sum_in (g : thread → nat) ts t : t ∈ ts → g t ≤ sum_list_with g ts.
Proof. induction 1; cbn [sum_list_with]; lia. Qed.

Lemma in_insert (ts : list thread) i t t0 : t0 ∈ <[i := t]> ts → t0 = t ∨ t0 ∈ ts.
Proof.
  intros (j & Hj)%list_elem_of_lookup. destruct (decide (i = j)) as [<-|].
  - destruct (decide (i < length ts)); [rewrite list_lookup_insert_eq in Hj by done; simplify_eq; by left|].
    rewrite list_insert_ge in Hj by lia. right. by eapply list_elem_of_lookup_2.
  - rewrite list_lookup_insert_ne in Hj by done. right. by eapply list_elem_of_lookup_2.
Qed.

(** Nobody else holds the lock that [t] holds for writing; no writer holds it while [t]
    reads. *)
Lemma alone x i t t' :
  inv x → st_threads x !! i = Some t → writes t = 1 → t' ∈ <[i := TDone]> (st_threads x) → reads t' = 0 ∧ writes t' = 0.
Proof.
  intros (_ & Hr & Hw & Hex & _) Hi Ht Hin.
  pose proof (sum_insert reads _ _ _ TDone Hi) as Er. pose proof (sum_insert writes _ _ _ TDone Hi) as Ew.
  pose proof (sum_in reads _ _ Hin). pose proof (sum_in writes _ _ Hin). cbn in *.
  assert (sv_writer (st_server x) = true) as Hwt by (destruct (sv_writer (st_server x)); [done|lia]).
  rewrite Hwt in *. specialize (Hex eq_refl). lia.
Qed.

Lemma in_others (ts : list thread) i t t' t0 : ts !! i = Some t → t0 ∈ <[i := t']> ts → t0 = t' ∨ t0 ∈ <[i := TDone]> ts.
Proof.
  intros Hi (j & Hj)%list_elem_of_lookup. destruct (decide (i = j)) as [<-|].
  - rewrite list_lookup_insert_eq in Hj by (by eapply lookup_lt_Some). simplify_eq. by left.
  - right. rewrite list_lookup_insert_ne in Hj by done. apply list_elem_of_lookup. exists j.
    by rewrite list_lookup_insert_ne.
Qed.

Lemma reading_unlocked x t : inv x → t ∈ st_threads x → reads t = 1 → sv_writer (st_server x) = false.
Proof.
  intros (_ & Hr & _ & Hex & _) Hin Ht. pose proof (sum_in reads _ _ Hin).
  destruct (sv_writer (st_server x)); [|done]. specialize (Hex eq_refl). lia.
Qed.

Ltac others Hi :=
  match goal with
  | H : ?t0 ∈ <[_ := ?t']> _ |- _ => apply (in_others _ _ _ _ _ Hi) in H as [H|H]; [try done|]
  end.

(** A step that neither sets the flag nor closes the channel. *)
Lemma inv_step x i t t' s' :
  inv x → st_threads x !! i = Some t →
  sv_closed s' = sv_closed (st_server x) → sv_inboxClosed s' = sv_inboxClosed (st_server x) →
  sv_size s' = sv_size (st_server x) → length (sv_inbox s') ≤ sv_size s' →
  sv_readers s' + reads t = sv_readers (st_server x) + reads t' →
  (if sv_writer s' then 1 else 0) + writes t = (if sv_writer (st_server x) then 1 else 0) + writes t' →
  (sv_writer s' = true → sv_readers s' = 0) →
  (∀ m, t' = DSelect m → sv_closed s' = false) → (t' = CSet → sv_closed s' = false) → t' ≠ CClose →
  inv (mkSt s' (<[i := t']> (st_threads x)) false).
Proof.
  intros Hinv Hi Ecl Eic Esz Hlen Er Ew Hex HD HS HC. pose proof Hinv as (_ & Hr & Hw & _ & Hsel & Hset & Hco & Hcl & _).
  pose proof (sum_insert reads _ _ _ t' Hi). pose proof (sum_insert writes _ _ _ t' Hi).
  unfold inv; cbn [st_server st_threads st_panicked].
  split; [done|]. split; [lia|]. split; [lia|]. split; [done|]. split; [|split; [|split; [|split; [|done]]]].
  - intros m [Hm|Hm]%in_insert; [by eapply HD|]. rewrite Ecl. by eapply Hsel.
  - intros [Hm|Hm]%in_insert; [by apply HS|]. rewrite Ecl. by apply Hset.
  - by rewrite Ecl, Eic.
  - intros [Hm|Hm]%in_insert; [done|]. rewrite Ecl, Eic. by apply Hcl.
Qed.

Ltac tidy := cbn; rewrite ?length_app; cbn; try done; repeat case_match; try done; try lia.

Lemma inv_thread x i t t' s' :
  inv x → st_threads x !! i = Some t → advance t (st_server x) = Some (Ret (t', s')) →
  inv (mkSt s' (<[i := t']> (st_threads x)) false).
Proof.
  intros Hinv Hi E. pose proof (list_elem_of_lookup_2 _ _ _ Hi) as Hin.
  pose proof Hinv as (_ & Hr & Hw & Hex & Hsel & Hset & Hco & Hcl & Hlen).
  pose proof (sum_in reads _ _ Hin) as Hone. pose proof (reading_unlocked x t Hinv Hin) as Hrd.
  destruct t; cbn [advance] in E; simplify_eq.
  - destruct (sv_writer (st_server x)) eqn:Ewr; [done|]. simplify_eq. apply (inv_step _ _ _ _ _ Hinv Hi); tidy.
  - destruct (sv_closed (st_server x)) eqn:Ecl; apply (inv_step _ _ _ _ _ Hinv Hi); tidy.
  - destruct (sv_inboxClosed (st_server x)); [done|].
    destruct (Nat.ltb_spec (length (sv_inbox (st_server x))) (sv_size (st_server x))); simplify_eq;
      apply (inv_step _ _ _ _ _ Hinv Hi); tidy.
  - rewrite Hrd by done. cbn in Hone. apply (inv_step _ _ _ _ _ Hinv Hi); tidy.
  - destruct (sv_writer (st_server x)) eqn:Ewr; [done|].
    destruct (Nat.eqb_spec (sv_readers (st_server x)) 0); [|done]. cbn in E. simplify_eq.
    apply (inv_step _ _ _ _ _ Hinv Hi); tidy.
  - destruct (sv_closed (st_server x)) eqn:Ecl; apply (inv_step _ _ _ _ _ Hinv Hi); tidy.
  - pose proof (sum_insert reads _ _ _ CClose Hi). pose proof (sum_insert writes _ _ _ CClose Hi). cbn in *.
    unfold inv; cbn. split; [done|]. split; [lia|]. split; [lia|]. split; [done|]. split; [|split; [|split; [|split; [|done]]]]; try done.
    + intros m Hm. others Hi. by destruct (alone _ _ _ _ Hinv Hi eq_refl Hm).
    + intros Hm. others Hi. by destruct (alone _ _ _ _ Hinv Hi eq_refl Hm).
    + intros _. auto.
  - destruct (sv_inboxClosed (st_server x)) eqn:Eic; [done|]. simplify_eq.
    pose proof (sum_insert reads _ _ _ CUnlock Hi). pose proof (sum_insert writes _ _ _ CUnlock Hi). cbn in *.
    destruct (Hcl Hin) as [Hc1 _].
    unfold inv; cbn. split; [done|]. split; [lia|]. split; [lia|]. split; [done|]. split; [|split; [|split; [|split; [|done]]]].
    + intros m Hm. others Hi. by destruct (alone _ _ _ _ Hinv Hi eq_refl Hm).
    + intros Hm. others Hi. by destruct (alone _ _ _ _ Hinv Hi eq_refl Hm).
    + congruence.
    + intros Hm. others Hi. by destruct (alone _ _ _ _ Hinv Hi eq_refl Hm).
  - pose proof (sum_in writes _ _ Hin) as Hwone. cbn in Hwone.
    apply (inv_step _ _ _ _ _ Hinv Hi); tidy.
Qed.

Lemma no_panic x i t msg :
  inv x → st_threads x !! i = Some t → advance t (st_server x) ≠ Some (Panic msg).
Proof.
  intros (_ & _ & _ & _ & Hsel & _ & Hco & Hcl & _) Hi%list_elem_of_lookup_2 E.
  destruct t; cbn in E; repeat case_match; try done.
  - specialize (Hco (Hsel _ Hi)). congruence.
  - destruct (Hcl Hi). congruence.
Qed.

Lemma sum_app_entry (g : thread → nat) ts t : g t = 0 → sum_list_with g (ts ++ [t]) = sum_list_with g ts.
Proof. intros E. rewrite sum_list_with_app. cbn. lia. Qed.

Lemma inv_preserved x e x' : step x e x' → inv x → inv x'.
Proof.
  destruct 1 as [s ts t Ht|s ts i t t' s' Hi E|s ts i t msg Hi E|s ts m q E]; intros Hinv.
  - destruct Hinv as (_ & Hr & Hw & Hex & Hsel & Hset & Hco & Hcl & Hlen). unfold inv; cbn in *.
    assert (∀ t0, t0 ∈ ts ++ [t] → t0 ∈ ts ∨ entry t0) as Hin.
    { intros t0 [?|Ht0%list_elem_of_singleton]%elem_of_app; [by left|]. subst t0. by right. }
    split; [done|]. rewrite !sum_app_entry by (by destruct t).
    split; [done|]. split; [done|]. split; [done|]. split; [|split; [|split; [done|split; [|done]]]].
    + intros m [?|?]%Hin; [by eapply Hsel|done].
    + intros [?|?]%Hin; [by apply Hset|done].
    + intros [?|?]%Hin; [by apply Hcl|done].
  - by apply (inv_thread _ _ _ _ _ Hinv Hi).
  - by apply (no_panic _ _ _ msg Hinv Hi) in E.
  - destruct Hinv as (_ & Hr & Hw & Hex & Hsel & Hset & Hco & Hcl & Hlen). unfold inv; cbn in *.
    rewrite E in Hlen. cbn in Hlen. split_and!; try done; lia.
Qed.

Definition start (size : nat) : st := mkSt (newServer size) [] false.

Lemma runs_inv size h x : runs (start size) h x → inv x.
Proof.
  induction 1 as [|h y e z _ IH Hs]; [|by eapply inv_preserved].
  unfold inv; cbn. split_and!; try done; try lia; by intros ?%elem_of_nil || (by intros ? ?%elem_of_nil).
Qed.

Lemma runs_size size h x : runs (start size) h x → sv_size (st_server x) = size.
Proof.
  induction 1 as [|h y e z _ IH Hs]; [done|]. rewrite <- IH. destruct Hs as [| s ts i t t' s' Hi E| |]; cbn; try done.
  destruct t; cbn in E; repeat case_match; by simplify_eq.
Qed.

(** *** Linearization *)

(** What a call has done when it is at [t]: it takes effect when it finds the server
    closed, or at the [select], or when it sets the flag. *)
Definition done_by (i : nat) (t : thread) (l : list event) : Prop :=
  match t with
  | DStart m | DCheck m | DSelect m => l = [Inv i (CDeliver m)]
  | DUnlock => ∃ m, l = [Inv i (CDeliver m); Act i (CDeliver m)]
  | CStart | CCheck | CSet => l = [Inv i CShutdown]
  | CClose | CUnlock => l = [Inv i CShutdown; Act i CShutdown]
  | TDone => ∃ c, l = [Inv i c; Act i c; Fin i]
  end.

(** The instants of a step. *)
Definition instants (i : nat) (t t' : thread) : list event :=
  match t, t' with
  | (DCheck m | DSelect m), DUnlock => [Act i (CDeliver m)]
  | CCheck, CUnlock | CSet, _ => [Act i CShutdown]
  | _, _ => []
  end.

Lemma legal_app a h h' : legal a (h ++ h') = legal a h ≫= λ a', legal a' h'.
Proof.
  revert a. induction h as [|[]]; intros a; cbn; auto. destruct (sp_inbox a); [done|]. by case_bool_decide.
Qed.

(** Each step does to the inbox what its instant does. *)
Lemma thread_takes_effect x i t t' s' :
  inv x → st_threads x !! i = Some t → advance t (st_server x) = Some (Ret (t', s')) →
  legal (abstract x) (instants i t t' ++ returned i t') = Some (abstract (mkSt s' (<[i := t']> (st_threads x)) false)).
Proof.
  intros Hinv Hi E. pose proof (list_elem_of_lookup_2 _ _ _ Hi) as Hin. destruct Hinv as (_ & _ & _ & _ & Hsel & Hset & _).
  assert (∀ m, t = DSelect m → sv_closed (st_server x) = false) as Hsel' by (intros m ->; by eapply Hsel).
  destruct t; cbn [advance] in E; repeat case_match; simplify_eq; cbn; try done;
    unfold deliver, shutdown, abstract in *; cbn in *.
  all: try rewrite (Hsel' m eq_refl) in *; repeat case_match; try congruence; by f_equal.
Qed.

Lemma thread_done_by i t t' s s' l :
  advance t s = Some (Ret (t', s')) → done_by i t l → done_by i t' (l ++ instants i t t' ++ returned i t').
Proof. intros E. destruct t; cbn in E; repeat case_match; simplify_eq; cbn; naive_solver. Qed.

Lemma of_call_own i t t' : filter (of_call i) (instants i t t' ++ returned i t') = instants i t t' ++ returned i t'.
Proof. destruct t, t'; cbn; by rewrite ?decide_True. Qed.
Lemma of_call_other i j t t' : i ≠ j → filter (of_call i) (instants j t t' ++ returned j t') = [].
Proof. intros Hne. destruct t, t'; cbn; rewrite ?decide_False by congruence; done. Qed.
Lemma seen_instants i t t' : filter seen (instants i t t' ++ returned i t') = returned i t'.
Proof. destruct t, t'; done. Qed.

(** The history of a run can be completed by the instants of its calls. *)
Definition linearizes (size : nat) (h : list event) (x : st) (H : list event) : Prop :=
  filter seen H = h ∧ legal (mkSpec size [] false) H = Some (abstract x) ∧
  (∀ i t, st_threads x !! i = Some t → done_by i t (filter (of_call i) H)) ∧
  (∀ i, length (st_threads x) ≤ i → filter (of_call i) H = []).

Lemma step_linearizes size h x H e x' :
  inv x → step x e x' → linearizes size h x H → ∃ H', linearizes size (h ++ e) x' (H ++ H').
Proof.
  intros Hinv Hs (Hh & Hl & Hd & Hnone). destruct Hs as [s ts t Ht|s ts i t t' s' Hi E|s ts i t msg Hi E|s ts m q E].
  - exists [Inv (length ts) (call_of t)]. split_and!; cbn [st_threads st_server] in *.
    + by rewrite filter_app, Hh.
    + by rewrite legal_app, Hl.
    + intros i t0. rewrite filter_app. intros [Hi|[? Ht0]]%lookup_app_Some.
      * cbn. rewrite decide_False by (apply lookup_lt_Some in Hi; lia). rewrite app_nil_r. by apply Hd.
      * rewrite Hnone by done. apply list_lookup_singleton_Some in Ht0 as [Ei <-].
        assert (i = length ts) as -> by lia. cbn. rewrite decide_True by done. by destruct t.
    + intros i. rewrite length_app. cbn. intros Hi. rewrite filter_app, Hnone by lia. cbn. by rewrite decide_False by lia.
  - exists (instants i t t' ++ returned i t'). cbn [st_threads st_server] in *. split_and!.
    + by rewrite filter_app, Hh, seen_instants.
    + rewrite legal_app, Hl. cbn [mbind option_bind]. by apply (thread_takes_effect (mkSt s ts false)).
    + intros j t0 Hj. rewrite filter_app. destruct (decide (j = i)) as [->|Hne].
      * cbn in Hj. rewrite list_lookup_insert_eq in Hj by (by eapply lookup_lt_Some). injection Hj as <-.
        rewrite of_call_own. eapply thread_done_by; [done|]. by apply Hd.
      * cbn in Hj. rewrite list_lookup_insert_ne in Hj by done. rewrite of_call_other, app_nil_r by done. by apply Hd.
    + intros j. cbn. rewrite length_insert. intros Hj. rewrite filter_app, Hnone by done.
      apply of_call_other. apply lookup_lt_Some in Hi. lia.
  - by apply (no_panic _ _ _ msg Hinv Hi) in E.
  - exists [Got m]. split_and!; cbn [st_threads st_server] in *.
    + by rewrite filter_app, Hh.
    + rewrite legal_app, Hl. cbn. rewrite E. by rewrite bool_decide_true.
    + intros i t0 Hi. rewrite filter_app, app_nil_r. by apply Hd.
    + intros i Hi. rewrite filter_app, app_nil_r. by apply Hnone.
Qed.

Lemma runs_linearizes size h x : runs (start size) h x → ∃ H, linearizes size h x H.
Proof.
  induction 1 as [|h y e z Hr [H IH] Hs]; [by exists []|].
  destruct (step_linearizes size h y H e z (runs_inv _ _ _ Hr) Hs IH) as [H' ?]. by exists (H ++ H').
Qed.

(** C13: However the stream handlers, [shutdown] and the driver interleave, the inbox behaves
    as if each call happened at one instant.  Nothing is sent on the channel once it is
    closed and it is closed once, so nothing panics, and the channel never holds more than
    its size.  And to what is seen of the run, calls that begin and return and messages
    received, one instant can be added for each call, after it begins and before it
    returns, such that doing the calls at these instants, one after the other, gives the
    messages received, in that order, and the inbox that there is. *)
Theorem inbox_is_atomic size h x :
  runs (start size) h x →
  st_panicked x = false ∧ length (sv_inbox (st_server x)) ≤ size ∧
  ∃ H, filter seen H = h ∧ legal (mkSpec size [] false) H = Some (abstract x) ∧
    ∀ i, ∃ c k, filter (of_call i) H = take k [Inv i c; Act i c; Fin i].
Proof.
  intros Hr. pose proof (runs_inv _ _ _ Hr) as Hinv. split_and!; [apply Hinv|rewrite <- (runs_size _ _ _ Hr); apply Hinv|].
  destruct (runs_linearizes _ _ _ Hr) as (H & Hh & Hl & Hd & Hnone). exists H. split_and!; [done|done|].
  intros i. destruct (st_threads x !! i) as [t|] eqn:Hi; [|exists CShutdown, 0; by apply Hnone, lookup_ge_None].
  specialize (Hd i t Hi). destruct t; cbn in Hd.
  1-3: by exists (CDeliver m), 1. 2-4: by exists CShutdown, 1. 2-3: by exists CShutdown, 2.
  - destruct Hd as [m Hd]. by exists (CDeliver m), 2.
  - destruct Hd as [c Hd]. by exists c, 3.
Qed.
End Inbox.

(** ** The transports of a cluster *)

Record Peer := mkPeer { peer_ID : NodeID; peer_Address : string }.

(** Durations are in nanoseconds.  The logger is left out. *)
Record GRPCConfig := mkGRPCConfig {
  g_ID : NodeID;
  g_Listen : string;
  g_Peers : list Peer;
  g_InboxSize : Z;
  g_OutboxSize : Z;
  g_DialTimeout : Z;
  g_Keepalive : Z;
  g_KeepaliveTimeout : Z;
  g_ReconnectMaxDelay : Z;
  g_StreamRetryDelay : Z
}.

Definition or_default (v d : Z) : Z := if (v =? 0)%Z then d else v.

Definition grpc_withDefaults (c : GRPCConfig) : GRPCConfig :=
  mkGRPCConfig (g_ID c) (g_Listen c) (g_Peers c)
    (or_default (g_InboxSize c) 1024) (or_default (g_OutboxSize c) 256)
    (or_default (g_DialTimeout c) 5000000000) (or_default (g_Keepalive c) 10000000000)
    (or_default (g_KeepaliveTimeout c) 3000000000) (or_default (g_ReconnectMaxDelay c) 3000000000)
    (or_default (g_StreamRetryDelay c) 200000000).

(** Where the goroutine of [peerConn.run] is. *)
Inductive run_state :=
  | RDial               (* grpc.NewClient *)
  | RLoop               (* top of the loop, then client.Deliver *)
  | RStream (k : nat)   (* in [pump], on the [k]-th stream of the network *)
  | RRetry              (* waiting before the next stream *)
  | RExit.

#[export] Instance run_state_eq_dec : EqDecision run_state.
Proof. solve_decision. Defined.

(** [pc_enqueued] and [pc_taken] are history variables: what [enqueue] was called with,
    and what [pump] took from the outbox. *)
Record peerConn := mkPeerConn {
  pc_address : string;
  pc_outbox : list Message;
  pc_done : bool;
  pc_run : run_state;
  pc_enqueued : list Message;
  pc_taken : list Message
}.

(** [t_received] is a history variable: what [deliver] put into the inbox. *)
Record GRPC := mkGRPC {
  t_cfg : GRPCConfig;
  t_peers : gmap NodeID peerConn;
  t_server : Inbox.spec;
  t_closed : bool;
  t_received : list Message
}.

Definition newPeerConn (p : Peer) : peerConn := mkPeerConn (peer_Address p) [] false RDial [] [].

(** A peer listed twice has its first connection replaced in the map. *)
Definition connect_peers (cfg : GRPCConfig) : gmap NodeID peerConn :=
  foldl (λ m p, if (peer_ID p =? g_ID cfg)%N then m else <[peer_ID p := newPeerConn p]> m) ∅ (g_Peers cfg).

(** [listen] is the answer of [net.Listen].  Making a channel of negative size panics. *)
Definition NewGRPC (listen : outcome unit) (cfg : GRPCConfig) : outcome GRPC :=
  let cfg := grpc_withDefaults cfg in
  if (g_ID cfg =? None_)%N then Fail (Errorf "transport: node ID must not be zero" [])
  else
    match listen with
    | Ret _ =>
        if (g_InboxSize cfg <? 0)%Z then Panic "makechan: size out of range"
        else
          let peers := connect_peers cfg in
          if (g_OutboxSize cfg <? 0)%Z && negb (bool_decide (peers = ∅)) then Panic "makechan: size out of range"
          else Ret (mkGRPC cfg peers (Inbox.mkSpec (Z.to_nat (g_InboxSize cfg)) [] false) false [])
    | Fail e => Fail (Errorf "transport: listening" [e])
    | Panic msg => Panic msg
    | OutOfFuel => OutOfFuel
    end.

Definition outboxSize (t : GRPC) : nat := Z.to_nat (g_OutboxSize (t_cfg t)).

(** [enqueue]: when the outbox has room and [done] is closed, [select] may take either
    case; [done_first] is its choice. *)
Definition enqueue (size : nat) (done_first : bool) (m : Message) (pc : peerConn) : peerConn :=
  let room := length (pc_outbox pc) <? size in
  let outbox := if room && negb (pc_done pc && done_first) then pc_outbox pc ++ [m] else pc_outbox pc in
  mkPeerConn (pc_address pc) outbox (pc_done pc) (pc_run pc) (pc_enqueued pc ++ [m]) (pc_taken pc).

Definition set_peer (j : NodeID) (pc : peerConn) (t : GRPC) : GRPC :=
  mkGRPC (t_cfg t) (<[j := pc]> (t_peers t)) (t_server t) (t_closed t) (t_received t).

Definition Send (done_first : bool) (m : Message) (t : GRPC) : GRPC :=
  match t_peers t !! m_To m with
  | None => t
  | Some pc => set_peer (m_To m) (enqueue (outboxSize t) done_first m pc) t
  end.

Definition set_run (st : run_state) (pc : peerConn) : peerConn :=
  mkPeerConn (pc_address pc) (pc_outbox pc) (pc_done pc) st (pc_enqueued pc) (pc_taken pc).

(** The [outbox] case of [pump]'s loop: what is left of the connection, and what was
    written to the stream.  [sent] is the answer of [stream.Send]. *)
Definition pump_outbox (sent : bool) (pc : peerConn) : option (peerConn * option (Message * pbRaftMessage)) :=
  match pc_outbox pc with
  | [] => None
  | m :: q =>
      let pc := mkPeerConn (pc_address pc) q (pc_done pc) (pc_run pc) (pc_enqueued pc) (pc_taken pc ++ [m]) in
      match toProto m with
      | Ret p => if sent then Some (pc, Some (m, p)) else Some (set_run RRetry pc, None)
      | _ => Some (pc, None)
      end
  end.

(** [run], as the connection's goroutine goes through it: [ok] is the answer of
    [grpc.NewClient], and [opened] the stream that [client.Deliver] gave [pump], if any. *)
Definition run_dial (ok : bool) (pc : peerConn) : option peerConn :=
  if decide (pc_run pc = RDial) then Some (set_run (if ok then RLoop else RExit) pc) else None.

Definition run_open (opened : option nat) (pc : peerConn) : option peerConn :=
  if decide (pc_run pc = RLoop)
  then Some (set_run (match opened with Some k => RStream k | None => RRetry end) pc) else None.

(** The wait between two streams is over. *)
Definition run_wake (pc : peerConn) : option peerConn :=
  if decide (pc_run pc = RRetry) then Some (set_run RLoop pc) else None.

(** A [select] of [run] or [pump] finds [done] closed; the goroutine returns. *)
Definition run_done (pc : peerConn) : option peerConn :=
  if pc_done pc && negb (bool_decide (pc_run pc = RDial)) then Some (set_run RExit pc) else None.

(** [peerConn.close] *)
Definition pc_close (pc : peerConn) : peerConn :=
  mkPeerConn (pc_address pc) (pc_outbox pc) true (pc_run pc) (pc_enqueued pc) (pc_taken pc).

(** One turn of the loop of [server.Deliver] that received [p]. *)
Definition handle (p : pbRaftMessage) (t : GRPC) : GRPC * option Message :=
  match fromProto (Some p) with
  | Ret m =>
      let a := Inbox.deliver m (t_server t) in
      let put := negb (Inbox.sp_closed (t_server t)) && (length (Inbox.sp_inbox (t_server t)) <? Inbox.sp_size (t_server t)) in
      (mkGRPC (t_cfg t) (t_peers t) a (t_closed t) (if put then t_received t ++ [m] else t_received t), Some m)
  | _ => (t, None)
  end.

(** [Close] up to the wait for the outbound streams. *)
Definition close_begin (t : GRPC) : GRPC :=
  if t_closed t then t else mkGRPC (t_cfg t) (pc_close <$> t_peers t) (t_server t) true (t_received t).

(** The wait of [Close] is over. *)
Definition peers_done (t : GRPC) : bool :=
  bool_decide (map_Forall (λ _ pc, pc_run pc = RExit) (t_peers t)).

(** The rest of [Close]. *)
Definition close_end (t : GRPC) : GRPC :=
  mkGRPC (t_cfg t) (t_peers t) (Inbox.shutdown (t_server t)) (t_closed t) (t_received t).

(** *** The network *)

(** A stream from the connection of [s_from] to its peer [s_peer], open to the node
    [s_to] that listens at the peer's address.  [s_sent] and [s_got] are history
    variables: what [pump] wrote to it, and what [Deliver] decoded from it. *)
Record stream := mkStream {
  s_from : NodeID;
  s_peer : NodeID;
  s_to : NodeID;
  s_queue : list pbRaftMessage;
  s_sent : list Message;
  s_got : list Message
}.

Record net := mkNet { n_nodes : gmap NodeID GRPC; n_streams : list stream }.

(** What happens next.  [AWire] is gRPC's doing, not the code's: it makes [carry q] of the
    messages [q] still to come on a stream, none of them when the stream breaks. *)
Inductive net_act :=
  | ASend (i : NodeID) (m : Message) (done_first : bool)
  | ADial (i j : NodeID) (ok : bool)
  | AOpen (i j : NodeID) (ok : bool)
  | APump (i j : NodeID) (sent : bool)
  | AWake (i j : NodeID)
  | ADone (i j : NodeID)
  | AArrive (k : nat)
  | AWire (k : nat) (carry : list pbRaftMessage → list pbRaftMessage)
  | AReceive (i : NodeID)
  | ACloseBegin (i : NodeID)
  | ACloseEnd (i : NodeID).

Section network.
(** The node that listens at an address. *)
Context (resolve : string → option NodeID).

Definition set_grpc (i : NodeID) (t : GRPC) (n : net) : net := mkNet (<[i := t]> (n_nodes n)) (n_streams n).

(** A step of the goroutine of one connection. *)
Definition with_peer (i j : NodeID) (n : net) (f : GRPC → peerConn → option net) : option net :=
  match n_nodes n !! i with
  | Some t => match t_peers t !! j with Some pc => f t pc | None => None end
  | None => None
  end.

(** What gRPC is told: a stream is open, and a message was written to it. *)
Definition open_stream (i j to : NodeID) (ss : list stream) : list stream := ss ++ [mkStream i j to [] [] []].

Definition write (k : nat) (m : Message) (p : pbRaftMessage) (ss : list stream) : list stream :=
  match ss !! k with
  | Some s => <[k := mkStream (s_from s) (s_peer s) (s_to s) (s_queue s ++ [p]) (s_sent s ++ [m]) (s_got s)]> ss
  | None => ss
  end.

(** The code's operations, put together by the network; gRPC answers them, and carries
    what [pump] writes to where [Deliver] reads. *)
Definition net_perform (a : net_act) (n : net) : option net :=
  match a with
  | ASend i m done_first =>
      match n_nodes n !! i with Some t => Some (set_grpc i (Send done_first m t) n) | None => None end
  | ADial i j ok =>
      with_peer i j n (λ t pc,
        match run_dial ok pc with Some pc => Some (set_grpc i (set_peer j pc t) n) | None => None end)
  | AOpen i j ok =>
      with_peer i j n (λ t pc,
        let to := if ok then resolve (pc_address pc) else None in
        match run_open ((λ _, length (n_streams n)) <$> to) pc with
        | Some pc =>
            Some (mkNet (<[i := set_peer j pc t]> (n_nodes n))
                    (match to with Some to => open_stream i j to (n_streams n) | None => n_streams n end))
        | None => None
        end)
  | APump i j sent =>
      with_peer i j n (λ t pc,
        match pc_run pc, pump_outbox sent pc with
        | RStream k, Some (pc, w) =>
            Some (mkNet (<[i := set_peer j pc t]> (n_nodes n))
                    (match w with Some (m, p) => write k m p (n_streams n) | None => n_streams n end))
        | _, _ => None
        end)
  | AWake i j =>
      with_peer i j n (λ t pc,
        match run_wake pc with Some pc => Some (set_grpc i (set_peer j pc t) n) | None => None end)
  | ADone i j =>
      with_peer i j n (λ t pc,
        match run_done pc with Some pc => Some (set_grpc i (set_peer j pc t) n) | None => None end)
  | AArrive k =>
      match n_streams n !! k with
      | Some (mkStream from peer to (p :: q) sent got) =>
          match n_nodes n !! to with
          | Some t =>
              let '(t, m) := handle p t in
              Some (mkNet (<[to := t]> (n_nodes n))
                      (<[k := mkStream from peer to q sent (match m with Some m => got ++ [m] | None => got end)]> (n_streams n)))
          | None => None
          end
      | _ => None
      end
  | AWire k carry =>
      match n_streams n !! k with
      | Some s => Some (mkNet (n_nodes n)
                          (<[k := mkStream (s_from s) (s_peer s) (s_to s) (carry (s_queue s)) (s_sent s) (s_got s)]> (n_streams n)))
      | None => None
      end
  | AReceive i =>
      match n_nodes n !! i with
      | Some t =>
          match Inbox.sp_inbox (t_server t) with
          | [] => None
          | _ :: q =>
              Some (set_grpc i (mkGRPC (t_cfg t) (t_peers t)
                     (Inbox.mkSpec (Inbox.sp_size (t_server t)) q (Inbox.sp_closed (t_server t))) (t_closed t) (t_received t)) n)
          end
      | None => None
      end
  | ACloseBegin i =>
      match n_nodes n !! i with Some t => Some (set_grpc i (close_begin t) n) | None => None end
  | ACloseEnd i =>
      match n_nodes n !! i with
      | Some t => if t_closed t && peers_done t then Some (set_grpc i (close_end t) n) else None
      | None => None
      end
  end.

(** *** What the network keeps *)

(** A message that decodes to itself once encoded; see [Codec.core_message_travels]. *)
Definition travels (m : Message) : Prop := ∃ p, toProto m = Ret p ∧ fromProto (Some p) = Ret m.

Definition bag (P : stream → bool) (g : stream → list Message) (ss : list stream) : list Message :=
  foldr (λ s acc, (if P s then g s else []) ++ acc) [] ss.

Definition of_conn (i j : NodeID) (s : stream) : bool := (s_from s =? i)%N && (s_peer s =? j)%N.
Definition to_node (j : NodeID) (s : stream) : bool := (s_to s =? j)%N.

Definition peer_of (n : net) (i j : NodeID) : option peerConn :=
  match n_nodes n !! i with Some t => t_peers t !! j | None => None end.

Definition size_of (n : net) (i : NodeID) : nat := from_option outboxSize 0 (n_nodes n !! i).

(** Of one connection. *)
Record conn_ok (ss : list stream) (size : nat) (i j : NodeID) (pc : peerConn) : Prop := {
  co_order : pc_taken pc ++ pc_outbox pc `sublist_of` pc_enqueued pc;
  co_bound : length (pc_outbox pc) ≤ size;
  co_msgs : Forall (λ m, m_From m = i ∧ m_To m = j ∧ travels m) (pc_enqueued pc);
  co_stream k : pc_run pc = RStream k → ∃ s, ss !! k = Some s ∧ s_from s = i ∧ s_peer s = j;
  co_sent : bag (of_conn i j) s_sent ss ⊆+ pc_taken pc
}.

(** Of one stream and the connection that opened it. *)
Definition stream_ok (s : stream) (pc : peerConn) : Prop :=
  resolve (pc_address pc) = Some (s_to s) ∧ s_sent s `sublist_of` pc_taken pc ∧
  ∃ qs, Forall2 (λ m p, fromProto (Some p) = Ret m) qs (s_queue s) ∧ s_got s ++ qs `sublist_of` s_sent s.

(** Of one inbox. *)
Definition inbox_ok (ss : list stream) (j : NodeID) (t : GRPC) : Prop :=
  t_received t ⊆+ bag (to_node j) s_got ss ∧ length (Inbox.sp_inbox (t_server t)) ≤ Inbox.sp_size (t_server t).

Record net_inv (n : net) : Prop := {
  ni_conn i j pc : peer_of n i j = Some pc → conn_ok (n_streams n) (size_of n i) i j pc;
  ni_stream k s : n_streams n !! k = Some s → ∃ pc, peer_of n (s_from s) (s_peer s) = Some pc ∧ stream_ok s pc;
  ni_inbox j t : n_nodes n !! j = Some t → inbox_ok (n_streams n) j t
}.

Lemma bag_app P g ss ss' : bag P g (ss ++ ss') = bag P g ss ++ bag P g ss'.
Proof. unfold bag. induction ss as [|s ss IH]; simpl; [done|]. by rewrite IH, app_assoc. Qed.

Lemma bag_insert P g ss k s s' m :
  ss !! k = Some s → P s' = P s → g s' = g s ++ m →
  bag P g (<[k := s']> ss) ≡ₚ bag P g ss ++ (if P s then m else []).
Proof.
  unfold bag. revert k. induction ss as [|s0 ss IH]; intros [|k] Hk HP Hg; simpl in *; simplify_eq.
  - rewrite HP, Hg. destruct (P s); [|by rewrite app_nil_r]. solve_Permutation.
  - rewrite (IH k Hk HP Hg). by rewrite app_assoc.
Qed.

Lemma peer_of_set_grpc n i t i' j' :
  peer_of (set_grpc i t n) i' j' = if decide (i' = i) then t_peers t !! j' else peer_of n i' j'.
Proof.
  unfold peer_of, set_grpc. cbn. case_decide as E; [subst; by rewrite lookup_insert_eq|]. by rewrite lookup_insert_ne.
Qed.

(** A connection changes; no stream does. *)
Lemma inv_set_peer n i t j pc pc' :
  net_inv n → n_nodes n !! i = Some t → t_peers t !! j = Some pc →
  pc_address pc' = pc_address pc → pc_taken pc' = pc_taken pc →
  conn_ok (n_streams n) (outboxSize t) i j pc' →
  net_inv (set_grpc i (set_peer j pc' t) n).
Proof.
  intros Hn Ht Hpc Ea Et Hok. split; cbn [n_streams set_grpc].
  - intros i' j' q. rewrite peer_of_set_grpc. unfold size_of. cbn. case_decide as E.
    + subst i'. rewrite lookup_insert_eq. cbn. intros [[<- <-]|[Hne Hq]]%lookup_insert_Some; [done|].
      change (outboxSize (set_peer j pc' t)) with (outboxSize t).
      pose proof (ni_conn n Hn i j' q) as Hc. unfold peer_of, size_of in Hc. rewrite Ht in Hc. by apply Hc.
    + rewrite lookup_insert_ne by done. apply (ni_conn n Hn).
  - intros k s Hs. destruct (ni_stream n Hn k s Hs) as (q & Hq & Hsok). rewrite peer_of_set_grpc. case_decide as E.
    + unfold peer_of in Hq. rewrite E, Ht in Hq. cbn. destruct (decide (s_peer s = j)) as [Ej|Hne].
      * rewrite Ej in *. rewrite lookup_insert_eq. exists pc'. split; [done|]. simplify_eq.
        unfold stream_ok in *. by rewrite Ea, Et.
      * rewrite lookup_insert_ne by done. eauto.
    + eauto.
  - intros j' t'. cbn. intros [[<- <-]|[Hne Ht']]%lookup_insert_Some; [|by apply (ni_inbox n Hn)].
    apply (ni_inbox n Hn _ _ Ht).
Qed.

(** A node changes but for its connections. *)
Lemma inv_same_peers n i t t' :
  net_inv n → n_nodes n !! i = Some t → t_cfg t' = t_cfg t → t_peers t' = t_peers t →
  inbox_ok (n_streams n) i t' → net_inv (set_grpc i t' n).
Proof.
  intros Hn Ht Ec Ep Hi.
  assert (∀ i' j', peer_of (set_grpc i t' n) i' j' = peer_of n i' j') as Hpeer.
  { intros i' j'. rewrite peer_of_set_grpc. case_decide as E; [|done]. subst. unfold peer_of. by rewrite Ht, Ep. }
  split; cbn [n_streams set_grpc].
  - intros i' j' q. rewrite Hpeer. intros Hq. replace (size_of (set_grpc i t' n) i') with (size_of n i'); [by apply ni_conn|].
    unfold size_of. cbn. destruct (decide (i' = i)) as [->|]; [|by rewrite lookup_insert_ne].
    rewrite lookup_insert_eq, Ht. cbn. unfold outboxSize. by rewrite Ec.
  - intros k s Hs. rewrite Hpeer. by apply (ni_stream n Hn k).
  - intros j' t0. cbn. intros [[<- <-]|[Hne Ht0]]%lookup_insert_Some; [done|by apply (ni_inbox n Hn)].
Qed.

(** A stream changes, but for what was sent on it. *)
Lemma inv_set_stream n k s s' ms :
  net_inv n → n_streams n !! k = Some s →
  s_from s' = s_from s → s_peer s' = s_peer s → s_to s' = s_to s → s_sent s' = s_sent s → s_got s' = s_got s ++ ms →
  (∃ qs, Forall2 (λ m p, fromProto (Some p) = Ret m) qs (s_queue s') ∧ s_got s' ++ qs `sublist_of` s_sent s') →
  net_inv (mkNet (n_nodes n) (<[k := s']> (n_streams n))).
Proof.
  intros Hn Hk Ef Epe Eto Es Eg Hq. split; cbn [n_streams n_nodes].
  - intros i j pc Hpc. destruct (ni_conn n Hn i j pc Hpc) as [Ho Hb Hm Hs Hbag]. split; [done..| |].
    + intros k' Hrun. destruct (Hs k' Hrun) as (s0 & Hs0 & E1 & E2). destruct (decide (k' = k)) as [->|Hne].
      * exists s'. rewrite list_lookup_insert_eq by (by eapply lookup_lt_Some). simplify_eq. rewrite Ef, Epe. done.
      * exists s0. by rewrite list_lookup_insert_ne.
    + rewrite (bag_insert _ _ _ _ s s' []); [by case_match; rewrite app_nil_r|done| |by rewrite app_nil_r].
      unfold of_conn. by rewrite Ef, Epe.
  - intros k' s0 Hs0. destruct (decide (k' = k)) as [->|Hne].
    + rewrite list_lookup_insert_eq in Hs0 by (by eapply lookup_lt_Some). simplify_eq.
      destruct (ni_stream n Hn k s Hk) as (pc & Hpc & Ha & Hsub & _). exists pc. rewrite Ef, Epe. split; [done|].
      unfold stream_ok. rewrite Eto, Es. rewrite Es in Hq. done.
    + rewrite list_lookup_insert_ne in Hs0 by done. by apply (ni_stream n Hn k').
  - intros j t Ht. destruct (ni_inbox n Hn j t Ht) as [Hrec Hb]. split; [|done].
    rewrite (bag_insert _ _ _ _ s s' ms); [|done|unfold to_node; by rewrite Eto|done].
    etrans; [done|]. apply submseteq_inserts_r. done.
Qed.

Lemma inv_open n i t j pc to :
  net_inv n → n_nodes n !! i = Some t → t_peers t !! j = Some pc → resolve (pc_address pc) = Some to →
  net_inv (mkNet (n_nodes n) (n_streams n ++ [mkStream i j to [] [] []])).
Proof.
  intros Hn Ht Hpc Ha. split; cbn [n_streams n_nodes].
  - intros i' j' q Hq. destruct (ni_conn n Hn i' j' q Hq) as [Ho Hb Hm Hs Hbag]. split; [done..| |].
    + intros k Hrun. destruct (Hs k Hrun) as (s & Hk & ?). exists s. by rewrite (lookup_app_l_Some _ _ _ _ Hk).
    + rewrite bag_app. cbn. case_match; by rewrite !app_nil_r.
  - intros k s [Hk|[_ Hk]]%lookup_app_Some; [by apply (ni_stream n Hn k)|].
    apply list_lookup_singleton_Some in Hk as [_ <-]. cbn. exists pc. split.
    + unfold peer_of. cbn. by rewrite Ht.
    + split_and!; cbn; [done|apply sublist_nil_l|]. exists []. by repeat constructor.
  - intros j' t' Ht'. destruct (ni_inbox n Hn j' t' Ht') as [Hrec Hb]. split; [|done].
    rewrite bag_app. apply submseteq_inserts_r. done.
Qed.

(** [pump] takes a message and does not get it onto the stream. *)
Lemma inv_take n i t j pc m q st :
  net_inv n → n_nodes n !! i = Some t → t_peers t !! j = Some pc → pc_outbox pc = m :: q →
  (∀ k, st = RStream k → pc_run pc = RStream k) →
  net_inv (set_grpc i (set_peer j (mkPeerConn (pc_address pc) q (pc_done pc) st (pc_enqueued pc) (pc_taken pc ++ [m])) t) n).
Proof.
  intros Hn Ht Hpc Eo Hst. split; cbn [n_streams set_grpc].
  - intros i' j' pc'. rewrite peer_of_set_grpc. unfold size_of. cbn.
    pose proof (ni_conn n Hn i' j') as Hc. unfold peer_of, size_of in Hc. case_decide as E.
    + subst i'. rewrite lookup_insert_eq. rewrite Ht in Hc. cbn. intros [[<- <-]|[Hne Hq]]%lookup_insert_Some; [|by apply Hc].
      destruct (Hc pc Hpc) as [Ho Hb Hm Hs Hbag]. cbn in Hb. rewrite Eo in *. split; cbn; [|cbn in Hb|done| |].
      * by rewrite <- app_assoc.
      * change (outboxSize (set_peer _ _ _)) with (outboxSize t). lia.
      * intros k Hk. by apply Hs, Hst.
      * by apply submseteq_inserts_r.
    + rewrite lookup_insert_ne by done. apply (ni_conn n Hn).
  - intros k s Hs. destruct (ni_stream n Hn k s Hs) as (pc0 & Hq & Ha & Hsub & Hrest). rewrite peer_of_set_grpc. case_decide as E.
    + unfold peer_of in Hq. rewrite E, Ht in Hq. cbn. destruct (decide (s_peer s = j)) as [Ej|Hne].
      * rewrite Ej in *. rewrite lookup_insert_eq. eexists. split; [done|]. simplify_eq.
        split_and!; cbn; [done|by apply sublist_inserts_r|done].
      * rewrite lookup_insert_ne by done. exists pc0. done.
    + exists pc0. done.
  - intros j' t'. cbn. intros [[<- <-]|[Hne Ht']]%lookup_insert_Some; [|by apply (ni_inbox n Hn)].
    apply (ni_inbox n Hn _ _ Ht).
Qed.

(** The message [pump] took last is written to its stream. *)
Lemma inv_write n i j k pc s m p taken :
  net_inv n → peer_of n i j = Some pc → pc_taken pc = taken ++ [m] →
  n_streams n !! k = Some s → s_from s = i → s_peer s = j → fromProto (Some p) = Ret m →
  bag (of_conn i j) s_sent (n_streams n) ⊆+ taken → s_sent s `sublist_of` taken →
  net_inv (mkNet (n_nodes n) (write k m p (n_streams n))).
Proof.
  intros Hn Hpc Et Hk <- <- Hp Hbag Hsub. unfold write. rewrite Hk. set (s' := mkStream _ _ _ _ _ _).
  assert (k < length (n_streams n)) as Hlt by (by eapply lookup_lt_Some). split; cbn [n_streams n_nodes].
  - intros i j pc' Hpc'. destruct (ni_conn n Hn i j pc' Hpc') as [Ho Hb Hm Hs Hbag']. split; [done..| |].
    + intros k' Hrun. destruct (Hs k' Hrun) as (s0 & Hs0 & E1 & E2). destruct (decide (k' = k)) as [->|Hne].
      * exists s'. rewrite list_lookup_insert_eq by done. simplify_eq. done.
      * exists s0. by rewrite list_lookup_insert_ne.
    + rewrite (bag_insert _ _ _ _ s s' [m]) by done. unfold of_conn at 2.
      destruct (N.eqb_spec (s_from s) i) as [<-|]; cbn; [|by rewrite app_nil_r].
      destruct (N.eqb_spec (s_peer s) j) as [<-|]; cbn; [|by rewrite app_nil_r].
      change (peer_of n (s_from s) (s_peer s) = Some pc') in Hpc'. simplify_eq. rewrite Et.
      by apply submseteq_app.
  - intros k' s0 Hs0. destruct (decide (k' = k)) as [->|Hne].
    + rewrite list_lookup_insert_eq in Hs0 by done. simplify_eq. cbn. exists pc. split; [done|].
      destruct (ni_stream n Hn k s Hk) as (pc0 & Hpc0 & Ha & _ & qs & Hqs & Hgot).
      rewrite Hpc in Hpc0. simplify_eq. split_and!; cbn; [done| |].
      * rewrite Et. by apply sublist_app.
      * exists (qs ++ [m]). split; [by apply Forall2_app; repeat constructor|].
        rewrite app_assoc. by apply sublist_app.
    + rewrite list_lookup_insert_ne in Hs0 by done. by apply (ni_stream n Hn k').
  - intros j t Ht. destruct (ni_inbox n Hn j t Ht) as [Hrec Hb]. split; [|done].
    rewrite (bag_insert _ _ _ _ s s' []); [by case_match; rewrite app_nil_r|done..|by rewrite app_nil_r].
Qed.

Lemma conn_ok_run ss size i j pc st :
  conn_ok ss size i j pc → (∀ k, st = RStream k → pc_run pc = RStream k) → conn_ok ss size i j (set_run st pc).
Proof. intros [] Hst. split; cbn; try done. auto. Qed.

Lemma conn_ok_enqueue ss size i j pc done_first m :
  conn_ok ss size i j pc → m_From m = i → m_To m = j → travels m → conn_ok ss size i j (enqueue size done_first m pc).
Proof.
  intros [Ho Hb Hm Hs Hbag] Hf Ht Htr. unfold enqueue. split; cbn [pc_taken pc_outbox pc_enqueued pc_run]; [| | |done|done].
  - case_match; [rewrite app_assoc; by apply sublist_app|]. by apply sublist_inserts_r.
  - destruct (Nat.ltb_spec (length (pc_outbox pc)) size); cbn; [|done]. case_match; [|done]. rewrite length_app. cbn. lia.
  - apply Forall_app. split; [done|]. by apply Forall_singleton.
Qed.

Lemma node_conn n i t j pc :
  net_inv n → n_nodes n !! i = Some t → t_peers t !! j = Some pc → conn_ok (n_streams n) (outboxSize t) i j pc.
Proof.
  intros Hn Ht Hpc. pose proof (ni_conn n Hn i j pc) as Hc. unfold peer_of, size_of in Hc. rewrite Ht in Hc. by apply Hc.
Qed.

(** The messages of a node name it as their sender, and survive the codec.  Of gRPC it is
    relied on that a stream loses messages at most: what is still to come is some of what
    was written, in its order, and nothing twice. *)
Definition net_act_ok (a : net_act) : Prop :=
  match a with
  | ASend i m _ => m_From m = i ∧ travels m
  | AWire _ carry => ∀ q, carry q `sublist_of` q
  | _ => True
  end.

Lemma inv_run n i t j pc st :
  net_inv n → n_nodes n !! i = Some t → t_peers t !! j = Some pc → (∀ k, st ≠ RStream k) →
  net_inv (set_grpc i (set_peer j (set_run st pc) t) n).
Proof.
  intros Hn Ht Hpc Hst. apply (inv_set_peer n i t j pc); try done.
  apply conn_ok_run; [by apply node_conn|]. intros k ->. by destruct (Hst k).
Qed.

Lemma inv_close_begin n i t :
  net_inv n → n_nodes n !! i = Some t → net_inv (set_grpc i (close_begin t) n).
Proof.
  intros Hn Ht. unfold close_begin. destruct (t_closed t) eqn:Ecl.
  { apply (inv_same_peers n i t t); try done. by apply (ni_inbox n Hn). }
  split; cbn [n_streams set_grpc].
  - intros i' j' pc'. rewrite peer_of_set_grpc. unfold size_of. cbn. case_decide as E.
    + subst i'. rewrite lookup_insert_eq. cbn. rewrite lookup_fmap. intros (pc & Hpc & ->)%fmap_Some.
      destruct (node_conn n i t j' pc Hn Ht Hpc). by split.
    + rewrite lookup_insert_ne by done. apply (ni_conn n Hn).
  - intros k s Hs. destruct (ni_stream n Hn k s Hs) as (pc & Hq & Hok). rewrite peer_of_set_grpc. case_decide as E; [|eauto].
    unfold peer_of in Hq. rewrite E, Ht in Hq. cbn. rewrite lookup_fmap, Hq. cbn. eauto.
  - intros j' t'. cbn. intros [[<- <-]|[Hne Ht']]%lookup_insert_Some; [|by apply (ni_inbox n Hn)].
    apply (ni_inbox n Hn _ _ Ht).
Qed.

Lemma inv_open_stream n i t j pc to :
  net_inv n → n_nodes n !! i = Some t → t_peers t !! j = Some pc → resolve (pc_address pc) = Some to →
  net_inv (mkNet (<[i := set_peer j (set_run (RStream (length (n_streams n))) pc) t]> (n_nodes n))
             (n_streams n ++ [mkStream i j to [] [] []])).
Proof.
  intros Hn Ht Hpc Ha. set (n1 := mkNet (n_nodes n) (n_streams n ++ [mkStream i j to [] [] []])).
  assert (net_inv n1) as Hn1 by (by eapply inv_open).
  change (net_inv (set_grpc i (set_peer j (set_run (RStream (length (n_streams n))) pc) t) n1)).
  apply (inv_set_peer n1 i t j pc); try done. destruct (node_conn n1 i t j pc Hn1 Ht Hpc) as [Ho Hb Hm Hs Hbag].
  split; cbn; try done. intros k [= <-]. eexists. by rewrite list_lookup_middle.
Qed.

Lemma inv_pump n i t j pc k sent pc' w :
  net_inv n → n_nodes n !! i = Some t → t_peers t !! j = Some pc → pc_run pc = RStream k →
  pump_outbox sent pc = Some (pc', w) →
  net_inv (mkNet (<[i := set_peer j pc' t]> (n_nodes n))
             (match w with Some (m, p) => write k m p (n_streams n) | None => n_streams n end)).
Proof.
  intros Hn Ht Hpc Hrun Hp. unfold pump_outbox in Hp. destruct (pc_outbox pc) as [|m q] eqn:Eo; [done|].
  pose proof (inv_take n i t j pc m q) as Htake. destruct (node_conn n i t j pc Hn Ht Hpc) as [Ho Hb Hm Hs Hbag].
  destruct (Hs k Hrun) as (s & Hk & Hf & Hpe).
  assert (m ∈ pc_enqueued pc) as Hin.
  { eapply elem_of_submseteq; [|by apply sublist_submseteq]. rewrite Eo. apply elem_of_app. right. by left. }
  destruct (proj1 (Forall_forall _ _) Hm m Hin) as (_ & _ & p & Hp1 & Hp2). rewrite Hp1 in Hp.
  destruct sent; simplify_eq.
  - set (pc1 := mkPeerConn _ _ _ _ _ _). set (n1 := set_grpc (s_from s) (set_peer (s_peer s) pc1 t) n).
    assert (net_inv n1) as Hn1. { apply Htake; try done. }
    destruct (ni_stream n Hn k s Hk) as (pc0 & Hpc0 & _ & Hsub & _). unfold peer_of in Hpc0. rewrite Ht, Hpc in Hpc0. simplify_eq.
    apply (inv_write n1 (s_from s) (s_peer s) k pc1 s m p (pc_taken pc0)); try done.
    unfold peer_of. cbn. rewrite lookup_insert_eq. cbn. by rewrite lookup_insert_eq.
  - apply Htake; try done.
Qed.

Lemma inv_arrive n k s p q t :
  net_inv n → n_streams n !! k = Some s → s_queue s = p :: q → n_nodes n !! s_to s = Some t →
  net_inv (mkNet (<[s_to s := fst (handle p t)]> (n_nodes n))
    (<[k := mkStream (s_from s) (s_peer s) (s_to s) q (s_sent s)
              (match snd (handle p t) with Some m => s_got s ++ [m] | None => s_got s end)]> (n_streams n))).
Proof.
  intros Hn Hk Eq Ht. destruct (ni_stream n Hn k s Hk) as (pc & Hpc & Ha & Hsub & qs & Hqs & Hgot).
  rewrite Eq in Hqs. inversion Hqs as [|m ? qs' ? Hm Hqs']; subst. unfold handle. rewrite Hm. cbn [fst snd].
  set (s' := mkStream _ _ _ _ _ _). set (n1 := mkNet (n_nodes n) (<[k := s']> (n_streams n))).
  assert (net_inv n1) as Hn1.
  { apply (inv_set_stream n k s s' [m]); try done. exists qs'. split; [done|]. cbn. by rewrite <- app_assoc. }
  apply (inv_same_peers n1 (s_to s) t); try done. destruct (ni_inbox n Hn _ _ Ht) as [Hrec Hb]. subst n1.
  split; cbn [n_streams t_received t_server].
  - rewrite (bag_insert _ _ _ _ s s' [m]) by done. unfold to_node at 2. rewrite N.eqb_refl.
    case_match; [by apply submseteq_app|]. by apply submseteq_inserts_r.
  - unfold Inbox.deliver. destruct (Inbox.sp_closed (t_server t)); [done|].
    destruct (Nat.ltb_spec (length (Inbox.sp_inbox (t_server t))) (Inbox.sp_size (t_server t))); [|done].
    cbn. rewrite length_app. cbn. lia.
Qed.

Lemma Forall2_sublist_r {A B} (P : A → B → Prop) k l l' :
  l' `sublist_of` l → Forall2 P k l → ∃ k', k' `sublist_of` k ∧ Forall2 P k' l'.
Proof.
  intros Hs. revert k. induction Hs as [|y l1 l2 _ IH|y l1 l2 _ IH]; intros k Hk.
  - inversion Hk; subst. by exists [].
  - inversion Hk as [|x ? k0 ? Hx Hk0]; subst. destruct (IH _ Hk0) as (k' & ? & ?). exists (x :: k'). by split; constructor.
  - inversion Hk as [|x ? k0 ? Hx Hk0]; subst. destruct (IH _ Hk0) as (k' & ? & ?). exists k'. split; [by constructor|done].
Qed.

Lemma inv_perform n n' a : net_inv n → net_act_ok a → net_perform a n = Some n' → net_inv n'.
Proof.
  intros Hn Ha E.
  destruct a as [i m df|i j ok|i j ok|i j sent|i j|i j|k|k carry|i|i|i]; cbn [net_perform] in E;
    unfold with_peer in E; try (destruct (n_nodes n !! i) as [t|] eqn:Ht; [|done]);
    try (destruct (t_peers t !! j) as [pc|] eqn:Hpc; [|done]).
  - simplify_eq. destruct Ha as [Hf Htr]. unfold Send. destruct (t_peers t !! m_To m) as [pc|] eqn:Hpc.
    + apply (inv_set_peer n i t (m_To m) pc); try done. apply conn_ok_enqueue; try done. by apply node_conn.
    + apply (inv_same_peers n i t); try done. by apply (ni_inbox n Hn).
  - unfold run_dial in E. case_decide; simplify_eq. apply inv_run; try done. by destruct ok.
  - unfold run_open in E. case_decide; [|done]. cbn zeta in E. destruct ok; [|by simplify_eq; apply inv_run].
    destruct (resolve (pc_address pc)) as [to|] eqn:Ead; simplify_eq; [by apply inv_open_stream|by apply inv_run].
  - destruct (pc_run pc) as [| |k| |] eqn:Er; try done. destruct (pump_outbox sent pc) as [[pc' w]|] eqn:Ep; simplify_eq.
    by eapply inv_pump.
  - unfold run_wake in E. case_decide; simplify_eq. by apply inv_run.
  - unfold run_done in E. repeat case_match; simplify_eq. by apply inv_run.
  - destruct (n_streams n !! k) as [[from pe to [|p q] st got]|] eqn:Hk; try done.
    destruct (n_nodes n !! to) as [t|] eqn:Ht; [|done]. destruct (handle p t) as [t' om] eqn:Eh. simplify_eq.
    pose proof (inv_arrive n k _ p q t Hn Hk eq_refl Ht) as Hinv. cbn [s_from s_peer s_to s_sent s_got] in Hinv.
    by rewrite Eh in Hinv.
  - destruct (n_streams n !! k) as [s|] eqn:Hk; simplify_eq. apply (inv_set_stream n k s _ []); try done.
    + by rewrite app_nil_r.
    + destruct (ni_stream n Hn k s Hk) as (pc & Hpc & _ & _ & qs & Hqs & Hgot).
      destruct (Forall2_sublist_r _ _ _ _ (Ha (s_queue s)) Hqs) as (qs' & Hsub & Hqs'). exists qs'. split; [done|].
      cbn. etrans; [|done]. by apply sublist_app.
  - destruct (Inbox.sp_inbox (t_server t)) as [|m q] eqn:Eq; simplify_eq. apply (inv_same_peers n i t); try done.
    destruct (ni_inbox n Hn _ _ Ht) as [Hrec Hb]. split; cbn; [done|]. rewrite Eq in Hb. cbn in Hb. lia.
  - simplify_eq. by apply inv_close_begin.
  - case_match; simplify_eq. apply (inv_same_peers n i t); try done. by apply (ni_inbox n Hn _ _ Ht).
Qed.

(** *** Delivery *)

(** Nothing was sent yet; every node was made by [NewGRPC], and finds its peers where it
    was told they are. *)
Definition net_start (n : net) : Prop :=
  n_streams n = [] ∧
  ∀ i t, n_nodes n !! i = Some t →
    ∃ listen cfg, NewGRPC listen cfg = Ret t ∧ g_ID cfg = i ∧
      Forall (λ p, resolve (peer_Address p) = Some (peer_ID p)) (g_Peers cfg).

Inductive net_reach : net → Prop :=
  | net_initial n : net_start n → net_reach n
  | net_next n a n' : net_reach n → net_act_ok a → net_perform a n = Some n' → net_reach n'.

Lemma connect_peers_spec cfg j pc :
  connect_peers cfg !! j = Some pc → ∃ p, p ∈ g_Peers cfg ∧ peer_ID p = j ∧ pc = newPeerConn p.
Proof.
  unfold connect_peers.
  cut (∀ ps (m : gmap NodeID peerConn), (∀ j pc, m !! j = Some pc → ∃ p, p ∈ g_Peers cfg ∧ peer_ID p = j ∧ pc = newPeerConn p) →
    (∀ p, p ∈ ps → p ∈ g_Peers cfg) → ∀ j pc,
    foldl (λ m p, if (peer_ID p =? g_ID cfg)%N then m else <[peer_ID p := newPeerConn p]> m) m ps !! j = Some pc →
    ∃ p, p ∈ g_Peers cfg ∧ peer_ID p = j ∧ pc = newPeerConn p).
  { intros Hcut. apply Hcut; [by intros ???|done]. }
  induction ps as [|p ps IH]; intros m Hm Hps; [done|]. cbn. apply IH; [|intros q Hq; apply Hps; by right].
  case_match; [done|]. intros j' pc' [[<- <-]|[_ Hl]]%lookup_insert_Some; [|by apply Hm].
  exists p. split_and!; try done. apply Hps. by left.
Qed.

Lemma NewGRPC_start listen cfg t :
  NewGRPC listen cfg = Ret t →
  t_received t = [] ∧ Inbox.sp_inbox (t_server t) = [] ∧
  ∀ j pc, t_peers t !! j = Some pc → ∃ p, p ∈ g_Peers cfg ∧ peer_ID p = j ∧ pc = newPeerConn p.
Proof.
  unfold NewGRPC. repeat case_match; intros [= <-]; cbn. split_and!; [done..|].
  intros j pc Hpc. by apply connect_peers_spec in Hpc.
Qed.

Lemma start_inv n : net_start n → net_inv n.
Proof.
  intros [Hs Hn]. split.
  - intros i j pc. unfold peer_of, size_of. destruct (n_nodes n !! i) as [t|] eqn:Ht; [|done].
    destruct (Hn i t Ht) as (listen & cfg & Ht0 & _). destruct (NewGRPC_start _ _ _ Ht0) as (_ & _ & Hp).
    intros (p & _ & _ & ->)%Hp. rewrite Hs. split; cbn; [constructor|lia|constructor|done|done].
  - rewrite Hs. intros k s Hk. done.
  - intros j t Ht. destruct (Hn j t Ht) as (listen & cfg & Ht0 & _).
    destruct (NewGRPC_start _ _ _ Ht0) as (Hrec & Hin & _). split; [rewrite Hrec; apply submseteq_nil_l|].
    rewrite Hin. cbn. lia.
Qed.

Definition well_addressed (n : net) : Prop :=
  ∀ i j pc, peer_of n i j = Some pc → resolve (pc_address pc) = Some j.

Lemma addressed_set_peer n i t j pc pc' ss :
  well_addressed n → n_nodes n !! i = Some t → t_peers t !! j = Some pc → pc_address pc' = pc_address pc →
  well_addressed (mkNet (<[i := set_peer j pc' t]> (n_nodes n)) ss).
Proof.
  intros Hw Ht Hpc Ea i' j' q. unfold peer_of. cbn. pose proof (Hw i' j') as Hw'. unfold peer_of in Hw'.
  destruct (decide (i' = i)) as [->|]; [|by rewrite lookup_insert_ne; [apply Hw'|]].
  rewrite lookup_insert_eq. rewrite Ht in Hw'. cbn.
  intros [[<- <-]|[_ Hq]]%lookup_insert_Some; [rewrite Ea; by apply Hw'|by apply Hw'].
Qed.

Lemma addressed_same_peers n i t t' ss :
  well_addressed n → n_nodes n !! i = Some t → pc_address <$> t_peers t' = pc_address <$> t_peers t →
  well_addressed (mkNet (<[i := t']> (n_nodes n)) ss).
Proof.
  intros Hw Ht Ep i' j' q. unfold peer_of. cbn. pose proof (Hw i' j') as Hw'. unfold peer_of in Hw'.
  destruct (decide (i' = i)) as [->|]; [|by rewrite lookup_insert_ne; [apply Hw'|]].
  rewrite lookup_insert_eq. rewrite Ht in Hw'. intros Hq. pose proof (f_equal (.!! j') Ep) as E.
  cbn in E. rewrite !lookup_fmap, Hq in E. destruct (t_peers t !! j') as [pc|] eqn:Hpc; [|done]. cbn in E.
  injection E as ->. by apply Hw'.
Qed.

Lemma addressed_perform a n n' : well_addressed n → net_perform a n = Some n' → well_addressed n'.
Proof.
  intros Hw E.
  destruct a as [i m df|i j ok|i j ok|i j sent|i j|i j|k|k carry|i|i|i]; cbn [net_perform] in E;
    unfold with_peer, set_grpc in E; try (destruct (n_nodes n !! i) as [t|] eqn:Ht; [|done]);
    try (destruct (t_peers t !! j) as [pc|] eqn:Hpc; [|done]).
  - simplify_eq. unfold Send. destruct (t_peers t !! m_To m) as [pc|] eqn:Hpc; [by eapply addressed_set_peer|].
    by eapply addressed_same_peers.
  - unfold run_dial in E. case_decide; simplify_eq. by eapply addressed_set_peer.
  - unfold run_open in E. case_decide; simplify_eq. by eapply addressed_set_peer.
  - destruct (pc_run pc); try done. destruct (pump_outbox sent pc) as [[pc' w]|] eqn:Ep; simplify_eq.
    eapply addressed_set_peer; try done. unfold pump_outbox in Ep. repeat case_match; by simplify_eq.
  - unfold run_wake in E. case_decide; simplify_eq. by eapply addressed_set_peer.
  - unfold run_done in E. repeat case_match; simplify_eq. by eapply addressed_set_peer.
  - destruct (n_streams n !! k) as [[from pe to [|p q] st got]|] eqn:Hk; try done.
    destruct (n_nodes n !! to) as [t|] eqn:Ht; [|done]. destruct (handle p t) as [t' om] eqn:Eh. simplify_eq.
    eapply addressed_same_peers; [done|done|]. unfold handle in Eh. case_match; by simplify_eq.
  - case_match; by simplify_eq.
  - case_match; simplify_eq. by eapply addressed_same_peers.
  - simplify_eq. eapply addressed_same_peers; [done|done|]. unfold close_begin. case_match; [done|]. cbn.
    rewrite <- map_fmap_compose. by apply map_fmap_ext.
  - case_match; simplify_eq. by eapply addressed_same_peers.
Qed.

Lemma reach_inv n : net_reach n → net_inv n ∧ well_addressed n.
Proof.
  induction 1 as [n Hs|n a n' _ [IH1 IH2] Ha E].
  - split; [by apply start_inv|]. intros i j pc. unfold peer_of. destruct (n_nodes n !! i) as [t|] eqn:Ht; [|done].
    destruct (proj2 Hs i t Ht) as (listen & cfg & Ht0 & _ & Hall). destruct (NewGRPC_start _ _ _ Ht0) as (_ & _ & Hp).
    intros (p & Hin & <- & ->)%Hp. exact (proj1 (Forall_forall _ _) Hall p Hin).
  - split; [by eapply inv_perform|by eapply addressed_perform].
Qed.

(** What came out of a stream is among what went into its connection, in that order. *)
Lemma got_enqueued n k s pc :
  net_inv n → n_streams n !! k = Some s → peer_of n (s_from s) (s_peer s) = Some pc →
  s_got s `sublist_of` s_sent s ∧ s_sent s `sublist_of` pc_enqueued pc.
Proof.
  intros Hn Hk Hpc. destruct (ni_stream n Hn k s Hk) as (pc0 & Hpc0 & _ & Hsub & qs & _ & Hgot).
  rewrite Hpc in Hpc0. simplify_eq. split; [etrans; [|done]; by apply sublist_inserts_r|].
  etrans; [done|]. etrans; [|apply (ni_conn n Hn _ _ _ Hpc)]. by apply sublist_inserts_r.
Qed.

Lemma bag_from ss i j :
  Forall (λ s, s_to s = s_peer s ∧ s_got s `sublist_of` s_sent s ∧ Forall (λ m, m_From m = s_from s) (s_got s)) ss →
  filter (λ m, m_From m = i) (bag (to_node j) s_got ss) ⊆+ bag (of_conn i j) s_sent ss.
Proof.
  unfold bag. induction 1 as [|s ss (Hto & Hsub & Hfrom) _ IH]; cbn -[filter]; [done|].
  rewrite filter_app. apply submseteq_app; [|done]. unfold to_node, of_conn. rewrite Hto.
  destruct (N.eqb_spec (s_peer s) j); [|rewrite andb_false_r; apply submseteq_nil_l]. rewrite andb_true_r.
  destruct (N.eqb_spec (s_from s) i) as [Ei|Hne].
  - etrans; [apply sublist_submseteq, sublist_filter|]. by apply sublist_submseteq.
  - replace (filter _ (s_got s)) with (@nil Message); [done|]. symmetry. apply elem_of_nil_inv.
    intros m [Hm Hin]%list_elem_of_filter. eapply Forall_forall in Hfrom; [|done]. congruence.
Qed.

Lemma filter_submseteq {A} (P : A → Prop) `{∀ x, Decision (P x)} (l k : list A) : l ⊆+ k → filter P l ⊆+ filter P k.
Proof.
  intros (k' & HP)%submseteq_Permutation. rewrite HP, filter_app. by apply submseteq_inserts_r.
Qed.

Lemma elem_of_bag P g ss m : m ∈ bag P g ss → ∃ k s, ss !! k = Some s ∧ P s = true ∧ m ∈ g s.
Proof.
  unfold bag. induction ss as [|s ss IH]; cbn; [by intros ?%elem_of_nil|]. intros [Hm|Hm]%elem_of_app.
  - destruct (P s) eqn:E; [|by apply elem_of_nil in Hm]. by exists 0, s.
  - destruct (IH Hm) as (k & s' & ?). by exists (S k), s'.
Qed.

Lemma streams_fine n :
  net_inv n → well_addressed n →
  Forall (λ s, s_to s = s_peer s ∧ s_got s `sublist_of` s_sent s ∧ Forall (λ m, m_From m = s_from s) (s_got s)) (n_streams n).
Proof.
  intros Hn Hw. apply Forall_forall. intros s (k & Hk)%list_elem_of_lookup.
  destruct (ni_stream n Hn k s Hk) as (pc & Hpc & Ha & _). destruct (got_enqueued n k s pc Hn Hk Hpc) as [H1 H2].
  rewrite (Hw _ _ _ Hpc) in Ha. simplify_eq. split_and!; [done|done|]. apply Forall_forall. intros m Hm.
  destruct (ni_conn n Hn _ _ _ Hpc) as [_ _ Hall _ _]. eapply Forall_forall in Hall; [by destruct Hall|].
  eapply elem_of_submseteq; [exact Hm|]. apply sublist_submseteq. by etrans.
Qed.

(** C12: The transport is the unreliable network the algorithm was designed against, and no
    worse.  Whatever is dropped, broken or closed, a node receives only messages addressed
    to it, each one that its sender put into the outbox for it, and none more often than
    it was sent; within one stream they arrive in the order they were sent; and neither
    inboxes nor outboxes grow beyond their size. *)
Theorem delivery_is_sound n j t :
  net_reach n → n_nodes n !! j = Some t →
  length (Inbox.sp_inbox (t_server t)) ≤ Inbox.sp_size (t_server t) ∧
  Forall (λ m, m_To m = j ∧ ∃ pc, peer_of n (m_From m) j = Some pc ∧ m ∈ pc_enqueued pc) (t_received t) ∧
  ∀ i pc, peer_of n i j = Some pc →
    length (pc_outbox pc) ≤ size_of n i ∧
    filter (λ m, m_From m = i) (t_received t) ⊆+ pc_enqueued pc ∧
    ∀ k s, n_streams n !! k = Some s → s_from s = i → s_to s = j → s_got s `sublist_of` pc_enqueued pc.
Proof.
  intros [Hn Hw]%reach_inv Ht. destruct (ni_inbox n Hn j t Ht) as [Hrec Hb].
  pose proof (streams_fine n Hn Hw) as Hfine. split_and!; [done| |].
  - apply Forall_forall. intros m Hm. eapply elem_of_submseteq in Hm; [|exact Hrec].
    apply elem_of_bag in Hm as (k & s & Hk & Hto%N.eqb_eq & Hm). destruct (ni_stream n Hn k s Hk) as (pc & Hpc & _).
    destruct (got_enqueued n k s pc Hn Hk Hpc) as [H1 H2].
    assert (m ∈ pc_enqueued pc) as Hin.
    { eapply elem_of_submseteq; [exact Hm|]. apply sublist_submseteq. by etrans. }
    destruct (ni_conn n Hn _ _ _ Hpc) as [_ _ Hall _ _]. eapply Forall_forall in Hall as (Hf & Htoj & _); [|done].
    pose proof (Forall_lookup_1 _ _ _ _ Hfine Hk) as (Eto & _). rewrite <- Hto, Eto, Hf. split; [done|]. eauto.
  - intros i pc Hpc. destruct (ni_conn n Hn _ _ _ Hpc) as [Ho Hlen Hall _ Hsent]. split_and!; [done| |].
    + etrans; [apply filter_submseteq, Hrec|]. etrans; [by apply bag_from|]. etrans; [done|].
      apply sublist_submseteq. etrans; [|exact Ho]. by apply sublist_inserts_r.
    + intros k s Hk <- Hto. pose proof (Forall_lookup_1 _ _ _ _ Hfine Hk) as (Eto & _).
      rewrite <- Hto, Eto in Hpc. destruct (got_enqueued n k s pc Hn Hk Hpc). by etrans.
Qed.
End network.

(** ** Examples *)

Module TransportExample.
Import Inbox.

Definition hello : Message := addressed 1 4 (voteReqMsg 2 5 true 7 3).

(** A handler passes the check, [shutdown] waits for it, and a late one is turned away. *)
Definition racing : st :=
  mkSt (mkServer 2 [hello] true true 0 false) [TDone; TDone; TDone] false.

Definition racing_seen : list event :=
  [Inv 0 (CDeliver hello); Inv 1 CShutdown; Inv 2 (CDeliver hello); Fin 0; Fin 1; Fin 2].

Lemma runs_thread i x h y t t' s' :
  runs x h y → st_panicked y = false → st_threads y !! i = Some t → advance t (st_server y) = Some (Ret (t', s')) →
  runs x (h ++ returned i t') (mkSt s' (<[i := t']> (st_threads y)) false).
Proof. destruct y as [s ts p]. cbn. intros Hr -> Hi E. eapply runs_more; [exact Hr|by econstructor]. Qed.

Lemma racing_runs : runs (start 2) racing_seen racing.
Proof.
  pose proof (runs_more _ _ _ _ _ (runs_none (start 2)) (step_spawn _ _ (DStart hello) I)) as H.
  apply (λ H, runs_more _ _ _ _ _ H (step_spawn _ _ CStart I)) in H.
  apply (λ H, runs_more _ _ _ _ _ H (step_spawn _ _ (DStart hello) I)) in H.
  do 4 (eapply (runs_thread 0) in H; [|reflexivity..]; cbn in H).
  do 5 (eapply (runs_thread 1) in H; [|reflexivity..]; cbn in H).
  do 3 (eapply (runs_thread 2) in H; [|reflexivity..]; cbn in H). exact H.
Qed.

Definition resolve (a : string) : option NodeID :=
  if String.eqb a "one" then Some 1%N else if String.eqb a "two" then Some 2%N else None.

Definition peers : list Peer := [mkPeer 1 "one"; mkPeer 2 "two"].
Definition cfg (i : NodeID) (listen : string) : GRPCConfig := mkGRPCConfig i listen peers 0 0 0 0 0 0 0.

Definition node (i : NodeID) : GRPC :=
  let c := grpc_withDefaults (cfg i "here") in mkGRPC c (connect_peers c) (mkSpec 1024 [] false) false [].

Definition two_nodes : net := mkNet {[1%N := node 1; 2%N := node 2]} [].

Definition acts : list net_act :=
  [ADial 1 2 true; AOpen 1 2 true; ASend 1 hello false; ASend 1 hello false; APump 1 2 true; APump 1 2 true;
   AArrive 0; AArrive 0; AWire 0 (λ _, []); ACloseBegin 1; ADone 1 2; ACloseEnd 1].

Definition run (n : net) : option net :=
  foldl (λ n a, match n with Some n => net_perform resolve a n | None => None end) (Some n) acts.

Lemma run_reach n : run two_nodes = Some n → net_reach resolve n.
Proof.
  assert (net_reach resolve two_nodes) as H0.
  { constructor. split; [done|]. intros i t. unfold two_nodes. cbn [n_nodes].
    intros [[<- <-]|[_ [<- <-]%lookup_singleton_Some]]%lookup_insert_Some.
    - exists (Ret tt), (cfg 1 "here"). split_and!; [vm_compute; reflexivity|done|by repeat constructor].
    - exists (Ret tt), (cfg 2 "here"). split_and!; [vm_compute; reflexivity|done|by repeat constructor]. }
  assert (Forall net_act_ok acts) as Hok.
  { repeat (apply Forall_cons; split; [first [exact I|exact sublist_nil_l|split; [done|eexists; split; [done|done]]]|]). constructor. }
  unfold run. revert H0 Hok. generalize two_nodes as n0. generalize acts as l.
  induction l as [|a l IH]; intros n0 H0 Hok E; cbn in E; [by simplify_eq|].
  apply Forall_cons in Hok as [Ha Hok]. destruct (net_perform resolve a n0) as [n1|] eqn:E1.
  - apply (IH n1); [by eapply net_next|done|done].
  - exfalso. clear -E. induction l; done.
Qed.
End TransportExample.

Lemma inbox_is_atomic_witness :
  Inbox.st_panicked TransportExample.racing = false ∧
  length (Inbox.sv_inbox (Inbox.st_server TransportExample.racing)) ≤ 2 ∧
  ∃ H, filter Inbox.seen H = TransportExample.racing_seen ∧
    Inbox.legal (Inbox.mkSpec 2 [] false) H = Some (Inbox.abstract TransportExample.racing) ∧
    ∀ i, ∃ c k, filter (Inbox.of_call i) H = take k [Inbox.Inv i c; Inbox.Act i c; Inbox.Fin i].
Proof. apply (Inbox.inbox_is_atomic 2), TransportExample.racing_runs. Defined.

Lemma delivery_is_sound_witness :
  ∃ n t pc, n_nodes n !! 2%N = Some t ∧ peer_of n 1 2 = Some pc ∧ length (t_received t) = 2 ∧
    filter (λ m, m_From m = 1%N) (t_received t) ⊆+ pc_enqueued pc.
Proof.
  destruct (TransportExample.run TransportExample.two_nodes) as [n|] eqn:E; [|vm_compute in E; discriminate].
  destruct (n_nodes n !! 2%N) as [t|] eqn:Ht; [|revert Ht; vm_compute in E; injection E as <-; vm_compute; discriminate].
  destruct (peer_of n 1 2) as [pc|] eqn:Hpc; [|revert Hpc; vm_compute in E; injection E as <-; vm_compute; discriminate].
  exists n, t, pc. split; [exact Ht|]. split; [exact Hpc|]. split.
  - revert Ht. vm_compute in E. injection E as <-. vm_compute. intros [= <-]. reflexivity.
  - eapply (delivery_is_sound TransportExample.resolve n 2 t); [by apply TransportExample.run_reach|exact Ht|exact Hpc].
Defined.
