(* ===== verification/ExactlyOnce.v ===== *)
(** * Each request takes effect once

    A log holds a client's request as often as it was retried.  [effective] is the log
    with the repetitions struck out by somebody who remembers one sequence number per
    client, and of no more than so many clients: those that wrote last.  The store of
    [kvstore/kvstore.go], whose sessions ([kvstore/session.go]) are a map that is pruned
    by age, is shown to hold what a plain map holds after the effective commands.  A
    request takes effect again only if its client was forgotten in between, which takes
    as many other clients as there are sessions.  That every request takes effect needs
    the client to wait: one that has two requests under way loses the one that is
    overtaken. *)

From S2P Require Import Prelude Varint GoMaps Types KVStore.

(** ** Striking out repetitions *)

(** Clients and their highest numbers so far, those that wrote last first. *)
Abbreviation memory := (list (N * N)) (only parsing).

Definition recall (mem : memory) (c : N) : option N := (list_to_map mem : gmap N N) !! c.

Definition stale (mem : memory) (c : Command) : bool :=
  negb (cmd_ClientID c =? 0)%N &&
  match recall mem (cmd_ClientID c) with Some q => (cmd_Sequence c <=? q)%N | None => false end.

(** The client moves to the front, and the last one over [cap] is forgotten. *)
Definition note (cap : nat) (mem : memory) (c : Command) : memory :=
  if (cmd_ClientID c =? 0)%N then mem
  else take cap ((cmd_ClientID c, cmd_Sequence c) :: filter (λ p, p.1 ≠ cmd_ClientID c) mem).

Fixpoint effective (cap : nat) (mem : memory) (cmds : list Command) : list Command :=
  match cmds with
  | [] => []
  | c :: cmds' => if stale mem c then effective cap mem cmds' else c :: effective cap (note cap mem c) cmds'
  end.

(** What is remembered after a command. *)
Definition next (cap : nat) (mem : memory) (c : Command) : memory := if stale mem c then mem else note cap mem c.

(** Which of the commands are struck out. *)
Fixpoint struck (cap : nat) (mem : memory) (cmds : list Command) : list bool :=
  match cmds with
  | [] => []
  | c :: cmds' => stale mem c :: struck cap (next cap mem c) cmds'
  end.

(** A map without sessions. *)
Definition apply_plain (d : gmap bytes bytes) (c : Command) : gmap bytes bytes :=
  match applyOp c d with Some (_, d') => d' | None => d end.

Definition decoded (es : list LogEntry) (cmds : list Command) : Prop :=
  Forall2 (λ e c, DecodeCommand (e_Command e) = Ret c) es cmds.

Definition clients (cmds : list Command) : gset N :=
  list_to_set (filter (λ c, c ≠ 0%N) (cmd_ClientID <$> cmds)).

Definition request (c : Command) : N * N := (cmd_ClientID c, cmd_Sequence c).

(** A client's requests reach the log in the order of their numbers, however often. *)
Definition in_order (cmds : list Command) : Prop :=
  ∀ pre c post, cmds = pre ++ c :: post → cmd_ClientID c ≠ 0%N →
    request c ∈ request <$> pre ∨ ∀ c', c' ∈ pre → cmd_ClientID c' = cmd_ClientID c → (cmd_Sequence c' < cmd_Sequence c)%N.

(** ** What is remembered *)

Lemma recall_Some mem c q : NoDup mem.*1 → recall mem c = Some q ↔ (c, q) ∈ mem.
Proof. intros Hnd. unfold recall. symmetry. by apply elem_of_list_to_map. Qed.

Lemma recall_None mem c : recall mem c = None ↔ c ∉ mem.*1.
Proof. unfold recall. symmetry. apply not_elem_of_list_to_map. Qed.

Lemma stale_spec mem c :
  stale mem c = true ↔ cmd_ClientID c ≠ 0%N ∧ ∃ q, recall mem (cmd_ClientID c) = Some q ∧ (cmd_Sequence c ≤ q)%N.
Proof.
  unfold stale. rewrite andb_true_iff, negb_true_iff, N.eqb_neq. destruct (recall mem _) as [q|].
  - rewrite N.leb_le. split; [intros [? ?]; eauto|]. intros (? & q' & [= <-] & ?). done.
  - split; [by intros [_ ?]|]. by intros (_ & q & ? & _).
Qed.

Lemma moved_front_NoDup (k v : N) mem :
  NoDup mem.*1 → NoDup (((k, v) :: filter (λ p, p.1 ≠ k) mem).*1).
Proof.
  intros Hnd. rewrite fmap_cons. constructor; cbn.
  - intros ([k' v'] & -> & [? _]%list_elem_of_filter)%list_elem_of_fmap. done.
  - eapply sublist_NoDup; [exact Hnd|]. apply fmap_sublist, sublist_filter.
Qed.

Lemma note_NoDup cap mem c : NoDup mem.*1 → NoDup (note cap mem c).*1.
Proof.
  intros Hnd. unfold note. destruct (cmd_ClientID c =? 0)%N; [done|]. rewrite fmap_take.
  eapply sublist_NoDup; [by apply moved_front_NoDup|apply sublist_take].
Qed.

Lemma moved_front_recall (k v : N) mem c :
  NoDup mem.*1 →
  recall ((k, v) :: filter (λ p, p.1 ≠ k) mem) c = if decide (c = k) then Some v else recall mem c.
Proof.
  intros Hnd. pose proof (moved_front_NoDup k v mem Hnd) as Hnd'. destruct (decide (c = k)) as [->|Hne].
  - apply recall_Some; [done|by left].
  - apply option_eq. intros q. rewrite !recall_Some by done. rewrite elem_of_cons, list_elem_of_filter. cbn.
    split; [intros [[=]|[_ ?]]; done|]. intros ?. by right.
Qed.

(** Nobody is forgotten while all clients fit. *)
Lemma note_recall cap mem c (C : gset N) k :
  NoDup mem.*1 → list_to_set mem.*1 ⊆ C → size C ≤ cap → cmd_ClientID c ∈ C → cmd_ClientID c ≠ 0%N →
  recall (note cap mem c) k = if decide (k = cmd_ClientID c) then Some (cmd_Sequence c) else recall mem k.
Proof.
  intros Hnd Hsub Hcap Hc H0. unfold note. rewrite (proj2 (N.eqb_neq _ _)) by done.
  pose proof (moved_front_NoDup (cmd_ClientID c) (cmd_Sequence c) mem Hnd) as Hnd'.
  rewrite take_ge; [by apply moved_front_recall|]. etrans; [|exact Hcap].
  rewrite <- (length_fmap fst), <- (size_list_to_set (C := gset N)) by done. apply subseteq_size.
  intros x (p & -> & Hp)%elem_of_list_to_set%list_elem_of_fmap.
  apply elem_of_cons in Hp as [->|[_ Hp]%list_elem_of_filter]; [done|].
  apply Hsub, elem_of_list_to_set. by apply list_elem_of_fmap_2.
Qed.

Lemma note_clients cap mem c (C : gset N) :
  list_to_set mem.*1 ⊆ C → (cmd_ClientID c ≠ 0%N → cmd_ClientID c ∈ C) → list_to_set (note cap mem c).*1 ⊆ C.
Proof.
  intros Hsub Hc x. unfold note. destruct (N.eqb_spec (cmd_ClientID c) 0); [apply Hsub|].
  rewrite elem_of_list_to_set. intros (p & -> & Hp%elem_of_take)%list_elem_of_fmap. destruct Hp as (k & Hk & _).
  apply list_elem_of_lookup_2, elem_of_cons in Hk as [->|[_ Hp]%list_elem_of_filter]; [by apply Hc|].
  apply Hsub, elem_of_list_to_set. by apply list_elem_of_fmap_2.
Qed.

(** ** The store and the plain map *)

Section store.
Context `{R : MapRange}.

(** The sessions by age are the memory. *)
Definition mirrors (mem : memory) s : Prop :=
  ∃ l : list (N * session),
    NoDup l.*1 ∧ (∀ k a, st_sessions s !! k = Some a ↔ (k, a) ∈ l) ∧
    StronglySorted (λ p p', (sess_lastIndex p'.2 < sess_lastIndex p.2)%N) l ∧
    mem = (λ p, (p.1, lastSeq p.2)) <$> l.

Lemma mirrors_size l s :
  NoDup l.*1 → (∀ k a, st_sessions s !! k = Some a ↔ (k, a) ∈ l) → size (st_sessions s) = length l.
Proof.
  intros Hnd Hl. assert (st_sessions s = list_to_map l) as ->.
  { apply map_eq. intros k. apply option_eq. intros a. rewrite Hl. by apply elem_of_list_to_map. }
  by apply map_size_list_to_map.
Qed.

Lemma mirrors_recall mem s k : mirrors mem s → recall mem k = lastSeq <$> st_sessions s !! k.
Proof.
  intros (l & Hnd & Hl & _ & ->). unfold recall.
  assert (((λ p, (p.1, lastSeq p.2)) <$> l).*1 = l.*1) as E1 by (rewrite <- list_fmap_compose; by apply list_fmap_ext).
  apply option_eq. intros q. rewrite <- elem_of_list_to_map by (by rewrite E1). rewrite list_elem_of_fmap. split.
  - intros ([k' a] & [= -> ->] & Hp). apply Hl in Hp. by rewrite Hp.
  - intros (a & Ha & ->)%fmap_Some. apply Hl in Ha. by exists (k, a).
Qed.

Lemma mirrors_stale mem s c :
  mirrors mem s → stale mem c = bool_decide (is_Some (checkSession (cmd_ClientID c) (cmd_Sequence c) s)).
Proof.
  intros Hm. unfold stale, checkSession. rewrite (mirrors_recall mem s _ Hm). destruct (cmd_ClientID c =? 0)%N; [done|].
  destruct (st_sessions s !! cmd_ClientID c) as [prev|]; cbn; [|done].
  rewrite N.leb_antisym. by destruct (lastSeq prev <? cmd_Sequence c)%N.
Qed.

(** Pruning by one drops the oldest session, and nothing else. *)
Lemma evict_one s k0 a0 :
  (1 ≤ st_maxSessions s)%Z → Z.of_nat (size (st_sessions s)) = (st_maxSessions s + 1)%Z →
  st_sessions s !! k0 = Some a0 →
  (∀ k a, st_sessions s !! k = Some a → k ≠ k0 → (sess_lastIndex a0 < sess_lastIndex a)%N) →
  st_sessions (evictSessions s) = delete k0 (st_sessions s).
Proof.
  intros Hmax Hsize H0 Hold. destruct (evictSessions_spec s) as (_ & Hsub & Hsz & Hage); [lia|].
  set (ss' := st_sessions (evictSessions s)) in *.
  assert (ss' !! k0 = None) as Hk0.
  { destruct (ss' !! k0) as [b|] eqn:Eb; [|done]. exfalso.
    pose proof (lookup_weaken _ _ _ _ Eb Hsub) as Eb'. rewrite H0 in Eb'. injection Eb' as <-.
    assert (st_sessions s ⊆ ss') as Hd%map_subseteq_size; [|lia].
    apply map_subseteq_spec. intros k a Hk. destruct (ss' !! k) as [a'|] eqn:Ek.
    - pose proof (lookup_weaken _ _ _ _ Ek Hsub). congruence.
    - exfalso. specialize (Hold k a Hk ltac:(congruence)).
      destruct (Hage k a k0 a0 Hk Ek Eb) as [|[]]; cbn in *; lia. }
  assert (ss' ⊆ delete k0 (st_sessions s)) as Hin.
  { apply map_subseteq_spec. intros k a Hk. rewrite lookup_delete_Some.
    split; [congruence|by eapply lookup_weaken]. }
  apply map_subseteq_size_eq; [done|]. rewrite (map_size_delete_Some k0) by (by eexists). lia.
Qed.

Lemma evict_mirrors l s :
  (1 ≤ st_maxSessions s)%Z → NoDup l.*1 → (∀ k a, st_sessions s !! k = Some a ↔ (k, a) ∈ l) →
  StronglySorted (λ p p', (sess_lastIndex p'.2 < sess_lastIndex p.2)%N) l →
  (length l ≤ S (Z.to_nat (st_maxSessions s)))%nat →
  ∀ k a, st_sessions (evictSessions s) !! k = Some a ↔ (k, a) ∈ take (Z.to_nat (st_maxSessions s)) l.
Proof.
  intros Hmax Hnd Hl Hsort Hlen. pose proof (mirrors_size l s Hnd Hl) as Hsize.
  destruct (decide (length l ≤ Z.to_nat (st_maxSessions s))%nat) as [Hle|Hgt].
  { intros k a. rewrite take_ge by done. rewrite <- Hl. unfold evictSessions. by rewrite (proj2 (Z.leb_le _ _)) by lia. }
  destruct l as [|[k0 a0] l' _] using rev_ind; [cbn in Hgt; lia|]. rewrite length_app in *. cbn [length] in *.
  rewrite take_app_length' by lia. rewrite fmap_app, NoDup_app in Hnd. destruct Hnd as (_ & Hdis & _).
  rewrite (evict_one s k0 a0); [|done|lia|apply Hl, elem_of_app; right; by left|].
  - intros k a. rewrite lookup_delete_Some, Hl, elem_of_app, list_elem_of_singleton. split.
    + by intros [Hne [?|[= -> ->]]].
    + intros Hin. split; [|by left]. intros <-. destruct (Hdis k0); [by apply (list_elem_of_fmap_2 fst) in Hin|by left].
  - intros k a [Hin|[= -> ->]%list_elem_of_singleton]%Hl%elem_of_app Hne; [|done].
    exact (StronglySorted_app_1_elem_of _ _ _ (k, a) (k0, a0) Hsort Hin ltac:(by left)).
Qed.

Lemma filter_fmap_fst {X Y} (f : X → Y) (k : N) (l : list (N * X)) :
  filter (λ p, p.1 ≠ k) ((λ p, (p.1, f p.2)) <$> l) = (λ p, (p.1, f p.2)) <$> filter (λ p, p.1 ≠ k) l.
Proof.
  induction l as [|p l IH]; [done|]. rewrite fmap_cons, !filter_cons. cbn.
  destruct (decide (p.1 = k)); [by rewrite !decide_False by tauto|]. by rewrite !decide_True, fmap_cons, IH by done.
Qed.

(** Recording a session moves its client to the front. *)
Lemma record_mirrors mem s c i res :
  store_ok s → (st_applied s < i)%N → mirrors mem s →
  mirrors (note (Z.to_nat (st_maxSessions s)) mem c) (recordSession (cmd_ClientID c) (cmd_Sequence c) i res s).
Proof.
  intros (Hmax & Hcap & Hidx) Hi (l & Hnd & Hl & Hsort & ->). unfold note, recordSession.
  destruct (cmd_ClientID c =? 0)%N; [by exists l|]. set (k0 := cmd_ClientID c).
  set (a0 := mkSession (cmd_Sequence c) i res). set (s1 := set_st_sessions _ s).
  set (l1 := (k0, a0) :: filter (λ p, p.1 ≠ k0) l).
  assert (NoDup l1.*1) as Hnd1.
  { unfold l1. rewrite fmap_cons. constructor; cbn.
    - intros ([k' v'] & -> & [? _]%list_elem_of_filter)%list_elem_of_fmap. done.
    - eapply sublist_NoDup; [exact Hnd|]. apply fmap_sublist, sublist_filter. }
  assert (∀ k a, st_sessions s1 !! k = Some a ↔ (k, a) ∈ l1) as Hl1.
  { intros k a. unfold l1. rewrite elem_of_cons, list_elem_of_filter. cbn [st_sessions s1 set_st_sessions].
    rewrite lookup_insert_Some, Hl. cbn. split; [intros [[-> ->]|[? ?]]; auto|]. intros [[= -> ->]|[? ?]]; auto. }
  assert (StronglySorted (λ p p', (sess_lastIndex p'.2 < sess_lastIndex p.2)%N) l1) as Hsort1.
  { constructor; [by apply StronglySorted_filter|]. apply Forall_forall. intros [k a] [_ Ha%Hl]%list_elem_of_filter.
    specialize (Hidx k a Ha). cbn in *. lia. }
  pose proof (mirrors_size l s Hnd Hl) as Hsize.
  assert (length l1 ≤ S (Z.to_nat (st_maxSessions s)))%nat as Hlen.
  { unfold l1. cbn [length]. pose proof (length_filter (λ p, p.1 ≠ k0) l). lia. }
  exists (take (Z.to_nat (st_maxSessions s)) l1). split_and!.
  - rewrite fmap_take. eapply sublist_NoDup; [exact Hnd1|apply sublist_take].
  - by apply (evict_mirrors l1 s1).
  - rewrite <- (take_drop (Z.to_nat (st_maxSessions s)) l1) in Hsort1. by eapply StronglySorted_app_1_l.
  - rewrite fmap_take. f_equal. unfold l1. rewrite fmap_cons. f_equal. by apply filter_fmap_fst.
Qed.

Lemma Apply_mirrors e c s res s' mem :
  store_ok s → (st_applied s < e_Index e)%N → mirrors mem s →
  DecodeCommand (e_Command e) = Ret c → Apply e s = (Ret res, s') →
  Duplicate res = stale mem c ∧
  mirrors (next (Z.to_nat (st_maxSessions s)) mem c) s' ∧
  st_data s' = if stale mem c then st_data s else apply_plain (st_data s) c.
Proof.
  intros Hok Hi Hm HD HA. rewrite (Apply_unfold e s c HD) in HA. unfold next. rewrite (mirrors_stale mem s c Hm).
  destruct (checkSession (cmd_ClientID c) (cmd_Sequence c) s) as [r|] eqn:EC.
  - simplify_eq. rewrite bool_decide_true by eauto. split_and!; [|done|done].
    unfold checkSession in EC. repeat case_match; by simplify_eq.
  - rewrite bool_decide_false by (by intros []). unfold apply_plain.
    destruct (applyOp c (st_data s)) as [[r d]|] eqn:EO; [|done]. simplify_eq. split_and!.
    + unfold applyOp, noResult in EO. repeat case_match; by simplify_eq.
    + exact (record_mirrors mem (set_st_data d s) c (e_Index e) res Hok Hi Hm).
    + cbn. unfold recordSession, evictSessions. by repeat case_match.
Qed.

Lemma ApplyAll_effective es cmds s rs s' mem :
  store_ok s → ascending (st_applied s) es → mirrors mem s →
  decoded es cmds → ApplyAll es s = (Ret rs, s') →
  let cap := Z.to_nat (st_maxSessions s) in
  st_data s' = foldl apply_plain (st_data s) (effective cap mem cmds) ∧ Duplicate <$> rs = struck cap mem cmds.
Proof.
  intros Hok Hasc Hm Hdec. revert s rs s' mem Hok Hasc Hm.
  induction Hdec as [|e c es cmds HD Hdec IH]; intros s rs s' mem Hok Hasc Hm HA.
  { cbn in HA. unfold ret in HA. by simplify_eq. }
  destruct Hasc as [Hi Hasc]. cbn in HA. unfold bind in HA. destruct (Apply e s) as [[res| | |] s1] eqn:E1; try done.
  destruct (ApplyAll es s1) as [[more| | |] s2] eqn:E2; try done. unfold ret in HA. simplify_eq.
  destruct (Apply_store_ok e s res s1 Hok Hi E1) as (Hok1 & Ea & Em).
  destruct (Apply_mirrors e c s res s1 mem Hok Hi Hm HD E1) as (Ed & Hm1 & Eda).
  destruct (IH s1 more s' _ Hok1 ltac:(by rewrite Ea) Hm1 E2) as [-> EQ]. rewrite Em, Eda in *. cbn zeta.
  rewrite fmap_cons, EQ, Ed. cbn [effective struck foldl]. unfold next. by destruct (stale mem c).
Qed.

(** ** What is effective *)

Lemma effective_sublist cap mem cmds : effective cap mem cmds `sublist_of` cmds.
Proof.
  revert mem. induction cmds as [|c cmds IH]; intros mem; cbn; [constructor|].
  case_match; [by apply sublist_cons|by apply sublist_skip].
Qed.
Lemma clients_cons c cmds : clients (c :: cmds) = (if decide (cmd_ClientID c = 0%N) then ∅ else {[cmd_ClientID c]}) ∪ clients cmds.
Proof.
  unfold clients. rewrite fmap_cons, filter_cons.
  destruct (decide (cmd_ClientID c = 0%N)) as [E|E]; [rewrite decide_False by tauto; set_solver|].
  rewrite decide_True by done. set_solver.
Qed.

(** The memory at some point of the log. *)
Lemma effective_split cap mem cmds pre c rest :
  NoDup mem.*1 → effective cap mem cmds = pre ++ c :: rest →
  ∃ mem' cmds', NoDup mem'.*1 ∧ rest = effective cap (note cap mem' c) cmds' ∧ cmds' `sublist_of` cmds.
Proof.
  revert mem pre. induction cmds as [|c0 cmds IH]; intros mem pre Hnd E; cbn in E; [by destruct pre|].
  destruct (stale mem c0).
  - destruct (IH mem pre Hnd E) as (mem' & cmds' & ? & ? & ?). exists mem', cmds'. split_and!; try done. by apply sublist_cons.
  - destruct pre as [|c1 pre]; cbn in E; injection E as -> E.
    + exists mem, cmds. split_and!; [done..|by apply sublist_cons].
    + destruct (IH (note cap mem c1) pre (note_NoDup _ _ _ Hnd) E) as (mem' & cmds' & ? & ? & ?).
      exists mem', cmds'. split_and!; try done. by apply sublist_cons.
Qed.

(** Another client that writes pushes one back, by no more than the clients in front. *)
Lemma note_pushes cap mem c cid q (K : gset N) front back :
  NoDup mem.*1 → mem = front ++ (cid, q) :: back → list_to_set front.*1 ⊆ K →
  cmd_ClientID c ≠ 0%N → cmd_ClientID c ≠ cid → (size ({[cmd_ClientID c]} ∪ K) < cap)%nat →
  ∃ front' back', note cap mem c = front' ++ (cid, q) :: back' ∧ list_to_set front'.*1 ⊆ {[cmd_ClientID c]} ∪ K.
Proof.
  intros Hnd -> Hsub H0 Hne Hcap. pose proof (moved_front_NoDup (cmd_ClientID c) (cmd_Sequence c) _ Hnd) as Hnd'.
  unfold note. rewrite (proj2 (N.eqb_neq _ _)) by done. rewrite filter_app, filter_cons_True in * by (cbn; congruence).
  set (front' := (cmd_ClientID c, cmd_Sequence c) :: filter (λ p, p.1 ≠ cmd_ClientID c) front).
  assert (list_to_set front'.*1 ⊆ ({[cmd_ClientID c]} ∪ K : gset N)) as Hf.
  { unfold front'. rewrite fmap_cons. cbn. apply union_mono_l. etrans; [|exact Hsub].
    intros x (p & -> & [_ Hp]%list_elem_of_filter)%elem_of_list_to_set%list_elem_of_fmap.
    apply elem_of_list_to_set. by apply list_elem_of_fmap_2. }
  assert (length front' < cap)%nat as Hlen.
  { eapply Nat.le_lt_trans; [|exact Hcap]. rewrite <- (length_fmap fst), <- (size_list_to_set (C := gset N)).
    - by apply subseteq_size.
    - eapply sublist_NoDup; [exact Hnd'|]. unfold front'. rewrite !fmap_cons, fmap_app. apply sublist_skip.
      by apply sublist_inserts_r. }
  rewrite app_comm_cons. fold front'. rewrite take_app_ge by lia.
  destruct (cap - length front')%nat as [|k] eqn:Ek; [lia|]. cbn [take]. eauto.
Qed.

(** A client's number is effective again only after so many others were. *)
Lemma effective_again cap mem cmds cid q (K : gset N) front back mid c post :
  cid ≠ 0%N → NoDup mem.*1 → mem = front ++ (cid, q) :: back → list_to_set front.*1 ⊆ K →
  effective cap mem cmds = mid ++ c :: post → cmd_ClientID c = cid → (cmd_Sequence c ≤ q)%N →
  (cap ≤ size (K ∪ clients mid ∖ {[cid]}))%nat.
Proof.
  intros H0. revert mem q K front back mid. induction cmds as [|c0 cmds IH];
    intros mem q K front back mid Hnd Em Hsub E Ec Hq; cbn in E; [by destruct mid|].
  destruct (stale mem c0) eqn:Est; [by eapply IH|].
  assert (recall mem cid = Some q) as Hrec by (apply recall_Some; [done|]; rewrite Em; set_solver).
  destruct mid as [|c1 mid]; cbn in E; injection E as -> E.
  { exfalso. apply not_true_iff_false in Est. apply Est, stale_spec. rewrite Ec. eauto. }
  pose proof (note_NoDup cap mem c1 Hnd) as Hnd1. rewrite clients_cons.
  destruct (decide (cmd_ClientID c1 = 0%N)) as [E0|E0].
  { rewrite union_empty_l_L. eapply IH; [exact Hnd1|..|exact E|done|exact Hq]; [|exact Hsub].
    unfold note. by rewrite E0. }
  destruct (decide (cmd_ClientID c1 = cid)) as [E1|E1].
  - destruct (decide (cap = 0)%nat) as [->|Hc0]; [lia|].
    assert (∃ back', note cap mem c1 = (cid, cmd_Sequence c1) :: back') as [back' En].
    { unfold note. rewrite (proj2 (N.eqb_neq _ _)), E1 by done. destruct cap as [|k]; [done|]. cbn [take]. eauto. }
    assert (q < cmd_Sequence c1)%N as Hlt.
    { apply N.nle_gt. intros Hle. apply not_true_iff_false in Est. apply Est, stale_spec. rewrite E1. eauto. }
    etrans; [eapply (IH _ (cmd_Sequence c1) ∅ []); [exact Hnd1|exact En|set_solver|exact E|done|lia]|].
    apply subseteq_size. set_solver.
  - destruct (decide (size ({[cmd_ClientID c1]} ∪ K) < cap)%nat) as [Hroom|Hfull].
    + destruct (note_pushes cap mem c1 cid q K front back) as (front' & back' & En & Hf); [done..|].
      etrans; [eapply (IH _ q _ front'); [exact Hnd1|exact En|exact Hf|exact E|done|done]|]. apply subseteq_size. set_solver.
    + etrans; [apply Nat.nlt_ge; exact Hfull|]. apply subseteq_size. set_solver.
Qed.

Lemma note_front cap mem c :
  cmd_ClientID c ≠ 0%N → (1 ≤ cap)%nat → ∃ back, note cap mem c = [] ++ (cmd_ClientID c, cmd_Sequence c) :: back.
Proof.
  intros H0 Hc. unfold note. rewrite (proj2 (N.eqb_neq _ _)) by done. destruct cap as [|k]; [lia|]. cbn [take app]. eauto.
Qed.

Lemma clients_sublist l l' : l `sublist_of` l' → clients l ⊆ clients l'.
Proof.
  intros Hs x. unfold clients. rewrite !elem_of_list_to_set, !list_elem_of_filter. intros [Hx (c & -> & Hc)%list_elem_of_fmap].
  split; [done|]. apply list_elem_of_fmap_2. eapply elem_of_submseteq; [exact Hc|by apply sublist_submseteq].
Qed.

(** With no more clients than are remembered nothing is effective twice. *)
Lemma effective_NoDup cap mem cmds (C : gset N) :
  NoDup mem.*1 → clients cmds ⊆ C → (size C ≤ cap)%nat →
  NoDup (request <$> filter (λ c, cmd_ClientID c ≠ 0%N) (effective cap mem cmds)).
Proof.
  intros Hnd HC Hcap. revert mem Hnd HC. induction cmds as [|c cmds IH]; intros mem Hnd HC; cbn [effective]; [constructor|].
  rewrite clients_cons in HC. destruct (stale mem c) eqn:Est; [apply IH; [done|set_solver]|].
  pose proof (note_NoDup cap mem c Hnd) as Hnd1. destruct (decide (cmd_ClientID c = 0%N)) as [Hc|Hc].
  { rewrite filter_cons_False by tauto. apply IH; [done|set_solver]. }
  rewrite filter_cons_True by done. rewrite fmap_cons. constructor; [|apply IH; [done|set_solver]].
  intros (c' & [= E1 E2] & [Hc' Hin]%list_elem_of_filter)%list_elem_of_fmap.
  apply list_elem_of_split in Hin as (mid & post & E).
  assert (1 ≤ size C)%nat as Hpos.
  { rewrite <- (size_singleton (C := gset N) (cmd_ClientID c)). apply subseteq_size. set_solver. }
  destruct (note_front cap mem c Hc) as [back En]; [lia|].
  pose proof (effective_again cap _ cmds (cmd_ClientID c) (cmd_Sequence c) ∅ [] back mid c' post Hc Hnd1 En
    ltac:(set_solver) E (eq_sym E1) ltac:(lia)) as Hge.
  assert (clients mid ⊆ C) as Hm.
  { etrans; [|etrans; [|exact HC]]; [apply clients_sublist|apply union_subseteq_r].
    etrans; [|apply (effective_sublist cap (note cap mem c))]. rewrite E. apply sublist_inserts_r. done. }
  assert (size (∅ ∪ clients mid ∖ {[cmd_ClientID c]}) < size C)%nat; [|lia].
  apply subset_size. set_solver.
Qed.

(** Numbers remembered stand for requests made. *)
Definition seen_in (mem : memory) (pre : list Command) : Prop :=
  ∀ k q, (k, q) ∈ mem → k ≠ 0%N ∧ ∃ c', c' ∈ pre ∧ request c' = (k, q).

Lemma seen_in_note cap mem pre c : seen_in mem pre → seen_in (note cap mem c) (pre ++ [c]).
Proof.
  assert (∀ k q, k ≠ 0%N ∧ (∃ c', c' ∈ pre ∧ request c' = (k, q)) → k ≠ 0%N ∧ ∃ c', c' ∈ pre ++ [c] ∧ request c' = (k, q)) as Hw.
  { intros k q (? & c' & ? & ?). split; [done|]. exists c'. set_solver. }
  intros Hseen k q. unfold note. destruct (N.eqb_spec (cmd_ClientID c) 0) as [E0|E0]; [intros Hin; by apply Hw, Hseen|].
  intros (i & Hi & _)%elem_of_take. apply list_elem_of_lookup_2, elem_of_cons in Hi as [[= -> ->]|[_ Hin]%list_elem_of_filter].
  - split; [done|]. exists c. set_solver.
  - by apply Hw, Hseen.
Qed.

Lemma effective_complete cap mem eff pre cmds c :
  in_order (pre ++ cmds) → NoDup mem.*1 → seen_in mem pre →
  (∀ c, c ∈ pre → cmd_ClientID c ≠ 0%N → request c ∈ request <$> eff) →
  c ∈ pre ++ cmds → cmd_ClientID c ≠ 0%N → request c ∈ request <$> (eff ++ effective cap mem cmds).
Proof.
  revert mem eff pre. induction cmds as [|c0 cmds IH]; intros mem eff pre Hord Hnd Hseen Heff Hin Hc.
  { rewrite app_nil_r in *. by apply Heff. }
  assert (pre ++ c0 :: cmds = (pre ++ [c0]) ++ cmds) as Eapp by (by rewrite <- app_assoc).
  cbn [effective]. destruct (stale mem c0) eqn:Est.
  - apply (IH mem eff (pre ++ [c0])); rewrite <- ?Eapp; try done.
    + intros k q Hq. destruct (Hseen k q Hq) as (? & c' & ? & ?). split; [done|]. exists c'. set_solver.
    + intros c1 [Hc1|Hc1%list_elem_of_singleton]%elem_of_app Hn; [by apply Heff|]. subst c1.
      destruct (Hord pre c0 cmds eq_refl Hn) as [(c' & E & Hc')%list_elem_of_fmap|Hall].
      * rewrite E. apply Heff; [done|]. injection E as E _. congruence.
      * exfalso. apply stale_spec in Est as (_ & q & Eq & Hle). apply recall_Some in Eq; [|done].
        destruct (Hseen _ _ Eq) as (_ & c' & Hin' & [= E1 E2]). specialize (Hall c' Hin' E1). lia.
  - rewrite (app_assoc eff [c0] (effective cap _ cmds) : eff ++ c0 :: _ = _).
    apply (IH (note cap mem c0) (eff ++ [c0]) (pre ++ [c0])); rewrite <- ?Eapp; try done.
    + by apply note_NoDup.
    + by apply seen_in_note.
    + intros c1 [Hc1|Hc1%list_elem_of_singleton]%elem_of_app Hn; rewrite fmap_app; apply elem_of_app.
      * left. by apply Heff.
      * right. subst c1. by left.
Qed.

Lemma new_mirrors n : mirrors [] (NewWithSessionLimit n).
Proof. exists []. split_and!; [constructor| |constructor|done]. intros k a. cbn. by rewrite lookup_empty, elem_of_nil. Qed.

Lemma new_cap n : Z.to_nat (st_maxSessions (NewWithSessionLimit n)) = Z.to_nat (Z.max n 1).
Proof. cbn. destruct (Z.ltb_spec n 1); lia. Qed.

(** C9: Once, and only once.  Take any log, in which requests are repeated as often as clients
    and leaders liked.  The store that remembers [cap] clients ends up as a plain map does
    after the effective commands alone, and it answers as duplicates exactly those struck
    out.  A request is effective again only after so many other clients were effective
    since that its session is gone; so never, while there are no more clients than
    sessions.  And if every client's requests reached the log in order, each of them is
    effective. *)
Theorem exactly_once n es cmds rs s :
  decoded es cmds → ascending 0 es → ApplyAll es (NewWithSessionLimit n) = (Ret rs, s) →
  let cap := Z.to_nat (Z.max n 1) in let eff := effective cap [] cmds in
  st_data s = foldl apply_plain ∅ eff ∧ Duplicate <$> rs = struck cap [] cmds ∧ eff `sublist_of` cmds ∧
  (∀ pre c mid c' post, eff = pre ++ c :: mid ++ c' :: post → cmd_ClientID c ≠ 0%N → request c' = request c →
     (cap ≤ size (clients mid ∖ {[cmd_ClientID c]}))%nat) ∧
  ((size (clients cmds) ≤ cap)%nat → NoDup (request <$> filter (λ c, cmd_ClientID c ≠ 0%N) eff)) ∧
  (in_order cmds → ∀ c, c ∈ cmds → cmd_ClientID c ≠ 0%N → request c ∈ request <$> eff).
Proof.
  intros Hdec Hasc HA cap eff.
  destruct (ApplyAll_effective es cmds _ rs s [] (NewWithSessionLimit_ok n) Hasc (new_mirrors n) Hdec HA) as [Hdata Hdup].
  rewrite new_cap in Hdata, Hdup. split_and!; [exact Hdata|exact Hdup|apply effective_sublist|..].
  - intros pre c mid c' post E Hc [= E1 E2].
    destruct (effective_split cap [] cmds pre c (mid ++ c' :: post)) as (mem' & cmds' & Hnd & Er & _); [constructor|done|].
    destruct (note_front cap mem' c Hc) as [back En]; [subst cap; lia|].
    pose proof (effective_again cap _ cmds' (cmd_ClientID c) (cmd_Sequence c) ∅ [] back mid c' post Hc
      (note_NoDup _ _ _ Hnd) En ltac:(set_solver) (eq_sym Er) E1 ltac:(lia)) as Hge.
    by rewrite union_empty_l_L in Hge.
  - intros Hroom. by eapply effective_NoDup; [constructor| |exact Hroom].
  - intros Hord c Hin Hc. apply (effective_complete cap [] [] [] cmds c);
      [exact Hord|apply NoDup_nil_2|by intros ? ? ?%elem_of_nil|by intros ? ?%elem_of_nil|exact Hin|exact Hc].
Qed.

(** ** A client with two requests under way *)

Lemma effective_app cap mem pre post :
  effective cap mem (pre ++ post) = effective cap mem pre ++ effective cap (foldl (next cap) mem pre) post.
Proof.
  revert mem. induction pre as [|c pre IH]; intros mem; cbn; [done|]. unfold next at 2.
  destruct (stale mem c); rewrite IH; done.
Qed.

Lemma struck_app cap mem pre post :
  struck cap mem (pre ++ post) = struck cap mem pre ++ struck cap (foldl (next cap) mem pre) post.
Proof. revert mem. induction pre as [|c pre IH]; intros mem; cbn; [done|]. by rewrite IH. Qed.

Lemma length_struck cap mem cmds : length (struck cap mem cmds) = length cmds.
Proof. revert mem. induction cmds as [|c cmds IH]; intros mem; cbn; [done|]. by rewrite IH. Qed.

(** With no more clients than are remembered, the highest number of each is. *)
Section everybody.
Variables (cap : nat) (C : gset N).
Hypothesis Hcap : (size C ≤ cap)%nat.

Definition fits (mem : memory) : Prop := NoDup mem.*1 ∧ list_to_set mem.*1 ⊆ C.

Lemma fits_next mem c : fits mem → (cmd_ClientID c ≠ 0%N → cmd_ClientID c ∈ C) → fits (next cap mem c).
Proof.
  intros [Hnd Hs] Hc. unfold next. destruct (stale mem c); [done|].
  split; [by apply note_NoDup|by apply note_clients].
Qed.

Lemma next_recall mem c k q :
  fits mem → (cmd_ClientID c ≠ 0%N → cmd_ClientID c ∈ C) → recall mem k = Some q →
  ∃ q', recall (next cap mem c) k = Some q' ∧ (q ≤ q')%N.
Proof.
  intros [Hnd Hs] Hc Hq. unfold next. destruct (stale mem c) eqn:Est; [eauto|].
  destruct (decide (cmd_ClientID c = 0%N)) as [E|E]; [unfold note; rewrite E; eauto|].
  rewrite (note_recall cap mem c C) by auto. case_decide as Ek; [|eauto]. subst k.
  eexists. split; [done|]. apply N.lt_le_incl, N.nle_gt. intros Hle.
  apply not_true_iff_false in Est. apply Est, stale_spec. eauto.
Qed.

Lemma next_own mem c :
  fits mem → cmd_ClientID c ∈ C → cmd_ClientID c ≠ 0%N →
  ∃ q, recall (next cap mem c) (cmd_ClientID c) = Some q ∧ (cmd_Sequence c ≤ q)%N.
Proof.
  intros [Hnd Hs] Hc E. unfold next. destruct (stale mem c) eqn:Est; [by apply stale_spec in Est as [_ ?]|].
  rewrite (note_recall cap mem c C), decide_True by auto. eauto.
Qed.

Lemma after_recall mem cmds k q :
  fits mem → clients cmds ⊆ C → recall mem k = Some q →
  fits (foldl (next cap) mem cmds) ∧ ∃ q', recall (foldl (next cap) mem cmds) k = Some q' ∧ (q ≤ q')%N.
Proof.
  revert mem q. induction cmds as [|c cmds IH]; intros mem q Hf HC Hq; cbn; [eauto|].
  rewrite clients_cons in HC.
  assert (cmd_ClientID c ≠ 0%N → cmd_ClientID c ∈ C) as Hc by (intros ?; rewrite decide_False in HC by done; set_solver).
  destruct (next_recall mem c k q Hf Hc Hq) as (q1 & Hq1 & Hle).
  destruct (IH (next cap mem c) q1) as (? & q2 & ? & ?); [by apply fits_next|set_solver|done|]. split; [done|].
  exists q2. split; [done|lia].
Qed.

(** What was requested is remembered. *)
Lemma after_requests mem cmds c :
  fits mem → clients cmds ⊆ C → c ∈ cmds → cmd_ClientID c ≠ 0%N →
  fits (foldl (next cap) mem cmds) ∧
  ∃ q, recall (foldl (next cap) mem cmds) (cmd_ClientID c) = Some q ∧ (cmd_Sequence c ≤ q)%N.
Proof.
  intros Hf HC (pre & post & ->)%list_elem_of_split Hc. rewrite foldl_app. cbn [foldl].
  assert (∀ l mem, fits mem → clients l ⊆ C → fits (foldl (next cap) mem l)) as Hfits.
  { clear. intros l. induction l as [|x l IH]; intros mem Hf HC; cbn; [done|]. rewrite clients_cons in HC.
    apply IH; [|set_solver]. apply fits_next; [done|]. intros ?. rewrite decide_False in HC by done. set_solver. }
  assert (clients pre ⊆ C ∧ clients post ⊆ C ∧ cmd_ClientID c ∈ C) as (Hp & Hq & Hin).
  { split_and!; [etrans; [apply clients_sublist|exact HC]; by apply sublist_inserts_r|..].
    - etrans; [apply clients_sublist|exact HC]. apply sublist_inserts_l. by apply sublist_cons.
    - apply HC. unfold clients. rewrite elem_of_list_to_set, list_elem_of_filter. split; [done|].
      apply list_elem_of_fmap_2. set_solver. }
  pose proof (Hfits pre mem Hf Hp) as Hf1. destruct (next_own _ c Hf1 Hin Hc) as (q & Eq & Hle).
  destruct (after_recall (next cap (foldl (next cap) mem pre) c) post (cmd_ClientID c) q) as (? & q' & ? & ?);
    [by apply fits_next|done|done|]. split; [done|]. exists q'. split; [done|lia].
Qed.

(** A number below the one remembered is not effective. *)
Lemma effective_above mem cmds c q :
  fits mem → clients cmds ⊆ C → recall mem (cmd_ClientID c) = Some q → c ∈ effective cap mem cmds →
  cmd_ClientID c ≠ 0%N → (q < cmd_Sequence c)%N.
Proof.
  revert mem q. induction cmds as [|c0 cmds IH]; intros mem q Hf HC Hq; cbn [effective]; [by intros ?%elem_of_nil|].
  intros Hin Hc. rewrite clients_cons in HC.
  assert (cmd_ClientID c0 ≠ 0%N → cmd_ClientID c0 ∈ C) as Hc0 by (intros ?; rewrite decide_False in HC by done; set_solver).
  destruct (next_recall mem c0 _ q Hf Hc0 Hq) as (q1 & Hq1 & Hle). pose proof (fits_next mem c0 Hf Hc0) as Hf1.
  unfold next in Hq1, Hf1. destruct (stale mem c0) eqn:Est; [by eapply IH; [| |exact Hq| |]; [|set_solver| |]|].
  apply elem_of_cons in Hin as [->|Hin].
  - apply N.nle_gt. intros ?. apply not_true_iff_false in Est. apply Est, stale_spec. eauto.
  - assert (q1 < cmd_Sequence c)%N; [|lia]. eapply IH; [exact Hf1|set_solver|exact Hq1|done|done].
Qed.
End everybody.

(** C39: A write that is overtaken is lost.  [Client] numbers requests from an atomic counter
    and may have several under way.  Take any log, of no more clients than the store
    remembers, in which a request is preceded by a later one of its client and not by
    itself.  It is answered as a duplicate, so like a success; and neither it nor any
    repetition is among the effective commands that alone make up the map. *)
Theorem overtaken_write_is_lost n es cmds rs s pre c post c' :
  decoded es cmds → ascending 0 es → ApplyAll es (NewWithSessionLimit n) = (Ret rs, s) →
  (Z.of_nat (size (clients cmds)) ≤ Z.max n 1)%Z →
  cmds = pre ++ c :: post → cmd_ClientID c ≠ 0%N → request c ∉ request <$> pre →
  c' ∈ pre → cmd_ClientID c' = cmd_ClientID c → (cmd_Sequence c < cmd_Sequence c')%N →
  let eff := effective (Z.to_nat (Z.max n 1)) [] cmds in
  (∃ res, rs !! length pre = Some res ∧ Duplicate res = true) ∧
  st_data s = foldl apply_plain ∅ eff ∧ request c ∉ request <$> eff.
Proof.
  intros Hdec Hasc HA Hroom -> Hc Hnin Hin Ec Hlt eff. set (cap := Z.to_nat (Z.max n 1)) in *.
  destruct (ApplyAll_effective es _ _ rs s [] (NewWithSessionLimit_ok n) Hasc (new_mirrors n) Hdec HA) as [Hdata Hdup].
  rewrite new_cap in Hdata, Hdup. fold cap in Hdata, Hdup.
  set (C := clients (pre ++ c :: post)) in *. assert (size C ≤ cap)%nat as Hcap by (unfold cap; lia).
  assert (fits C []) as Hf by (split; [apply NoDup_nil_2|set_solver]).
  assert (clients pre ⊆ C) as HCp by (apply clients_sublist; by apply sublist_inserts_r).
  assert (clients (c :: post) ⊆ C) as HCq by (apply clients_sublist; by apply sublist_inserts_l).
  destruct (after_requests cap C Hcap [] pre c' Hf HCp Hin ltac:(congruence)) as (Hf1 & q & Hq & Hle).
  rewrite Ec in Hq. set (mem := foldl (next cap) [] pre) in *. split_and!; [|exact Hdata|].
  - assert ((Duplicate <$> rs) !! length pre = Some true) as (res & -> & ?)%list_lookup_fmap_Some; [|by exists res].
    rewrite Hdup, struck_app, lookup_app_r; rewrite length_struck; [|done]. rewrite Nat.sub_diag. cbn. f_equal.
    apply stale_spec. split; [done|]. exists q. split; [done|lia].
  - unfold eff. rewrite effective_app. fold mem. rewrite fmap_app, elem_of_app. intros [(x & E & Hx)%list_elem_of_fmap|(x & E & Hx)%list_elem_of_fmap].
    + apply Hnin. rewrite E. apply list_elem_of_fmap_2. eapply elem_of_submseteq; [exact Hx|].
      apply sublist_submseteq, effective_sublist.
    + injection E as E1 E2. rewrite E1 in Hq.
      pose proof (effective_above cap C Hcap mem _ x q Hf1 HCq Hq Hx ltac:(congruence)). lia.
Qed.
End store.

Module OnceExample.
Definition key_a : bytes := [Byte.x61].
Definition key_b : bytes := [Byte.x62].
Definition value : bytes := [Byte.x76].

Definition set_entry (i : Index) (clientID seq : N) (k v : bytes) : LogEntry :=
  mkEntry 1 i EntryNormal
    (match SessionSetCommand clientID seq k v with Ret b => b | _ => [] end).

(** The second request of a client overtakes its first, both are retried once. *)
Definition overtaken : list LogEntry :=
  [set_entry 1 7 2 key_b value; set_entry 2 7 1 key_a value; set_entry 3 7 2 key_b value; set_entry 4 7 1 key_a value].

Definition orderly : list LogEntry :=
  [set_entry 1 7 1 key_a value; set_entry 2 7 1 key_a value; set_entry 3 7 2 key_b value; set_entry 4 7 1 key_a value].

End OnceExample.
Import OnceExample.

Lemma overtaken_write_is_lost_witness :
  ∃ rs s, @ApplyAll forward_range overtaken NewStore = (Ret rs, s) ∧
    (∃ res, rs !! 1%nat = Some res ∧ Duplicate res = true) ∧
    Duplicate <$> rs = [false; true; true; true] ∧ st_data s !! key_b = Some value ∧ st_data s !! key_a = None.
Proof.
  do 2 eexists. split; [reflexivity|]. split; [|split_and!; vm_compute; reflexivity].
  eapply (overtaken_write_is_lost (R := forward_range) DefaultMaxSessions overtaken
    [mkCommand OpSet key_b value 7 2; mkCommand OpSet key_a value 7 1; mkCommand OpSet key_b value 7 2;
     mkCommand OpSet key_a value 7 1] _ _ [mkCommand OpSet key_b value 7 2] (mkCommand OpSet key_a value 7 1)
    [mkCommand OpSet key_b value 7 2; mkCommand OpSet key_a value 7 1] (mkCommand OpSet key_b value 7 2)).
  - repeat (constructor; [vm_compute; reflexivity|]). constructor.
  - by vm_compute.
  - reflexivity.
  - vm_compute. discriminate.
  - reflexivity.
  - done.
  - cbn. by intros [=]%list_elem_of_singleton.
  - by left.
  - done.
  - by vm_compute.
Defined.

Lemma exactly_once_witness :
  ∃ rs s cmds, @ApplyAll forward_range orderly (NewWithSessionLimit 1) = (Ret rs, s) ∧ decoded orderly cmds ∧
    st_data s = foldl apply_plain ∅ (effective 1 [] cmds) ∧ length (effective 1 [] cmds) = 2.
Proof.
  do 2 eexists. exists [mkCommand OpSet key_a value 7 1; mkCommand OpSet key_a value 7 1;
    mkCommand OpSet key_b value 7 2; mkCommand OpSet key_a value 7 1].
  assert (decoded orderly [mkCommand OpSet key_a value 7 1; mkCommand OpSet key_a value 7 1;
    mkCommand OpSet key_b value 7 2; mkCommand OpSet key_a value 7 1]) as Hdec.
  { repeat (constructor; [vm_compute; reflexivity|]). constructor. }
  split; [reflexivity|]. split; [exact Hdec|]. split; [|vm_compute; reflexivity].
  eapply (exactly_once (R := forward_range) 1 orderly); [exact Hdec|by vm_compute|reflexivity].
Defined.
