(* ===== verification/ReadBarriers.v ===== *)
(** * What a read barrier promises

    A linearizable read asks the driver for a barrier ([node/read.go], [raft/read.go]) and
    waits until the state machine has applied the index it is given.  For the read to be
    no older than any write completed before it, that index must be at least the commit
    index of the leader when it was asked.  It is exactly that one, however long the
    answer takes and whatever happens meanwhile: no call other than [ReadIndex] makes up
    a barrier, and the driver gives an answer only to the caller it belongs to.  Nor is a
    barrier confirmed but by a quorum of the configuration in force, whose members
    answered the leader under the number of the read and in its term ([confirmed]): what
    keeps a leader that was deposed unnoticed from answering. *)

From S2P Require Import Prelude Varint GoMaps Types Config Storage RaftLog RawNode KVStore Node Driver.

(** ** No call makes up a barrier *)

Section rawnode.
Context {S G : Type} `{Hst : Storage S} `{Hrand : Rand G}.
Local Abbreviation RN := (RawNode S G).
Implicit Types r : RN.

(** The barriers of a node, confirmed or not, each with its index. *)
Definition barriers r : list (N * Index) :=
  ((λ q, (rr_id q, rr_index q)) <$> rn_pendingReads r) ++ ((λ s, (rs_ID s, rs_Index s)) <$> rn_readStates r).

(** What may confirm a barrier while one message is handled: [L] holds, [C] is the
    configuration in force, and [W id v] that the message acknowledges the read [id] on
    behalf of [v]. *)
Section confirming.
Variables (L : Prop) (C : Configuration) (W : N → NodeID → Prop).

(** The barrier is confirmed, or becomes so by those who acknowledged it and those who do. *)
Definition yields r (s : ReadState) : Prop :=
  s ∈ rn_readStates r ∨
  L ∧ ∃ q f, q ∈ rn_pendingReads r ∧ rr_id q = rs_ID s ∧ rr_index q = rs_Index s ∧
    HasQuorum C f = true ∧ ∀ v, f v = true → acked (rr_acks q) v = true ∨ W (rr_id q) v.

(** Barriers are only acknowledged, confirmed and dropped, and none outlives its term. *)
Record attends r r' : Prop := {
  at_pending q' : q' ∈ rn_pendingReads r' →
    rn_term r' = rn_term r ∧
    ∃ q, q ∈ rn_pendingReads r ∧ rr_id q = rr_id q' ∧ rr_index q = rr_index q' ∧
      ∀ v, acked (rr_acks q') v = true → acked (rr_acks q) v = true ∨ W (rr_id q) v;
  at_states s : s ∈ rn_readStates r' → yields r s
}.

Lemma attends_same r r' :
  rn_pendingReads r' = rn_pendingReads r → rn_readStates r' = rn_readStates r → rn_term r' = rn_term r → attends r r'.
Proof.
  intros Ep Es Et. split; [|intros s; rewrite Es; by left].
  intros q. rewrite Ep. intros Hq. split; [done|]. exists q. split_and!; auto.
Qed.

#[export] Instance attends_refl : Reflexive attends.
Proof. intros r. by apply attends_same. Qed.

Lemma attends_dropped r r' : rn_pendingReads r' = [] → rn_readStates r' = [] → attends r r'.
Proof. intros Ep Es. split; [rewrite Ep|rewrite Es]; by intros ? ?%elem_of_nil. Qed.

Lemma attends_yields r r' s : attends r r' → yields r' s → yields r s.
Proof.
  intros [Hp Hs] [Hin|(HL & q' & f & Hq' & Ei & Ex & Hf & Hv)]; [by apply Hs|].
  destruct (Hp q' Hq') as (_ & q & Hq & Ei' & Ex' & Ha). right. split; [done|]. exists q, f.
  split_and!; [done|congruence|congruence|done|]. intros v [Hv'|Hw]%Hv; [by apply Ha|right; by rewrite Ei'].
Qed.

#[export] Instance attends_trans : Transitive attends.
Proof.
  intros r1 r2 r3 H12 H23. split; [|intros s Hs; eapply attends_yields; [done|by apply H23]].
  intros q3 Hq3. destruct (at_pending _ _ H23 q3 Hq3) as (E23 & q2 & Hq2 & Ei2 & Ex2 & Ha2).
  destruct (at_pending _ _ H12 q2 Hq2) as (E12 & q1 & Hq1 & Ei1 & Ex1 & Ha1). split; [congruence|].
  exists q1. split_and!; [done|congruence|congruence|]. intros v [Hv|Hw]%Ha2; [by apply Ha1|right; by rewrite Ei1].
Qed.

Lemma yields_barrier r s : yields r s → (rs_ID s, rs_Index s) ∈ barriers r.
Proof.
  intros [Hs|(_ & q & f & Hq & <- & <- & _)]; unfold barriers; apply elem_of_app; [right|left].
  - by apply (list_elem_of_fmap_2 (λ s, (rs_ID s, rs_Index s))).
  - by apply (list_elem_of_fmap_2 (λ q, (rr_id q, rr_index q))).
Qed.

Lemma attends_barriers r r' : attends r r' → barriers r' ⊆ barriers r.
Proof.
  intros [Hp Hs] x [(q & -> & Hq)%list_elem_of_fmap|(s & -> & Hq%Hs)%list_elem_of_fmap]%elem_of_app.
  - destruct (Hp q Hq) as (_ & q0 & Hq0 & <- & <- & _). apply elem_of_app. left.
    by apply (list_elem_of_fmap_2 (λ q, (rr_id q, rr_index q))).
  - by apply yields_barrier.
Qed.

Definition calm {A} (m : M RN A) : Prop := ∀ r, attends r (snd (m r)).

Lemma calm_ret {A} (a : A) : calm (ret a).
Proof. by intros r. Qed.
Lemma calm_get : calm get.
Proof. by intros r. Qed.
Lemma calm_fail {A} e : calm (fail e : M RN A).
Proof. by intros r. Qed.
Lemma calm_panic {A} p : calm (panic p : M RN A).
Proof. by intros r. Qed.
Lemma calm_outOfFuel {A} : calm (outOfFuel : M RN A).
Proof. by intros r. Qed.
Lemma calm_reads {A} (f : RN → outcome A) : calm (reads f).
Proof. by intros r. Qed.
Lemma calm_modify (f : RN → RN) : (∀ r, attends r (f r)) → calm (modify f).
Proof. intros Hf r. apply Hf. Qed.

Lemma calm_bind {A B} (m : M RN A) (f : A → M RN B) : calm m → (∀ a, calm (f a)) → calm (bind m f).
Proof.
  intros Hm Hf r. unfold bind. specialize (Hm r). destruct (m r) as [[] r']; cbn in *; try done.
  etrans; [done|apply Hf].
Qed.

Lemma calm_try {A} (m : M RN A) : calm m → calm (try m).
Proof. intros Hm r. unfold try. specialize (Hm r). by destruct (m r) as [[] r']. Qed.
Lemma calm_wrapErr {A} msg (m : M RN A) : calm m → calm (wrapErr msg m).
Proof. intros Hm r. unfold wrapErr. specialize (Hm r). by destruct (m r) as [[] r']. Qed.
Lemma calm_forEach {A} (l : list A) body : (∀ x, calm (body x)) → calm (forEach l body).
Proof. intros Hb. induction l as [|x l IH]; cbn; [apply calm_ret|]. by apply calm_bind. Qed.
Lemma calm_on_log {A} (m : M (raftLog S) A) : calm (on_log m).
Proof. intros r. unfold on_log, zoom. destruct (m (rn_log r)). by apply attends_same. Qed.
Lemma calm_on_disk {A} (m : M S A) : calm (on_disk m).
Proof. apply calm_on_log. Qed.

Create HintDb no_barrier.
#[local] Hint Resolve calm_ret calm_get calm_fail calm_panic calm_outOfFuel calm_reads calm_on_log calm_on_disk : no_barrier.

Ltac calm :=
  repeat match goal with
  | |- calm (bind _ _) => apply calm_bind; [|intros ?]
  | |- calm (try _) => apply calm_try
  | |- calm (wrapErr _ _) => apply calm_wrapErr
  | |- calm (forEach _ _) => apply calm_forEach; intros ?
  | |- calm (match ?x with _ => _ end) => destruct x
  | |- calm (modify _) => apply calm_modify; intros ?; repeat case_match; by apply attends_same
  | |- _ => solve [auto with no_barrier]
  end.

Lemma calm_send m : calm (send m : M RN unit).
Proof. unfold send. calm. Qed.
Lemma calm_setProgress id p : calm (setProgress id p : M RN unit).
Proof. unfold setProgress. calm. Qed.
Lemma calm_persistHardState : calm (persistHardState : M RN unit).
Proof. unfold persistHardState. calm. Qed.
#[local] Hint Resolve calm_send calm_setProgress calm_persistHardState : no_barrier.

(** A change of term or role drops every barrier. *)
Lemma calm_reset t : calm (reset t : M RN unit).
Proof.
  intros r. apply attends_dropped; unfold reset, resetRandomizedElectionTimeout, dropPendingReads, bind, modify, get;
    destruct (negb (rn_term r =? t)%N); by cbn.
Qed.
#[local] Hint Resolve calm_reset : no_barrier.
Lemma calm_becomeFollower t l : calm (becomeFollower t l : M RN unit).
Proof. unfold becomeFollower. calm. Qed.
Lemma calm_setConfiguration c i : calm (setConfiguration c i : M RN unit).
Proof. unfold setConfiguration, refreshProgress. calm. Qed.
#[local] Hint Resolve calm_becomeFollower calm_setConfiguration : no_barrier.
Lemma calm_refreshConfiguration : calm (refreshConfiguration : M RN unit).
Proof. unfold refreshConfiguration. calm. Qed.
#[local] Hint Resolve calm_refreshConfiguration : no_barrier.
Lemma calm_refreshIfNeeded es : calm (refreshConfigurationIfNeeded es : M RN unit).
Proof. unfold refreshConfigurationIfNeeded. calm. Qed.
Lemma calm_stepDownIfRemoved : calm (stepDownIfRemoved : M RN unit).
Proof. unfold stepDownIfRemoved. calm. Qed.
Lemma calm_sendSnapshot to : calm (sendSnapshot to : M RN unit).
Proof. unfold sendSnapshot. calm. Qed.
#[local] Hint Resolve calm_refreshIfNeeded calm_stepDownIfRemoved calm_sendSnapshot : no_barrier.
Lemma calm_sendAppendWithRead to id : calm (sendAppendWithRead to id : M RN unit).
Proof. unfold sendAppendWithRead. calm. Qed.
#[local] Hint Resolve calm_sendAppendWithRead : no_barrier.
Lemma calm_sendAppend to : calm (sendAppend to : M RN unit).
Proof. apply calm_sendAppendWithRead. Qed.
#[local] Hint Resolve calm_sendAppend : no_barrier.
Lemma calm_broadcastAppend : calm (broadcastAppend : M RN unit).
Proof. unfold broadcastAppend. calm. Qed.
#[local] Hint Resolve calm_broadcastAppend : no_barrier.

(** The calls that call one another, by the depth left to them. *)
Lemma calm_proposing fuel :
  (∀ ty cmd, calm (propose fuel ty cmd : M RN Index)) ∧ calm (maybeAdvanceCommit fuel : M RN bool) ∧
  calm (maybeLeaveJoint fuel : M RN unit).
Proof.
  induction fuel as [|k (IH1 & IH2 & IH3)]; [split_and!; intros; apply calm_outOfFuel|].
  split_and!; intros; cbn [propose maybeAdvanceCommit maybeLeaveJoint]; calm.
Qed.
Lemma calm_propose fuel ty cmd : calm (propose fuel ty cmd : M RN Index).
Proof. apply calm_proposing. Qed.
Lemma calm_maybeAdvanceCommit fuel : calm (maybeAdvanceCommit fuel : M RN bool).
Proof. apply calm_proposing. Qed.
#[local] Hint Resolve calm_propose calm_maybeAdvanceCommit : no_barrier.

Lemma calm_becomeLeader : calm (becomeLeader : M RN unit).
Proof. unfold becomeLeader. calm. Qed.
Lemma calm_recordVote f g : calm (recordVote f g : M RN unit).
Proof. unfold recordVote. calm. Qed.
Lemma calm_enterCampaign p : calm (enterCampaign p : M RN Term).
Proof. unfold enterCampaign, becomePreCandidate, becomeCandidate, resetRandomizedElectionTimeout. calm. Qed.
#[local] Hint Resolve calm_becomeLeader calm_recordVote calm_enterCampaign : no_barrier.

Lemma calm_campaigning fuel : (∀ p, calm (campaign fuel p : M RN unit)) ∧ calm (tallyVotes fuel : M RN bool).
Proof.
  induction fuel as [|k [IH1 IH2]]; [split; intros; apply calm_outOfFuel|].
  split; intros; cbn [campaign tallyVotes]; calm.
Qed.
Lemma calm_campaign fuel p : calm (campaign fuel p : M RN unit).
Proof. apply calm_campaigning. Qed.
Lemma calm_tallyVotes fuel : calm (tallyVotes fuel : M RN bool).
Proof. apply calm_campaigning. Qed.
#[local] Hint Resolve calm_campaign calm_tallyVotes : no_barrier.

Lemma calm_acknowledge from pr i : calm (acknowledge from pr i : M RN unit).
Proof. unfold acknowledge. calm. Qed.
#[local] Hint Resolve calm_acknowledge : no_barrier.

(** Confirming a barrier takes a quorum. *)
Lemma ackLoop_attends from id reqs confirmed waiting :
  L → W id from → ackLoop C from id reqs = (confirmed, waiting) →
  (∀ q', q' ∈ waiting → ∃ q, q ∈ reqs ∧ rr_id q = rr_id q' ∧ rr_index q = rr_index q' ∧
     ∀ v, acked (rr_acks q') v = true → acked (rr_acks q) v = true ∨ W (rr_id q) v) ∧
  (∀ s, s ∈ confirmed → ∃ q f, q ∈ reqs ∧ rr_id q = rs_ID s ∧ rr_index q = rs_Index s ∧
     HasQuorum C f = true ∧ ∀ v, f v = true → acked (rr_acks q) v = true ∨ W (rr_id q) v).
Proof.
  intros HL HW. revert confirmed waiting. induction reqs as [|q reqs IH]; intros confirmed waiting E; cbn in E.
  { simplify_eq. split; by intros ? ?%elem_of_nil. }
  assert (∀ q', q' ∈ reqs → ∃ q0, q0 ∈ q :: reqs ∧ rr_id q0 = rr_id q' ∧ rr_index q0 = rr_index q' ∧
    ∀ v, acked (rr_acks q') v = true → acked (rr_acks q0) v = true ∨ W (rr_id q0) v) as Hkeep.
  { intros q' Hq'. exists q'. split_and!; [by right|auto..]. }
  destruct (N.eqb_spec (rr_id q) id) as [<-|]; cbn [negb] in E.
  - assert (∀ v, acked (<[from := true]> (rr_acks q)) v = true → acked (rr_acks q) v = true ∨ W (rr_id q) v) as Hack.
    { intros v. unfold acked. destruct (decide (v = from)) as [->|]; [by right|rewrite lookup_insert_ne by done; by left]. }
    destruct (HasQuorum C _) eqn:EQ; simplify_eq.
    + split; [done|]. intros s ->%list_elem_of_singleton. exists q, (acked (<[from := true]> (rr_acks q))).
      split_and!; [by left|done..].
    + split; [|by intros ? ?%elem_of_nil]. intros q' [->|Hq']%elem_of_cons; [|by apply Hkeep].
      exists q. split_and!; [by left|done..].
  - destruct (ackLoop C from id reqs) as [c w]. simplify_eq. destruct (IH _ _ eq_refl) as [H1 H2]. split.
    + intros q' [->|Hq']%elem_of_cons; [exists q; split_and!; [by left|auto..]|].
      destruct (H1 q' Hq') as (q0 & ? & ?). exists q0. split; [by right|done].
    + intros s Hs. destruct (H2 s Hs) as (q0 & f & ? & ?). exists q0, f. split; [by right|done].
Qed.

Lemma ackRead_attends from id r : L → rn_conf r = C → W id from → attends r (snd (ackRead from id r)).
Proof.
  intros HL HC HW. unfold ackRead, modify. cbn [snd]. rewrite HC.
  destruct (ackLoop C from id (rn_pendingReads r)) as [c w] eqn:E.
  apply ackLoop_attends in E as [H1 H2]; [|done..]. split; cbn; [auto|].
  intros s [Hs|Hs]%elem_of_app; [by left|right]. split; [done|by apply H2].
Qed.

(** Only the answer to an append acknowledges a read. *)
Lemma handleAppendResponse_attends m r :
  (rn_state r = Leader → L ∧ rn_conf r = C ∧ W (m_ReadID m) (m_From m)) →
  attends r (snd (handleAppendResponse m r)).
Proof.
  intros Hm. unfold handleAppendResponse. unfold bind at 1. cbn [get]. case_bool_decide as Hl; cbn [negb]; [|done].
  destruct (progressOf r (m_From m)) as [pr|]; [|done]. destruct (Hm Hl) as (HL & HC & HW).
  unfold bind at 1. destruct (negb (m_ReadID m =? 0)%N).
  - pose proof (ackRead_attends (m_From m) (m_ReadID m) r HL HC HW) as Ha. cbn [ackRead modify snd] in *.
    unfold ackRead, modify in *. cbn [snd] in Ha. etrans; [exact Ha|].
    match goal with |- attends ?r1 (snd (?m ?r1)) => assert (calm m) as Hc by calm; apply Hc end.
  - cbn [ret]. match goal with |- attends ?r1 (snd (?m ?r1)) => assert (calm m) as Hc by calm; apply Hc end.
Qed.

Lemma calm_stepHigherTerm m : calm (stepHigherTerm m : M RN unit).
Proof. unfold stepHigherTerm. calm. Qed.
Lemma calm_stepLowerTerm m : calm (stepLowerTerm m : M RN unit).
Proof. unfold stepLowerTerm. calm. Qed.
#[local] Hint Resolve calm_stepHigherTerm calm_stepLowerTerm : no_barrier.

Lemma dispatch_attends m r :
  (m_Type m = MsgAppendResp → rn_state r = Leader → L ∧ rn_conf r = C ∧ W (m_ReadID m) (m_From m)) →
  attends r (snd (dispatch m r)).
Proof.
  intros Hm. unfold dispatch. destruct (m_Type m) eqn:Et; [..|done].
  4: by apply handleAppendResponse_attends, Hm.
  all: unfold handleVoteRequest, handleVoteResponse, handleAppendRequest, handleSnapshotRequest, handleSnapshotResponse;
    match goal with |- attends ?r1 (snd (?m ?r1)) => assert (calm m) as Hc by calm; apply Hc end.
Qed.

Lemma calm_Tick : calm (Tick : M RN unit).
Proof. unfold Tick, tickHeartbeat, tickElection, expirePendingSnapshots. calm. Qed.
Lemma calm_Propose cmd : calm (Propose cmd : M RN Index).
Proof. apply calm_propose. Qed.
Lemma calm_ProposeConfChange c : calm (ProposeConfChange c : M RN Index).
Proof. unfold ProposeConfChange. calm. Qed.
Lemma calm_CreateSnapshot d : calm (CreateSnapshot d : M RN Snapshot).
Proof. unfold CreateSnapshot. calm. Qed.
Lemma calm_SnapshotToApply : calm (SnapshotToApply : M RN (option Snapshot)).
Proof. unfold SnapshotToApply. calm. Qed.
Lemma calm_Messages : calm (Messages : M RN (list Message)).
Proof. unfold Messages. calm. Qed.
End confirming.

(** The message [m] acknowledges the read [id] for [v] in the term [t]. *)
Definition acks (m : Message) (t : Term) (id : N) (v : NodeID) : Prop :=
  m_Type m = MsgAppendResp ∧ m_Term m = t ∧ m_ReadID m = id ∧ m_From m = v.

Lemma stepHigherTerm_follows m r r' :
  m_Type m = MsgAppendResp → stepHigherTerm m r = (Ret tt, r') → rn_state r' = Follower.
Proof.
  intros Em. unfold stepHigherTerm. rewrite Em. unfold becomeFollower. unfold bind at 1 2.
  destruct (reset (m_Term m) r) as [[] r1]; try done. unfold bind, modify, persistHardState, on_disk, on_log, zoom.
  cbn. case_bool_decide; [by intros [= <-]|]. unfold wrapErr, bind, modify. repeat case_match; intros; by simplify_eq.
Qed.

(** Only a leader's barriers are confirmed, by answers of its own term. *)
Lemma Step_attends m r :
  attends (rn_state r = Leader) (rn_conf r) (acks m (rn_term r)) r (snd (Step m r)).
Proof.
  unfold Step. unfold bind at 1. cbn [get]. destruct (_ && _); [done|].
  destruct (N.ltb_spec (rn_term r) (m_Term m)) as [Hgt|Hle].
  - unfold bind. pose proof (calm_stepHigherTerm (rn_state r = Leader) (rn_conf r) (acks m (rn_term r)) m r) as Hh.
    destruct (stepHigherTerm m r) as [[[]| | |] r1] eqn:E1; try done. cbn [snd] in Hh. etrans; [exact Hh|].
    apply dispatch_attends. intros Et Hl. pose proof (stepHigherTerm_follows m r r1 Et E1). congruence.
  - destruct (N.ltb_spec (m_Term m) (rn_term r)) as [|Hge]; [apply calm_stepLowerTerm|].
    apply dispatch_attends. intros Et Hl. split_and!; [done|done|]. repeat split; [done|lia].
Qed.

(** What [ReadIndex] may add: one barrier at the commit index, on a leader that has
    committed in its term.  It is acknowledged by the leader, or confirmed at once if that
    is a quorum. *)
Definition entitled r : Prop := rn_state r = Leader ∧ committedInCurrentTerm r = Ret true.

Definition own_request (id : N) r (q : readRequest) : Prop :=
  entitled r ∧ q = mkReadRequest id (l_committed (rn_log r)) {[rn_id r := true]}.

Definition own_state (id : N) r (s : ReadState) : Prop :=
  entitled r ∧ s = mkReadState id (l_committed (rn_log r)) ∧ HasQuorum (rn_conf r) (acked {[rn_id r := true]}) = true.

Lemma ReadIndex_own id r :
  ∃ r1, (∀ L C W, attends L C W r1 (snd (ReadIndex id r))) ∧ rn_term r1 = rn_term r ∧
    (∀ q, q ∈ rn_pendingReads r1 → q ∈ rn_pendingReads r ∨ own_request id r q) ∧
    (∀ s, s ∈ rn_readStates r1 → s ∈ rn_readStates r ∨ own_state id r s).
Proof.
  unfold ReadIndex, bind at 1. cbn [get].
  assert (∃ r1, (∀ L C W, attends L C W r1 r) ∧ rn_term r1 = rn_term r ∧
    (∀ q, q ∈ rn_pendingReads r1 → q ∈ rn_pendingReads r ∨ own_request id r q) ∧
    (∀ s, s ∈ rn_readStates r1 → s ∈ rn_readStates r ∨ own_state id r s)) as Hnone.
  { exists r. split_and!; auto. by intros. }
  case_bool_decide as Hl; cbn; [|exact Hnone].
  unfold bind at 1, reads. destruct (committedInCurrentTerm r) as [ok| | |] eqn:Ec; cbn; try exact Hnone.
  destruct ok; cbn; [|exact Hnone]. case_match eqn:EQ; cbn.
  - exists (set_readStates (rn_readStates r ++ [mkReadState id (l_committed (rn_log r))]) r).
    split_and!; cbn; auto; [by intros|]. intros s [?| ->%list_elem_of_singleton]%elem_of_app; [by left|by right].
  - exists (set_pendingReads (rn_pendingReads r ++ [mkReadRequest id (l_committed (rn_log r)) {[rn_id r := true]}]) r).
    split_and!; cbn; auto.
    + intros L C W. apply calm_forEach. intros. apply calm_sendAppendWithRead.
    + intros q [?| ->%list_elem_of_singleton]%elem_of_app; [by left|by right].
Qed.
End rawnode.

(** ** The driver answers a read with its own barrier *)

Section node.
Context {S G A Resp : Type} `{Hst : Storage S} `{Hrand : Rand G} `{HSM : !StateMachine A Resp} `{R : MapRange}.
Local Abbreviation ND := (Node S G A Resp).
Implicit Types n : ND.

Section confirming.
Variables (L : Prop) (C : Configuration) (W : N → NodeID → Prop).

(** What a step may do to reads: attend to barriers, drop callers, and answer a caller with
    the barrier it waits for once that is confirmed. *)
Record tends n n' : Prop := {
  td_reads : attends L C W (n_rn n) (n_rn n');
  td_callers id h : n_pendingReads n' !! id = Some h → n_pendingReads n !! id = Some h;
  td_seq : n_readSeq n' = n_readSeq n;
  td_answers h i : (h, ReadAt i) ∈ n_answers n' →
    (h, ReadAt i) ∈ n_answers n ∨ ∃ id, n_pendingReads n !! id = Some h ∧ yields L C W (n_rn n) (mkReadState id i)
}.

#[export] Instance tends_refl : Reflexive tends.
Proof. intros n. split; auto. reflexivity. Qed.

#[export] Instance tends_trans : Transitive tends.
Proof.
  intros n1 n2 n3 [B1 C1 S1 A1] [B2 C2 S2 A2]. split; [by etrans|auto|congruence|].
  intros h i [Hin|(id & Hid & Hb)]%A2; [by apply A1|]. right. exists id. split; [by apply C1|by eapply attends_yields].
Qed.

Definition tending {B} (m : M ND B) : Prop := ∀ n, tends n (snd (m n)).

Lemma tending_bind {B B'} (m : M ND B) (f : B → M ND B') : tending m → (∀ b, tending (f b)) → tending (bind m f).
Proof.
  intros Hm Hf n. unfold bind. specialize (Hm n). destruct (m n) as [[] n']; cbn in *; try done.
  etrans; [done|apply Hf].
Qed.
Lemma tending_ret {B} (b : B) : tending (ret b).
Proof. by intros n. Qed.
Lemma tending_fail {B} e : tending (fail e : M ND B).
Proof. by intros n. Qed.
Lemma tending_get : tending get.
Proof. by intros n. Qed.
Lemma tending_outOfFuel {B} : tending (outOfFuel : M ND B).
Proof. by intros n. Qed.
Lemma tending_modify (f : ND → ND) : (∀ n, tends n (f n)) → tending (modify f).
Proof. intros Hf n. apply Hf. Qed.
Lemma tending_try {B} (m : M ND B) : tending m → tending (try m).
Proof. intros Hm n. unfold try. specialize (Hm n). by destruct (m n) as [[] n']. Qed.
Lemma tending_wrapErr {B} msg (m : M ND B) : tending m → tending (wrapErr msg m).
Proof. intros Hm n. unfold wrapErr. specialize (Hm n). by destruct (m n) as [[] n']. Qed.
Lemma tending_forEach {B} (l : list B) body : (∀ x, tending (body x)) → tending (forEach l body).
Proof. intros Hb. induction l as [|x l IH]; cbn; [apply tending_ret|]. by apply tending_bind. Qed.

Lemma tends_on_rn {B} (m : M (RawNode S G) B) n :
  attends L C W (n_rn n) (snd (m (n_rn n))) → tends n (snd (on_rn m n)).
Proof. intros Hm. unfold on_rn, zoom. destruct (m (n_rn n)) as [o r']. split; cbn; auto. Qed.

Lemma tending_on_rn {B} (m : M (RawNode S G) B) : calm L C W m → tending (on_rn m).
Proof. intros Hm n. apply tends_on_rn, Hm. Qed.

(** Reads are not concerned. *)
Lemma tends_same n n' :
  n_rn n' = n_rn n → n_pendingReads n' = n_pendingReads n → n_readSeq n' = n_readSeq n →
  (∀ h i, (h, ReadAt i) ∈ n_answers n' → (h, ReadAt i) ∈ n_answers n) → tends n n'.
Proof. intros Er Ep Es Ha. split; rewrite ?Er, ?Ep; auto. reflexivity. Qed.

Lemma tending_on_sm {B} (m : M A B) : tending (on_sm m).
Proof. intros n. unfold on_sm, zoom. destruct (m (n_sm n)) as [o a]. by apply tends_same. Qed.

(** Answers other than a read's. *)
Lemma tending_reply h a : (∀ i, a ≠ ReadAt i) → tending (reply h a : M ND unit).
Proof.
  intros Ha. apply tending_modify. intros n. apply tends_same; cbn; auto.
  intros h' i [Hin|Hin%list_elem_of_singleton]%elem_of_app; [done|]. simplify_eq. by destruct (Ha i).
Qed.

Create HintDb tending.
#[local] Hint Resolve tending_ret tending_fail tending_get tending_outOfFuel tending_on_sm : tending.
#[local] Hint Resolve calm_Messages calm_SnapshotToApply calm_CreateSnapshot calm_Propose calm_ProposeConfChange
  calm_Tick calm_reads calm_on_log : tending.

Ltac tend :=
  repeat match goal with
  | |- tending (bind _ _) => apply tending_bind; [|intros ?]
  | |- tending (try _) => apply tending_try
  | |- tending (wrapErr _ _) => apply tending_wrapErr
  | |- tending (forEach _ _) => apply tending_forEach; intros ?
  | |- tending (on_rn _) => apply tending_on_rn; solve [auto with tending]
  | |- tending (reply _ _) => apply tending_reply; done
  | |- tending (match ?x with _ => _ end) => destruct x
  | |- _ => solve [auto with tending]
  end.

Lemma tends_callers n reads :
  (∀ id h, reads !! id = Some h → n_pendingReads n !! id = Some h) → tends n (set_reads reads n).
Proof. intros Hr. split; cbn; auto. reflexivity. Qed.

Lemma tending_forget id : tending (modify (λ n, set_reads (delete id (n_pendingReads n)) n) : M ND unit).
Proof. apply tending_modify. intros n. apply tends_callers. by intros id' h [_ ?]%lookup_delete_Some. Qed.
#[local] Hint Resolve tending_forget : tending.

Lemma tending_set_pending f : tending (modify (λ n, set_pending (f n) n) : M ND unit).
Proof. apply tending_modify. intros n. by apply tends_same. Qed.
Lemma tending_set_last f g : tending (modify (λ n, set_last (f n) (g n) n) : M ND unit).
Proof. apply tending_modify. intros n. by apply tends_same. Qed.
Lemma tending_set_sent f : tending (modify (λ n, set_sent (f n) n) : M ND unit).
Proof. apply tending_modify. intros n. by apply tends_same. Qed.
#[local] Hint Resolve tending_set_pending tending_set_last tending_set_sent : tending.

Lemma tending_failPending e : tending (failPending e : M ND unit).
Proof. unfold failPending. tend. Qed.
Lemma tending_failReads e : tending (failReads e : M ND unit).
Proof. unfold failReads. tend. Qed.
Lemma tending_resolve e r : tending (resolve e r : M ND unit).
Proof. unfold resolve. tend. Qed.
#[local] Hint Resolve tending_failPending tending_failReads tending_resolve : tending.

Lemma tending_applyEntry e : tending (applyEntry e : M ND unit).
Proof. unfold applyEntry. tend. Qed.
#[local] Hint Resolve tending_applyEntry : tending.

Lemma tending_applyCommitted : tending (applyCommitted : M ND unit).
Proof.
  unfold applyCommitted. apply tending_bind; [tend|]. intros n0. generalize (N.to_nat (l_committed (rn_log (n_rn n0)) - l_applied (rn_log (n_rn n0)))).
  induction n as [|k IH]; cbn [applyCommitted_loop]; tend.
  all: try (apply tending_on_rn; apply calm_on_log). all: done.
Qed.
Lemma tending_restoreSnapshot : tending (restoreSnapshot : M ND unit).
Proof. unfold restoreSnapshot. tend. Qed.
Lemma tending_maybeSnapshot : tending (maybeSnapshot : M ND unit).
Proof. unfold maybeSnapshot. tend. Qed.
Lemma tending_noticeStateChange : tending (noticeStateChange : M ND unit).
Proof. unfold noticeStateChange. tend. Qed.

(** A confirmed barrier is answered to the caller that waits for it. *)
Lemma resolve_loop n0 n (states : list ReadState) :
  tends n0 n → (∀ s, s ∈ states → s ∈ rn_readStates (n_rn n0)) →
  tends n0 (snd (forEach states (λ state,
    n <- get ;;
    match n_pendingReads n !! rs_ID state with
    | None => ret tt
    | Some h =>
        modify (λ n, set_reads (delete (rs_ID state) (n_pendingReads n)) n) ;;;
        reply h (ReadAt (rs_Index state))
    end) n)).
Proof.
  revert n. induction states as [|s states IH]; intros n Hn Hs; [done|]. cbn [forEach].
  unfold bind at 1. unfold bind at 1. cbn [get].
  assert (∀ s', s' ∈ states → s' ∈ rn_readStates (n_rn n0)) as Hs' by (intros; apply Hs; by right).
  destruct (n_pendingReads n !! rs_ID s) as [h|] eqn:E; [|by apply IH].
  apply IH; [|done]. destruct Hn as [B Cl Q An]. split; cbn; [done| |done|].
  - intros id h' [_ ?]%lookup_delete_Some. by apply Cl.
  - intros h' i [Hin|Hin%list_elem_of_singleton]%elem_of_app; [by apply An|]. simplify_eq. right.
    exists (rs_ID s). split; [by apply Cl|]. left. replace (mkReadState _ _) with s by by destruct s.
    apply Hs. by left.
Qed.

Lemma tending_resolveReads : tending (resolveReads : M ND unit).
Proof.
  intros n. unfold resolveReads. unfold bind at 1. unfold on_rn, zoom. cbn [ReadStates bind get modify ret].
  apply resolve_loop; [|done]. split; cbn; auto. split; cbn.
  - intros q Hq. split; [done|]. exists q. split_and!; auto.
  - by intros s ?%elem_of_nil.
Qed.
#[local] Hint Resolve tending_applyCommitted tending_restoreSnapshot tending_maybeSnapshot tending_noticeStateChange
  tending_resolveReads : tending.

Lemma tending_flush : tending (flush : M ND unit).
Proof. unfold flush. tend. Qed.
#[local] Hint Resolve tending_flush : tending.
Lemma tending_fatal d e : tending (fatal d e : M ND unit).
Proof. unfold fatal. tend. Qed.
#[local] Hint Resolve tending_fatal : tending.
Lemma tending_finish : tending (finish : M ND bool).
Proof. unfold finish. tend. Qed.
#[local] Hint Resolve tending_finish : tending.

(** Only a read request makes a barrier; only answers to appends confirm one. *)
Lemma iterate_attends (i : input) n :
  (∀ h, i ≠ InRead h) →
  (∀ m, i = InRecv (Some m) → attends L C W (n_rn n) (snd (Step m (n_rn n)))) → tends n (snd (iterate i n)).
Proof.
  intros Hi Hm. assert ((∃ m, i = InRecv (Some m)) ∨ ∀ m, i ≠ InRecv (Some m)) as [[m ->]|Hno]
    by (destruct i as [| |[m|]|?|?|?|]; eauto; by right).
  - specialize (Hm m eq_refl). apply (tends_on_rn (Step m)) in Hm. cbn [iterate]. unfold bind at 1, try.
    destruct (on_rn (Step m) n) as [[] n1]; cbn [snd] in Hm; try done; (etrans; [exact Hm|]).
    + apply tending_finish.
    + match goal with |- tends ?n1 (snd (?m ?n1)) => assert (tending m) as Ht by tend; apply Ht end.
  - assert (tending (iterate i : M ND bool)) as Ht; [|apply Ht].
    destruct i as [| |[m|]|h cmd|h|h target|]; cbn [iterate]; unfold stopped, handlePropose, handleConfChange; tend.
    + by destruct (Hno m).
    + by destruct (Hi h).
Qed.
End confirming.

(** An acknowledgement of the read [id] for [v], in the term [t]. *)
Definition hears (i : input) (t : Term) (id : N) (v : NodeID) : Prop := ∃ m, i = InRecv (Some m) ∧ acks m t id v.

Lemma iterate_tends (i : input) n :
  (∀ h, i ≠ InRead h) →
  tends (rn_state (n_rn n) = Leader) (rn_conf (n_rn n)) (hears i (rn_term (n_rn n))) n (snd (iterate i n)).
Proof.
  intros Hi. apply iterate_attends; [done|]. intros m ->. destruct (Step_attends m (n_rn n)) as [Hp Hs].
  assert (∀ id v, acks m (rn_term (n_rn n)) id v → hears (InRecv (Some m)) (rn_term (n_rn n)) id v) as Hw
    by (intros; by exists m).
  split.
  - intros q' Hq'. destruct (Hp q' Hq') as (? & q & ? & ? & ? & Ha). split; [done|]. exists q. split_and!; [done..|].
    intros v [?|?%Hw]%Ha; auto.
  - intros s [?|(? & q & f & ? & ? & ? & ? & Hf)]%Hs; [by left|right]. split; [done|]. exists q, f.
    split_and!; [done..|]. intros v [?|?%Hw]%Hf; auto.
Qed.

(** *** Requests *)

#[local] Opaque ReadIndex.

Lemma handleRead_spec h n :
  let n' := snd (handleRead h n) in let id := n_readSeq n +u 1 in
  n_readSeq n' = id ∧
  (∃ r1, (∀ L C W, attends L C W r1 (n_rn n')) ∧ rn_term r1 = rn_term (n_rn n) ∧
    (∀ q, q ∈ rn_pendingReads r1 → q ∈ rn_pendingReads (n_rn n) ∨ own_request id (n_rn n) q) ∧
    (∀ s, s ∈ rn_readStates r1 → s ∈ rn_readStates (n_rn n) ∨ own_state id (n_rn n) s)) ∧
  (n_pendingReads n' = n_pendingReads n ∨ n_pendingReads n' = <[id := h]> (n_pendingReads n)) ∧
  (∀ h' i, (h', ReadAt i) ∈ n_answers n' → (h', ReadAt i) ∈ n_answers n).
Proof.
  cbn zeta. pose proof (ReadIndex_own (n_readSeq n +u 1) (n_rn n)) as Hb.
  unfold handleRead, bind, try, on_rn, zoom, modify, get. cbn [n_rn set_readSeq n_readSeq].
  destruct (ReadIndex (n_readSeq n +u 1) (n_rn n)) as [[] r']; cbn in *.
  all: split_and!; auto.
  intros h' i [Hin|Hin%list_elem_of_singleton]%elem_of_app; [done|by simplify_eq].
Qed.

(** The barriers after a request: those there were, and its own. *)
Lemma handleRead_pending h n q :
  q ∈ rn_pendingReads (n_rn (snd (handleRead h n))) →
  rn_term (n_rn (snd (handleRead h n))) = rn_term (n_rn n) ∧
  ∃ q0, (q0 ∈ rn_pendingReads (n_rn n) ∨ own_request (n_readSeq n +u 1) (n_rn n) q0) ∧
    rr_id q0 = rr_id q ∧ rr_index q0 = rr_index q ∧ ∀ v, acked (rr_acks q) v = true → acked (rr_acks q0) v = true.
Proof.
  intros Hq. destruct (handleRead_spec h n) as (_ & (r1 & Ha & Et & Hp & _) & _). rewrite <- Et.
  destruct (at_pending _ _ _ _ _ (Ha False zeroConfiguration (λ _ _, False)) q Hq) as (E1 & q0 & Hq0 & ? & ? & Hv).
  split; [done|]. exists q0. split_and!; [by apply Hp|done|done|]. by intros v [?|[]]%Hv.
Qed.

Lemma handleRead_states h n s :
  s ∈ rn_readStates (n_rn (snd (handleRead h n))) →
  s ∈ rn_readStates (n_rn n) ∨ own_state (n_readSeq n +u 1) (n_rn n) s.
Proof.
  intros Hs. destruct (handleRead_spec h n) as (_ & (r1 & Ha & _ & _ & Hst') & _).
  destruct (at_states _ _ _ _ _ (Ha False zeroConfiguration (λ _ _, False)) s Hs) as [?|[[] _]]. by apply Hst'.
Qed.

(** Barriers and callers bear numbers given out before. *)
Definition numbered n : Prop :=
  (∀ q, q ∈ rn_pendingReads (n_rn n) → (rr_id q ≤ n_readSeq n)%N) ∧
  (∀ s, s ∈ rn_readStates (n_rn n) → (rs_ID s ≤ n_readSeq n)%N) ∧
  (∀ id h, n_pendingReads n !! id = Some h → (id ≤ n_readSeq n)%N).

Lemma tends_numbered L C W n n' : tends L C W n n' → numbered n → numbered n'.
Proof.
  intros [[Hp Hs] Cl Q _] (H1 & H2 & H3). unfold numbered. rewrite Q. split_and!.
  - intros q' Hq'. destruct (Hp q' Hq') as (_ & q & Hq & <- & _). by apply H1.
  - intros s [Hin|(_ & q & f & Hq & <- & _)]%Hs; [by apply H2|by apply H1].
  - intros id h Hid. by eapply H3, Cl.
Qed.

Lemma handleRead_numbered h n :
  numbered n → (n_readSeq n + 1 < W64)%N → numbered (snd (handleRead h n)).
Proof.
  intros (H1 & H2 & H3) Hw. pose proof (handleRead_pending h n) as Hp. pose proof (handleRead_states h n) as Hs.
  destruct (handleRead_spec h n) as (Q & _ & Cl & _). rewrite u64_add_small in * by done.
  unfold numbered. rewrite Q. split_and!.
  - intros q (_ & q0 & [Hq0%H1|[_ ->]] & <- & _)%Hp; cbn; lia.
  - intros s [Hin%H2|(_ & -> & _)]%Hs; cbn; lia.
  - intros id h' Hid. destruct Cl as [Cl|Cl]; rewrite Cl in Hid; [apply H3 in Hid; lia|].
    apply lookup_insert_Some in Hid as [[<- _]|[_ Hid%H3]]; lia.
Qed.

(** The caller [h] waits for the read [id], or was answered: at an index satisfying [good],
    after being [sure].  The barrier belongs to the term [t], and those who acknowledged it
    satisfy [heard]. *)
Record promised (h id : N) (t : Term) (good : Index → Prop) (sure : Prop) (heard : NodeID → Prop) n : Prop := {
  pm_numbered : numbered n;
  pm_given : (id ≤ n_readSeq n)%N;
  pm_caller id' : n_pendingReads n !! id' = Some h → id' = id;
  pm_pending q : q ∈ rn_pendingReads (n_rn n) → rr_id q = id →
    good (rr_index q) ∧ rn_term (n_rn n) = t ∧ ∀ v, acked (rr_acks q) v = true → heard v;
  pm_states s : s ∈ rn_readStates (n_rn n) → rs_ID s = id → good (rs_Index s) ∧ sure;
  pm_answers i : (h, ReadAt i) ∈ n_answers n → good i ∧ sure
}.

(** A barrier is confirmed by a quorum of those heard. *)
Lemma promised_tends h id t good sure (heard heard' : NodeID → Prop) L C W n n' :
  tends L C W n n' → promised h id t good sure heard n →
  (∀ v, heard v → heard' v) → (∀ v, rn_term (n_rn n) = t → W id v → heard' v) →
  (L → rn_term (n_rn n) = t → ∀ f, HasQuorum C f = true → (∀ v, f v = true → heard' v) → sure) →
  promised h id t good sure heard' n'.
Proof.
  intros Ht [Hn Hg Hc Hp Hs Ha] Hmono HW HL.
  assert (∀ s, yields L C W (n_rn n) s → rs_ID s = id → good (rs_Index s) ∧ sure) as Hy.
  { intros s [Hin|(Hl & q & f & Hq & Ei & Ex & Hf & Hv)] Es; [by apply Hs|].
    destruct (Hp q Hq ltac:(congruence)) as (Hgood & Et & Hh). rewrite <- Ex. split; [done|].
    eapply HL; [done..|]. intros v [?|Hw]%Hv; [by apply Hmono, Hh|]. apply HW; [done|congruence]. }
  pose proof Ht as [[Hat Has] Cl Q An]. split.
  - by eapply tends_numbered.
  - by rewrite Q.
  - intros id' Hid. by apply Hc, Cl.
  - intros q' Hq' Eq'. destruct (Hat q' Hq') as (Et & q & Hq & Ei & Ex & Hv).
    destruct (Hp q Hq ltac:(congruence)) as (Hgood & Et' & Hh). rewrite <- Ex. split_and!; [done|congruence|].
    intros v [?|Hw]%Hv; [by apply Hmono, Hh|]. apply HW; [done|congruence].
  - intros s Hin. by apply Hy, Has.
  - intros i [Hin|(id' & Hid & Hyi)]%An; [by apply Ha|]. apply (Hy _ Hyi). by apply Hc.
Qed.

Lemma promised_mono h id t good sure (heard heard' : NodeID → Prop) n :
  promised h id t good sure heard n → (∀ v, heard v → heard' v) → promised h id t good sure heard' n.
Proof.
  intros [? ? ? Hq ? ?] Hm. split; try done. intros q H1 H2. destruct (Hq q H1 H2) as (? & ? & ?). auto.
Qed.

(** While nothing is heard nothing is confirmed. *)
Lemma promised_quiet h id t good sure heard n n' :
  (∀ L C W, tends L C W n n') → promised h id t good sure heard n → promised h id t good sure heard n'.
Proof.
  intros Ht Hp. eapply (promised_tends _ _ _ _ _ _ _ False zeroConfiguration (λ _ _, False)); [apply Ht|done|done|done|done].
Qed.

Lemma other_read_promised h id t good sure heard h' n :
  h' ≠ h → (n_readSeq n + 1 < W64)%N → promised h id t good sure heard n →
  promised h id t good sure heard (snd (handleRead h' n)).
Proof.
  intros Hne Hw [Hn Hg Hc Hp Hs Ha]. pose proof (handleRead_pending h' n) as Hp'. pose proof (handleRead_states h' n) as Hs'.
  pose proof (handleRead_numbered h' n Hn Hw) as Hn'.
  destruct (handleRead_spec h' n) as (Q & _ & Cl & An). rewrite u64_add_small in * by done. split.
  - done.
  - rewrite Q. lia.
  - intros id' Hid. destruct Cl as [Cl|Cl]; rewrite Cl in Hid; [by apply Hc|].
    apply lookup_insert_Some in Hid as [[_ ?]|[_ ?]]; [done|by apply Hc].
  - intros q (Et & q0 & [Hq0|[_ ->]] & Ei & Ex & Hv)%Hp' Eq; [|cbn in Ei; lia].
    destruct (Hp q0 Hq0 ltac:(congruence)) as (Hgood & Et' & Hh). rewrite <- Ex. split_and!; [done|congruence|auto].
  - intros s [Hin|(_ & -> & _)]%Hs' Es; [by apply Hs|cbn in Es; lia].
  - intros i Hin. by apply Ha, (An h i).
Qed.

Lemma own_read_promised h n (sure : Prop) :
  numbered n → (n_readSeq n + 1 < W64)%N → (∀ id, n_pendingReads n !! id ≠ Some h) → (∀ i, (h, ReadAt i) ∉ n_answers n) →
  (rn_state (n_rn n) = Leader → HasQuorum (rn_conf (n_rn n)) (acked {[rn_id (n_rn n) := true]}) = true → sure) →
  promised h (n_readSeq n + 1) (rn_term (n_rn n)) (λ i, i = l_committed (rn_log (n_rn n)) ∧ entitled (n_rn n)) sure
    (λ v, v = rn_id (n_rn n)) (snd (handleRead h n)).
Proof.
  intros Hn Hw Hp Ha Hsure. pose proof (handleRead_pending h n) as Hp'. pose proof (handleRead_states h n) as Hs'.
  pose proof (handleRead_numbered h n Hn Hw) as Hn'. destruct Hn as (H1 & H2 & H3).
  destruct (handleRead_spec h n) as (Q & _ & Cl & An). rewrite u64_add_small in * by done. split.
  - done.
  - by rewrite Q.
  - intros id' Hid. destruct Cl as [Cl|Cl]; rewrite Cl in Hid; [by destruct (Hp id')|].
    apply lookup_insert_Some in Hid as [[<- _]|[_ Hid]]; [done|by destruct (Hp id')].
  - intros q (Et & q0 & [Hq0%H1|[He ->]] & Ei & Ex & Hv)%Hp' Eq; [lia|]. cbn in Ex, Hv. split_and!; [done..|].
    intros v Hv'%Hv. unfold acked in Hv'. by destruct (decide (v = rn_id (n_rn n))); [|rewrite lookup_singleton_ne in Hv'].
  - intros s [Hin%H2|(He & -> & Hq)]%Hs' Es; [lia|]. split; [done|]. by apply Hsure; [apply He|].
  - intros i Hin. destruct (Ha i). by apply An.
Qed.

(** *** A run *)

Lemma input_read (i : input) : (∃ h, i = InRead h) ∨ ∀ h, i ≠ InRead h.
Proof. destruct i; eauto; by right. Qed.

Lemma iterate_numbered (i : input) n :
  numbered n → (n_readSeq n + 1 < W64)%N →
  numbered (snd (iterate i n)) ∧ (n_readSeq (snd (iterate i n)) ≤ n_readSeq n + 1)%N.
Proof.
  intros Hn Hw. destruct (input_read i) as [[h ->]|Hi].
  - pose proof (handleRead_numbered h n Hn Hw) as H1. destruct (handleRead_spec h n) as (Q & _). rewrite u64_add_small in Q by done.
    cbn [iterate]. unfold bind. destruct (handleRead h n) as [[] n1]; cbn in *; [|split; [done|lia]..].
    pose proof (tending_finish False zeroConfiguration (λ _ _, False) n1) as Ht.
    split; [by eapply tends_numbered|]. rewrite (td_seq _ _ _ _ _ Ht). lia.
  - pose proof (iterate_tends i n Hi) as Ht.
    split; [by eapply tends_numbered|]. rewrite (td_seq _ _ _ _ _ Ht). lia.
Qed.

(** [P] is kept by whatever the loop receives of [inputs]. *)
Lemma run_keeps (P : ND → Prop) inputs n :
  (∀ i n, i ∈ inputs → (n_readSeq n + 1 < W64)%N → numbered n → P n → P (snd (iterate i n))) →
  numbered n → (n_readSeq n + N.of_nat (length inputs) < W64)%N → P n →
  P (snd (run inputs n)) ∧ numbered (snd (run inputs n)) ∧
  (n_readSeq (snd (run inputs n)) ≤ n_readSeq n + N.of_nat (length inputs))%N.
Proof.
  revert n. induction inputs as [|i inputs IH]; intros n Hstep Hn Hw HP; [cbn; split_and!; [done|done|lia]|].
  cbn [length] in Hw. destruct (iterate_numbered i n) as [Hn1 Hq1]; [done|lia|].
  assert (P (snd (iterate i n))) as HP1 by (apply Hstep; [by left|lia|done|done]).
  cbn [run]. unfold bind. destruct (iterate i n) as [[go| | |] n1]; cbn [fst snd] in *; try (cbn [length]; split_and!; [done|done|lia]).
  destruct go; [|cbn [length]; split_and!; [done|done|cbn; lia]].
  destruct (IH n1) as (? & ? & ?); [intros i' n' Hi'; apply Hstep; by right|done|lia|done|].
  cbn [length]. split_and!; [done|done|lia].
Qed.

Lemma iterate_unasked h (i : input) n :
  i ≠ InRead h →
  (∀ id, n_pendingReads n !! id ≠ Some h) ∧ (∀ j, (h, ReadAt j) ∉ n_answers n) →
  (∀ id, n_pendingReads (snd (iterate i n)) !! id ≠ Some h) ∧ (∀ j, (h, ReadAt j) ∉ n_answers (snd (iterate i n))).
Proof.
  intros Hi [Hp Ha].
  assert (∀ L C W n n', tends L C W n n' →
    (∀ id, n_pendingReads n !! id ≠ Some h) ∧ (∀ j, (h, ReadAt j) ∉ n_answers n) → (∀ id, n_pendingReads n' !! id ≠ Some h) ∧ (∀ j, (h, ReadAt j) ∉ n_answers n')) as Hk.
  { intros L C W n0 n' [_ Cl _ An] [Hp0 Ha0]. split; [intros id Hid; by eapply Hp0, Cl|].
    intros j [Hin|(id & Hid & _)]%An; [by eapply Ha0|by eapply Hp0]. }
  destruct (input_read i) as [[h' ->]|Hno]; [|by eapply Hk; [apply iterate_tends|]].
  destruct (handleRead_spec h' n) as (_ & _ & C & An).
  assert ((∀ id, n_pendingReads (snd (handleRead h' n)) !! id ≠ Some h) ∧
          (∀ j, (h, ReadAt j) ∉ n_answers (snd (handleRead h' n)))) as [Hp1 Ha1].
  { split; [|intros j Hj; by eapply Ha, An]. intros id Hid. destruct C as [C|C]; rewrite C in Hid; [by eapply Hp|].
    apply lookup_insert_Some in Hid as [[_ ->]|[_ Hid]]; [by destruct Hi|by eapply Hp]. }
  cbn [iterate]. unfold bind. destruct (handleRead h' n) as [[] n1]; cbn [fst snd] in *; try done.
  eapply (Hk False zeroConfiguration (λ _ _, False)); [apply tending_finish|done].
Qed.

(** Who acknowledged the read: the node itself, and those from whom an answer to an append
    arrived with the number of the read, in the given term. *)
Definition vouches (self : NodeID) (t : Term) (id : N) (inputs : list input) (v : NodeID) : Prop :=
  v = self ∨ ∃ i, i ∈ inputs ∧ hears i t id v.

(** At some moment of the run, the node was still the leader of the term it had in [n], and
    those who had acknowledged the read [id] by the next input were a quorum of the
    configuration in force. *)
Definition confirmed n (inputs : list input) (id : N) : Prop :=
  ∃ k n' f, run (take k inputs) n = (Ret true, n') ∧
    rn_state (n_rn n') = Leader ∧ rn_term (n_rn n') = rn_term (n_rn n) ∧
    HasQuorum (rn_conf (n_rn n')) f = true ∧
    ∀ v, f v = true → vouches (rn_id (n_rn n)) (rn_term (n_rn n)) id (take (Datatypes.S k) inputs) v.

Lemma iterate_promised h id t good sure (heard heard' : NodeID → Prop) (i : input) n :
  i ≠ InRead h → (n_readSeq n + 1 < W64)%N → promised h id t good sure heard n →
  (∀ v, heard v → heard' v) → (∀ v, hears i t id v → heard' v) →
  (rn_state (n_rn n) = Leader → rn_term (n_rn n) = t →
     ∀ f, HasQuorum (rn_conf (n_rn n)) f = true → (∀ v, f v = true → heard' v) → sure) →
  promised h id t good sure heard' (snd (iterate i n)).
Proof.
  intros Hi Hw Hp Hmono Hh Hsure. destruct (input_read i) as [[h' ->]|Hno].
  - assert (promised h id t good sure heard' n) as Hp'.
    { by eapply promised_mono. }
    pose proof (other_read_promised h id t good sure heard' h' n ltac:(congruence) Hw Hp') as H1. cbn [iterate]. unfold bind.
    destruct (handleRead h' n) as [[] n1]; cbn [fst snd] in *; try done.
    eapply promised_quiet; [intros; apply tending_finish|done].
  - eapply promised_tends; [by apply iterate_tends|exact Hp|done| |done]. by intros v <-; apply Hh.
Qed.

Lemma run_snoc inputs (i : input) n n1 n2 :
  run inputs n = (Ret true, n1) → iterate i n1 = (Ret true, n2) → run (inputs ++ [i]) n = (Ret true, n2).
Proof.
  intros H1 H2. revert n H1. induction inputs as [|j inputs IH]; intros n; cbn [run app].
  - intros [= ->]. unfold bind. by rewrite H2.
  - unfold bind. destruct (iterate j n) as [[[]| | |] n']; try done. apply IH.
Qed.

(** [P] is kept along the run, which tells what was received. *)
Lemma run_traced (P : nat → ND → Prop) inputs n :
  (∀ k i n', inputs !! k = Some i → run (take k inputs) n = (Ret true, n') → P k n' → P (Datatypes.S k) (snd (iterate i n'))) →
  P 0%nat n → ∃ k, P k (snd (run inputs n)).
Proof.
  intros Hstep. enough (∀ rest k n', inputs = take k inputs ++ rest → (k ≤ length inputs)%nat →
    run (take k inputs) n = (Ret true, n') → P k n' → ∃ k', P k' (snd (run rest n'))) as H.
  { intros H0. by apply (H inputs 0%nat n); [|lia| |]. }
  induction rest as [|i rest IH]; intros k n' E Hk Hrun HP; [by exists k|].
  assert (inputs !! k = Some i) as Hi.
  { rewrite E. rewrite lookup_app_r; rewrite length_take, Nat.min_l by done; [|done]. by rewrite Nat.sub_diag. }
  specialize (Hstep k i n' Hi Hrun HP). cbn [run]. unfold bind.
  destruct (iterate i n') as [[[]| | |] n2] eqn:Ei; cbn [snd] in *; try (by exists (Datatypes.S k)).
  apply lookup_lt_Some in Hi as Hlt. apply (IH (Datatypes.S k)); [|lia| |done].
  - by rewrite (take_S_r _ _ _ Hi), <- app_assoc.
  - rewrite (take_S_r _ _ _ Hi). by eapply run_snoc.
Qed.

Lemma Start_no_reads (seed : NodeID → G) (cfg : nodeConfig S G A) n :
  Start seed cfg = Ret n → barriers (n_rn n) = [] ∧ n_pendingReads n = ∅ ∧ n_readSeq n = 0%N ∧ n_answers n = [].
Proof.
  unfold Start. destruct (withDefaults seed cfg) as [c| | |]; try done. cbn [obind].
  destruct (NewRawNode (rawConfig c) (nc_Storage c) (nc_Rand c)) as [r| | |] eqn:Er; try done. cbn [obind].
  destruct (nc_Storage c) as [st|] eqn:Est; [|done]. destruct (nc_StateMachine c) as [sm|]; [|done].
  destruct (restoreFromDisk st sm) as [sm'| | |]; try done. intros [= <-]. cbn. split_and!; try done.
  unfold NewRawNode in Er. destruct (validate _ _ _); try done. cbn [obind] in Er.
  destruct (nc_Rand c) as [g|]; [|done]. destruct (InitialState st) as [[hs snap]| | |]; try done.
  destruct (newRaftLog st) as [l| | |]; try done. cbn [obind] in Er.
  match type of Er with context [bind ?m ?f ?r0] => set (start := r0) in Er; set (go := bind m f) in Er end.
  assert (calm False zeroConfiguration (λ _ _, False) go) as Hq
    by (apply calm_bind; [apply calm_refreshConfiguration|intros; apply calm_becomeFollower]).
  specialize (Hq start). destruct (go start) as [[] r']; try done. simplify_eq. cbn in Hq.
  apply attends_barriers in Hq. apply elem_of_nil_inv. intros x Hx%Hq. by apply elem_of_nil in Hx.
Qed.

(** The promise that taking up a request makes. *)
Lemma asked_promised h after n :
  let inputs := InRead h :: after in
  numbered n → (n_readSeq n + 1 < W64)%N → (∀ id, n_pendingReads n !! id ≠ Some h) → (∀ i, (h, ReadAt i) ∉ n_answers n) →
  promised h (n_readSeq n + 1) (rn_term (n_rn n)) (λ i, i = l_committed (rn_log (n_rn n)) ∧ entitled (n_rn n))
    (confirmed n inputs (n_readSeq n + 1))
    (vouches (rn_id (n_rn n)) (rn_term (n_rn n)) (n_readSeq n + 1) (take 1 inputs)) (snd (iterate (InRead h) n)).
Proof.
  intros inputs Hn Hw Hp Ha. set (sure := confirmed _ _ _). set (heard := vouches _ _ _ _).
  assert (promised h (n_readSeq n + 1) (rn_term (n_rn n)) (λ i, i = l_committed (rn_log (n_rn n)) ∧ entitled (n_rn n))
    sure heard (snd (handleRead h n))) as HP.
  { eapply promised_mono; [apply (own_read_promised h n sure); [done..|]|by left].
    intros Hl Hq. exists 0%nat, n, (acked {[rn_id (n_rn n) := true]}). split_and!; [done..|].
    intros v Hv. left. unfold acked in Hv. by destruct (decide (v = rn_id (n_rn n))); [|rewrite lookup_singleton_ne in Hv]. }
  cbn [iterate]. unfold bind. destruct (handleRead h n) as [[] n2]; cbn [fst snd] in *; try done.
  eapply promised_quiet; [intros; apply tending_finish|done].
Qed.

Lemma read_answer_commit (seed : NodeID → G) (cfg : nodeConfig S G A) n before h after n1 i :
  Start seed cfg = Ret n →
  InRead h ∉ before ++ after → (N.of_nat (length before + length after) + 1 < W64)%N →
  run before n = (Ret true, n1) →
  (h, ReadAt i) ∈ n_answers (snd (run (InRead h :: after) n1)) →
  i = CommitIndex (n_rn n1) ∧ entitled (n_rn n1) ∧ confirmed n1 (InRead h :: after) (n_readSeq n1 + 1).
Proof.
  intros (B0 & C0 & Q0 & A0)%Start_no_reads Hnin Hw E1 Hin. apply not_elem_of_app in Hnin as [Hb Haf].
  destruct (app_eq_nil _ _ B0) as [Bp%fmap_nil_inv Bs%fmap_nil_inv].
  assert (numbered n) as Hn by (unfold numbered; rewrite Bp, Bs, C0; split_and!; by intros ? ?%elem_of_nil || by intros ?? ?).
  destruct (run_keeps (λ n, (∀ id, n_pendingReads n !! id ≠ Some h) ∧ (∀ j, (h, ReadAt j) ∉ n_answers n)) before n)
    as ([Hp Ha] & Hn1 & Hq1).
  { intros i' n' Hi' _ _. apply iterate_unasked. intros ->. done. }
  { done. } { lia. }
  { split; [by rewrite C0; intros id ?|]. rewrite A0. by intros j ?%elem_of_nil. }
  rewrite E1 in Hp, Ha, Hn1, Hq1. cbn [snd] in *. rewrite Q0 in Hq1.
  set (inputs := InRead h :: after) in *. set (sure := confirmed n1 inputs (n_readSeq n1 + 1)).
  set (heard k := vouches (rn_id (n_rn n1)) (rn_term (n_rn n1)) (n_readSeq n1 + 1) (take k inputs)).
  destruct (run_traced (λ k n', match k with
    | O => n' = n1
    | _ => promised h (n_readSeq n1 + 1) (rn_term (n_rn n1)) (λ i, i = l_committed (rn_log (n_rn n1)) ∧ entitled (n_rn n1))
             sure (heard k) n' ∧ (n_readSeq n' ≤ n_readSeq n1 + N.of_nat k)%N
    end) inputs n1) as [[|k] Hk]; [|done|by rewrite Hk in Hin; destruct (Ha i)|].
  - intros [|k] i' n' Hi' Hrun; [intros ->; injection Hi' as <-|intros [HP Hs]].
    + split; [by apply asked_promised; [|lia|..]|by apply iterate_numbered; [|lia]].
    + assert (i' ∈ after) as Hia by exact (list_elem_of_lookup_2 after k i' Hi').
      assert (k < length after)%nat as Hlt by (eapply (lookup_lt_Some after); exact Hi').
      split; [|etrans; [apply iterate_numbered; [apply HP|lia]|lia]].
      eapply iterate_promised; [by intros ->|lia|exact HP|..].
      * intros v [?|(j & Hj & ?)]; [by left|right]. exists j. split; [|done]. rewrite (take_S_r _ _ _ Hi'). set_solver.
      * intros v Hv. right. exists i'. split; [|done]. rewrite (take_S_r _ _ _ Hi'). set_solver.
      * intros Hl Ht f Hf Hv. by exists (Datatypes.S k), n', f.
  - destruct (pm_answers _ _ _ _ _ _ _ (proj1 Hk) i Hin) as [[-> ?] ?]. done.
Qed.

(** A read is not stale.  A caller that is answered with an index gets the commit index
    the node had when the request was taken up, at which it led and had committed an
    entry of its own term, however many other requests, messages and elections came
    between the question and the answer; and in between a quorum acknowledged the
    leader of that term. *)
Theorem read_answered_at_commit (seed : NodeID → G) (cfg : nodeConfig S G A) n before h after n1 i :
  Start seed cfg = Ret n →
  InRead h ∉ before ++ after → (N.of_nat (length before + length after) + 1 < W64)%N →
  run before n = (Ret true, n1) →
  (h, ReadAt i) ∈ n_answers (snd (run (InRead h :: after) n1)) →
  i = CommitIndex (n_rn n1) ∧ entitled (n_rn n1) ∧ confirmed n1 (InRead h :: after) (n_readSeq n1 + 1).
Proof. apply read_answer_commit. Qed.
End node.

(** ** A node on its own *)

Module ReadExample.
#[export] Existing Instance forward_range.

Definition alone : nodeConfig MemoryStorage unit Store :=
  mkNodeConfig 1 [] [] (Some NewMemoryStorage) true (Some NewStore) 2 1 false 0 0 0 0 (Some tt).

Definition started : outcome (Node MemoryStorage unit Store Result) := Start (λ _, tt) alone.
End ReadExample.
Import ReadExample.

Lemma read_answered_at_commit_witness :
  ∃ n n1, started = Ret n ∧ run [InTick; InTick] n = (Ret true, n1) ∧
    CommitIndex (n_rn n1) = 1%N ∧ rn_state (n_rn n1) = Leader ∧
    (6%N, ReadAt 1) ∈ n_answers (snd (run [InRead 6; InTick] n1)).
Proof.
  destruct started as [n| | |] eqn:E; [|vm_compute in E; discriminate..].
  destruct (run [InTick; InTick] n) as [o n1] eqn:E1.
  assert (o = Ret true) as ->.
  { apply (f_equal fst) in E1. cbn [fst] in E1. rewrite <- E1. vm_compute in E. injection E as <-. vm_compute. reflexivity. }
  assert ((6%N, ReadAt 1) ∈ n_answers (snd (run [InRead 6; InTick] n1))) as Hin.
  { apply (f_equal snd) in E1. cbn [snd] in E1. subst n1. vm_compute in E. injection E as <-. vm_compute. left. }
  destruct (read_answered_at_commit (λ _, tt) alone n [InTick; InTick] 6 [InTick] n1 1 E) as (Ec & [Hs _] & _).
  - intros Hc. repeat (apply elem_of_cons in Hc as [Hc|Hc]; [discriminate|]). by apply elem_of_nil in Hc.
  - vm_compute. reflexivity.
  - exact E1.
  - exact Hin.
  - exists n, n1. split_and!; done.
Defined.
