(* ===== verification/NodeAPI.v ===== *)
(** * The client surface of a node

    [node/node.go] ([Propose], [Status], [statusLocked]), [node/read.go] ([ReadIndex],
    [AwaitApplied], [LinearizableRead]) and [node/membership.go] ([ChangeMembership],
    [awaitSettled], [AwaitConfiguration]): what runs on the goroutine of a caller.  Each
    call hands a request to the run loop of Node.v over a channel and waits for the
    answer, its context, or the end of the loop; which of these comes first is not up to
    the caller and is an argument here ([sel]).  A loop that polls takes the list of what
    it sees in successive rounds, and answers [None] while it would go on waiting. *)

From S2P Require Import Prelude Varint GoMaps Types Config Storage RaftLog RawNode Membership KVStore Node Driver ReadBarriers.

(** ** Waiting *)

(** What a [select] on a channel, the context and [n.doneCh] comes to. *)
Inductive sel (B : Type) :=
  | Arrives (b : B)
  | CtxDone (e : error)
  | LoopDone.
Arguments Arrives {B}.
Arguments CtxDone {B}.
Arguments LoopDone {B}.

Definition await {B C} (s : sel B) (k : B → outcome C) : outcome C :=
  match s with
  | Arrives b => k b
  | CtxDone e => Fail e
  | LoopDone => Fail ErrStopped
  end.

Section surface.
Context {S G A Resp : Type} `{Hst : Storage S} `{Hrand : Rand G} `{HSM : !StateMachine A Resp}.

(** ** Status *)

Record Status := mkStatus {
  ss_ID : NodeID;
  ss_State : State;
  ss_Term : Term;
  ss_Lead : NodeID;
  ss_CommitIndex : Index;
  ss_AppliedIndex : Index;
  ss_LastIndex : Index;
  ss_Config : Configuration;
  ss_Match : gmap NodeID Index
}.

Definition IsLeader (s : Status) : bool := bool_decide (ss_State s = Leader).

Definition statusLocked (n : Node S G A Resp) : Status :=
  let r := n_rn n in
  let match_ :=
    if bool_decide (rn_state r = Leader) then
      foldl (λ m id, match progressOf r id with Some pr => <[id := p_Match pr]> m | None => m end)
        ∅ (Members (rn_conf r))
    else ∅ in
  mkStatus (rn_id r) (rn_state r) (rn_term r) (rn_lead r) (CommitIndex r) (AppliedIndex r)
    (RawNode_LastIndex r) (rn_conf r) match_.

(** [Status] *)
Definition node_Status (sent : sel unit) (reply : sel Status) : outcome Status :=
  await sent (λ _, await reply Ret).

(** ** Proposing *)

(** [node.Result] *)
Record nodeResult := mkNodeResult { res_Index : Index; res_Response : option Resp }.

(** [Propose]; the loop answers a proposal only with an index or an error. *)
Definition node_Propose (sent : sel unit) (reply : sel (answer Resp)) : outcome nodeResult :=
  await sent (λ _, await reply (λ a,
    match a with
    | Proposed index response => Ret (mkNodeResult index response)
    | Failed e => Fail e
    | _ => Ret (mkNodeResult 0 None)
    end)).

(** ** Reading *)

Definition node_ReadIndex (sent : sel unit) (reply : sel (answer Resp)) : outcome Index :=
  await sent (λ _, await reply (λ a,
    match a with
    | ReadAt index => Ret index
    | Failed e => Fail e
    | _ => Ret 0%N
    end)).

(** One round of polling: the status, and what ended the wait for the next. *)
Record poll := mkPoll { po_status : outcome Status; po_wait : sel unit }.

Fixpoint AwaitApplied (index : Index) (polls : list poll) : option (outcome unit) :=
  match polls with
  | [] => None
  | p :: rest =>
      match po_status p with
      | Ret status =>
          if (index <=? ss_AppliedIndex status)%N then Some (Ret tt)
          else
            match po_wait p with
            | CtxDone e => Some (Fail (Errorf "node: waiting for index" [e]))
            | LoopDone => Some (Fail ErrStopped)
            | Arrives _ => AwaitApplied index rest
            end
      | Fail e => Some (Fail e)
      | Panic msg => Some (Panic msg)
      | OutOfFuel => Some OutOfFuel
      end
  end.

Definition LinearizableRead {B} (sent : sel unit) (reply : sel (answer Resp)) (polls : list poll)
    (read : outcome B) : option (outcome B) :=
  match node_ReadIndex sent reply with
  | Ret index =>
      match AwaitApplied index polls with
      | Some (Ret _) => Some read
      | Some (Fail e) => Some (Fail e)
      | Some (Panic msg) => Some (Panic msg)
      | Some OutOfFuel => Some OutOfFuel
      | None => None
      end
  | Fail e => Some (Fail e)
  | Panic msg => Some (Panic msg)
  | OutOfFuel => Some OutOfFuel
  end.

(** ** Changing the membership *)

(** [awaitSettled]; the configuration goes with an error as it does in the source. *)
Fixpoint awaitSettled (target : Configuration) (polls : list poll) : option (Configuration * outcome unit) :=
  match polls with
  | [] => None
  | p :: rest =>
      match po_status p with
      | Ret status =>
          if negb (IsJoint (ss_Config status)) then
            if negb (Configuration_Equal (ss_Config status) target)
            then Some (ss_Config status, Fail (Errorf "node: the cluster settled on another configuration" []))
            else Some (ss_Config status, Ret tt)
          else
            match po_wait p with
            | CtxDone e => Some (zeroConfiguration, Fail (Errorf "node: membership change did not complete" [e]))
            | LoopDone => Some (zeroConfiguration, Fail ErrStopped)
            | Arrives _ => awaitSettled target rest
            end
      | Fail e => Some (zeroConfiguration, Fail e)
      | Panic msg => Some (zeroConfiguration, Panic msg)
      | OutOfFuel => Some (zeroConfiguration, OutOfFuel)
      end
  end.

Definition ChangeMembership (voters : list NodeID) (sent : sel unit) (reply : sel (answer Resp)) (polls : list poll)
    : option (Configuration * outcome unit) :=
  let target := NewConfiguration voters [] in
  match Validate target with
  | Fail e => Some (zeroConfiguration, Fail e)
  | Panic msg => Some (zeroConfiguration, Panic msg)
  | OutOfFuel => Some (zeroConfiguration, OutOfFuel)
  | Ret _ =>
      match await sent (λ _, await reply (λ a, match a with Failed e => Fail e | _ => Ret tt end)) with
      | Ret _ => awaitSettled target polls
      | o => Some (zeroConfiguration, o)
      end
  end.

Fixpoint AwaitConfiguration (want : Configuration) (polls : list poll) : option (outcome unit) :=
  match polls with
  | [] => None
  | p :: rest =>
      match po_status p with
      | Ret status =>
          if Configuration_Equal (ss_Config status) want then Some (Ret tt)
          else
            match po_wait p with
            | CtxDone e => Some (Fail (Errorf "node: configuration is not the one wanted" [e]))
            | LoopDone => Some (Fail ErrStopped)
            | Arrives _ => AwaitConfiguration want rest
            end
      | Fail e => Some (Fail e)
      | Panic msg => Some (Panic msg)
      | OutOfFuel => Some OutOfFuel
      end
  end.

(** ** What the callers can rely on *)

Lemma AwaitApplied_polled index polls :
  AwaitApplied index polls = Some (Ret tt) →
  ∃ p st, p ∈ polls ∧ po_status p = Ret st ∧ (index ≤ ss_AppliedIndex st)%N.
Proof.
  induction polls as [|p rest IH]; cbn; [done|]. destruct (po_status p) as [st| | |] eqn:Est; try done.
  destruct (N.leb_spec index (ss_AppliedIndex st)).
  - intros _. exists p, st. split_and!; [by left|done|done].
  - destruct (po_wait p); try done. intros (p' & st' & Hin & ?)%IH. exists p', st'. split; [by right|done].
Qed.

Lemma LinearizableRead_inv {B} sent reply polls (read : outcome B) b :
  LinearizableRead sent reply polls read = Some (Ret b) →
  ∃ i p st, node_ReadIndex sent reply = Ret i ∧ p ∈ polls ∧ po_status p = Ret st ∧ (i ≤ ss_AppliedIndex st)%N ∧ read = Ret b.
Proof.
  unfold LinearizableRead. destruct (node_ReadIndex sent reply) as [i| | |]; try done.
  destruct (AwaitApplied i polls) as [[[]| | |]|] eqn:Ea; try done. intros [= ->].
  destruct (AwaitApplied_polled i polls Ea) as (p & st & Hin & Hst' & Hle).
  exists i, p, st. by split_and!.
Qed.

Lemma awaitSettled_polled target polls conf :
  awaitSettled target polls = Some (conf, Ret tt) →
  ∃ p st, p ∈ polls ∧ po_status p = Ret st ∧ ss_Config st = conf ∧ IsJoint conf = false ∧ conf = target.
Proof.
  induction polls as [|p rest IH]; cbn [awaitSettled]; [done|]. destruct (po_status p) as [st| | |] eqn:Est; try done.
  destruct (IsJoint (ss_Config st)) eqn:Ej; cbn [negb].
  - destruct (po_wait p); try done. intros (p' & st' & Hin & ?)%IH. exists p', st'. split; [by right|done].
  - destruct (Configuration_Equal (ss_Config st) target) eqn:Ee; cbn [negb]; intros [= <-].
    exists p, st. split_and!; [by left|done|done|done|by apply Configuration_Equal_true].
Qed.

(** A membership change that reports success has happened: the node was seen out of the
    joint configuration and on exactly the voters asked for, which are a valid
    configuration. *)
Theorem ChangeMembership_done voters sent reply polls conf :
  ChangeMembership voters sent reply polls = Some (conf, Ret tt) →
  conf = NewConfiguration voters [] ∧ Validate conf = Ret tt ∧ IsJoint conf = false ∧
  ∃ p st, p ∈ polls ∧ po_status p = Ret st ∧ ss_Config st = conf.
Proof.
  unfold ChangeMembership. destruct (Validate (NewConfiguration voters [])) as [[]| | |] eqn:Ev; try done.
  destruct (await sent _) as [[]| | |]; try done. intros (p & st & Hin & Est & Ec & Ej & ->)%awaitSettled_polled.
  split_and!; try done. by exists p, st.
Qed.
End surface.

(** ** Reading through the run loop *)

Section reading.
Context {S G A Resp : Type} `{Hst : Storage S} `{Hrand : Rand G} `{HSM : !StateMachine A Resp} `{R : MapRange}.

(** C8: Linearizable reads see every write that was committed when they began.  A node has
    run for a while ([n1]); a caller asks for a barrier, gets its answer whenever it does,
    and polls the status of the node at later moments of the run.  When the read is
    let through, the node it polled had applied everything that [n1] had committed; [n1]
    was a leader that had committed in its own term; and after the read was asked for, while
    the node still led in that term, a quorum of the configuration in force had acknowledged
    it: each of its members is the node itself or sent an answer to an append that carries
    the number of the read and the term of the leader. *)
Theorem linearizable_read_sees_commits {B} (seed : NodeID → G) (cfg : nodeConfig S G A) n before h after n1
    sent a polls (read : outcome B) b :
  Start seed cfg = Ret n →
  InRead h ∉ before ++ after → (N.of_nat (length before + length after) + 1 < W64)%N →
  run before n = (Ret true, n1) →
  (h, a) ∈ n_answers (snd (run (InRead h :: after) n1)) → (∃ i, a = ReadAt i) ∨ (∃ e, a = Failed e) →
  Forall (λ p, ∀ st, po_status p = Ret st → ∃ k n2, snd (run (take k (InRead h :: after)) n1) = n2 ∧ st = statusLocked n2) polls →
  LinearizableRead sent (Arrives a) polls read = Some (Ret b) →
  (∃ k n2, snd (run (take k (InRead h :: after)) n1) = n2 ∧
     (CommitIndex (n_rn n1) ≤ AppliedIndex (n_rn n2))%N ∧ read = Ret b) ∧
  rn_state (n_rn n1) = Leader ∧ committedInCurrentTerm (n_rn n1) = Ret true ∧
  confirmed n1 (InRead h :: after) (n_readSeq n1 + 1).
Proof.
  intros Hs Hnin Hlen Hrun Hin Ha Hpolls (i & p & st & Hi & Hp & Est & Hle & Hread)%LinearizableRead_inv.
  assert (a = ReadAt i) as ->.
  { unfold node_ReadIndex in Hi. destruct sent; try done. cbn in Hi. destruct Ha as [[j ->]|[e ->]]; [|done]. by simplify_eq. }
  destruct (read_answer_commit seed cfg n before h after n1 i) as (-> & [Hlead Hterm] & Hconf); try done.
  split_and!; try done. destruct (proj1 (Forall_forall _ _) Hpolls p Hp st Est) as (k & n2 & Hk & ->). by exists k, n2.
Qed.
End reading.

(** ** Examples *)

Import ReadExample.

Module SurfaceExample.
Definition status (c : Configuration) : Status := mkStatus 1 Leader 2 1 7 7 8 c ∅.
Definition polls : list poll :=
  [mkPoll (Ret (status (mkConfiguration [1; 2; 3]%N [1; 2]%N []))) (Arrives tt);
   mkPoll (Ret (status (mkConfiguration [1; 2; 3]%N [] []))) (Arrives tt)].
End SurfaceExample.

Lemma ChangeMembership_done_witness :
  mkConfiguration [1; 2; 3]%N [] [] = NewConfiguration [3; 1; 2; 3]%N [].
Proof.
  eapply (ChangeMembership_done (Resp := Result) [3; 1; 2; 3]%N (Arrives tt) (Arrives (ConfChanged 7))
    SurfaceExample.polls (mkConfiguration [1; 2; 3]%N [] [])).
  vm_compute. reflexivity.
Defined.

Lemma linearizable_read_sees_commits_witness :
  ∃ n n1 k n2, started = Ret n ∧ run [InTick; InTick] n = (Ret true, n1) ∧
    snd (run (take k [InRead 6; InTick]) n1) = n2 ∧ (CommitIndex (n_rn n1) ≤ AppliedIndex (n_rn n2))%N.
Proof.
  destruct started as [n| | |] eqn:E; [|vm_compute in E; discriminate..].
  destruct (run [InTick; InTick] n) as [o n1] eqn:E1.
  assert (o = Ret true) as ->.
  { apply (f_equal fst) in E1. cbn [fst] in E1. rewrite <- E1. vm_compute in E. injection E as <-. vm_compute. reflexivity. }
  pose (poll := mkPoll (Ret (statusLocked (snd (run [InRead 6; InTick] n1)))) (Arrives tt)).
  destruct (linearizable_read_sees_commits (λ _, tt) alone n [InTick; InTick] 6 [InTick] n1 (Arrives tt) (ReadAt 1)
    [poll] (Ret tt) tt E) as ((k & n2 & Hk & Hle & _) & _).
  - intros Hc. repeat (apply elem_of_cons in Hc as [Hc|Hc]; [discriminate|]). by apply elem_of_nil in Hc.
  - vm_compute. reflexivity.
  - exact E1.
  - apply (f_equal snd) in E1. cbn [snd] in E1. subst n1. vm_compute in E. injection E as <-. vm_compute. left.
  - left. by exists 1%N.
  - apply Forall_singleton. intros st [= <-]. exists 2, (snd (run [InRead 6; InTick] n1)). done.
  - apply (f_equal snd) in E1. cbn [snd] in E1. subst n1. vm_compute in E. injection E as <-. vm_compute. reflexivity.
  - exists n, n1, k, n2. done.
Defined.
