(* ===== verification/KVServer.v ===== *)
(** * The server that clients talk to

    [kvserver/server.go]: the handlers of the KV and Cluster services.  A handler decides
    what to propose or read, calls the node (NodeAPI.v) and turns its errors into the
    status a client acts upon.  What the run loop answers is an argument, as it is there;
    the encoding of gRPC messages is not modelled. *)

From S2P Require Import Prelude Varint GoMaps Types Config Storage RaftLog RawNode Codec KVStore Node NodeAPI.

(** ** Statuses *)

Inductive code :=
  | InvalidArgument | FailedPrecondition | Unavailable | CodeDeadlineExceeded | Internal | OtherCode (n : N).

Record NotLeaderError := mkNotLeaderError { nl_LeaderHint : N; nl_LeaderAddress : string }.

Record statusError := mkStatusError { se_code : code; se_detail : option NotLeaderError }.

Definition statusOf (c : code) : statusError := mkStatusError c None.

(** A handler answers a response or a status. *)
Inductive rpc (B : Type) := OK (b : B) | Err (e : statusError).
Arguments OK {B}.
Arguments Err {B}.

(** ** Messages of proto/kv.proto *)

Record pbSession := mkPbSession { pb_ClientId : N; pb_SequenceNum : N }.
Record SetRequest := mkSetRequest { sr_Session : option pbSession; sr_Key : bytes; sr_Value : bytes }.
Record DeleteRequest := mkDeleteRequest { dr_Session : option pbSession; dr_Key : bytes }.
Record DeleteResponse := mkDeleteResponse { dp_Index : N; dp_Existed : bool }.
Record GetRequest := mkGetRequest { gr_Key : bytes; gr_Consistency : Z }.
Record GetResponse := mkGetResponse { gp_Value : bytes; gp_Found : bool; gp_ReadIndex : N }.
Definition READ_CONSISTENCY_STALE : Z := 2.

Definition SessionFromProto (p : option pbSession) : N * N :=
  match p with None => (0, 0)%N | Some s => (pb_ClientId s, pb_SequenceNum s) end.

(** ** Configuration *)

Record kvConfig := mkKvConfig {
  kc_hasNode : bool;
  kc_hasStore : bool;
  kc_WriteTimeout : Z;
  kc_ReadTimeout : Z;
  kc_MembershipTimeout : Z
}.

Definition kv_withDefaults (c : kvConfig) : outcome kvConfig :=
  if negb (kc_hasNode c) then Fail (Errorf "kvserver: Node is required" [])
  else if negb (kc_hasStore c) then Fail (Errorf "kvserver: Store is required" [])
  else
    let default v d := if (v =? 0)%Z then d else v in
    Ret (mkKvConfig true true (default (kc_WriteTimeout c) 5000000000%Z) (default (kc_ReadTimeout c) 5000000000%Z)
           (default (kc_MembershipTimeout c) 30000000000%Z)).

(** ** The server *)

(** [Server]: where peers are, and whether [Stop] was called; [sv_stops] counts the calls
    of [GracefulStop]. *)
Record Server := mkServer { sv_addrs : gmap NodeID string; sv_closed : bool; sv_stops : nat }.

(** [Serve]; [listen] is what listening comes to, and peers are given by id and address. *)
Definition Serve (c : kvConfig) (peers : list (NodeID * string)) (listen : outcome unit) : outcome Server :=
  let? _ := kv_withDefaults c in
  match listen with
  | Ret _ => Ret (mkServer (foldl (λ m p, <[p.1 := p.2]> m) ∅ peers) false 0)
  | Fail e => Fail (Errorf "kvserver: listening" [e])
  | Panic p => Panic p
  | OutOfFuel => OutOfFuel
  end.

(** [Stop], whose body runs once. *)
Definition server_Stop (s : Server) : Server :=
  if sv_closed s then s else mkServer (sv_addrs s) true (S (sv_stops s)).

Lemma Serve_addrs c peers listen s :
  NoDup peers.*1 → Serve c peers listen = Ret s → ∀ id a, sv_addrs s !! id = Some a ↔ (id, a) ∈ peers.
Proof.
  intros Hnd. unfold Serve. destruct (kv_withDefaults c) as [c0| | |]; try done. destruct listen as [[]| | |]; try done. intros [= <-] id a. cbn.
  cut (∀ m : gmap NodeID string, (∀ i, i ∈ peers.*1 → m !! i = None) →
    foldl (λ m p, <[p.1 := p.2]> m) m peers !! id = Some a ↔ m !! id = Some a ∨ (id, a) ∈ peers).
  { intros H. rewrite H by done. rewrite lookup_empty. naive_solver. }
  induction peers as [|[i b] peers IH]; intros m Hm; cbn [foldl]; [rewrite elem_of_nil; naive_solver|].
  cbn in Hnd. apply NoDup_cons in Hnd as [Hi Hnd]. rewrite IH; [|done|].
  2: { intros j Hj. cbn. rewrite lookup_insert_ne by (intros ->; done). apply Hm. by right. }
  cbn. rewrite elem_of_cons. destruct (decide (i = id)) as [->|Hne].
  - rewrite lookup_insert_eq. pose proof (Hm id ltac:(by left)) as E. rewrite E. naive_solver.
  - rewrite lookup_insert_ne by done. naive_solver.
Qed.

(** ** Sessions *)

(** [random] is what [crypto/rand] gave. *)
Definition Register (random : outcome N) : rpc N :=
  match random with
  | Ret id => OK (if (id =? 0)%N then 1%N else id)
  | _ => Err (statusOf Internal)
  end.

Section handlers.
(** Where peers are, by id. *)
Context (addrs : gmap NodeID string).

(** ** Errors *)

(** [st] is what [Node.Status] answers. *)
Definition notLeader (st : outcome Status) : statusError :=
  let detail :=
    match st with
    | Ret s =>
        if (ss_Lead s =? None_)%N then mkNotLeaderError 0 EmptyString
        else mkNotLeaderError (ss_Lead s) (default EmptyString (addrs !! ss_Lead s))
    | _ => mkNotLeaderError 0 EmptyString
    end in
  mkStatusError FailedPrecondition (Some detail).

Definition writeError (st : outcome Status) (err : error) : statusError :=
  if errorsIs err ErrNotLeader then notLeader st
  else if errorsIs err ErrProposalDropped then statusOf Unavailable
  else if errorsIs err ErrStopped then statusOf Unavailable
  else if errorsIs err DeadlineExceeded then statusOf CodeDeadlineExceeded
  else statusOf Internal.

Definition readError (st : outcome Status) (err : error) : statusError :=
  if errorsIs err ErrNotLeader then notLeader st
  else if errorsIs err ErrReadIndexUnavailable then statusOf Unavailable
  else if errorsIs err ErrStopped then statusOf Unavailable
  else if errorsIs err DeadlineExceeded then statusOf Unavailable
  else statusOf Internal.

(** ** Writes *)

(** [node] is what [Node.Propose] answers to the command it is given.  A panic of the
    node's goroutine is not the handler's: it only ever sees a value or an error. *)
Definition server_propose (node : bytes → outcome (@nodeResult Result)) (st : outcome Status) (cmd : bytes)
    : rpc (@nodeResult Result) :=
  match node cmd with
  | Ret r => OK r
  | Fail err => Err (writeError st err)
  | Panic _ | OutOfFuel => Err (statusOf Internal)
  end.

Definition Set_ (node : bytes → outcome (@nodeResult Result)) (st : outcome Status) (req : SetRequest) : rpc N :=
  if (length (sr_Key req) =? 0)%nat then Err (statusOf InvalidArgument)
  else
    let '(clientID, seq) := SessionFromProto (sr_Session req) in
    match SessionSetCommand clientID seq (sr_Key req) (sr_Value req) with
    | Ret cmd =>
        match server_propose node st cmd with
        | OK result => OK (res_Index result)
        | Err e => Err e
        end
    | _ => Err (statusOf InvalidArgument)
    end.

Definition Delete_ (node : bytes → outcome (@nodeResult Result)) (st : outcome Status) (req : DeleteRequest)
    : rpc DeleteResponse :=
  if (length (dr_Key req) =? 0)%nat then Err (statusOf InvalidArgument)
  else
    let '(clientID, seq) := SessionFromProto (dr_Session req) in
    match SessionDeleteCommand clientID seq (dr_Key req) with
    | Ret cmd =>
        match server_propose node st cmd with
        | OK result =>
            OK (mkDeleteResponse (res_Index result)
                  (match res_Response result with Some r => Existed r | None => false end))
        | Err e => Err e
        end
    | _ => Err (statusOf InvalidArgument)
    end.

(** ** Reads *)

Definition read_store (key : bytes) (store : Store) : GetResponse :=
  mkGetResponse (default [] (Get key store)) (bool_decide (is_Some (Get key store))) (Store_AppliedIndex store).

(** [read] is [Node.LinearizableRead], given the closure that reads the store. *)
Definition Get_ (read : outcome GetResponse → outcome GetResponse) (st : outcome Status) (store : Store) (req : GetRequest)
    : rpc GetResponse :=
  if (length (gr_Key req) =? 0)%nat then Err (statusOf InvalidArgument)
  else if (gr_Consistency req =? READ_CONSISTENCY_STALE)%Z then OK (read_store (gr_Key req) store)
  else
    match read (Ret (read_store (gr_Key req) store)) with
    | Ret resp => OK resp
    | Fail err => Err (readError st err)
    | Panic _ | OutOfFuel => Err (statusOf Internal)
    end.

(** ** Cluster *)

Record StatusResponse := mkStatusResponse {
  sp_NodeId : N; sp_State : State; sp_Term : N; sp_LeaderId : N; sp_CommitIndex : N; sp_AppliedIndex : N;
  sp_LastIndex : N; sp_Config : pbConfiguration; sp_MatchIndex : gmap N N
}.

(** The state travels as its name; it is kept as the state here. *)
Definition Status_ (st : outcome Status) : rpc StatusResponse :=
  match st with
  | Ret s => OK (mkStatusResponse (ss_ID s) (ss_State s) (ss_Term s) (ss_Lead s) (ss_CommitIndex s) (ss_AppliedIndex s)
                   (ss_LastIndex s) (ConfigurationToProto (ss_Config s)) (ss_Match s))
  | _ => Err (statusOf Unavailable)
  end.

Record ChangeMembershipResponse := mkChangeMembershipResponse { cm_Config : pbConfiguration; cm_Index : N }.

(** The loop over the voters asked for, which refuses the id 0. *)
Fixpoint checkVoters (ids : list N) : option (list NodeID) :=
  match ids with
  | [] => Some []
  | id :: rest => if (id =? 0)%N then None else match checkVoters rest with Some l => Some (id :: l) | None => None end
  end.

(** [change] is [Node.ChangeMembership]; [st] the status read after it. *)
Definition ChangeMembership_ (change : list NodeID → Configuration * outcome unit) (st : outcome Status) (voters : list N)
    : rpc ChangeMembershipResponse :=
  match checkVoters voters with
  | None => Err (statusOf InvalidArgument)
  | Some [] => Err (statusOf InvalidArgument)
  | Some ids =>
      match change ids with
      | (final, Ret _) =>
          OK (mkChangeMembershipResponse (ConfigurationToProto final)
                (match st with Ret s => ss_CommitIndex s | _ => 0%N end))
      | (_, Fail err) => Err (writeError st err)
      | _ => Err (statusOf Internal)
      end
  end.

(** ** What a write proposes *)

(** The sizes the store accepts. *)
Definition fits (key value : bytes) : Prop :=
  key ≠ [] ∧ (len key ≤ maxKeyLen)%N ∧ (len value ≤ maxValueLen)%N.

Lemma EncodeCommand_fits op key value cid seq :
  fits key value → ∃ b, EncodeCommand (mkCommand op key value cid seq) = Ret b.
Proof.
  intros (Hk & Hkl & Hvl). unfold EncodeCommand. cbn [cmd_Key cmd_Value].
  rewrite (proj2 (N.eqb_neq _ _)) by (unfold len; destruct key; [done|cbn; lia]).
  rewrite !(proj2 (N.ltb_ge _ _)) by done. by eexists.
Qed.

Lemma EncodeCommand_refuses op key value cid seq :
  ¬ fits key value → ∀ b, EncodeCommand (mkCommand op key value cid seq) ≠ Ret b.
Proof.
  intros Hf b. unfold EncodeCommand. cbn [cmd_Key cmd_Value].
  destruct (N.eqb_spec (len key) 0) as [|Hk]; [done|]. destruct (N.ltb_spec maxKeyLen (len key)); [done|].
  destruct (N.ltb_spec maxValueLen (len value)); [done|]. destruct Hf. split_and!; [|done|done]. by intros ->.
Qed.

Definition answer_of (r : rpc (@nodeResult Result)) : rpc N :=
  match r with OK x => OK (res_Index x) | Err e => Err e end.

(** C32: A write is refused outright, whatever the node would say, exactly when its key is empty
    or its key or value is too long.  Otherwise the node is asked to replicate a command
    that every replica decodes to this very request, session and all, and the client is
    told the index it was applied at or what went wrong. *)
Theorem Set_proposes_the_request node st req :
  (fst (SessionFromProto (sr_Session req)) < W64)%N → (snd (SessionFromProto (sr_Session req)) < W64)%N →
  (¬ fits (sr_Key req) (sr_Value req) → Set_ node st req = Err (statusOf InvalidArgument)) ∧
  (fits (sr_Key req) (sr_Value req) → ∃ cmd,
     DecodeCommand cmd = Ret (mkCommand OpSet (sr_Key req) (sr_Value req)
       (fst (SessionFromProto (sr_Session req))) (snd (SessionFromProto (sr_Session req)))) ∧
     Set_ node st req = answer_of (server_propose node st cmd)).
Proof.
  intros Hc Hs. unfold Set_, SessionSetCommand. destruct (SessionFromProto (sr_Session req)) as [cid seq]. cbn [fst snd] in *. split.
  - intros Hf. case_match; [done|]. pose proof (EncodeCommand_refuses OpSet _ _ cid seq Hf) as Hr.
    destruct (EncodeCommand _); [by destruct (Hr a)|done..].
  - intros Hf. destruct (EncodeCommand_fits OpSet _ _ cid seq Hf) as [b Hb]. exists b. rewrite Hb. split.
    + by rewrite (DecodeCommand_EncodeCommand (mkCommand OpSet (sr_Key req) (sr_Value req) cid seq) b Hc Hs Hb).
    + destruct Hf as [Hk _]. by destruct (sr_Key req).
Qed.
End handlers.

Lemma Set_proposes_the_request_witness :
  let req := mkSetRequest (Some (mkPbSession 7 3)) [Byte.x6b] [Byte.x76] in
  ∃ cmd, DecodeCommand cmd = Ret (mkCommand OpSet [Byte.x6b] [Byte.x76] 7 3) ∧
    Set_ ∅ (λ _, Fail ErrProposalDropped) (Fail ErrStopped) req = Err (statusOf Unavailable).
Proof.
  intros req.
  destruct (Set_proposes_the_request ∅ (λ _, Fail ErrProposalDropped) (Fail ErrStopped) req) as [_ Hfit]; [done|done|].
  destruct Hfit as (cmd & Hd & Hs); [split_and!; [done|by vm_compute|by vm_compute]|].
  exists cmd. split; [exact Hd|]. rewrite Hs. reflexivity.
Defined.
