(* ===== verification/KVClient.v ===== *)
(** * The client

    [kvserver/client.go]: a client of the cluster, which tries one endpoint after the
    other and numbers its writes.  The network and the servers are a world [W] of which
    nothing is assumed: [ctx] tells whether the call's context is over, [dial] and
    [invoke] what connecting and calling an endpoint come to, [pause] what ends the wait
    between two sweeps. *)

From S2P Require Import Prelude Varint Types KVServer.

Definition READ_CONSISTENCY_LINEARIZABLE : Z := 1.

(** ** Requests and answers *)

(** [Status] is sent to one endpoint without going through [call]. *)
Inductive request :=
  | RegisterReq
  | SetReq (r : SetRequest)
  | DeleteReq (r : DeleteRequest)
  | GetReq (r : GetRequest)
  | ChangeMembershipReq (voters : list N).

Inductive response :=
  | RegisterResp (id : N)
  | SetResp (index : N)
  | DeleteResp (r : DeleteResponse)
  | GetResp (r : GetResponse)
  | ChangeMembershipResp (r : ChangeMembershipResponse).

(** What one endpoint answered instead of a response. *)
Inductive tryError := RpcError (e : statusError) | DialError.

(** What a call ends with: an error of its context, one that another endpoint would only
    repeat, or the last one seen when every attempt was used up. *)
Inductive callError :=
  | CtxError (e : error)
  | Final (e : tryError)
  | GaveUp (lastErr : option tryError).

Record Client := mkClient {
  c_endpoints : list string;
  c_conns : gset string;
  c_leader : string;
  c_clientID : N;
  c_sequence : N;
  c_MaxAttempts : Z
}.

Definition NewClient (endpoints : list string) : outcome Client :=
  match endpoints with
  | [] => Fail (Errorf "kvserver: at least one endpoint is required" [])
  | _ => Ret (mkClient endpoints ∅ EmptyString 0 0 (2 * Z.of_nat (length endpoints) + 2))
  end.

(** Endpoints with the last known leader first. *)
Definition order (c : Client) : list string :=
  if String.eqb (c_leader c) EmptyString then c_endpoints c
  else c_leader c :: filter (λ e, e ≠ c_leader c) (c_endpoints c).

(** [retryable]; errors of a stub carry a status. *)
Definition retryable (e : statusError) : bool :=
  match se_code e with FailedPrecondition | Unavailable => true | _ => false end.

(** [LeaderHint] *)
Definition LeaderHint (e : statusError) : option NotLeaderError := se_detail e.

(** The operations of a client. *)
Inductive cop :=
  | CopSet (key value : bytes)
  | CopDelete (key : bytes)
  | CopGet (key : bytes) (level : Z)
  | CopChangeMembership (voters : list N).

(** The session a request carries. *)
Definition session_of (req : request) : option pbSession :=
  match req with SetReq r => sr_Session r | DeleteReq r => dr_Session r | _ => None end.

Definition is_write (req : request) : bool := match req with SetReq _ | DeleteReq _ => true | _ => false end.

Section client.
Context {W : Type} (ctx : W → option error * W) (dial : string → W → bool * W)
  (invoke : string → request → W → rpc response * W) (pause : W → option error * W).

(** [cs_calls] is a history variable: what was sent to which endpoint. *)
Record state := mkState { cs_client : Client; cs_world : W; cs_calls : list (string * request) }.

Definition set_client (c : Client) (s : state) : state := mkState c (cs_world s) (cs_calls s).
Definition world {B} (f : W → B * W) : M state B := λ s,
  let '(b, w) := f (cs_world s) in (Ret b, mkState (cs_client s) w (cs_calls s)).

(** [connect]; a connection once made is kept. *)
Definition connect (addr : string) : M state bool :=
  s <- get ;;
  let c := cs_client s in
  if bool_decide (addr ∈ c_conns c) then ret true
  else
    ok <- world (dial addr) ;;
    if (ok : bool) then
      modify (λ s, set_client (mkClient (c_endpoints c) ({[addr]} ∪ c_conns c) (c_leader c) (c_clientID c) (c_sequence c)
                                 (c_MaxAttempts c)) s) ;;;
      ret true
    else ret false.

Definition rememberLeader (addr : string) : M state unit :=
  modify (λ s, let c := cs_client s in
    set_client (mkClient (c_endpoints c) (c_conns c) addr (c_clientID c) (c_sequence c) (c_MaxAttempts c)) s).

(** [fn(ctx, conn)] *)
Definition send_request (addr : string) (req : request) : M state (rpc response) :=
  modify (λ s, mkState (cs_client s) (cs_world s) (cs_calls s ++ [(addr, req)])) ;;;
  world (invoke addr req).

(** A sweep of the endpoints: [inl] ends the call, [inr] is the last error. *)
Fixpoint sweep (req : request) (lastErr : option tryError) (addrs : list string)
    : M state ((callError + response) + option tryError) :=
  match addrs with
  | [] => ret (inr lastErr)
  | addr :: rest =>
      over <- world ctx ;;
      match over with
      | Some e => ret (inl (inl (CtxError e)))
      | None =>
          ok <- connect addr ;;
          if negb ok then sweep req (Some DialError) rest
          else
            answer <- send_request addr req ;;
            match answer with
            | OK resp => rememberLeader addr ;;; ret (inl (inr resp))
            | Err e =>
                if negb (retryable e) then ret (inl (inl (Final (RpcError e))))
                else sweep req (Some (RpcError e)) rest
            end
      end
  end.

(** The attempts that are left. *)
Fixpoint attempts (req : request) (lastErr : option tryError) (n : nat) : M state (callError + response) :=
  match n with
  | O => ret (inl (GaveUp lastErr))
  | Datatypes.S n =>
      s <- get ;;
      res <- sweep req lastErr (order (cs_client s)) ;;
      match res with
      | inl final => ret final
      | inr lastErr =>
          over <- world pause ;;
          match over with
          | Some e => ret (inl (CtxError e))
          | None => attempts req lastErr n
          end
      end
  end.

Definition call (req : request) : M state (callError + response) :=
  s <- get ;;
  attempts req None (Z.to_nat (c_MaxAttempts (cs_client s))).

(** ** The operations *)

Definition client_Register : M state (callError + N) :=
  res <- call RegisterReq ;;
  match res with
  | inl e => ret (inl e)
  | inr (RegisterResp id) =>
      modify (λ s, let c := cs_client s in
        set_client (mkClient (c_endpoints c) (c_conns c) (c_leader c) id (c_sequence c) (c_MaxAttempts c)) s) ;;;
      ret (inr id)
  | inr _ => ret (inr 0%N)
  end.

(** [session], once per operation. *)
Definition session : M state (option pbSession) :=
  s <- get ;;
  let c := cs_client s in
  if (c_clientID c =? 0)%N then ret None
  else
    let seq := c_sequence c +u 1 in
    modify (set_client (mkClient (c_endpoints c) (c_conns c) (c_leader c) (c_clientID c) seq (c_MaxAttempts c))) ;;;
    ret (Some (mkPbSession (c_clientID c) seq)).

Definition client_Set (key value : bytes) : M state (callError + N) :=
  sess <- session ;;
  res <- call (SetReq (mkSetRequest sess key value)) ;;
  ret (match res with inl e => inl e | inr (SetResp i) => inr i | inr _ => inr 0%N end).

Definition client_Delete (key : bytes) : M state (callError + bool) :=
  sess <- session ;;
  res <- call (DeleteReq (mkDeleteRequest sess key)) ;;
  ret (match res with inl e => inl e | inr (DeleteResp r) => inr (dp_Existed r) | inr _ => inr false end).

(** [get], for [Get] and [GetStale]. *)
Definition client_get (key : bytes) (level : Z) : M state (callError + bytes * bool) :=
  res <- call (GetReq (mkGetRequest key level)) ;;
  ret (match res with inl e => inl e | inr (GetResp r) => inr (gp_Value r, gp_Found r) | inr _ => inr ([], false) end).

Definition client_Get (key : bytes) : M state (callError + bytes * bool) := client_get key READ_CONSISTENCY_LINEARIZABLE.

Definition client_GetStale (key : bytes) : M state (callError + bytes * bool) := client_get key READ_CONSISTENCY_STALE.

Definition client_ChangeMembership (voters : list N) : M state (callError + option ChangeMembershipResponse) :=
  res <- call (ChangeMembershipReq voters) ;;
  ret (match res with inl e => inl e | inr (ChangeMembershipResp r) => inr (Some r) | inr _ => inr None end).

(** [Status]: one endpoint, no retry; [ask] is the procedure call. *)
Definition client_Status (ask : string → W → rpc StatusResponse * W) (endpoint : string) : M state (tryError + StatusResponse) :=
  ok <- connect endpoint ;;
  if negb ok then ret (inl DialError)
  else
    answer <- world (ask endpoint) ;;
    ret (match answer with OK r => inr r | Err e => inl (RpcError e) end).

(** [Close]: what closing a connection answers is dropped. *)
Definition client_Close : M state unit :=
  modify (λ s, let c := cs_client s in
    set_client (mkClient (c_endpoints c) ∅ (c_leader c) (c_clientID c) (c_sequence c) (c_MaxAttempts c)) s).

(** ** What a call does *)

(** What stays the same whatever a call comes to. *)
Definition same_identity (s s' : state) : Prop :=
  let c := cs_client s in let c' := cs_client s' in
  c_endpoints c' = c_endpoints c ∧ c_clientID c' = c_clientID c ∧ c_sequence c' = c_sequence c ∧
  c_MaxAttempts c' = c_MaxAttempts c.

(** [s'] comes after [s], having sent [req] to at most [n] endpoints out of [addrs]. *)
Definition sends (req : request) (addrs : list string) (n : nat) (s s' : state) : Prop :=
  same_identity s s' ∧
  ∃ l, cs_calls s' = cs_calls s ++ l ∧ length l ≤ n ∧ Forall (λ x, x.1 ∈ addrs ∧ x.2 = req) l.

Lemma sends_refl req addrs s : sends req addrs 0 s s.
Proof. split; [done|]. exists []. by rewrite app_nil_r. Qed.

Lemma sends_trans req addrs n1 n2 s1 s2 s3 :
  sends req addrs n1 s1 s2 → sends req addrs n2 s2 s3 → sends req addrs (n1 + n2) s1 s3.
Proof.
  intros [(E1 & E2 & E3 & E4) (l1 & El1 & Hn1 & Hl1)] [(F1 & F2 & F3 & F4) (l2 & El2 & Hn2 & Hl2)]. split.
  - split_and!; congruence.
  - exists (l1 ++ l2). rewrite El2, El1, app_assoc, length_app. split_and!; [done|lia|by apply Forall_app].
Qed.

Lemma sends_mono req addrs n1 n2 s s' : n1 ≤ n2 → sends req addrs n1 s s' → sends req addrs n2 s s'.
Proof. intros Hle [Hid (l & ? & ? & ?)]. split; [done|]. exists l. split_and!; [done|lia|done]. Qed.

Lemma connect_ok addr s :
  ∃ ok s', connect addr s = (Ret ok, s') ∧ same_identity s s' ∧ cs_calls s' = cs_calls s ∧ c_leader (cs_client s') = c_leader (cs_client s).
Proof.
  unfold connect, bind. cbn [get]. case_bool_decide; [by exists true, s|]. unfold world. destruct (dial addr (cs_world s)) as [[] w].
  - eexists true, _. split; [reflexivity|]. done.
  - eexists false, _. split; [reflexivity|]. done.
Qed.

(** [resp] is what the endpoint asked last, now remembered, answered to [req]. *)
Definition answered_by (req : request) (resp : response) (s s' : state) : Prop :=
  ∃ l w, cs_calls s' = cs_calls s ++ l ++ [(c_leader (cs_client s'), req)] ∧
    fst (invoke (c_leader (cs_client s')) req w) = OK resp.

Lemma answered_later req resp s1 s2 s' l :
  cs_calls s2 = cs_calls s1 ++ l → answered_by req resp s2 s' → answered_by req resp s1 s'.
Proof. intros Hl (l' & w & El & Hw). exists (l ++ l'), w. by rewrite El, Hl, <- !app_assoc. Qed.

Lemma sweep_ok req addrs : ∀ todo lastErr s, todo ⊆ addrs →
  ∃ res s', sweep req lastErr todo s = (Ret res, s') ∧ sends req addrs (length todo) s s' ∧
    match res with
    | inl (inr resp) => answered_by req resp s s'
    | _ => c_leader (cs_client s') = c_leader (cs_client s)
    end.
Proof.
  induction todo as [|addr todo IH]; intros lastErr s Hsub; cbn [sweep].
  { eexists _, s. split; [done|]. split; [apply sends_refl|done]. }
  unfold bind at 1, world at 1. destruct (ctx (cs_world s)) as [[e|] w].
  { eexists _, _. split; [reflexivity|]. split; [|done]. eapply sends_mono; [apply Nat.le_0_l|].
    split; [done|]. exists []. by rewrite app_nil_r. }
  set (s1 := mkState (cs_client s) w (cs_calls s)). unfold bind at 1.
  destruct (connect_ok addr s1) as (ok & s2 & -> & Hid & Hcalls & Hlead).
  assert (sends req addrs 0 s s2) as Hs2 by (split; [done|]; exists []; by rewrite app_nil_r).
  destruct ok; cbn [negb].
  2: { destruct (IH (Some DialError) s2) as (res & s' & E & Hs & Hres); [set_solver|]. exists res, s'. split; [done|].
       split; [eapply sends_mono; [|by eapply sends_trans]; cbn; lia|].
       cbn in Hcalls, Hlead. destruct res as [[]|]; [congruence| |congruence].
       eapply answered_later; [|done]. by rewrite Hcalls, app_nil_r. }
  unfold bind at 1, send_request, bind at 1. cbn [modify]. unfold world at 1. cbn [cs_world cs_client cs_calls].
  destruct (invoke addr req (cs_world s2)) as [answer w3] eqn:Ei.
  set (s3 := mkState (cs_client s2) w3 (cs_calls s2 ++ [(addr, req)])).
  assert (sends req addrs 1 s2 s3) as Hs3.
  { split; [done|]. exists [(addr, req)]. split_and!; [done|done|]. apply Forall_singleton. cbn. set_solver. }
  destruct answer as [resp|e].
  - eexists _, _. split; [reflexivity|]. split.
    + eapply sends_mono; [|eapply sends_trans; [exact Hs2|exact Hs3]]. cbn. lia.
    + exists [], (cs_world s2). cbn. by rewrite Hcalls, Ei.
  - destruct (retryable e); cbn [negb].
    + destruct (IH (Some (RpcError e)) s3) as (res & s' & E & Hs & Hres); [set_solver|]. exists res, s'. split; [done|]. split.
      * eapply sends_mono; [|eapply sends_trans; [exact Hs2|eapply sends_trans; [exact Hs3|exact Hs]]]. cbn. lia.
      * destruct res as [[]|]; [cbn in *; congruence| |cbn in *; congruence].
        eapply answered_later; [|done]. cbn. by rewrite Hcalls.
    + eexists _, s3. split; [reflexivity|]. split; [|done].
      eapply sends_mono; [|eapply sends_trans; [exact Hs2|exact Hs3]]. cbn. lia.
Qed.

(** The last known leader is an endpoint, once there is one. *)
Definition client_ok (s : state) : Prop :=
  c_leader (cs_client s) = EmptyString ∨ c_leader (cs_client s) ∈ c_endpoints (cs_client s).

Lemma filter_ne_length (x : string) l : x ∈ l → length (filter (λ e, e ≠ x) l) < length l.
Proof.
  induction l as [|y l IH]; intros Hin; [by apply elem_of_nil in Hin|]. rewrite filter_cons.
  pose proof (length_filter (λ e, e ≠ x) l). case_decide as E; cbn; [|lia].
  apply elem_of_cons in Hin as [->|Hin]; [done|]. specialize (IH Hin). lia.
Qed.

Lemma order_spec c :
  c_leader c = EmptyString ∨ c_leader c ∈ c_endpoints c →
  order c ⊆ c_endpoints c ∧ length (order c) ≤ length (c_endpoints c) ∧ (∀ e, e ∈ c_endpoints c → e ∈ order c).
Proof.
  intros Hl. unfold order. destruct (String.eqb_spec (c_leader c) EmptyString) as [E|E]; [done|].
  destruct Hl as [|Hin]; [done|]. split_and!.
  - intros e [->|[_ He]%list_elem_of_filter]%elem_of_cons; done.
  - cbn. pose proof (filter_ne_length _ _ Hin). lia.
  - intros e He. destruct (decide (e = c_leader c)) as [->|]; [by left|]. right. by apply list_elem_of_filter.
Qed.

Lemma attempts_ok req : ∀ n lastErr s, client_ok s →
  ∃ res s', attempts req lastErr n s = (Ret res, s') ∧
    sends req (c_endpoints (cs_client s)) (n * length (c_endpoints (cs_client s))) s s' ∧ client_ok s' ∧
    ∀ resp, res = inr resp → answered_by req resp s s'.
Proof.
  induction n as [|n IH]; intros lastErr s Hok; cbn [attempts].
  { eexists _, s. split; [done|]. split; [apply sends_refl|]. split; [done|]. by intros. }
  destruct (order_spec (cs_client s) Hok) as (Hsub & Hlen & _). unfold bind at 1. cbn [get]. unfold bind at 1.
  destruct (sweep_ok req (c_endpoints (cs_client s)) (order (cs_client s)) lastErr s Hsub) as (res & s1 & -> & Hs & Hres).
  assert (sends req (c_endpoints (cs_client s)) (length (c_endpoints (cs_client s))) s s1) as Hs' by (by eapply sends_mono).
  assert (client_ok s1) as Hok1.
  { destruct Hs as [(E & _) (l & El & _ & Hl)]. unfold client_ok. rewrite E.
    destruct res as [[e|resp]|]; [by rewrite Hres| |by rewrite Hres]. right. destruct Hres as (l' & w & El' & _).
    rewrite El in El'. apply app_inj_1 in El' as [_ ->]; [|done]. apply Forall_app in Hl as [_ Hl].
    by apply Forall_singleton in Hl as [? _]. }
  destruct res as [[e|resp]|lastErr'].
  - eexists _, s1. split; [reflexivity|]. split; [eapply sends_mono; [|exact Hs']; cbn; lia|]. split; [done|]. by intros.
  - eexists _, s1. split; [reflexivity|]. split; [eapply sends_mono; [|exact Hs']; cbn; lia|]. split; [done|]. by intros _ [= <-].
  - unfold bind at 1, world at 1. destruct (pause (cs_world s1)) as [[e|] w].
    + eexists _, _. split; [reflexivity|]. split; [|split; [done|by intros]]. eapply sends_mono; [|exact Hs']. cbn. lia.
    + set (s2 := mkState (cs_client s1) w (cs_calls s1)). destruct (IH lastErr' s2 Hok1) as (res & s' & E & Hs2 & Hok2 & Hlast).
      exists res, s'. split; [done|]. cbn [s2 cs_client] in Hs2. rewrite (proj1 (proj1 Hs)) in Hs2. split.
      * replace (Datatypes.S n * _) with (length (c_endpoints (cs_client s)) + n * length (c_endpoints (cs_client s))) by lia.
        eapply sends_trans; [exact Hs'|exact Hs2].
      * split; [done|]. intros resp Hresp. destruct Hs as [_ (l1 & El1 & _)]. eapply answered_later; [exact El1|].
        by apply Hlast.
Qed.

(** One operation, one request.  Whatever the network and the servers do, a call comes to
    an end; it sends the same request every time, to configured endpoints only, and no more
    often than [MaxAttempts] sweeps allow; it leaves the client's identity and counter
    alone; and if it succeeds it is the endpoint asked last that is asked first next time. *)
Theorem call_repeats_one_request req s :
  client_ok s →
  ∃ res s' l, call req s = (Ret res, s') ∧ client_ok s' ∧ same_identity s s' ∧
    cs_calls s' = cs_calls s ++ l ∧ Forall (λ x, x.1 ∈ c_endpoints (cs_client s) ∧ x.2 = req) l ∧
    (Z.of_nat (length l) ≤ Z.max 0 (c_MaxAttempts (cs_client s)) * Z.of_nat (length (c_endpoints (cs_client s))))%Z ∧
    ∀ resp, res = inr resp → last l = Some (c_leader (cs_client s'), req).
Proof.
  intros Hok. unfold call, bind. cbn [get].
  destruct (attempts_ok req (Z.to_nat (c_MaxAttempts (cs_client s))) None s Hok) as (res & s' & E & [Hid (l & El & Hl & Hall)] & Hok' & Hlast).
  exists res, s', l. split_and!; try done; [lia|]. intros resp Hresp. destruct (Hlast resp Hresp) as (l' & w & El' & _).
  rewrite El in El'. apply app_inv_head in El' as ->. by rewrite last_snoc.
Qed.

(** ** One operation after the other *)

Definition perform_cop (o : cop) : M state unit :=
  match o with
  | CopSet k v => client_Set k v ;;; ret tt
  | CopDelete k => client_Delete k ;;; ret tt
  | CopGet k l => client_get k l ;;; ret tt
  | CopChangeMembership v => client_ChangeMembership v ;;; ret tt
  end.

(** The request of one operation, under the number [q]. *)
Definition request_of (id q : N) (o : cop) : request :=
  let sess := if (id =? 0)%N then None else Some (mkPbSession id q) in
  match o with
  | CopSet k v => SetReq (mkSetRequest sess k v)
  | CopDelete k => DeleteReq (mkDeleteRequest sess k)
  | CopGet k l => GetReq (mkGetRequest k l)
  | CopChangeMembership v => ChangeMembershipReq v
  end.

Definition takes_number (o : cop) : bool := match o with CopSet _ _ | CopDelete _ => true | _ => false end.

(** A call made after taking a number, seen from before it was taken. *)
Lemma after_session (c : Client) (s s1 s' : state) q (req : request) l P :
  c_endpoints (cs_client s1) = c_endpoints c → c_clientID (cs_client s1) = c_clientID c → cs_calls s1 = cs_calls s →
  c_sequence (cs_client s1) = q →
  client_ok s' ∧ same_identity s1 s' ∧ cs_calls s' = cs_calls s1 ++ l ∧
    Forall (λ x, x.1 ∈ c_endpoints (cs_client s1) ∧ x.2 = req) l ∧ P →
  client_ok s' ∧ c_endpoints (cs_client s') = c_endpoints c ∧ c_clientID (cs_client s') = c_clientID c ∧
    c_sequence (cs_client s') = q ∧ cs_calls s' = cs_calls s ++ l ∧ Forall (λ x, x.1 ∈ c_endpoints c ∧ x.2 = req) l.
Proof. intros E1 E2 E3 E4 (Hok & (F1 & F2 & F3 & F4) & El & Hl & _). rewrite E1 in Hl. split_and!; congruence. Qed.

(** A call returns, whatever it meets. *)
Lemma call_returns req s0 :
  client_ok s0 → ∃ res s' l, call req s0 = (Ret res, s') ∧ client_ok s' ∧ same_identity s0 s' ∧
    cs_calls s' = cs_calls s0 ++ l ∧ Forall (λ x, x.1 ∈ c_endpoints (cs_client s0) ∧ x.2 = req) l ∧
    ∀ resp, res = inr resp → answered_by req resp s0 s'.
Proof.
  intros Hok0. unfold call, bind. cbn [get].
  destruct (attempts_ok req (Z.to_nat (c_MaxAttempts (cs_client s0))) None s0 Hok0) as (res & s' & E & [Hid (l & El & _ & Hall)] & Hok' & Hlast).
  exists res, s', l. by split_and!.
Qed.

(** An operation is one call, with the next number if it is a write of a session. *)
Lemma cop_call o s :
  client_ok s →
  let c := cs_client s in
  let q := if takes_number o && negb (c_clientID c =? 0)%N then c_sequence c +u 1 else c_sequence c in
  ∃ s' l, perform_cop o s = (Ret tt, s') ∧ client_ok s' ∧
    c_endpoints (cs_client s') = c_endpoints c ∧ c_clientID (cs_client s') = c_clientID c ∧ c_sequence (cs_client s') = q ∧
    cs_calls s' = cs_calls s ++ l ∧ Forall (λ x, x.1 ∈ c_endpoints c ∧ x.2 = request_of (c_clientID c) q o) l.
Proof.
  intros Hok c.
  pose proof call_returns as Hcall.
  assert (∀ sess s1, session s = (Ret sess, s1) → client_ok s1 ∧ c_endpoints (cs_client s1) = c_endpoints c ∧
    c_clientID (cs_client s1) = c_clientID c ∧ cs_calls s1 = cs_calls s ∧
    c_sequence (cs_client s1) = (if negb (c_clientID c =? 0)%N then c_sequence c +u 1 else c_sequence c) ∧
    sess = (if (c_clientID c =? 0)%N then None else Some (mkPbSession (c_clientID c) (c_sequence c +u 1)))) as Hsess.
  { intros sess s1. unfold session, bind. cbn [get]. fold c. destruct (c_clientID c =? 0)%N; intros [= <- <-]; done. }
  assert (∃ sess s1, session s = (Ret sess, s1)) as (sess & s1 & Es).
  { unfold session, bind. cbn [get]. destruct (c_clientID (cs_client s) =? 0)%N; eexists _, _; reflexivity. }
  destruct (Hsess _ _ Es) as (Hok1 & E1 & E2 & E3 & E4 & E5).
  set (q := if takes_number o && _ then _ else _).
  assert (takes_number o = true → (if (c_clientID c =? 0)%N then None else Some (mkPbSession (c_clientID c) (c_sequence c +u 1))) =
    (if (c_clientID c =? 0)%N then None else Some (mkPbSession (c_clientID c) q))) as Eq.
  { intros Ht. subst q. rewrite Ht. by destruct (c_clientID c =? 0)%N. }
  destruct o as [k v|k|k lv|vs]; cbn [perform_cop takes_number andb request_of].
  - unfold client_Set, bind. rewrite Es. destruct (Hcall (SetReq (mkSetRequest sess k v)) s1 Hok1) as (res & s' & l & E & Hrest).
    rewrite E. exists s', l. split; [done|]. rewrite E5, Eq in Hrest by done. by apply (after_session c s s1 s' q) in Hrest.
  - unfold client_Delete, bind. rewrite Es. destruct (Hcall (DeleteReq (mkDeleteRequest sess k)) s1 Hok1) as (res & s' & l & E & Hrest).
    rewrite E. exists s', l. split; [done|]. rewrite E5, Eq in Hrest by done. by apply (after_session c s s1 s' q) in Hrest.
  - unfold client_get, bind. destruct (Hcall (GetReq (mkGetRequest k lv)) s Hok) as (res & s' & l & E & Hok' & (F1 & F2 & F3 & F4) & El & Hl & _).
    rewrite E. exists s', l. by split_and!.
  - unfold client_ChangeMembership, bind.
    destruct (Hcall (ChangeMembershipReq vs) s Hok) as (res & s' & l & E & Hok' & (F1 & F2 & F3 & F4) & El & Hl & _).
    rewrite E. exists s', l. by split_and!.
Qed.

Fixpoint perform_cops (os : list cop) : M state unit :=
  match os with [] => ret tt | o :: os' => perform_cop o ;;; perform_cops os' end.

(** The number of a write; what is not a write of a session has none. *)
Definition number (x : string * request) : N := from_option pb_SequenceNum 0%N (session_of x.2).

Definition writes_of (l : list (string * request)) : list (string * request) := filter (λ x, is_write x.2 = true) l.

(** What a client that waits sends, in the course of any operations, from number [q] on. *)
Definition numbered_calls (id q q' : N) (l : list (string * request)) : Prop :=
  Forall (λ x, (∃ n, session_of x.2 = Some (mkPbSession id n)) ∧ (q < number x ≤ q')%N) (writes_of l) ∧
  StronglySorted (λ x y, number x ≤ number y)%N (writes_of l) ∧
  ∀ x y, x ∈ writes_of l → y ∈ writes_of l → number x = number y → x.2 = y.2.

Lemma numbered_app id q1 q2 q3 l1 l2 :
  (q1 ≤ q2 ≤ q3)%N → numbered_calls id q1 q2 l1 → numbered_calls id q2 q3 l2 → numbered_calls id q1 q3 (l1 ++ l2).
Proof.
  intros Hq (F1 & S1 & D1) (F2 & S2 & D2). unfold numbered_calls, writes_of. rewrite filter_app. fold (writes_of l1) (writes_of l2).
  rewrite Forall_forall in F1, F2. split_and!.
  - apply Forall_app. split; apply Forall_forall; intros x Hx; [destruct (F1 x Hx)|destruct (F2 x Hx)]; split; try done; lia.
  - apply StronglySorted_app_2; [|done|done]. intros x y Hx Hy. destruct (F1 x Hx), (F2 y Hy). lia.
  - intros x y [Hx|Hx]%elem_of_app [Hy|Hy]%elem_of_app E; [by apply D1| | |by apply D2].
    + destruct (F1 x Hx), (F2 y Hy). lia.
    + destruct (F2 x Hx), (F1 y Hy). lia.
Qed.

(** What a client that waits sends in the course of the operations [os]: for each in turn
    some copies of one request, to its endpoints; a write takes the number after [q]. *)
Fixpoint conversation (id : N) (addrs : list string) (q : N) (os : list cop) (l : list (string * request)) : Prop :=
  match os with
  | [] => l = []
  | o :: os' =>
      let q' := if takes_number o then (q + 1)%N else q in
      ∃ l1 l2, l = l1 ++ l2 ∧ Forall (λ x, x.1 ∈ addrs ∧ x.2 = request_of id q' o) l1 ∧ conversation id addrs q' os' l2
  end.

Definition numbers_taken (os : list cop) : N := N.of_nat (length (filter (λ o, takes_number o = true) os)).

(** The requests of one operation. *)
Lemma operation_numbered id (addrs : list string) q o l :
  id ≠ 0%N →
  let q' := if takes_number o then (q + 1)%N else q in
  Forall (λ x, x.1 ∈ addrs ∧ x.2 = request_of id q' o) l → numbered_calls id q q' l.
Proof.
  intros Hid q' Hl. rewrite Forall_forall in Hl.
  assert (∀ x, x ∈ writes_of l → x.2 = request_of id q' o ∧ session_of x.2 = Some (mkPbSession id q') ∧ q' = (q + 1)%N) as Hx.
  { intros x [Hw Hx]%list_elem_of_filter. destruct (Hl x Hx) as [_ E]. split; [done|]. rewrite E in *. subst q'.
    unfold request_of in *. rewrite (proj2 (N.eqb_neq _ _)) by done. by destruct o. }
  split_and!.
  - apply Forall_forall. intros x (_ & Hs & ->)%Hx. unfold number. rewrite Hs. split; [eauto|]. cbn. lia.
  - assert (Forall (λ x, number x = q') (writes_of l)) as Heq.
    { apply Forall_forall. intros x (_ & Hs & _)%Hx. unfold number. by rewrite Hs. }
    clear -Heq. induction Heq as [|x l' Ex Hl IH]; constructor; [done|]. eapply Forall_impl; [done|]. cbn. lia.
  - intros x y (-> & _)%Hx (-> & _)%Hx _. done.
Qed.

Lemma conversation_numbered id addrs : ∀ os q l,
  id ≠ 0%N → conversation id addrs q os l → numbered_calls id q (q + numbers_taken os) l.
Proof.
  intros os. unfold numbers_taken. induction os as [|o os IH]; intros q l Hid; cbn [conversation].
  - intros ->. unfold numbered_calls. cbn. split_and!; [constructor|constructor|]. by intros x y ?%elem_of_nil.
  - intros (l1 & l2 & -> & Hl1%operation_numbered & Hl2%IH); [|done..]. rewrite filter_cons.
    destruct (takes_number o); [rewrite decide_True by done|rewrite decide_False by done]; cbn [length] in *.
    + eapply numbered_app; [|exact Hl1|]; [lia|].
      by replace (q + N.of_nat (Datatypes.S _))%N with (q + 1 + N.of_nat (length (filter (λ o, takes_number o = true) os)))%N by lia.
    + eapply numbered_app; [|exact Hl1|exact Hl2]. lia.
Qed.

Lemma cops_converse os : ∀ s,
  client_ok s → c_clientID (cs_client s) ≠ 0%N → (c_sequence (cs_client s) + N.of_nat (length os) < W64)%N →
  ∃ s' l, perform_cops os s = (Ret tt, s') ∧ cs_calls s' = cs_calls s ++ l ∧
    c_sequence (cs_client s') = (c_sequence (cs_client s) + numbers_taken os)%N ∧
    conversation (c_clientID (cs_client s)) (c_endpoints (cs_client s)) (c_sequence (cs_client s)) os l.
Proof.
  induction os as [|o os IH]; intros s Hok Hid Hw; cbn [perform_cops].
  { exists s, []. rewrite app_nil_r. split_and!; try done. unfold numbers_taken. cbn. lia. }
  cbn [length] in Hw. destruct (cop_call o s Hok) as (s1 & l1 & E1 & Hok1 & Eep & Eid & Eq & El1 & Hl1).
  rewrite (proj2 (N.eqb_neq _ _)), andb_true_r, u64_add_small in Eq, Hl1 by (done || lia).
  destruct (IH s1 Hok1) as (s2 & l2 & E2 & El2 & Hq2 & Hl2); [congruence|rewrite Eq; case_match; lia|].
  exists s2, (l1 ++ l2). unfold bind. rewrite E1. split; [done|]. split; [by rewrite El2, El1, app_assoc|].
  split; [|exists l1, l2; split_and!; [done|done|congruence]].
  rewrite Hq2, Eq. unfold numbers_taken. rewrite filter_cons.
  destruct (takes_number o); [rewrite decide_True by done|rewrite decide_False by done]; cbn [length]; lia.
Qed.

(** C29: A client that waits for each operation to end before it begins the next sends, for
    each in turn, copies of one and the same request, that of the operation, to its
    endpoints, however often it tries.  Every write has a number of its own, the next one,
    and what bears its client id and number is that write: the numbers sent never go down,
    and two requests that bear the same number are the same. *)
Theorem numbers_identify_writes os s :
  client_ok s → c_clientID (cs_client s) ≠ 0%N → (c_sequence (cs_client s) + N.of_nat (length os) < W64)%N →
  ∃ s' l, perform_cops os s = (Ret tt, s') ∧ cs_calls s' = cs_calls s ++ l ∧
    c_sequence (cs_client s') = (c_sequence (cs_client s) + numbers_taken os)%N ∧
    conversation (c_clientID (cs_client s)) (c_endpoints (cs_client s)) (c_sequence (cs_client s)) os l ∧
    numbered_calls (c_clientID (cs_client s)) (c_sequence (cs_client s)) (c_sequence (cs_client s')) l.
Proof.
  intros Hok Hid Hw. destruct (cops_converse os s Hok Hid Hw) as (s' & l & E & El & Eq & Hl). exists s', l.
  split_and!; try done. rewrite Eq. by eapply conversation_numbered.
Qed.

(** ** Finding the leader *)

(** The others may be out of reach, refuse, or answer themselves. *)
Definition answers (lead : string) (req : request) : Prop :=
  (∀ w, fst (ctx w) = None) ∧ (∀ w, fst (dial lead w) = true) ∧
  (∀ w, ∃ resp, fst (invoke lead req w) = OK resp) ∧
  ∀ addr w e, fst (invoke addr req w) = Err e → retryable e = true.

(** One sweep: [l] was sent, and the last that was asked answered. *)
Definition found (req : request) (resp : response) (addrs : list string) (s s' : state) : Prop :=
  ∃ l w, cs_calls s' = cs_calls s ++ ((λ addr, (addr, req)) <$> l ++ [c_leader (cs_client s')]) ∧
    l ++ [c_leader (cs_client s')] `sublist_of` addrs ∧ fst (invoke (c_leader (cs_client s')) req w) = OK resp.

Lemma found_later req resp addr todo s s2 s' :
  cs_calls s2 = cs_calls s ∨ cs_calls s2 = cs_calls s ++ [(addr, req)] →
  found req resp todo s2 s' → found req resp (addr :: todo) s s'.
Proof.
  intros Hs (l & w & El & Hsub & Hw). destruct Hs as [Hs|Hs]; rewrite Hs in El.
  - exists l, w. split_and!; [done|by constructor|done].
  - exists (addr :: l), w. split_and!; [|by constructor|done]. rewrite El. cbn. by rewrite <- app_assoc.
Qed.

Lemma sweep_finds req lead todo : ∀ lastErr s,
  lead ∈ todo → answers lead req →
  ∃ resp s', sweep req lastErr todo s = (Ret (inl (inr resp)), s') ∧ found req resp todo s s'.
Proof.
  induction todo as [|addr todo IH]; intros lastErr s Hin (Hctx & Hdial & Hlead & Hothers); [by apply elem_of_nil in Hin|].
  cbn [sweep]. unfold bind at 1, world at 1. specialize (Hctx (cs_world s)) as Hc.
  destruct (ctx (cs_world s)) as [o w]. cbn in Hc. subst o. set (s1 := mkState (cs_client s) w (cs_calls s)). unfold bind at 1.
  assert (∃ ok s2, connect addr s1 = (Ret ok, s2) ∧ cs_calls s2 = cs_calls s ∧ (addr = lead → ok = true)) as (ok & s2 & -> & Hs2 & Hok).
  { unfold connect, bind. cbn [get]. case_bool_decide; [by eexists _, _|]. unfold world. specialize (Hdial (cs_world s1)).
    destruct (dial addr (cs_world s1)) as [b w2] eqn:Ed. destruct b; eexists _, _; split_and!; try done.
    intros ->. by rewrite Ed in Hdial. }
  destruct ok; cbn [negb].
  2: { destruct (IH (Some DialError) s2) as (resp & s' & E & Hf); [|done|].
       - apply elem_of_cons in Hin as [->|Hin]; [|done]. by specialize (Hok eq_refl).
       - exists resp, s'. split; [done|]. eapply found_later; [by left|done]. }
  unfold bind at 1, send_request, bind at 1. cbn [modify]. unfold world at 1. cbn [cs_world cs_client cs_calls].
  destruct (invoke addr req (cs_world s2)) as [answer w3] eqn:Ei. destruct answer as [resp|e].
  - eexists resp, _. split; [reflexivity|]. exists [], (cs_world s2). cbn. rewrite Hs2, Ei.
    split_and!; [done|apply sublist_skip, sublist_nil_l|done].
  - rewrite (Hothers addr (cs_world s2) e) by (by rewrite Ei). cbn [negb].
    destruct (IH (Some (RpcError e)) (mkState (cs_client s2) w3 (cs_calls s2 ++ [(addr, req)]))) as (resp & s' & E & Hf); [|done|].
    + apply elem_of_cons in Hin as [->|Hin]; [|done]. destruct (Hlead (cs_world s2)) as [resp Hr]. by rewrite Ei in Hr.
    + exists resp, s'. split; [done|]. eapply found_later; [|done]. right. cbn. by rewrite Hs2.
Qed.

(** C31: Writes get through to a leader.  As long as the context lasts, one of the endpoints
    can be connected to and answers, and the others are out of reach or refuse in a way that
    invites another attempt, a call succeeds in its first sweep, wherever the client last
    looked: it goes through its endpoints once, in order, and the last one asked, which
    is the one it tries first next time, is the one whose answer it returns. *)
Theorem call_reaches_leader req lead s :
  client_ok s → (0 < c_MaxAttempts (cs_client s))%Z → lead ∈ c_endpoints (cs_client s) → answers lead req →
  ∃ resp s', call req s = (Ret (inr resp), s') ∧ found req resp (order (cs_client s)) s s'.
Proof.
  intros Hok Hmax Hin Hans. unfold call, bind. cbn [get].
  destruct (Z.to_nat (c_MaxAttempts (cs_client s))) as [|n] eqn:En; [lia|]. cbn [attempts]. unfold bind. cbn [get].
  destruct (sweep_finds req lead (order (cs_client s)) None s) as (resp & s' & -> & Hf); [by apply order_spec|done|].
  by exists resp, s'.
Qed.
End client.
Arguments state : clear implicits.

(** ** A cluster of three *)

Module ClientExample.
Definition endpoints : list string := ["a"; "b"; "c"]%string.

(** The world counts the requests it was sent; [b] leads. *)
Definition ctx (w : nat) : option error * nat := (None, w).
Definition dial (addr : string) (w : nat) : bool * nat := (true, w).
Definition invoke (addr : string) (req : request) (w : nat) : rpc response * nat :=
  if String.eqb addr "b" then (OK (SetResp (N.of_nat w)), S w)
  else (Err (mkStatusError FailedPrecondition (Some (mkNotLeaderError 2 EmptyString))), S w).
Definition pause (w : nat) : option error * nat := (None, w).

Definition client : Client := mkClient endpoints ∅ EmptyString 7 0 8.
Definition start : state nat := mkState client 0 [].
Definition key : bytes := [Byte.x6b].
Definition ops : list cop := [CopSet key key; CopGet key 1; CopDelete key].

Lemma start_ok : client_ok start.
Proof. by left. Qed.
End ClientExample.
Import ClientExample.

Lemma call_repeats_one_request_witness :
  ∃ res s' l, call ctx dial invoke pause RegisterReq start = (Ret res, s') ∧ cs_calls s' = l ∧ length l = 2 ∧
    last l = Some ("b"%string, RegisterReq).
Proof.
  destruct (call_repeats_one_request ctx dial invoke pause RegisterReq start start_ok)
    as (res & s' & l & E & _ & _ & El & _ & _ & Hlast).
  exists res, s', l. split; [exact E|]. split; [exact El|].
  vm_compute in E. injection E as <- <-. cbn in El. subst l. split; [reflexivity|]. by eapply Hlast.
Defined.

Lemma numbers_identify_writes_witness :
  ∃ s' l, perform_cops ctx dial invoke pause ops start = (Ret tt, s') ∧ cs_calls s' = l ∧
    numbered_calls 7 0 (c_sequence (cs_client s')) l ∧ number <$> writes_of l = [1; 1; 2]%N.
Proof.
  destruct (numbers_identify_writes ctx dial invoke pause ops start start_ok) as (s' & l & E & El & _ & _ & Hn); [done|by vm_compute|].
  exists s', l. split; [exact E|]. split; [exact El|]. split; [exact Hn|].
  vm_compute in E. injection E as <-. cbn in El. subst l. vm_compute. reflexivity.
Defined.

Lemma call_reaches_leader_witness :
  ∃ resp s', call ctx dial invoke pause RegisterReq start = (Ret (inr resp), s') ∧
    found invoke RegisterReq resp endpoints start s' ∧ cs_calls s' = [("a", RegisterReq); ("b", RegisterReq)]%string.
Proof.
  destruct (call_reaches_leader ctx dial invoke pause RegisterReq "b"%string start start_ok) as (resp & s' & E & Hf); [done|..].
  - right. left.
  - split_and!; [done..| |].
    + intros w. by exists (SetResp (N.of_nat w)).
    + intros addr w e. unfold invoke. case_match; [done|]. by intros [= <-].
  - exists resp, s'. split; [exact E|]. split; [exact Hf|]. vm_compute in E. injection E as <- <-. reflexivity.
Defined.
