(* ===== verification/Workload.v ===== *)
(** * The workload

    [chaos/workload.go]: clients that drive a cluster at the same time, each waiting for
    one operation to end before it begins the next, and record what they asked and what
    they were told in one history.

    [workload] is the machine of [Run]: a goroutine per client, in [runClient] and [step],
    and the history they share.  A step is one operation on what is shared, or one call of
    the client; it is given the time and whether the context is done.  What the calls come
    to is the client model's, over a world of its own for each client, of which nothing is
    assumed: what the other clients do in the meantime is part of it.

    The theorems say that the history is one the checker can judge, and that it tells, for
    each client, exactly what that client asked and heard. *)

From Stdlib Require QArith_base.
From S2P Require Import Prelude Varint GoMaps GoStrings Types KVServer KVClient Chaos.

(** ** The generator *)

Abbreviation fraction := QArith_base.Q.

(** [*rand.Rand], as far as it is used. *)
Class Generator (R : Type) := {
  rng_Intn : Z → R → Z * R;
  rng_Float64 : R → fraction * R;
  rng_Int63 : R → Z * R
}.

Class GeneratorLaws (R : Type) `{Generator R} := {
  rng_Intn_range n g : (0 < n)%Z → (0 ≤ fst (rng_Intn n g) < n)%Z;
  rng_Int63_range g : (0 ≤ fst (rng_Int63 g) < 9223372036854775808)%Z
}.

Definition less (x y : fraction) : bool :=
  (QArith_base.Qnum x * Z.pos (QArith_base.Qden y) <? QArith_base.Qnum y * Z.pos (QArith_base.Qden x))%Z.

Definition is_zero (x : fraction) : bool := (QArith_base.Qnum x =? 0)%Z.

(** ** The workload *)

Record Workload := mkWorkload {
  w_Endpoints : list string;
  w_Clients : Z;
  w_Keys : Z;
  w_Duration : Z;
  w_Timeout : Z;
  w_ReadFraction : fraction;
  w_DeleteFraction : fraction;
  w_Seed : Z;
  w_KeyPrefix : bytes
}.

(** [withDefaults]; [unixNano] is the clock's reading, which is not negative. *)
Definition workload_withDefaults (unixNano : N) (w : Workload) : Workload :=
  let or d z := if (z =? 0)%Z then d else z in
  mkWorkload (w_Endpoints w) (or 8 (w_Clients w))%Z (or 5 (w_Keys w))%Z (or 30000000000 (w_Duration w))%Z
    (or 2000000000 (w_Timeout w))%Z
    (if is_zero (w_ReadFraction w) then QArith_base.Qmake 1 2 else w_ReadFraction w)
    (if is_zero (w_DeleteFraction w) then QArith_base.Qmake 15 100 else w_DeleteFraction w)
    (w_Seed w)
    (match w_KeyPrefix w with [] => Byte.x72 :: FormatUint unixNano | p => p end).

(** [fmt.Sprintf("%s-k%d", prefix, n)] and [fmt.Sprintf("c%d-%d", id, v)] *)
Definition key_name (prefix : bytes) (n : Z) : bytes := prefix ++ [Byte.x2d; Byte.x6b] ++ FormatUint (Z.to_N n).
Definition value_name (id v : Z) : bytes := Byte.x63 :: FormatUint (Z.to_N id) ++ Byte.x2d :: FormatUint (Z.to_N v).

Section generator.
Context {R : Type} `{HGen : Generator R}.

(** The operation that [step] draws. *)
Definition choose (w : Workload) (id : Z) (g : R) : outcome (Input * R) :=
  if (w_Keys w <=? 0)%Z then Panic "invalid argument to Intn"
  else
    let '(n, g) := rng_Intn (w_Keys w) g in
    let key := key_name (w_KeyPrefix w) n in
    let '(x, g) := rng_Float64 g in
    if less x (w_ReadFraction w) then Ret (mkInput OpGet key [], g)
    else
      let '(y, g) := rng_Float64 g in
      if less y (w_DeleteFraction w) then Ret (mkInput OpDelete key [], g)
      else
        let '(v, g) := rng_Int63 g in
        Ret (mkInput OpPut key (value_name id v), g).
End generator.

(** What the call of an operation came to; [Failed] is any error. *)
Inductive callAnswer := Answer (value : bytes) (found : bool) | Failed.

Definition heard (a : callAnswer) : Output :=
  match a with Answer value found => mkOutput value found false | Failed => mkOutput [] false true end.

(** What ends a client early. *)
Inductive runErr := ErrClient (e : error) | ErrRegister (e : callError).

(** Where a client is: before [NewClient], before [Register], at the head of the loop, at
    the head of [step], within [Begin] with an id, about to call the client, about to
    record the answer, done. *)
Inductive spot :=
  | KNew
  | KRegister
  | KLoop
  | KStep
  | KBegin (op : Z) (inp : Input)
  | KAsk (op : Z) (inp : Input)
  | KTell (op : Z) (inp : Input) (a : callAnswer)
  | KDone (err : option runErr).

Section run.
Context {R : Type} `{HGen : Generator R}.
Context {W : Type} (ctx : W → option error * W) (dial : string → W → bool * W)
  (invoke : string → request → W → rpc response * W) (pause : W → option error * W).
Context (seeded : Z → R) (w : Workload).

Local Abbreviation state := (KVClient.state W).

(** The call that [step] makes. *)
Definition ask (inp : Input) : M state callAnswer :=
  let failed {B} (res : callError + B) (f : B → callAnswer) := match res with inl _ => Failed | inr b => f b end in
  match in_Op inp with
  | OpGet =>
      res <- client_Get ctx dial invoke pause (in_Key inp) ;;
      ret (failed res (λ r, Answer r.1 r.2))
  | OpPut =>
      res <- client_Set ctx dial invoke pause (in_Key inp) (in_Value inp) ;;
      ret (failed res (λ _, Answer [] false))
  | OpDelete =>
      res <- client_Delete ctx dial invoke pause (in_Key inp) ;;
      ret (failed res (λ existed, Answer [] existed))
  | OpOther _ => ret Failed
  end.

(** One goroutine: where it is, its client and its generator. *)
Record goroutine := mkGoroutine { k_spot : spot; k_client : state; k_rng : R }.

Record workload := mkWl {
  wl_clients : list goroutine;
  wl_rec : recorder;
  wl_now : Z;
  wl_deadline : Z;
  wl_crashed : bool
}.

(** [rand.NewSource(w.Seed + int64(id)*7919)] *)
Definition generator_of (id : nat) : R := seeded (int_add (w_Seed w) (int_wrap (Z.of_nat id * 7919))).

Definition set_goroutine (i : nat) (k : goroutine) (s : workload) : workload :=
  mkWl (<[i := k]> (wl_clients s)) (wl_rec s) (wl_now s) (wl_deadline s) (wl_crashed s).

(** An operation on the history, at the time [now]. *)
Definition on_history (a : Z → act) (now : Z) (s : workload) : workload :=
  mkWl (wl_clients s) (perform_act (wl_rec s) (a (now - rc_now (wl_rec s))%Z)) (wl_now s) (wl_deadline s) (wl_crashed s).

(** [return], with the deferred [client.Close()]. *)
Definition after_Close (st : state) : state := snd (client_Close st).

Definition tell_act (op : Z) (a : callAnswer) (dt : Z) : act :=
  match a with Answer value found => AComplete dt op value found | Failed => AUnknown dt op end.

Definition client_step (i : nat) (now : Z) (over : bool) (s : workload) : option workload :=
  match wl_clients s !! i with
  | None => None
  | Some k =>
      let goto p := set_goroutine i (mkGoroutine p (k_client k) (k_rng k)) in
      match k_spot k with
      | KNew =>
          Some (match NewClient (w_Endpoints w) with
                | Ret c => set_goroutine i (mkGoroutine KRegister (KVClient.mkState c (cs_world (k_client k)) []) (k_rng k)) s
                | Fail e => goto (KDone (Some (ErrClient e))) s
                | Panic _ | OutOfFuel => s
                end)
      | KRegister =>
          match client_Register ctx dial invoke pause (k_client k) with
          | (Ret (inr _), st) => Some (set_goroutine i (mkGoroutine KLoop st (generator_of i)) s)
          | (Ret (inl e), st) => Some (set_goroutine i (mkGoroutine (KDone (Some (ErrRegister e))) (after_Close st) (k_rng k)) s)
          | _ => None
          end
      | KLoop =>
          Some (if (now <? wl_deadline s)%Z && negb over then goto KStep s
                else set_goroutine i (mkGoroutine (KDone None) (after_Close (k_client k)) (k_rng k)) s)
      | KStep =>
          match choose w (Z.of_nat i) (k_rng k) with
          | Ret (inp, g) =>
              Some (on_history (λ dt, ATake dt (Z.of_nat i) inp) now
                      (set_goroutine i (mkGoroutine (KBegin (fst (Begin_id (rc_history (wl_rec s)))) inp) (k_client k) g) s))
          | _ => Some (mkWl (wl_clients s) (wl_rec s) (wl_now s) (wl_deadline s) true)
          end
      | KBegin op inp => Some (on_history (λ dt, ABegin dt op) now (goto (KAsk op inp) s))
      | KAsk op inp =>
          match ask inp (k_client k) with
          | (Ret a, st) => Some (set_goroutine i (mkGoroutine (KTell op inp a) st (k_rng k)) s)
          | _ => None
          end
      | KTell op inp a => Some (on_history (tell_act op a) now (goto KLoop s))
      | KDone _ => None
      end
  end.

(** A step of client [i] at the time [now]; the clock does not go back. *)
Definition wl_step (ev : nat * Z * bool) (s : workload) : option workload :=
  let '(i, now, over) := ev in
  if wl_crashed s then None
  else if (now <? wl_now s)%Z then None
  else (λ s', mkWl (wl_clients s') (wl_rec s') now (wl_deadline s') (wl_crashed s')) <$> client_step i now over s.

Fixpoint wl_run (sched : list (nat * Z * bool)) (s : workload) : option workload :=
  match sched with
  | [] => Some s
  | ev :: sched' => match wl_step ev s with Some s' => wl_run sched' s' | None => None end
  end.

(** [Run] up to the start of the goroutines, at the time [t0]; [worlds] is what each
    client will meet. *)
Definition Run_start (t0 : Z) (worlds : nat → W) : outcome workload :=
  match w_Endpoints w with
  | [] => Fail (Errorf "chaos: at least one endpoint is required" [])
  | _ =>
      if (w_Clients w <? 0)%Z then Panic "makeslice: len out of range"
      else
        let idle i := mkGoroutine KNew (KVClient.mkState (mkClient [] ∅ EmptyString 0 0 0) (worlds i) []) (generator_of i) in
        Ret (mkWl (idle <$> seq 0 (Z.to_nat (w_Clients w))) (mkRecorder NewHistory ∅ ∅ t0) t0 (t0 + w_Duration w)%Z false)
  end.

Definition is_done (k : goroutine) : bool := match k_spot k with KDone _ => true | _ => false end.
Definition failed_with (k : goroutine) : option runErr := match k_spot k with KDone err => err | _ => None end.

(** The rest of [Run], once [wg.Wait()] returned: the first error is reported. *)
Definition Run_result (s : workload) : option (History * option (nat * runErr)) :=
  if forallb is_done (wl_clients s)
  then Some (rc_history (wl_rec s),
             '(i, _) ← list_find (λ k, is_Some (failed_with k)) (wl_clients s);
             k ← wl_clients s !! i;
             pair i <$> failed_with k)
  else None.

(** ** One client on its own *)

(** The first [n] operations that client [id] draws. *)
Fixpoint choices (id : Z) (n : nat) (g : R) : outcome (list Input * R) :=
  match n with
  | O => Ret ([], g)
  | S n' =>
      match choose w id g with
      | Ret (inp, g') =>
          match choices id n' g' with
          | Ret (inps, g'') => Ret (inp :: inps, g'')
          | Fail e => Fail e | Panic p => Panic p | OutOfFuel => OutOfFuel
          end
      | Fail e => Fail e | Panic p => Panic p | OutOfFuel => OutOfFuel
      end
  end.

(** Operations carried out one after the other. *)
Fixpoint script (inps : list Input) : M state (list callAnswer) :=
  match inps with
  | [] => ret []
  | inp :: inps' => a <- ask inp ;; answers <- script inps' ;; ret (a :: answers)
  end.

Lemma choices_snoc id n g inps g' inp g'' :
  choices id n g = Ret (inps, g') → choose w id g' = Ret (inp, g'') → choices id (S n) g = Ret (inps ++ [inp], g'').
Proof.
  revert g inps. induction n as [|n IH]; intros g inps Hn Hc.
  - cbn in *. simplify_eq. by rewrite Hc.
  - cbn [choices] in Hn. destruct (choose w id g) as [[inp0 g0]| | |] eqn:E0; try done.
    destruct (choices id n g0) as [[inps0 g1]| | |] eqn:E1; simplify_eq.
    specialize (IH _ _ E1 Hc). cbn [choices] in *. rewrite E0. by rewrite IH.
Qed.

Lemma script_snoc inps inp answers a st st' st'' :
  script inps st = (Ret answers, st') → ask inp st' = (Ret a, st'') → script (inps ++ [inp]) st = (Ret (answers ++ [a]), st'').
Proof.
  revert st answers. induction inps as [|inp0 inps IH]; intros st answers Hs Ha.
  - cbn [script app] in *. unfold ret in Hs. simplify_eq. unfold bind. by rewrite Ha.
  - cbn [script app] in *. unfold bind in *. destruct (ask inp0 st) as [[a0| | |] st0]; try done.
    destruct (script inps st0) as [[as0| | |] st1] eqn:E1; unfold ret in Hs; simplify_eq.
    by rewrite (IH _ _ E1 Ha).
Qed.

Lemma script_length inps st answers st' : script inps st = (Ret answers, st') → length answers = length inps.
Proof.
  revert st answers. induction inps as [|inp0 inps IH]; intros st answers Hs; cbn [script] in Hs; [by inversion Hs|].
  unfold bind in Hs. destruct (ask inp0 st) as [[a0| | |] st0]; try done.
  destruct (script inps st0) as [[as0| | |] st1] eqn:E1; unfold ret in Hs; simplify_eq. cbn. f_equal. by eapply IH.
Qed.

(** ** The invariant *)

Context (worlds : nat → W).

(** The client as [Register] left it. *)
Definition registered (i : nat) (st0 : state) : Prop :=
  ∃ c id, NewClient (w_Endpoints w) = Ret c ∧
    client_Register ctx dial invoke pause (KVClient.mkState c (worlds i) []) = (Ret (inr id), st0).

(** Client [i] drew [inps] and heard [answers]. *)
Definition progress (i : nat) (inps : list Input) (answers : list callAnswer) (st : state) (g : R) : Prop :=
  ∃ st0, registered i st0 ∧ choices (Z.of_nat i) (length inps) (generator_of i) = Ret (inps, g) ∧
    script inps st0 = (Ret answers, st).

(** What the events say. *)
Definition account (evs : list Event) : list (Input * Output) := (λ e, (e_Input e, e_Output e)) <$> evs.
Definition tale (inps : list Input) (answers : list callAnswer) : list (Input * Output) := zip inps (heard <$> answers).

(** [e] was over when the operation [op] began, at the time [t]. *)
Definition before (op t : Z) (e : Event) : Prop :=
  (e_ID e < op)%Z ∧ (e_Invoked e ≤ t)%Z ∧ (Completed e = true → e_Returned e ≤ t)%Z.

Definition in_flight (i : nat) (op : Z) (inp : Input) (evs : list Event) (pend : gmap Z Pending) : Prop :=
  ∃ p, pend !! op = Some p ∧ p_done p = false ∧ p_clientID p = Z.of_nat i ∧ p_input p = inp ∧
    Forall (before op (p_invoked p)) evs.

(** [Begin] holds the id [op], later than those of what is over. *)
Definition taken_by (i : nat) (op : Z) (inp : Input) (evs : list Event) (taken : gmap Z (Z * Input)) : Prop :=
  taken !! op = Some (Z.of_nat i, inp) ∧ Forall (λ e, (e_ID e < op)%Z) evs.

Definition client_inv (i : nat) (k : goroutine) (evs : list Event) (r : recorder) : Prop :=
  match k_spot k with
  | KNew => evs = [] ∧ cs_world (k_client k) = worlds i
  | KRegister => evs = [] ∧ ∃ c, NewClient (w_Endpoints w) = Ret c ∧ k_client k = KVClient.mkState c (worlds i) []
  | KLoop | KStep => ∃ inps answers, progress i inps answers (k_client k) (k_rng k) ∧ account evs = tale inps answers
  | KBegin op inp =>
      ∃ inps answers g, progress i inps answers (k_client k) g ∧ choose w (Z.of_nat i) g = Ret (inp, k_rng k) ∧
        account evs = tale inps answers ∧ taken_by i op inp evs (rc_taken r)
  | KAsk op inp =>
      ∃ inps answers g, progress i inps answers (k_client k) g ∧ choose w (Z.of_nat i) g = Ret (inp, k_rng k) ∧
        account evs = tale inps answers ∧ in_flight i op inp evs (rc_pending r)
  | KTell op inp a =>
      ∃ inps answers, progress i (inps ++ [inp]) (answers ++ [a]) (k_client k) (k_rng k) ∧ length answers = length inps ∧
        account evs = tale inps answers ∧ in_flight i op inp evs (rc_pending r)
  | KDone None => ∃ inps answers st, progress i inps answers st (k_rng k) ∧ k_client k = after_Close st ∧ account evs = tale inps answers
  | KDone (Some _) => evs = []
  end.

Definition flight (k : goroutine) : option Z :=
  match k_spot k with KBegin op _ | KAsk op _ | KTell op _ _ => Some op | _ => None end.

Definition of_client (i : nat) (evs : list Event) : list Event := filter (λ e, e_ClientID e = Z.of_nat i) evs.

Record wl_inv (n : nat) (r : recorder) (ks : list goroutine) : Prop := mkWlInv {
  wi_rec : recorder_ok r;
  wi_length : length ks = n;
  wi_client i k : ks !! i = Some k → client_inv i k (of_client i (h_events (rc_history r))) r;
  wi_order i : StronglySorted (λ e e', before (e_ID e') (e_Invoked e') e) (of_client i (h_events (rc_history r)));
  wi_events e : e ∈ h_events (rc_history r) →
    (∃ i, (i < n)%nat ∧ e_ClientID e = Z.of_nat i) ∧ before (h_nextID (rc_history r)) (rc_now r) e;
  wi_ids op : (0 ≤ op < h_nextID (rc_history r))%Z → is_Some (rc_taken r !! op) ∨ is_Some (rc_pending r !! op);
  wi_flight op : is_Some (rc_taken r !! op) ∨ (∃ p, rc_pending r !! op = Some p ∧ p_done p = false) →
    ∃ i k, ks !! i = Some k ∧ flight k = Some op;
  wi_nextID : (0 ≤ h_nextID (rc_history r))%Z
}.

(** A client moved without touching the history. *)
Lemma wl_inv_move n r ks i k k' :
  wl_inv n r ks → ks !! i = Some k → flight k' = flight k →
  client_inv i k' (of_client i (h_events (rc_history r))) r →
  wl_inv n r (<[i := k']> ks).
Proof.
  intros [] Hk Hf Hc. split; try done.
  - by rewrite length_insert.
  - intros j kj [(<- & <- & _)|[_ Hj]]%list_lookup_insert_Some; [done|by apply wi_client0].
  - intros op Hop. destruct (wi_flight0 op Hop) as (j & kj & Hj & Hfj).
    destruct (decide (i = j)) as [<-|Hne].
    + exists i, k'. rewrite list_lookup_insert_eq by (by eapply lookup_lt_Some). simplify_eq. split; [done|congruence].
    + exists j, kj. by rewrite list_lookup_insert_ne.
Qed.

(** What [client_inv] reads of the recorder. *)
Lemma client_inv_rec i k evs r r' :
  (∀ op, flight k = Some op → rc_taken r' !! op = rc_taken r !! op ∧ rc_pending r' !! op = rc_pending r !! op) →
  client_inv i k evs r → client_inv i k evs r'.
Proof.
  unfold client_inv, flight, in_flight, taken_by. intros Hp. destruct (k_spot k) as [| | | |op inp|op inp|op inp a|]; try done;
    destruct (Hp op eq_refl) as [Et Ep]; by rewrite ?Et, ?Ep.
Qed.

(** The operation in flight is the client's own. *)
Lemma client_inv_flight i k evs r op :
  client_inv i k evs r → flight k = Some op →
  (∃ inp, rc_taken r !! op = Some (Z.of_nat i, inp)) ∨ ∃ p, rc_pending r !! op = Some p ∧ p_clientID p = Z.of_nat i.
Proof.
  unfold client_inv, flight, in_flight, taken_by. destruct (k_spot k) as [| | | |? ?|? ?|? ? ?|]; try done; intros Hi [= <-].
  - left. destruct Hi as (? & ? & ? & ? & ? & ? & ? & ?). eauto.
  - right. destruct Hi as (? & ? & ? & ? & ? & ? & p & ? & ? & ? & ?). eauto.
  - right. destruct Hi as (? & ? & ? & ? & ? & p & ? & ? & ? & ?). eauto.
Qed.

Lemma before_mono op op' t t' e : (op ≤ op')%Z → (t ≤ t')%Z → before op t e → before op' t' e.
Proof. unfold before. intros ?? (? & ? & Hc). split_and!; [lia|lia|]. intros ?%Hc. lia. Qed.

(** Client [i] has gone on, and with it the history; the other clients, and their
    operations in flight, are as before. *)
Lemma others_flight (ks : list goroutine) i k k' j kj op :
  ks !! i = Some k → flight k ≠ Some op → ks !! j = Some kj → flight kj = Some op →
  ∃ j kj, <[i := k']> ks !! j = Some kj ∧ flight kj = Some op.
Proof.
  intros Hi Hne Hj Hf. exists j, kj. rewrite list_lookup_insert_ne; [done|]. intros <-. simplify_eq.
Qed.

Lemma wl_inv_take n r ks i k inp g dt :
  wl_inv n r ks → ks !! i = Some k → k_spot k = KStep → choose w (Z.of_nat i) (k_rng k) = Ret (inp, g) →
  (0 ≤ dt)%Z → (rc_now r + dt < 9223372036854775807)%Z →
  wl_inv n (perform_act r (ATake dt (Z.of_nat i) inp))
    (<[i := mkGoroutine (KBegin (h_nextID (rc_history r)) inp) (k_client k) g]> ks).
Proof.
  intros [] Hk Hsp Hch Hdt Hnow. pose proof wi_rec0 as (_ & _ & _ & Hp & Ht & _).
  split; cbn [perform_act Begin_id rc_history rc_pending rc_taken rc_now h_events h_nextID act_dt].
  - by apply (perform_act_ok r (ATake dt (Z.of_nat i) inp)).
  - by rewrite length_insert.
  - intros j kj [(<- & <- & _)|[Hne Hj]]%list_lookup_insert_Some.
    + pose proof (wi_client0 i k Hk) as Hc. unfold client_inv in *. rewrite Hsp in Hc. cbn.
      destruct Hc as (inps & answers & Hpr & Hacc). exists inps, answers, (k_rng k). split_and!; try done.
      split; [by rewrite lookup_insert_eq|]. apply Forall_forall.
      intros e [_ He]%list_elem_of_filter. by destruct (wi_events0 e He) as [_ [? _]].
    + eapply client_inv_rec; [|by apply wi_client0]. intros op Hf. cbn. split; [|done]. rewrite lookup_insert_ne; [done|].
      intros <-. destruct (client_inv_flight _ _ _ _ _ (wi_client0 j kj Hj) Hf) as [(x & Hx)|(p & Hx & _)];
        [destruct (Ht _ _ Hx)|destruct (Hp _ _ Hx) as (_ & ? & _)]; lia.
  - done.
  - intros e He. destruct (wi_events0 e He) as [Hi Hb]. split; [done|]. eapply before_mono; [..|done]; lia.
  - intros op Hop. rewrite lookup_insert_is_Some'. destruct (decide (op = h_nextID (rc_history r))) as [->|]; [by left; left|].
    destruct (wi_ids0 op); [lia|by left; right|by right].
  - intros op Hop. destruct (decide (op = h_nextID (rc_history r))) as [->|Hne].
    + exists i. eexists. rewrite list_lookup_insert_eq by (by eapply lookup_lt_Some). split; [reflexivity|done].
    + rewrite lookup_insert_ne in Hop by done. destruct (wi_flight0 op Hop) as (j & kj & Hj & Hf).
      eapply others_flight; [done| |done|done]. unfold flight. by rewrite Hsp.
  - lia.
Qed.

Lemma wl_inv_begin n r ks i k op inp dt :
  wl_inv n r ks → ks !! i = Some k → k_spot k = KBegin op inp →
  (0 ≤ dt)%Z → (rc_now r + dt < 9223372036854775807)%Z →
  wl_inv n (perform_act r (ABegin dt op)) (<[i := mkGoroutine (KAsk op inp) (k_client k) (k_rng k)]> ks).
Proof.
  intros [] Hk Hsp Hdt Hnow. pose proof wi_rec0 as (_ & _ & _ & Hp & Ht & _).
  pose proof (wi_client0 i k Hk) as Hc. unfold client_inv in Hc. rewrite Hsp in Hc.
  destruct Hc as (inps & answers & g & Hpr & Hch & Hacc & Htk & Hbef). destruct (Ht _ _ Htk) as [Hlt Hnone].
  pose proof (perform_act_ok r (ABegin dt op) wi_rec0 Hdt Hnow) as Hrec. cbn in Hrec |- *. rewrite Htk in *.
  split; cbn [rc_history rc_pending rc_taken rc_now]; try done.
  - by rewrite length_insert.
  - intros j kj [(<- & <- & _)|[Hne Hj]]%list_lookup_insert_Some.
    + exists inps, answers, g. split_and!; try done. eexists. cbn. rewrite lookup_insert_eq. split_and!; try done. cbn.
      rewrite Forall_forall in Hbef. apply Forall_forall. intros e He. specialize (Hbef e He).
      apply list_elem_of_filter in He as [_ He]. destruct (wi_events0 e He) as [_ (_ & Hi & Hr)].
      split_and!; [done|lia|]. intros ?%Hr. lia.
    + eapply client_inv_rec; [|by apply wi_client0]. intros op' Hf. cbn.
      assert (op ≠ op') as Hd; [|by rewrite lookup_delete_ne, lookup_insert_ne by done].
      intros <-. destruct (client_inv_flight _ _ _ _ _ (wi_client0 j kj Hj) Hf) as [(x & Hx)|(p & Hx & _)]; [|congruence].
      rewrite Htk in Hx. injection Hx as Hx _. lia.
  - intros e He. destruct (wi_events0 e He) as [Hi Hb]. split; [done|]. eapply before_mono; [..|done]; lia.
  - intros op' Hop'. destruct (decide (op = op')) as [<-|Hne]; [right; by rewrite lookup_insert_eq|].
    rewrite lookup_delete_ne, lookup_insert_ne by done. by apply wi_ids0.
  - intros op' Hop'. destruct (decide (op = op')) as [<-|Hne].
    + exists i. eexists. rewrite list_lookup_insert_eq by (by eapply lookup_lt_Some). split; [reflexivity|done].
    + rewrite lookup_delete_ne, lookup_insert_ne in Hop' by done. destruct (wi_flight0 op' Hop') as (j & kj & Hj & Hf).
      eapply others_flight; [done| |done|done]. unfold flight. rewrite Hsp. congruence.
Qed.

(** What recording an answer does. *)
Lemma tell_act_spec r op p a dt :
  rc_pending r !! op = Some p → p_done p = false →
  let now := (rc_now r + dt)%Z in
  perform_act r (tell_act op a dt) =
  mkRecorder (mkHistory (h_events (rc_history r) ++
      [mkEvent (p_clientID p) (p_id p) (p_input p) (heard a) (p_invoked p) (match a with Answer _ _ => now | Failed => 0%Z end)])
      (h_nextID (rc_history r)))
    (rc_taken r) (<[op := finished p]> (rc_pending r)) now.
Proof.
  intros Hp Hd. destruct a as [value found|]; cbn; unfold finish_with, Complete, Unknown; by rewrite Hp, Hd.
Qed.

Lemma wl_inv_tell n r ks i k op inp a dt :
  wl_inv n r ks → ks !! i = Some k → k_spot k = KTell op inp a →
  (0 ≤ dt)%Z → (rc_now r + dt < 9223372036854775807)%Z →
  wl_inv n (perform_act r (tell_act op a dt)) (<[i := mkGoroutine KLoop (k_client k) (k_rng k)]> ks).
Proof.
  intros [] Hk Hsp Hdt Hnow. pose proof wi_rec0 as (_ & _ & _ & Hp & Ht & Hpos).
  pose proof (wi_client0 i k Hk) as Hc. unfold client_inv in Hc. rewrite Hsp in Hc.
  destruct Hc as (inps & answers & Hpr & Hlen & Hacc & (p & Hop & Hd & Hid & Hinp & Hbef)).
  destruct (Hp op p Hop) as (Epid & Hlt & Hinv & _).
  assert (recorder_ok (perform_act r (tell_act op a dt))) as Hrec by (apply perform_act_ok; [done|by destruct a..]).
  revert Hrec. rewrite (tell_act_spec r op p a dt Hop Hd). cbv zeta. set (now := (rc_now r + dt)%Z). set (e := mkEvent _ _ _ _ _ _).
  assert (before (h_nextID (rc_history r)) now e) as Hbe.
  { unfold before. subst e. cbn. rewrite Epid. split_and!; [done|lia|]. intros _. destruct a; lia. }
  assert (∀ j, of_client j (h_events (rc_history r) ++ [e]) =
    of_client j (h_events (rc_history r)) ++ if decide (j = i) then [e] else []) as Hof.
  { intros j. unfold of_client. rewrite filter_app. f_equal. cbn [filter list_filter].
    repeat case_decide; subst; cbn in *; try done; exfalso; congruence || lia. }
  intros Hrec. split; cbn [rc_history rc_pending rc_taken rc_now h_events h_nextID].
  - done.
  - by rewrite length_insert.
  - intros j kj [(<- & <- & _)|[Hne Hj]]%list_lookup_insert_Some; rewrite Hof.
    + rewrite decide_True by done. unfold client_inv. cbn. exists (inps ++ [inp]), (answers ++ [a]). split; [done|].
      unfold account, tale in *. rewrite !fmap_app, zip_with_app by (by rewrite length_fmap). rewrite Hacc. cbn. by rewrite Hinp.
    + rewrite decide_False by done. rewrite app_nil_r. eapply client_inv_rec; [|by apply wi_client0]. intros op' Hf. cbn.
      split; [done|]. rewrite lookup_insert_ne; [done|]. intros <-.
      destruct (client_inv_flight _ _ _ _ _ (wi_client0 j kj Hj) Hf) as [(x & Hx)|(p' & Hop' & Hid')]; [|simplify_eq; lia].
      destruct (Ht _ _ Hx). congruence.
  - intros j. rewrite Hof. case_decide as Hj; [subst j|by rewrite app_nil_r].
    apply StronglySorted_app. split_and!; [|done|repeat constructor]. intros x y Hx ->%list_elem_of_singleton.
    rewrite Forall_forall in Hbef. subst e. cbn. rewrite Epid. by apply Hbef.
  - intros x [Hx| ->%list_elem_of_singleton]%elem_of_app.
    + destruct (wi_events0 x Hx) as [Hi Hb]. split; [done|]. eapply before_mono; [..|done]; lia.
    + split; [|done]. exists i. split; [by rewrite <- wi_length0; eapply lookup_lt_Some|done].
  - intros op' Hop'. rewrite lookup_insert_is_Some'. destruct (wi_ids0 op' Hop'); [by left|by right; right].
  - intros op' Hop'. assert (op ≠ op') as Hne.
    { intros <-. rewrite lookup_insert_eq in Hop'. destruct Hop' as [[x Hx]|(q & [= <-] & ?)]; [|done]. destruct (Ht _ _ Hx). congruence. }
    rewrite lookup_insert_ne in Hop' by done. destruct (wi_flight0 op' Hop') as (j & kj & Hj & Hf).
    eapply others_flight; [done| |done|done]. unfold flight. rewrite Hsp. congruence.
  - done.
Qed.

Lemma progress_ask i inps answers st g inp a st' g' :
  progress i inps answers st g → choose w (Z.of_nat i) g = Ret (inp, g') → ask inp st = (Ret a, st') →
  progress i (inps ++ [inp]) (answers ++ [a]) st' g' ∧ length answers = length inps.
Proof.
  intros (st0 & Hr & Hch & Hs) Hc Ha. split; [|by eapply script_length]. exists st0. split_and!; [done| |by eapply script_snoc].
  rewrite length_app, Nat.add_1_r. by eapply choices_snoc.
Qed.

Definition wl_ok (n : nat) (s : workload) : Prop :=
  wl_inv n (wl_rec s) (wl_clients s) ∧ (rc_now (wl_rec s) ≤ wl_now s)%Z.

(** The times of a schedule are clock readings, in nanoseconds. *)
Definition clocked (ev : nat * Z * bool) : Prop := (ev.1.2 < 9223372036854775807)%Z.

Lemma wl_step_ok n ev s s' : wl_ok n s → clocked ev → wl_step ev s = Some s' → wl_ok n s'.
Proof.
  destruct ev as [[i now] over]. intros [Hi Hle] Hcl Hs. unfold clocked in Hcl. cbn in Hcl, Hs.
  destruct (wl_crashed s); [done|]. destruct (Z.ltb_spec now (wl_now s)) as [|Hnow]; [done|].
  destruct (client_step i now over s) as [s1|] eqn:Es; [|done]. injection Hs as <-. unfold wl_ok. cbn.
  unfold client_step in Es. destruct (wl_clients s !! i) as [k|] eqn:Hk; [|done].
  pose proof (wi_client _ _ _ Hi i k Hk) as Hc. unfold client_inv in Hc.
  assert (∀ k', flight k' = flight k → client_inv i k' (of_client i (h_events (rc_history (wl_rec s)))) (wl_rec s) →
    wl_inv n (wl_rec s) (<[i := k']> (wl_clients s)) ∧ (rc_now (wl_rec s) ≤ now)%Z) as Hmove.
  { intros k' Hf Hc'. split; [by eapply wl_inv_move|lia]. }
  assert (∀ a, act_dt (a (now - rc_now (wl_rec s)))%Z = (now - rc_now (wl_rec s))%Z →
    (rc_now (perform_act (wl_rec s) (a (now - rc_now (wl_rec s)))) ≤ now)%Z) as Htime.
  { intros a Ha. rewrite perform_act_now, Ha. lia. }
  destruct (k_spot k) as [| | | |op inp|op inp|op inp a|err] eqn:Hsp; cbn in Es.
  - destruct Hc as [Hev Hw]. destruct (NewClient (w_Endpoints w)) as [c|e| |] eqn:En; injection Es as <-; cbn;
      try (split; [done|lia]); apply Hmove; try (by unfold flight; rewrite Hsp); unfold client_inv; cbn; [|done].
    split; [done|]. exists c. by rewrite Hw.
  - destruct Hc as [Hev (c & En & Ek)].
    destruct (client_Register ctx dial invoke pause (k_client k)) as [[[e|id]| | |] st] eqn:Er; try done; injection Es as <-; cbn;
      apply Hmove; try (by unfold flight; rewrite Hsp); unfold client_inv; cbn; [done|].
    exists [], []. split; [|by rewrite Hev]. exists st. split_and!; [|done|done]. exists c, id. by rewrite <- Ek.
  - destruct Hc as (inps & answers & Hpr & Hacc). destruct (_ && _); injection Es as <-; cbn;
      apply Hmove; try (by unfold flight; rewrite Hsp); unfold client_inv; cbn; [by exists inps, answers|].
    by exists inps, answers, (k_client k).
  - destruct (choose w (Z.of_nat i) (k_rng k)) as [[inp g]| | |] eqn:Ec; injection Es as <-; cbn -[Z.sub perform_act]; try (split; [done|lia]).
    split; [eapply wl_inv_take; [done|done|done|done|lia|lia]|by apply (Htime (λ dt, ATake dt (Z.of_nat i) inp))].
  - injection Es as <-. cbn -[Z.sub perform_act]. split; [eapply wl_inv_begin; [done|done|done|lia|lia]|by apply (Htime (λ dt, ABegin dt op))].
  - destruct Hc as (inps & answers & g & Hpr & Hch & Hacc & Hfl).
    destruct (ask inp (k_client k)) as [[a| | |] st] eqn:Ea; try done. injection Es as <-. cbn. apply Hmove; [by unfold flight; rewrite Hsp|].
    unfold client_inv. cbn. exists inps, answers. by destruct (progress_ask _ _ _ _ _ _ _ _ _ Hpr Hch Ea).
  - injection Es as <-. cbn -[Z.sub perform_act]. split; [eapply wl_inv_tell; [done|done|done|lia|lia]|]. apply (Htime (tell_act op a)). by destruct a.
  - done.
Qed.

Lemma wl_run_ok n sched s s' : wl_ok n s → Forall clocked sched → wl_run sched s = Some s' → wl_ok n s'.
Proof.
  revert s. induction sched as [|ev sched IH]; intros s Hs Hc Hr; cbn in Hr; [by simplify_eq|].
  apply Forall_cons in Hc as [Hc1 Hc]. destruct (wl_step ev s) as [s1|] eqn:E; [|done].
  eapply IH; [|done|done]. by eapply wl_step_ok.
Qed.

Lemma Run_start_ok t0 s :
  (0 < t0)%Z → Run_start t0 worlds = Ret s → wl_ok (Z.to_nat (w_Clients w)) s.
Proof.
  intros H0 Hs. unfold Run_start in Hs. destruct (w_Endpoints w) eqn:Ee; [done|].
  destruct (Z.ltb_spec (w_Clients w) 0); [done|]. injection Hs as <-. split; cbn; [|done]. split; cbn.
  - split_and!; cbn; [by constructor|by constructor| |by intros ?? ?|by intros ?? ?|done]. by intros e ?%elem_of_nil.
  - by rewrite length_fmap, length_seq.
  - intros i k Hk. apply list_lookup_fmap_Some in Hk as (j & -> & Hj). apply lookup_seq in Hj as [-> _]. done.
  - constructor.
  - by intros e ?%elem_of_nil.
  - lia.
  - by intros op [[? ?]|(? & ? & ?)].
  - done.
Qed.

(** ** What the calls send *)

(** The client's operation behind a recorded one. *)
Definition cop_of (inp : Input) : cop :=
  match in_Op inp with
  | OpPut => CopSet (in_Key inp) (in_Value inp)
  | OpDelete => CopDelete (in_Key inp)
  | _ => CopGet (in_Key inp) READ_CONSISTENCY_LINEARIZABLE
  end.

Definition proper (inp : Input) : Prop := match in_Op inp with OpOther _ => False | _ => True end.

Lemma choose_proper id g inp g' : choose w id g = Ret (inp, g') → proper inp.
Proof. unfold choose. intros Hc. repeat case_match; by simplify_eq/=. Qed.

Lemma choices_proper id n g inps g' : choices id n g = Ret (inps, g') → Forall proper inps.
Proof.
  revert g inps. induction n as [|n IH]; intros g inps Hc; cbn in Hc; [by simplify_eq|].
  destruct (choose w id g) as [[inp g1]| | |] eqn:E; try done. destruct (choices id n g1) as [[inps1 g2]| | |] eqn:E1; simplify_eq.
  constructor; [by eapply choose_proper|by eapply IH].
Qed.

(** [ask] is the operation, but for what it returns. *)
Lemma ask_cop inp st : proper inp → snd (ask inp st) = snd (perform_cop ctx dial invoke pause (cop_of inp) st) ∧
  (∀ a, fst (ask inp st) = Ret a → fst (perform_cop ctx dial invoke pause (cop_of inp) st) = Ret tt) ∧
  (fst (perform_cop ctx dial invoke pause (cop_of inp) st) = Ret tt → ∃ a, fst (ask inp st) = Ret a).
Proof.
  unfold proper, ask, cop_of, perform_cop, client_Get. destruct (in_Op inp); intros Hp; [..|done]; unfold bind;
    [destruct (client_get _ _ _ _ _ _ st) as [[res| | |] st']|destruct (client_Set _ _ _ _ _ _ st) as [[res| | |] st']|
     destruct (client_Delete _ _ _ _ _ st) as [[res| | |] st']]; cbn.
  all: split_and!; eauto; intros; done.
Qed.

Lemma ask_returns inp st : proper inp → client_ok st → ∃ a st', ask inp st = (Ret a, st') ∧ client_ok st'.
Proof.
  intros Hp Hok. destruct (cop_call ctx dial invoke pause (cop_of inp) st Hok) as (st' & l & E & Hok' & _).
  destruct (ask_cop inp st Hp) as (E1 & _ & E2). rewrite E in E1, E2. destruct (E2 eq_refl) as [a Ea].
  exists a, st'. split; [|done]. rewrite (surjective_pairing (ask inp st)). by rewrite Ea, E1.
Qed.

Lemma script_cops inps st answers st' :
  Forall proper inps → script inps st = (Ret answers, st') → perform_cops ctx dial invoke pause (cop_of <$> inps) st = (Ret tt, st').
Proof.
  intros Hp. revert st answers. induction Hp as [|inp inps Hp _ IH]; intros st answers Hs; cbn [script perform_cops fmap list_fmap] in *.
  { unfold ret in *. by simplify_eq. }
  unfold bind in *. destruct (ask inp st) as [[a| | |] st1] eqn:Ea; try done.
  destruct (script inps st1) as [[as1| | |] st2] eqn:Es; unfold ret in Hs; simplify_eq.
  destruct (ask_cop inp st Hp) as (E1 & E2 & _). rewrite Ea in E1, E2. specialize (E2 a eq_refl). cbn in E1, E2.
  destruct (perform_cop ctx dial invoke pause (cop_of inp) st) as [o st3]. cbn in E1, E2. subst. by eapply IH.
Qed.

Lemma script_ok inps st answers st' : Forall proper inps → client_ok st → script inps st = (Ret answers, st') → client_ok st'.
Proof.
  intros Hp. revert st answers. induction Hp as [|inp inps Hp _ IH]; intros st answers Hok Hs; cbn [script] in *.
  { unfold ret in *. by simplify_eq. }
  unfold bind in *. destruct (ask_returns inp st Hp Hok) as (a & st1 & Ea & Hok1). rewrite Ea in Hs.
  destruct (script inps st1) as [[as1| | |] st2] eqn:Es; unfold ret in Hs; simplify_eq. by eapply IH.
Qed.

Lemma NewClient_ok c (wd : W) : NewClient (w_Endpoints w) = Ret c → client_ok (KVClient.mkState c wd []).
Proof. unfold NewClient. destruct (w_Endpoints w); intros [= <-]. by left. Qed.

(** Registering returns, and numbers nothing. *)
Lemma Register_returns st :
  client_ok st → ∃ res st', client_Register ctx dial invoke pause st = (Ret res, st') ∧ client_ok st' ∧
    c_sequence (cs_client st') = c_sequence (cs_client st).
Proof.
  intros Hok. unfold client_Register, bind.
  destruct (call_returns ctx dial invoke pause RegisterReq st Hok) as (res & st' & l & -> & Hok' & (_ & _ & Hq & _) & _).
  destruct res as [e|[id|i|r|r|r]]; eexists _, _; (split; [reflexivity|]); done.
Qed.

Lemma registered_ok i st0 : registered i st0 → client_ok st0 ∧ c_sequence (cs_client st0) = 0%N.
Proof.
  intros (c & id & Hn & Hr). pose proof (NewClient_ok c (worlds i) Hn) as Hok.
  destruct (Register_returns _ Hok) as (res & st' & E & Hok' & Hq). rewrite E in Hr. simplify_eq. split; [done|].
  rewrite Hq. cbn. unfold NewClient in Hn. destruct (w_Endpoints w); by simplify_eq.
Qed.

(** What client [i] sent for its operations: every write under a number of its own. *)
Lemma progress_numbered i inps answers st g :
  progress i inps answers st g → c_clientID (cs_client st) ≠ 0%N → (N.of_nat (length inps) < W64)%N →
  ∃ st0 l, registered i st0 ∧ cs_calls st = cs_calls st0 ++ l ∧
    numbered_calls (c_clientID (cs_client st)) 0 (c_sequence (cs_client st)) l.
Proof.
  intros (st0 & Hr & Hc & Hs) Hid Hlen. destruct (registered_ok i st0 Hr) as [Hok Hq].
  pose proof (choices_proper _ _ _ _ _ Hc) as Hp. pose proof (script_cops _ _ _ _ Hp Hs) as Hcops.
  assert (c_clientID (cs_client st0) = c_clientID (cs_client st)) as Eid.
  { clear -Hp Hcops Hok. revert st0 Hok Hcops. induction inps as [|inp inps IH]; intros st0 Hok Hcops; cbn in Hcops.
    { unfold ret in *. by simplify_eq. }
    unfold bind in Hcops. destruct (cop_call ctx dial invoke pause (cop_of inp) st0 Hok) as (st1 & l & E & Hok1 & _ & Eid & _).
    rewrite E in Hcops. apply Forall_cons in Hp as [_ Hp]. rewrite <- Eid. by apply IH. }
  destruct (cops_converse ctx dial invoke pause (cop_of <$> inps) st0 Hok) as (st' & l & E & El & Es & Hn);
    [congruence|rewrite Hq, length_fmap; lia|]. apply conversation_numbered in Hn; [|congruence].
  rewrite Hcops in E. injection E as <-. exists st0, l. rewrite <- Es, Eid, Hq in Hn. done.
Qed.

(** ** Nobody is stuck *)

Lemma client_inv_client_ok i k evs r :
  client_inv i k evs r → match k_spot k with KNew | KDone _ => True | _ => client_ok (k_client k) end.
Proof.
  assert (∀ inps answers st g, progress i inps answers st g → client_ok st) as Hpr.
  { intros inps answers st g (st0 & Hr & Hc & Hs). eapply script_ok; [by eapply choices_proper|by eapply registered_ok|done]. }
  unfold client_inv. destruct (k_spot k) as [| | | |op inp|op inp|op inp a|[err|]]; try done; try naive_solver.
  intros (_ & c & Hn & ->). by apply NewClient_ok.
Qed.

(** A client that is not done can go on. *)
Lemma client_can_step n s i k now over :
  wl_ok n s → wl_crashed s = false → wl_clients s !! i = Some k → is_done k = false → (wl_now s ≤ now)%Z →
  ∃ s', wl_step (i, now, over) s = Some s'.
Proof.
  intros [Hi _] Hc Hk Hd Hnow. unfold wl_step. rewrite Hc. destruct (Z.ltb_spec now (wl_now s)); [lia|].
  pose proof (wi_client _ _ _ Hi i k Hk) as Hinv. pose proof (client_inv_client_ok _ _ _ _ Hinv) as Hok.
  cut (∃ s', client_step i now over s = Some s'). { intros [s' ->]. cbn. eauto. }
  unfold client_step. rewrite Hk. unfold is_done in Hd. unfold client_inv in Hinv. destruct (k_spot k) as [| | | |op inp|op inp|op inp a|]; eauto.
  - destruct (Register_returns (k_client k) Hok) as ([|] & st' & -> & _); eauto.
  - destruct (choose w (Z.of_nat i) (k_rng k)) as [[inp g]| | |]; eauto.
  - destruct Hinv as (inps & answers & g & _ & Hch & _).
    destruct (ask_returns inp (k_client k)) as (a & st' & -> & _); [by eapply choose_proper|done|eauto].
  - done.
Qed.

(** How many steps a client still takes once time is up. *)
Definition to_go (k : goroutine) : nat :=
  match k_spot k with KNew => 3 | KRegister => 2 | KLoop => 1 | KStep => 5 | KBegin _ _ => 4 | KAsk _ _ => 3 | KTell _ _ _ => 2 | KDone _ => 0 end.

Definition time_up (deadline : Z) (ev : nat * Z * bool) : Prop := (deadline ≤ ev.1.2)%Z ∨ ev.2 = true.

Definition work_left (s : workload) : nat := sum_list_with to_go (wl_clients s) + if wl_crashed s then 0 else 1.

Local Ltac fewer H := match goal with |- context [<[_ := ?k']> _] => specialize (H k') end; cbn in H; lia.

Lemma wl_step_less n ev s s' :
  wl_ok n s → time_up (wl_deadline s) ev → wl_step ev s = Some s' →
  (work_left s' < work_left s)%nat ∧ wl_deadline s' = wl_deadline s.
Proof.
  destruct ev as [[i now] over]. intros [Hi _] Hup Hs. cbn in Hs. destruct (wl_crashed s) eqn:Ec; [done|].
  destruct (now <? wl_now s)%Z; [done|]. destruct (client_step i now over s) as [s1|] eqn:Es; [|done]. injection Hs as <-.
  unfold work_left. cbn. unfold client_step in Es. destruct (wl_clients s !! i) as [k|] eqn:Hk; [|done].
  assert ((now <? wl_deadline s)%Z && negb over = false) as Eloop.
  { destruct Hup as [Hup|Hup]; cbn in Hup; [|by rewrite Hup, andb_false_r]. by rewrite (proj2 (Z.ltb_ge _ _)) by lia. }
  rewrite Eloop in Es. pose proof (λ k', sum_insert to_go _ _ _ k' Hk) as Hsum. unfold to_go in Hsum at 2 4.
  pose proof (wi_client _ _ _ Hi i k Hk) as Hinv. unfold client_inv in Hinv.
  destruct (k_spot k) as [| | | |op inp|op inp|op inp a|] eqn:Hsp; cbn in Es; [| | | | | | |done].
  - destruct (NewClient (w_Endpoints w)) as [c|e|p|] eqn:En; [..|unfold NewClient in En; by destruct (w_Endpoints w)|unfold NewClient in En; by destruct (w_Endpoints w)];
      injection Es as <-; cbn; rewrite Ec; split; try done; fewer Hsum.
  - destruct (client_Register ctx dial invoke pause (k_client k)) as [[[e|id]| | |] st]; try done; injection Es as <-; cbn; rewrite Ec;
      split; try done; fewer Hsum.
  - injection Es as <-. cbn. rewrite Ec. split; [|done]. fewer Hsum.
  - destruct (choose w (Z.of_nat i) (k_rng k)) as [[inp g]| | |]; injection Es as <-; cbn; rewrite ?Ec; split; try done; try lia.
    fewer Hsum.
  - injection Es as <-. cbn. rewrite Ec. split; [|done]. fewer Hsum.
  - destruct (ask inp (k_client k)) as [[a| | |] st]; try done. injection Es as <-. cbn. rewrite Ec. split; [|done].
    fewer Hsum.
  - injection Es as <-. cbn. rewrite Ec. split; [|done]. fewer Hsum.
Qed.

Lemma wl_run_less n sched s s' :
  wl_ok n s → Forall clocked sched → Forall (time_up (wl_deadline s)) sched → wl_run sched s = Some s' →
  (length sched + work_left s' ≤ work_left s)%nat.
Proof.
  revert s. induction sched as [|ev sched IH]; intros s Hok Hc Hu Hr; cbn [wl_run length] in *; [simplify_eq; lia|].
  apply Forall_cons in Hc as [Hc1 Hc]. apply Forall_cons in Hu as [Hu1 Hu]. destruct (wl_step ev s) as [s1|] eqn:E; [|done].
  destruct (wl_step_less n ev s s1 Hok Hu1 E) as [Hlt Hd]. rewrite <- Hd in Hu.
  specialize (IH s1 (wl_step_ok _ _ _ _ Hok Hc1 E) Hc Hu Hr). lia.
Qed.

Lemma work_left_bound s : (work_left s ≤ 5 * length (wl_clients s) + 1)%nat.
Proof.
  unfold work_left. assert (sum_list_with to_go (wl_clients s) ≤ 5 * length (wl_clients s))%nat; [|case_match; lia].
  induction (wl_clients s) as [|k ks IH]; [cbn; lia|]. cbn [sum_list_with length]. assert (to_go k ≤ 5)%nat by (unfold to_go; case_match; lia). lia.
Qed.

(** A panic is one of [rng.Intn]. *)
Lemma choose_returns id g : (0 < w_Keys w)%Z → ∃ inp g', choose w id g = Ret (inp, g').
Proof. intros Hk. unfold choose. rewrite (proj2 (Z.leb_gt _ _)) by lia. repeat case_match; eauto. Qed.

Lemma wl_run_crash sched s s' :
  (0 < w_Keys w)%Z → wl_run sched s = Some s' → wl_crashed s = false → wl_crashed s' = false.
Proof.
  intros Hkeys. revert s. induction sched as [|ev sched IH]; intros s Hr Hc; cbn [wl_run] in Hr; [by simplify_eq|].
  destruct (wl_step ev s) as [s1|] eqn:E; [|done]. apply (IH s1 Hr). destruct ev as [[i now] over]. cbn in E. rewrite Hc in E.
  destruct (now <? wl_now s)%Z; [done|]. destruct (client_step i now over s) as [s2|] eqn:Es; [|done]. injection E as <-. cbn.
  unfold client_step in Es. destruct (wl_clients s !! i) as [k|]; [|done].
  destruct (k_spot k); try (by repeat case_match; simplify_eq/=).
  destruct (choose_returns (Z.of_nat i) (k_rng k) Hkeys) as (inp & g & Ec). rewrite Ec in Es. by simplify_eq/=.
Qed.

(** ** What is asked *)

(** An operation that client [i] may draw. *)
Definition askable (i : nat) (inp : Input) : Prop :=
  ∃ n, (0 ≤ n < w_Keys w)%Z ∧ in_Key inp = key_name (w_KeyPrefix w) n ∧
    match in_Op inp with
    | OpPut => ∃ v, (0 ≤ v)%Z ∧ in_Value inp = value_name (Z.of_nat i) v
    | OpGet | OpDelete => in_Value inp = []
    | OpOther _ => False
    end.

Lemma choose_askable `{!GeneratorLaws R} i g inp g' : choose w (Z.of_nat i) g = Ret (inp, g') → askable i inp.
Proof.
  unfold choose. destruct (Z.leb_spec (w_Keys w) 0); [done|]. pose proof (rng_Intn_range (w_Keys w) g ltac:(lia)) as Hn.
  destruct (rng_Intn (w_Keys w) g) as [n g1]. destruct (rng_Float64 g1) as [x g2]. cbn in Hn.
  destruct (less x _); [intros [= <- <-]; by exists n|]. destruct (rng_Float64 g2) as [y g3].
  destruct (less y _); [intros [= <- <-]; by exists n|]. pose proof (rng_Int63_range g3) as Hv.
  destruct (rng_Int63 g3) as [v g4]. intros [= <- <-]. exists n. split; [done|]. split; [done|]. cbn in *. exists v. split; [lia|done].
Qed.

Lemma choices_askable `{!GeneratorLaws R} i m g inps g' : choices (Z.of_nat i) m g = Ret (inps, g') → Forall (askable i) inps.
Proof.
  revert g inps. induction m as [|m IH]; intros g inps Hc; cbn in Hc; [by simplify_eq|].
  destruct (choose w _ g) as [[inp g1]| | |] eqn:E; try done. destruct (choices _ m g1) as [[inps1 g2]| | |] eqn:E1; simplify_eq.
  constructor; [by eapply choose_askable|by eapply IH].
Qed.

Lemma tale_inputs evs inps answers e : account evs = tale inps answers → e ∈ evs → e_Input e ∈ inps.
Proof.
  intros Hacc He. assert ((e_Input e, e_Output e) ∈ account evs) as Hin by (apply list_elem_of_fmap; by exists e).
  rewrite Hacc in Hin. unfold tale in Hin. apply elem_of_zip_l in Hin. done.
Qed.

Lemma client_inv_askable `{!GeneratorLaws R} i k evs r : client_inv i k evs r → Forall (λ e, askable i (e_Input e)) evs.
Proof.
  assert (∀ inps inps' answers answers' st g, progress i inps' answers' st g → (∀ inp, inp ∈ inps → inp ∈ inps') →
    account evs = tale inps answers → Forall (λ e, askable i (e_Input e)) evs) as Hpr.
  { intros inps inps' answers answers' st g (st0 & _ & Hc & _) Hsub Hacc. apply choices_askable in Hc. rewrite Forall_forall in Hc.
    apply Forall_forall. intros e He. eapply Hc, Hsub, tale_inputs; eauto. }
  unfold client_inv. destruct (k_spot k) as [| | | |op inp|op inp|op inp a|[err|]].
  - by intros [-> _].
  - by intros [-> _].
  - intros (inps & answers & Hp & Hacc). by eapply Hpr.
  - intros (inps & answers & Hp & Hacc). by eapply Hpr.
  - intros (inps & answers & g & Hp & _ & Hacc & _). by eapply Hpr.
  - intros (inps & answers & g & Hp & _ & Hacc & _). by eapply Hpr.
  - intros (inps & answers & Hp & _ & Hacc & _). eapply Hpr; [done| |done]. intros x Hx. apply elem_of_app. by left.
  - by intros ->.
  - intros (inps & answers & st & Hp & _ & Hacc). by eapply Hpr.
Qed.
End run.

(** ** A run *)

Section theorems.
Context {R : Type} `{HGen : Generator R}.
Context {W : Type} (ctx : W → option error * W) (dial : string → W → bool * W)
  (invoke : string → request → W → rpc response * W) (pause : W → option error * W).
Context (seeded : Z → R) (worlds : nat → W).
Implicit Types (raw : Workload).

(** [Run] under a schedule; [None] if the schedule is not one of the machine's. *)
Definition Workload_Run (unixNano : N) raw (t0 : Z) (sched : list (nat * Z * bool)) : outcome (option workload) :=
  let w := workload_withDefaults unixNano raw in
  match Run_start seeded w t0 worlds with
  | Ret s0 => Ret (wl_run ctx dial invoke pause seeded w sched s0)
  | Fail e => Fail e
  | Panic p => Panic p
  | OutOfFuel => OutOfFuel
  end.

Lemma Workload_Run_ok unixNano raw t0 sched s :
  let w := workload_withDefaults unixNano raw in
  (0 < t0)%Z → Forall clocked sched → Workload_Run unixNano raw t0 sched = Ret (Some s) →
  wl_ok ctx dial invoke pause seeded w worlds (Z.to_nat (w_Clients w)) s.
Proof.
  intros w H0 Hc Hr. unfold Workload_Run in Hr. fold w in Hr. destruct (Run_start seeded w t0 worlds) as [s0| | |] eqn:E0; try done.
  injection Hr as Hr. eapply wl_run_ok; [|exact Hc|exact Hr]. by eapply Run_start_ok.
Qed.

(** Whatever the cluster does and however the clients interleave, the history can be
    judged: every operation is recorded at most once, a completed one with a return no
    earlier than its invocation and any other as unknown; it is one that its client may
    draw, within the key space of the run; and the operations of one client are in order
    and do not overlap. *)
Theorem workload_history `{!GeneratorLaws R} unixNano raw t0 sched s :
  (0 < t0)%Z → Forall clocked sched → Workload_Run unixNano raw t0 sched = Ret (Some s) →
  let w := workload_withDefaults unixNano raw in
  let events := h_events (rc_history (wl_rec s)) in
  Forall well_recorded events ∧ NoDup (e_ID <$> events) ∧
  (∀ e, e ∈ events → ∃ i, (Z.of_nat i < w_Clients w)%Z ∧ e_ClientID e = Z.of_nat i ∧ askable w i (e_Input e)) ∧
  (∀ i, StronglySorted (λ e e', before (e_ID e') (e_Invoked e') e) (of_client i events)).
Proof.
  intros H0 Hc Hr w events. destruct (Workload_Run_ok _ _ _ _ _ H0 Hc Hr) as [[] _].
  destruct wi_rec0 as (Hw & Hnd & _). split_and!; [done|done| |done]. intros e He.
  destruct (wi_events0 e He) as [(i & Hi & Ei) _]. exists i. fold w in Hi, wi_length0. split_and!; [lia|done|].
  destruct (lookup_lt_is_Some_2 (wl_clients s) i) as [k Hk]; [by rewrite wi_length0|].
  pose proof (client_inv_askable _ _ _ _ _ _ _ _ _ _ _ (wi_client0 i k Hk)) as Hall. rewrite Forall_forall in Hall.
  apply Hall. by apply list_elem_of_filter.
Qed.

(** C23: When [Run] returns, the history is all that happened.  Every operation begun is in it;
    the entries of a client are, in order, the operations that the client's seed
    determines and the answers that its calls came to when made one after the other; a
    client that could not register has none, and the first such is the error reported. *)
Theorem workload_faithful unixNano raw t0 sched s h err :
  (0 < t0)%Z → Forall clocked sched → Workload_Run unixNano raw t0 sched = Ret (Some s) → Run_result s = Some (h, err) →
  let w := workload_withDefaults unixNano raw in
  (∀ op, (0 ≤ op < h_nextID h)%Z → ∃ e, e ∈ h_events h ∧ e_ID e = op) ∧
  (∀ i k, wl_clients s !! i = Some k →
     match failed_with k with
     | Some _ => of_client i (h_events h) = []
     | None => ∃ inps answers st g, progress ctx dial invoke pause seeded w worlds i inps answers st g ∧
                 account (of_client i (h_events h)) = tale inps answers
     end) ∧
  match err with
  | None => ∀ i k, wl_clients s !! i = Some k → failed_with k = None
  | Some (i, e) => (∃ k, wl_clients s !! i = Some k ∧ failed_with k = Some e) ∧
                   ∀ j k, (j < i)%nat → wl_clients s !! j = Some k → failed_with k = None
  end.
Proof.
  intros H0 Hc Hr Hres w. destruct (Workload_Run_ok _ _ _ _ _ H0 Hc Hr) as [[] _]. fold w in wi_client0.
  unfold Run_result in Hres. destruct (forallb is_done (wl_clients s)) eqn:Ed; [|done]. injection Hres as <- Herr.
  assert (∀ i k, wl_clients s !! i = Some k → is_done k = true) as Hdone.
  { rewrite forallb_forall in Ed. intros i k Hk. apply Ed, list_elem_of_In. by eapply list_elem_of_lookup_2. }
  split_and!.
  - intros op Hop. destruct wi_rec0 as (_ & _ & _ & Hpend & _).
    assert (¬ ∃ i k, wl_clients s !! i = Some k ∧ flight k = Some op) as Hnone.
    { intros (i & k & Hk & Hf). specialize (Hdone i k Hk). unfold is_done, flight in *. by destruct (k_spot k). }
    destruct (wi_ids0 op Hop) as [Htk|[p Hp]]; [destruct Hnone; apply wi_flight0; by left|].
    destruct (p_done p) eqn:Epd; [by eapply Hpend|]. destruct Hnone. apply wi_flight0. right. by exists p.
  - intros i k Hk. specialize (wi_client0 i k Hk). specialize (Hdone i k Hk). unfold client_inv, is_done, failed_with in *.
    destruct (k_spot k) as [| | | | | | |[e|]]; try done. destruct wi_client0 as (inps & answers & st & Hp & _ & Hacc). eauto 10.
  - destruct (list_find (λ k, is_Some (failed_with k)) (wl_clients s)) as [[i k0]|] eqn:Ef; cbn in Herr.
    + apply list_find_Some in Ef as (Hi & Hs & Hmin). rewrite Hi in Herr. cbn in Herr. destruct (failed_with k0) as [e|] eqn:Ee; [|by destruct Hs].
      cbn in Herr. subst err. split; [by exists k0|]. intros j k Hj Hk. specialize (Hmin j k Hk Hj).
      destruct (failed_with k); [destruct Hmin; eauto|done].
    + subst err. intros i k Hk. apply list_find_None in Ef. eapply Forall_lookup_1 in Ef; [|done].
      destruct (failed_with k); [destruct Ef; eauto|done].
Qed.

(** C24: A run ends soon after its deadline, or after its context is done: each client takes at
    most five more steps, and as long as one is not done it can go on, unless the process
    died of a negative number of keys. *)
Theorem workload_ends unixNano raw t0 sched s more s' :
  (0 < t0)%Z → Forall clocked sched → Workload_Run unixNano raw t0 sched = Ret (Some s) →
  let w := workload_withDefaults unixNano raw in
  Forall clocked more → Forall (time_up (wl_deadline s)) more →
  wl_run ctx dial invoke pause seeded w more s = Some s' →
  (length more ≤ 5 * Z.to_nat (w_Clients w) + 1)%nat ∧
  ((w_Keys raw < 0)%Z ∨ is_Some (Run_result s') ∨
   ∀ now, (wl_now s' ≤ now)%Z → ∃ i s'', wl_step ctx dial invoke pause seeded w (i, now, true) s' = Some s'').
Proof.
  intros H0 Hc Hr w Hcm Hup Hm. pose proof (Workload_Run_ok _ _ _ _ _ H0 Hc Hr) as Hok. fold w in Hok.
  pose proof (wl_run_less _ _ _ _ _ _ _ _ _ _ _ Hok Hcm Hup Hm) as Hlen. pose proof (work_left_bound s) as Hb.
  rewrite (wi_length _ _ _ _ _ _ _ _ _ _ (proj1 Hok)) in Hb. split; [lia|].
  pose proof (wl_run_ok _ _ _ _ _ _ _ _ _ _ _ Hok Hcm Hm) as Hok'.
  destruct (decide (w_Keys raw < 0)%Z) as [|Hkeys]; [by left|right].
  assert (wl_crashed s' = false) as Ecr.
  { assert (0 < w_Keys w)%Z as Hw by (subst w; cbn; destruct (Z.eqb_spec (w_Keys raw) 0); lia).
    eapply wl_run_crash; [exact Hw|exact Hm|]. unfold Workload_Run in Hr. fold w in Hr.
    destruct (Run_start seeded w t0 worlds) as [s0| | |] eqn:E0; try done. injection Hr as Hr.
    eapply wl_run_crash; [exact Hw|exact Hr|]. unfold Run_start in E0. repeat case_match; by simplify_eq/=. }
  unfold Run_result. destruct (forallb is_done (wl_clients s')) eqn:Ed; [left; eauto|right].
  intros now Hnow. assert (∃ i k, wl_clients s' !! i = Some k ∧ is_done k = false) as (i & k & Hk & Hd).
  { apply not_true_iff_false in Ed. destruct (decide (Forall (λ k, is_done k = true) (wl_clients s'))) as [HF|HF].
    - destruct Ed. apply forallb_forall. intros k Hk%list_elem_of_In. by rewrite Forall_forall in HF; apply HF.
    - apply not_Forall_Exists in HF; [|apply _]. apply Exists_exists in HF as (k & [i Hk]%list_elem_of_lookup & Hd).
      exists i, k. split; [done|]. by apply not_true_is_false. }
  destruct (client_can_step _ _ _ _ _ _ _ _ _ _ _ now true Hok' Ecr Hk Hd Hnow) as [s'' Hs]. by exists i, s''.
Qed.

(** The verdict on a run can be relied on: if the check passes, one machine could have given
    every answer that the clients heard; if it fails and only writes were left without an
    answer, none could. *)
Theorem workload_verdict `{HMap : MapRange} `{HPorc : Porcupine} `{!PorcupineLaws} unixNano raw t0 sched s timeout :
  (0 < t0)%Z → Forall clocked sched → Workload_Run unixNano raw t0 sched = Ret (Some s) →
  let h := rc_history (wl_rec s) in
  (r_Status (CheckHistory h timeout) = Ok → explained (h_events h)) ∧
  (r_Status (CheckHistory h timeout) = Illegal → only_writes_unknown (h_events h) → ¬ explained (h_events h)).
Proof.
  intros Ht0 Hc Hr h. apply verdict_sound. destruct (Workload_Run_ok _ _ _ _ _ Ht0 Hc Hr) as [[[Hw _]] _]. done.
Qed.

(** What a client sends in the course of a run bears its session: every write goes out
    under a number of its own, larger than those before, and is repeated unchanged, so
    that a state machine that remembers numbers applies each recorded write at most
    once. *)
Theorem workload_numbers unixNano raw t0 sched s i k :
  (0 < t0)%Z → Forall clocked sched → Workload_Run unixNano raw t0 sched = Ret (Some s) →
  let w := workload_withDefaults unixNano raw in
  wl_clients s !! i = Some k → k_spot k = KDone None → c_clientID (cs_client (k_client k)) ≠ 0%N →
  (N.of_nat (length (of_client i (h_events (rc_history (wl_rec s))))) < W64)%N →
  ∃ st0 l, registered ctx dial invoke pause w worlds i st0 ∧ cs_calls (k_client k) = cs_calls st0 ++ l ∧
    numbered_calls (c_clientID (cs_client (k_client k))) 0 (c_sequence (cs_client (k_client k))) l.
Proof.
  intros H0 Hc Hr w Hk Hsp Hid Hlen. destruct (Workload_Run_ok _ _ _ _ _ H0 Hc Hr) as [[] _].
  pose proof (wi_client0 i k Hk) as Hinv. unfold client_inv in Hinv. rewrite Hsp in Hinv.
  destruct Hinv as (inps & answers & st & Hp & Ek & Hacc). rewrite Ek in *.
  assert (length inps = length (of_client i (h_events (rc_history (wl_rec s))))) as El.
  { destruct Hp as (st0 & _ & _ & Hs). apply script_length in Hs. apply (f_equal length) in Hacc.
    unfold account, tale in Hacc. rewrite length_fmap, length_zip_with, length_fmap in Hacc. lia. }
  eapply (progress_numbered _ _ _ _ _ _ _ _ _ _ _ _ Hp); [done|by rewrite El].
Qed.
End theorems.

(** Two clients never write the same value. *)
Lemma FormatUint_inj n m : (n < W64)%N → (m < W64)%N → FormatUint n = FormatUint m → n = m.
Proof. intros Hn Hm E. apply ParseUint_FormatUint in Hn, Hm. rewrite E, Hm in Hn. congruence. Qed.

Lemma dash_not_digit n : Byte.x2d ∉ FormatUint n.
Proof. intros Hin. pose proof (digits_are_digits (N.to_uint n)) as Hd. rewrite Forall_forall in Hd. by destruct (Hd _ Hin). Qed.

Lemma value_name_inj i j u v :
  (Z.to_N i < W64)%N → (Z.to_N j < W64)%N → (Z.to_N u < W64)%N → (Z.to_N v < W64)%N →
  value_name i u = value_name j v → Z.to_N i = Z.to_N j ∧ Z.to_N u = Z.to_N v.
Proof.
  intros Hi Hj Hu Hv [= E]. pose proof (Cut_app Byte.x2d _ (FormatUint (Z.to_N u)) (dash_not_digit (Z.to_N i))) as C1.
  rewrite E, (Cut_app _ _ _ (dash_not_digit (Z.to_N j))) in C1. injection C1 as E1 E2. split; by apply FormatUint_inj.
Qed.

(** Of two values that different clients write, no reader can mistake one for the other. *)
Lemma values_tell_clients_apart i j u v :
  i ≠ j → (N.of_nat i < W64)%N → (N.of_nat j < W64)%N → (0 ≤ u < 9223372036854775808)%Z → (0 ≤ v < 9223372036854775808)%Z →
  value_name (Z.of_nat i) u ≠ value_name (Z.of_nat j) v.
Proof. intros Hne Hi Hj Hu Hv [E _]%value_name_inj; unfold W64 in *; lia. Qed.

(** [--reads=0] asks for half the operations to be reads. *)
Lemma no_reads_not_expressible unixNano w :
  is_zero (w_ReadFraction w) = true → w_ReadFraction (workload_withDefaults unixNano w) = QArith_base.Qmake 1 2.
Proof. intros E. cbn. by rewrite E. Qed.

(** ** Two clients, concretely *)

Module WorkloadExample.
(** A cluster that answers: it registers its clients under the number of requests it has
    seen, and has nothing. *)
Definition ctx (n : N) : option error * N := (None, n).
Definition dial (addr : string) (n : N) : bool * N := (true, n).
Definition pause (n : N) : option error * N := (None, n).
Definition invoke (addr : string) (req : request) (n : N) : rpc response * N :=
  (match req with
   | RegisterReq => OK (RegisterResp (n + 1))
   | SetReq _ => Err (statusOf CodeDeadlineExceeded)
   | DeleteReq _ => OK (DeleteResp (mkDeleteResponse n false))
   | GetReq _ => OK (GetResp (mkGetResponse [] false n))
   | ChangeMembershipReq _ => Err (statusOf Unavailable)
   end, (n + 1)%N).

Definition next (g : N) : N := ((g * 6364136223846793005 + 1442695040888963407) mod W64)%N.
Definition bits (g : N) : Z := Z.of_N (N.shiftr g 33).

#[export] Instance lcg : Generator N := {|
  rng_Intn n g := ((bits g mod n)%Z, next g);
  rng_Float64 g := (QArith_base.Qmake (bits g) 2147483648, next g);
  rng_Int63 g := ((bits g mod 9223372036854775808)%Z, next g)
|}.
#[export] Instance lcg_generator_laws : GeneratorLaws N.
Proof. split; intros; by apply Z.mod_pos_bound. Qed.

Definition raw : Workload :=
  mkWorkload ["a"]%string 2 2 20 0 (QArith_base.Qmake 0 1) (QArith_base.Qmake 0 1) 3 [].
Definition w : Workload := workload_withDefaults 77 raw.
Definition worlds (i : nat) : N := N.of_nat i.

(** Both in turn, one step every other nanosecond. *)
Fixpoint in_turn (fuel : nat) (now : Z) (sched : list (nat * Z * bool)) : list (nat * Z * bool) :=
  match fuel with
  | O => sched
  | S k =>
      let ok ev := match Workload_Run ctx dial invoke pause Z.to_N worlds 77 raw 1 (sched ++ [ev]) with
                   | Ret (Some _) => true | _ => false end in
      let ev := (Nat.modulo k 2, now, false) in
      in_turn k (now + 1) (if ok ev then sched ++ [ev] else sched)
  end.
Definition sched : list (nat * Z * bool) := Eval vm_compute in in_turn 40 2 [].

Definition final_state : workload :=
  match Workload_Run ctx dial invoke pause Z.to_N worlds 77 raw 1 sched with
  | Ret (Some s) => s
  | _ => mkWl [] (mkRecorder NewHistory ∅ ∅ 0) 0 0 false
  end.

Lemma sched_runs : Workload_Run ctx dial invoke pause Z.to_N worlds 77 raw 1 sched = Ret (Some final_state).
Proof. vm_compute. reflexivity. Qed.

Lemma sched_clocked : Forall clocked sched.
Proof. repeat constructor. Qed.

(** Where the run is at the deadline. *)
Definition mid_state : workload :=
  match Workload_Run ctx dial invoke pause Z.to_N worlds 77 raw 1 (take 20 sched) with
  | Ret (Some s) => s
  | _ => final_state
  end.

Lemma halves_clocked : Forall clocked (take 20 sched) ∧ Forall clocked (drop 20 sched).
Proof. split; repeat constructor. Qed.

Lemma halves_run :
  Workload_Run ctx dial invoke pause Z.to_N worlds 77 raw 1 (take 20 sched) = Ret (Some mid_state) ∧
  wl_run ctx dial invoke pause Z.to_N w (drop 20 sched) mid_state = Some final_state.
Proof. split; vm_compute; reflexivity. Qed.

Lemma second_half_late : Forall (time_up (wl_deadline mid_state)) (drop 20 sched).
Proof. assert (wl_deadline mid_state = 21%Z) as -> by (vm_compute; reflexivity). repeat (constructor; [by left|]); constructor. Qed.
End WorkloadExample.
Import WorkloadExample.

Lemma workload_history_witness :
  Forall well_recorded (h_events (rc_history (wl_rec final_state))) ∧
  length (h_events (rc_history (wl_rec final_state))) = 4%nat.
Proof.
  destruct (workload_history ctx dial invoke pause Z.to_N worlds 77 raw 1 sched final_state eq_refl sched_clocked sched_runs)
    as (Hw & _). split; [exact Hw|]. vm_compute. reflexivity.
Defined.

Lemma workload_faithful_witness :
  ∃ k inps answers st g, wl_clients final_state !! 0%nat = Some k ∧
    progress ctx dial invoke pause Z.to_N w worlds 0 inps answers st g ∧
    account (of_client 0 (h_events (rc_history (wl_rec final_state)))) = tale inps answers.
Proof.
  destruct (workload_faithful ctx dial invoke pause Z.to_N worlds 77 raw 1 sched final_state
    (rc_history (wl_rec final_state)) None eq_refl sched_clocked sched_runs ltac:(vm_compute; reflexivity)) as (_ & Hc & He).
  destruct (wl_clients final_state !! 0%nat) as [k|] eqn:Hk; [|by vm_compute in Hk].
  specialize (Hc 0%nat k Hk). rewrite (He 0%nat k Hk) in Hc. destruct Hc as (inps & answers & st & g & Hc). exists k, inps, answers, st, g. split; [reflexivity|exact Hc].
Defined.

Lemma workload_ends_witness : (length (drop 20 sched) ≤ 11)%nat ∧ is_Some (Run_result final_state).
Proof.
  destruct (workload_ends ctx dial invoke pause Z.to_N worlds 77 raw 1 (take 20 sched) mid_state (drop 20 sched) final_state
    eq_refl (proj1 halves_clocked) (proj1 halves_run) (proj2 halves_clocked) second_half_late (proj2 halves_run)) as [Hlen _].
  split; [exact Hlen|]. vm_compute. eauto.
Defined.

Lemma workload_verdict_witness : explained (h_events (rc_history (wl_rec final_state))).
Proof.
  apply (workload_verdict (HMap := forward_range) (HPorc := Exhaustive.porcupine) (H := Exhaustive.porcupine_laws)
    ctx dial invoke pause Z.to_N worlds 77 raw 1 sched final_state 1 eq_refl sched_clocked sched_runs).
  vm_compute. reflexivity.
Defined.

Lemma workload_numbers_witness :
  ∃ k (st0 : KVClient.state N) l, wl_clients final_state !! 1%nat = Some k ∧ cs_calls (k_client k) = cs_calls st0 ++ l ∧
    numbered_calls (c_clientID (cs_client (k_client k))) 0 (c_sequence (cs_client (k_client k))) l.
Proof.
  destruct (wl_clients final_state !! 1%nat) as [k|] eqn:Hk; [|by vm_compute in Hk].
  destruct (workload_numbers ctx dial invoke pause Z.to_N worlds 77 raw 1 sched final_state 1 k eq_refl sched_clocked sched_runs Hk)
    as (st0 & l & _ & Hl); [vm_compute in Hk; by injection Hk as <-..|by vm_compute|]. exists k, st0, l. split; [reflexivity|exact Hl].
Defined.
