(* ===== verification/Kvctl.v ===== *)
(** * The kvctl command

    [cmd/kvctl/main.go]: one command against a cluster, through the client.  Arguments and
    flags are byte strings as the flag package leaves them, and what is printed is a value.
    The network is the client model's world; the contexts that the command makes are
    functions of their timeouts, and so are arguments here.

    The theorems say which requests a command sends, that a write is one numbered request
    of a session of its own, and what the status table and its verdict mean. *)

From S2P Require Import Prelude Varint GoMaps GoStrings Types Codec KVServer KVClient.

(** ** Arguments *)

Definition comma_sign : byte := Byte.x2c.

(** The loop appends what is left of each part. *)
Definition splitEndpoints (s : bytes) : list bytes :=
  foldl (λ out part, let part := TrimSpace part in if bool_decide (part = []) then out else out ++ [part])
    [] (Split comma_sign s).

Fixpoint parse_ids (out : list N) (args : list bytes) : outcome (list N) :=
  match args with
  | [] => Ret out
  | a :: args' =>
      match ParseUint (TrimSpace a) with
      | Ret id =>
          if (id =? 0)%N then Fail (Errorf "node id 0 is reserved to mean 'no node'" [])
          else parse_ids (out ++ [id]) args'
      | Fail e => Fail (Errorf "not a node id" [e])
      | Panic p => Panic p
      | OutOfFuel => OutOfFuel
      end
  end.

Definition parseIDs (args : list bytes) : outcome (list N) := parse_ids [] args.

Record kvFlags := mkKvFlags {
  kf_endpoints : bytes;
  kf_timeout : Z;
  kf_stale : bool;
  kf_noSession : bool;
  kf_version : bool
}.

Definition membershipTimeout : Z := 30000000000.

(** ** What is printed, and the error returned *)

(** A line of the status table. *)
Inductive row :=
  | Unreachable (endpoint : string)
  | NodeRow (endpoint : string) (status : StatusResponse) (lag : option N).

Inductive kvPrinted :=
  | PrintedVersion
  | PrintedUsage
  | CommittedAt (index : N)
  | TheValue (value : bytes)
  | PrintedDeleted
  | PrintedNoSuchKey
  | StatusTable (rows : list row)
  | ClusterIsNow (resp : option ChangeMembershipResponse).

Inductive kvErr :=
  | UsageErr
  | ClientErr (e : error)
  | RegisterErr (e : callError)
  | CallErr (e : callError) (leader : option NotLeaderError)
  | NotFoundErr (key : bytes)
  | BadIDErr (e : error)
  | QuorumErr (reachable total quorum : nat).

(** [LeaderHint] of what a call returns: the status is that of the error it wraps. *)
Definition hintOf (e : callError) : option NotLeaderError :=
  match e with
  | Final (RpcError s) | GaveUp (Some (RpcError s)) => LeaderHint s
  | _ => None
  end.

Definition describe (e : callError) : kvErr :=
  match hintOf e with
  | Some hint => if (nl_LeaderHint hint =? 0)%N then CallErr e None else CallErr e (Some hint)
  | None => CallErr e None
  end.

(** [worst], over the indexes in the order the map is ranged over. *)
Definition worstLag (commit : N) (matches : list N) : N :=
  foldl (λ worst m, let behind := (commit -u N.min m commit)%N in if (worst <? behind)%N then behind else worst) 0%N matches.

Definition bs (s : string) : bytes := String.list_byte_of_string s.

Section kvctl.
Context {W : Type} (ctx_of : Z → W → option error * W) (dial : string → W → bool * W)
  (invoke : string → request → W → rpc response * W) (pause_of : Z → W → option error * W)
  (ask : string → W → rpc StatusResponse * W).
Context `{HMap : MapRange}.

Local Abbreviation state := (KVClient.state W).

(** The loop of [printStatus]: the rows and how many answered. *)
Fixpoint statusRows (endpoints : list string) : M state (list row * nat) :=
  match endpoints with
  | [] => ret ([], 0%nat)
  | endpoint :: rest =>
      answer <- client_Status dial ask endpoint ;;
      more <- statusRows rest ;;
      ret (match answer with
           | inl _ => (Unreachable endpoint :: more.1, more.2)
           | inr status =>
               let m := sp_MatchIndex status in
               let lag := if decide (m = ∅) then None else Some (worstLag (sp_CommitIndex status) (range_map m).*2) in
               (NodeRow endpoint status lag :: more.1, S more.2)
           end)
  end.

Definition printStatus : M state (list kvPrinted * option kvErr) :=
  s <- get ;;
  let endpoints := c_endpoints (cs_client s) in
  res <- statusRows endpoints ;;
  let '(rows, reachable) := res in
  let total := length endpoints in
  let quorum := (total / 2 + 1)%nat in
  ret ([StatusTable rows],
       if decide (reachable < quorum)%nat then Some (QuorumErr reachable total quorum) else None).

Definition commandTimeout (kf : kvFlags) (cmd : bytes) : Z :=
  if decide (cmd = bs "members") then Z.max (kf_timeout kf) membershipTimeout else kf_timeout kf.

Definition needsSession (kf : kvFlags) (cmd : bytes) : bool :=
  bool_decide (cmd = bs "set" ∨ cmd = bs "delete") && negb (kf_noSession kf).

(** The switch over the commands. *)
Definition kv_dispatch (kf : kvFlags) (cmd : bytes) (args : list bytes) : M state (list kvPrinted * option kvErr) :=
  let ctx := ctx_of (commandTimeout kf cmd) in
  let pause := pause_of (commandTimeout kf cmd) in
  if decide (cmd = bs "set") then
    match args with
    | [key; value] =>
        res <- client_Set ctx dial invoke pause key value ;;
        ret (match res with inl e => ([], Some (describe e)) | inr index => ([CommittedAt index], None) end)
    | _ => ret ([], Some UsageErr)
    end
  else if decide (cmd = bs "get") then
    match args with
    | [key] =>
        res <- (if kf_stale kf then client_GetStale ctx dial invoke pause key else client_Get ctx dial invoke pause key) ;;
        ret (match res with
             | inl e => ([], Some (describe e))
             | inr (value, found) => if (found : bool) then ([TheValue value], None) else ([], Some (NotFoundErr key))
             end)
    | _ => ret ([], Some UsageErr)
    end
  else if decide (cmd = bs "delete") then
    match args with
    | [key] =>
        res <- client_Delete ctx dial invoke pause key ;;
        ret (match res with
             | inl e => ([], Some (describe e))
             | inr existed => ([if (existed : bool) then PrintedDeleted else PrintedNoSuchKey], None)
             end)
    | _ => ret ([], Some UsageErr)
    end
  else if decide (cmd = bs "status") then printStatus
  else if decide (cmd = bs "members") then
    match args with
    | [] => ret ([], Some UsageErr)
    | _ =>
        match parseIDs args with
        | Ret voters =>
            res <- client_ChangeMembership ctx dial invoke pause voters ;;
            ret (match res with inl e => ([], Some (describe e)) | inr resp => ([ClusterIsNow resp], None) end)
        | Fail e => ret ([], Some (BadIDErr e))
        | Panic p => panic p
        | OutOfFuel => λ s, (OutOfFuel, s)
        end
    end
  else ret ([PrintedUsage], Some UsageErr).

(** With a client: register if need be, then the command. *)
Definition command (kf : kvFlags) (cmd : bytes) (args : list bytes) : M state (list kvPrinted * option kvErr) :=
  if needsSession kf cmd then
    reg <- client_Register (ctx_of (commandTimeout kf cmd)) dial invoke (pause_of (commandTimeout kf cmd)) ;;
    match reg with
    | inl e => ret ([], Some (RegisterErr e))
    | inr _ => kv_dispatch kf cmd args
    end
  else kv_dispatch kf cmd args.

(** [run]: what is printed and returned, and the client when it is closed. *)
Definition kvctl_run (kf : kvFlags) (args : list bytes) (w : W) : outcome (list kvPrinted * option kvErr) * option state :=
  if kf_version kf then (Ret ([PrintedVersion], None), None)
  else
    match args with
    | [] => (Ret ([PrintedUsage], Some UsageErr), None)
    | cmd :: rest =>
        match NewClient (String.string_of_list_byte <$> splitEndpoints (kf_endpoints kf)) with
        | Ret c =>
            let '(res, st) := command kf cmd rest (mkState c w []) in
            (res, Some (snd (client_Close st)))
        | Fail e => (Ret ([], Some (ClientErr e)), None)
        | Panic p => (Panic p, None)
        | OutOfFuel => (OutOfFuel, None)
        end
    end.
End kvctl.

(** The exit status of the process. *)
Definition kvctl_main (res : list kvPrinted * option kvErr) : Z := match res.2 with None => 0 | Some _ => 1 end.

(** ** Endpoints and ids *)

(** An endpoint that the flag can name. *)
Definition good_endpoint (e : bytes) : Prop := e ≠ [] ∧ (comma_sign ∉ e) ∧ trimmed e.

Lemma splitEndpoints_filter s : splitEndpoints s = filter (λ p, p ≠ []) (TrimSpace <$> Split comma_sign s).
Proof.
  unfold splitEndpoints.
  cut (∀ out, foldl (λ out part, let part := TrimSpace part in if bool_decide (part = []) then out else out ++ [part])
    out (Split comma_sign s) = out ++ filter (λ p, p ≠ []) (TrimSpace <$> Split comma_sign s)); [intros H; apply (H [])|].
  induction (Split comma_sign s) as [|p ps IH]; intros out; cbn [foldl fmap list_fmap]; [by rewrite app_nil_r|].
  fold (TrimSpace <$> ps). rewrite IH, filter_cons. case_bool_decide; case_decide; try done. by rewrite <- app_assoc.
Qed.

Lemma splitEndpoints_good s : Forall good_endpoint (splitEndpoints s).
Proof.
  rewrite splitEndpoints_filter. apply Forall_forall. intros e [Hne (p & -> & Hp)%list_elem_of_fmap]%list_elem_of_filter.
  split; [done|]. split; [|apply TrimSpace_trimmed]. intros Hin%TrimSpace_elem. by apply Split_no_sep in Hp.
Qed.

(** The flag names what it is printed from: endpoints joined by commas are read back, and
    whatever is read is a list of such endpoints. *)
Theorem splitEndpoints_exact :
  (∀ es, Forall good_endpoint es → splitEndpoints (Join comma_sign es) = es) ∧
  (∀ s, Forall good_endpoint (splitEndpoints s)).
Proof.
  split; [|apply splitEndpoints_good]. intros es Hes. rewrite splitEndpoints_filter. destruct es as [|e es].
  { vm_compute. reflexivity. }
  rewrite Split_Join; [|done|by eapply Forall_impl; [done|]; intros ? (_ & ? & _)].
  assert (TrimSpace <$> (e :: es) = e :: es) as ->.
  { apply list_eq_Forall2, Forall2_fmap_l, Forall_Forall2_diag. eapply Forall_impl; [done|].
    intros x (_ & _ & Ht). by apply TrimSpace_id. }
  apply list_filter_all. eapply Forall_impl; [done|]. by intros x (? & _).
Qed.

Lemma parse_ids_bound args out ids : parse_ids out args = Ret ids →
  ∃ more, ids = out ++ more ∧ length more = length args ∧ Forall (λ id, 0 < id < W64)%N more.
Proof.
  revert out. induction args as [|a args IH]; intros out; cbn [parse_ids]; [intros [= <-]; exists []; by rewrite app_nil_r|].
  destruct (ParseUint (TrimSpace a)) as [id| | |] eqn:Ea; try done. destruct (N.eqb_spec id 0); [done|].
  intros (more & -> & Hlen & Hall)%IH. exists (id :: more). rewrite <- app_assoc. cbn. split_and!; [done|by f_equal|].
  constructor; [|done]. apply ParseUint_bound in Ea. lia.
Qed.

Lemma parse_ids_print ids out :
  Forall (λ id, 0 < id < W64)%N ids → parse_ids out (FormatUint <$> ids) = Ret (out ++ ids).
Proof.
  intros Hall. revert out. induction Hall as [|id ids Hid _ IH]; intros out; cbn [parse_ids fmap list_fmap]; [by rewrite app_nil_r|].
  rewrite (TrimSpace_id _ (FormatUint_trimmed id)), ParseUint_FormatUint by lia. rewrite (proj2 (N.eqb_neq _ _)) by lia.
  fold (FormatUint <$> ids). by rewrite IH, <- app_assoc.
Qed.

(** The voters named on the command line: ids are read back, and what is read are ids that
    a node can have, one for each argument. *)
Theorem parseIDs_exact :
  (∀ ids, Forall (λ id, 0 < id < W64)%N ids → parseIDs (FormatUint <$> ids) = Ret ids) ∧
  (∀ args ids, parseIDs args = Ret ids → length ids = length args ∧ Forall (λ id, 0 < id < W64)%N ids).
Proof.
  split; [intros ids; apply parse_ids_print|]. intros args ids (more & -> & Hlen & Hall)%parse_ids_bound. done.
Qed.

(** ** The status table *)

(** [worstLag] is how far the peer that is furthest behind is behind. *)
Lemma worstLag_spec commit ms :
  (commit < W64)%N →
  (∀ m, m ∈ ms → (commit - m ≤ worstLag commit ms)%N) ∧
  (worstLag commit ms = 0%N ∨ ∃ m, m ∈ ms ∧ worstLag commit ms = (commit - m)%N).
Proof.
  intros Hc. unfold worstLag.
  assert (∀ m, commit -u N.min m commit = commit - m)%N as Eb.
  { intros m. rewrite u64_sub_small by lia. lia. }
  cut (∀ w0, let r := foldl (λ worst m, let behind := (commit -u N.min m commit)%N in if (worst <? behind)%N then behind else worst) w0 ms in
    (w0 ≤ r)%N ∧ (∀ m, m ∈ ms → (commit - m ≤ r)%N) ∧ (r = w0 ∨ ∃ m, m ∈ ms ∧ r = (commit - m)%N)).
  { intros H. destruct (H 0%N) as (_ & H1 & H2). done. }
  induction ms as [|m ms IH]; intros w0; cbn [foldl].
  { split_and!; [done|by intros ? ?%not_elem_of_nil|by left]. }
  rewrite Eb. destruct (N.ltb_spec w0 (commit - m)); [destruct (IH (commit - m)%N) as (H1 & H2 & H3)|destruct (IH w0) as (H1 & H2 & H3)]; cbv zeta in *.
  - split_and!; [lia| |].
    + intros x [->|Hx]%elem_of_cons; [lia|by apply H2].
    + right. destruct H3 as [->|(x & Hx & E)]; [exists m; split; [by left|done]|exists x; split; [by right|done]].
  - split_and!; [lia| |].
    + intros x [->|Hx]%elem_of_cons; [lia|by apply H2].
    + destruct H3 as [->|(x & Hx & E)]; [by left|right; exists x; split; [by right|done]].
Qed.

Lemma parse_ids_total args out : (∃ ids, parse_ids out args = Ret ids) ∨ ∃ e, parse_ids out args = Fail e.
Proof.
  revert out. induction args as [|a args IH]; intros out; cbn; [by left; eexists|].
  destruct (ParseUint_total (TrimSpace a)) as [[id ->]|[e ->]]; [|by right; eexists]. case_match; [by right; eexists|apply IH].
Qed.

Definition row_endpoint (r : row) : string := match r with Unreachable e | NodeRow e _ _ => e end.
Definition answered (r : row) : bool := match r with Unreachable _ => false | NodeRow _ _ _ => true end.

(** The lag of a row is that of the peer furthest behind; a node with no peers, or that does
    not lead, has none. *)
Definition row_right (r : row) : Prop :=
  match r with
  | NodeRow _ s lag =>
      match lag with
      | None => sp_MatchIndex s = ∅
      | Some l => (sp_CommitIndex s < W64)%N →
          (∀ id m, sp_MatchIndex s !! id = Some m → (sp_CommitIndex s - m ≤ l)%N) ∧
          (l = 0%N ∨ ∃ id m, sp_MatchIndex s !! id = Some m ∧ l = (sp_CommitIndex s - m)%N)
      end
  | Unreachable _ => True
  end.

(** The client's operation behind a command, if it is well formed and has one. *)
Definition command_op (kf : kvFlags) (cmd : bytes) (args : list bytes) : option cop :=
  if decide (cmd = bs "set") then match args with [k; v] => Some (CopSet k v) | _ => None end
  else if decide (cmd = bs "get") then
    match args with
    | [k] => Some (CopGet k (if kf_stale kf then READ_CONSISTENCY_STALE else READ_CONSISTENCY_LINEARIZABLE))
    | _ => None
    end
  else if decide (cmd = bs "delete") then match args with [k] => Some (CopDelete k) | _ => None end
  else if decide (cmd = bs "members") then
    match args, parseIDs args with _ :: _, Ret ids => Some (CopChangeMembership ids) | _, _ => None end
  else None.

Section commands.
Context {W : Type} (ctx_of : Z → W → option error * W) (dial : string → W → bool * W)
  (invoke : string → request → W → rpc response * W) (pause_of : Z → W → option error * W)
  (ask : string → W → rpc StatusResponse * W).
Context `{HMap : MapRange}.
Local Abbreviation state := (KVClient.state W).
Local Abbreviation run := (kvctl_run ctx_of dial invoke pause_of ask).

Lemma range_map_values (m : gmap N N) x : x ∈ (range_map m).*2 ↔ ∃ id, m !! id = Some x.
Proof.
  rewrite range_map_perm. rewrite list_elem_of_fmap. split.
  - intros ([id y] & -> & Hin%elem_of_map_to_list). eauto.
  - intros [id Hid]. exists (id, x). split; [done|]. by apply elem_of_map_to_list.
Qed.

Lemma row_of_right e (s : StatusResponse) :
  row_right (NodeRow e s (if decide (sp_MatchIndex s = ∅) then None else Some (worstLag (sp_CommitIndex s) (range_map (sp_MatchIndex s)).*2))).
Proof.
  cbn. case_decide as Em; cbn; [done|]. intros Hc.
  destruct (worstLag_spec (sp_CommitIndex s) (range_map (sp_MatchIndex s)).*2 Hc) as [H1 H2]. split.
  - intros id m Hm. apply H1, range_map_values. eauto.
  - destruct H2 as [?|(m & [id Hm]%range_map_values & E)]; [by left|right; eauto].
Qed.

Lemma statusRows_spec endpoints (st : state) :
  ∃ rows st', statusRows dial ask endpoints st = (Ret (rows, length (filter (λ r, answered r = true) rows)), st') ∧
    row_endpoint <$> rows = endpoints ∧ Forall row_right rows ∧ cs_calls st' = cs_calls st ∧
    c_clientID (cs_client st') = c_clientID (cs_client st).
Proof.
  revert st. induction endpoints as [|e es IH]; intros st; cbn [statusRows]; [by eexists [], st|].
  unfold bind, client_Status, bind. destruct (connect_ok dial e st) as (ok & st1 & -> & (_ & Hid1 & _) & Hcalls & _). destruct ok; cbn [negb].
  - unfold world at 1. destruct (ask e (cs_world st1)) as [answer w]. cbn [ret].
    destruct (IH (mkState (cs_client st1) w (cs_calls st1))) as (rows & st' & E & He & Hr & Hc & Hid). cbn [cs_calls cs_client] in Hc, Hid.
    destruct answer as [s|err]; unfold ret at 1; rewrite E; unfold ret; cbn [fst snd].
    + eexists (NodeRow e s _ :: rows), st'. rewrite filter_cons_True by done. split; [reflexivity|].
      split_and!; [by cbn; f_equal|constructor; [apply row_of_right|done]|congruence..].
    + eexists (Unreachable e :: rows), st'. rewrite filter_cons_False by done. split; [reflexivity|].
      split_and!; [by cbn; f_equal|by constructor|congruence..].
  - unfold ret at 1. destruct (IH st1) as (rows & st' & -> & He & Hr & Hc & Hid). unfold ret.
    eexists (Unreachable e :: rows), st'. rewrite filter_cons_False by done. split; [reflexivity|].
    split_and!; [by cbn; f_equal|by constructor|congruence..].
Qed.

(** [kvctl status] asks every endpoint, in order, whatever the others answer; the lag it shows
    is that of the peer furthest behind; it sends nothing through the leader; and it
    succeeds if and only if a majority of the endpoints answered. *)
Theorem kvctl_status kf w :
  let endpoints := String.string_of_list_byte <$> splitEndpoints (kf_endpoints kf) in
  kf_version kf = false → endpoints ≠ [] →
  ∃ rows err st, run kf [bs "status"] w = (Ret ([StatusTable rows], err), Some st) ∧
    row_endpoint <$> rows = endpoints ∧ Forall row_right rows ∧ cs_calls st = [] ∧
    (err = None ↔ (length endpoints < 2 * length (filter (λ r, answered r = true) rows))%nat).
Proof.
  intros endpoints Hv Hne. unfold kvctl_run. rewrite Hv. fold endpoints. unfold NewClient.
  destruct endpoints as [|e es] eqn:Ee; [done|]. rewrite <- Ee in *. unfold command.
  replace (needsSession kf (bs "status")) with false by (unfold needsSession; by rewrite bool_decide_false by (by vm_compute; intros [|])).
  unfold kv_dispatch. rewrite !decide_False by done. rewrite decide_True by done.
  unfold printStatus, bind. cbn [get]. cbn [cs_client c_endpoints].
  destruct (statusRows_spec endpoints (mkState (mkClient endpoints ∅ EmptyString 0 0 (2 * Z.of_nat (length endpoints) + 2)) w []))
    as (rows & st' & E & He & Hr & Hc & _). rewrite E. unfold ret.
  eexists rows, _, _. split; [reflexivity|]. split_and!; [done|done|done|].
  pose proof (Nat.div_mod_eq (length endpoints) 2). pose proof (Nat.mod_upper_bound (length endpoints) 2 ltac:(lia)).
  case_decide; split; intros; try done; lia.
Qed.

(** From [st], the command ends, and what it sends is the request of [o]. *)
Definition sends_one (o : option cop) (m : M state (list kvPrinted * option kvErr)) (st : state) : Prop :=
  ∃ out st' l, m st = (Ret out, st') ∧ cs_calls st' = cs_calls st ++ l ∧
    c_clientID (cs_client st') = c_clientID (cs_client st) ∧
    Forall (λ x, x.1 ∈ c_endpoints (cs_client st) ∧ Some x.2 = request_of (c_clientID (cs_client st)) 1 <$> o) l.

Lemma sends_nothing o out st : sends_one o (ret out) st.
Proof. exists out, st, []. rewrite app_nil_r. by split_and!. Qed.

Lemma sends_op ctx pause o {A} (m : M state A) (f : A → list kvPrinted * option kvErr) (st : state) :
  (∀ st', perform_cop ctx dial invoke pause o st = (Ret tt, st') → ∃ a, m st = (Ret a, st')) →
  client_ok st → c_sequence (cs_client st) = 0%N → sends_one (Some o) (bind m (λ a, ret (f a))) st.
Proof.
  intros Hcall Hok Hq. destruct (cop_call ctx dial invoke pause o st Hok) as (st' & l & E & _ & _ & Eid & _ & El & Hl).
  destruct (Hcall st' E) as [a Ha]. exists (f a), st', l. unfold bind. rewrite Ha. split_and!; try done.
  eapply Forall_impl; [exact Hl|]. intros x [Hx ->]. split; [done|]. rewrite Hq. cbn. f_equal.
  unfold request_of. destruct o; cbn [takes_number andb]; destruct (c_clientID (cs_client st) =? 0)%N; done.
Qed.

(** The result of an operation is that of the call it makes. *)
Local Ltac same_call :=
  intros ?; unfold perform_cop, client_Get, client_GetStale, bind at 1;
  lazymatch goal with |- match ?c with _ => _ end = _ → _ => destruct c as [[?| | |] ?] end;
  unfold ret; intros; simplify_eq; eauto.

Lemma kv_dispatch_sends kf cmd args (st : state) :
  client_ok st → c_sequence (cs_client st) = 0%N →
  sends_one (command_op kf cmd args) (kv_dispatch ctx_of dial invoke pause_of ask kf cmd args) st.
Proof.
  intros Hok Hq. unfold kv_dispatch, command_op. destruct (decide (cmd = bs "status")) as [->|Hns].
  { rewrite !(decide_False (P := bs "status" = _)) by done. unfold printStatus, sends_one, bind. cbn [get].
    destruct (statusRows_spec (c_endpoints (cs_client st)) st) as (rows & st' & -> & _ & _ & Hc & Hid). unfold ret.
    eexists _, st', []. rewrite app_nil_r. by split_and!. }
  set (ctx := ctx_of (commandTimeout kf cmd)). set (pause := pause_of (commandTimeout kf cmd)).
  repeat case_decide.
  - destruct args as [|k [|v [|]]]; try apply sends_nothing. apply (sends_op ctx pause); [same_call|done|done].
  - destruct args as [|k [|]]; try apply sends_nothing. destruct (kf_stale kf); (apply (sends_op ctx pause); [same_call|done|done]).
  - destruct args as [|k [|]]; try apply sends_nothing. apply (sends_op ctx pause); [same_call|done|done].
  - destruct args as [|a args]; [apply sends_nothing|].
    destruct (parse_ids_total (a :: args) []) as [[ids E]|[e E]]; fold (parseIDs (a :: args)) in E; rewrite E; [|apply sends_nothing].
    apply (sends_op ctx pause); [same_call|done|done].
  - apply sends_nothing.
Qed.

(** The last request to register was answered, and [id] is the client id in the answer. *)
Definition registered (id : N) (regs : list (string * request)) : Prop :=
  ∃ l e w resp, regs = l ++ [(e, RegisterReq)] ∧ fst (invoke e RegisterReq w) = OK resp ∧
    id = match resp with RegisterResp id => id | _ => 0%N end.

(** [Register] of a new client. *)
Lemma register_first ctx pause endpoints w :
  let st0 := mkState (mkClient endpoints ∅ EmptyString 0 0 (2 * Z.of_nat (length endpoints) + 2)) w [] in
  ∃ res st, client_Register ctx dial invoke pause st0 = (Ret res, st) ∧ client_ok st ∧ c_sequence (cs_client st) = 0%N ∧
    c_endpoints (cs_client st) = endpoints ∧ Forall (λ x, x.1 ∈ endpoints ∧ x.2 = RegisterReq) (cs_calls st) ∧
    ∀ id, res = inr id → registered (c_clientID (cs_client st)) (cs_calls st).
Proof.
  intros st0. assert (client_ok st0) as Hok0 by (by left). unfold client_Register, bind.
  destruct (call_returns ctx dial invoke pause RegisterReq st0 Hok0) as (res & st1 & regs & -> & Hok1 & (E1 & E2 & E3 & _) & El & Hl & Hlast).
  cbn in E1, E2, E3, El, Hl. rewrite <- El in Hl. unfold ret, modify.
  destruct res as [err|resp]; [eexists _, st1; split; [reflexivity|]; by split_and!|].
  destruct (Hlast resp eq_refl) as (l & w' & El' & Hw). cbn in El'.
  assert (∀ id, id = match resp with RegisterResp id => id | _ => 0%N end → registered id (cs_calls st1)) as Hreg.
  { intros id Hid. rewrite El'. by eexists l, _, w', resp. }
  destruct resp; (eexists _, _; split; [reflexivity|]; cbn; split_and!; try done; intros _ _; by apply Hreg).
Qed.

(** C30: One command, one request.  Whatever the network and the servers do, a command ends; what it
    sends goes to endpoints that were named.  A write, unless sessions were declined, first
    registers: if that fails, the command returns the error and sends nothing else; if not,
    the client id is the one that was answered to the last request to register.  Then comes
    one and the same request again and again: for a write, under the first number of the
    session registered.  A command that is not well formed sends no request of its own, and
    a read says whether it may be stale. *)
Theorem kvctl_sends kf cmd args w :
  let endpoints := String.string_of_list_byte <$> splitEndpoints (kf_endpoints kf) in
  kf_version kf = false → endpoints ≠ [] →
  ∃ out st regs reqs, run kf (cmd :: args) w = (Ret out, Some st) ∧ cs_calls st = regs ++ reqs ∧
    Forall (λ x, x.1 ∈ endpoints) (cs_calls st) ∧ Forall (λ x, x.2 = RegisterReq) regs ∧
    (if needsSession kf cmd
     then (∃ e, out = ([], Some (RegisterErr e)) ∧ reqs = []) ∨ registered (c_clientID (cs_client st)) regs
     else regs = [] ∧ c_clientID (cs_client st) = 0%N) ∧
    Forall (λ x, Some x.2 = request_of (c_clientID (cs_client st)) 1 <$> command_op kf cmd args) reqs.
Proof.
  intros endpoints Hv Hne. unfold kvctl_run. rewrite Hv. fold endpoints. unfold NewClient.
  destruct endpoints as [|e es] eqn:Ee; [done|]. rewrite <- Ee in *. clear Ee e es.
  set (st0 := mkState (mkClient endpoints _ _ _ _ _) w []). unfold command.
  assert (∀ st2, client_ok st2 → c_sequence (cs_client st2) = 0%N → c_endpoints (cs_client st2) = endpoints →
    Forall (λ x, x.1 ∈ endpoints ∧ x.2 = RegisterReq) (cs_calls st2) →
    ∃ out st reqs, (let '(res, st) := kv_dispatch ctx_of dial invoke pause_of ask kf cmd args st2 in (res, Some (snd (client_Close st)))) = (Ret out, Some st) ∧
      cs_calls st = cs_calls st2 ++ reqs ∧ Forall (λ x, x.1 ∈ endpoints) (cs_calls st) ∧
      Forall (λ x, x.2 = RegisterReq) (cs_calls st2) ∧ c_clientID (cs_client st) = c_clientID (cs_client st2) ∧
      Forall (λ x, Some x.2 = request_of (c_clientID (cs_client st)) 1 <$> command_op kf cmd args) reqs) as Hd.
  { intros st2 Hok2 Hq2 He2 Hc2. destruct (kv_dispatch_sends kf cmd args st2 Hok2 Hq2) as (out & st' & l & -> & El' & Eid & Hl').
    exists out. eexists _, l. split; [reflexivity|]. cbn. rewrite El'. rewrite He2 in Hl'. split_and!; [done| | |done|].
    - apply Forall_app. split; (eapply Forall_impl; [done|]); by intros x [].
    - eapply Forall_impl; [exact Hc2|]. by intros x [].
    - eapply Forall_impl; [exact Hl'|]. intros x []. by rewrite Eid. }
  destruct (needsSession kf cmd).
  - unfold bind. set (ctx := ctx_of _). set (pause := pause_of _).
    destruct (register_first ctx pause endpoints w) as (res & st1 & E & Hok & Hq & He & Hl & Hreg).
    change (client_Register ctx dial invoke pause st0 = (Ret res, st1)) in E. rewrite E. destruct res as [err|id].
    + unfold ret. eexists _, _, (cs_calls st1), []. split; [reflexivity|]. rewrite app_nil_r.
      split_and!; [done| | |left; by eexists|done]; (eapply Forall_impl; [exact Hl|]); by intros x [].
    + destruct (Hd st1 Hok Hq He Hl) as (out & st & reqs & Er & H1 & H2 & H3 & H4 & H5). exists out, st, (cs_calls st1), reqs.
      split_and!; try done. right. rewrite H4. by apply (Hreg id).
  - destruct (Hd st0) as (out & st & reqs & Er & H1 & H2 & H3 & H4 & H5); [by left|done|done|done|].
    by exists out, st, [], reqs.
Qed.
End commands.

(** ** A cluster of two *)

Module KvctlExample.
Definition ctx_of (t : Z) (n : N) : option error * N := (None, n).
Definition pause_of (t : Z) (n : N) : option error * N := (None, n).
Definition dial (addr : string) (n : N) : bool * N := (true, n).

(** [a] leads; the first answer to a write gets lost on the way to it. *)
Definition invoke (addr : string) (req : request) (n : N) : rpc response * N :=
  (if String.eqb addr "a" then
     match req with
     | RegisterReq => OK (RegisterResp 9)
     | SetReq _ => if (n <? 3)%N then Err (statusOf Unavailable) else OK (SetResp n)
     | _ => Err (statusOf Internal)
     end
   else Err (mkStatusError FailedPrecondition (Some (mkNotLeaderError 1 "a"%string))), (n + 1)%N).
Definition ask_status (addr : string) (n : N) : rpc StatusResponse * N :=
  (if String.eqb addr "a"
   then OK (mkStatusResponse 1 Leader 4 1 10 10 12 (mkPbConfiguration [1; 2]%N [] []) {[1 := 12; 2 := 7]}%N)
   else Err (statusOf Unavailable), n).

Definition flags : kvFlags := mkKvFlags (bs " a, ,b ") 5 false false false.
End KvctlExample.
Import KvctlExample.

Lemma kvctl_sends_witness :
  ∃ out st, kvctl_run (HMap := forward_range) ctx_of dial invoke pause_of ask_status flags [bs "set"; bs "k"; bs "v"] 0%N = (Ret out, Some st) ∧
    Forall (λ x, x.1 ∈ ["a"; "b"]%string) (cs_calls st) ∧ length (cs_calls st) = 4%nat.
Proof.
  destruct (kvctl_sends (HMap := forward_range) ctx_of dial invoke pause_of ask_status flags (bs "set") [bs "k"; bs "v"] 0%N)
    as (out & st & regs & reqs & E & _ & Hto & _); [reflexivity|by vm_compute|].
  exists out, st. split; [exact E|]. split; [exact Hto|].
  vm_compute in E. injection E as _ <-. reflexivity.
Defined.

Lemma kvctl_status_witness :
  ∃ rows err st, kvctl_run (HMap := forward_range) ctx_of dial invoke pause_of ask_status flags [bs "status"] 0%N =
      (Ret ([StatusTable rows], err), Some st) ∧
    row_endpoint <$> rows = ["a"; "b"]%string ∧ err ≠ None.
Proof.
  destruct (kvctl_status (HMap := forward_range) ctx_of dial invoke pause_of ask_status flags 0%N)
    as (rows & err & st & E & He & _); [reflexivity|by vm_compute|].
  exists rows, err, st. split; [exact E|]. split; [exact He|].
  vm_compute in E. injection E as _ <- _. discriminate.
Defined.

(** A write with a wrong number of arguments registers a session before it is refused. *)
Lemma malformed_write_registers :
  ∃ st, kvctl_run (HMap := forward_range) ctx_of dial invoke pause_of ask_status flags [bs "set"; bs "k"] 0%N = (Ret ([], Some UsageErr), Some st) ∧
    cs_calls st = [("a"%string, RegisterReq)].
Proof. eexists. split; vm_compute; reflexivity. Qed.
