(* ===== verification/Chaosctl.v ===== *)
(** * The chaosctl command

    [cmd/chaosctl/main.go]: drive a workload, check its history, keep both; or check a
    history that was kept.  What the flags say and what [Workload.Run] came to are inputs.
    Files are a map from paths to contents, with a function that says which system calls
    fail.  JSON and gzip are the class [Encodings], with the law that a history of plain
    text survives being written and read.

    The theorems: the command succeeds only if answers were recorded and have an
    explanation, and checking a kept history gives the verdict on the run it is of. *)

From Stdlib Require QArith_base.
From S2P Require Import Prelude Varint GoMaps GoStrings Types KVServer KVClient Chaos Workload Kvctl.

(** ** Files and encodings *)

(** The system calls made, which may fail. *)
Inductive syscall := SysMkdir (dir : bytes) | SysCreate (path : bytes) | SysWrite (path : bytes) | SysRead (path : bytes).

(** [json] for events, and reading all of a gzip stream. *)
Class Encodings := {
  json_Encode : list Event → bytes;
  json_Unmarshal : bytes → outcome (list Event);
  gzip_ReadAll : bytes → outcome bytes
}.

(** JSON strings are Unicode text; ASCII text is written and read unchanged. *)
Definition ascii_text (s : bytes) : Prop := Forall (λ c, (Byte.to_N c < 128)%N) s.
Definition int64 (z : Z) : Prop := (-9223372036854775808 ≤ z < 9223372036854775808)%Z.
Definition plain_event (e : Event) : Prop :=
  ascii_text (in_Key (e_Input e)) ∧ ascii_text (in_Value (e_Input e)) ∧ ascii_text (out_Value (e_Output e)) ∧
  (match in_Op (e_Input e) with OpOther n => (2 < n < 256)%N | _ => True end) ∧
  int64 (e_ClientID e) ∧ int64 (e_ID e) ∧ int64 (e_Invoked e) ∧ int64 (e_Returned e).

#[export] Instance plain_event_dec e : Decision (plain_event e).
Proof. unfold plain_event, ascii_text, int64. destruct (in_Op (e_Input e)); apply _. Defined.

Class EncodingLaws `{Encodings} := {
  json_roundtrip es : Forall plain_event es → json_Unmarshal (json_Encode es) = Ret es
}.

(** The files there are. *)
Abbreviation disk := (gmap bytes bytes).

Record chaosFlags := mkChaosFlags {
  cf_endpoints : bytes;
  cf_duration : Z;
  cf_clients : Z;
  cf_keys : Z;
  cf_opTimeout : Z;
  cf_checkTimeout : Z;
  cf_reads : fraction;
  cf_seed : Z;
  cf_keyPrefix : bytes;
  cf_out : bytes;
  cf_check : bytes;
  cf_version : bool
}.

(** [strings.HasSuffix] *)
Definition HasSuffix (s suffix : bytes) : bool :=
  bool_decide (drop (length s - length suffix) s = suffix).

(** The same function as kvctl's. *)
Definition chaosctl_splitEndpoints (s : bytes) : list bytes :=
  foldl (λ out part, let part := TrimSpace part in if bool_decide (part = []) then out else out ++ [part])
    [] (Split comma_sign s).

Section chaosctl.
Context `{HMap : MapRange} `{HPorc : Porcupine} `{HEnc : Encodings}.
(** Which calls fail; what drawing a result into a page comes to; and how [filepath.Join]
    begins the path of a plain name in a directory. *)
Context (refuses : syscall → option error) (page : CheckOutcome → outcome bytes) (dir_prefix : bytes → bytes).

Definition sys (c : syscall) : M disk unit :=
  match refuses c with Some e => fail e | None => ret tt end.

Definition put (path content : bytes) : M disk unit := modify (<[path := content]>).

(** [os.ReadFile] *)
Definition ReadFile (path : bytes) : M disk bytes :=
  sys (SysRead path) ;;;
  files <- get ;;
  match files !! path with Some b => ret b | None => fail (Errorf "no such file or directory" []) end.

(** Failures are wrapped in a message that names the file. *)
Definition wrapping {A} (msg : string) (m : M disk A) : M disk A := λ d,
  match m d with (Fail e, d') => (Fail (Errorf msg [e]), d') | r => r end.

Definition lift {A} (o : outcome A) : M disk A := λ d, (o, d).

(** [Result.WriteVisualization] *)
Definition WriteVisualization (r : CheckOutcome) (path : bytes) : M disk unit :=
  wrapping "creating visualization" (sys (SysCreate path)) ;;;
  put path [] ;;;
  b <- wrapping "writing visualization" (lift (page r)) ;;
  wrapping "writing visualization" (sys (SysWrite path)) ;;;
  put path b.

Definition history_path (dir stamp : bytes) : bytes := dir_prefix dir ++ bs "history-" ++ stamp ++ bs ".json".
Definition violation_path (dir stamp : bytes) : bytes := dir_prefix dir ++ bs "violation-" ++ stamp ++ bs ".html".

Definition writeArtifacts (dir stamp : bytes) (h : History) (r : CheckOutcome) : M disk unit :=
  wrapping "creating directory" (sys (SysMkdir dir)) ;;;
  let path := history_path dir stamp in
  wrapping "creating file" (sys (SysCreate path)) ;;;
  put path [] ;;;
  wrapping "writing file" (sys (SysWrite path)) ;;;
  put path (json_Encode (Events h)) ;;;
  if Result_OK r then ret tt
  else WriteVisualization r (violation_path dir stamp).

(** The error that the verdict is. *)
Definition verdict (undecided : string) (r : CheckOutcome) : M disk unit :=
  match r_Status r with
  | Ok => ret tt
  | Illegal => fail (Errorf "the cluster returned answers no single machine could have produced" [])
  | Undecided => fail (Errorf undecided [])
  end.

Definition recheckHistory (path : bytes) (timeout : Z) (out stamp : bytes) : M disk unit :=
  raw <- wrapping "reading" (ReadFile path) ;;
  raw <- (if HasSuffix path (bs ".gz") then wrapping "decompressing" (lift (gzip_ReadAll raw)) else ret raw) ;;
  events <- wrapping "parsing" (lift (json_Unmarshal raw)) ;;
  let history := HistoryFromEvents events in
  let result := CheckHistory history timeout in
  (if negb (bool_decide (out = [])) && negb (Result_OK result) then writeArtifacts out stamp history result else ret tt) ;;;
  verdict "the search still did not finish" result.

(** The workload that the flags ask for. *)
Definition workload_of (cf : chaosFlags) : Workload :=
  mkWorkload (String.string_of_list_byte <$> chaosctl_splitEndpoints (cf_endpoints cf)) (cf_clients cf) (cf_keys cf)
    (cf_duration cf) (cf_opTimeout cf) (cf_reads cf) (QArith_base.Qmake 0 1) (cf_seed cf) (cf_keyPrefix cf).

(** [run]; [drive] is [Workload.Run]. *)
Definition chaosctl_run (drive : Workload → outcome (History * option (nat * runErr))) (cf : chaosFlags) (stamp : bytes) : M disk unit :=
  if cf_version cf then ret tt
  else if negb (bool_decide (cf_check cf = [])) then recheckHistory (cf_check cf) (cf_checkTimeout cf) (cf_out cf) stamp
  else
    ran <- lift (drive (workload_of cf)) ;;
    match ran with
    | (_, Some _) => fail (Errorf "chaos: client" [])
    | (history, None) =>
        if (history_Len history =? 0)%Z then fail (Errorf "no operations were recorded; is the cluster reachable?" [])
        else
          let result := CheckHistory history (cf_checkTimeout cf) in
          (if negb (bool_decide (cf_out cf = [])) then writeArtifacts (cf_out cf) stamp history result else ret tt) ;;;
          verdict "the linearizability search did not finish" result
    end.
End chaosctl.

(** ** A history that is read back *)

Lemma place_last x l : (∀ y, y ∈ l → (e_Invoked y ≤ e_Invoked x)%Z) → place x l = l ++ [x].
Proof.
  intros Hl. unfold place. rewrite list_filter_all by (apply Forall_forall; done). f_equal. f_equal.
  apply elem_of_nil_inv. intros y [Hlt Hy]%list_elem_of_filter. specialize (Hl y Hy). lia.
Qed.

Lemma sort_sorted l : StronglySorted no_later l → sortByInvocation l = l.
Proof.
  intros Hs. unfold sortByInvocation. destruct (sort_prefix l (length l) ltac:(done)) as (E & _ & _).
  rewrite firstn_all, drop_all, app_nil_r in E. rewrite E. clear E.
  induction l as [|x l IH] using rev_ind; [done|]. rewrite foldl_app. cbn [foldl].
  apply StronglySorted_app in Hs as (Hx & Hl & _). rewrite IH by done. apply place_last. intros y Hy.
  apply (Hx y x Hy). by left.
Qed.

Lemma count_perm f (l l' : list Event) : l ≡ₚ l' → count f l = count f l'.
Proof.
  assert (∀ l n, foldl (λ n e, if f e then (n + 1)%Z else n) n l = (n + count f l)%Z) as Hc.
  { unfold count. induction l0 as [|e l0 IH]; intros n; cbn [foldl]; [lia|].
    destruct (f e); [|apply IH]. pose proof (IH (n + 1)%Z). pose proof (IH (0 + 1)%Z). lia. }
  induction 1 as [|e l1 l2 _ IH|e1 e2 l1|l1 l2 l3 _ IH1 _ IH2]; [done|..|congruence]; unfold count in *; cbn [foldl]; [|by destruct (f e1), (f e2)].
  rewrite (Hc l1), (Hc l2). by rewrite IH.
Qed.

Lemma max_perm (g : Event → Z) (l l' : list Event) t :
  l ≡ₚ l' → foldl (λ t e, if (t <? g e)%Z then g e else t) t l = foldl (λ t e, if (t <? g e)%Z then g e else t) t l'.
Proof.
  intros HP. revert t. induction HP as [|e l1 l2 _ IH|e1 e2 l1|l1 l2 l3 _ IH1 _ IH2]; intros t; cbn; [done|by rewrite IH| |by rewrite IH1].
  assert (∀ t a, (if (t <? a)%Z then a else t) = Z.max t a) as Em by (intros t' a; destruct (Z.ltb_spec t' a); lia).
  f_equal. rewrite !Em. lia.
Qed.

Lemma keys_perm (l l' : list Event) (m : gmap bytes bool) :
  l ≡ₚ l' → foldl (λ m e, <[in_Key (e_Input e) := true]> m) m l = foldl (λ m e, <[in_Key (e_Input e) := true]> m) m l'.
Proof.
  intros HP. revert m. induction HP as [|e l1 l2 _ IH|e1 e2 l1|l1 l2 l3 _ IH1 _ IH2]; intros m; cbn; [done|by rewrite IH| |by rewrite IH1].
  f_equal. destruct (decide (in_Key (e_Input e1) = in_Key (e_Input e2))) as [->|]; [done|by rewrite insert_insert_ne].
Qed.

(** Checking what [Events] returns is checking the history. *)
Lemma check_saved `{HMap : MapRange} `{HPorc : Porcupine} h timeout : CheckHistory (HistoryFromEvents (Events h)) timeout = CheckHistory h timeout.
Proof.
  destruct (Events_spec h) as (Hs & HP & _). unfold CheckHistory, Events at 1, HistoryFromEvents. cbn [h_events].
  rewrite sort_sorted by done. f_equal. unfold history_Stats. cbn [h_events].
  rewrite (keys_perm _ _ _ HP), (max_perm _ _ _ _ HP), !(count_perm _ _ _ HP). done.
Qed.

Lemma HasSuffix_app a b suffix : (length suffix ≤ length b)%nat → HasSuffix (a ++ b) suffix = HasSuffix b suffix.
Proof.
  intros Hl. unfold HasSuffix. rewrite length_app.
  replace (length a + length b - length suffix)%nat with (length a + (length b - length suffix))%nat by lia.
  by rewrite drop_app_add.
Qed.

Section theorems.
Context `{HMap : MapRange} `{HPorc : Porcupine} `{HEnc : Encodings}.
Context (refuses : syscall → option error) (page : CheckOutcome → outcome bytes) (dir_prefix : bytes → bytes).
Implicit Types (d : disk) (cf : chaosFlags).

(** A call that did not fail did nothing else. *)
Lemma sys_Ret c msg d d' u : wrapping msg (sys refuses c) d = (Ret u, d') → d' = d.
Proof. unfold wrapping, sys. destruct (refuses c); by intros [= _ <-]. Qed.

Lemma WriteVisualization_keeps r path d d' u p :
  WriteVisualization refuses page r path d = (Ret u, d') → p ≠ path → d' !! p = d !! p.
Proof.
  unfold WriteVisualization, bind. intros Hw Hne.
  destruct (wrapping _ (sys refuses (SysCreate path)) d) as [[[]| | |] d1] eqn:E1; try done. apply sys_Ret in E1 as ->.
  unfold put, modify in Hw. unfold wrapping at 1, lift in Hw. destruct (page r) as [b| | |]; try done.
  destruct (wrapping _ (sys refuses (SysWrite path)) _) as [[[]| | |] d2] eqn:E2; try done. apply sys_Ret in E2 as ->.
  injection Hw as _ <-. by rewrite !lookup_insert_ne.
Qed.

Lemma paths_differ dir stamp : history_path dir_prefix dir stamp ≠ violation_path dir_prefix dir stamp.
Proof. unfold history_path, violation_path. intros E%app_inv_head. by vm_compute in E. Qed.

(** What was kept is the history, in the order of invocation. *)
Lemma writeArtifacts_keeps dir stamp h r d d' u :
  writeArtifacts refuses page dir_prefix dir stamp h r d = (Ret u, d') →
  d' !! history_path dir_prefix dir stamp = Some (json_Encode (Events h)).
Proof.
  unfold writeArtifacts, bind. intros Hw. set (path := history_path dir_prefix dir stamp) in *.
  destruct (wrapping _ (sys refuses (SysMkdir dir)) d) as [[[]| | |] d1] eqn:E1; try done. apply sys_Ret in E1 as ->.
  destruct (wrapping _ (sys refuses (SysCreate path)) d) as [[[]| | |] d1] eqn:E1; try done. apply sys_Ret in E1 as ->.
  unfold put, modify in Hw.
  destruct (wrapping _ (sys refuses (SysWrite path)) _) as [[[]| | |] d1] eqn:E1; try done. apply sys_Ret in E1 as ->.
  destruct (Result_OK r); [injection Hw as _ <-; by rewrite lookup_insert_eq|].
  rewrite (WriteVisualization_keeps _ _ _ _ _ path Hw); [by rewrite lookup_insert_eq|apply paths_differ].
Qed.

(** Deciding a kept history: the verdict is that on the history, within the time given. *)
Lemma recheck_kept `{!EncodingLaws} dir stamp h timeout d :
  d !! history_path dir_prefix dir stamp = Some (json_Encode (Events h)) →
  refuses (SysRead (history_path dir_prefix dir stamp)) = None → Forall plain_event (h_events h) →
  recheckHistory refuses page dir_prefix (history_path dir_prefix dir stamp) timeout [] [] d =
  verdict "the search still did not finish" (CheckHistory h timeout) d.
Proof.
  intros Hf Hr Hp. unfold recheckHistory, bind. unfold wrapping at 1, ReadFile, bind, sys. rewrite Hr. cbn [ret get].
  rewrite Hf. unfold ret at 1.
  assert (HasSuffix (history_path dir_prefix dir stamp) (bs ".gz") = false) as ->.
  { unfold history_path. rewrite !app_assoc. rewrite HasSuffix_app by (by vm_compute; lia). by vm_compute. }
  unfold ret at 1, wrapping at 1, lift. rewrite json_roundtrip by (by rewrite (proj1 (proj2 (Events_spec h)))).
  rewrite check_saved. rewrite bool_decide_true by done. done.
Qed.

Lemma run_success drive cf stamp d d' :
  cf_version cf = false → cf_check cf = [] →
  chaosctl_run refuses page dir_prefix drive cf stamp d = (Ret tt, d') →
  ∃ h, drive (workload_of cf) = Ret (h, None) ∧ h_events h ≠ [] ∧ r_Status (CheckHistory h (cf_checkTimeout cf)) = Ok ∧
    (cf_out cf ≠ [] → d' !! history_path dir_prefix (cf_out cf) stamp = Some (json_Encode (Events h))).
Proof.
  intros Hv Hc. unfold chaosctl_run. rewrite Hv, Hc. rewrite bool_decide_true by done. cbn [negb]. unfold bind at 1, lift.
  destruct (drive (workload_of cf)) as [[h [err|]]| | |]; try done.
  destruct (Z.eqb_spec (history_Len h) 0) as [|Hn]; [done|]. unfold bind. intros Hrun. exists h.
  assert (h_events h ≠ []) as Hne by (intros E; unfold history_Len in Hn; by rewrite E in Hn).
  destruct (bool_decide (cf_out cf = [])) eqn:Eo; cbn [negb] in Hrun.
  - apply bool_decide_eq_true in Eo. cbn [ret] in Hrun. unfold verdict in Hrun.
    destruct (r_Status _) eqn:Es; try done.
  - destruct (writeArtifacts _ _ _ _ _ _ _ d) as [[[]| | |] d1] eqn:Ew; try done.
    unfold verdict in Hrun. destruct (r_Status _) eqn:Es; try done. injection Hrun as <-. split_and!; try done.
    intros _. by eapply writeArtifacts_keeps.
Qed.

(** [chaosctl] succeeds only on evidence.  If a run exits without an error then the workload
    ran, every client registered, operations were recorded, the search found an order
    that explains them, and, if a directory was named, the history is in it. *)
Theorem chaosctl_success drive cf stamp d d' :
  cf_version cf = false → cf_check cf = [] →
  chaosctl_run refuses page dir_prefix drive cf stamp d = (Ret tt, d') →
  ∃ h, drive (workload_of cf) = Ret (h, None) ∧ h_events h ≠ [] ∧ r_Status (CheckHistory h (cf_checkTimeout cf)) = Ok ∧
    (cf_out cf ≠ [] → d' !! history_path dir_prefix (cf_out cf) stamp = Some (json_Encode (Events h))).
Proof. apply run_success. Qed.

(** A result can be decided later.  After a run that kept its history, whatever its verdict,
    [--check] on the file that was written, with any time to search, gives the verdict that
    checking the history itself for that long gives, and changes no file. *)
Theorem recheck_decides `{!EncodingLaws} drive cf stamp d h d' timeout :
  cf_version cf = false → cf_check cf = [] → cf_out cf ≠ [] →
  drive (workload_of cf) = Ret (h, None) → Forall plain_event (h_events h) →
  (∀ c, refuses c = None) → (∀ r, ∃ b, page r = Ret b) →
  h_events h ≠ [] → snd (chaosctl_run refuses page dir_prefix drive cf stamp d) = d' →
  let cf' := mkChaosFlags (cf_endpoints cf) (cf_duration cf) (cf_clients cf) (cf_keys cf) (cf_opTimeout cf) timeout
               (cf_reads cf) (cf_seed cf) (cf_keyPrefix cf) [] (history_path dir_prefix (cf_out cf) stamp) false in
  chaosctl_run refuses page dir_prefix drive cf' [] d' =
  verdict "the search still did not finish" (CheckHistory h timeout) d'.
Proof.
  intros Hv Hc Ho Hd Hp Hsys Hpage Hne Hd' cf'.
  assert (d' !! history_path dir_prefix (cf_out cf) stamp = Some (json_Encode (Events h))) as Hfile.
  { subst d'. unfold chaosctl_run. rewrite Hv, Hc. rewrite bool_decide_true by done. cbn [negb]. unfold bind at 1, lift. rewrite Hd.
    destruct (Z.eqb_spec (history_Len h) 0) as [E|_]; [unfold history_Len in E; by destruct (h_events h)|].
    rewrite bool_decide_false by done. cbn [negb]. unfold bind at 1.
    destruct (writeArtifacts refuses page dir_prefix (cf_out cf) stamp h (CheckHistory h (cf_checkTimeout cf)) d) as [o d1] eqn:Ew.
    assert (o = Ret tt) as ->.
    { revert Ew. unfold writeArtifacts, WriteVisualization, wrapping, sys, lift, bind. rewrite !Hsys. cbn.
      destruct (Hpage (CheckHistory h (cf_checkTimeout cf))) as [b Hb]. cbn in Hb. rewrite Hb. destruct (Result_OK _); by intros [= <- _]. }
    cbn [fst snd]. assert (snd (verdict "the linearizability search did not finish" (CheckHistory h (cf_checkTimeout cf)) d1) = d1) as ->.
    { unfold verdict. by destruct (r_Status _). }
    by eapply writeArtifacts_keeps. }
  unfold chaosctl_run. cbn [cf_version cf_check cf_checkTimeout cf_out cf'].
  rewrite bool_decide_false; [cbn [negb]; by apply recheck_kept|].
  unfold history_path. intros E%app_eq_nil. destruct E as [_ E]. by vm_compute in E.
Qed.

(** C22: From the clients to the exit status.  If [chaosctl], asked neither for its version nor
    to check a saved history again, succeeds, its workload being the machine of [Run] over
    whatever the clients meet, then operations were recorded, and one machine could have
    given every answer that a client heard. *)
Theorem chaosctl_explained `{!PorcupineLaws} {R} `{HGen : Generator R} {W} ctx dial invoke pause (seeded : Z → R) (worlds : nat → W)
    drive cf stamp d d' :
  (∀ w h err, drive w = Ret (h, err) →
     ∃ unixNano t0 sched s, (0 < t0)%Z ∧ Forall clocked sched ∧
       Workload_Run ctx dial invoke pause seeded worlds unixNano w t0 sched = Ret (Some s) ∧ Run_result s = Some (h, err)) →
  cf_version cf = false → cf_check cf = [] →
  chaosctl_run refuses page dir_prefix drive cf stamp d = (Ret tt, d') →
  ∃ h, drive (workload_of cf) = Ret (h, None) ∧ h_events h ≠ [] ∧ NoDup (e_ID <$> h_events h) ∧ explained (h_events h).
Proof.
  intros Hdrive Hv Hc Hrun. destruct (run_success _ _ _ _ _ Hv Hc Hrun) as (h & Hd & Hne & Hok & _). exists h.
  destruct (Hdrive _ _ _ Hd) as (unixNano & t0 & sched & s & Ht0 & Hcl & Hw & Hres).
  assert (h = rc_history (wl_rec s)) as ->.
  { unfold Run_result in Hres. by destruct (forallb _ _); simplify_eq. }
  destruct (Workload_Run_ok _ _ _ _ _ _ _ _ _ _ _ Ht0 Hcl Hw) as [[(Hwell & Hnd & _)] _].
  split_and!; try done. by eapply verdict_sound.
Qed.
End theorems.

(** ** A run, kept and decided again *)

Module ChaosctlExample.
Import WorkloadExample.

#[export] Instance OpKind_eq_dec : EqDecision OpKind.
Proof. solve_decision. Defined.

(** An encoding of histories that can be read back: numbers in binary, one byte a digit. *)
Definition as_tuple (e : Event) : (Z * Z * (N * bytes * bytes) * (bytes * bool * bool) * Z * Z) :=
  (e_ClientID e, e_ID e,
   (match in_Op (e_Input e) with OpGet => 0 | OpPut => 1 | OpDelete => 2 | OpOther n => n end, in_Key (e_Input e), in_Value (e_Input e))%N,
   (out_Value (e_Output e), out_Found (e_Output e), out_Unknown (e_Output e)), e_Invoked e, e_Returned e).
Definition of_tuple (t : Z * Z * (N * bytes * bytes) * (bytes * bool * bool) * Z * Z) : Event :=
  let '(c, i, (op, k, v), (ov, f, u), inv, retd) := t in
  mkEvent c i (mkInput (if (op =? 0)%N then OpGet else if (op =? 1)%N then OpPut else if (op =? 2)%N then OpDelete else OpOther op) k v)
    (mkOutput ov f u) inv retd.

Fixpoint digits_of (p : positive) : bytes :=
  match p with xH => [] | xO p => Byte.x30 :: digits_of p | xI p => Byte.x31 :: digits_of p end.
Fixpoint number_of (b : bytes) : positive :=
  match b with [] => xH | c :: b => if bool_decide (c = Byte.x30) then xO (number_of b) else xI (number_of b) end.

#[export] Instance binary : Encodings := {|
  json_Encode es := digits_of (encode (as_tuple <$> es));
  json_Unmarshal b := match decode (number_of b) with Some ts => Ret (of_tuple <$> ts) | None => Fail (Errorf "invalid character" []) end;
  gzip_ReadAll b := Ret b
|}.

Lemma number_of_digits p : number_of (digits_of p) = p.
Proof. induction p; cbn; by f_equal. Qed.

Lemma of_as_tuple e : plain_event e → of_tuple (as_tuple e) = e.
Proof.
  intros (_ & _ & _ & Hop & _). destruct e as [c i [op k v] [ov f u] inv retd]. cbn in *.
  destruct op as [| | |n]; try done. rewrite !(proj2 (N.eqb_neq _ _)) by lia. done.
Qed.

#[export] Instance binary_laws : EncodingLaws.
Proof.
  split. intros es Hes. cbn -[encode decode]. rewrite number_of_digits, decode_encode. f_equal.
  rewrite <- list_fmap_compose. induction Hes as [|e es He Hes IH]; cbn; [done|]. f_equal; [by apply of_as_tuple|exact IH].
Qed.

Definition flags (out : bytes) : chaosFlags :=
  mkChaosFlags (bs " a,") 20 2 2 0 1 (QArith_base.Qmake 0 1) 3 [] out [] false.
Definition refuses (c : syscall) : option error := None.
Definition page (r : CheckOutcome) : outcome bytes := Ret [].
Definition dir_prefix (dir : bytes) : bytes := dir ++ bs "/".

(** The workload, under the schedule of its example. *)
Definition drive (w : Workload) : outcome (History * option (nat * runErr)) :=
  match Workload_Run ctx dial invoke pause Z.to_N worlds 77 w 1 sched with
  | Ret (Some s) => match Run_result s with Some r => Ret r | None => OutOfFuel end
  | _ => OutOfFuel
  end.
#[export] Existing Instance forward_range.
#[export] Existing Instance Exhaustive.porcupine.
#[export] Existing Instance Exhaustive.porcupine_laws.

Definition history : History := rc_history (wl_rec final_state).

Lemma drives : drive (workload_of (flags [])) = Ret (history, None) ∧ drive (workload_of (flags (bs "out"))) = Ret (history, None).
Proof. vm_compute. done. Qed.

Lemma drive_runs w h err : drive w = Ret (h, err) →
  ∃ unixNano t0 sched s, (0 < t0)%Z ∧ Forall clocked sched ∧
    Workload_Run ctx dial invoke pause Z.to_N worlds unixNano w t0 sched = Ret (Some s) ∧ Run_result s = Some (h, err).
Proof.
  unfold drive. intros Hd. destruct (Workload_Run ctx dial invoke pause Z.to_N worlds 77 w 1 sched) as [[s|]| | |] eqn:Er; try done.
  destruct (Run_result s) as [r|] eqn:Es; [|done]. injection Hd as ->. exists 77%N, 1%Z, sched, s. split_and!; try done. apply sched_clocked.
Qed.

Lemma runs : chaosctl_run refuses page dir_prefix drive (flags []) (bs "now") ∅ = (Ret tt, ∅).
Proof. vm_compute. reflexivity. Qed.

Lemma history_plain : Forall plain_event (h_events history) ∧ h_events history ≠ [].
Proof. split; [apply (bool_decide_unpack _); vm_compute; exact I|by vm_compute]. Qed.
End ChaosctlExample.
Import ChaosctlExample.

Lemma chaosctl_success_witness :
  ∃ h, drive (workload_of (flags [])) = Ret (h, None) ∧ r_Status (CheckHistory h 1) = Ok.
Proof.
  destruct (chaosctl_success refuses page dir_prefix drive (flags []) (bs "now") ∅ ∅) as (h & Hd & _ & Hok & _);
    [reflexivity|reflexivity|exact runs|]. exists h. split; [exact Hd|exact Hok].
Defined.

Lemma recheck_decides_witness : ∃ d cf, chaosctl_run refuses page dir_prefix drive cf [] d = verdict "the search still did not finish" (CheckHistory history 9) d.
Proof.
  eexists _, _. apply (recheck_decides refuses page dir_prefix drive (flags (bs "out")) (bs "now") ∅ history _ 9);
    [reflexivity|reflexivity|discriminate|exact (proj2 drives)|exact (proj1 history_plain)|reflexivity|by eexists|exact (proj2 history_plain)|reflexivity].
Defined.

Lemma chaosctl_explained_witness : ∃ h, drive (workload_of (flags [])) = Ret (h, None) ∧ explained (h_events h).
Proof.
  destruct (chaosctl_explained refuses page dir_prefix WorkloadExample.ctx WorkloadExample.dial WorkloadExample.invoke WorkloadExample.pause
    Z.to_N WorkloadExample.worlds drive (flags []) (bs "now") ∅ ∅ drive_runs) as (h & Hd & _ & _ & He);
    [reflexivity|reflexivity|exact runs|]. exists h. split; [exact Hd|exact He].
Defined.

(** A run that recorded nothing fails; a kept history that holds nothing passes. *)
Lemma empty_history_passes path :
  path ≠ [] → HasSuffix path (bs ".gz") = false →
  chaosctl_run refuses page dir_prefix drive (mkChaosFlags [] 0 0 0 0 9 (QArith_base.Qmake 0 1) 0 [] [] path false) []
    {[ path := json_Encode [] ]} = (Ret tt, {[ path := json_Encode [] ]}).
Proof.
  intros Hp Hs. unfold chaosctl_run. cbn [cf_version cf_check cf_checkTimeout cf_out]. rewrite bool_decide_false by done. cbn [negb].
  unfold recheckHistory, bind, wrapping, ReadFile, sys, bind, lift. cbn [refuses ret get]. rewrite lookup_singleton_eq. unfold ret at 1.
  rewrite Hs. unfold ret at 1. rewrite json_roundtrip by constructor. reflexivity.
Qed.
