(* ===== verification/Raftd.v ===== *)
(** * The raftd command

    [cmd/raftd/main.go]: reading the [--peers] flag ([parsePeers]) and checking the flags
    against each other ([validate]), which decide the identities a cluster votes with;
    the order in which [run] starts and stops the other packages, as the list of what
    began and ended, whatever fails on the way; and the lag that [logStatus] reports. *)

From S2P Require Import Prelude Varint GoMaps GoStrings Types Config Storage RaftLog RawNode Node NodeAPI KVServer Transport.

Record options := mkOptions {
  o_id : N;
  o_listen : string;
  o_clientListen : string;
  o_metricsListen : string;
  o_dataDir : string;
  o_peers : bytes;
  o_tickInterval : Z;
  o_electionTick : Z;
  o_heartbeatTick : Z;
  o_preVote : bool;
  o_unsafeNoSync : bool;
  o_logLevel : string;
  o_statusEvery : Z;
  o_version : bool
}.

(** [validate]; the warning about even cluster sizes is only logged. *)
Definition validate (o : options) (peers : list Peer) : outcome unit :=
  if (o_id o =? 0)%N then Fail (Errorf "--id is required and must not be zero" [])
  else if bool_decide (o_dataDir o = EmptyString) then Fail (Errorf "--data is required" [])
  else if bool_decide (peers = []) then Fail (Errorf "--peers is required" [])
  else
    let found := foldl (λ found p, if (peer_ID p =? o_id o)%N then true else found) false peers in
    if negb found then Fail (Errorf "--peers does not include this node's own id" [])
    else if (o_electionTick o <=? o_heartbeatTick o)%Z then
      Fail (Errorf "--heartbeat-ticks must be well below --election-ticks" [])
    else Ret tt.

Definition comma : byte := Byte.x2c.
Definition at_sign : byte := Byte.x40.

(** One element of the flag.  [None]: nothing between two commas. *)
Definition parsePeer (seen : gmap NodeID bytes) (part : bytes) : outcome (option (NodeID * bytes)) :=
  let part := TrimSpace part in
  if bool_decide (part = []) then Ret None
  else
    match Cut at_sign part with
    | None => Fail (Errorf "peer is not in id@address form" [])
    | Some (idStr, addr) =>
        match ParseUint (TrimSpace idStr) with
        | Ret id =>
            if (id =? 0)%N then Fail (Errorf "peer has id 0, which is reserved for 'no node'" [])
            else
              let addr := TrimSpace addr in
              if bool_decide (addr = []) then Fail (Errorf "peer has no address" [])
              else
                match seen !! id with
                | Some _ => Fail (Errorf "id is given twice" [])
                | None => Ret (Some (id, addr))
                end
        | Fail e => Fail (Errorf "peer has an unparseable id" [e])
        | Panic p => Panic p
        | OutOfFuel => OutOfFuel
        end
    end.

Fixpoint parseParts (seen : gmap NodeID bytes) (peers : list Peer) (parts : list bytes) : outcome (list Peer) :=
  match parts with
  | [] => Ret peers
  | part :: parts' =>
      let? r := parsePeer seen part in
      match r with
      | None => parseParts seen peers parts'
      | Some (id, addr) =>
          parseParts (<[id := addr]> seen) (peers ++ [mkPeer id (String.string_of_list_byte addr)]) parts'
      end
  end.

Definition parsePeers (s : bytes) : outcome (list Peer) :=
  if bool_decide (TrimSpace s = []) then Ret []
  else parseParts ∅ [] (Split comma s).

(** ** What the flag can say *)

(** The flag that names [ps]. *)
Definition print_peer (p : Peer) : bytes :=
  FormatUint (peer_ID p) ++ at_sign :: String.list_byte_of_string (peer_Address p).
Definition print_peers (ps : list Peer) : bytes := Join comma (print_peer <$> ps).

(** A peer the flag can name. *)
Definition good_peer (p : Peer) : Prop :=
  (0 < peer_ID p < W64)%N ∧
  (let addr := String.list_byte_of_string (peer_Address p) in
   addr ≠ [] ∧ (comma ∉ addr) ∧ trimmed addr).

Definition good_peers (ps : list Peer) : Prop :=
  NoDup (peer_ID <$> ps) ∧ Forall good_peer ps.

Lemma parsePeer_good seen part id addr :
  comma ∉ part → parsePeer seen part = Ret (Some (id, addr)) →
  seen !! id = None ∧ good_peer (mkPeer id (String.string_of_list_byte addr)).
Proof.
  unfold parsePeer. intros Hc. case_bool_decide; [done|].
  destruct (Cut at_sign (TrimSpace part)) as [[idStr a]|] eqn:E; [|done].
  destruct (ParseUint (TrimSpace idStr)) as [n| | |] eqn:En; try done.
  destruct (N.eqb_spec n 0); [done|]. case_bool_decide; [done|].
  destruct (seen !! n) eqn:Es; [done|]. intros [= <- <-]. split; [done|].
  unfold good_peer. cbn [peer_ID peer_Address]. rewrite String.list_byte_of_string_of_list_byte.
  apply ParseUint_bound in En. split; [lia|]. split; [done|]. split; [|apply TrimSpace_trimmed].
  intros Hin%TrimSpace_elem. apply Hc, TrimSpace_elem.
  apply Cut_Some in E as ->. rewrite elem_of_app, elem_of_cons. auto.
Qed.

Lemma parseParts_good parts seen ps ps' :
  Forall (λ p, comma ∉ p) parts → (∀ i, i ∈ peer_ID <$> ps → is_Some (seen !! i)) →
  good_peers ps → parseParts seen ps parts = Ret ps' → good_peers ps'.
Proof.
  intros Hp. revert seen ps. induction Hp as [|p parts Hp HF IH]; intros seen ps Hseen Hps; cbn; [by intros [= <-]|].
  destruct (parsePeer seen p) as [[[id a]|]| | |] eqn:E; cbn; try done; [|by apply IH].
  destruct (parsePeer_good _ _ _ _ Hp E) as [Hs Hg]. apply IH.
  - intros i. rewrite fmap_app, elem_of_app. cbn. rewrite list_elem_of_singleton.
    intros [Hi| ->]; [|rewrite lookup_insert_eq; by eexists].
    destruct (decide (i = id)) as [->|]; [rewrite lookup_insert_eq; by eexists|].
    rewrite lookup_insert_ne by congruence. by apply Hseen.
  - destruct Hps as [Hnd HF']. split; [|apply Forall_app; split; [done|by apply Forall_singleton]].
    rewrite fmap_app. apply NoDup_app. split; [done|]. split; [|apply NoDup_singleton].
    intros i Hi ->%list_elem_of_singleton. destruct (Hseen _ Hi) as [? ?]. cbn in *. congruence.
Qed.

(** Bytes of identifiers are neither separators nor white space. *)
Lemma digit_plain c : is_digit c → c ≠ at_sign ∧ c ≠ comma ∧ Forall (λ p, c ∉ p) space_runes.
Proof.
  unfold is_digit, digit_of. intros [d Hd]. destruct ((_ <=? _) && _)%N eqn:E; [|done].
  assert (bool_decide (c ≠ at_sign ∧ c ≠ comma ∧ Forall (λ p, c ∉ p) space_runes) = true) as Hb;
    [|by apply bool_decide_eq_true in Hb].
  clear Hd d. destruct c; try (exfalso; by vm_compute in E); by vm_compute.
Qed.

Lemma trimmed_app a c b :
  Forall (λ p, c ∉ p) space_runes → trimmed a → trimmed b → trimmed (a ++ c :: b).
Proof.
  intros Hc [Ha _] [_ Hb]. split; [by apply cut_rune_guard|].
  rewrite reverse_app, reverse_cons, <- app_assoc. cbn [app]. apply cut_rune_guard; [|done].
  apply Forall_fmap. eapply Forall_impl; [exact Hc|]. intros p. cbn. by rewrite elem_of_reverse.
Qed.

Lemma print_peer_trimmed p : good_peer p → trimmed (print_peer p).
Proof.
  intros (_ & _ & _ & Ht). apply trimmed_app; [by apply (bool_decide_unpack _); vm_compute| |done].
  apply digits_trimmed, digits_are_digits.
Qed.

Lemma print_peer_no_comma p : good_peer p → comma ∉ print_peer p.
Proof.
  intros (_ & _ & Hc & _). unfold print_peer. rewrite elem_of_app, elem_of_cons.
  intros [Hd|[?|?]]; [|done..]. unfold FormatUint in Hd.
  eapply Forall_forall in Hd; [|apply digits_are_digits]. apply digit_plain in Hd. naive_solver.
Qed.

Lemma parsePeer_print seen p :
  good_peer p → seen !! peer_ID p = None →
  parsePeer seen (print_peer p) = Ret (Some (peer_ID p, String.list_byte_of_string (peer_Address p))).
Proof.
  intros Hg Hs. unfold parsePeer. rewrite (TrimSpace_id _ (print_peer_trimmed p Hg)).
  destruct Hg as (Hid & Hne & _ & Ht).
  rewrite bool_decide_false by (unfold print_peer; by intros [_ ?]%app_nil).
  unfold print_peer. pose proof (digits_are_digits (N.to_uint (peer_ID p))) as HF.
  rewrite Cut_app.
  2: { intros Hin. unfold FormatUint in Hin. eapply Forall_forall in Hin; [|exact HF].
       apply digit_plain in Hin. naive_solver. }
  rewrite (TrimSpace_id (FormatUint _)) by by apply digits_trimmed.
  rewrite ParseUint_FormatUint by lia. destruct (N.eqb_spec (peer_ID p) 0); [lia|].
  rewrite (TrimSpace_id _ Ht), bool_decide_false by done. by rewrite Hs.
Qed.

Lemma parseParts_print ps seen acc :
  Forall good_peer ps → NoDup (peer_ID <$> ps) → (∀ p, p ∈ ps → seen !! peer_ID p = None) →
  parseParts seen acc (print_peer <$> ps) = Ret (acc ++ ps).
Proof.
  intros HF. revert seen acc. induction HF as [|p ps Hp HF IH]; intros seen acc Hnd Hs; cbn; [by rewrite app_nil_r|].
  rewrite fmap_cons in Hnd. apply NoDup_cons in Hnd as [Hni Hnd].
  rewrite parsePeer_print by (done || apply Hs; by left). cbn.
  rewrite IH; [|done|].
  - rewrite <- app_assoc, String.string_of_list_byte_of_string. by destruct p.
  - intros q Hq. rewrite lookup_insert_ne; [apply Hs; by right|].
    intros E. apply Hni. rewrite E. by apply list_elem_of_fmap_2.
Qed.

Lemma print_peers_trimmed ps : Forall good_peer ps → trimmed (print_peers ps).
Proof.
  unfold print_peers. induction 1 as [|p ps Hp HF IH]; [by split|].
  destruct ps as [|q ps]; [by apply print_peer_trimmed|]. rewrite fmap_cons in *. cbn [Join].
  apply trimmed_app; [by apply (bool_decide_unpack _); vm_compute|by apply print_peer_trimmed|exact IH].
Qed.

Lemma print_peers_nonempty p ps : print_peers (p :: ps) ≠ [].
Proof.
  unfold print_peers. rewrite fmap_cons. cbn [Join]. unfold print_peer.
  destruct (_ <$> ps); [by intros [_ ?]%app_nil|]. by intros [[_ ?]%app_nil _]%app_nil.
Qed.

Lemma parsePeers_good s ps : parsePeers s = Ret ps → good_peers ps.
Proof.
  assert (good_peers []) as Hnil by (split; [apply NoDup_nil_2|constructor]).
  unfold parsePeers. case_bool_decide; [by intros [= <-]|].
  apply parseParts_good; [apply Forall_forall; by intros ? ?%Split_no_sep| |done].
  by intros i ?%elem_of_nil.
Qed.

(** The [--peers] flag can name every list of distinct identities with addresses, and
    [parsePeers] reads back exactly that list; and whatever flag it accepts, the list it
    returns is such a list: no identity is zero, wrapped around or given twice, and no
    address is empty or has white space around it. *)
Theorem parsePeers_exact :
  (∀ ps, good_peers ps → parsePeers (print_peers ps) = Ret ps) ∧
  (∀ s ps, parsePeers s = Ret ps → good_peers ps).
Proof.
  split.
  - intros [|p ps] [Hnd HF]; [done|]. unfold parsePeers.
    rewrite (TrimSpace_id _ (print_peers_trimmed _ HF)), bool_decide_false by apply print_peers_nonempty.
    unfold print_peers. rewrite Split_Join; [by apply (parseParts_print _ ∅ [])|done|].
    apply Forall_fmap. eapply Forall_impl; [exact HF|]. apply print_peer_no_comma.
  - apply parsePeers_good.
Qed.

(** ** Starting a node *)

Lemma validate_found (ps : list Peer) id b :
  foldl (λ found p, if (peer_ID p =? id)%N then true else found) b ps = true →
  b = true ∨ id ∈ peer_ID <$> ps.
Proof.
  revert b. induction ps as [|p ps IH]; intros b; cbn; [by left|].
  intros [Hb|?]%IH; [|right; by apply elem_of_cons; right].
  destruct (N.eqb_spec (peer_ID p) id) as [<-|]; [right; by left|by left].
Qed.

(** Flags that pass both checks name a cluster this node is a member of. *)
Lemma validate_member o ps :
  parsePeers (o_peers o) = Ret ps → validate o ps = Ret tt →
  o_id o ∈ peer_ID <$> ps ∧ (0 < o_id o < W64)%N ∧ (o_heartbeatTick o < o_electionTick o)%Z.
Proof.
  intros Hp. apply parsePeers_good in Hp as [_ HF]. unfold validate.
  destruct (N.eqb_spec (o_id o) 0); [done|]. do 2 (case_bool_decide; [done|]).
  destruct (foldl _ _ _) eqn:E; [|done]. cbn.
  destruct (Z.leb_spec (o_electionTick o) (o_heartbeatTick o)); [done|]. intros _.
  apply validate_found in E as [?|E]; [done|]. split; [done|]. split; [|done].
  apply list_elem_of_fmap in E as (p & -> & Hp%(proj1 (Forall_forall _ _) HF)). apply Hp.
Qed.

(** ** Running *)

(** What [run] starts and stops. *)
Inductive service := SvcDisk | SvcTransport | SvcNode | SvcClients | SvcMetrics.
#[export] Instance service_eq_dec : EqDecision service.
Proof. solve_decision. Defined.

Inductive lifeEvent := Begun (s : service) | Ended (s : service).
#[export] Instance lifeEvent_eq_dec : EqDecision lifeEvent.
Proof. solve_decision. Defined.

(** What ends the wait: a signal, or the node on its own. *)
Inductive wakeup := OnSignal | OnNodeDone.

Section lifetime.
(** [newLogger], and what starting each service comes to. *)
Context (newLogger : string → outcome unit) (start : service → outcome unit).

Definition enabled (addr : string) : bool := negb (String.eqb addr EmptyString).

(** The shutdown at the end of [run]; what closing the transport answers is only logged. *)
Definition raftd_shutdown (o : options) : list lifeEvent :=
  (if enabled (o_clientListen o) then [Ended SvcClients] else []) ++
  (if enabled (o_metricsListen o) then [Ended SvcMetrics] else []) ++
  [Ended SvcNode; Ended SvcTransport].

(** Start what is listed, one after the other; the first error is returned as it is. *)
Fixpoint bring_up (services : list service) (rest : outcome unit * list lifeEvent) : outcome unit * list lifeEvent :=
  match services with
  | [] => rest
  | svc :: services' =>
      match start svc with
      | Ret _ => let '(res, evs) := bring_up services' rest in (res, Begun svc :: evs)
      | Fail e => (Fail e, [])
      | Panic p => (Panic p, [])
      | OutOfFuel => (OutOfFuel, [])
      end
  end.

Definition services (o : options) : list service :=
  [SvcTransport; SvcNode] ++ (if enabled (o_clientListen o) then [SvcClients] else []) ++
  (if enabled (o_metricsListen o) then [SvcMetrics] else []).

(** [run]: it waits for a signal or for the node to be done, which has then ended already;
    either way it shuts down and returns no error.  The database is closed on every return. *)
Definition raftd_run (o : options) (why : wakeup) : outcome unit * list lifeEvent :=
  if o_version o then (Ret tt, [])
  else
    match (let? _ := newLogger (o_logLevel o) in
           let? peers := parsePeers (o_peers o) in
           validate o peers) with
    | Ret _ =>
        match start SvcDisk with
        | Ret _ =>
            let '(res, evs) := bring_up (services o) (Ret tt, match why with OnSignal => [] | OnNodeDone => [Ended SvcNode] end ++ raftd_shutdown o) in
            (res, Begun SvcDisk :: evs ++ [Ended SvcDisk])
        | Fail e => (Fail e, [])
        | Panic p => (Panic p, [])
        | OutOfFuel => (OutOfFuel, [])
        end
    | Fail e => (Fail e, [])
    | Panic p => (Panic p, [])
    | OutOfFuel => (OutOfFuel, [])
    end.

(** ** What is up while what runs *)

(** The services that a service calls. *)
Definition uses (s : service) : list service :=
  match s with SvcClients | SvcMetrics => [SvcNode] | SvcNode => [SvcTransport; SvcDisk] | _ => [] end.

Definition live (running : list service) (ev : lifeEvent) : list service :=
  match ev with Begun s => s :: running | Ended s => filter (λ x, x ≠ s) running end.

Definition running (evs : list lifeEvent) : list service := foldl live [] evs.

(** Whatever runs can rely on what it uses, but for what was lost. *)
Definition supported (lost up : list service) : Prop := Forall (λ s, Forall (λ r, r ∈ up ∨ r ∈ lost) (uses s)) up.
#[export] Instance supported_dec lost up : Decision (supported lost up).
Proof. unfold supported. apply _. Defined.

(** The node, once it stopped on its own. *)
Definition lost (why : wakeup) (evs : list lifeEvent) : list service :=
  match why with OnSignal => [] | OnNodeDone => if decide (Ended SvcNode ∈ evs) then [SvcNode] else [] end.

Definition always_supported (why : wakeup) (evs : list lifeEvent) : Prop :=
  Forall (λ k, supported (lost why (take k evs)) (running (take k evs))) (seq 0 (S (length evs))).

Lemma prefixes why evs k : always_supported why evs → supported (lost why (take k evs)) (running (take k evs)).
Proof.
  intros Ha. unfold always_supported in Ha. rewrite Forall_forall in Ha.
  destruct (decide (k ≤ length evs)%nat); [apply Ha, elem_of_seq; lia|].
  rewrite take_ge by lia. rewrite <- (firstn_all evs). apply Ha, elem_of_seq. lia.
Qed.

Lemma bring_up_all svcs rest :
  Forall (λ s, start s = Ret tt) svcs → bring_up svcs rest = (fst rest, (Begun <$> svcs) ++ snd rest).
Proof.
  induction 1 as [|s svcs Hs _ IH]; cbn [bring_up fmap list_fmap app]; [by destruct rest|].
  rewrite Hs, IH. done.
Qed.

(** Every service starts, or there is a first one that does not. *)
Lemma bring_up_cases svcs rest :
  Forall (λ s, start s = Ret tt) svcs ∨
  ∃ pre svc post, svcs = pre ++ svc :: post ∧ Forall (λ s, start s = Ret tt) pre ∧ start svc ≠ Ret tt ∧
    bring_up svcs rest = (start svc, Begun <$> pre).
Proof.
  induction svcs as [|s svcs IH]; [by left|]. cbn [bring_up].
  destruct (start s) as [[]|e|p|] eqn:Es; [|right; exists [], s, svcs; by rewrite Es..].
  destruct IH as [IH|(pre & svc & post & -> & Hpre & Hne & ->)]; [left; by constructor|].
  right. exists (s :: pre), svc, post. split_and!; [done|by constructor|done..].
Qed.

(** C34: An orderly life.  With flags that are accepted, either every service that is wanted
    starts, or [run] returns the error of the first that does not: then nothing after it was
    begun, and of what was begun before it the database is closed.  If all start, [run]
    returns no error once it is woken up and has ended everything it began; and at no time
    did a service run without what it uses, the client API and the metrics without the node,
    the node without its transport and its database, except that a node which stopped on its
    own is missed by its clients until they are stopped. *)
Theorem raftd_orderly o why peers :
  o_version o = false → newLogger (o_logLevel o) = Ret tt → parsePeers (o_peers o) = Ret peers → validate o peers = Ret tt →
  let wanted := SvcDisk :: services o in
  (Forall (λ s, start s = Ret tt) wanted ∧
   ∃ evs, raftd_run o why = (Ret tt, (Begun <$> wanted) ++ evs) ∧ running ((Begun <$> wanted) ++ evs) = [] ∧
     ∀ k, let seen := take k ((Begun <$> wanted) ++ evs) in supported (lost why seen) (running seen)) ∨
  (∃ pre svc post, wanted = pre ++ svc :: post ∧ Forall (λ s, start s = Ret tt) pre ∧ start svc ≠ Ret tt ∧
     raftd_run o why = (start svc, if decide (pre = []) then [] else (Begun <$> pre) ++ [Ended SvcDisk])).
Proof.
  intros Hv Hl Hp Hval wanted. unfold raftd_run. rewrite Hv, Hl. cbn [obind]. rewrite Hp. cbn [obind]. rewrite Hval.
  set (rest := (Ret tt, _)).
  destruct (start SvcDisk) as [[]|e|p|] eqn:Ed; [|right; exists [], SvcDisk, (services o); by rewrite Ed..].
  destruct (bring_up_cases (services o) rest) as [Hall|(pre & svc & post & E & Hpre & Hne & ->)].
  - left. split; [by constructor|]. rewrite bring_up_all by done. subst wanted rest. cbn [fst snd].
    eexists. split; [by rewrite <- app_assoc|]. unfold services, raftd_shutdown.
    destruct why, (enabled (o_clientListen o)), (enabled (o_metricsListen o)); (split; [reflexivity|]; intros k; apply prefixes;
      apply (bool_decide_unpack _); vm_compute; exact I).
  - right. exists (SvcDisk :: pre), svc, post. subst wanted. rewrite E. split_and!; [done|by constructor|done..].
Qed.

(** A service that does not start: what was begun before it is left as it is, but for the
    database, which is closed under the node. *)
Lemma failed_start_pulls_disk o why peers e :
  o_version o = false → newLogger (o_logLevel o) = Ret tt → parsePeers (o_peers o) = Ret peers → validate o peers = Ret tt →
  o_clientListen o ≠ EmptyString →
  (∀ s, start s = if decide (s = SvcClients) then Fail e else Ret tt) →
  raftd_run o why = (Fail e, [Begun SvcDisk; Begun SvcTransport; Begun SvcNode; Ended SvcDisk]) ∧
  ¬ supported [] (running (snd (raftd_run o why))).
Proof.
  intros Hv Hl Hp Hval Hc Hs.
  assert (raftd_run o why = (Fail e, [Begun SvcDisk; Begun SvcTransport; Begun SvcNode; Ended SvcDisk])) as E.
  { unfold raftd_run. rewrite Hv, Hl. cbn [obind]. rewrite Hp. cbn [obind]. rewrite Hval, Hs. cbn [decide].
    unfold services, enabled. rewrite (proj2 (String.eqb_neq _ _) Hc). cbn [negb app bring_up].
    rewrite (Hs SvcTransport), (Hs SvcNode), (Hs SvcClients). reflexivity. }
  split; [done|]. rewrite E. apply (bool_decide_unpack _). vm_compute. exact I.
Qed.

Lemma bring_up_result svcs rest rest' : fst rest = fst rest' → fst (bring_up svcs rest) = fst (bring_up svcs rest').
Proof.
  intros Hr. induction svcs as [|s svcs IH]; [done|]. cbn [bring_up]. destruct (start s); try done.
  destruct (bring_up svcs rest), (bring_up svcs rest'). done.
Qed.

(** A node that stopped on its own is not an error of the process. *)
Lemma dead_node_exits_clean o : fst (raftd_run o OnNodeDone) = fst (raftd_run o OnSignal).
Proof.
  unfold raftd_run. destruct (o_version o); [done|]. destruct (obind _ _); try done. destruct (start SvcDisk); try done.
  set (r1 := (Ret tt, _)). set (r2 := (Ret tt, [] ++ _)). pose proof (bring_up_result (services o) r1 r2 eq_refl) as E.
  by destruct (bring_up (services o) r1), (bring_up (services o) r2).
Qed.
End lifetime.

(** ** The node that the flags ask for *)

Section configuration.
Context {S G A : Type}.

Definition nodeConfig_of (o : options) (peers : list Peer) (db : S) (store : A) : nodeConfig S G A :=
  mkNodeConfig (o_id o) (peer_ID <$> peers) [] (Some db) true (Some store) (o_electionTick o) (o_heartbeatTick o)
    (o_preVote o) 0 0 0 0 None.

(** Flags that are accepted make a node that is accepted: with a heartbeat every tick at most,
    the configuration passes the checks of package node and of package raft, and its first
    voters are the peers named, this node among them. *)
Lemma accepted_flags_start (seed : NodeID → G) o peers db store :
  parsePeers (o_peers o) = Ret peers → validate o peers = Ret tt → (0 < o_heartbeatTick o)%Z →
  ∃ c, withDefaults seed (nodeConfig_of o peers db store) = Ret c ∧
    RawNode.validate (rawConfig c) (nc_Storage c) (nc_Rand c) = Ret tt ∧
    bootVoters c = peer_ID <$> peers ∧ nc_ID c = o_id o ∧ o_id o ∈ bootVoters c ∧ NoDup (bootVoters c).
Proof.
  intros Hp Hv Hh. destruct (validate_member o peers Hp Hv) as (Hin & Hid & Htick). apply parsePeers_good in Hp as [Hnd _].
  unfold withDefaults. cbn -[bootVoters]. rewrite (proj2 (N.eqb_neq (o_id o) None_)) by (unfold None_; lia). cbn -[bootVoters].
  eexists. split; [reflexivity|]. rewrite (proj2 (Z.eqb_neq _ _)) by lia. rewrite (proj2 (Z.eqb_neq _ _)) by lia.
  assert (∀ c, nc_Bootstrap c = [] → nc_Peers c = peer_ID <$> peers → nc_ID c = o_id o → bootVoters (S := S) (G := G) (A := A) c = peer_ID <$> peers) as Hboot.
  { intros c E1 E2 E3. unfold bootVoters. rewrite E1, E2, E3. unfold contains.
    assert (existsb (N.eqb (o_id o)) (peer_ID <$> peers) = true) as ->; [|done].
    apply existsb_exists. exists (o_id o). split; [by apply list_elem_of_In|apply N.eqb_refl]. }
  rewrite Hboot by done. split_and!; try done. unfold RawNode.validate. cbn.
  rewrite (proj2 (N.eqb_neq (o_id o) None_)) by (unfold None_; lia). rewrite !(proj2 (Z.leb_gt _ _)) by lia. done.
Qed.
End configuration.

(** ** The lag *)

Section status.
Context `{HMap : MapRange}.

(** What [logStatus] logs besides the state: how far behind the commit index each peer is. *)
Definition statusLag (s : Status) : gmap N N :=
  if IsLeader s
  then foldl (λ lag im, if (im.2 <? ss_CommitIndex s)%N then <[im.1 := (ss_CommitIndex s -u im.2)%N]> lag else lag) ∅ (range_map (ss_Match s))
  else ∅.

Lemma statusLag_fold (s : Status) (l : list (NodeID * Index)) (lag : gmap N N) id :
  NoDup l.*1 → (∀ i, i ∈ l.*1 → lag !! i = None) → (ss_CommitIndex s < W64)%N →
  foldl (λ lag im, if (im.2 <? ss_CommitIndex s)%N then <[im.1 := (ss_CommitIndex s -u im.2)%N]> lag else lag) lag l !! id =
  match list_find (λ im, im.1 = id) l with
  | Some (_, (_, m)) => if (m <? ss_CommitIndex s)%N then Some (ss_CommitIndex s - m)%N else None
  | None => lag !! id
  end.
Proof.
  intros Hnd Hfresh Hc. revert lag Hfresh. induction l as [|[i m] l IH]; intros lag Hfresh; [done|].
  cbn [fmap list_fmap fst] in Hnd. apply NoDup_cons in Hnd as [Hi Hnd]. cbn [foldl list_find fst snd].
  rewrite IH; [|done|].
  2: { intros j Hj. destruct (m <? ss_CommitIndex s)%N; [rewrite lookup_insert_ne by (intros ->; done)|]; apply Hfresh; by right. }
  destruct (decide (i = id)) as [->|Hne].
  - assert (list_find (λ im : NodeID * Index, im.1 = id) l = None) as ->.
    { apply list_find_None, Forall_forall. intros [j m'] Hj Ej. cbn in Ej. subst j. apply Hi, list_elem_of_fmap. by exists (id, m'). }
    destruct (N.ltb_spec m (ss_CommitIndex s)); [rewrite lookup_insert_eq, u64_sub_small by lia; done|].
    apply Hfresh. by left.
  - destruct (list_find (λ im : NodeID * Index, im.1 = id) l) as [[k [j m']]|]; cbn; [done|].
    case_match; [by rewrite lookup_insert_ne|done].
Qed.

(** The lag is that of the peers that are behind, each by how much, and is only a leader's. *)
Lemma statusLag_exact s id :
  (ss_CommitIndex s < W64)%N →
  statusLag s !! id =
  if IsLeader s then m ← ss_Match s !! id; if (m <? ss_CommitIndex s)%N then Some (ss_CommitIndex s - m)%N else None else None.
Proof.
  intros Hc. unfold statusLag. destruct (IsLeader s); [|done].
  rewrite statusLag_fold; [|rewrite range_map_perm; apply NoDup_fst_map_to_list|done|done].
  destruct (list_find (λ im : NodeID * Index, im.1 = id) (range_map (ss_Match s))) as [[k [j m]]|] eqn:Ef.
  - apply list_find_Some in Ef as (Hk & Hj & _). cbn in Hj. subst j.
    assert ((id, m) ∈ map_to_list (ss_Match s)) as Hin by (rewrite <- range_map_perm; by eapply list_elem_of_lookup_2).
    apply elem_of_map_to_list in Hin. rewrite Hin. done.
  - apply list_find_None in Ef. destruct (ss_Match s !! id) as [m|] eqn:Em; [|done].
    apply elem_of_map_to_list in Em. rewrite <- range_map_perm in Em. rewrite Forall_forall in Ef. by specialize (Ef _ Em).
Qed.
End status.

(** ** Redirection *)

(** A client that a node turns away is told where the leader is: the address that the flag names
    for it. *)
Lemma redirect_names_leader (o : options) peers c listen srv (st : Status) addr :
  parsePeers (o_peers o) = Ret peers → Serve c ((λ p, (peer_ID p, peer_Address p)) <$> peers) listen = Ret srv →
  ss_Lead st ≠ None_ → mkPeer (ss_Lead st) addr ∈ peers →
  se_detail (notLeader (sv_addrs srv) (Ret st)) = Some (mkNotLeaderError (ss_Lead st) addr).
Proof.
  intros [Hnd _]%parsePeers_good Hs Hl Hin.
  assert (sv_addrs srv !! ss_Lead st = Some addr) as Ea.
  { eapply Serve_addrs; [|exact Hs|].
    - rewrite <- list_fmap_compose. exact Hnd.
    - apply list_elem_of_fmap. by exists (mkPeer (ss_Lead st) addr). }
  unfold notLeader. rewrite (proj2 (N.eqb_neq _ _)) by done. by rewrite Ea.
Qed.

(** ** A cluster of one *)

Module RaftdExample.
Definition flags : options :=
  mkOptions 1 ":9001" ":8001" EmptyString "data" (print_peers [mkPeer 1 "a:9001"]) 100000000 10 2 true false "info" 0 false.
Definition any (s : service) : outcome unit := Ret tt.
Definition logger (level : string) : outcome unit := Ret tt.
End RaftdExample.

Lemma raftd_orderly_witness :
  ∃ evs, raftd_run RaftdExample.logger RaftdExample.any RaftdExample.flags OnSignal =
      (Ret tt, (Begun <$> SvcDisk :: services RaftdExample.flags) ++ evs) ∧
    running ((Begun <$> SvcDisk :: services RaftdExample.flags) ++ evs) = [] ∧ length evs = 4%nat.
Proof.
  destruct (raftd_orderly RaftdExample.logger RaftdExample.any RaftdExample.flags OnSignal [mkPeer 1 "a:9001"])
    as [(_ & evs & E & Hr & _)|(pre & svc & post & _ & _ & Hne & _)];
    [reflexivity|reflexivity|vm_compute; reflexivity|vm_compute; reflexivity| |by destruct Hne].
  exists evs. split; [exact E|]. split; [exact Hr|]. vm_compute in E. injection E as <-. reflexivity.
Defined.
