(* ===== verification/Metrics.v ===== *)
(** * What a node reports about itself

    [metrics/metrics.go]: the collector that asks the node for its status on every scrape
    ([Collect], [observe]) and the two health endpoints ([readyz], [livez]).  A sample is
    what [MustNewConstMetric] is given: a descriptor, a value and the label values.  Values
    are [float64] in the source; the numbers converted to it are kept as they are here,
    which is what the conversion does below 2^53.  Serving HTTP is left to net/http. *)

From S2P Require Import Prelude Varint GoMaps GoStrings Types Config Storage RaftLog RawNode Membership KVStore Node Driver ReadBarriers NodeAPI.

(** The descriptors [NewCollector] builds. *)
Inductive Desc :=
  | d_up | d_term | d_state | d_isLeader | d_hasLeader | d_commitIndex | d_appliedIndex
  | d_lastIndex | d_replicationLag | d_peerMatchIndex | d_voters | d_jointConfig
  | d_electionsTotal | d_leaderChanges | d_scrapeFailures.

#[export] Instance Desc_eq_dec : EqDecision Desc.
Proof. solve_decision. Defined.

(** How many label values a descriptor takes; [MustNewConstMetric] panics on any other
    number. *)
Definition arity (d : Desc) : nat :=
  match d with d_state | d_replicationLag | d_peerMatchIndex => 2 | _ => 1 end.

Record sample := mkSample { sm_desc : Desc; sm_value : N; sm_labels : list bytes }.

Definition gauge (d : Desc) (v : N) (labels : list bytes) : sample := mkSample d v labels.
Definition counter (d : Desc) (v : N) (labels : list bytes) : sample := mkSample d v labels.
Definition boolToFloat (b : bool) : N := if b then 1 else 0.

(** [State.String] *)
Definition state_String (s : State) : bytes :=
  String.list_byte_of_string
    match s with
    | Follower => "follower" | PreCandidate => "pre-candidate"
    | Candidate => "candidate" | Leader => "leader"
    end.

Record Collector := mkCollector {
  col_lastTerm : Term;
  col_lastLeader : NodeID;
  col_elections : N;
  col_leaderChanges : N;
  col_scrapeFailures : N
}.

Definition NewCollector : Collector := mkCollector 0 None_ 0 0 0.

Definition observe (status : Status) (c : Collector) : Collector :=
  let c :=
    if (col_lastTerm c <? ss_Term status)%N then
      mkCollector (ss_Term status) (col_lastLeader c)
        (col_elections c + (ss_Term status -u col_lastTerm c))%N
        (col_leaderChanges c) (col_scrapeFailures c)
    else c in
  if negb (ss_Lead status =? None_)%N && negb (ss_Lead status =? col_lastLeader c)%N then
    mkCollector (col_lastTerm c) (ss_Lead status) (col_elections c)
      (if negb (col_lastLeader c =? None_)%N then col_leaderChanges c + 1 else col_leaderChanges c)%N
      (col_scrapeFailures c)
  else c.

Section collect.
Context `{R : MapRange}.

Definition peer_samples (id : bytes) (status : Status) (pm : NodeID * Index) : list sample :=
  let '(peer, match_) := pm in
  if (peer =? ss_ID status)%N then []
  else
    let lag := if (match_ <? ss_CommitIndex status)%N then ss_CommitIndex status -u match_ else 0%N in
    [gauge d_replicationLag lag [id; FormatUint peer];
     gauge d_peerMatchIndex match_ [id; FormatUint peer]].

(** [Collect], for the node [self] and what [c.node.Status] answers. *)
Definition Collect (self : NodeID) (answer : outcome Status) (c : Collector) : list sample * Collector :=
  let id := FormatUint self in
  match answer with
  | Ret status =>
      let c := observe status c in
      ([gauge d_up 1 [id];
        gauge d_term (ss_Term status) [id];
        gauge d_commitIndex (ss_CommitIndex status) [id];
        gauge d_appliedIndex (ss_AppliedIndex status) [id];
        gauge d_lastIndex (ss_LastIndex status) [id];
        gauge d_isLeader (boolToFloat (IsLeader status)) [id];
        gauge d_hasLeader (boolToFloat (negb (ss_Lead status =? None_)%N)) [id];
        gauge d_voters (N.of_nat (length (Voters (ss_Config status)))) [id];
        gauge d_jointConfig (boolToFloat (IsJoint (ss_Config status))) [id]] ++
       ((λ s, gauge d_state (boolToFloat (bool_decide (ss_State status = s))) [id; state_String s])
          <$> [Follower; PreCandidate; Candidate; Leader]) ++
       (range_map (ss_Match status) ≫= peer_samples id status) ++
       [counter d_electionsTotal (col_elections c) [id];
        counter d_leaderChanges (col_leaderChanges c) [id];
        counter d_scrapeFailures (col_scrapeFailures c) [id]],
       c)
  | _ =>
      let c := mkCollector (col_lastTerm c) (col_lastLeader c) (col_elections c)
                 (col_leaderChanges c) (col_scrapeFailures c + 1) in
      ([gauge d_up 0 [id]; counter d_scrapeFailures (col_scrapeFailures c) [id]], c)
  end.

(** A run of scrapes. *)
Fixpoint scrapes (self : NodeID) (answers : list (outcome Status)) (c : Collector) : list (list sample) * Collector :=
  match answers with
  | [] => ([], c)
  | a :: answers' =>
      let '(out, c) := Collect self a c in
      let '(outs, c) := scrapes self answers' c in (out :: outs, c)
  end.
End collect.

(** ** The health endpoints *)

Inductive health := OK | ServiceUnavailable (why : string).

Definition readyz (answer : outcome Status) : health :=
  match answer with
  | Ret status => if (ss_Lead status =? None_)%N then ServiceUnavailable "no leader known" else OK
  | _ => ServiceUnavailable "node is not answering"
  end.

Definition livez (answer : outcome Status) : health :=
  match answer with
  | Ret _ => OK
  | _ => ServiceUnavailable "node is not answering"
  end.

(** ** A scrape Prometheus accepts *)

Definition series (s : sample) : Desc * list bytes := (sm_desc s, sm_labels s).

Section scrape.
Context `{R : MapRange}.

Lemma peer_series id status l :
  NoDup l.*1 → NoDup (series <$> (l ≫= peer_samples id status)).
Proof.
  intros Hl. induction l as [|[p m] l IH]; [constructor|]. cbn in Hl.
  apply NoDup_cons in Hl as [Hp Hl]. specialize (IH Hl). rewrite bind_cons, fmap_app.
  unfold peer_samples at 1. destruct (p =? ss_ID status)%N; [done|]. cbn zeta.
  assert (∀ d, (d, [id; FormatUint p]) ∉ series <$> (l ≫= peer_samples id status)) as Hni.
  { intros d (s & Es & (q & Hs & Hq)%list_elem_of_bind)%list_elem_of_fmap.
    destruct q as [q mq]. unfold peer_samples in Hs.
    destruct (q =? ss_ID status)%N; [by apply elem_of_nil in Hs|].
    apply Hp, list_elem_of_fmap. exists (q, mq). split; [|done]. cbn.
    rewrite !elem_of_cons in Hs. destruct Hs as [->|[->|[]%elem_of_nil]]; cbn in Es;
      injection Es as _ Es; by apply FormatUint_inj in Es. }
  cbn [fmap list_fmap app series sm_desc sm_labels gauge].
  apply NoDup_cons. split; [rewrite elem_of_cons; intros [?|?]; [done|by eapply Hni]|].
  apply NoDup_cons. split; [apply Hni|done].
Qed.

Lemma peer_arity id status pm s :
  s ∈ peer_samples id status pm →
  (sm_desc s = d_replicationLag ∨ sm_desc s = d_peerMatchIndex) ∧ length (sm_labels s) = arity (sm_desc s).
Proof.
  destruct pm as [q mq]. unfold peer_samples.
  destruct (q =? ss_ID status)%N; [by intros ?%elem_of_nil|].
  rewrite !elem_of_cons. intros [->|[->|[]%elem_of_nil]]; split; auto.
Qed.

Lemma peer_desc id status l d :
  d ∈ sm_desc <$> (l ≫= peer_samples id status) → d = d_replicationLag ∨ d = d_peerMatchIndex.
Proof. intros (s & -> & (pm & Hs & _)%list_elem_of_bind)%list_elem_of_fmap. by eapply peer_arity. Qed.

Lemma series_app l1 l2 :
  NoDup (series <$> l1) → NoDup (series <$> l2) →
  (∀ d, d ∈ sm_desc <$> l1 → d ∉ sm_desc <$> l2) → NoDup (series <$> (l1 ++ l2)).
Proof.
  intros H1 H2 Hd. rewrite fmap_app. apply NoDup_app. split; [done|]. split; [|done].
  intros x (s1 & -> & Hs1)%list_elem_of_fmap (s2 & E & Hs2)%list_elem_of_fmap.
  injection E as E _. apply (Hd (sm_desc s1)); [by apply list_elem_of_fmap_2|].
  rewrite E. by apply list_elem_of_fmap_2.
Qed.

Lemma series_by_desc l : NoDup (sm_desc <$> l) → NoDup (series <$> l).
Proof.
  intros Hl. replace (sm_desc <$> l) with ((series <$> l).*1) in Hl
    by by rewrite <- list_fmap_compose.
  by apply NoDup_fmap_1 in Hl.
Qed.

Lemma state_String_inj s s' : state_String s = state_String s' → s = s'.
Proof. by destruct s, s'. Qed.

(** C36: Every sample of a scrape has the number of labels its descriptor asks for, so building
    it does not panic, and no two samples of a scrape are the same series, so the registry
    does not reject the scrape; for every status the node may answer, every state of the
    counters and every order Go may range over the leader's progress in. *)
Theorem Collect_is_accepted self answer c :
  let samples := (Collect self answer c).1 in
  NoDup (series <$> samples) ∧ Forall (λ s, length (sm_labels s) = arity (sm_desc s)) samples.
Proof.
  cbn zeta. destruct answer as [status| | |];
    [|split; [by apply series_by_desc, (bool_decide_unpack _)|by repeat constructor]..].
  cbn [Collect fst]. split.
  - apply series_app; [by apply series_by_desc, (bool_decide_unpack _)|apply series_app|].
    + rewrite <- list_fmap_compose. apply NoDup_fmap_2_strong; [|by apply (bool_decide_unpack _)].
      intros s s' _ _ [= E%state_String_inj]. done.
    + apply series_app; [|by apply series_by_desc, (bool_decide_unpack _)|].
      * apply peer_series. rewrite range_map_perm. apply NoDup_fst_map_to_list.
      * intros d [->| ->]%peer_desc; by apply (bool_decide_unpack _).
    + intros d Hd. rewrite fmap_app, not_elem_of_app.
      assert (d = d_state) as -> by (cbn in Hd; set_unfold in Hd; naive_solver).
      split; [by intros [|]%peer_desc|by apply (bool_decide_unpack _)].
    + intros d Hd. cbn in Hd. rewrite !fmap_app, !not_elem_of_app.
      split_and!; [..|intros Hin; cbn in Hin; set_unfold; naive_solver].
      * intros Hin. cbn in Hin. set_unfold. naive_solver.
      * intros Hin%peer_desc. set_unfold. naive_solver.
  - rewrite !Forall_app. split_and!; [by repeat constructor..| |by repeat constructor].
    apply Forall_forall. intros s ([q mq] & Hs & _)%list_elem_of_bind. by eapply peer_arity.
Qed.
End scrape.

(** ** What the counters count *)

(** The answers of a run, read from the start. *)
Definition status_of (a : outcome Status) : option Status :=
  match a with Ret s => Some s | _ => None end.
Definition answered (l : list (outcome Status)) : list Status := omap status_of l.

(** How often two neighbours of a list differ. *)
Fixpoint turns (l : list NodeID) : N :=
  match l with
  | x :: (y :: _) as l' => (if (x =? y)%N then 0 else 1) + turns l'
  | _ => 0
  end%N.

Definition max_term (l : list Status) : Term := foldr N.max 0%N (ss_Term <$> l).
Definition known_leaders (l : list Status) : list NodeID :=
  filter (λ i, i ≠ None_) (ss_Lead <$> l).

Lemma turns_snoc l x y : turns (l ++ [x; y]) = (turns (l ++ [x]) + if (x =? y)%N then 0 else 1)%N.
Proof.
  induction l as [|z [|w l] IH]; cbn in *; [lia|lia|]. rewrite IH. lia.
Qed.

(** The state of a collector that has seen [l]. *)
Definition counts (l : list (outcome Status)) (c : Collector) : Prop :=
  col_lastTerm c = max_term (answered l) ∧
  col_elections c = max_term (answered l) ∧
  col_lastLeader c = default None_ (last (known_leaders (answered l))) ∧
  col_leaderChanges c = turns (known_leaders (answered l)) ∧
  col_scrapeFailures c = N.of_nat (length l - length (answered l)).

Lemma max_term_snoc l s : max_term (l ++ [s]) = N.max (max_term l) (ss_Term s).
Proof. unfold max_term. induction l as [|x l IH]; cbn in *; [lia|]. rewrite IH. lia. Qed.

Lemma answered_length l : (length (answered l) ≤ length l)%nat.
Proof. induction l as [|a l IH]; [done|]. unfold answered in *. cbn. destruct (status_of a); cbn; lia. Qed.

Lemma observe_term status c :
  (ss_Term status < W64)%N → col_elections c = col_lastTerm c →
  let c' := observe status c in
  col_lastTerm c' = N.max (col_lastTerm c) (ss_Term status) ∧ col_elections c' = col_lastTerm c' ∧
  col_scrapeFailures c' = col_scrapeFailures c.
Proof.
  intros Hb He. unfold observe. destruct (N.ltb_spec (col_lastTerm c) (ss_Term status)) as [Hlt|]; cbn zeta.
  all: destruct (_ && _); cbn; rewrite ?u64_sub_small by lia; lia.
Qed.

Lemma observe_leader status c l :
  (ss_Term status < W64)%N →
  col_lastLeader c = default None_ (last (known_leaders l)) →
  col_leaderChanges c = turns (known_leaders l) →
  col_lastLeader (observe status c) = default None_ (last (known_leaders (l ++ [status]))) ∧
  col_leaderChanges (observe status c) = turns (known_leaders (l ++ [status])).
Proof.
  intros Hb Hl Ht. unfold known_leaders. rewrite fmap_app, filter_app. cbn [fmap list_fmap].
  rewrite filter_cons, filter_nil. fold (known_leaders l).
  unfold observe. set (c1 := if (_ <? _)%N then _ else _).
  assert (col_lastLeader c1 = col_lastLeader c ∧ col_leaderChanges c1 = col_leaderChanges c) as [E1 E2]
    by (subst c1; by destruct (_ <? _)%N).
  cbn zeta. rewrite E1, E2.
  destruct (N.eqb_spec (ss_Lead status) None_) as [->|Hn]; cbn [negb andb].
  { rewrite decide_False by auto. rewrite app_nil_r, E1, E2. auto. }
  rewrite decide_True by done. rewrite last_snoc. cbn [default].
  destruct (last (known_leaders l)) as [x|] eqn:El; cbn in Hl.
  - apply last_Some in El as [l' El].
    assert (x ≠ None_) as Hx.
    { assert (x ∈ known_leaders l) as Hin by (rewrite El, elem_of_app; right; by left).
      by apply list_elem_of_filter in Hin as [? _]. }
    rewrite El, <- app_assoc. cbn [app]. rewrite turns_snoc, <- El, <- Ht, Hl.
    rewrite (N.eqb_sym x (ss_Lead status)). destruct (N.eqb_spec (ss_Lead status) x) as [->|]; cbn [negb andb col_lastLeader col_leaderChanges]; rewrite ?N.add_0_r.
    + unfold id. split; congruence.
    + rewrite (proj2 (N.eqb_neq x None_) Hx). done.
  - apply last_None in El. rewrite El in *. rewrite Hl.
    rewrite (proj2 (N.eqb_neq (ss_Lead status) None_) Hn). cbn. auto.
Qed.

Section counters.
Context `{R : MapRange}.

Lemma Collect_counts self l a c :
  (∀ s, a = Ret s → (ss_Term s < W64)%N) → counts l c → counts (l ++ [a]) (Collect self a c).2.
Proof.
  intros Hb (Ht & He & Hl & Hc & Hf). unfold counts, answered. rewrite omap_app, length_app.
  fold (answered l). pose proof (answered_length l).
  destruct a as [s| | |]; cbn [omap list_omap status_of Collect snd col_lastTerm col_elections
    col_lastLeader col_leaderChanges col_scrapeFailures];
    [|rewrite app_nil_r; cbn [length]; (split_and!; try done); lia..].
  specialize (Hb s eq_refl). rewrite length_app. cbn [length].
  destruct (observe_term s c Hb) as (H1 & H2 & H3); [congruence|].
  destruct (observe_leader s c (answered l) Hb Hl Hc) as [H4 H5].
  rewrite max_term_snoc. split_and!; [lia|lia|done|done|rewrite H3, Hf; lia].
Qed.

Lemma scrapes_counts self answers l c :
  (∀ s, Ret s ∈ answers → (ss_Term s < W64)%N) → counts l c →
  counts (l ++ answers) (scrapes self answers c).2.
Proof.
  revert l c. induction answers as [|a answers IH]; intros l c Hb Hc; cbn [scrapes]; [by rewrite app_nil_r|].
  pose proof (Collect_counts self l a c) as HC. destruct (Collect self a c) as [out c1]. cbn [snd] in HC.
  specialize (IH (l ++ [a]) c1). destruct (scrapes self answers c1) as [outs c2]. cbn [snd] in *.
  rewrite <- app_assoc in IH. apply IH; [intros s Hs; apply Hb; by right|].
  apply HC; [intros s ->; apply Hb; by left|done].
Qed.

(** After any run of scrapes, answered or not, the failure counter is the number of scrapes
    the node did not answer, the leader counter is how often a known leader differed from
    the one known before it, and the election counter is the highest term any answer
    reported: it is not a count of advances this process saw, since the first answer after
    a start adds all the terms before it. *)
Theorem counters_count self answers :
  (∀ s, Ret s ∈ answers → (ss_Term s < W64)%N) →
  let c := (scrapes self answers NewCollector).2 in
  col_scrapeFailures c = N.of_nat (length answers - length (answered answers)) ∧
  col_leaderChanges c = turns (known_leaders (answered answers)) ∧
  col_elections c = max_term (answered answers).
Proof.
  intros Hb. destruct (scrapes_counts self answers [] NewCollector Hb) as (_ & ? & _ & ? & ?); [done|].
  auto.
Qed.
End counters.

Definition example_status (term : Term) (lead : NodeID) : Status :=
  mkStatus 1 Follower term lead 0 0 0 (mkConfiguration [1%N; 2%N; 3%N] [] []) ∅.

(** A process started in term 7 reports seven elections after its first scrape. *)
Lemma counters_count_witness :
  let answers := [Ret (example_status 7 2); Fail DeadlineExceeded; Ret (example_status 7 3)] in
  (∀ s, Ret s ∈ answers → (ss_Term s < W64)%N) ∧
  col_elections (@scrapes forward_range 1 answers NewCollector).2 = 7%N.
Proof.
  intros answers.
  assert (∀ s, Ret s ∈ answers → (ss_Term s < W64)%N) as Hb.
  { intros s Hs. unfold answers in Hs. rewrite !elem_of_cons in Hs.
    destruct Hs as [[= ->]|[?|[[= ->]|[]%elem_of_nil]]]; done. }
  split; [exact Hb|].
  destruct (@counters_count forward_range 1 answers Hb) as (_ & _ & ->). by vm_compute.
Defined.
